(* ===== verification/_CoqProject ===== *)
-Q . S2P
Prelude.v
StdMap.v
IntervalSet.v
Text.v
StringPrintf.v
IntrusivePtr.v
DumpContext.v
Varint.v
Protocol.v
Queues.v
Monitors.v
ProtocolServer.v
Sockets.v
ServerSockets.v
Ids.v
Mutexes.v
Uuids.v
VersionMap.v
SequencePoint.v
Values.v
ValueStorage.v
Events.v
TransactionSequencer.v
Connections.v
PeerImpl.v
LiveObject.v
HeapGuard.v
Serialization.v
ObjectTable.v
ObjectContent.v
Dumps.v
PlaybackThread.v
PlaybackSync.v
Replay.v
TransactionStore.v
StoreFrame.v
Convergence.v
RecordingThread.v
RecordReplay.v
Peer.v
ToyLexer.v
TokenStorage.v
ToyParser.v
FakeEngine.v
FakeInterpreter.v
Engines.v
ToyObjects.v
ToyRun.v
ToySerialization.v
ToyDump.v
Binaries.v
