(* ===== verification/Prelude.v ===== *)
(** * Floating Temple

    Floating Temple runs one program on several machines.  A program works on
    objects; each machine (a peer) keeps copies of the objects it knows, runs
    methods on them speculatively inside transactions, and sends the events of
    a transaction (method calls, returns, object creations) to the peers that
    are interested in the objects.  A peer that receives a transaction replays
    its events on its own copy.  When a replay does not behave as recorded, a
    transaction has met a conflict: it is rejected, and the peer that made it
    rewinds its program to a point before it.

    Programs are written in a toy language, which the repository also contains,
    together with an engine that runs a program on one machine without sharing.

    ** Parts, files and sources (paths under [src/])

    Foundations:

    - [Prelude]: outcomes of C++ code ([res]: a value, a failed [CHECK] or
      [LOG(FATAL)], undefined behaviour), loops that can fail, totally ordered
      types as a type class with the tactic [ord].
    - [StdMap]: [std::map] and [std::set] as strictly increasing lists with
      positions as iterators ([util/stl_util.h]).
    - [IntervalSet]: [engine/interval_set.h].
    - [Text]: [base/hex.cc], [base/escape.cc], [util/comma_separated.cc],
      [engine/peer_id.cc].
    - [StringPrintf]: the buffers of [base/string_printf.cc].
    - [IntrusivePtr]: [base/intrusive_ptr.h] with the counts of
      [engine/peer_connection.cc].
    - [DumpContext]: [util/dump_context*], the tree of dumped values and its text.
    - [Queues]: [util/state_variable.cc], [util/bool_variable.cc],
      [util/producer_consumer_queue.h], [util/quota_queue.h].
    - [Monitors]: threads that sleep on condition variables ([base/cond_var.*],
      [base/notification.cc], [base/thread_safe_counter.cc], the classes of
      [Queues]) or wait for signals ([util/signal_handler.cc]).
    - [Mutexes]: [base/mutex.*], [base/mutex_lock.cc], [base/time_util.cc],
      [base/random.cc].
    - [Sockets]: [util/tcp.cc], [util/socket_util.cc], [util/event_fd.cc].

    Communication:

    - [Varint], [Protocol]: variable-length integers, framing and one connection
      ([protocol_server/varint.cc], [protocol_server/*_protocol_message.*],
      [protocol_server/protocol_connection_impl.h]).
    - [ProtocolServer]: which thread serves which connection
      ([protocol_server/protocol_server.h]).
    - [ServerSockets]: the descriptors that these threads open, wait on and close,
      from [Start] to [Stop] ([protocol_server/protocol_server.{h,cc}]).
    - [Connections]: the conversation of a connection and the tables of
      connections ([engine/peer_connection.cc], [engine/connection_manager.cc]).
    - [PeerImpl]: starting and stopping a peer ([engine/peer_impl.cc],
      [engine/create_network_peer.cc]).

    The engine:

    - [Ids]: uuids, transaction ids and their generator ([engine/uuid_util.cc],
      [engine/transaction_id_util.cc], [engine/make_transaction_id.cc],
      [engine/transaction_id_generator.cc]).
    - [Uuids]: uuids in binary and their generation ([engine/uuid_util.cc]).
    - [VersionMap]: peers and version maps ([engine/canonical_peer*.cc],
      [engine/version_map.h], [engine/max_version_map.h],
      [engine/min_version_map.h]).
    - [SequencePoint]: which transactions a version of the program sees
      ([engine/peer_exclusion_map.cc], [engine/sequence_point_impl.cc]).
    - [ValueStorage]: the union and the owned string behind a value
      ([include/c++/value.h], [value/value.cc]).
    - [Values], [Events]: values, events, transactions and protocol messages
      ([include/c++/value.h], [engine/value_proto_util.cc],
      [engine/convert_value.cc], [engine/committed_event.cc],
      [engine/shared_object_transaction.cc], [engine/get_event_proto_type.cc],
      [engine/get_peer_message_type.cc]).
    - [TransactionSequencer]: the order of outgoing messages
      ([engine/transaction_sequencer.cc]).
    - [LiveObject]: copy-on-write local objects ([engine/live_object.cc],
      [engine/live_object_node.cc]).
    - [HeapGuard]: what other operations leave of the state of a running method.
    - [Serialization]: [engine/serialization_context_impl.cc],
      [engine/deserialization_context_impl.cc],
      [engine/serialize_local_object_to_string.cc].
    - [ObjectTable]: references, shared objects and the wire form of events
      ([engine/object_reference_impl.cc], [engine/shared_object.cc] and the
      table and conversion methods of [engine/transaction_store.cc]).
    - [ObjectContent]: the history of an object ([engine/object_content.cc]).
    - [PlaybackThread]: [engine/playback_thread.cc], [engine/event_queue.cc].
    - [PlaybackSync]: the two threads of [engine/playback_thread.cc] and their
      state variable.
    - [Replay]: a specification of running methods, and that replays refine it.
    - [TransactionStore]: the peer, its message handlers and transactions
      ([engine/transaction_store.cc] and the part of [engine/shared_object.cc]
      that goes to the content).
    - [Convergence]: several peers that commit and receive transactions.
    - [StoreFrame]: the store leaves the objects of running methods alone.
    - [RecordingThread]: running the program and recording what it does
      ([engine/recording_thread.cc], [engine/pending_transaction.cc],
      [engine/recording_method_context.cc],
      [engine/transaction_store_internal_interface.h]).
    - [RecordReplay]: what the recording thread records can be replayed.
    - [Dumps]: the [Dump] methods of the engine.
    - [Peer]: a concrete peer and program that run, and the witnesses that need
      them.

    The toy language ([toy_lang/]):

    - [ToyLexer]: [token.cc], [lexer.cc].
    - [TokenStorage]: the union and the owned strings behind a token ([token.cc]).
    - [ToyParser]: [expression.cc], [symbol_table.cc], [parser.cc].
    - [ToyObjects]: evaluation and the objects of the language
      ([expression.cc], [code_block.cc], [program_object.cc], [wrap.cc], [zoo/]).
    - [FakeEngine]: the engine that runs a program on its own ([fake_engine/]).
    - [FakeInterpreter]: the string objects of the engine's tests
      ([fake_interpreter/]).
    - [Engines]: examples of programs on which the two engines differ.
    - [ToyRun]: programs of the language on that engine
      ([run_toy_lang_program.cc]).
    - [ToySerialization], [ToyDump]: the wire form of the objects, and their
      [Clone] and [Dump].
    - [Binaries]: the programs of [bin/], composed of the other parts.

    The program runs in [RecordingThread], which runs methods on [LiveObject]s,
    collects their events and commits them with
    [TransactionStore.CreateTransaction].  A message goes from [TransactionStore.HandleMessageFromRemotePeer] through
    [ObjectTable] (decoding) to [ObjectContent.InsertTransaction], which may
    replay the history through [PlaybackThread], which runs methods on a
    [LiveObject]; rejected transactions come back up and change the
    [SequencePoint] and the messages in the [TransactionSequencer].  Messages
    leave and arrive through [Connections], whose bytes [Protocol] frames and
    [ProtocolServer] moves.  The methods that run are those of [ToyObjects].

    ** How the model corresponds to the code

    - A definition has the name of the C++ function it models; a class is a
      Module with its data members as a Record (member names keep the trailing
      underscore).  Definitions in lower case are loops or statement groups of
      the function that the manifest names for them.
    - State is passed explicitly.  [ObjectTable.M], [TransactionStore.ST] and
      [PlaybackThread.PB] are state monads whose failures are those of [res].
    - Pointers.  A [CanonicalPeer] pointer is the peer's id (which
      [VersionMap] justifies), a [SharedObject] pointer the uuid, an
      [ObjectReferenceImpl] or [LiveObject] pointer an index in a table.  A
      pointer that the code only ever guards with [CHECK(p != nullptr)] has a
      type without null.
    - Integers are [Z] with the width written where it matters (uuid and
      transaction id words are below 2^64).  Doubles and floats are their bit
      patterns with IEEE equality.
    - Unordered containers are [gmap] and [gset]; loops over them go through
      [map_to_list] and [elements], an order the theorems do not depend on.
    - Interfaces are type classes: [IdSource] (transaction ids for the
      sequencer, implemented by [Ids]), [LiveObjectStore] (the heap for the
      tables, implemented by [LiveObject]), [Playback] and [PlaybackFrame] (the
      playback thread for the history, implemented by [PlaybackThread]),
      [TransactionStoreInternalInterface] (the store for the recording thread,
      implemented by [TransactionStore] in [RecordingThread.ScheduledStore]),
      [StoreFrame] and [LiveObjectStoreFrame] (what the store and the heap leave
      alone), [Monitor] with [SlotMonitor] or [BroadcastMonitor] (a class whose
      methods sleep), [System] with [SystemLaws] (system calls), [PthreadMutex] with
      [ErrorCheckLaws], [OsspUuid],
      [LocalObjectMethods], [LocalObjectCodec] (the interpreter), [ProtoMessage]
      (the encoding of messages for the framing), [ConnectionHandler] (the
      conversation for the connection), [TokenSource] (the lexer for the
      parser), [Wire] (generated protocol buffers), [WellBehaved] (methods for
      the stand-alone engine), [DumpContext] with [DumpContextLaws], [Printf]
      with [PrintfLaws] and [LocalObjectDump] with [LocalObjectDumpLaws]
      (dumping).
    - The interpreter's code is not part of the engine.  A method is a tree of
      the calls it makes ([PlaybackThread.prog]); theorems hold for every
      interpreter.  The uuid library and the clock are parameters.
    - Threads.  A method of a class is one step, as the code runs it under the
      class's mutex (why this is right is shown in [Mutexes]) or from the one
      recording thread.  A wait on a condition
      variable is explicit: [Paused] for the playback thread, a list of what
      the other threads do meanwhile for [GetLiveObjectAtSequencePoint].  Where
      the recording thread calls the store, the other threads may have had a
      turn before (the schedule of [ScheduledStore]).  Where two threads work on
      the same data between locks ([PlaybackSync], [ProtocolServer],
      [Connections], [Queues], [Monitors]), each critical section is a step and the theorems
      are about every interleaving; a wait is a step that is not enabled, or, in
      [Monitors], a thread that sleeps until it is woken.
    - Fuel.  [working_version_loop] runs at most once per transaction of the
      history and once more ([get_working_version_terminates]);
      [PlaybackThread] bounds the depth and the number of replayed calls by the
      number of events ([replay_consumes_events] shows the bound is never
      reached).  [RecordingThread] runs programs that need not end: its fuel
      bounds the depth of calls and the attempts after rewinds, and [NoFuel]
      is a run that has not ended.  [ToyParser] reads a file with the fuel
      [file_fuel], which [parse_file_terminates] shows to be enough; a call of a
      toy program has fuel for its depth and a [for] or [while] loop for its
      rounds; text is read back with its length as fuel.  The other recursions
      are structural.
    - The target of a [shared_ptr] stays in the heap when the last pointer is
      gone, so a node can count as shared for longer than in the code.

    ** What is shown

    - Peer: an invariant of every reachable state, what rejecting transactions
      does, that the recording thread is unwound to the right frame, what a
      received transaction leaves behind.
    - Several peers: once each has made or received the same transactions, in
      whatever order, they agree on the histories of the objects.
    - History: copies converge whatever the order of arrival; a version is the
      clean replay of the right transactions, and its computation ends; when
      the cache may be used; a history sent to another peer arrives intact.
    - Recording: every call is recorded with its return in the records of caller
      and callee and nothing is lost; an explicit transaction is committed as a
      whole; what a late rejection does.
    - Replay: every event is consumed; a recorded run is reproduced; what the
      recording thread records while a method runs, with the calls, commits and
      messages that happen meanwhile, is such a run.
    - Live objects: copy-on-write refines a map of independent objects.
    - Sequencer: it never aborts on correct use, sends in order, and sends
      everything; how often it repeats messages.
    - Wire: events and values survive the round trip; what is recorded can be
      sent; the types of messages; serialization does not depend on buffers.
    - The two threads of a replay: no abort and no deadlock in any interleaving,
      and a flush returns only when every event has been replayed.
    - Conditions: no wake-up is lost, in any interleaving and with wake-ups that
      have no reason; a signal is not lost between the test and the sleep.
    - Mutexes: critical sections that interleave in small steps do what a run of
      whole sections does, and no check of a mutex function fails.
    - System calls: no descriptor is leaked, whichever calls fail; a server that
      was stopped has closed what it opened.
    - Communication: a connection delivers the messages in order whatever sizes
      the system reads and writes; the conversation starts with HELLO and ends
      with GOODBYE; the tables of connections are consistent; two peers that
      connect to each other at once agree on a connection; a connection is
      served by one thread at a time; starting a peer reaches its known peers.
    - Ownership: the storage of values and of tokens and intrusive pointers never
      use or delete an object twice and leak nothing.
    - Toy language: printed tokens are read back; parsing ends, reads the whole
      file and gives well-scoped programs; methods keep objects well-formed and
      never use a reference that does not exist; objects survive the wire; a
      program that counts prints its numbers.
    - Dumping: the text of a dump reads back as what was dumped; the dump of a
      shared object shows its history.
    - Programs: what they print and when they return; the tool for named objects
      prints the id that peers use.
    - Data structures: exact behaviour of interval sets, version maps, sequence
      points, queues, identifiers and peer names, including where the code
      differs from what its name promises ([add_interval_union_iff],
      [max_version_map_intersection_exact], [sequencer_resends_head],
      [self_call_depends_on_sharing], [late_rejection_skips_method],
      [rejected_transaction_still_replayed], [program_object_unreadable],
      [goodbye_can_overtake_message], [failed_connect_blocks_broadcast],
      [stop_can_abort]).

    ** What is not modelled

    - System calls themselves: what they return is an input of the model, or an
      interface with laws ([Sockets], [ServerSockets], [Mutexes]).  The time limit
      of [select]; a read error of [fgetc], which ends the process.
    - Logging, the protocol buffer library and the uuid library.
    - Memory: deletion by smart pointers other than [intrusive_ptr], and of the
      expressions of the parser.
    - The mutex that a toy object holds while it prints its items: a list that
      contains itself deadlocks in the code and runs out of fuel here.
    - Tests, and [bin/encode_proto_buf.cc], which prints a message in the generated
      wire format. *)
From stdpp Require Import base tactics list sorting strings gmap.
From Stdlib Require Import ZArith Lia.

(** * Outcomes of C++ code

    [CHECK], [CHECK_EQ], ... and [LOG(FATAL)] end the process; they are
    [Fatal].  An operation with undefined behaviour in C++ (dereferencing an
    end iterator, signed overflow) is [Undef].  Everything else is [Ok]. *)
Inductive res (A : Type) : Type :=
| Ok (a : A)
| Fatal
| Undef.
Arguments Ok {A} a.
Arguments Fatal {A}.
Arguments Undef {A}.

#[export] Instance res_ret : MRet res := fun A a => Ok a.
#[export] Instance res_bind : MBind res := fun A B f m =>
  match m with Ok a => f a | Fatal => Fatal | Undef => Undef end.
#[export] Instance res_eq_dec {A} `{EqDecision A} : EqDecision (res A).
Proof. solve_decision. Defined.

Definition CHECK (b : bool) : res unit := if b then Ok tt else Fatal.

(** An option the code dereferences: [None] is undefined behaviour. *)
Definition deref {A} (o : option A) : res A :=
  match o with Some a => Ok a | None => Undef end.

(** An option the code guards by a [CHECK]. *)
Definition check_some {A} (o : option A) : res A :=
  match o with Some a => Ok a | None => Fatal end.

Definition is_ok {A} (r : res A) : bool :=
  match r with Ok _ => true | _ => false end.

Lemma bind_Ok {A B} (m : res A) (f : A → res B) b :
  (m ≫= f) = Ok b ↔ ∃ a, m = Ok a ∧ f a = Ok b.
Proof. destruct m; simpl; naive_solver. Qed.

Lemma CHECK_Ok b u : CHECK b = Ok u ↔ b = true.
Proof. destruct b, u; simpl; naive_solver. Qed.

Lemma check_some_Ok {A} (o : option A) a : check_some o = Ok a ↔ o = Some a.
Proof. destruct o; simpl; naive_solver. Qed.

Lemma deref_Ok {A} (o : option A) a : deref o = Ok a ↔ o = Some a.
Proof. destruct o; simpl; naive_solver. Qed.

(** [res_inv H] takes apart an equation [H : (x ← m; k) = Ok v] into the
    equations of its steps. *)
Ltac res_inv_step :=
  match goal with
  | H : mbind _ _ = Ok _ |- _ =>
      apply bind_Ok in H; let a := fresh "a" in let Ha := fresh "H" in
      destruct H as (a & Ha & H)
  | H : CHECK _ = Ok _ |- _ => apply CHECK_Ok in H
  | H : check_some _ = Ok _ |- _ => apply check_some_Ok in H
  | H : deref _ = Ok _ |- _ => apply deref_Ok in H
  | H : Ok _ = Ok _ |- _ => injection H as H; try subst
  | H : Fatal = Ok _ |- _ => discriminate H
  | H : Undef = Ok _ |- _ => discriminate H
  | H : mret _ = Ok _ |- _ => injection H as H; try subst
  end.
Ltac res_inv := repeat (res_inv_step; simpl in *).

(** ** Loops over a container whose body may abort *)
Fixpoint foldM {A B} (f : B → A → res B) (b : B) (l : list A) : res B :=
  match l with
  | [] => Ok b
  | x :: l' => b' ← f b x; foldM f b' l'
  end.

Lemma foldM_app {A B} (f : B → A → res B) b l1 l2 :
  foldM f b (l1 ++ l2) = (b' ← foldM f b l1; foldM f b' l2).
Proof.
  revert b. induction l1 as [|x l1 IH]; intros b; simpl; [done|].
  destruct (f b x); simpl; auto.
Qed.

(** The induction principle of a loop that ends normally: an invariant of the
    body holds of the state the loop leaves. *)
Lemma foldM_inv {A B} (P : B → Prop) (f : B → A → res B) b l b' :
  (∀ b x b', x ∈ l → P b → f b x = Ok b' → P b') →
  P b → foldM f b l = Ok b' → P b'.
Proof.
  intros Hstep. revert b. induction l as [|x l IH]; intros b Hb Hf; simpl in Hf.
  - by res_inv.
  - apply bind_Ok in Hf as (b1 & H1 & H2). eapply IH; [|..|exact H2].
    + intros ????; eapply Hstep; by constructor.
    + eapply Hstep; [by constructor|done|done].
Qed.

(** A loop whose body never aborts on states satisfying an invariant ends
    normally in such a state. *)
Lemma foldM_total {A B} (P : B → Prop) (f : B → A → res B) b l :
  (∀ b x, x ∈ l → P b → ∃ b', f b x = Ok b' ∧ P b') →
  P b → ∃ b', foldM f b l = Ok b' ∧ P b'.
Proof.
  intros Hstep. revert b. induction l as [|x l IH]; intros b Hb; simpl; [eauto|].
  destruct (Hstep b x) as (b1 & -> & H1); [by constructor|done|]. simpl.
  apply IH; [|done]. intros ??? . apply Hstep. by constructor.
Qed.

Fixpoint mapR {A B} (f : A → res B) (l : list A) : res (list B) :=
  match l with
  | [] => Ok []
  | x :: l' => y ← f x; ys ← mapR f l'; Ok (y :: ys)
  end.

Lemma elem_of_snoc {A} (x y : A) l : x ∈ l ++ [y] ↔ x ∈ l ∨ x = y.
Proof. by rewrite elem_of_app, list_elem_of_singleton. Qed.

Lemma filter_all {A} (Q : A → Prop) `{∀ x, Decision (Q x)} l : Forall Q l → filter Q l = l.
Proof. induction 1; [done|]. rewrite filter_cons_True by done. by f_equal. Qed.

Lemma filter_none {A} (Q : A → Prop) `{∀ x, Decision (Q x)} l :
  Forall (fun x => ¬ Q x) l → filter Q l = [].
Proof. induction 1; [done|]. by rewrite filter_cons_False by done. Qed.

(** * Machine integers: [Z] with the width written out *)
Open Scope Z_scope.

Definition kUint64Max : Z := 2 ^ 64 - 1.
Definition uint64 (z : Z) : Z := z mod 2 ^ 64.
Definition is_uint64 (z : Z) : Prop := 0 ≤ z < 2 ^ 64.
Definition is_int64 (z : Z) : Prop := - 2 ^ 63 ≤ z < 2 ^ 63.
Definition is_int32 (z : Z) : Prop := - 2 ^ 31 ≤ z < 2 ^ 31.

(** Conversion of an unsigned 64-bit value to [int]: the low 32 bits read as
    two's complement (the behaviour of every compiler the build uses). *)
Definition int32_of (z : Z) : Z :=
  let w := z mod 2 ^ 32 in if w <? 2 ^ 31 then w else w - 2 ^ 32.

Lemma int32_of_id z : is_int32 z → int32_of z = z.
Proof.
  unfold is_int32, int32_of. intros Hz. destruct (Z.lt_ge_cases z 0).
  - rewrite <- (Z.mod_unique z (2 ^ 32) (-1) (z + 2 ^ 32)) by lia.
    rewrite (proj2 (Z.ltb_ge _ _)) by lia. lia.
  - rewrite Z.mod_small by lia. by rewrite (proj2 (Z.ltb_lt z (2 ^ 31))) by lia.
Qed.

(** Signed 32-bit addition: overflow is undefined behaviour. *)
Definition add32 (x y : Z) : res Z :=
  if (- 2 ^ 31 <=? x + y) && (x + y <? 2 ^ 31) then Ok (x + y) else Undef.

Lemma uint64_range z : is_uint64 (uint64 z).
Proof. unfold is_uint64, uint64. apply Z.mod_pos_bound. lia. Qed.

Lemma uint64_small z : is_uint64 z → uint64 z = z.
Proof. unfold is_uint64, uint64. apply Z.mod_small. Qed.

Close Scope Z_scope.

(** * Strict total orders

    What a C++ template assumes of its key type's [operator<]. *)
Class Ordered (A : Type) := ltb : A → A → bool.

Class OrderedLaws (A : Type) {O : Ordered A} : Prop := {
  ltb_irrefl (x : A) : ltb x x = false;
  ltb_trans (x y z : A) : ltb x y = true → ltb y z = true → ltb x z = true;
  ltb_total (x y : A) : ltb x y = false → ltb y x = false → x = y;
}.

Declare Scope ord_scope.
Delimit Scope ord_scope with ord.
Notation "x ≺ y" := (ltb x y = true) (at level 70) : ord_scope.
Notation "x ⪯ y" := (ltb y x = false) (at level 70) : ord_scope.
Open Scope ord_scope.

Section ordered.
Context {A : Type} `{OrderedLaws A}.

Lemma ord_lt_le (x y : A) : x ≺ y → x ⪯ y.
Proof.
  intros Hxy. destruct (ltb y x) eqn:E; [|done].
  pose proof (ltb_trans _ _ _ Hxy E) as F. by rewrite ltb_irrefl in F.
Qed.

Lemma ord_le_lt_trans (x y z : A) : x ⪯ y → y ≺ z → x ≺ z.
Proof.
  intros Hxy Hyz. destruct (ltb x z) eqn:E; [done|].
  destruct (ltb z x) eqn:F.
  - pose proof (ltb_trans _ _ _ Hyz F). congruence.
  - rewrite (ltb_total _ _ E F) in Hxy. congruence.
Qed.

Lemma ord_lt_le_trans (x y z : A) : x ≺ y → y ⪯ z → x ≺ z.
Proof.
  intros Hxy Hyz. destruct (ltb x z) eqn:E; [done|].
  destruct (ltb z x) eqn:F.
  - pose proof (ltb_trans _ _ _ F Hxy). congruence.
  - rewrite (ltb_total _ _ E F) in Hxy. congruence.
Qed.

Lemma ord_le_trans (x y z : A) : x ⪯ y → y ⪯ z → x ⪯ z.
Proof.
  intros Hxy Hyz. destruct (ltb z x) eqn:E; [|done].
  pose proof (ord_lt_le_trans _ _ _ E Hxy). congruence.
Qed.

Lemma ord_eq_dec (x y : A) : {x = y} + {x ≠ y}.
Proof.
  destruct (ltb x y) eqn:E; [right; intros ->; by rewrite ltb_irrefl in E|].
  destruct (ltb y x) eqn:F; [right; intros ->; by rewrite ltb_irrefl in F|].
  left. by apply ltb_total.
Qed.

#[export] Instance ord_lt_trans : Transitive (fun x y : A => x ≺ y).
Proof. intros x y z. apply ltb_trans. Qed.

End ordered.

(** [ord] decides goals about [≺], [⪯] and [=] by closing the context under
    transitivity. *)
Ltac ord_learn H :=
  let T := type of H in
  lazymatch goal with
  | _ : T |- _ => fail
  | _ => pose proof H
  end.
Ltac ord_step :=
  match goal with
  | H : ltb ?x ?x = true |- _ => rewrite ltb_irrefl in H; discriminate H
  | H1 : ltb ?x ?y = true, H2 : ltb ?x ?y = false |- _ =>
      rewrite H1 in H2; discriminate H2
  | H1 : ltb ?x ?y = false, H2 : ltb ?y ?x = false |- _ =>
      assert_fails (constr_eq x y);
      let E := fresh "E" in pose proof (ltb_total x y H1 H2) as E; subst
  | H1 : ltb ?x ?y = true, H2 : ltb ?y ?z = true |- _ =>
      ord_learn (ltb_trans x y z H1 H2)
  | H1 : ltb ?y ?x = false, H2 : ltb ?y ?z = true |- _ =>
      ord_learn (ord_le_lt_trans x y z H1 H2)
  | H1 : ltb ?x ?y = true, H2 : ltb ?z ?y = false |- _ =>
      ord_learn (ord_lt_le_trans x y z H1 H2)
  | H1 : ltb ?y ?x = false, H2 : ltb ?z ?y = false |- _ =>
      assert_fails (constr_eq x z);
      ord_learn (ord_le_trans x y z H1 H2)
  end.
Ltac ord_goal :=
  lazymatch goal with
  | |- ltb ?x ?y = true =>
      let E := fresh "E" in destruct (ltb x y) eqn:E; [reflexivity|exfalso]
  | |- ltb ?x ?y = false =>
      let E := fresh "E" in destruct (ltb x y) eqn:E; [exfalso|reflexivity]
  | |- ?x <> ?y => let E := fresh "E" in intros E; subst
  | |- ?x = ?y =>
      first [apply ltb_total;
             let E := fresh "E" in
             match goal with |- ltb ?u ?w = false =>
               destruct (ltb u w) eqn:E; [exfalso|reflexivity] end
            | exfalso]
  | |- False => idtac
  | |- _ => exfalso
  end.
Ltac ord :=
  intros; subst; simpl in *;
  first [reflexivity | assumption
        | solve [ord_goal; repeat ord_step; solve [reflexivity | assumption | congruence]]].

#[export] Instance Z_ordered : Ordered Z := Z.ltb.
#[export] Instance Z_ordered_laws : OrderedLaws Z.
Proof. split; unfold ltb, Z_ordered; lia. Qed.

(** Changes an entry of a map that is there. *)
Definition set_existing {A} (v : nat) (x : A) (a : gmap nat A) : option (gmap nat A) :=
  _ ← a !! v; Some (<[v := x]> a).
Lemma set_existing_Some {A} v (x : A) a a' : set_existing v x a = Some a' → is_Some (a !! v) ∧ a' = <[v := x]> a.
Proof. unfold set_existing. destruct (a !! v); simpl; naive_solver. Qed.
