(* ===== verification/StdMap.v ===== *)
(** [std::map] as the engine uses it: a list of pairs whose keys increase
    strictly.  An iterator is a position in the list ([0] is [begin()], the
    length is [end()]); [std::set<K>] is the map with values in [unit]. *)
From stdpp Require Import base tactics list sorting sets.
From S2P Require Import Prelude.

Abbreviation omap K V := (list (K * V)).
Abbreviation oset K := (list (K * unit)).

Section std_map.
Context {K V : Type} `{HK : OrderedLaws K}.
Implicit Types (m : omap K V) (k j : K) (v : V).

Definition map_wf (m : omap K V) : Prop := StronglySorted (fun x y => x ≺ y) m.*1.

(** ** Iterators *)
Fixpoint lower_bound (k : K) (m : omap K V) : nat :=
  match m with
  | [] => 0
  | (k', _) :: m' => if ltb k' k then S (lower_bound k m') else 0
  end.

Fixpoint upper_bound (k : K) (m : omap K V) : nat :=
  match m with
  | [] => 0
  | (k', _) :: m' => if ltb k k' then 0 else S (upper_bound k m')
  end.

Definition PrevIterator (it : nat) : nat := pred it.

Definition it_second (it : nat) (m : omap K V) : res V := deref (snd <$> m !! it).

Definition it_assign (it : nat) (v : V) (m : omap K V) : omap K V :=
  alter (fun p => (p.1, v)) it m.

Definition map_erase_range (first last : nat) (m : omap K V) : res (omap K V) :=
  if bool_decide (first ≤ last ∧ last ≤ length m)
  then Ok (take first m ++ drop last m) else Undef.

(** ** Lookup and update by key *)
Fixpoint map_find (k : K) (m : omap K V) : option V :=
  match m with
  | [] => None
  | (k', v') :: m' =>
      if ltb k' k then map_find k m' else if ltb k k' then None else Some v'
  end.

Fixpoint map_put (k : K) (v : V) (m : omap K V) : omap K V :=
  match m with
  | [] => [(k, v)]
  | (k', v') :: m' =>
      if ltb k' k then (k', v') :: map_put k v m'
      else if ltb k k' then (k, v) :: (k', v') :: m' else (k', v) :: m'
  end.

(** [emplace]: the new map, the position of the entry, whether it is new. *)
Definition map_emplace (k : K) (v : V) (m : omap K V) : omap K V * nat * bool :=
  match map_find k m with
  | Some _ => (m, lower_bound k m, false)
  | None => (map_put k v m, lower_bound k m, true)
  end.

Fixpoint map_erase (k : K) (m : omap K V) : omap K V :=
  match m with
  | [] => []
  | (k', v') :: m' =>
      if ltb k' k then (k', v') :: map_erase k m'
      else if ltb k k' then (k', v') :: m' else m'
  end.

(** ** Well-formedness *)
Lemma map_wf_nil : map_wf [].
Proof. constructor. Qed.

Lemma map_wf_cons k v m :
  map_wf ((k, v) :: m) ↔ map_wf m ∧ Forall (fun p => k ≺ p.1) m.
Proof.
  unfold map_wf. rewrite fmap_cons. split.
  - inversion 1; subst. by rewrite Forall_fmap in *.
  - intros [??]. constructor; [done|]. by rewrite Forall_fmap.
Qed.

Lemma map_wf_app m1 m2 :
  map_wf (m1 ++ m2) ↔
  map_wf m1 ∧ map_wf m2 ∧ ∀ p q, p ∈ m1 → q ∈ m2 → p.1 ≺ q.1.
Proof.
  induction m1 as [|[k v] m1 IH]; simpl.
  - split; [intros; repeat split; [apply map_wf_nil|done|set_solver]|naive_solver].
  - rewrite !map_wf_cons, IH, Forall_app, !Forall_forall. set_solver.
Qed.

Lemma map_put_keys k v m p :
  p ∈ map_put k v m → p = (k, v) ∨ p ∈ m ∨ (p.1 = k ∧ p.2 = v).
Proof.
  induction m as [|[k' v'] m IH]; simpl; [set_solver|].
  destruct (ltb k' k) eqn:E1; [set_solver|].
  destruct (ltb k k') eqn:E2; [set_solver|].
  assert (k' = k) as -> by ord. set_solver.
Qed.

Lemma map_put_wf k v m : map_wf m → map_wf (map_put k v m).
Proof.
  induction m as [|[k' v'] m IH]; simpl; intros Hm.
  - apply map_wf_cons. split; [apply map_wf_nil|constructor].
  - apply map_wf_cons in Hm as [Hm Hk].
    destruct (ltb k' k) eqn:E1; [|destruct (ltb k k') eqn:E2].
    + apply map_wf_cons. split; [by apply IH|].
      apply Forall_forall. intros p [->|[Hp|[<- _]]]%map_put_keys; [done| |done].
      by apply (proj1 (Forall_forall _ _) Hk).
    + apply map_wf_cons. split; [by apply map_wf_cons|].
      constructor; [done|]. eapply Forall_impl; [exact Hk|]. simpl. ord.
    + by apply map_wf_cons.
Qed.

Lemma map_erase_subseteq k m p : p ∈ map_erase k m → p ∈ m.
Proof.
  induction m as [|[k' v'] m IH]; simpl; [done|].
  repeat case_match; set_solver.
Qed.

Lemma map_erase_wf k m : map_wf m → map_wf (map_erase k m).
Proof.
  induction m as [|[k' v'] m IH]; simpl; [done|]. intros Hm.
  pose proof Hm as [Hm' Hk]%map_wf_cons.
  repeat case_match; try done.
  apply map_wf_cons. split; [auto|].
  apply Forall_forall. intros p Hp%map_erase_subseteq. by eapply Forall_forall in Hk.
Qed.

(** ** Lookup *)
Lemma map_find_lt k m : Forall (fun p => k ≺ p.1) m → map_find k m = None.
Proof.
  destruct m as [|[k' v'] m]; simpl; [done|]. inversion 1; subst; simpl in *.
  by rewrite (ord_lt_le k k'), H2.
Qed.

Lemma map_find_put k v m j :
  map_find j (map_put k v m) =
  if ltb j k then map_find j m
  else if ltb k j then map_find j m else Some v.
Proof.
  induction m as [|[k' v'] m IH]; simpl.
  - destruct (ltb k j) eqn:E1, (ltb j k) eqn:E2; try done; ord.
  - destruct (ltb k' k) eqn:E1; simpl.
    + rewrite IH. destruct (ltb k' j) eqn:E3; [done|].
      assert (ltb j k = true) as -> by ord. done.
    + destruct (ltb k k') eqn:E2; simpl.
      * destruct (ltb k j) eqn:E3, (ltb j k) eqn:E4; try done; try ord.
        by assert (ltb k' j = false) as -> by ord;
           assert (ltb j k' = true) as -> by ord.
      * assert (k' = k) as -> by ord.
        by destruct (ltb k j) eqn:E3, (ltb j k) eqn:E4; try done; ord.
Qed.

Lemma map_find_put_eq k v m : map_find k (map_put k v m) = Some v.
Proof. by rewrite map_find_put, ltb_irrefl. Qed.

Lemma map_find_put_ne k v m j : k ≠ j → map_find j (map_put k v m) = map_find j m.
Proof.
  intros Hne. rewrite map_find_put.
  destruct (ltb j k) eqn:E1, (ltb k j) eqn:E2; try done.
  by destruct Hne; ord.
Qed.

Lemma map_find_Some k v m : map_wf m → map_find k m = Some v ↔ (k, v) ∈ m.
Proof.
  induction m as [|[k' v'] m IH]; simpl; intros Hm; [set_solver|].
  apply map_wf_cons in Hm as [Hm Hk]. rewrite elem_of_cons.
  rewrite Forall_forall in Hk.
  destruct (ltb k' k) eqn:E1; [|destruct (ltb k k') eqn:E2].
  - rewrite IH by done. split; [auto|intros [[=]|?]; [subst; ord|done]].
  - split; [done|]. intros [[=]|Hin]; [subst; ord|].
    specialize (Hk _ Hin). simpl in Hk. ord.
  - assert (k' = k) as -> by ord. split; [intros [=->]; auto|].
    intros [[=->]|Hin]; [done|]. specialize (Hk _ Hin). simpl in Hk. ord.
Qed.

Lemma map_find_None k m : map_wf m → map_find k m = None ↔ k ∉ m.*1.
Proof.
  intros Hm. rewrite list_elem_of_fmap. split.
  - intros Hf ([k' v] & -> & Hin). apply map_find_Some in Hin; [|done].
    simpl in Hf. congruence.
  - intros Hn. destruct (map_find k m) as [v|] eqn:E; [|done].
    destruct Hn. exists (k, v). by rewrite map_find_Some in E.
Qed.

Lemma map_find_is_Some k m : map_wf m → is_Some (map_find k m) ↔ k ∈ m.*1.
Proof.
  intros Hm. rewrite <- not_eq_None_Some, map_find_None by done.
  split; [|tauto]. intros Hn. destruct (map_find k m) as [v|] eqn:E.
  - apply map_find_Some in E; [|done]. apply list_elem_of_fmap. by exists (k, v).
  - by apply map_find_None in E.
Qed.

Lemma map_put_keys_iff k v m j :
  map_wf m → j ∈ (map_put k v m).*1 ↔ j = k ∨ j ∈ m.*1.
Proof.
  intros Hm. rewrite <- !map_find_is_Some by (by try apply map_put_wf).
  destruct (ord_eq_dec j k) as [->|Hne].
  - rewrite map_find_put_eq. naive_solver.
  - rewrite map_find_put_ne by congruence. naive_solver.
Qed.

Lemma map_emplace_keys_iff k v m j :
  map_wf m → j ∈ (map_emplace k v m).1.1.*1 ↔ j = k ∨ j ∈ m.*1.
Proof.
  intros Hm. unfold map_emplace. destruct (map_find k m) as [w|] eqn:E; simpl.
  - split; [by right|]. intros [->|?]; [|done]. by apply map_find_is_Some; [done|rewrite E].
  - by apply map_put_keys_iff.
Qed.

Lemma map_emplace_wf k v m : map_wf m → map_wf (map_emplace k v m).1.1.
Proof. intros Hm. unfold map_emplace. case_match; simpl; [done|by apply map_put_wf]. Qed.

Lemma map_find_erase k m j :
  map_wf m →
  map_find j (map_erase k m) =
  if ltb j k then map_find j m else if ltb k j then map_find j m else None.
Proof.
  induction m as [|[k' v'] m IH]; simpl; intros Hm; [by repeat case_match|].
  apply map_wf_cons in Hm as [Hm Hk].
  destruct (ltb k' k) eqn:E1; simpl.
  - rewrite IH by done. destruct (ltb k' j) eqn:E3; [done|].
    by assert (ltb j k = true) as -> by ord.
  - destruct (ltb k k') eqn:E2; simpl.
    + destruct (ltb j k) eqn:E3, (ltb k j) eqn:E4; try done; try ord.
      by assert (ltb k' j = false) as -> by ord;
         assert (ltb j k' = true) as -> by ord.
    + assert (k' = k) as -> by ord.
      destruct (ltb j k) eqn:E3; [|destruct (ltb k j) eqn:E4]; try done.
      * assert (ltb k j = false) as -> by ord. apply map_find_lt.
        eapply Forall_impl; [exact Hk|]. simpl. ord.
      * assert (j = k) as -> by ord. by apply map_find_lt.
Qed.

(** ** Extensionality: two well-formed maps with the same lookups are equal *)
Lemma map_find_ext m1 m2 :
  map_wf m1 → map_wf m2 → (∀ k, map_find k m1 = map_find k m2) → m1 = m2.
Proof.
  revert m2. induction m1 as [|[k1 v1] m1 IH]; intros [|[k2 v2] m2] H1 H2 Hf.
  - done.
  - specialize (Hf k2). simpl in Hf. by rewrite ltb_irrefl in Hf.
  - specialize (Hf k1). simpl in Hf. by rewrite ltb_irrefl in Hf.
  - pose proof H1 as [H1' L1]%map_wf_cons. pose proof H2 as [H2' L2]%map_wf_cons.
    assert (k1 = k2 ∧ v1 = v2) as [-> ->].
    { pose proof (Hf k1) as F1. pose proof (Hf k2) as F2. simpl in F1, F2.
      rewrite ltb_irrefl in F1, F2.
      destruct (ltb k2 k1) eqn:E1, (ltb k1 k2) eqn:E2; try done; try ord.
      assert (k1 = k2) as -> by ord. split; [done|congruence]. }
    f_equal. apply IH; [done..|]. intros k. pose proof (Hf k) as F. simpl in F.
    destruct (ltb k2 k) eqn:E1; [done|].
    rewrite !map_find_lt; [done|..]; eapply Forall_impl; try eassumption; simpl; ord.
Qed.

(** ** Bounds *)
Lemma upper_bound_length k m : upper_bound k m ≤ length m.
Proof. induction m as [|[k' v'] m IH]; simpl; [lia|]. case_match; lia. Qed.

Lemma lower_bound_length k m : lower_bound k m ≤ length m.
Proof. induction m as [|[k' v'] m IH]; simpl; [lia|]. case_match; lia. Qed.

Lemma upper_bound_take k m : Forall (fun p => p.1 ⪯ k) (take (upper_bound k m) m).
Proof.
  induction m as [|[k' v'] m IH]; simpl; [constructor|].
  destruct (ltb k k') eqn:E; constructor; auto.
Qed.

Lemma upper_bound_drop k m :
  map_wf m → Forall (fun p => k ≺ p.1) (drop (upper_bound k m) m).
Proof.
  induction m as [|[k' v'] m IH]; simpl; [constructor|]. intros Hm.
  pose proof Hm as [Hm' Hk]%map_wf_cons.
  destruct (ltb k k') eqn:E; simpl; [|auto].
  constructor; [done|]. eapply Forall_impl; [exact Hk|]. simpl. ord.
Qed.

Lemma lower_bound_take k m : Forall (fun p => p.1 ≺ k) (take (lower_bound k m) m).
Proof.
  induction m as [|[k' v'] m IH]; simpl; [constructor|].
  destruct (ltb k' k) eqn:E; constructor; auto.
Qed.

Lemma lower_bound_drop k m :
  map_wf m → Forall (fun p => k ⪯ p.1) (drop (lower_bound k m) m).
Proof.
  induction m as [|[k' v'] m IH]; simpl; [constructor|]. intros Hm.
  pose proof Hm as [Hm' Hk]%map_wf_cons.
  destruct (ltb k' k) eqn:E; simpl; [auto|].
  constructor; [done|]. eapply Forall_impl; [exact Hk|]. simpl. ord.
Qed.

(** A bound is the length of the prefix it cuts off: the form in which the
    iterator code is reasoned about. *)
Lemma upper_bound_app k m1 m2 :
  Forall (fun p => p.1 ⪯ k) m1 → Forall (fun p => k ≺ p.1) m2 →
  upper_bound k (m1 ++ m2) = length m1.
Proof.
  induction m1 as [|[k' v'] m1 IH]; simpl; intros H1 H2.
  - destruct m2 as [|[k' v'] m2]; simpl; [done|]. inversion H2; subst; simpl in *.
    by rewrite H3.
  - inversion H1; subst; simpl in *. rewrite H3. by rewrite IH.
Qed.

Lemma lower_bound_app k m1 m2 :
  Forall (fun p => p.1 ≺ k) m1 → Forall (fun p => k ⪯ p.1) m2 →
  lower_bound k (m1 ++ m2) = length m1.
Proof.
  induction m1 as [|[k' v'] m1 IH]; simpl; intros H1 H2.
  - destruct m2 as [|[k' v'] m2]; simpl; [done|]. inversion H2; subst; simpl in *.
    by rewrite H3.
  - inversion H1; subst; simpl in *. rewrite H3. by rewrite IH.
Qed.

Lemma map_split k m :
  map_wf m →
  ∃ m1 m2, m = m1 ++ m2 ∧ Forall (fun p => p.1 ⪯ k) m1 ∧ Forall (fun p => k ≺ p.1) m2.
Proof.
  intros Hm. exists (take (upper_bound k m) m), (drop (upper_bound k m) m).
  rewrite take_drop. auto using upper_bound_take, upper_bound_drop.
Qed.

Lemma map_split_lt k m :
  map_wf m →
  ∃ m1 m2, m = m1 ++ m2 ∧ Forall (fun p => p.1 ≺ k) m1 ∧ Forall (fun p => k ⪯ p.1) m2.
Proof.
  intros Hm. exists (take (lower_bound k m) m), (drop (lower_bound k m) m).
  rewrite take_drop. auto using lower_bound_take, lower_bound_drop.
Qed.

Lemma map_put_app k v m1 m2 :
  Forall (fun p => p.1 ≺ k) m1 → Forall (fun p => k ≺ p.1) m2 →
  map_put k v (m1 ++ m2) = m1 ++ (k, v) :: m2.
Proof.
  induction m1 as [|[k' v'] m1 IH]; simpl; intros H1 H2.
  - destruct m2 as [|[k' v'] m2]; simpl; [done|]. inversion H2; subst; simpl in *.
    by rewrite (ord_lt_le k k'), H3.
  - inversion H1; subst; simpl in *. rewrite H3. by rewrite IH.
Qed.

Lemma upper_bound_mono k j m : k ⪯ j → upper_bound k m ≤ upper_bound j m.
Proof.
  intros Hkj. induction m as [|[k' v'] m IH]; simpl; [done|].
  destruct (ltb k k') eqn:E1; [lia|]. destruct (ltb j k') eqn:E2; [ord|lia].
Qed.

(** The entries between two [upper_bound] iterators. *)
Lemma upper_bound_range k j m p :
  map_wf m → k ⪯ j →
  p ∈ take (upper_bound j m - upper_bound k m) (drop (upper_bound k m) m) ↔
  p ∈ m ∧ k ≺ p.1 ∧ p.1 ⪯ j.
Proof.
  intros Hwf Hkj. set (a := upper_bound k m). set (b := upper_bound j m).
  assert (Hab : a ≤ b) by (by apply upper_bound_mono).
  assert (Hm : m = take a m ++ take (b - a) (drop a m) ++ drop b m).
  { rewrite <- (take_drop a m) at 1. f_equal. rewrite <- (take_drop (b - a) (drop a m)) at 1.
    f_equal. rewrite drop_drop. f_equal. lia. }
  pose proof (upper_bound_take k m) as Ht. pose proof (upper_bound_take j m) as Htj.
  pose proof (upper_bound_drop k m Hwf) as Hd. pose proof (upper_bound_drop j m Hwf) as Hdj.
  fold a in Ht, Hd. fold b in Htj, Hdj. rewrite Forall_forall in Ht, Htj, Hd, Hdj.
  assert (Hmid : ∀ q, q ∈ take (b - a) (drop a m) → q ∈ drop a m ∧ q ∈ take b m).
  { intros q Hq. split; [rewrite <- (take_drop (b - a) (drop a m)); set_solver|].
    assert (take b m = take a m ++ take (b - a) (drop a m)) as ->;
      [rewrite take_take_drop; f_equal; lia|set_solver]. }
  split.
  - intros Hp. destruct (Hmid p Hp) as [Hp1 Hp2]. split_and!; [|by apply Hd|by apply Htj].
    rewrite Hm. set_solver.
  - intros (Hp & H1 & H2). rewrite Hm, !elem_of_app in Hp. destruct Hp as [Hp|[Hp|Hp]]; [|done|].
    + specialize (Ht p Hp). simpl in Ht. ord.
    + specialize (Hdj p Hp). simpl in Hdj. ord.
Qed.

Lemma map_put_last k v m :
  Forall (fun p => p.1 ≺ k) m → map_put k v m = m ++ [(k, v)].
Proof. intros H. rewrite <- (app_nil_r m) at 1. by apply map_put_app. Qed.

(** An entry that is found can be assigned in place. *)
Lemma map_find_split k v m :
  map_find k m = Some v →
  ∃ m1 m2, m = m1 ++ (k, v) :: m2 ∧ ∀ w, map_put k w m = m1 ++ (k, w) :: m2.
Proof.
  induction m as [|[k' v'] m IH]; simpl; [done|].
  destruct (ltb k' k) eqn:E1.
  - intros H. destruct (IH H) as (m1 & m2 & -> & Hput). exists ((k', v') :: m1), m2.
    split; [done|]. intros w. by rewrite Hput.
  - destruct (ltb k k') eqn:E2; [done|]. intros [= ->].
    assert (k' = k) as -> by ord. by exists [], m.
Qed.

Lemma map_find_app_r k m1 m2 :
  Forall (fun p => p.1 ≺ k) m1 → map_find k (m1 ++ m2) = map_find k m2.
Proof. induction 1 as [|[k' v'] m1 H1 _ IH]; simpl in *; [done|]. by rewrite H1. Qed.

Lemma map_erase_range_wf (i i' : nat) m m' :
  map_wf m → map_erase_range i i' m = Ok m' → map_wf m'.
Proof.
  intros Hm He. unfold map_erase_range in He. case_bool_decide as Hi; [|done].
  injection He as <-.
  rewrite <- (take_drop i m), <- (take_drop (i' - i) (drop i m)), drop_drop in Hm.
  replace (i + (i' - i)) with i' in Hm by lia.
  apply map_wf_app in Hm as (H1 & (_ & H2 & _)%map_wf_app & H3).
  apply map_wf_app. split_and!; [done..|]. intros p q Hp Hq. apply H3; [done|]. set_solver.
Qed.

Lemma map_erase_range_app m1 m2 m3 (i i' : nat) :
  i = length m1 → i' = length m1 + length m2 →
  map_erase_range i i' (m1 ++ m2 ++ m3) = Ok (m1 ++ m3).
Proof.
  intros -> ->. unfold map_erase_range.
  rewrite bool_decide_true by (rewrite !length_app; lia).
  rewrite take_app_length, drop_app_ge by lia.
  replace (length m1 + length m2 - length m1) with (length m2) by lia.
  by rewrite drop_app_length.
Qed.

End std_map.

Create HintDb stdmap.
#[export] Hint Resolve map_wf_nil map_put_wf map_erase_wf : stdmap.
