(* ===== verification/IntervalSet.v ===== *)
(** [engine/interval_set.h]: sets of half-open intervals kept as a
    [std::map] from the start of an interval to its end. *)
From stdpp Require Import base tactics list sorting sets.
From Stdlib Require Import Btauto.
From S2P Require Import Prelude StdMap.

Section interval_set.
Context {T : Type} `{HT : OrderedLaws T}.
Implicit Types (m : omap T T) (t s e : T).

(** ** Operations *)
(** The second half of [AddInterval]: absorb the intervals that start at or
    before [end_] into the one at [start_it]. *)
Definition AddInterval_absorb (start_it : nat) (end_ : T) (map_ : omap T T)
    : res (omap T T) :=
  let end_it := upper_bound end_ map_ in
  CHECK (negb (bool_decide (end_it = 0)));;
  old_end ← it_second (PrevIterator end_it) map_;
  start_second ← it_second start_it map_;
  let map_ := if ltb start_second old_end
              then it_assign start_it old_end map_ else map_ in
  map_erase_range (S start_it) end_it map_.

Definition AddInterval (start end_ : T) (map_ : omap T T) : res (omap T T) :=
  if negb (ltb start end_) then Ok map_ else
  let start_it := upper_bound start map_ in
  insert ← (if bool_decide (start_it = 0) then Ok true
            else prev_second ← it_second (PrevIterator start_it) map_;
                 Ok (ltb prev_second start));
  if (insert : bool) then
    let '(map_, it, inserted) := map_emplace start end_ map_ in
    CHECK inserted;; AddInterval_absorb it end_ map_
  else AddInterval_absorb (PrevIterator start_it) end_ map_.

Definition Contains (t : T) (map_ : omap T T) : res bool :=
  let it := upper_bound t map_ in
  if bool_decide (it = 0) then Ok false
  else s ← it_second (PrevIterator it) map_; Ok (ltb t s).

Definition GetEndPoints (map_ : omap T T) : list T :=
  map_ ≫= (fun p => [p.1; p.2]).

Definition interval_set_eqb `{EqDecision T} (a b : omap T T) : bool :=
  bool_decide (a = b).

(** ** The invariant: intervals are non-empty, increasing and do not touch *)
Fixpoint separated (m : omap T T) : Prop :=
  match m with
  | [] => True
  | (s, e) :: m' =>
      s ≺ e ∧ Forall (fun p => e ≺ p.1) m' ∧ separated m'
  end.

(** ** The set of points a map stands for *)
Definition covers (t : T) (m : omap T T) : bool :=
  existsb (fun p => negb (ltb t p.1) && ltb t p.2) m.

(** The interval at hand meets or touches one of the map's intervals at [t]. *)
Definition touches (t : T) (m : omap T T) : bool :=
  existsb (fun p => negb (ltb t p.1) && negb (ltb p.2 t)) m.

(** Some interval that starts at or before [e] extends beyond [t]. *)
Definition extended (e t : T) (m : omap T T) : bool :=
  existsb (fun p => negb (ltb e p.1) && ltb t p.2) m.

Definition in_interval (start end_ t : T) : bool :=
  negb (ltb t start) && ltb t end_.

(** ** Basic facts *)
Lemma separated_app m1 m2 :
  separated (m1 ++ m2) ↔
  separated m1 ∧ separated m2 ∧ ∀ p q, p ∈ m1 → q ∈ m2 → p.2 ≺ q.1.
Proof.
  induction m1 as [|[s e] m1 IH]; simpl.
  - split; [|naive_solver]. intros; split; [done|]. split; [done|]. set_solver.
  - rewrite IH, Forall_app, !Forall_forall. set_solver.
Qed.

Lemma separated_proper m p : separated m → p ∈ m → p.1 ≺ p.2.
Proof.
  induction m as [|[s e] m IH]; simpl; [set_solver|].
  intros (?&_&?) [->|?]%elem_of_cons; [done|auto].
Qed.

Lemma separated_wf m : separated m → map_wf m.
Proof.
  induction m as [|[s e] m IH]; simpl; [intros; apply map_wf_nil|].
  intros (Hse & Hm & Hs). apply map_wf_cons. split; [auto|].
  eapply Forall_impl; [exact Hm|]. simpl. ord.
Qed.

Lemma separated_first m p q : separated (p :: m) → q ∈ m → p.2 ≺ q.1.
Proof.
  destruct p as [s e]. simpl. intros (_ & Hm & _) Hq.
  by apply (proj1 (Forall_forall _ _) Hm).
Qed.

Lemma covers_app t m1 m2 : covers t (m1 ++ m2) = covers t m1 || covers t m2.
Proof. unfold covers. apply existsb_app. Qed.

Lemma extended_app e t m1 m2 :
  extended e t (m1 ++ m2) = extended e t m1 || extended e t m2.
Proof. unfold extended. apply existsb_app. Qed.

Lemma touches_app t m1 m2 : touches t (m1 ++ m2) = touches t m1 || touches t m2.
Proof. unfold touches. apply existsb_app. Qed.

Lemma covers_true t m : covers t m = true ↔ ∃ p, p ∈ m ∧ p.1 ⪯ t ∧ t ≺ p.2.
Proof.
  unfold covers. rewrite existsb_exists. setoid_rewrite <- list_elem_of_In.
  setoid_rewrite andb_true_iff. by setoid_rewrite negb_true_iff.
Qed.

Lemma extended_true e t m : extended e t m = true ↔ ∃ p, p ∈ m ∧ p.1 ⪯ e ∧ t ≺ p.2.
Proof.
  unfold extended. rewrite existsb_exists. setoid_rewrite <- list_elem_of_In.
  setoid_rewrite andb_true_iff. by setoid_rewrite negb_true_iff.
Qed.

Lemma touches_true t m : touches t m = true ↔ ∃ p, p ∈ m ∧ p.1 ⪯ t ∧ t ⪯ p.2.
Proof.
  unfold touches. rewrite existsb_exists. setoid_rewrite <- list_elem_of_In.
  setoid_rewrite andb_true_iff. by setoid_rewrite negb_true_iff.
Qed.

Lemma in_interval_true s e t : in_interval s e t = true ↔ s ⪯ t ∧ t ≺ e.
Proof. unfold in_interval. by rewrite andb_true_iff, negb_true_iff. Qed.

(** A map cut at [t]: what lies before and what lies after. *)
Lemma covers_after t m : Forall (fun p => t ≺ p.1) m → covers t m = false.
Proof.
  intros Hm. apply not_true_iff_false. rewrite covers_true.
  intros (p & Hp & H1 & H2). eapply Forall_forall in Hm; [|done]. ord.
Qed.

Lemma covers_before t m : (∀ p, p ∈ m → p.2 ⪯ t) → covers t m = false.
Proof.
  intros Hm. apply not_true_iff_false. rewrite covers_true.
  intros (p & Hp & H1 & H2). specialize (Hm p Hp). ord.
Qed.

Lemma bool_iff (a b : bool) : (a = true ↔ b = true) → a = b.
Proof. destruct a, b; intuition congruence. Qed.

(** ** [Contains] *)
Lemma contains_covers m t : separated m → Contains t m = Ok (covers t m).
Proof.
  intros Hm. unfold Contains.
  destruct (map_split t m (separated_wf _ Hm)) as (m1 & m2 & -> & H1 & H2).
  rewrite upper_bound_app by done. rewrite covers_app, (covers_after t m2) by done.
  rewrite orb_false_r.
  destruct m1 as [|[s e] m1 _] using rev_ind; [by rewrite bool_decide_true|].
  rewrite bool_decide_false by (rewrite length_app; simpl; lia).
  unfold it_second, PrevIterator. rewrite length_app, Nat.add_1_r. simpl.
  rewrite <- app_assoc, lookup_app_r, Nat.sub_diag by lia. simpl. f_equal.
  rewrite covers_app, covers_before.
  2:{ intros p Hp. apply separated_app in Hm as ((_ & _ & Hm)%separated_app & _).
      apply Forall_app in H1 as [_ H1]. inversion H1; subst; simpl in *.
      assert (p.2 ≺ s) by (apply (Hm p (s, e)); set_solver). ord. }
  apply Forall_app in H1 as [_ H1]. inversion H1; subst; simpl in *.
  unfold covers. simpl. by replace (ltb t s) with false; rewrite ?orb_false_r.
Qed.

(** ** [AddInterval] *)
Definition last_end (y : T) (B : omap T T) : T := default y (snd <$> last B).

Definition absorbed_end (y : T) (B : omap T T) : T :=
  if ltb y (last_end y B) then last_end y B else y.

Lemma absorbed_end_lt t y B :
  separated B → t ≺ absorbed_end y B ↔ t ≺ y ∨ ∃ p, p ∈ B ∧ t ≺ p.2.
Proof.
  intros HB. unfold absorbed_end, last_end.
  destruct B as [|[s e] B _] using rev_ind; simpl.
  { rewrite ltb_irrefl. set_solver. }
  rewrite last_snoc. simpl. apply separated_app in HB as (HB & (Hse & _) & Hlt).
  split.
  - case_match; [|auto]. intros Ht. right. exists (s, e). set_solver.
  - intros [Ht|(p & [Hp| ->%list_elem_of_singleton]%elem_of_app & Ht)]; simpl in *.
    + case_match; ord.
    + assert (p.2 ≺ s) by (apply (Hlt p (s, e)); set_solver).
      case_match; ord.
    + case_match; ord.
Qed.

Lemma absorb_spec L x y B C end_ :
  Forall (fun p => p.1 ⪯ end_) (L ++ (x, y) :: B) →
  Forall (fun p => end_ ≺ p.1) C →
  AddInterval_absorb (length L) end_ (L ++ (x, y) :: B ++ C) =
  Ok (L ++ (x, absorbed_end y B) :: C).
Proof.
  intros H1 H2. unfold AddInterval_absorb.
  replace (L ++ (x, y) :: B ++ C) with ((L ++ (x, y) :: B) ++ C)
    by (by rewrite <- app_assoc).
  rewrite upper_bound_app by done.
  rewrite bool_decide_false by (rewrite length_app; simpl; lia). simpl.
  assert (it_second (PrevIterator (length (L ++ (x, y) :: B)))
            ((L ++ (x, y) :: B) ++ C) = Ok (last_end y B)) as ->.
  { unfold it_second, PrevIterator, last_end.
    rewrite lookup_app_l by (rewrite length_app; simpl; lia).
    rewrite <- last_lookup, last_app_cons, last_cons.
    by destruct (last B) as [[]|]. }
  assert (it_second (length L) ((L ++ (x, y) :: B) ++ C) = Ok y) as ->.
  { unfold it_second. rewrite <- app_assoc, lookup_app_r, Nat.sub_diag by lia. done. }
  simpl. unfold absorbed_end.
  replace (if ltb y (last_end y B) then it_assign _ _ _ else _)
    with ((L ++ [(x, if ltb y (last_end y B) then last_end y B else y)]) ++ B ++ C).
  - rewrite (map_erase_range_app _ B C).
    + by rewrite <- app_assoc.
    + rewrite length_app. simpl. lia.
    + rewrite !length_app. simpl. lia.
  - rewrite <- !app_assoc. simpl. case_match; [|done].
    unfold it_assign. rewrite alter_app_r_alt, Nat.sub_diag by lia. done.
Qed.

(** What [AddInterval] leaves, on both branches: the interval at [x] absorbs
    the intervals of [B]. *)
Record absorbable (L : omap T T) (x y : T) (B C : omap T T) (end_ : T) : Prop := {
  ab_L : separated L;
  ab_BC : separated (B ++ C);
  ab_xy : x ≺ y;
  ab_Lx p : p ∈ L → p.2 ≺ x;
  ab_x p : p ∈ B ++ C → x ≺ p.1;
  ab_B p : p ∈ B → p.1 ⪯ end_;
  ab_C p : p ∈ C → end_ ≺ p.1;
  ab_yC p : p ∈ C → y ≺ p.1;
  ab_x_end : x ⪯ end_;
}.
Arguments ab_L {_ _ _ _ _ _}.
Arguments ab_BC {_ _ _ _ _ _}.
Arguments ab_xy {_ _ _ _ _ _}.
Arguments ab_Lx {_ _ _ _ _ _} _ _.
Arguments ab_x {_ _ _ _ _ _} _ _.
Arguments ab_B {_ _ _ _ _ _} _ _.
Arguments ab_C {_ _ _ _ _ _} _ _.
Arguments ab_yC {_ _ _ _ _ _} _ _.
Arguments ab_x_end {_ _ _ _ _ _}.

Lemma absorbable_run L x y B C end_ :
  absorbable L x y B C end_ →
  AddInterval_absorb (length L) end_ (L ++ (x, y) :: B ++ C) =
  Ok (L ++ (x, absorbed_end y B) :: C).
Proof.
  intros H. apply absorb_spec.
  - apply Forall_app. split; [|constructor].
    + apply Forall_forall. intros p Hp.
      pose proof (ab_Lx H p Hp). pose proof (ab_x_end H).
      pose proof (separated_proper _ _ (ab_L H) Hp). ord.
    + exact (ab_x_end H).
    + apply Forall_forall, (ab_B H).
  - apply Forall_forall, (ab_C H).
Qed.

Lemma absorbable_separated L x y B C end_ :
  absorbable L x y B C end_ → separated (L ++ (x, absorbed_end y B) :: C).
Proof.
  intros H. pose proof (ab_BC H) as (HB & HC & HBC)%separated_app.
  assert (x ≺ absorbed_end y B).
  { apply absorbed_end_lt; [done|]. left. exact (ab_xy H). }
  apply separated_app. split; [exact (ab_L H)|]. split; [split; [done|split; [|done]]|].
  - apply Forall_forall. intros q Hq. unfold absorbed_end, last_end.
    destruct B as [|p B _] using rev_ind; simpl.
    { rewrite ltb_irrefl. by apply (ab_yC H). }
    rewrite last_snoc. simpl. case_match.
    + apply HBC; set_solver.
    + by apply (ab_yC H).
  - intros p q Hp [->|Hq]%elem_of_cons; simpl; [exact (ab_Lx H p Hp)|].
    pose proof (ab_Lx H p Hp).
    pose proof (ab_x H q ltac:(set_solver)). ord.
Qed.

Lemma absorbable_covers L x y B C end_ t :
  absorbable L x y B C end_ →
  covers t (L ++ (x, absorbed_end y B) :: C) = true ↔
  covers t (L ++ B ++ C) = true ∨ (x ⪯ t ∧ (t ≺ y ∨ ∃ p, p ∈ B ∧ t ≺ p.2)).
Proof.
  intros H. pose proof (ab_BC H) as (HB & HC & HBC)%separated_app.
  rewrite <- absorbed_end_lt by done. rewrite !covers_true. split.
  - intros (p & [Hp|[->|Hp]%elem_of_cons]%elem_of_app & ?); [|by right|]; left;
      exists p; set_solver.
  - intros [(p & Hp & H1 & H2)|H1].
    + apply elem_of_app in Hp as [Hp|[Hp|Hp]%elem_of_app]; [set_solver| |set_solver].
      exists (x, absorbed_end y B). split; [set_solver|]. simpl. split.
      * pose proof (ab_x H p ltac:(set_solver)). ord.
      * apply absorbed_end_lt; [done|]. eauto.
    + exists (x, absorbed_end y B). set_solver.
Qed.

(** Inserting a fresh entry between [L] and [M]. *)
Lemma map_emplace_between L M start (end_ : T) :
  Forall (fun p => p.1 ≺ start) L → Forall (fun p => start ≺ p.1) M →
  map_emplace start end_ (L ++ M) = (L ++ (start, end_) :: M, length L, true).
Proof.
  intros HL HM. unfold map_emplace.
  rewrite map_find_app_r, map_find_lt by done.
  rewrite map_put_app by done. rewrite lower_bound_app; [done..|].
  eapply Forall_impl; [exact HM|]. simpl. ord.
Qed.

Lemma insert_branch L B C start end_ :
  separated (L ++ B ++ C) → start ≺ end_ →
  (∀ p, p ∈ L → p.2 ≺ start) → (∀ p, p ∈ B ++ C → start ≺ p.1) →
  (∀ p, p ∈ B → p.1 ⪯ end_) → (∀ p, p ∈ C → end_ ≺ p.1) →
  touches start (L ++ B ++ C) = false ∧
  absorbable L start end_ B C end_ ∧
  map_emplace start end_ (L ++ B ++ C) =
  (L ++ (start, end_) :: B ++ C, length L, true).
Proof.
  intros Hm Hse HL HBC HB HC. split_and!.
  - apply not_true_iff_false. rewrite touches_true.
    intros (p & [Hp|Hp]%elem_of_app & ? & ?).
    + specialize (HL p Hp). ord.
    + specialize (HBC p Hp). ord.
  - apply separated_app in Hm as (? & ? & _). split; try done. ord.
  - apply map_emplace_between; apply Forall_forall; [|done].
    intros p Hp. specialize (HL p Hp).
    apply separated_app in Hm as (Hm & _). pose proof (separated_proper _ _ Hm Hp). ord.
Qed.

Lemma merge_branch L x y B C start end_ :
  separated (L ++ (x, y) :: B ++ C) → start ≺ end_ → x ⪯ start → start ⪯ y →
  (∀ p, p ∈ B → p.1 ⪯ end_) → (∀ p, p ∈ C → end_ ≺ p.1) →
  touches start (L ++ (x, y) :: B ++ C) = true ∧ absorbable L x y B C end_.
Proof.
  intros (HL & (Hxy & Hy & HBC) & HLx)%separated_app Hse Hx Hys HB HC.
  rewrite Forall_forall in Hy. split.
  - apply touches_true. exists (x, y). set_solver.
  - split; try done.
    + intros p Hp. apply (HLx p (x, y)); set_solver.
    + intros p Hp. specialize (Hy p Hp). ord.
    + set_solver.
    + ord.
Qed.

(** The two branches of [AddInterval] as decompositions of the map. *)
Lemma AddInterval_cases start end_ m :
  separated m → start ≺ end_ →
  (∃ L B C, m = L ++ B ++ C ∧ touches start m = false ∧
     absorbable L start end_ B C end_ ∧
     AddInterval start end_ m =
     Ok (L ++ (start, absorbed_end end_ B) :: C)) ∨
  (∃ L x y B C, m = L ++ (x, y) :: B ++ C ∧ touches start m = true ∧
     x ⪯ start ∧ start ⪯ y ∧ absorbable L x y B C end_ ∧
     AddInterval start end_ m = Ok (L ++ (x, absorbed_end y B) :: C)).
Proof.
  intros Hm Hse. unfold AddInterval. rewrite Hse. simpl.
  destruct (map_split start m (separated_wf _ Hm)) as (m1 & m2 & -> & H1 & H2).
  rewrite upper_bound_app by done.
  pose proof Hm as (Hm1 & Hm2 & Hm12)%separated_app.
  destruct (map_split end_ m2 (separated_wf _ Hm2)) as (B & C & -> & HB & HC).
  rewrite Forall_forall in HB, HC, H2.
  destruct m1 as [|[x y] L _] using rev_ind.
  - left. exists [], B, C. simpl.
    destruct (insert_branch [] B C start end_) as (Ht & Ha & He); try done; [set_solver|].
    simpl in *. rewrite He. simpl. split_and!; try done.
    by apply (absorbable_run []).
  - rewrite bool_decide_false by (rewrite length_app; simpl; lia).
    assert (it_second (PrevIterator (length (L ++ [(x, y)])))
              ((L ++ [(x, y)]) ++ B ++ C) = Ok y) as ->.
    { unfold it_second, PrevIterator. rewrite length_app, Nat.add_1_r, <- app_assoc.
      simpl. by rewrite lookup_app_r, Nat.sub_diag by lia. }
    simpl. destruct (ltb y start) eqn:Hy.
    + left. exists (L ++ [(x, y)]), B, C. 
      destruct (insert_branch (L ++ [(x, y)]) B C start end_)
        as (Ht & Ha & He); try done.
      { intros p [Hp| ->%list_elem_of_singleton]%elem_of_app; [|done].
        apply separated_app in Hm1 as (_ & (Hxy & _) & HL).
        assert (p.2 ≺ x) by (apply (HL p (x, y)); set_solver). ord. }
      rewrite He. simpl. split_and!; try done. by apply absorbable_run.
    + right. exists L, x, y, B, C. apply Forall_app in H1 as [_ H1].
      inversion H1; subst; simpl in *.
      rewrite <- app_assoc in Hm |- *. simpl in Hm |- *.
      destruct (merge_branch L x y B C start end_) as (Ht & Ha); try done.
      unfold PrevIterator. rewrite length_app, Nat.add_1_r. simpl.
      split_and!; try done. by apply absorbable_run.
Qed.

(** The points of the map [AddInterval] leaves, on either branch. *)
Lemma AddInterval_covers start end_ m :
  separated m → start ≺ end_ →
  ∃ m', AddInterval start end_ m = Ok m' ∧ separated m' ∧
    ∀ t, covers t m' =
      covers t m ||
      (negb (ltb t start) &&
       ((negb (touches start m) && ltb t end_) || extended end_ t m)).
Proof.
  intros Hm Hse.
  destruct (AddInterval_cases start end_ m Hm Hse)
    as [(L & B & C & Em & Ht & Ha & ->)|(L & x & y & B & C & Em & Ht & Hx & Hy & Ha & ->)];
    eexists; (split; [done|]); (split; [by eapply absorbable_separated|]);
    intros t; rewrite Ht; apply bool_iff; rewrite (absorbable_covers _ _ _ _ _ _ t Ha);
    rewrite orb_true_iff, andb_true_iff, orb_true_iff, negb_true_iff, extended_true; subst m.
  - simpl. split.
    + intros [?|[? [?|(p & Hp & Htp)]]]; [auto..|].
      right. split; [done|]. right. exists p.
      pose proof (ab_B Ha p Hp). set_solver.
    + intros [?|[? [?|(p & Hp & Hpe & Htp)]]]; [auto..|].
      right. split; [done|]. right. exists p. split; [|done].
      apply elem_of_app in Hp as [Hp|[Hp|Hp]%elem_of_app]; [|done|].
      * pose proof (ab_Lx Ha p Hp). ord.
      * pose proof (ab_C Ha p Hp). ord.
  - replace (covers t (L ++ (x, y) :: B ++ C))
      with (covers t (L ++ B ++ C) || in_interval x y t).
    2:{ unfold covers, in_interval. rewrite !existsb_app. simpl.
        rewrite !existsb_app. by btauto. }
    rewrite orb_true_iff, in_interval_true. simpl. split.
    + intros [?|[? [?|(p & Hp & Htp)]]]; [auto..|].
      destruct (ltb t y) eqn:Hty; [auto|]. right. split; [ord|]. right. exists p.
      pose proof (ab_B Ha p Hp). set_solver.
    + intros [[?|[??]]|[? [[=]|(p & Hp & Hpe & Htp)]]]; [auto..|].
      right. split; [ord|].
      apply elem_of_app in Hp as [Hp|[->|[Hp|Hp]%elem_of_app]%elem_of_cons];
        [|by left|by right; eauto|].
      * pose proof (ab_Lx Ha p Hp). ord.
      * pose proof (ab_C Ha p Hp). ord.
Qed.

(** The last interval that starts at or before [e]. *)
Lemma last_before e m :
  separated m → (∃ p, p ∈ m ∧ p.1 ⪯ e) →
  ∃ q, q ∈ m ∧ q.1 ⪯ e ∧ ∀ p, p ∈ m → p.1 ⪯ e → p.2 ⪯ q.2.
Proof.
  intros Hm (p0 & Hp0 & He0).
  destruct (map_split e m (separated_wf _ Hm)) as (m1 & m2 & -> & H1 & H2).
  rewrite Forall_forall in H1, H2.
  destruct m1 as [|q m1 _] using rev_ind.
  { specialize (H2 p0 Hp0). ord. }
  exists q. split; [set_solver|]. split; [apply H1; set_solver|].
  apply separated_app in Hm as ((_ & Hq & Hlt)%separated_app & _).
  assert (q.1 ≺ q.2) by (eapply separated_proper; [exact Hq|set_solver]).
  intros p [[Hp| ->%list_elem_of_singleton]%elem_of_app|Hp]%elem_of_app Hpe; [| |].
  - assert (p.2 ≺ q.1) by (apply (Hlt p q); set_solver). ord.
  - apply ltb_irrefl.
  - specialize (H2 p Hp). ord.
Qed.

Lemma end_not_covered p m : separated m → p ∈ m → covers p.2 m = false.
Proof.
  intros Hm Hp. apply not_true_iff_false. rewrite covers_true.
  intros (q & Hq & H1 & H2). apply list_elem_of_split in Hp as (m1 & m2 & ->).
  apply separated_app in Hm as (_ & Hpm & Hlt).
  pose proof (separated_proper (p :: m2) p Hpm ltac:(set_solver)).
  apply elem_of_app in Hq as [Hq|[->|Hq]%elem_of_cons].
  - assert (q.2 ≺ p.1) by (apply Hlt; set_solver). ord.
  - ord.
  - pose proof (separated_first _ _ _ Hpm Hq). ord.
Qed.

(** ** Properties *)

(** [AddInterval] on a well-formed set never fails a check
    or leaves the map, keeps the set well-formed, and [Contains] of the result
    is, for every point [t]: [t] was a member, or [t] is at or after [start]
    and either [start] touched no interval and [t] is before [end], or some
    interval that starts at or before [end] extends beyond [t]. *)
Theorem add_interval_exact start end_ m :
  separated m → start ≺ end_ →
  ∃ m', AddInterval start end_ m = Ok m' ∧ separated m' ∧
    ∀ t, Contains t m' =
      Ok (covers t m ||
          (negb (ltb t start) &&
           ((negb (touches start m) && ltb t end_) || extended end_ t m))).
Proof.
  intros Hm Hse. destruct (AddInterval_covers start end_ m Hm Hse) as (m' & He & Hs & Hc).
  exists m'. split_and!; [done..|]. intros t. by rewrite contains_covers, Hc.
Qed.

(** Two well-formed sets with the same points have the same first interval. *)
Lemma covers_head s e m t : separated ((s, e) :: m) → covers t ((s, e) :: m) = true → s ⪯ t.
Proof.
  intros Hm (p & [->|Hp]%elem_of_cons & H1 & H2)%covers_true; [done|].
  pose proof (separated_first _ _ _ Hm Hp). destruct Hm as [Hse _]. simpl in *. ord.
Qed.

Lemma covers_cons s e m t :
  covers t ((s, e) :: m) = in_interval s e t || covers t m.
Proof. done. Qed.

Lemma separated_tail_covers s e m t :
  separated ((s, e) :: m) → covers t m = covers t ((s, e) :: m) && negb (ltb t e).
Proof.
  intros Hm. rewrite covers_cons. apply bool_iff.
  rewrite andb_true_iff, orb_true_iff, negb_true_iff, in_interval_true. split.
  - intros Hc. split; [auto|]. apply covers_true in Hc as (p & Hp & H1 & H2).
    pose proof (separated_first _ _ _ Hm Hp). simpl in *. ord.
  - intros [[[H1 H2]|H1] H3]; [ord|done].
Qed.

Lemma covers_ext a b :
  separated a → separated b → (∀ t, covers t a = covers t b) → a = b.
Proof.
  revert b. induction a as [|[s e] a IH]; intros [|[s' e'] b] Ha Hb Hext.
  - done.
  - destruct Hb as (Hse & _). specialize (Hext s'). rewrite covers_cons in Hext.
    unfold in_interval in Hext. by rewrite ltb_irrefl, Hse in Hext.
  - destruct Ha as (Hse & _). specialize (Hext s). rewrite covers_cons in Hext.
    unfold in_interval in Hext. by rewrite ltb_irrefl, Hse in Hext.
  - pose proof Ha as (Hse & _). pose proof Hb as (Hse' & _).
    assert (Hin : covers s ((s, e) :: a) = true).
    { rewrite covers_cons. unfold in_interval. by rewrite ltb_irrefl, Hse. }
    assert (Hin' : covers s' ((s', e') :: b) = true).
    { rewrite covers_cons. unfold in_interval. by rewrite ltb_irrefl, Hse'. }
    assert (s = s') as <-.
    { rewrite Hext in Hin. rewrite <- Hext in Hin'.
      apply covers_head in Hin; [|done]. apply covers_head in Hin'; [|done]. ord. }
    assert (e = e') as <-.
    { pose proof (end_not_covered (s, e) _ Ha ltac:(set_solver)) as He.
      pose proof (end_not_covered (s, e') _ Hb ltac:(set_solver)) as He'.
      cbn [snd] in He, He'. rewrite Hext in He. rewrite <- Hext in He'.
      rewrite covers_cons in He. rewrite covers_cons in He'. apply orb_false_iff in He as [He _], He' as [He' _].
      unfold in_interval in He, He'. rewrite (ord_lt_le s e Hse) in He.
      rewrite (ord_lt_le s e' Hse') in He'. simpl in *. ord. }
    f_equal. apply IH; [apply Ha|apply Hb|]. intros t.
    rewrite (separated_tail_covers s e a), (separated_tail_covers s e b) by done.
    by rewrite Hext.
Qed.

(** [AddInterval] adds no point outside the interval. *)
Lemma add_interval_inside start end_ m t :
  separated m → start ≺ end_ →
  covers t m ||
  (negb (ltb t start) &&
   ((negb (touches start m) && ltb t end_) || extended end_ t m)) = true →
  covers t m = true ∨ (start ⪯ t ∧ t ≺ end_).
Proof.
  intros Hm Hse.
  rewrite orb_true_iff, andb_true_iff, orb_true_iff, andb_true_iff, !negb_true_iff, extended_true.
  intros [?|(? & [(? & ?)|(p & Hp & H1 & H2)])]; [by left|by right|].
  destruct (ltb t end_) eqn:Hte; [by right|left].
  apply covers_true. exists p. split_and!; [done| |done]. ord.
Qed.

(** It adds the whole interval when [start] touches nothing or [end_] does. *)
Lemma add_interval_whole start end_ m m' :
  separated m → start ≺ end_ → AddInterval start end_ m = Ok m' →
  touches start m = false ∨ touches end_ m = true →
  ∀ t, covers t m' = covers t m || in_interval start end_ t.
Proof.
  intros Hm Hse Em Hcase t.
  destruct (AddInterval_covers start end_ m Hm Hse) as (m2 & Em2 & _ & Hc).
  rewrite Em in Em2. injection Em2 as <-. apply bool_iff. rewrite orb_true_iff, in_interval_true.
  split.
  - rewrite Hc. by apply add_interval_inside.
  - rewrite Hc, orb_true_iff, andb_true_iff, orb_true_iff, andb_true_iff, !negb_true_iff,
      extended_true.
    intros [?|(? & ?)]; [by left|right]. split; [done|].
    destruct Hcase as [Ht|(p & Hp & H1 & H2)%touches_true]; [by left|].
    right. exists p. split_and!; [done..|ord].
Qed.

(** On a well-formed set, [AddInterval start end] adds
    exactly the points of [[start, end)] if and only if [start] touches no
    interval already present, or [end] does.  In the remaining case, the new
    interval continues one that is present and ends beyond all that it meets,
    the tail of the new interval is lost. *)
Theorem add_interval_union_iff start end_ m :
  separated m → start ≺ end_ →
  (∃ m', AddInterval start end_ m = Ok m' ∧
     ∀ t, Contains t m' = Ok (covers t m || in_interval start end_ t)) ↔
  (touches start m = false ∨ touches end_ m = true).
Proof.
  intros Hm Hse. destruct (AddInterval_covers start end_ m Hm Hse) as (m' & Em & Hs & Hc).
  rewrite Em. split.
  - intros (m'' & [= <-] & Hu). destruct (touches start m) eqn:Ht; [right|by left].
    apply touches_true in Ht as (p & Hp & Hp1 & Hp2).
    destruct (last_before end_ m Hm) as (q & Hq & Hqe & Hmax).
    { exists p. split; [done|ord]. }
    apply touches_true. exists q. split_and!; [done..|].
    destruct (ltb q.2 end_) eqn:Hlt; [exfalso|done].
    specialize (Hu q.2). rewrite contains_covers, Hc in Hu by done.
    rewrite end_not_covered in Hu by done. injection Hu as Hu. simpl in Hu.
    assert (p.2 ⪯ q.2) by (apply Hmax; [done|ord]).
    unfold in_interval in Hu. assert (ltb q.2 start = false) as Hqs by ord.
    rewrite Hqs, Hlt in Hu. simpl in Hu. apply extended_true in Hu as (r & Hr & ? & ?).
    specialize (Hmax r Hr). assert (r.2 ⪯ q.2) by auto. ord.
  - intros Hcase. exists m'. split; [done|]. intros t.
    rewrite contains_covers by done. f_equal. by apply (add_interval_whole start end_ m m').
Qed.

(** [operator==] of two well-formed interval sets decides
    whether they contain the same points: the representation is canonical. *)
Theorem interval_set_eqb_spec `{EqDecision T} a b :
  separated a → separated b →
  interval_set_eqb a b = true ↔ ∀ t, Contains t a = Contains t b.
Proof.
  intros Ha Hb. unfold interval_set_eqb. rewrite bool_decide_eq_true. split; [by intros ->|].
  intros Hext. apply covers_ext; [done..|]. intros t. specialize (Hext t).
  rewrite !contains_covers in Hext by done. by injection Hext.
Qed.

End interval_set.

(** ** Witnesses, on [IntervalSet<int>] *)
Definition set_2_5 : omap Z Z := [(2%Z, 5%Z); (8%Z, 10%Z)].

Lemma set_2_5_separated : separated set_2_5.
Proof. repeat split; repeat constructor. Qed.

Lemma add_interval_exact_witness :
  ∃ m', AddInterval 4%Z 9%Z set_2_5 = Ok m' ∧ separated m' ∧
    ∀ t, Contains t m' =
      Ok (covers t set_2_5 ||
          (negb (ltb t 4%Z) &&
           ((negb (touches 4%Z set_2_5) && ltb t 9%Z) || extended 9%Z t set_2_5))).
Proof. apply (add_interval_exact 4%Z 9%Z set_2_5 set_2_5_separated). reflexivity. Defined.

Lemma add_interval_union_iff_witness :
  ¬ ∃ m', AddInterval 9%Z 12%Z set_2_5 = Ok m' ∧
     ∀ t, Contains t m' = Ok (covers t set_2_5 || in_interval 9%Z 12%Z t).
Proof.
  intros H.
  apply (add_interval_union_iff 9%Z 12%Z set_2_5 set_2_5_separated) in H; [|reflexivity].
  destruct H as [H|H]; vm_compute in H; discriminate H.
Defined.

Lemma interval_set_eqb_spec_witness :
  interval_set_eqb set_2_5 set_2_5 = true ↔
  ∀ t, Contains t set_2_5 = Contains t set_2_5.
Proof. apply (interval_set_eqb_spec set_2_5 set_2_5 set_2_5_separated set_2_5_separated). Defined.

(** The lost tail on a concrete set: [7] is in [[3, 10)] and not in the result. *)
Example add_interval_loses_tail :
  AddInterval 3%Z 10%Z [(2%Z, 5%Z)] = Ok [(2%Z, 5%Z)].
Proof. reflexivity. Qed.

(** The unit tests of [engine/interval_set_test.cc]. *)
Example JoinIntervals :
  (m ← AddInterval 2%Z 5%Z []; m ← AddInterval 8%Z 10%Z m; AddInterval 5%Z 8%Z m)
  = Ok [(2%Z, 10%Z)].
Proof. reflexivity. Qed.

Example DistinctIntervals :
  (m ← AddInterval 5%Z 8%Z []; m ← AddInterval 9%Z 10%Z m;
   m ← AddInterval 1%Z 4%Z m; Ok (GetEndPoints m))
  = Ok [1; 4; 5; 8; 9; 10]%Z.
Proof. reflexivity. Qed.
