(* ===== verification/Text.v ===== *)
(** Text: [base/hex.cc], [base/escape.cc], [util/comma_separated.cc],
    [engine/peer_id.cc], and the fragments of [printf] they rely on.

    A [std::string] is a [string] (a list of bytes); a [char] is an [ascii],
    read as an unsigned byte. *)
From stdpp Require Import base tactics list strings.
From Stdlib Require Import ZArith Lia Ascii.
From S2P Require Import Prelude.
#[local] Open Scope string_scope.
#[local] Open Scope Z_scope.
#[local] Arguments String.append !_ _ / : simpl nomatch.

(** ** Characters *)
Definition byte_of (c : ascii) : Z := Z.of_nat (nat_of_ascii c).
Definition char_of (z : Z) : ascii := ascii_of_nat (Z.to_nat z).

Definition isdigit (c : ascii) : bool := (48 <=? byte_of c) && (byte_of c <=? 57).
Definition isalpha (c : ascii) : bool :=
  ((65 <=? byte_of c) && (byte_of c <=? 90)) ||
  ((97 <=? byte_of c) && (byte_of c <=? 122)).
Definition isspace (c : ascii) : bool :=
  (byte_of c =? 32) || ((9 <=? byte_of c) && (byte_of c <=? 13)).
Definition isprint (c : ascii) : bool := (32 <=? byte_of c) && (byte_of c <=? 126).

Definition str1 (c : ascii) : string := String c "".

(** [std::string::c_str] seen by [%s]: the text up to the first NUL. *)
Fixpoint c_str (s : string) : string :=
  match s with
  | "" => ""
  | String c s' => if byte_of c =? 0 then "" else String c (c_str s')
  end.

(** ** Hexadecimal digits *)
Definition kHexValues : list Z :=
  (replicate 48 (-1) ++ [0; 1; 2; 3; 4; 5; 6; 7; 8; 9] ++ replicate 7 (-1) ++
  [10; 11; 12; 13; 14; 15] ++ replicate 26 (-1) ++
  [10; 11; 12; 13; 14; 15] ++ replicate 153 (-1))%list.

Definition ParseHexDigit (hex : ascii) : Z :=
  default (-1) (kHexValues !! nat_of_ascii hex).

(** [%x]: one lower-case digit. *)
Definition hex_digit (d : Z) : ascii :=
  if d <? 10 then char_of (48 + d) else char_of (87 + d).

(** [%0<k>x] of a value below [16 ^ k]. *)
Fixpoint hex_pad (k : nat) (z : Z) : string :=
  match k with
  | O => ""
  | S k' => hex_pad k' (z / 16) ++ str1 (hex_digit (z mod 16))
  end.

(** ** Decimal digits: [%d] *)
Fixpoint dec_digits (fuel : nat) (z : Z) : string :=
  match fuel with
  | O => ""
  | S f => (if z <? 10 then "" else dec_digits f (z / 10)) ++
           str1 (char_of (48 + z mod 10))
  end.

(** An [int64] has at most 19 digits. *)
Definition printf_d (z : Z) : string :=
  if z <? 0 then "-" ++ dec_digits 20 (- z) else dec_digits 20 z.

(** [%03o] of a byte. *)
Definition octal3 (z : Z) : string :=
  str1 (char_of (48 + z / 64 mod 8)) ++ str1 (char_of (48 + z / 8 mod 8)) ++
  str1 (char_of (48 + z mod 8)).

(** ** [base/escape.cc] *)
Definition backslash : string := str1 (char_of 92).
Definition CEscapeChar (c : ascii) : string :=
  let z := byte_of c in
  if z =? 0 then backslash ++ "0"
  else if z =? 7 then backslash ++ "a"
  else if z =? 8 then backslash ++ "b"
  else if z =? 9 then backslash ++ "t"
  else if z =? 10 then backslash ++ "n"
  else if z =? 11 then backslash ++ "v"
  else if z =? 12 then backslash ++ "f"
  else if z =? 13 then backslash ++ "r"
  else if z =? 34 then backslash ++ str1 (char_of 34)
  else if z =? 92 then backslash ++ backslash
  else if isprint c then str1 c
  else backslash ++ octal3 z.

Fixpoint CEscape (s : string) : string :=
  match s with
  | "" => ""
  | String c s' => CEscapeChar c ++ CEscape s'
  end.

(** ** [util/comma_separated.cc] *)
Definition comma : ascii := char_of 44.

Fixpoint parse_comma_loop (rest item : string) (out : list string) : list string :=
  match rest with
  | "" => if bool_decide (item = "") then out else (out ++ [item])%list
  | String c rest' =>
      if bool_decide (c = comma) then
        if bool_decide (item = "") then parse_comma_loop rest' item out
        else parse_comma_loop rest' "" (out ++ [item])%list
      else parse_comma_loop rest' (item ++ str1 c) out
  end.

Definition ParseCommaSeparatedList (in_ : string) : list string :=
  parse_comma_loop in_ "" [].

(** ** [engine/peer_id.cc] *)
Inductive ParseState :=
| PREFIX1 | PREFIX2 | PREFIX3 | ADDRESS_FIRST | ADDRESS_REST | PORT_FIRST | PORT_REST.

#[export] Instance ParseState_eq_dec : EqDecision ParseState.
Proof. solve_decision. Defined.

Definition slash : ascii := char_of 47.

Definition MakePeerId (address : string) (port : Z) : string :=
  "ip/" ++ c_str address ++ "/" ++ printf_d port.

Fixpoint parse_peer_id_loop (state : ParseState) (address : string) (port : Z)
    (peer_id : string) : option (ParseState * string * Z) :=
  match peer_id with
  | "" => Some (state, address, port)
  | String c rest =>
      match state with
      | PREFIX1 =>
          if bool_decide (c = char_of 105) then parse_peer_id_loop PREFIX2 address port rest
          else None
      | PREFIX2 =>
          if bool_decide (c = char_of 112) then parse_peer_id_loop PREFIX3 address port rest
          else None
      | PREFIX3 =>
          if bool_decide (c = slash) then parse_peer_id_loop ADDRESS_FIRST address port rest
          else None
      | ADDRESS_FIRST =>
          if bool_decide (c = slash) then None
          else parse_peer_id_loop ADDRESS_REST (address ++ str1 c) port rest
      | ADDRESS_REST =>
          if bool_decide (c = slash) then parse_peer_id_loop PORT_FIRST address port rest
          else parse_peer_id_loop ADDRESS_REST (address ++ str1 c) port rest
      | PORT_FIRST =>
          if negb (isdigit c) then None
          else parse_peer_id_loop PORT_REST address (byte_of c - 48) rest
      | PORT_REST =>
          if negb (isdigit c) then None
          else let port := port * 10 + (byte_of c - 48) in
               if 65535 <? port then None
               else parse_peer_id_loop PORT_REST address port rest
      end
  end.

Definition ParsePeerId (peer_id : string) : option (string * Z) :=
  match parse_peer_id_loop PREFIX1 "" 0 peer_id with
  | Some (PORT_REST, address, port) => Some (address, port)
  | _ => None
  end.

(** Every character satisfies a predicate. *)
Fixpoint all_chars (P : ascii → bool) (s : string) : bool :=
  match s with "" => true | String c s' => P c && all_chars P s' end.

(** * Lemmas *)
Lemma str_app_nil_r (s : string) : s ++ "" = s.
Proof. induction s as [|c s IH]; simpl; congruence. Qed.

Lemma str_app_assoc (a b c : string) : (a ++ b) ++ c = a ++ b ++ c.
Proof. induction a as [|x a IH]; simpl; congruence. Qed.

Lemma str_app_length (a b : string) :
  String.length (a ++ b) = (String.length a + String.length b)%nat.
Proof. induction a as [|x a IH]; simpl; congruence. Qed.

Lemma byte_char z : 0 ≤ z < 256 → byte_of (char_of z) = z.
Proof.
  intros Hz. unfold byte_of, char_of. rewrite nat_ascii_embedding by lia. lia.
Qed.

Lemma byte_range c : 0 ≤ byte_of c < 256.
Proof. unfold byte_of. pose proof (nat_ascii_bounded c). lia. Qed.

Lemma char_byte c : char_of (byte_of c) = c.
Proof. unfold byte_of, char_of. rewrite Nat2Z.id. apply ascii_nat_embedding. Qed.

Lemma all_chars_app P a b : all_chars P (a ++ b) = all_chars P a && all_chars P b.
Proof. induction a as [|c a IH]; simpl; [done|]. rewrite IH. by destruct (P c). Qed.

Lemma all_chars_snoc P a c : all_chars P (a ++ str1 c) = all_chars P a && P c.
Proof. rewrite all_chars_app. simpl. by rewrite andb_true_r. Qed.

Lemma all_chars_impl (P Q : ascii → bool) s :
  (∀ c, P c = true → Q c = true) → all_chars P s = true → all_chars Q s = true.
Proof.
  intros HPQ. induction s as [|c s IH]; simpl; [done|]. rewrite !andb_true_iff. naive_solver.
Qed.

Lemma dec_digits_digits f z : all_chars isdigit (dec_digits f z) = true.
Proof.
  revert z. induction f as [|f IH]; intros z; [done|]. cbn [dec_digits].
  rewrite all_chars_snoc. apply andb_true_iff. split; [by destruct (z <? 10)|].
  unfold isdigit. pose proof (Z.mod_pos_bound z 10 ltac:(lia)).
  rewrite byte_char by lia. lia.
Qed.

Definition not_nul (c : ascii) : bool := negb (byte_of c =? 0).
Lemma c_str_id s : all_chars not_nul s = true → c_str s = s.
Proof.
  induction s as [|c s IH]; simpl; [done|]. intros [Hc Hs]%andb_true_iff. unfold not_nul in Hc.
  destruct (byte_of c =? 0); [done|]. by rewrite IH.
Qed.

Lemma printf_d_chars z : all_chars (fun c => isdigit c || bool_decide (c = "-"%char)) (printf_d z) = true.
Proof.
  assert (∀ z, all_chars (fun c => isdigit c || bool_decide (c = "-"%char)) (dec_digits 20 z) = true) as Hd.
  { intros y. eapply all_chars_impl; [|apply dec_digits_digits]. intros c Hc. simpl. by rewrite Hc. }
  unfold printf_d. destruct (z <? 0); [|apply Hd]. rewrite all_chars_app, Hd. done.
Qed.

Lemma printf_d_c_str z : c_str (printf_d z) = printf_d z.
Proof.
  apply c_str_id. eapply all_chars_impl; [|apply printf_d_chars]. intros c. simpl. unfold not_nul, isdigit.
  rewrite orb_true_iff. intros [Hc| ->%bool_decide_eq_true]; [lia|done].
Qed.

(** ** Hexadecimal *)
Lemma ParseHexDigit_hex_digit d : 0 ≤ d < 16 → ParseHexDigit (hex_digit d) = d.
Proof.
  intros Hd.
  assert (d ∈ [0;1;2;3;4;5;6;7;8;9;10;11;12;13;14;15]) as Hin.
  { rewrite !elem_of_cons, elem_of_nil. lia. }
  repeat (apply elem_of_cons in Hin as [->|Hin]; [reflexivity|]).
  by apply elem_of_nil in Hin.
Qed.

Lemma hex_pad_length k z : String.length (hex_pad k z) = k.
Proof.
  revert z. induction k as [|k IH]; intros z; simpl; [done|].
  rewrite str_app_length, IH. simpl. lia.
Qed.

(** Parts of a text. *)
Lemma substring_all s : String.substring 0 (String.length s) s = s.
Proof. induction s; simpl; congruence. Qed.

Lemma substring_app_l a b : String.substring 0 (String.length a) (a ++ b) = a.
Proof. induction a; simpl; [by destruct b|congruence]. Qed.

Lemma substring_app_r a b :
  String.substring (String.length a) (String.length b) (a ++ b) = b.
Proof. induction a; simpl; [apply substring_all|done]. Qed.

(** Hexadecimal digits need no escapes. *)
Definition unescaped (c : ascii) : bool := bool_decide (CEscapeChar c = str1 c).

Lemma CEscape_id s : all_chars unescaped s = true → CEscape s = s.
Proof.
  induction s as [|c s IH]; simpl; [done|]. intros [Hc Hs]%andb_true_iff.
  apply bool_decide_eq_true in Hc. by rewrite Hc, IH.
Qed.

Lemma hex_pad_unescaped k z : all_chars unescaped (hex_pad k z) = true.
Proof.
  revert z. induction k as [|k IH]; intros z; simpl; [done|]. rewrite all_chars_snoc, IH. simpl.
  pose proof (Z.mod_pos_bound z 16 ltac:(lia)) as Hd. unfold hex_digit.
  assert (∀ c, 48 ≤ byte_of c ≤ 57 ∨ 97 ≤ byte_of c ≤ 102 → unescaped c = true) as Hc.
  { intros c Hb. unfold unescaped, CEscapeChar, isprint. cbv zeta. apply bool_decide_eq_true.
    repeat (case_match; [lia|]). case_match; [done|]. lia. }
  apply Hc. destruct (Z.ltb_spec (z mod 16) 10); rewrite byte_char; lia.
Qed.

(** ** Peer ids *)
Definition no_slash (s : string) : Prop :=
  ∀ n c, String.get n s = Some c → c ≠ slash ∧ byte_of c ≠ 0.

Lemma no_slash_cons c s :
  no_slash (String c s) ↔ (c ≠ slash ∧ byte_of c ≠ 0) ∧ no_slash s.
Proof.
  unfold no_slash. split.
  - intros H. split; [apply (H O c); done|]. intros n d Hd. by apply (H (S n) d).
  - intros [Hc H] [|n] d; simpl; [by intros [= <-]|apply H].
Qed.

Lemma c_str_no_slash s : no_slash s → c_str s = s.
Proof.
  induction s as [|c s IH]; simpl; [done|]. rewrite no_slash_cons. intros [[_ Hc] Hs].
  destruct (Z.eqb_spec (byte_of c) 0); [done|]. by rewrite IH.
Qed.

Lemma digit_char d : 0 ≤ d < 10 →
  isdigit (char_of (48 + d)) = true ∧ byte_of (char_of (48 + d)) - 48 = d.
Proof. intros Hd. unfold isdigit. rewrite byte_char by lia. split; lia. Qed.

Lemma parse_port_step a port d rest :
  0 ≤ d < 10 → port * 10 + d ≤ 65535 →
  parse_peer_id_loop PORT_REST a port (String (char_of (48 + d)) rest) =
  parse_peer_id_loop PORT_REST a (port * 10 + d) rest.
Proof.
  intros Hd Hp. destruct (digit_char d Hd) as [H1 H2]. cbn [parse_peer_id_loop].
  rewrite H1, H2. simpl. by destruct (Z.ltb_spec 65535 (port * 10 + d)); [lia|].
Qed.

Lemma parse_port_digits f a z rest :
  0 ≤ z ≤ 65535 → z < 10 ^ Z.of_nat f →
  parse_peer_id_loop PORT_REST a 0 (dec_digits f z ++ rest) =
  parse_peer_id_loop PORT_REST a z rest.
Proof.
  revert z rest. induction f as [|f IH]; intros z rest Hz Hf.
  { change (10 ^ Z.of_nat 0) with 1 in Hf. by replace z with 0 by lia. }
  rewrite Nat2Z.inj_succ, Z.pow_succ_r in Hf by lia.
  pose proof (Z.mod_pos_bound z 10). pose proof (Z.div_mod z 10).
  cbn [dec_digits]. rewrite str_app_assoc. change (str1 (char_of (48 + z mod 10)) ++ rest)
    with (String (char_of (48 + z mod 10)) rest).
  destruct (Z.ltb_spec z 10).
  - cbn [String.append]. rewrite parse_port_step by lia. f_equal.
    rewrite Z.mod_small by lia. lia.
  - rewrite IH by first [split; [apply Z.div_pos|apply Z.div_le_upper_bound]; lia
                        |apply Z.div_lt_upper_bound; lia].
    rewrite parse_port_step by lia. f_equal. lia.
Qed.

Lemma dec_digits_head f z rest :
  0 ≤ z → ∃ d s, 0 ≤ d < 10 ∧
  (dec_digits (S f) z ++ rest = String (char_of (48 + d)) s)%string.
Proof.
  revert z rest. induction f as [|f IH]; intros z rest Hz;
    pose proof (Z.mod_pos_bound z 10).
  - exists (z mod 10), rest. split; [lia|]. cbn. by destruct (z <? 10).
  - remember (S f) as f' eqn:Ef. cbn [dec_digits]. rewrite str_app_assoc.
    destruct (z <? 10); subst f'.
    + eexists (z mod 10), _. split; [lia|done].
    + apply IH. apply Z.div_pos; lia.
Qed.

(** The first digit of the port is read like the others. *)
Lemma parse_port_first a z :
  0 ≤ z ≤ 65535 →
  parse_peer_id_loop PORT_FIRST a 0 (dec_digits 20 z) = Some (PORT_REST, a, z).
Proof.
  intros Hz.
  pose proof (parse_port_digits 20 a z "") as Hp.
  destruct (dec_digits_head 19 z "") as (d & s & Hd & Es); [lia|].
  rewrite Es in Hp. rewrite str_app_nil_r in Es. rewrite Es.
  rewrite parse_port_step in Hp by lia.
  cbn [parse_peer_id_loop]. destruct (digit_char d Hd) as [-> ->]. simpl negb. cbn iota.
  replace d with (0 * 10 + d) by lia. by rewrite Hp by (done || (simpl; lia)).
Qed.

Lemma parse_address a s rest :
  no_slash s →
  parse_peer_id_loop ADDRESS_REST a 0 (s ++ String slash rest) =
  parse_peer_id_loop PORT_FIRST (a ++ s) 0 rest.
Proof.
  revert a. induction s as [|c s IH]; intros a Hs.
  - rewrite str_app_nil_r. reflexivity.
  - apply no_slash_cons in Hs as [[Hc _] Hs]. simpl.
    rewrite bool_decide_false by done. rewrite IH by done. by rewrite str_app_assoc.
Qed.

(** A peer id built from a non-empty address without ['/'] or
    NUL and a port in the range of a TCP port is parsed back into them. *)
Theorem parse_make_peer_id address port :
  address ≠ "" → no_slash address → 0 ≤ port ≤ 65535 →
  ParsePeerId (MakePeerId address port) = Some (address, port).
Proof.
  intros Hne Hs Hp. unfold ParsePeerId, MakePeerId, printf_d.
  rewrite c_str_no_slash by done. destruct (Z.ltb_spec port 0); [lia|].
  destruct address as [|c s]; [done|]. apply no_slash_cons in Hs as [[Hc _] Hs].
  change (parse_peer_id_loop PREFIX1 "" 0 ("ip/" ++ String c s ++ "/" ++ dec_digits 20 port))
    with (parse_peer_id_loop ADDRESS_FIRST "" 0 (String c (s ++ String slash (dec_digits 20 port)))).
  cbn [parse_peer_id_loop]. rewrite bool_decide_false by done.
  rewrite parse_address by done. by rewrite parse_port_first.
Qed.

(** What an accepted peer id guarantees: a non-empty address without ['/'] and
    a port in range. *)
Definition peer_state_ok (st : ParseState) (a : string) (p : Z) : Prop :=
  match st with
  | PREFIX1 | PREFIX2 | PREFIX3 | ADDRESS_FIRST => True
  | ADDRESS_REST | PORT_FIRST => a ≠ ""
  | PORT_REST => a ≠ "" ∧ 0 ≤ p ≤ 65535
  end.

Lemma app_str1_ne a c : a ++ str1 c ≠ "".
Proof. by destruct a. Qed.

Lemma parse_peer_id_sound st a p s st' a' p' :
  peer_state_ok st a p → parse_peer_id_loop st a p s = Some (st', a', p') →
  peer_state_ok st' a' p'.
Proof.
  revert st a p. induction s as [|c s IH]; intros st a p Hok; simpl.
  - by intros [= <- <- <-].
  - destruct st; repeat case_match; try done; intros Hl;
      eapply IH; try exact Hl; simpl; try done; try (by apply app_str1_ne); 
      unfold isdigit in *; simpl in Hok; destruct_and?; (split; [done|]); lia.
Qed.

(** Every peer id [ParsePeerId] accepts gives a non-empty address
    and a port between 0 and 65535, so the port arithmetic never overflows an
    [int]. *)
Theorem parse_peer_id_bounds s address port :
  ParsePeerId s = Some (address, port) → address ≠ "" ∧ 0 ≤ port ≤ 65535.
Proof.
  unfold ParsePeerId. intros H.
  destruct (parse_peer_id_loop PREFIX1 "" 0 s) as [[[st a] p]|] eqn:E; [|done].
  apply parse_peer_id_sound in E; [|done]. destruct st; naive_solver.
Qed.

Lemma parse_make_peer_id_witness :
  ParsePeerId (MakePeerId "10.0.0.1" 1025) = Some ("10.0.0.1", 1025).
Proof.
  apply parse_make_peer_id; [discriminate| |lia].
  do 8 (apply no_slash_cons; split; [split; vm_compute; congruence|]).
  intros n c Hc. by destruct n.
Defined.

Lemma parse_peer_id_bounds_witness : "a.com" ≠ "" ∧ 0 ≤ 65535 ≤ 65535.
Proof. apply (parse_peer_id_bounds "ip/a.com/65535"). reflexivity. Defined.

(** Different strings with one escaped form: the escape of NUL is two characters
    long, that of other bytes four. *)
Example cescape_not_injective :
  CEscape (String (char_of 0) "01") = CEscape (str1 (char_of 1)) ∧
  String (char_of 0) "01" ≠ str1 (char_of 1).
Proof. split; [reflexivity|discriminate]. Qed.
