(* ===== verification/StringPrintf.v ===== *)
(** * Formatting into a string

    [base/string_printf.cc]: [StringAppendF], [StringPrintf] and [SStringPrintf] format
    with [vsnprintf] into a buffer of 1000 bytes and, if that is too small, into one
    of the right size.  The rest of the development writes the text that a format and its
    arguments stand for; [string_append_text] shows that this text is what is
    appended. *)
From S2P Require Import Prelude Text.
From stdpp Require Import base tactics list strings.
From Stdlib Require Import ZArith Lia Ascii.
#[local] Open Scope string_scope.
#[local] Open Scope Z_scope.

(** [vsnprintf(buffer, buffer_size, ...)] of a text: what it returns and the buffer
    afterwards.  A text longer than an [int] can count is an error. *)
Definition vsnprintf (buffer text : string) : Z * string :=
  let buffer_size := String.length buffer in
  let length := String.length text in
  if Z.of_nat length <=? 2 ^ 31 - 1 then
    (Z.of_nat length,
     match buffer_size with
     | O => buffer
     | S n =>
         let written := String.substring 0 n text ++ str1 (char_of 0) in
         written ++ String.substring (String.length written) (buffer_size - String.length written) buffer
     end)
  else (-1, buffer).

(** [static_buffer] (1000 bytes) and [new_buffer n] ([n] bytes) are the
    uninitialised buffers; [count + 1] is computed in an [int]. *)
Definition StringAppendFV (static_buffer : string) (new_buffer : nat → string) (str text : string) : res string :=
  let '(count, buffer) := vsnprintf static_buffer text in
  CHECK (0 <=? count);;
  if Z.of_nat (String.length static_buffer) <=? count then
    buffer_size ← (if count + 1 <? 2 ^ 31 then Ok (count + 1) else Undef);
    let '(count, buffer) := vsnprintf (new_buffer (Z.to_nat buffer_size)) text in
    CHECK (count + 1 =? buffer_size);;
    Ok (str ++ String.substring 0 (Z.to_nat count) buffer)
  else Ok (str ++ String.substring 0 (Z.to_nat count) buffer).

Section formats.
Context (static_buffer : string) (new_buffer : nat → string).
Definition StringAppendF (str text : string) : res string := StringAppendFV static_buffer new_buffer str text.
Definition SStringPrintfV (str text : string) : res string := StringAppendFV static_buffer new_buffer "" text.
Definition SStringPrintf (str text : string) : res string := SStringPrintfV str text.
Definition StringPrintfV (text : string) : res string := StringAppendFV static_buffer new_buffer "" text.
Definition StringPrintf (text : string) : res string := StringPrintfV text.
End formats.

Lemma substring_long n s : (String.length s ≤ n)%nat → String.substring 0 n s = s.
Proof.
  revert n. induction s as [|c s IH]; intros [|n] Hn; simpl in *; try done; [lia|]. f_equal. apply IH. lia.
Qed.

(** What is in a buffer that is large enough. *)
Lemma vsnprintf_fits buffer text :
  (String.length text < String.length buffer)%nat → Z.of_nat (String.length text) ≤ 2 ^ 31 - 1 →
  ∃ rest, vsnprintf buffer text = (Z.of_nat (String.length text), text ++ rest).
Proof.
  intros Hb Ht. unfold vsnprintf. rewrite (proj2 (Z.leb_le _ _)) by done.
  destruct (String.length buffer) as [|n] eqn:En; [lia|]. rewrite substring_long by lia.
  rewrite str_app_assoc. by eexists.
Qed.

(** C39 (bounds). whatever is in the buffers, [StringAppendF] appends exactly the
    formatted text, of any length that an [int] can count but the largest: there the
    size of the second buffer overflows, and longer texts end the process. *)
Theorem string_append_text static_buffer new_buffer str text :
  String.length static_buffer = 1000%nat → (∀ n, String.length (new_buffer n) = n) →
  StringAppendF static_buffer new_buffer str text =
    if Z.of_nat (String.length text) <? 2 ^ 31 - 1 then Ok (str ++ text)
    else if Z.of_nat (String.length text) =? 2 ^ 31 - 1 then Undef
    else Fatal.
Proof.
  intros Hs Hnew. unfold StringAppendF, StringAppendFV. destruct (Z.leb_spec (Z.of_nat (String.length text)) (2 ^ 31 - 1)) as [Ht|Ht].
  - destruct (decide (String.length text < 1000)%nat) as [Hfit|Hfit].
    + destruct (vsnprintf_fits static_buffer text) as [rest ->]; [lia|done|].
      rewrite (proj2 (Z.leb_le 0 _)) by lia. simpl. rewrite Hs, (proj2 (Z.leb_gt _ _)) by lia.
      rewrite Nat2Z.id, substring_app_l. by rewrite (proj2 (Z.ltb_lt _ _)) by lia.
    + assert (vsnprintf static_buffer text = (Z.of_nat (String.length text), (vsnprintf static_buffer text).2)) as ->.
      { unfold vsnprintf. by rewrite (proj2 (Z.leb_le _ _)). }
      rewrite (proj2 (Z.leb_le 0 _)) by lia. simpl. rewrite Hs, (proj2 (Z.leb_le _ _)) by lia.
      destruct (Z.ltb_spec (Z.of_nat (String.length text)) (2 ^ 31 - 1)).
      * rewrite (proj2 (Z.ltb_lt _ _)) by lia. simpl.
        destruct (vsnprintf_fits (new_buffer (Z.to_nat (Z.of_nat (String.length text) + 1))) text) as [rest ->];
          [rewrite Hnew; lia|done|].
        rewrite Z.eqb_refl. simpl. by rewrite Nat2Z.id, substring_app_l.
      * rewrite (proj2 (Z.ltb_ge _ _)) by lia. simpl. by rewrite (proj2 (Z.eqb_eq _ _)) by lia.
  - unfold vsnprintf. rewrite (proj2 (Z.leb_gt _ _)) by done. simpl.
    rewrite (proj2 (Z.ltb_ge _ _)), (proj2 (Z.eqb_neq _ _)) by lia. done.
Qed.

Fixpoint uninitialised (n : nat) : string := match n with O => "" | S n => String "?" (uninitialised n) end.

Lemma string_append_text_witness :
  StringAppendF (uninitialised 1000) uninitialised "a = " "1" = Ok "a = 1".
Proof.
  rewrite (string_append_text (uninitialised 1000) uninitialised); [reflexivity|reflexivity|].
  intros n. induction n as [|n IH]; simpl; [done|]. by rewrite IH.
Defined.
