(* ===== verification/IntrusivePtr.v ===== *)
(** * Intrusive pointers

    [base/intrusive_ptr.h], the shared pointers with which the connection manager
    holds connections, and the reference count of [engine/peer_connection.cc] that
    they use.  An object is its address; a pointer variable is named by a number.
    The pointers are variables of threads and entries of containers: none is a
    member of an object that they point to. *)
From S2P Require Import Prelude.
From stdpp Require Import base tactics list gmap fin_maps.
From Stdlib Require Import ZArith Lia.
#[local] Open Scope Z_scope.

Module IntrusivePtr.

Record heap := mkHeap {
  (** [ref_count_] of the objects that exist *)
  ref_counts : gmap nat Z;
  (** [ptr_] of the pointers that exist *)
  ptrs : gmap nat (option nat);
  next_object : nat;
}.
Definition empty_heap : heap := mkHeap ∅ ∅ 0.

Definition set_count (o : nat) (n : Z) (h : heap) : heap :=
  mkHeap (<[o := n]> (ref_counts h)) (ptrs h) (next_object h).
Definition set_ptr (v : nat) (p : option nat) (h : heap) : heap :=
  mkHeap (ref_counts h) (<[v := p]> (ptrs h)) (next_object h).

(** [new PeerConnection(...)]. *)
Definition new_object (h : heap) : nat * heap :=
  (next_object h, mkHeap (<[next_object h := 1]> (ref_counts h)) (ptrs h) (S (next_object h))).
Definition delete_object (o : nat) (h : heap) : heap :=
  mkHeap (delete o (ref_counts h)) (ptrs h) (next_object h).

(** [PeerConnection::IncrementRefCount] and [DecrementRefCount]. *)
Definition PeerConnection_IncrementRefCount (o : nat) (h : heap) : res heap :=
  n ← deref (ref_counts h !! o);
  let ref_count := n + 1 in
  CHECK (1 <=? ref_count);; Ok (set_count o ref_count h).
Definition PeerConnection_DecrementRefCount (o : nat) (h : heap) : res (bool * heap) :=
  n ← deref (ref_counts h !! o);
  CHECK (1 <=? n);;
  let ref_count := n - 1 in
  Ok (ref_count =? 0, set_count o ref_count h).

(** [intrusive_ptr<T>]. *)
Definition IncrementRefCount (v : nat) (h : heap) : res heap :=
  p ← deref (ptrs h !! v);
  match p with None => Ok h | Some o => PeerConnection_IncrementRefCount o h end.
Definition DecrementRefCount (v : nat) (h : heap) : res heap :=
  p ← deref (ptrs h !! v);
  match p with
  | None => Ok h
  | Some o =>
      '(zero, h) ← PeerConnection_DecrementRefCount o h;
      Ok (set_ptr v None (if (zero : bool) then delete_object o h else h))
  end.

Definition New (v : nat) (ptr : option nat) (h : heap) : res heap := Ok (set_ptr v ptr h).
Definition Copy (v other : nat) (h : heap) : res heap :=
  p ← deref (ptrs h !! other); IncrementRefCount v (set_ptr v p h).
Definition Destroy (v : nat) (h : heap) : res heap :=
  h ← DecrementRefCount v h; Ok (mkHeap (ref_counts h) (delete v (ptrs h)) (next_object h)).
Definition reset (v : nat) (ptr : option nat) (h : heap) : res heap :=
  p ← deref (ptrs h !! v);
  if bool_decide (p = ptr) then Ok h
  else h ← DecrementRefCount v h; Ok (set_ptr v ptr h).
Definition Assign (v other : nat) (h : heap) : res heap :=
  p ← deref (ptrs h !! v);
  q ← deref (ptrs h !! other);
  if negb (bool_decide (p = q)) then
    h ← DecrementRefCount v h;
    q ← deref (ptrs h !! other);
    IncrementRefCount v (set_ptr v q h)
  else Ok h.
Definition get (v : nat) (h : heap) : res (option nat) := deref (ptrs h !! v).
(** [operator->], with the object it is used on. *)
Definition arrow (v : nat) (h : heap) : res nat :=
  p ← deref (ptrs h !! v);
  o ← check_some p;
  _ ← deref (ref_counts h !! o);
  Ok o.

(** ** The counts are right *)
Definition refs (ps : gmap nat (option nat)) (o : nat) : nat := size (filter (fun kv => kv.2 = Some o) ps).
Definition count_of (n : nat) : option Z := match n with O => None | S _ => Some (Z.of_nat n) end.

(** An object exists exactly while pointers point to it; [raw] is an object that
    has been made and is not yet held by a pointer. *)
Definition held (raw : option nat) (h : heap) (o : nat) : nat :=
  (refs (ptrs h) o + if bool_decide (raw = Some o) then 1 else 0)%nat.
Record counted_with (raw : option nat) (h : heap) : Prop := {
  counted_refs o : ref_counts h !! o = count_of (held raw h o);
  counted_next o : is_Some (ref_counts h !! o) → (o < next_object h)%nat;
}.
Abbreviation counted := (counted_with None).

Lemma refs_insert_new ps v p o :
  ps !! v = None → refs (<[v := p]> ps) o = (refs ps o + if bool_decide (p = Some o) then 1 else 0)%nat.
Proof.
  intros Hv. unfold refs. case_bool_decide as Hp.
  - rewrite map_filter_insert_True by done. rewrite map_size_insert_None; [lia|]. apply map_lookup_filter_None. by left.
  - rewrite map_filter_insert_False by done. rewrite delete_id by done. lia.
Qed.
Lemma ptr_refs_delete ps v p o :
  ps !! v = Some p → refs ps o = (refs (delete v ps) o + if bool_decide (p = Some o) then 1 else 0)%nat.
Proof.
  intros Hv. rewrite <- (insert_delete_id ps v p) at 1 by done. apply refs_insert_new, lookup_delete_eq.
Qed.
Lemma refs_set ps v p q o :
  ps !! v = Some p →
  (refs (<[v := q]> ps) o + (if bool_decide (p = Some o) then 1 else 0) =
   refs ps o + (if bool_decide (q = Some o) then 1 else 0))%nat.
Proof.
  intros Hv. rewrite (ptr_refs_delete ps v p o Hv), <- insert_delete_eq, refs_insert_new by apply lookup_delete_eq. lia.
Qed.

Lemma count_of_S n : count_of (S n) = Some (Z.of_nat n + 1).
Proof. simpl. f_equal. lia. Qed.

Lemma held_None h o : held None h o = refs (ptrs h) o.
Proof. unfold held. rewrite bool_decide_false by done. lia. Qed.

Lemma decrement_counted raw h v p :
  counted_with raw h → ptrs h !! v = Some p →
  ∃ h', DecrementRefCount v h = Ok h' ∧ counted_with raw h' ∧ ptrs h' = <[v := None]> (ptrs h) ∧
    next_object h' = next_object h.
Proof.
  intros [Hc Hn] Hv. unfold DecrementRefCount. rewrite Hv. simpl. destruct p as [o|].
  - pose proof (refs_set (ptrs h) v (Some o) None) as Hset. unfold PeerConnection_DecrementRefCount. rewrite Hc.
    set (held' := fun o => (refs (<[v := None]> (ptrs h)) o + if bool_decide (raw = Some o) then 1 else 0)%nat).
    assert (held raw h o = S (held' o)) as Ho.
    { pose proof (Hset o Hv) as Ho. rewrite bool_decide_true, bool_decide_false in Ho by done. unfold held, held'. lia. }
    rewrite Ho, count_of_S. simpl.
    rewrite (proj2 (Z.leb_le 1 _)) by lia. simpl. eexists. split; [done|].
    assert (∀ o', o' ≠ o → held' o' = held raw h o') as Hother.
    { intros o' Hne. specialize (Hset o' Hv). rewrite (bool_decide_false (Some o = _)), (bool_decide_false (None = _)) in Hset
        by congruence. unfold held, held'. lia. }
    destruct (Z.eqb_spec (Z.of_nat (held' o) + 1 - 1) 0); (split; [|done]); split; simpl.
    + intros o'. change (held raw _ o') with (held' o'). destruct (decide (o' = o)) as [->|Hne].
      * rewrite lookup_delete_eq. by replace (held' o) with 0%nat by lia.
      * by rewrite lookup_delete_ne, lookup_insert_ne, Hother.
    + intros o' [x [Hne Hx]%lookup_delete_Some]. rewrite lookup_insert_ne in Hx by done. apply Hn. by eexists.
    + intros o'. change (held raw _ o') with (held' o'). destruct (decide (o' = o)) as [->|Hne].
      * rewrite lookup_insert_eq. destruct (held' o); [lia|]. simpl. f_equal. lia.
      * by rewrite lookup_insert_ne, Hother.
    + intros o' [x [[<- <-]|[Hne Hx]]%lookup_insert_Some]; apply Hn; [|by eexists]. rewrite Hc, Ho. by eexists.
  - exists h. split_and!; [done|by split| |done]. by rewrite insert_id.
Qed.

(** [ptr_] set to an object that others point to, followed by the increment. *)
Lemma increment_counted h v q :
  counted h → (ptrs h !! v = None ∨ ptrs h !! v = Some None) →
  (∀ o, q = Some o → is_Some (ref_counts h !! o)) →
  ∃ h', IncrementRefCount v (set_ptr v q h) = Ok h' ∧ counted h' ∧ ptrs h' = <[v := q]> (ptrs h) ∧
    next_object h' = next_object h.
Proof.
  intros [Hc Hn] Hv Hq. unfold IncrementRefCount. simpl. rewrite lookup_insert_eq. simpl.
  assert (∀ o, refs (<[v := q]> (ptrs h)) o = (refs (ptrs h) o + if bool_decide (q = Some o) then 1 else 0)%nat) as Hrefs.
  { intros o. destruct Hv as [Hv|Hv]; [by apply refs_insert_new|].
    pose proof (refs_set (ptrs h) v None q o Hv) as Hs. rewrite (bool_decide_false (None = Some o)) in Hs by done. lia. }
  setoid_rewrite held_None in Hc. destruct q as [o|].
  - destruct (Hq o eq_refl) as [n Hno]. unfold PeerConnection_IncrementRefCount. simpl. rewrite Hno. simpl.
    rewrite Hc in Hno. destruct (refs (ptrs h) o) as [|k] eqn:Ek; [done|]. injection Hno as <-.
    rewrite (proj2 (Z.leb_le 1 _)) by lia. simpl. eexists. split; [done|]. split; [|done]. split; simpl.
    + intros o'. rewrite held_None. simpl. rewrite Hrefs. destruct (decide (o' = o)) as [->|Hne].
      * rewrite lookup_insert_eq, bool_decide_true, Ek by done. by rewrite Nat.add_1_r, count_of_S.
      * rewrite lookup_insert_ne, bool_decide_false by congruence. by rewrite Nat.add_0_r.
    + intros o' [x [[<- <-]|[Hne Hx]]%lookup_insert_Some]; apply Hn; [|by eexists]. rewrite Hc, Ek. by eexists.
  - eexists. split; [done|]. split; [|done]. split; simpl; [|done].
    intros o. rewrite held_None. simpl. rewrite Hrefs, bool_decide_false by done. by rewrite Nat.add_0_r.
Qed.

(** A new object, and a pointer that takes it. *)
Lemma new_object_counted h : counted h → counted_with (Some (new_object h).1) (new_object h).2.
Proof.
  intros [Hc Hn]. assert (ref_counts h !! next_object h = None) as Hnone.
  { apply eq_None_not_Some. intros Ho%Hn. lia. }
  split; simpl.
  - intros o. unfold held. simpl. destruct (decide (o = next_object h)) as [->|Hne].
    + rewrite lookup_insert_eq, bool_decide_true by done. rewrite Hc, held_None in Hnone.
      by destruct (refs (ptrs h) (next_object h)).
    + rewrite lookup_insert_ne, bool_decide_false by congruence. rewrite Hc, held_None. by rewrite Nat.add_0_r.
  - intros o [x [[<- <-]|[Hne Hx]]%lookup_insert_Some]; [lia|]. assert (o < next_object h)%nat by (apply Hn; by eexists). lia.
Qed.
Lemma adopt_counted raw h v :
  counted_with raw h → (ptrs h !! v = None ∨ ptrs h !! v = Some None) → counted (set_ptr v raw h).
Proof.
  intros [Hc Hn] Hv. split; [|done]. intros o. rewrite held_None. simpl. rewrite Hc. f_equal. unfold held.
  destruct Hv as [Hv|Hv]; [by rewrite refs_insert_new|].
  pose proof (refs_set (ptrs h) v None raw o Hv) as Hs. rewrite (bool_decide_false (None = Some o)) in Hs by done. lia.
Qed.

Lemma pointed_exists h v o : counted h → ptrs h !! v = Some (Some o) → is_Some (ref_counts h !! o).
Proof.
  intros [Hc _] Hv. rewrite Hc, held_None, (ptr_refs_delete _ _ _ o Hv), bool_decide_true by done.
  rewrite Nat.add_1_r. by eexists.
Qed.

(** ** Sequences of operations *)
Inductive op :=
| ONull (v : nat)            (* [intrusive_ptr<T> v;] *)
| ONew (v : nat)             (* [intrusive_ptr<T> v(new T(...));] *)
| OCopy (v other : nat)
| OAssign (v other : nat)
| OResetNull (v : nat)       (* [v.reset(nullptr);] *)
| OResetNew (v : nat)        (* [v.reset(new T(...));] *)
| ODestroy (v : nat).

Definition step (h : heap) (o : op) : res heap :=
  match o with
  | ONull v => New v None h
  | ONew v => let '(o, h) := new_object h in New v (Some o) h
  | OCopy v other => Copy v other h
  | OAssign v other => Assign v other h
  | OResetNull v => reset v None h
  | OResetNew v => let '(o, h) := new_object h in reset v (Some o) h
  | ODestroy v => Destroy v h
  end.

(** What the pointers should hold; [None] if an operation is not on pointers that
    exist, or constructs one that does.  The number counts the objects made. *)
Definition spec_state : Type := gmap nat (option nat) * nat.
Definition spec_step (a : spec_state) (o : op) : option spec_state :=
  let '(ps, next) := a in
  match o with
  | ONull v => match ps !! v with None => Some (<[v := None]> ps, next) | Some _ => None end
  | ONew v => match ps !! v with None => Some (<[v := Some next]> ps, S next) | Some _ => None end
  | OCopy v other =>
      match ps !! v with None => p ← ps !! other; Some (<[v := p]> ps, next) | Some _ => None end
  | OAssign v other => _ ← ps !! v; p ← ps !! other; Some (<[v := p]> ps, next)
  | OResetNull v => _ ← ps !! v; Some (<[v := None]> ps, next)
  | OResetNew v => _ ← ps !! v; Some (<[v := Some next]> ps, S next)
  | ODestroy v => _ ← ps !! v; Some (delete v ps, next)
  end.
Fixpoint spec_run (a : spec_state) (ops : list op) : option spec_state :=
  match ops with [] => Some a | o :: ops => a ← spec_step a o; spec_run a ops end.

Lemma Copy_counted h v other p :
  counted h → ptrs h !! v = None → ptrs h !! other = Some p →
  ∃ h', Copy v other h = Ok h' ∧ counted h' ∧ ptrs h' = <[v := p]> (ptrs h) ∧ next_object h' = next_object h.
Proof.
  intros Hc Hv Ho. unfold Copy. rewrite Ho. simpl. apply increment_counted; [done|by left|].
  intros o ->. by eapply pointed_exists.
Qed.

Lemma Assign_counted h v other p q :
  counted h → ptrs h !! v = Some p → ptrs h !! other = Some q →
  ∃ h', Assign v other h = Ok h' ∧ counted h' ∧ ptrs h' = <[v := q]> (ptrs h) ∧ next_object h' = next_object h.
Proof.
  intros Hc Hv Ho. unfold Assign. rewrite Hv, Ho. simpl. case_bool_decide as Hpq; simpl.
  { subst q. exists h. split_and!; [done..| |done]. by rewrite insert_id. }
  destruct (decide (other = v)) as [->|Hne]; [congruence|].
  destruct (decrement_counted None h v p Hc Hv) as (h1 & -> & Hc1 & Ep & En). simpl.
  assert (ptrs h1 !! other = Some q) as Ho1 by (by rewrite Ep, lookup_insert_ne). rewrite Ho1. simpl.
  destruct (increment_counted h1 v q Hc1) as (h2 & -> & Hc2 & Ep2 & En2).
  - right. by rewrite Ep, lookup_insert_eq.
  - intros o ->. by eapply pointed_exists.
  - exists h2. split_and!; [done|done| |congruence]. by rewrite Ep2, Ep, insert_insert_eq.
Qed.

Lemma reset_counted raw h v p :
  counted_with raw h → ptrs h !! v = Some p → (∀ o, raw = Some o → p ≠ Some o) →
  ∃ h', reset v raw h = Ok h' ∧ counted h' ∧ ptrs h' = <[v := raw]> (ptrs h) ∧ next_object h' = next_object h.
Proof.
  intros Hc Hv Hraw. unfold reset. rewrite Hv. simpl. case_bool_decide as Hp.
  { subst p. destruct raw as [o|]; [by destruct (Hraw o)|]. exists h. split_and!; [done..| |done]. by rewrite insert_id. }
  destruct (decrement_counted raw h v p Hc Hv) as (h1 & -> & Hc1 & Ep & En). simpl. eexists. split; [done|].
  split_and!; [|simpl; by rewrite Ep, insert_insert_eq|done].
  apply adopt_counted; [done|]. right. by rewrite Ep, lookup_insert_eq.
Qed.

Lemma Destroy_counted h v p :
  counted h → ptrs h !! v = Some p →
  ∃ h', Destroy v h = Ok h' ∧ counted h' ∧ ptrs h' = delete v (ptrs h) ∧ next_object h' = next_object h.
Proof.
  intros Hc Hv. unfold Destroy. destruct (decrement_counted None h v p Hc Hv) as (h1 & -> & [Hc1 Hn1] & Ep & En). simpl.
  eexists. split; [done|]. split_and!; [|simpl; by rewrite Ep, delete_insert_eq|done]. split; [|done].
  intros o. simpl. rewrite Hc1, !held_None. simpl. rewrite Ep, delete_insert_eq.
  rewrite (ptr_refs_delete (<[v:=None]> (ptrs h)) v None o) by apply lookup_insert_eq.
  by rewrite delete_insert_eq, bool_decide_false, Nat.add_0_r.
Qed.

Definition implements (h : heap) (a : spec_state) : Prop := counted h ∧ ptrs h = a.1 ∧ next_object h = a.2.

Lemma step_implements h a o a' :
  implements h a → spec_step a o = Some a' → ∃ h', step h o = Ok h' ∧ implements h' a'.
Proof.
  intros (Hc & Hp & Hn) Hs. destruct a as [ps next]. simpl in *. subst ps next.
  pose proof (new_object_counted h Hc) as Hnew.
  assert (∀ v p, ptrs h !! v = Some p → p ≠ Some (next_object h)) as Hfresh.
  { intros v p Hv ->. pose proof (pointed_exists h v _ Hc Hv) as Ho. apply (counted_next _ _ Hc) in Ho. lia. }
  assert (∀ (m : res heap) ps n, (∃ h', m = Ok h' ∧ counted h' ∧ ptrs h' = ps ∧ next_object h' = n) →
    ∃ h', m = Ok h' ∧ implements h' (ps, n)) as Hok by (intros m ps n (h' & ? & ? & ? & ?); exists h'; done).
  destruct o as [v|v|v w|v w|v|v|v]; simpl in Hs; destruct (ptrs h !! v) as [p|] eqn:Ev; simplify_eq/=.
  - eexists. split; [done|]. split; [|done]. apply adopt_counted; auto.
  - eexists. split; [done|]. split; [|done]. apply (adopt_counted (Some (next_object h)) (new_object h).2); auto.
  - apply bind_Some in Hs as (q & Hq & [= <-]). by apply Hok, Copy_counted.
  - apply bind_Some in Hs as (q & Hq & [= <-]). by eapply Hok, Assign_counted.
  - apply Hok. by eapply reset_counted.
  - apply Hok. destruct (reset_counted (Some (next_object h)) (new_object h).2 v p) as (h' & ? & ? & ? & ?); eauto.
    intros o [= <-]. by eapply Hfresh.
  - by eapply Hok, Destroy_counted.
Qed.

Lemma run_implements h a ops a' :
  implements h a → spec_run a ops = Some a' → ∃ h', foldM step h ops = Ok h' ∧ implements h' a'.
Proof.
  revert h a. induction ops as [|o ops IH]; intros h a Hh; simpl; [intros [= <-]; eauto|].
  intros (a1 & H1 & H2)%bind_Some. destruct (step_implements h a o a1 Hh H1) as (h1 & -> & Hh1). simpl. eauto.
Qed.

Lemma implements_empty : implements empty_heap (∅, 0%nat).
Proof.
  split; [|done]. split; simpl; intros o; rewrite lookup_empty; [|by intros []].
  rewrite held_None. unfold refs. simpl. by rewrite map_filter_empty, map_size_empty.
Qed.
End IntrusivePtr.


Definition pointer_ops : list IntrusivePtr.op :=
  [IntrusivePtr.ONew 0; IntrusivePtr.OCopy 1 0; IntrusivePtr.ONew 2; IntrusivePtr.OAssign 0 2;
   IntrusivePtr.OAssign 1 1; IntrusivePtr.OResetNew 2; IntrusivePtr.ODestroy 1].

