(* ===== verification/DumpContext.v ===== *)
(** * Dumping objects as text

    [util/dump_context.h] and [util/dump_context_impl.{h,cc}]: the interface with
    which the [Dump] methods write structured data, and its implementation, which
    builds a tree and formats it.  The conversions [%f] and [%p] of [printf] are
    parameters. *)
From S2P Require Import Prelude Text.
From stdpp Require Import base tactics list strings.
From Stdlib Require Import ZArith Lia Ascii.
#[local] Open Scope string_scope.
#[local] Open Scope Z_scope.
#[local] Arguments String.append !_ _ : simpl nomatch.

(** ** The interface *)
#[local] Unset Elimination Schemes.
(** The values that can be written.  A [double] is its bit pattern; the integer
    types differ in the format, which prints a number in decimal for all of them. *)
Inductive DumpNode :=
| NullDumpNode
| BoolDumpNode (b_ : bool)
| IntDumpNode (value_ : Z)
| DoubleDumpNode (value_ : Z)
| StringDumpNode (s_ : string)
| PointerDumpNode (p_ : nat)
| ListDumpNode (list_ : list DumpNode)
| MapDumpNode (map_ : list DumpNode).
#[local] Set Elimination Schemes.

Section dump_node_ind.
Context (P : DumpNode → Prop).
Context (HNull : P NullDumpNode) (HBool : ∀ b, P (BoolDumpNode b)) (HInt : ∀ n, P (IntDumpNode n)).
Context (HDouble : ∀ d, P (DoubleDumpNode d)) (HString : ∀ s, P (StringDumpNode s)).
Context (HPointer : ∀ p, P (PointerDumpNode p)).
Context (HList : ∀ l, Forall P l → P (ListDumpNode l)) (HMap : ∀ l, Forall P l → P (MapDumpNode l)).
Fixpoint DumpNode_ind' (n : DumpNode) : P n :=
  let go := fix go (l : list DumpNode) : Forall P l :=
    match l with [] => Forall_nil_2 _ | x :: l' => Forall_cons_2 _ _ _ (DumpNode_ind' x) (go l') end in
  match n with
  | NullDumpNode => HNull
  | BoolDumpNode b => HBool b
  | IntDumpNode n => HInt n
  | DoubleDumpNode d => HDouble d
  | StringDumpNode s => HString s
  | PointerDumpNode p => HPointer p
  | ListDumpNode l => HList l (go l)
  | MapDumpNode l => HMap l (go l)
  end.
End dump_node_ind.

(** The conversion of a [float] to a [double], on bit patterns. *)
Definition double_of_float (f : Z) : Z :=
  let sign := Z.shiftr f 31 in
  let exponent := Z.land (Z.shiftr f 23) 255 in
  let fraction := Z.land f (2 ^ 23 - 1) in
  Z.shiftl sign 63 +
  (if exponent =? 255 then Z.shiftl 2047 52 + Z.shiftl fraction 29
   else if negb (exponent =? 0) then Z.shiftl (exponent + 896) 52 + Z.shiftl fraction 29
   else if fraction =? 0 then 0
   else let k := Z.log2 fraction in Z.shiftl (k + 874) 52 + Z.shiftl (fraction - 2 ^ k) (52 - k)).

Class DumpContext (D : Type) := {
  AddNull : D → res D;
  AddBool : bool → D → res D;
  AddInt : Z → D → res D;
  AddLong : Z → D → res D;
  AddLongLong : Z → D → res D;
  AddInt64 : Z → D → res D;
  AddUint64 : Z → D → res D;
  AddFloat : Z → D → res D;
  AddDouble : Z → D → res D;
  AddString : string → D → res D;
  AddPointer : nat → D → res D;
  BeginList : D → res D;
  BeginMap : D → res D;
  End_ : D → res D;
}.

(** A sequence of calls. *)
Definition dump_seq {D} (m1 m2 : D → res D) : D → res D := fun d => d ← m1 d; m2 d.
Infix ";>" := dump_seq (at level 65, right associativity).
Definition dump_all {D A} (f : A → D → res D) (l : list A) : D → res D := fun d => foldM (flip f) d l.

(** [dc->BeginMap(); ... dc->End();] and the same for a list. *)
Definition dump_map `{DumpContext D} (m : D → res D) : D → res D := BeginMap ;> m ;> End_.
Definition dump_list `{DumpContext D} (m : D → res D) : D → res D := BeginList ;> m ;> End_.

(** What the interface promises: a whole value can be written, and the calls write
    the values they name. *)
Class DumpContextLaws (D : Type) `{DumpContext D} := {
  write_node : DumpNode → D → res D;
  AddNull_node d : AddNull d = write_node NullDumpNode d;
  AddBool_node b d : AddBool b d = write_node (BoolDumpNode b) d;
  AddInt_node n d : AddInt n d = write_node (IntDumpNode n) d;
  AddInt64_node n d : AddInt64 n d = write_node (IntDumpNode n) d;
  AddUint64_node n d : AddUint64 n d = write_node (IntDumpNode n) d;
  AddFloat_node f d : AddFloat f d = write_node (DoubleDumpNode (double_of_float f)) d;
  AddDouble_node x d : AddDouble x d = write_node (DoubleDumpNode x) d;
  AddString_node s d : AddString s d = write_node (StringDumpNode s) d;
  AddPointer_node p d : AddPointer p d = write_node (PointerDumpNode p) d;
  list_node l d : dump_list (dump_all write_node l) d = write_node (ListDumpNode l) d;
  map_node l d : dump_map (dump_all write_node l) d = write_node (MapDumpNode l) d;
}.

(** ** The implementation *)
Class Printf := { printf_f : Z → string; printf_p : nat → string }.

Record DumpContextImpl := mkDumpContextImpl {
  pending_nodes_ : list DumpNode;
  root_node_ : option DumpNode;
}.

Definition NewDumpContextImpl : DumpContextImpl := mkDumpContextImpl [] None.

(** [DumpNode::AddValue]. *)
Definition node_AddValue (this node : DumpNode) : res DumpNode :=
  match this with
  | ListDumpNode list_ => Ok (ListDumpNode (list_ ++ [node]))
  | MapDumpNode map_ => Ok (MapDumpNode (map_ ++ [node]))
  | _ => Fatal
  end.

Definition AddValue (node : DumpNode) (dc : DumpContextImpl) : res DumpContextImpl :=
  match pending_nodes_ dc with
  | [] =>
      _ ← CHECK (bool_decide (root_node_ dc = None));
      Ok (mkDumpContextImpl [] (Some node))
  | top :: rest =>
      top ← node_AddValue top node;
      Ok (mkDumpContextImpl (top :: rest) (root_node_ dc))
  end.

Definition impl_BeginList (dc : DumpContextImpl) : res DumpContextImpl :=
  Ok (mkDumpContextImpl (ListDumpNode [] :: pending_nodes_ dc) (root_node_ dc)).
Definition impl_BeginMap (dc : DumpContextImpl) : res DumpContextImpl :=
  Ok (mkDumpContextImpl (MapDumpNode [] :: pending_nodes_ dc) (root_node_ dc)).
Definition impl_End (dc : DumpContextImpl) : res DumpContextImpl :=
  match pending_nodes_ dc with
  | [] => Fatal
  | completed_node :: rest => AddValue completed_node (mkDumpContextImpl rest (root_node_ dc))
  end.
Definition impl_AddFloat (f : Z) : DumpContextImpl → res DumpContextImpl :=
  AddValue (DoubleDumpNode (double_of_float f)).

#[export] Instance dump_context_impl : DumpContext DumpContextImpl := {|
  AddNull := AddValue NullDumpNode;
  AddBool b := AddValue (BoolDumpNode b);
  AddInt n := AddValue (IntDumpNode n);
  AddLong n := AddValue (IntDumpNode n);
  AddLongLong n := AddValue (IntDumpNode n);
  AddInt64 n := AddValue (IntDumpNode n);
  AddUint64 n := AddValue (IntDumpNode n);
  AddFloat := impl_AddFloat;
  AddDouble d := AddValue (DoubleDumpNode d);
  AddString s := AddValue (StringDumpNode s);
  AddPointer p := AddValue (PointerDumpNode p);
  BeginList := impl_BeginList;
  BeginMap := impl_BeginMap;
  End_ := impl_End;
|}.

(** ** The text *)
Definition quote : string := str1 (char_of 34).

Section text.
Context `{Printf}.

(** The loops of [ListDumpNode::AppendJson] and [MapDumpNode::AppendJson] over the
    texts of the nodes; the second one ends the process if a key has no value. *)
Fixpoint append_list (first : bool) (texts : list (res string)) : res string :=
  match texts with
  | [] => Ok ""
  | node :: rest =>
      s ← node;
      t ← append_list false rest;
      Ok ((if first then "" else ",") ++ " " ++ s ++ t)
  end.

Fixpoint append_map (first : bool) (texts : list (res string)) : res string :=
  match texts with
  | [] => Ok ""
  | [_] => Fatal
  | key :: value :: rest =>
      k ← key;
      v ← value;
      t ← append_map false rest;
      Ok ((if first then "" else ",") ++ " " ++ k ++ ": " ++ v ++ t)
  end.

Definition ListDumpNode_AppendJson (texts : list (res string)) : res string :=
  match texts with [] => Ok "[]" | _ => t ← append_list true texts; Ok ("[" ++ t ++ " ]") end.
Definition MapDumpNode_AppendJson (texts : list (res string)) : res string :=
  match texts with [] => Ok "{}" | _ => t ← append_map true texts; Ok ("{" ++ t ++ " }") end.

(** What [AppendJson] appends. *)
Fixpoint AppendJson (node : DumpNode) : res string :=
  match node with
  | NullDumpNode => Ok "null"
  | BoolDumpNode b => Ok (if b then "true" else "false")
  | IntDumpNode n => Ok (printf_d n)
  | DoubleDumpNode d => Ok (printf_f d)
  | StringDumpNode s => Ok (quote ++ c_str (CEscape s) ++ quote)
  | PointerDumpNode p => Ok (quote ++ printf_p p ++ quote)
  | ListDumpNode list_ => ListDumpNode_AppendJson (map AppendJson list_)
  | MapDumpNode map_ => MapDumpNode_AppendJson (map AppendJson map_)
  end.

Definition FormatJson (dc : DumpContextImpl) : res string :=
  match root_node_ dc with Some node => AppendJson node | None => Fatal end.

(** [GetJsonString] of an object whose [Dump] method is given. *)
Definition GetJsonString (Dump : DumpContextImpl → res DumpContextImpl) : res string :=
  dc ← Dump NewDumpContextImpl; FormatJson dc.

End text.

(** ** The implementation keeps the promises of the interface *)
Lemma write_pending l top rest root :
  dump_all AddValue l (mkDumpContextImpl (ListDumpNode top :: rest) root) =
    Ok (mkDumpContextImpl (ListDumpNode (top ++ l) :: rest) root).
Proof.
  unfold dump_all. revert top. induction l as [|x l IH]; intros top; simpl; [by rewrite app_nil_r|].
  rewrite IH. by rewrite <- app_assoc.
Qed.
Lemma write_pending_map l top rest root :
  dump_all AddValue l (mkDumpContextImpl (MapDumpNode top :: rest) root) =
    Ok (mkDumpContextImpl (MapDumpNode (top ++ l) :: rest) root).
Proof.
  unfold dump_all. revert top. induction l as [|x l IH]; intros top; simpl; [by rewrite app_nil_r|].
  rewrite IH. by rewrite <- app_assoc.
Qed.

#[export] Instance dump_context_impl_laws : DumpContextLaws DumpContextImpl.
Proof.
  refine {| write_node := AddValue |}; try reflexivity; intros l [p r].
  - unfold dump_list, dump_seq. simpl. by rewrite write_pending.
  - unfold dump_map, dump_seq. simpl. by rewrite write_pending_map.
Defined.

(** ** Methods that write one value *)
Section writes.
Context {D : Type} `{DumpContextLaws D}.

(** [m] writes exactly the values [ns]. *)
Definition writes (m : D → res D) (ns : list DumpNode) : Prop := ∀ d, m d = dump_all write_node ns d.

Lemma dump_all_app {A} (f : A → D → res D) l1 l2 d :
  dump_all f (l1 ++ l2) d = (dump_all f l1 ;> dump_all f l2) d.
Proof. unfold dump_all, dump_seq. apply foldM_app. Qed.

Lemma writes_seq m1 m2 l1 l2 : writes m1 l1 → writes m2 l2 → writes (m1 ;> m2) (l1 ++ l2).
Proof.
  intros H1 H2 d. rewrite dump_all_app. unfold dump_seq. rewrite H1.
  destruct (dump_all write_node l1 d); simpl; [apply H2|done..].
Qed.

Lemma writes_nil : writes Ok [].
Proof. by intros d. Qed.

Lemma writes_one m n : (∀ d, m d = write_node n d) → writes m [n].
Proof. intros Hm d. rewrite Hm. unfold dump_all. simpl. by destruct (write_node n d). Qed.

Lemma writes_all {A} (f : A → D → res D) (g : A → list DumpNode) l :
  (∀ x, x ∈ l → writes (f x) (g x)) → writes (dump_all f l) (flat_map g l).
Proof.
  induction l as [|x l IH]; intros Hf; [apply writes_nil|].
  change (dump_all f (x :: l)) with (f x ;> dump_all f l). simpl.
  apply writes_seq; [apply Hf; by left|]. apply IH. intros y Hy. apply Hf. by right.
Qed.

Lemma writes_list m ns : writes m ns → writes (dump_list m) [ListDumpNode ns].
Proof.
  intros Hm. apply writes_one. intros d. rewrite <- list_node. unfold dump_list, dump_seq.
  destruct (BeginList d); simpl; [by rewrite Hm|done..].
Qed.
Lemma writes_map m ns : writes m ns → writes (dump_map m) [MapDumpNode ns].
Proof.
  intros Hm. apply writes_one. intros d. rewrite <- map_node. unfold dump_map, dump_seq.
  destruct (BeginMap d); simpl; [by rewrite Hm|done..].
Qed.

End writes.

(** A method that writes one value, on a new context, leaves this value. *)
Lemma written_text `{Printf} (Dump : DumpContextImpl → res DumpContextImpl) n :
  writes Dump [n] → GetJsonString Dump = AppendJson n.
Proof. intros HD. unfold GetJsonString. by rewrite HD. Qed.

(** ** Reading the text back *)
#[local] Unset Elimination Schemes.
Inductive json :=
| JAtom (text : string)
| JString (escaped : string)
| JList (items : list json)
| JMap (entries : list (json * json)).
#[local] Set Elimination Schemes.

(** The rest of a string after its opening quote: a backslash protects the
    character after it. *)
Fixpoint read_string (s : string) : option (string * string) :=
  match s with
  | "" => None
  | String c s' =>
      if bool_decide (c = char_of 34) then Some ("", s')
      else if bool_decide (c = char_of 92) then
        match s' with
        | "" => None
        | String c' s'' => '(t, rest) ← read_string s''; Some (String c (String c' t), rest)
        end
      else '(t, rest) ← read_string s'; Some (String c t, rest)
  end.

Definition delimiter (c : ascii) : bool :=
  bool_decide (c = " "%char) || bool_decide (c = ","%char) || bool_decide (c = ":"%char).

Fixpoint read_atom (s : string) : string * string :=
  match s with
  | "" => ("", "")
  | String c s' => if delimiter c then ("", s) else let '(t, rest) := read_atom s' in (String c t, rest)
  end.

(** The entries of a list or map after its opening bracket. *)
Section read.
Context (read_value : string → option (json * string)).
Fixpoint read_items (fuel : nat) (s : string) : option (list json * string) :=
  match fuel, s with
  | S fuel, String " " s' =>
      '(x, rest) ← read_value s';
      match rest with
      | String "," rest => '(xs, rest) ← read_items fuel rest; Some (x :: xs, rest)
      | String " " (String "]" rest) => Some ([x], rest)
      | _ => None
      end
  | _, _ => None
  end.
Fixpoint read_entries (fuel : nat) (s : string) : option (list (json * json) * string) :=
  match fuel, s with
  | S fuel, String " " s' =>
      '(k, rest) ← read_value s';
      match rest with
      | String ":" (String " " rest) =>
          '(v, rest) ← read_value rest;
          match rest with
          | String "," rest => '(xs, rest) ← read_entries fuel rest; Some ((k, v) :: xs, rest)
          | String " " (String "}" rest) => Some ([(k, v)], rest)
          | _ => None
          end
      | _ => None
      end
  | _, _ => None
  end.
End read.

Fixpoint read_json (fuel : nat) (s : string) : option (json * string) :=
  match fuel, s with
  | S fuel, String c rest =>
      if bool_decide (c = "["%char) then
        match rest with
        | String "]" rest => Some (JList [], rest)
        | _ => '(xs, rest) ← read_items (read_json fuel) fuel rest; Some (JList xs, rest)
        end
      else if bool_decide (c = "{"%char) then
        match rest with
        | String "}" rest => Some (JMap [], rest)
        | _ => '(xs, rest) ← read_entries (read_json fuel) fuel rest; Some (JMap xs, rest)
        end
      else if bool_decide (c = char_of 34) then
        '(t, rest) ← read_string rest; Some (JString t, rest)
      else let '(t, rest) := read_atom s in Some (JAtom t, rest)
  | _, _ => None
  end.

(** What a text is read as, if it is read to its end. *)
Definition read_text (s : string) : option json :=
  match read_json (String.length s) s with Some (x, "") => Some x | _ => None end.

(** *** What the text of a node is read as *)
Fixpoint pair_up {A} (l : list A) : list (A * A) :=
  match l with k :: v :: l' => (k, v) :: pair_up l' | _ => [] end.

(** A text that is neither a delimiter nor opens anything. *)
Definition plain (c : ascii) : bool :=
  negb (delimiter c || bool_decide (c = "["%char) || bool_decide (c = "{"%char) || bool_decide (c = char_of 34)).
Definition unquoted (c : ascii) : bool :=
  negb (bool_decide (c = char_of 34) || bool_decide (c = char_of 92)).

Class PrintfLaws `{Printf} : Prop := {
  printf_f_plain d : printf_f d ≠ "" ∧ all_chars plain (printf_f d) = true;
  printf_p_unquoted p : all_chars unquoted (printf_p p) = true;
}.

Section roundtrip.
Context `{PrintfLaws}.

Fixpoint json_of (n : DumpNode) : json :=
  match n with
  | NullDumpNode => JAtom "null"
  | BoolDumpNode b => JAtom (if b then "true" else "false")
  | IntDumpNode n => JAtom (printf_d n)
  | DoubleDumpNode d => JAtom (printf_f d)
  | StringDumpNode s => JString (CEscape s)
  | PointerDumpNode p => JString (printf_p p)
  | ListDumpNode l => JList (map json_of l)
  | MapDumpNode l => JMap (pair_up (map json_of l))
  end.

(** Every key of a map has a value. *)
Fixpoint node_ok (n : DumpNode) : bool :=
  match n with
  | ListDumpNode l => forallb node_ok l
  | MapDumpNode l => Nat.even (length l) && forallb node_ok l
  | _ => true
  end.

Definition follows (rest : string) : Prop :=
  match rest with "" => True | String c _ => delimiter c = true end.

Lemma read_atom_plain t rest : all_chars plain t = true → follows rest → read_atom (t ++ rest) = (t, rest).
Proof.
  intros Ht Hr. induction t as [|c t IH]; simpl.
  - destruct rest as [|c rest]; simpl in *; [done|]. by rewrite Hr.
  - simpl in Ht. apply andb_true_iff in Ht as [Hc Ht]. unfold plain in Hc.
    destruct (delimiter c); [done|]. by rewrite IH.
Qed.

Lemma read_plain_char c rest :
  unquoted c = true → read_string (String c rest) = ('(u, rest) ← read_string rest; Some (String c u, rest)).
Proof. unfold unquoted. intros Hc. simpl. by repeat case_bool_decide. Qed.

Lemma read_unquoted t rest :
  all_chars unquoted t = true →
  read_string (t ++ rest) = ('(u, rest) ← read_string rest; Some (t ++ u, rest)).
Proof.
  induction t as [|c t IH]; simpl all_chars; intros Ht.
  - simpl. by destruct (read_string rest) as [[??]|].
  - apply andb_true_iff in Ht as [Hc Ht]. change (String c t ++ rest) with (String c (t ++ rest)).
    rewrite (read_plain_char _ _ Hc), (IH Ht). by destruct (read_string rest) as [[??]|].
Qed.

Lemma read_escape c t rest :
  all_chars unquoted t = true →
  read_string (backslash ++ String c t ++ rest) =
    ('(u, rest) ← read_string rest; Some (backslash ++ String c t ++ u, rest)).
Proof.
  intros Ht. change (read_string (backslash ++ String c t ++ rest)) with
    ('(u, rest) ← read_string (t ++ rest); Some (String (char_of 92) (String c u), rest)).
  rewrite read_unquoted by done. by destruct (read_string rest) as [[??]|].
Qed.

Lemma byte_eq c z : 0 ≤ z < 256 → c = char_of z ↔ byte_of c = z.
Proof. intros Hz. split; [intros ->; by apply byte_char|intros <-; by rewrite char_byte]. Qed.

Lemma unquoted_byte c : byte_of c ≠ 34 → byte_of c ≠ 92 → unquoted c = true.
Proof.
  intros H1 H2. unfold unquoted.
  rewrite !bool_decide_false; [done|..]; rewrite byte_eq; lia.
Qed.

Lemma octal_digit_unquoted d : unquoted (char_of (48 + d mod 8)) = true.
Proof.
  pose proof (Z.mod_pos_bound d 8 ltac:(lia)). apply unquoted_byte; rewrite byte_char; lia.
Qed.

Lemma read_escaped_char c rest :
  read_string (CEscapeChar c ++ rest) = ('(u, rest) ← read_string rest; Some (CEscapeChar c ++ u, rest)).
Proof.
  unfold CEscapeChar. cbv zeta.
  repeat (case_match; [by apply read_escape|]). case_match.
  - apply read_unquoted. simpl. rewrite unquoted_byte; [done|lia..].
  - unfold octal3. apply read_escape. simpl. by rewrite !octal_digit_unquoted.
Qed.

Lemma read_escaped s rest :
  read_string (CEscape s ++ rest) = ('(u, rest) ← read_string rest; Some (CEscape s ++ u, rest)).
Proof.
  induction s as [|c s IH]; simpl; [by destruct (read_string rest) as [[??]|]|].
  rewrite str_app_assoc, read_escaped_char, IH. destruct (read_string rest) as [[u r]|]; simpl; [|done].
  by rewrite str_app_assoc.
Qed.

Lemma read_quoted t rest :
  (∀ rest, read_string (t ++ rest) = ('(u, rest) ← read_string rest; Some (t ++ u, rest))) →
  read_string (t ++ quote ++ rest) = Some (t, rest).
Proof. intros Ht. rewrite Ht. simpl. by rewrite str_app_nil_r. Qed.

(** An escaped text has no NUL. *)
Lemma escaped_not_nul s : all_chars not_nul (CEscape s) = true.
Proof.
  induction s as [|c s IH]; simpl; [done|]. rewrite all_chars_app, IH, andb_true_r.
  unfold CEscapeChar. cbv zeta. repeat (case_match; [done|]). case_match.
  - simpl. unfold not_nul, isprint in *. lia.
  - assert (∀ d, not_nul (char_of (48 + d mod 8)) = true) as Hd.
    { intros d. pose proof (Z.mod_pos_bound d 8 ltac:(lia)). unfold not_nul. rewrite byte_char by lia. lia. }
    unfold octal3. simpl. by rewrite !Hd.
Qed.
Lemma c_str_escaped s : c_str (CEscape s) = CEscape s.
Proof. apply c_str_id, escaped_not_nul. Qed.

(** *** The round trip *)
Definition reads (n : DumpNode) (t : string) : Prop :=
  ∀ fuel rest, (String.length t ≤ fuel)%nat → follows rest → read_json fuel (t ++ rest) = Some (json_of n, rest).

Lemma read_plain t n :
  t ≠ "" → all_chars plain t = true → json_of n = JAtom t → reads n t.
Proof.
  intros Hne Ht Hn fuel rest Hf Hr. rewrite Hn.
  pose proof (read_atom_plain t rest Ht Hr) as Ha.
  destruct t as [|c t]; [done|]. destruct fuel as [|fuel]; [simpl in Hf; lia|].
  simpl in Ht. apply andb_true_iff in Ht as [Hc _]. unfold plain in Hc.
  simpl in *. repeat (rewrite bool_decide_false by (intros ->; by vm_compute in Hc)). by rewrite Ha.
Qed.

Lemma read_quoted_node t n :
  (∀ rest, read_string (t ++ rest) = ('(u, rest) ← read_string rest; Some (t ++ u, rest))) →
  json_of n = JString t → reads n (quote ++ t ++ quote).
Proof.
  intros Ht Hn fuel rest Hf _. rewrite Hn. destruct fuel as [|fuel]; [simpl in Hf; lia|].
  change ((quote ++ t ++ quote) ++ rest) with (String (char_of 34) ((t ++ quote) ++ rest)).
  change (read_json (S fuel) (String (char_of 34) ?r)) with ('(t, rest) ← read_string r; Some (JString t, rest)).
  by rewrite str_app_assoc, read_quoted.
Qed.

(** The text of a node, when its maps are complete. *)
Definition text_reads (n : DumpNode) : Prop :=
  node_ok n = true → ∃ t, AppendJson n = Ok t ∧ t ≠ "" ∧ reads n t.

Lemma append_list_reads l first :
  Forall text_reads l → forallb node_ok l = true → l ≠ [] →
  ∃ t, append_list first (map AppendJson l) = Ok ((if first then "" else ",") ++ " " ++ t) ∧
    ∀ fuel1 fuel2 rest, (S (String.length t) ≤ fuel1)%nat → (S (String.length t) ≤ fuel2)%nat →
    read_items (read_json fuel1) fuel2 (" " ++ t ++ " ]" ++ rest) = Some (map json_of l, rest).
Proof.
  intros HF. revert first. induction HF as [|n l Hn HF IH]; intros first Hok Hne; [done|].
  simpl in Hok. apply andb_true_iff in Hok as [Hok1 Hok]. destruct (Hn Hok1) as (s & Es & _ & Hs).
  destruct l as [|n' l].
  - exists s. simpl. rewrite Es. simpl. rewrite str_app_nil_r. split; [done|].
    intros fuel1 [|fuel2] rest H1 H2; [lia|]. simpl. rewrite Hs by (done || lia). done.
  - destruct (IH false Hok ltac:(done)) as (t & Et & Ht). exists (s ++ ", " ++ t).
    change (append_list first (map AppendJson (n :: n' :: l))) with
      (s ← AppendJson n; t ← append_list false (map AppendJson (n' :: l));
       Ok ((if first then "" else ",") ++ " " ++ s ++ t)).
    rewrite Es, Et. split; [done|]. rewrite !str_app_length. intros fuel1 [|fuel2] rest H1 H2; [lia|].
    simpl in H1, H2. rewrite !str_app_assoc.
    change (read_items (read_json fuel1) (S fuel2) (" " ++ ?text)) with
      ('(x, rest) ← read_json fuel1 text;
       match rest with
       | String "," rest => '(xs, rest) ← read_items (read_json fuel1) fuel2 rest; Some (x :: xs, rest)
       | String " " (String "]" rest) => Some ([x], rest)
       | _ => None
       end).
    simpl in Ht. rewrite Hs by (done || lia). simpl. rewrite Ht by lia. done.
Qed.

Lemma append_map_reads m l first :
  (length l ≤ m)%nat → Forall text_reads l → forallb node_ok l = true → Nat.even (length l) = true → l ≠ [] →
  ∃ t, append_map first (map AppendJson l) = Ok ((if first then "" else ",") ++ " " ++ t) ∧
    ∀ fuel1 fuel2 rest, (S (String.length t) ≤ fuel1)%nat → (S (String.length t) ≤ fuel2)%nat →
    read_entries (read_json fuel1) fuel2 (" " ++ t ++ " }" ++ rest) = Some (pair_up (map json_of l), rest).
Proof.
  revert l first. induction m as [|m IH]; intros [|k [|v l]] first Hm HF Hok Hev Hne; simpl in Hm; try done; try lia.
  apply Forall_cons in HF as [Hk HF]. apply Forall_cons in HF as [Hv HF].
  simpl in Hok. rewrite !andb_true_iff in Hok. destruct Hok as (Hok1 & Hok2 & Hok).
  destruct (Hk Hok1) as (s & Es & _ & Hs). destruct (Hv Hok2) as (u & Eu & _ & Hu).
  assert (∀ fuel1 fuel2 x, read_entries (read_json fuel1) (S fuel2) (" " ++ x) =
    ('(k, rest) ← read_json fuel1 x;
     match rest with
     | String ":" (String " " rest) =>
         '(v, rest) ← read_json fuel1 rest;
         match rest with
         | String "," rest => '(xs, rest) ← read_entries (read_json fuel1) fuel2 rest; Some ((k, v) :: xs, rest)
         | String " " (String "}" rest) => Some ([(k, v)], rest)
         | _ => None
         end
     | _ => None
     end)) as Hread by done.
  destruct l as [|n l].
  - exists (s ++ ": " ++ u). simpl. rewrite Es, Eu. simpl. rewrite str_app_nil_r. split; [done|].
    rewrite !str_app_length. simpl. intros fuel1 [|fuel2] rest H1 H2; [lia|].
    rewrite !str_app_assoc. setoid_rewrite Hread. rewrite Hs by (done || lia). simpl.
    rewrite Hu by (done || lia). done.
  - destruct (IH (n :: l) false) as (t & Et & Ht); [simpl in *; lia|done|done|done|done|].
    exists (s ++ ": " ++ u ++ ", " ++ t).
    change (append_map first (map AppendJson (k :: v :: n :: l))) with
      (k ← AppendJson k; v ← AppendJson v; t ← append_map false (map AppendJson (n :: l));
       Ok ((if first then "" else ",") ++ " " ++ k ++ ": " ++ v ++ t)).
    rewrite Es, Eu, Et. split; [done|]. rewrite !str_app_length.
    intros fuel1 [|fuel2] rest H1 H2; [lia|]. simpl in H1, H2. rewrite !str_app_assoc, Hread.
    simpl in Ht. rewrite Hs by (done || lia). simpl.
    rewrite Hu by (done || lia). simpl. rewrite Ht by lia. done.
Qed.

Lemma printf_d_not_empty z : printf_d z ≠ "".
Proof.
  unfold printf_d. destruct (Z.ltb_spec z 0); [done|].
  destruct (dec_digits_head 19 z "") as (d & s & _ & Es); [done|]. rewrite str_app_nil_r in Es. by rewrite Es.
Qed.

Lemma number_plain c : isdigit c || bool_decide (c = "-"%char) = true → plain c = true.
Proof.
  rewrite orb_true_iff, bool_decide_eq_true. intros [Hc| ->]; [|done]. unfold plain, delimiter, isdigit in *.
  rewrite !bool_decide_false; [done|..]; intros ->; by vm_compute in Hc.
Qed.

Lemma AppendJson_reads n : text_reads n.
Proof.
  induction n as [|b|n|d|s|p|l IH|l IH] using DumpNode_ind'; intros Hok.
  - exists "null". split_and!; [done|done|]. by apply read_plain.
  - exists (if b then "true" else "false"). split_and!; [done|by destruct b|]. apply read_plain; by destruct b.
  - exists (printf_d n). split_and!; [done|apply printf_d_not_empty|].
    apply read_plain; [apply printf_d_not_empty| |done].
    eapply all_chars_impl; [|apply printf_d_chars]. apply number_plain.
  - exists (printf_f d). destruct (printf_f_plain d). split_and!; [done|done|]. by apply read_plain.
  - eexists. split_and!; [done|done|]. rewrite c_str_escaped. apply read_quoted_node; [apply read_escaped|done].
  - eexists. split_and!; [done|done|]. apply read_quoted_node; [|done]. intros rest. apply read_unquoted, printf_p_unquoted.
  - simpl in Hok. destruct l as [|n l].
    { exists "[]". split_and!; [done|done|]. intros [|fuel] rest Hf _; [simpl in Hf; lia|done]. }
    destruct (append_list_reads (n :: l) true IH Hok ltac:(done)) as (t & Et & Ht).
    exists ("[ " ++ t ++ " ]"). split_and!; [|done|].
    + change (AppendJson (ListDumpNode (n :: l))) with (t ← append_list true (map AppendJson (n :: l)); Ok ("[" ++ t ++ " ]")).
      by rewrite Et.
    + intros [|fuel] rest Hf _; [simpl in Hf; lia|]. rewrite !str_app_length in Hf. simpl in Hf.
      rewrite !str_app_assoc.
      change (read_json (S fuel) ("[ " ++ ?x)) with
        ('(xs, rest) ← read_items (read_json fuel) fuel (" " ++ x); Some (JList xs, rest)).
      rewrite Ht by lia. done.
  - simpl in Hok. apply andb_true_iff in Hok as [Hev Hok]. destruct l as [|n l].
    { exists "{}". split_and!; [done|done|]. intros [|fuel] rest Hf _; [simpl in Hf; lia|done]. }
    destruct (append_map_reads _ (n :: l) true (le_n _) IH Hok Hev ltac:(done)) as (t & Et & Ht).
    exists ("{ " ++ t ++ " }"). split_and!; [|done|].
    + change (AppendJson (MapDumpNode (n :: l))) with (t ← append_map true (map AppendJson (n :: l)); Ok ("{" ++ t ++ " }")).
      by rewrite Et.
    + intros [|fuel] rest Hf _; [simpl in Hf; lia|]. rewrite !str_app_length in Hf. simpl in Hf.
      rewrite !str_app_assoc.
      change (read_json (S fuel) ("{ " ++ ?x)) with
        ('(xs, rest) ← read_entries (read_json fuel) fuel (" " ++ x); Some (JMap xs, rest)).
      rewrite Ht by lia. done.
Qed.

(** *** Incomplete maps end the process *)
Lemma append_list_fatal l first :
  Forall (fun n => if node_ok n then is_ok (AppendJson n) = true else AppendJson n = Fatal) l →
  forallb node_ok l = false → append_list first (map AppendJson l) = Fatal.
Proof.
  intros HF. revert first. induction HF as [|n l Hn HF IH]; intros first; simpl; [done|].
  destruct (node_ok n); simpl; [|by rewrite Hn]. intros Hl.
  destruct (AppendJson n); simpl; [|done..]. by rewrite IH.
Qed.

Lemma append_map_fatal m l first :
  (length l ≤ m)%nat →
  Forall (fun n => if node_ok n then is_ok (AppendJson n) = true else AppendJson n = Fatal) l →
  Nat.even (length l) && forallb node_ok l = false → append_map first (map AppendJson l) = Fatal.
Proof.
  revert l first. induction m as [|m IH]; intros [|k [|v l]] first Hm HF; simpl in Hm; try done; try lia.
  apply Forall_cons in HF as [Hk HF]. apply Forall_cons in HF as [Hv HF]. simpl.
  destruct (node_ok k); simpl; [|by rewrite Hk]. destruct (AppendJson k); simpl; [|done..].
  destruct (node_ok v); simpl; [|by rewrite Hv]. destruct (AppendJson v); simpl; [|done..].
  intros Hl. by rewrite IH by (done || lia).
Qed.

Lemma AppendJson_ok n : if node_ok n then is_ok (AppendJson n) = true else AppendJson n = Fatal.
Proof.
  destruct (node_ok n) eqn:E.
  { destruct (AppendJson_reads n E) as (t & -> & _). done. }
  revert E. induction n as [| | | | | |l IH|l IH] using DumpNode_ind'; intros E; try done.
  all: assert (Forall (fun n => if node_ok n then is_ok (AppendJson n) = true else AppendJson n = Fatal) l) as HF
    by (eapply Forall_impl; [exact IH|]; intros x Hx; destruct (node_ok x) eqn:Ex; [|by apply Hx];
        by destruct (AppendJson_reads x Ex) as (t & -> & _)).
  - destruct l as [|n l]; [done|]. 
    change (AppendJson (ListDumpNode (n :: l))) with (t ← append_list true (map AppendJson (n :: l)); Ok ("[" ++ t ++ " ]")).
    by rewrite (append_list_fatal (n :: l) true HF E).
  - destruct l as [|n l]; [done|]. 
    change (AppendJson (MapDumpNode (n :: l))) with (t ← append_map true (map AppendJson (n :: l)); Ok ("{" ++ t ++ " }")).
    by rewrite (append_map_fatal _ (n :: l) true (le_n _) HF E).
Qed.

Lemma AppendJson_read_text n : node_ok n = true → ∃ t, AppendJson n = Ok t ∧ read_text t = Some (json_of n).
Proof.
  intros Hn. destruct (AppendJson_reads n Hn) as (t & Et & _ & Ht). exists t. split; [done|].
  unfold read_text. specialize (Ht (String.length t) "" (le_n _) I).
  rewrite str_app_nil_r in Ht. by rewrite Ht.
Qed.
End roundtrip.

(** ** Methods that write complete values, and what is read of them *)
Section wrote.
Context {D : Type} `{DumpContextLaws D} `{Printf}.

(** [m] writes one complete value, which is read as a [j] with [Q j]. *)
Definition wrote (m : D → res D) (Q : json → Prop) : Prop :=
  ∃ n, writes m [n] ∧ node_ok n = true ∧ Q (json_of n).

Lemma wrote_mono m (Q Q' : json → Prop) : wrote m Q → (∀ j, Q j → Q' j) → wrote m Q'.
Proof. intros (n & ? & ? & ?) HQ. exists n. auto. Qed.

(** The items of a list. *)
Lemma wrote_items {A} (f : A → D → res D) (Q : A → json → Prop) l :
  (∀ x, x ∈ l → wrote (f x) (Q x)) →
  wrote (dump_list (dump_all f l)) (fun j => ∃ js, j = JList js ∧ Forall2 Q l js).
Proof.
  intros Hf.
  assert (∃ ns, writes (dump_all f l) ns ∧ forallb node_ok ns = true ∧ Forall2 Q l (map json_of ns)) as (ns & Hw & Hok & HQ).
  { induction l as [|x l IH]; [exists []; by split_and!; [apply writes_nil| |constructor]|].
    destruct (Hf x) as (n & Hn & Hok & Hq); [left|]. destruct IH as (ns & Hns & Hoks & Hqs); [intros; apply Hf; by right|].
    exists (n :: ns). split_and!; [by apply (writes_seq (f x) _ [n] ns)|by simpl; rewrite Hok|by constructor]. }
  exists (ListDumpNode ns). split_and!; [by apply writes_list|done|]. simpl. eauto.
Qed.

(** The entries of a map. *)
Lemma wrote_entries {A} (key : A → string) (f : A → D → res D) (m : A → D → res D) (Q : A → json → Prop) l :
  (∀ x, f x = (AddString (key x) ;> m x)) →
  (∀ x, x ∈ l → wrote (m x) (Q x)) →
  wrote (dump_map (dump_all f l))
    (fun j => ∃ es, j = JMap es ∧ Forall2 (fun x e => e.1 = JString (CEscape (key x)) ∧ Q x e.2) l es).
Proof.
  intros Hf Hm.
  assert (∃ ns, writes (dump_all f l) ns ∧ node_ok (MapDumpNode ns) = true ∧
    Forall2 (fun x e => e.1 = JString (CEscape (key x)) ∧ Q x e.2) l (pair_up (map json_of ns))) as (ns & Hw & Hok & HQ).
  { induction l as [|x l IH]; [exists []; by split_and!; [apply writes_nil| |constructor]|].
    destruct (Hm x) as (n & Hn & Hok & Hq); [left|].
    destruct IH as (ns & Hns & Hoks & Hqs); [intros; apply Hm; by right|].
    exists (StringDumpNode (key x) :: n :: ns). split_and!.
    - apply (writes_seq (f x) _ [StringDumpNode (key x); n] ns); [|done]. rewrite Hf.
      apply (writes_seq _ _ [StringDumpNode (key x)] [n]); [|done].
      apply writes_one. intros. apply AddString_node.
    - simpl in *. by rewrite Hok.
    - by constructor. }
  exists (MapDumpNode ns). split_and!; [by apply writes_map|done|]. simpl. eauto.
Qed.

(** The fields of a map with fixed keys. *)
Definition wrote_fields (m : D → res D) (P : list (json * json) → Prop) : Prop :=
  ∃ ns, writes m ns ∧ node_ok (MapDumpNode ns) = true ∧ P (pair_up (map json_of ns)).

Lemma wrote_fields_last k m Q :
  wrote m Q → wrote_fields (AddString k ;> m) (fun es => ∃ j, es = [(JString (CEscape k), j)] ∧ Q j).
Proof.
  intros (n & Hn & Hok & HQ). exists [StringDumpNode k; n]. split_and!.
  - apply (writes_seq _ _ [StringDumpNode k] [n]); [|done]. apply writes_one. intros. apply AddString_node.
  - simpl. by rewrite Hok.
  - simpl. eauto.
Qed.
Lemma wrote_fields_cons k m rest Q P :
  wrote m Q → wrote_fields rest P →
  wrote_fields (AddString k ;> m ;> rest) (fun es => ∃ j es', es = (JString (CEscape k), j) :: es' ∧ Q j ∧ P es').
Proof.
  intros (n & Hn & Hok & HQ) (ns & Hns & Hoks & HP). exists (StringDumpNode k :: n :: ns). split_and!.
  - apply (writes_seq _ _ [StringDumpNode k] (n :: ns)); [apply writes_one; intros; apply AddString_node|].
    by apply (writes_seq _ _ [n] ns).
  - simpl in *. by rewrite Hok.
  - simpl. eauto 10.
Qed.
Lemma wrote_map m P : wrote_fields m P → wrote (dump_map m) (fun j => ∃ es, j = JMap es ∧ P es).
Proof. intros (ns & Hns & Hok & HP). exists (MapDumpNode ns). split_and!; [by apply writes_map|done|]. simpl. eauto. Qed.

Lemma wrote_string s : wrote (AddString s) (fun j => j = JString (CEscape s)).
Proof. exists (StringDumpNode s). split_and!; [apply writes_one; intros; apply AddString_node|done|done]. Qed.
Lemma wrote_null : wrote AddNull (fun j => j = JAtom "null").
Proof. exists NullDumpNode. split_and!; [apply writes_one; intros; apply AddNull_node|done|done]. Qed.
Lemma wrote_bool b : wrote (AddBool b) (fun j => j = JAtom (if b then "true" else "false")).
Proof. exists (BoolDumpNode b). split_and!; [apply writes_one; intros; apply AddBool_node|done|done]. Qed.
Lemma wrote_int64 z : wrote (AddInt64 z) (fun j => j = JAtom (printf_d z)).
Proof. exists (IntDumpNode z). split_and!; [apply writes_one; intros; apply AddInt64_node|done|done]. Qed.
Lemma wrote_uint64 z : wrote (AddUint64 z) (fun j => j = JAtom (printf_d z)).
Proof. exists (IntDumpNode z). split_and!; [apply writes_one; intros; apply AddUint64_node|done|done]. Qed.
Lemma wrote_double x : wrote (AddDouble x) (fun j => j = JAtom (printf_f x)).
Proof. exists (DoubleDumpNode x). split_and!; [apply writes_one; intros; apply AddDouble_node|done|done]. Qed.
Lemma wrote_float x : wrote (AddFloat x) (fun j => j = JAtom (printf_f (double_of_float x))).
Proof. exists (DoubleDumpNode (double_of_float x)). split_and!; [apply writes_one; intros; apply AddFloat_node|done|done]. Qed.
Lemma wrote_pointer p : wrote (AddPointer p) (fun j => j = JString (printf_p p)).
Proof. exists (PointerDumpNode p). split_and!; [apply writes_one; intros; apply AddPointer_node|done|done]. Qed.
End wrote.

(** The value of a key. *)
Definition json_field (key : string) (j : json) : option json :=
  match j with
  | JMap es =>
      snd <$> List.find (fun e : json * json => match e.1 with JString k => bool_decide (k = key) | _ => false end) es
  | _ => None
  end.

(** [wrote_map_tac] takes a method that writes a map apart into its fields. *)
Create HintDb wrote discriminated.
#[export] Hint Resolve wrote_string wrote_null wrote_bool wrote_int64 wrote_uint64 wrote_double wrote_float
  wrote_pointer wrote_items : wrote.
Ltac wrote_fields_tac :=
  lazymatch goal with
  | |- wrote_fields (AddString _ ;> _ ;> _) _ => eapply wrote_fields_cons; [eauto with wrote|wrote_fields_tac]
  | |- wrote_fields (AddString _ ;> _) _ => eapply wrote_fields_last; eauto with wrote
  end.
Ltac wrote_map_tac := eapply wrote_map; wrote_fields_tac.

(** ** A value through the interface, to text and back *)
Section dump_node.
Context {D : Type} `{DumpContext D}.

(** The calls that write a value. *)
Fixpoint dump_node (n : DumpNode) : D → res D :=
  match n with
  | NullDumpNode => AddNull
  | BoolDumpNode b => AddBool b
  | IntDumpNode z => AddInt64 z
  | DoubleDumpNode x => AddDouble x
  | StringDumpNode s => AddString s
  | PointerDumpNode p => AddPointer p
  | ListDumpNode l => dump_list (foldr dump_seq Ok (map dump_node l))
  | MapDumpNode l => dump_map (foldr dump_seq Ok (map dump_node l))
  end.

Lemma dump_node_writes `{!DumpContextLaws D} n : writes (dump_node n) [n].
Proof.
  induction n as [| | | | | |l IH|l IH] using DumpNode_ind'; simpl.
  1: apply writes_one, AddNull_node. 1: apply writes_one; intros; apply AddBool_node.
  1: apply writes_one; intros; apply AddInt64_node. 1: apply writes_one; intros; apply AddDouble_node.
  1: apply writes_one; intros; apply AddString_node. 1: apply writes_one; intros; apply AddPointer_node.
  all: first [apply writes_list|apply writes_map]; induction IH as [|n l Hn _ IH]; [apply writes_nil|];
    apply (writes_seq (dump_node n) _ [n] l); done.
Qed.
End dump_node.

(** a value written through the interface is formatted exactly
    when every map in it pairs its keys with values, and otherwise the process
    ends; the text, read as nested lists, maps, strings and atoms, is the value
    that was written. *)
Theorem json_text_reads_back `{PrintfLaws} (n : DumpNode) :
  if node_ok n
  then ∃ text, GetJsonString (dump_node n) = Ok text ∧ read_text text = Some (json_of n)
  else GetJsonString (dump_node n) = Fatal.
Proof.
  rewrite (written_text _ n (dump_node_writes n)). pose proof (AppendJson_ok n) as Hok.
  destruct (node_ok n) eqn:E; [by apply AppendJson_read_text|done].
Qed.

(** Instances of the two conversions, to run the definitions. *)
#[local] Instance simple_printf : Printf := {|
  printf_f d := "0.000000";
  printf_p p := "0x" ++ printf_d (Z.of_nat p);
|}.
#[local] Instance simple_printf_laws : PrintfLaws.
Proof.
  split; [done|]. intros p. unfold printf_p. simpl. eapply all_chars_impl; [|apply printf_d_chars].
  intros c. rewrite orb_true_iff, bool_decide_eq_true. intros [Hc| ->]; [|done].
  apply unquoted_byte; unfold isdigit in Hc; lia.
Qed.

Definition test_node : DumpNode :=
  MapDumpNode [StringDumpNode "hello"; BoolDumpNode false;
    StringDumpNode ("good" ++ str1 (char_of 9) ++ "bye"); ListDumpNode [IntDumpNode (-123); IntDumpNode 0; IntDumpNode 456]].

Lemma json_text_reads_back_witness :
  ∃ text, GetJsonString (dump_node test_node) = Ok text ∧ read_text text = Some (json_of test_node).
Proof. exact (json_text_reads_back test_node). Defined.

(** The tests of [util/dump_context_impl_test.cc]. *)
Example AlmostEverything :
  GetJsonString (BeginMap ;> AddString "hello" ;> AddBool false ;>
    AddString ("good" ++ str1 (char_of 9) ++ "bye") ;>
    BeginList ;> AddInt (-123) ;> AddInt 0 ;> AddInt 456 ;> End_ ;> End_) =
  Ok ("{ " ++ quote ++ "hello" ++ quote ++ ": false, " ++ quote ++ "good" ++ backslash ++ "tbye" ++ quote ++
      ": [ -123, 0, 456 ] }").
Proof. reflexivity. Qed.
Example SingleValue : GetJsonString (AddString "abc") = Ok (quote ++ "abc" ++ quote).
Proof. reflexivity. Qed.
(** A second value at the top level, an unbalanced [End] and an unfinished list
    end the process. *)
Example second_value : GetJsonString (AddInt 1 ;> AddInt 2) = Fatal.
Proof. reflexivity. Qed.
Example end_without_begin : GetJsonString (AddInt 1 ;> End_) = Fatal.
Proof. reflexivity. Qed.
Example list_without_end : GetJsonString (BeginList ;> AddInt 1) = Fatal.
Proof. reflexivity. Qed.
Example float_conversions :
  map double_of_float [0; 1065353216; 3212836864; 2139095040; 1; 2147483648]
  = [0; 4607182418800017408; 13830554455654793216; 9218868437227405312; 3936146074321813504; 9223372036854775808].
Proof. reflexivity. Qed.
