(* ===== verification/Varint.v ===== *)
(** * Variable-length integers

    [protocol_server/varint.cc], [protocol_server/varint.h] and
    [protocol_server/buffer_util.cc]: the length prefix of a message on the
    wire.  A buffer is a list of bytes ([unsigned char] values); a pointer into
    it is an offset.  The functions are those of the code; [varint_value] and
    [varint_bytes] are the reference definitions they are compared with. *)
From S2P Require Import Prelude.
From stdpp Require Import base tactics list.
From Stdlib Require Import ZArith Lia.
Open Scope Z_scope.

(** An [unsigned char]. *)
Abbreviation byte := Z (only parsing).
Definition is_byte (b : byte) : Prop := 0 ≤ b < 256.

(** * [buffer_util.cc] *)

(** The loop [while (p < end && *p != c) ++p] from [p]; [n] is [end - p]. *)
Fixpoint find_char_loop (buffer : list byte) (c : byte) (p n : nat) : res nat :=
  match n with
  | O => Ok p
  | S n' =>
      b ← deref (buffer !! p);
      if b =? c then Ok p else find_char_loop buffer c (S p) n'
  end.

Definition FindCharInRange (buffer : list byte) (start end_ : nat) (c : byte) : res nat :=
  _ ← CHECK (start <=? end_)%nat;
  find_char_loop buffer c start (end_ - start).

(** * [varint.cc] *)

Definition kMaxVarintLength : Z := 10.

Fixpoint FindVarintLastChar (buffer : list byte) (p n : nat) : res (option nat) :=
  match n with
  | O => Ok None
  | S n' =>
      byte ← deref (buffer !! p);
      if Z.land byte 0x80 =? 0 then Ok (Some p) else FindVarintLastChar buffer (S p) n'
  end.

(** The loop over [p] from the last byte down to the first; [n] bytes are left. *)
Fixpoint parse_varint_loop (buffer : list byte) (n : nat) (result : Z) : res Z :=
  match n with
  | O => Ok result
  | S p =>
      byte ← deref (buffer !! p);
      _ ← CHECK (result <? Z.shiftl 1 57);
      parse_varint_loop buffer p
        (Z.lor (uint64 (Z.shiftl result 7)) (Z.land byte 0x7f))
  end.

(** The returned length ([-1] when the integer is incomplete) and [*n]. *)
Definition ParseVarint (buffer : list byte) (buffer_size : Z) : res (Z * Z) :=
  _ ← CHECK (0 <=? buffer_size);
  last ← FindVarintLastChar buffer 0 (Z.to_nat buffer_size);
  match last with
  | None => Ok (-1, 0)
  | Some last_char_ptr =>
      result ← parse_varint_loop buffer (S last_char_ptr) 0;
      Ok (Z.of_nat last_char_ptr + 1, result)
  end.

(** The loop [while ((n >>= 7) != 0) ++length], at most [fuel] times. *)
Fixpoint varint_length_loop (fuel : nat) (n length : Z) : Z :=
  match fuel with
  | O => length
  | S fuel' =>
      let n' := Z.shiftr n 7 in
      if n' =? 0 then length else varint_length_loop fuel' n' (length + 1)
  end.

Definition GetVarintLength (n : Z) : Z := varint_length_loop (S (Z.to_nat (Z.log2 n))) n 1.

(** The loop that writes [k] bytes; the last one has no continuation bit. *)
Fixpoint format_varint_loop (k : nat) (n : Z) : list byte :=
  match k with
  | O => []
  | S k' =>
      let byte := if (k' =? 0)%nat then 0 else 0x80 in
      Z.lor byte (Z.land n 0x7f) :: format_varint_loop k' (Z.shiftr n 7)
  end.

(** The returned length and the bytes written to the start of the buffer. *)
Definition FormatVarint (n buffer_size : Z) : res (Z * list byte) :=
  _ ← CHECK (0 <? buffer_size);
  let length := GetVarintLength n in
  _ ← CHECK (length <=? buffer_size);
  Ok (length, format_varint_loop (Z.to_nat length) n).

(** * Bits and arithmetic *)

Lemma land_7f b : Z.land b 0x7f = b mod 128.
Proof. change 0x7f with (Z.ones 7). by rewrite Z.land_ones by lia. Qed.

Lemma land_80 b : (Z.land b 0x80 =? 0) = negb (Z.testbit b 7).
Proof.
  assert (Z.land b 0x80 = if Z.testbit b 7 then 0x80 else 0) as ->.
  { apply Z.bits_inj'. intros i Hi. rewrite Z.land_spec. change 0x80 with (2 ^ 7).
    destruct (Z.eq_dec i 7) as [->|].
    - rewrite Z.pow2_bits_true, andb_true_r by lia. by destruct (Z.testbit b 7).
    - rewrite Z.pow2_bits_false, andb_false_r by lia.
      destruct (Z.testbit b 7); [by rewrite Z.pow2_bits_false by lia|by rewrite Z.bits_0]. }
  by destruct (Z.testbit b 7).
Qed.

Lemma lor_disjoint a b : Z.land a b = 0 → Z.lor a b = a + b.
Proof. intros H. rewrite <- (Z.add_lor_land a b), H. lia. Qed.

(** A multiple of a power of two and a number below it share no bits. *)
Lemma lor_low k a b : 0 ≤ k → 0 ≤ b < 2 ^ k → Z.lor (a * 2 ^ k) b = a * 2 ^ k + b.
Proof.
  intros Hk Hb. apply lor_disjoint, Z.bits_inj'. intros i Hi.
  rewrite Z.land_spec, Z.bits_0, <- (Z.mod_small b (2 ^ k)) by done.
  destruct (Z.lt_ge_cases i k).
  - by rewrite Z.mul_pow2_bits_low.
  - by rewrite Z.mod_pow2_bits_high, andb_false_r by lia.
Qed.

(** One step of the parsing loop, while the [CHECK] holds. *)
Lemma varint_push r b : 0 ≤ r < 2 ^ 57 →
  Z.lor (uint64 (Z.shiftl r 7)) (Z.land b 0x7f) = r * 128 + b mod 128.
Proof.
  intros Hr. rewrite Z.shiftl_mul_pow2, uint64_small, land_7f by (unfold is_uint64; lia).
  apply (lor_low 7 r (b mod 128)); [lia|]. apply Z.mod_pos_bound; lia.
Qed.

(** One byte of the formatting loop. *)
Lemma varint_byte (more : bool) n :
  Z.lor (if more then 0x80 else 0) (Z.land n 0x7f) = (if more then 128 else 0) + n mod 128.
Proof.
  rewrite land_7f. destruct more; [|done].
  apply (lor_low 7 1 (n mod 128)); [lia|]. apply Z.mod_pos_bound; lia.
Qed.

Lemma varint_byte_testbit (more : bool) n :
  Z.testbit ((if more then 128 else 0) + n mod 128) 7 = more.
Proof.
  rewrite <- varint_byte, Z.lor_spec, land_7f. change 128 with (2 ^ 7).
  rewrite (Z.mod_pow2_bits_high n 7 7) by lia. by destruct more.
Qed.

#[local] Arguments Z.testbit : simpl never.
#[local] Arguments Z.modulo : simpl never.
#[local] Arguments Z.pow : simpl never.
#[local] Arguments Z.mul : simpl never.

(** * Reference definitions *)

(** The value of a little-endian sequence of seven-bit groups, of any length. *)
Fixpoint varint_value (l : list byte) : Z :=
  match l with
  | [] => 0
  | b :: l' => b mod 128 + 128 * varint_value l'
  end.

(** The offset of the first byte without continuation bit. *)
Fixpoint varint_end (l : list byte) : option nat :=
  match l with
  | [] => None
  | b :: l' => if Z.testbit b 7 then S <$> varint_end l' else Some O
  end.

Lemma varint_value_nonneg l : 0 ≤ varint_value l.
Proof. induction l as [|b l IH]; simpl; [lia|]. pose proof (Z.mod_pos_bound b 128). lia. Qed.

Lemma varint_value_lt l : varint_value l < 128 ^ Z.of_nat (length l).
Proof.
  induction l as [|b l IH]; [simpl; lia|]. cbn [varint_value length].
  rewrite Nat2Z.inj_succ, Z.pow_succ_r by lia. pose proof (Z.mod_pos_bound b 128). lia.
Qed.

Lemma varint_value_snoc l b :
  varint_value (l ++ [b]) = varint_value l + 128 ^ Z.of_nat (length l) * (b mod 128).
Proof.
  induction l as [|c l IH]; [simpl; lia|]. cbn [varint_value length app].
  rewrite IH, Nat2Z.inj_succ, Z.pow_succ_r by lia. lia.
Qed.

Lemma varint_end_lt l k : varint_end l = Some k → (k < length l)%nat.
Proof.
  revert k. induction l as [|b l IH]; intros k; simpl; [done|].
  destruct (Z.testbit b 7); [|intros [= <-]; lia].
  intros (j & Hj & ->)%fmap_Some. apply IH in Hj. lia.
Qed.

Lemma varint_end_app l l' k : varint_end l = Some k → varint_end (l ++ l') = Some k.
Proof.
  revert k. induction l as [|b l IH]; intros k; simpl; [done|].
  destruct (Z.testbit b 7); [|done]. intros (j & Hj & ->)%fmap_Some. by rewrite (IH j).
Qed.

(** * The functions compute the reference definitions *)

Lemma FindVarintLastChar_spec buffer p n : (p + n ≤ length buffer)%nat →
  FindVarintLastChar buffer p n = Ok (Nat.add p <$> varint_end (take n (drop p buffer))).
Proof.
  revert p. induction n as [|n IH]; intros p Hlen; [done|].
  cbn [FindVarintLastChar]. destruct (lookup_lt_is_Some_2 buffer p) as [b Hb]; [lia|].
  rewrite Hb, (drop_S _ _ _ Hb). cbn [deref mbind res_bind take varint_end]. rewrite land_80.
  destruct (Z.testbit b 7); simpl; [|by rewrite Nat.add_0_r].
  rewrite IH by lia. destruct (varint_end _); simpl; [|done]. do 2 f_equal. lia.
Qed.

Lemma parse_varint_loop_spec buffer n r : (n ≤ length buffer)%nat → 0 ≤ r < 2 ^ 64 →
  parse_varint_loop buffer n r =
    let v := r * 128 ^ Z.of_nat n + varint_value (take n buffer) in
    if v <? 2 ^ 64 then Ok v else Fatal.
Proof.
  revert r. induction n as [|p IH]; intros r Hn Hr.
  { simpl. rewrite Z.mul_1_r, Z.add_0_r. by rewrite (proj2 (Z.ltb_lt r (2 ^ 64))) by lia. }
  cbn [parse_varint_loop]. destruct (lookup_lt_is_Some_2 buffer p) as [b Hb]; [lia|].
  rewrite Hb. cbn [deref mbind res_bind]. rewrite (take_S_r _ _ _ Hb), varint_value_snoc.
  rewrite length_take_le by lia. rewrite Nat2Z.inj_succ, Z.pow_succ_r by lia.
  pose proof (varint_value_nonneg (take p buffer)). pose proof (Z.mod_pos_bound b 128).
  pose proof (Z.pow_pos_nonneg 128 (Z.of_nat p)).
  change (Z.shiftl 1 57) with (2 ^ 57). destruct (Z.ltb_spec r (2 ^ 57)); cbn [CHECK mbind res_bind].
  - rewrite varint_push, IH by lia. cbv zeta.
    replace (r * (128 * 128 ^ Z.of_nat p) + _) with
      ((r * 128 + b mod 128) * 128 ^ Z.of_nat p + varint_value (take p buffer)) by ring.
    done.
  - cbv zeta. rewrite (proj2 (Z.ltb_ge _ _)); [done|].
    transitivity (r * (128 * 128 ^ Z.of_nat p)); [|nia].
    transitivity (r * (128 * 1)); [lia|]. apply Z.mul_le_mono_nonneg_l; lia.
Qed.

Lemma ParseVarint_spec buffer size : 0 ≤ size ≤ Z.of_nat (length buffer) →
  ParseVarint buffer size =
    match varint_end (take (Z.to_nat size) buffer) with
    | None => Ok (-1, 0)
    | Some k =>
        let v := varint_value (take (S k) buffer) in
        if v <? 2 ^ 64 then Ok (Z.of_nat k + 1, v) else Fatal
    end.
Proof.
  intros Hs. unfold ParseVarint. rewrite (proj2 (Z.leb_le 0 size)) by lia.
  cbn [CHECK mbind res_bind]. rewrite FindVarintLastChar_spec by lia. cbn [mbind res_bind drop].
  destruct (varint_end _) as [k|] eqn:E; cbn [fmap option_fmap option_map Nat.add]; [|done].
  pose proof (varint_end_lt _ _ E) as Hk. rewrite length_take in Hk.
  rewrite parse_varint_loop_spec by lia. cbv zeta. rewrite Z.mul_0_l, Z.add_0_l.
  by destruct (_ <? _).
Qed.

(** The [while] loop's own equation: the fuel never runs out. *)
Lemma varint_length_loop_spec fuel n length : 0 ≤ n → (Z.log2 n < Z.of_nat fuel) →
  ∃ k, varint_length_loop fuel n length = length + Z.of_nat k ∧
    n < 128 ^ Z.of_nat (S k) ∧ (k = O ∨ 128 ^ Z.of_nat k ≤ n).
Proof.
  revert n length. induction fuel as [|fuel IH]; intros n length Hn Hf.
  { pose proof (Z.log2_nonneg n). lia. }
  cbn [varint_length_loop]. rewrite Z.shiftr_div_pow2 by lia. change (2 ^ 7) with 128.
  pose proof (Z.div_mod n 128). pose proof (Z.mod_pos_bound n 128).
  destruct (Z.eqb_spec (n / 128) 0) as [Hq|Hq].
  - exists O. rewrite Z.add_0_r. change (128 ^ Z.of_nat 1) with 128. split_and!; [done|lia|by left].
  - pose proof (Z.div_pos n 128). assert (0 < n) by (destruct (Z.eq_dec n 0); [subst n; done|lia]).
    destruct (IH (n / 128) (length + 1)) as (k & -> & Hlt & Hge); [lia| |].
    { assert (7 ≤ Z.log2 n) by (apply (Z.log2_le_mono 128); lia).
      change 128 with (2 ^ 7). rewrite <- Z.shiftr_div_pow2, Z.log2_shiftr by lia. lia. }
    exists (S k). rewrite !Nat2Z.inj_succ, !Z.pow_succ_r in * by lia.
    split_and!; [lia|lia|right]. destruct Hge as [->|Hge]; [change (128 ^ Z.of_nat 0) with 1|]; lia.
Qed.

Lemma GetVarintLength_spec n : 0 ≤ n →
  ∃ k, GetVarintLength n = Z.of_nat (S k) ∧
    n < 128 ^ Z.of_nat (S k) ∧ (k = O ∨ 128 ^ Z.of_nat k ≤ n).
Proof.
  intros Hn. destruct (varint_length_loop_spec (S (Z.to_nat (Z.log2 n))) n 1) as (k & Hk & H);
    [done|pose proof (Z.log2_nonneg n); lia|].
  exists k. split; [unfold GetVarintLength; rewrite Hk; lia|done].
Qed.

Lemma GetVarintLength_max n : is_uint64 n → 1 ≤ GetVarintLength n ≤ kMaxVarintLength.
Proof.
  intros Hn. unfold is_uint64, kMaxVarintLength in *.
  destruct (GetVarintLength_spec n) as (k & -> & _ & [->|Hk]); [lia|lia|].
  split; [lia|]. destruct (decide (k < 10)%nat); [lia|exfalso].
  pose proof (Z.pow_le_mono_r 128 10 (Z.of_nat k)). change (128 ^ 10) with (2 ^ 70) in *. lia.
Qed.

(** The bytes written: as many as asked for, with the value of their groups,
    and only the last without continuation bit. *)
Lemma format_varint_loop_spec k n : 0 ≤ n →
  let bytes := format_varint_loop (S k) n in
  length bytes = S k ∧ Forall is_byte bytes ∧
  varint_value bytes = n mod 128 ^ Z.of_nat (S k) ∧
  varint_end bytes = Some k ∧ ∀ j, (j ≤ k)%nat → varint_end (take j bytes) = None.
Proof.
  revert n. induction k as [|k IH]; intros n Hn bytes.
  - subst bytes. cbn [format_varint_loop Nat.eqb length varint_value varint_end].
    rewrite (varint_byte false). pose proof (Z.mod_pos_bound n 128).
    rewrite (varint_byte_testbit false), Z.add_0_l, Z.mod_mod by lia.
    split_and!; [done| |by change (128 ^ Z.of_nat 1) with 128; lia|done|].
    + repeat constructor; lia.
    + intros j Hj. by destruct j; [|lia].
  - destruct (IH (Z.shiftr n 7)) as (Hlen & Hby & Hv & He & Hp); [by apply Z.shiftr_nonneg|].
    subst bytes. change (format_varint_loop (S (S k)) n) with
      (Z.lor 0x80 (Z.land n 0x7f) :: format_varint_loop (S k) (Z.shiftr n 7)).
    rewrite (varint_byte true). set (r := format_varint_loop (S k) (Z.shiftr n 7)) in *.
    pose proof (Z.mod_pos_bound n 128). cbn [length varint_value varint_end].
    rewrite (varint_byte_testbit true), He, Hv, Hlen.
    split_and!; [done| | |done|].
    + constructor; [unfold is_byte; lia|done].
    + rewrite (Nat2Z.inj_succ (S k)), Z.pow_succ_r by lia.
      rewrite Z.rem_mul_r by lia. rewrite Z.shiftr_div_pow2 by lia. change (2 ^ 7) with 128.
      f_equal. replace (128 + n mod 128) with (n mod 128 + 1 * 128) by lia.
      by rewrite Z.mod_add, Z.mod_mod by lia.
    + intros [|j] Hj; [done|]. cbn [take varint_end]. rewrite (varint_byte_testbit true).
      by rewrite Hp by lia.
Qed.

(** The first occurrence in the range, or the end of the range. *)
Lemma FindCharInRange_spec buffer start end_ c :
  (start ≤ end_ ≤ length buffer)%nat →
  ∃ p, FindCharInRange buffer start end_ c = Ok p ∧ (start ≤ p ≤ end_)%nat ∧
    (∀ i, (start ≤ i < p)%nat → buffer !! i ≠ Some c) ∧ ((p < end_)%nat → buffer !! p = Some c).
Proof.
  intros [Hse Hel]. unfold FindCharInRange. rewrite (proj2 (Nat.leb_le _ _) Hse).
  cbn [CHECK mbind res_bind]. remember (end_ - start)%nat as n eqn:Hn. revert start Hse Hn.
  induction n as [|n IH]; intros start Hse Hn.
  { exists start. split_and!; [done|lia|lia|lia|lia]. }
  cbn [find_char_loop]. destruct (lookup_lt_is_Some_2 buffer start) as [b Hb]; [lia|].
  rewrite Hb. cbn [deref mbind res_bind]. destruct (Z.eqb_spec b c) as [->|Hbc].
  { exists start. split_and!; [done|lia|lia|lia|done]. }
  destruct (IH (S start)) as (p & -> & Hp & Hno & Hyes); [lia|lia|].
  exists p. split_and!; [done|lia|lia| |done]. intros i Hi.
  destruct (decide (i = start)) as [->|]; [congruence|apply Hno; lia].
Qed.

(** * Theorems *)

(** A 64-bit number written by [FormatVarint] takes between one and
    [kMaxVarintLength] bytes, is read back by [ParseVarint] whatever follows it
    in the buffer, and every strictly shorter part of it is reported as
    incomplete. *)
Theorem varint_roundtrip (n : Z) (Hn : is_uint64 n) :
  ∃ bytes, FormatVarint n kMaxVarintLength = Ok (Z.of_nat (length bytes), bytes) ∧
    Forall is_byte bytes ∧ (1 ≤ length bytes)%nat ∧ Z.of_nat (length bytes) ≤ kMaxVarintLength ∧
    (∀ rest size, Z.of_nat (length bytes) ≤ size ≤ Z.of_nat (length (bytes ++ rest)) →
       ParseVarint (bytes ++ rest) size = Ok (Z.of_nat (length bytes), n)) ∧
    (∀ k rest, (k < length bytes)%nat →
       ParseVarint (take k bytes ++ rest) (Z.of_nat k) = Ok (-1, 0)).
Proof.
  destruct (GetVarintLength_max n Hn) as [H1 Hmax]. unfold is_uint64 in Hn.
  destruct (GetVarintLength_spec n) as (k & Hk & Hlt & _); [lia|].
  destruct (format_varint_loop_spec k n) as (Hlen & Hby & Hv & He & Hp); [lia|].
  exists (format_varint_loop (S k) n). unfold FormatVarint.
  rewrite (proj2 (Z.leb_le _ _) Hmax). cbn [CHECK mbind res_bind]. rewrite Hk, Nat2Z.id.
  set (bytes := format_varint_loop (S k) n) in *. rewrite Hlen.
  split_and!; [done|done|lia|lia| |]; [intros rest size Hs|intros j rest Hj].
  - rewrite length_app in Hs. rewrite ParseVarint_spec by (rewrite length_app; lia).
    rewrite take_app, take_ge, (varint_end_app _ _ _ He) by lia.
    rewrite take_app_le, take_ge, Hv, Z.mod_small by lia.
    cbv zeta. rewrite (proj2 (Z.ltb_lt _ _)) by lia. do 2 f_equal. lia.
  - rewrite ParseVarint_spec by (rewrite length_app, length_take; lia).
    rewrite Nat2Z.id, take_app_le, take_take, Nat.min_id by (rewrite length_take; lia).
    by rewrite Hp by lia.
Qed.

(** [FormatVarint] writes the shortest encoding: no buffer from which
    [ParseVarint] reads the same number is shorter, and the length never exceeds
    the size of the code's buffers. *)
Theorem varint_shortest (n : Z) (Hn : is_uint64 n) :
  1 ≤ GetVarintLength n ≤ kMaxVarintLength ∧
  ∀ buffer size len, 0 ≤ size ≤ Z.of_nat (length buffer) → 0 ≤ len →
    ParseVarint buffer size = Ok (len, n) → GetVarintLength n ≤ len.
Proof.
  split; [by apply GetVarintLength_max|]. intros buffer size len Hs Hlen.
  rewrite ParseVarint_spec by done. destruct (varint_end _) as [k|] eqn:E; [|intros [=]; lia].
  cbv zeta. destruct (_ <? _); [|done]. intros [= <- <-].
  pose proof (varint_end_lt _ _ E) as Hk. rewrite length_take in Hk.
  pose proof (varint_value_lt (take (S k) buffer)) as Hlt. rewrite length_take_le in Hlt by lia.
  set (v := varint_value _) in *. unfold is_uint64 in Hn.
  destruct (GetVarintLength_spec v) as (j & -> & _ & [->|Hj]); [lia|lia|].
  destruct (decide (k < j)%nat); [exfalso|lia].
  pose proof (Z.pow_le_mono_r 128 (Z.of_nat (S k)) (Z.of_nat j)). lia.
Qed.

(** What [ParseVarint] does on every buffer: [-1] when no byte ends the
    integer, the value of the groups up to the first such byte when it fits in
    64 bits (leading zero groups are accepted), and an abort when it does not. *)
Theorem parse_varint_exact (buffer : list byte) (size : Z)
    (Hs : 0 ≤ size ≤ Z.of_nat (length buffer)) :
  ParseVarint buffer size =
    match varint_end (take (Z.to_nat size) buffer) with
    | None => Ok (-1, 0)
    | Some k =>
        let v := varint_value (take (S k) buffer) in
        if v <? 2 ^ 64 then Ok (Z.of_nat k + 1, v) else Fatal
    end.
Proof. by apply ParseVarint_spec. Qed.

Example varint_300 : FormatVarint 300 kMaxVarintLength = Ok (2, [0xac; 0x02]).
Proof. reflexivity. Qed.

Example varint_max :
  FormatVarint kUint64Max kMaxVarintLength = Ok (10, replicate 9 0xff ++ [0x01]).
Proof. reflexivity. Qed.

(** Eleven groups are accepted when the high ones are zero, and ten are refused
    when the value exceeds 64 bits. *)
Example varint_overlong : ParseVarint (replicate 10 0x80 ++ [0]) 11 = Ok (11, 0).
Proof. reflexivity. Qed.

Example varint_overflow : ParseVarint (replicate 9 0xff ++ [0x02]) 10 = Fatal.
Proof. reflexivity. Qed.

Lemma varint_shortest_witness :
  1 ≤ GetVarintLength 300 ≤ kMaxVarintLength ∧ GetVarintLength 300 ≤ 3.
Proof.
  destruct (varint_shortest 300) as [H1 H2]; [unfold is_uint64; lia|]. split; [exact H1|].
  apply (H2 [0xac; 0x82; 0x00] 3 3); [simpl; lia|lia|reflexivity].
Defined.

Lemma parse_varint_exact_witness : ParseVarint [0xac; 0x82; 0x00] 3 = Ok (3, 300).
Proof. rewrite (parse_varint_exact [0xac; 0x82; 0x00] 3); [reflexivity|simpl; lia]. Defined.
