(* ===== verification/Protocol.v ===== *)
(** * Messages on a socket

    Framing of protocol messages ([protocol_server/format_protocol_message.h],
    [protocol_server/parse_protocol_message.cc] and [.h]) and a connection
    ([protocol_server/protocol_connection_impl.h]): it cuts the bytes it
    receives into messages for its handler, and turns the handler's messages
    into bytes for the socket.  The protocol buffer library and the system
    calls [recv] and [send] are parameters. *)
From S2P Require Import Prelude Varint.
From stdpp Require Import base tactics list.
From Stdlib Require Import ZArith Lia.
Open Scope Z_scope.

(** * The interface of a protocol buffer message

    The methods of [google::protobuf::Message] the code uses. *)
Class ProtoMessage (Msg : Type) := {
  ByteSize : Msg → Z;
  AppendToString : Msg → option (list byte);
  ParseFromString : list byte → option Msg;
  IsInitialized : Msg → bool;
}.

(** Their documented behaviour: a message whose required fields are set can be
    serialized, its size is the number of bytes, and parsing restores it. *)
Class ProtoMessageLaws (Msg : Type) `{ProtoMessage Msg} : Prop := {
  proto_append m : IsInitialized m = true → is_Some (AppendToString m);
  proto_size m bytes : AppendToString m = Some bytes →
    Z.of_nat (length bytes) < 2 ^ 31 → ByteSize m = Z.of_nat (length bytes);
  proto_parse m bytes : AppendToString m = Some bytes → ParseFromString bytes = Some m;
  proto_init m bytes : ParseFromString bytes = Some m → IsInitialized m = true;
}.

(** * [ProtocolConnectionHandler]

    A handler may close its connection in either call ([ProtocolConnection::Close]);
    the boolean says whether it did. *)
Class ConnectionHandler (H Msg : Type) := {
  GetNextOutputMessage : H → res (option Msg * H * bool);
  NotifyMessageReceived : Msg → H → res (H * bool);
}.

(** * Framing *)

Definition ParseMessageLength (input_buffer : list byte) (buffer_size : Z) : res (Z * Z) :=
  '(varint_length, varint) ← ParseVarint input_buffer buffer_size;
  if varint_length <? 0 then Ok (-1, 0)
  else
    let message_length_temp := int32_of varint in
    _ ← CHECK (0 <=? message_length_temp);
    Ok (varint_length, message_length_temp).

Section framing.
Context {Msg : Type} `{ProtoMessage Msg}.

(** The number of characters read and the message; [None] is the result [-1]. *)
Definition ParseProtocolMessage (input_buffer : list byte) (buffer_size : Z) :
    res (option (Z * Msg)) :=
  '(varint_length, message_length) ← ParseMessageLength input_buffer buffer_size;
  _ ← CHECK (0 <=? message_length);
  if varint_length <? 0 then Ok None
  else
    total ← add32 varint_length message_length;
    if buffer_size <? total then Ok None
    else
      let encoded_message :=
        take (Z.to_nat message_length) (drop (Z.to_nat varint_length) input_buffer) in
      message ← check_some (ParseFromString encoded_message);
      Ok (Some (total, message)).

Definition FormatProtocolMessage (message : Msg) : res (list byte) :=
  let message_length := ByteSize message in
  _ ← CHECK (0 <=? message_length);
  '(varint_length, buffer) ← FormatVarint (uint64 message_length) kMaxVarintLength;
  _ ← CHECK (varint_length <=? kMaxVarintLength);
  bytes ← check_some (AppendToString message);
  Ok (take (Z.to_nat varint_length) buffer ++ bytes).

End framing.

(** * [ProtocolConnectionImpl] *)

Inductive errno := EAGAIN | EWOULDBLOCK | ECONNRESET | EPIPE | OTHER_ERRNO.

(** What [recv] returns: bytes (none at the end of the stream) or an error. *)
Inductive recv_result :=
| RecvData (bytes : list byte)
| RecvError (e : errno).

(** What [send] returns: how many bytes it took, or an error. *)
Inductive send_result :=
| SendCount (n : nat)
| SendError (e : errno).

(** [sizeof input_buffer]. *)
Definition kInputBufferSize : nat := 1000.

Module ProtocolConnectionImpl.
Section connection.
Context {H Msg : Type} `{ProtoMessage Msg} `{ConnectionHandler H Msg}.

Record t := mk {
  protocol_connection_handler_ : option H;
  receive_blocked_ : bool;
  send_blocked_ : bool;
  close_requested_ : bool;
  input_data_ : list byte;
  output_data_ : list byte;
}.

Definition New (socket_fd : Z) : res t :=
  _ ← CHECK (negb (socket_fd =? -1));
  Ok (mk None false false false [] []).

Definition Init (handler : H) (c : t) : res t :=
  _ ← CHECK (match protocol_connection_handler_ c with None => true | Some _ => false end);
  Ok (mk (Some handler) (receive_blocked_ c) (send_blocked_ c) (close_requested_ c)
        (input_data_ c) (output_data_ c)).

Definition Close (c : t) : t :=
  mk (protocol_connection_handler_ c) (receive_blocked_ c) (send_blocked_ c) true
    (input_data_ c) (output_data_ c).

Definition set_receive_blocked (b : bool) (c : t) : t :=
  mk (protocol_connection_handler_ c) b (send_blocked_ c) (close_requested_ c)
    (input_data_ c) (output_data_ c).
Definition set_send_blocked (b : bool) (c : t) : t :=
  mk (protocol_connection_handler_ c) (receive_blocked_ c) b (close_requested_ c)
    (input_data_ c) (output_data_ c).
Definition set_input_data (data : list byte) (c : t) : t :=
  mk (protocol_connection_handler_ c) (receive_blocked_ c) (send_blocked_ c)
    (close_requested_ c) data (output_data_ c).
Definition set_output_data (data : list byte) (c : t) : t :=
  mk (protocol_connection_handler_ c) (receive_blocked_ c) (send_blocked_ c)
    (close_requested_ c) (input_data_ c) data.

(** The handler after a call, which may have called [Close]. *)
Definition called (h : H) (closed : bool) (c : t) : t :=
  mk (Some h) (receive_blocked_ c) (send_blocked_ c) (close_requested_ c || closed)
    (input_data_ c) (output_data_ c).

(** The loop of [ParseMessages] on [input_data_]. *)
Fixpoint parse_messages_loop (fuel : nat) (c : t) : res t :=
  match fuel with
  | O => Ok c
  | S fuel' =>
      parsed ← ParseProtocolMessage (input_data_ c)
                 (int32_of (Z.of_nat (length (input_data_ c))));
      match parsed with
      | None => Ok c
      | Some (char_count, message) =>
          _ ← CHECK (IsInitialized message);
          h ← check_some (protocol_connection_handler_ c);
          '(h', closed) ← NotifyMessageReceived message h;
          parse_messages_loop fuel'
            (set_input_data (drop (Z.to_nat char_count) (input_data_ c)) (called h' closed c))
      end
  end.

Definition ParseMessages (c : t) : res t :=
  _ ← check_some (protocol_connection_handler_ c);
  parse_messages_loop (S (length (input_data_ c))) c.

Definition PrivateHasOutputData (c : t) : res (bool * t) :=
  h ← check_some (protocol_connection_handler_ c);
  c' ← match output_data_ c with
       | [] =>
           '(next, h', closed) ← GetNextOutputMessage h;
           match next with
           | Some message =>
               output ← FormatProtocolMessage message;
               Ok (set_output_data output (called h' closed c))
           | None => Ok (called h' closed c)
           end
       | _ => Ok c
       end;
  Ok (match output_data_ c' with [] => false | _ => true end, c').

Definition IsBlocked (c : t) : res (bool * t) :=
  if receive_blocked_ c then
    '(has_output, c') ← PrivateHasOutputData c;
    Ok (negb has_output || send_blocked_ c', c')
  else Ok (false, c).

(** The first half of [SendAndReceive]. *)
Definition receive_data (r : recv_result) (c : t) : res t :=
  match r with
  | RecvData [] => Ok (set_receive_blocked true (Close c))
  | RecvData bytes =>
      c' ← ParseMessages (set_input_data (input_data_ c ++ bytes) c);
      Ok (set_receive_blocked false c')
  | RecvError (EAGAIN | EWOULDBLOCK) => Ok (set_receive_blocked true c)
  | RecvError ECONNRESET => Ok (set_receive_blocked true (Close c))
  | RecvError _ => Fatal
  end.

(** The second half, with the bytes that [send] took. *)
Definition send_data (s : send_result) (c : t) : res (t * list byte) :=
  '(has_output, c') ← PrivateHasOutputData c;
  if (has_output : bool) then
    match s with
    | SendCount n =>
        Ok (set_send_blocked false (set_output_data (drop n (output_data_ c')) c'),
            take n (output_data_ c'))
    | SendError (EAGAIN | EWOULDBLOCK) => Ok (set_send_blocked true c', [])
    | SendError (ECONNRESET | EPIPE) => Ok (set_send_blocked true (Close c'), [])
    | SendError OTHER_ERRNO => Fatal
    end
  else Ok (c', []).

Definition SendAndReceive (r : recv_result) (s : send_result) (c : t) :
    res (t * list byte) :=
  c ← receive_data r c;
  send_data s c.

End connection.
Arguments t : clear implicits.
End ProtocolConnectionImpl.

(** * Frames

    [is_frame m f]: [f] is what the code sends for [m], short enough for the
    [int] arithmetic of the receiver even when a full input buffer follows. *)
Section frames.
Context {Msg : Type} `{ProtoMessageLaws Msg}.

Definition is_frame (m : Msg) (f : list byte) : Prop :=
  FormatProtocolMessage m = Ok f ∧ Z.of_nat (length f) + Z.of_nat kInputBufferSize < 2 ^ 31.

Lemma frame_shape m f : is_frame m f →
  ∃ prefix bytes, f = prefix ++ bytes ∧ AppendToString m = Some bytes ∧
    FormatVarint (Z.of_nat (length bytes)) kMaxVarintLength =
      Ok (Z.of_nat (length prefix), prefix).
Proof.
  intros [Hf Hlen]. unfold FormatProtocolMessage in Hf.
  apply bind_Ok in Hf as (? & Hsize & Hf). rewrite CHECK_Ok in Hsize.
  apply bind_Ok in Hf as ([vlen buffer] & Hvar & Hf).
  apply bind_Ok in Hf as (? & _ & Hf). apply bind_Ok in Hf as (bytes & Happ & Hf).
  apply check_some_Ok in Happ. injection Hf as Hf. subst f.
  rewrite length_app in Hlen. rewrite (proto_size m bytes Happ) in Hvar by lia.
  rewrite uint64_small in Hvar by (unfold is_uint64; lia).
  destruct (varint_roundtrip (Z.of_nat (length bytes))) as (p & Hp & _);
    [unfold is_uint64; lia|].
  rewrite Hp in Hvar. injection Hvar as <- <-. exists p, bytes.
  rewrite Nat2Z.id, take_ge by lia. done.
Qed.

Lemma ParseMessageLength_frame (prefix bytes rest : list byte) size :
  Z.of_nat (length bytes) < 2 ^ 31 →
  FormatVarint (Z.of_nat (length bytes)) kMaxVarintLength = Ok (Z.of_nat (length prefix), prefix) →
  Z.of_nat (length prefix) ≤ size ≤ Z.of_nat (length (prefix ++ rest)) →
  ParseMessageLength (prefix ++ rest) size =
    Ok (Z.of_nat (length prefix), Z.of_nat (length bytes)).
Proof.
  intros Hlen Hp Hs.
  destruct (varint_roundtrip (Z.of_nat (length bytes)))
    as (p & Hp' & _ & H1 & _ & Hfull & _); [unfold is_uint64; lia|].
  rewrite Hp' in Hp. injection Hp as _ <-. unfold ParseMessageLength.
  rewrite Hfull by lia. cbn [mbind res_bind].
  rewrite (proj2 (Z.ltb_ge (Z.of_nat (length p)) 0)) by lia.
  rewrite int32_of_id by (unfold is_int32; lia).
  by rewrite (proj2 (Z.leb_le 0 (Z.of_nat (length bytes)))) by lia.
Qed.

Lemma frame_nonempty m f : is_frame m f → (0 < length f)%nat.
Proof.
  intros Hf. pose proof (frame_shape _ _ Hf) as (p & bytes & -> & _ & Hp).
  destruct Hf as [_ Hlen]. rewrite length_app in *.
  destruct (varint_roundtrip (Z.of_nat (length bytes))) as (p' & Hp' & _ & H1 & _);
    [unfold is_uint64; lia|]. rewrite Hp' in Hp. injection Hp as _ <-. lia.
Qed.

(** A frame followed by anything is read as its message; an incomplete frame is
    left for later. *)
Lemma ParseProtocolMessage_frame m f rest : is_frame m f →
  Z.of_nat (length (f ++ rest)) < 2 ^ 31 →
  ParseProtocolMessage (f ++ rest) (Z.of_nat (length (f ++ rest))) =
    Ok (Some (Z.of_nat (length f), m)).
Proof.
  intros Hf Htot. pose proof (frame_shape _ _ Hf) as (p & bytes & -> & Happ & Hp).
  destruct Hf as [_ Hlen]. rewrite !length_app in *. rewrite <- !app_assoc.
  unfold ParseProtocolMessage. rewrite (ParseMessageLength_frame p bytes)
    by (done || rewrite ?length_app; lia).
  cbn [mbind res_bind].
  rewrite (proj2 (Z.leb_le 0 (Z.of_nat (length bytes)))) by lia. cbn [CHECK mbind res_bind].
  rewrite (proj2 (Z.ltb_ge (Z.of_nat (length p)) 0)) by lia. unfold add32.
  rewrite (proj2 (Z.leb_le (- 2 ^ 31) _)), (proj2 (Z.ltb_lt _ (2 ^ 31))) by lia.
  cbn [andb mbind res_bind]. rewrite (proj2 (Z.ltb_ge _ _)) by lia.
  rewrite !Nat2Z.id, drop_app_length, take_app_length, (proto_parse m bytes Happ).
  cbn [check_some mbind res_bind]. do 4 f_equal. lia.
Qed.

Lemma ParseProtocolMessage_partial m f k : is_frame m f → (k < length f)%nat →
  ParseProtocolMessage (Msg := Msg) (take k f) (Z.of_nat k) = Ok None.
Proof.
  intros Hf Hk. pose proof (frame_shape _ _ Hf) as (p & bytes & -> & Happ & Hp).
  destruct Hf as [_ Hlen]. rewrite !length_app in *. unfold ParseProtocolMessage.
  destruct (decide (k < length p)%nat) as [Hkp|Hkp].
  - rewrite take_app_le by lia.
    destruct (varint_roundtrip (Z.of_nat (length bytes)))
      as (p' & Hp' & _ & _ & _ & _ & Hpart); [unfold is_uint64; lia|].
    rewrite Hp' in Hp. injection Hp as _ <-. unfold ParseMessageLength.
    specialize (Hpart k [] Hkp). rewrite app_nil_r in Hpart. by rewrite Hpart.
  - rewrite take_app_ge by lia. rewrite (ParseMessageLength_frame p bytes)
      by (done || rewrite ?length_app, ?length_take; lia).
    cbn [mbind res_bind].
    rewrite (proj2 (Z.leb_le 0 (Z.of_nat (length bytes)))) by lia. cbn [CHECK mbind res_bind].
    rewrite (proj2 (Z.ltb_ge (Z.of_nat (length p)) 0)) by lia. unfold add32.
    rewrite (proj2 (Z.leb_le (- 2 ^ 31) _)), (proj2 (Z.ltb_lt _ (2 ^ 31))) by lia.
    cbn [andb mbind res_bind]. by rewrite (proj2 (Z.ltb_lt _ _)) by lia.
Qed.

End frames.

(** * What a connection receives *)

Import ProtocolConnectionImpl.

Section receive.
Context {H Msg : Type} `{ProtoMessageLaws Msg} `{ConnectionHandler H Msg}.

(** The handler's calls for a list of messages. *)
Definition notify_all (ms : list Msg) (h : H) (closed : bool) : res (H * bool) :=
  foldM (fun '(h, closed) m => '(h', c) ← NotifyMessageReceived m h; Ok (h', closed || c))
    (h, closed) ms.

(** Bytes that do not yet make a frame. *)
Definition incomplete (p : list byte) : Prop :=
  p = [] ∨ ∃ (m : Msg) f k, is_frame m f ∧ (k < length f)%nat ∧ p = take k f.

Lemma incomplete_parse p : incomplete p →
  ParseProtocolMessage (Msg := Msg) p (Z.of_nat (length p)) = Ok None.
Proof.
  intros [->|(m & f & k & Hf & Hk & ->)]; [done|].
  rewrite length_take_le by lia. by apply (ParseProtocolMessage_partial m).
Qed.

Lemma called_false (c : t H) h : protocol_connection_handler_ c = Some h → called h false c = c.
Proof. destruct c; simpl. intros ->. unfold called; simpl. by rewrite orb_false_r. Qed.

(** The loop hands over exactly the complete frames, in order, and keeps the
    rest; with enough fuel it always ends that way. *)
Lemma parse_messages_loop_stream fuel ms fs p (c : t H) h :
  Forall2 is_frame ms fs → incomplete p →
  Z.of_nat (length (concat fs ++ p)) < 2 ^ 31 →
  protocol_connection_handler_ c = Some h → input_data_ c = concat fs ++ p →
  (length fs < fuel)%nat →
  parse_messages_loop fuel c =
    '(h', closed) ← notify_all ms h (close_requested_ c);
    Ok (mk (Some h') (receive_blocked_ c) (send_blocked_ c) closed p (output_data_ c)).
Proof.
  intros Hfs Hp. revert fuel c h. induction Hfs as [|m f ms fs Hf Hfs IH];
    intros fuel c h Hlen Hh Hin Hfuel; (destruct fuel as [|fuel]; [lia|]).
  - simpl in Hlen, Hin. cbn [parse_messages_loop]. rewrite Hin, int32_of_id by (unfold is_int32; lia).
    rewrite incomplete_parse by done. cbn [mbind res_bind notify_all foldM].
    destruct c; simpl in *; by subst.
  - cbn [concat] in Hlen, Hin. rewrite <- app_assoc in Hlen, Hin. cbn [parse_messages_loop].
    rewrite Hin, int32_of_id by (unfold is_int32; lia).
    rewrite (ParseProtocolMessage_frame m f) by done. cbn [mbind res_bind].
    destruct (frame_shape m f Hf) as (pre & bytes & _ & Happ & _).
    rewrite (proto_init m bytes) by (by apply proto_parse). rewrite Hh.
    cbn [CHECK check_some mbind res_bind notify_all foldM].
    destruct (NotifyMessageReceived m h) as [[h1 cl]| |]; cbn [mbind res_bind]; [|done|done].
    rewrite (IH _ _ h1); [|rewrite length_app in Hlen; lia|done|
      simpl; by rewrite Nat2Z.id, drop_app_length|simpl in Hfuel; lia]. done.
Qed.

Lemma frames_count ms fs : Forall2 is_frame ms fs → (length fs ≤ length (concat fs))%nat.
Proof.
  induction 1 as [|m f ms fs Hf Hfs IH]; simpl; [lia|].
  pose proof (frame_nonempty m f Hf). rewrite length_app. lia.
Qed.

Lemma ParseMessages_stream ms fs p (c : t H) h :
  Forall2 is_frame ms fs → incomplete p →
  Z.of_nat (length (concat fs ++ p)) < 2 ^ 31 →
  protocol_connection_handler_ c = Some h → input_data_ c = concat fs ++ p →
  ParseMessages c =
    '(h', closed) ← notify_all ms h (close_requested_ c);
    Ok (mk (Some h') (receive_blocked_ c) (send_blocked_ c) closed p (output_data_ c)).
Proof.
  intros Hfs Hp Hlen Hh Hin. unfold ParseMessages. rewrite Hh. cbn [check_some mbind res_bind].
  apply (parse_messages_loop_stream _ _ fs); [done..|].
  pose proof (frames_count _ _ Hfs). rewrite Hin, length_app. lia.
Qed.

(** A prefix of a stream of frames is some whole frames and an incomplete one. *)
Lemma cut_stream ms fs s : Forall2 is_frame ms fs → s `prefix_of` concat fs →
  ∃ n p, (n ≤ length ms)%nat ∧ s = concat (take n fs) ++ p ∧ incomplete p ∧
    (p = [] ∨ ∃ f, fs !! n = Some f ∧ (length p < length f)%nat) ∧ (s = concat fs → n = length ms ∧ p = []).
Proof.
  intros Hfs. revert s. induction Hfs as [|m f ms fs Hf Hfs IH]; intros s Hs.
  { exists O, []. apply prefix_nil_inv in Hs. subst s. split_and!; [done|done|by left|by left|done]. }
  cbn [concat] in Hs. destruct (decide (length f ≤ length s)%nat) as [Hle|Hlt].
  - assert (∃ s', s = f ++ s' ∧ s' `prefix_of` concat fs) as (s' & -> & Hs').
    { destruct Hs as [k Hk]. assert (f = take (length f) s) as Ef.
      { transitivity (take (length f) (f ++ concat fs)); [by rewrite take_app_length|].
        by rewrite Hk, take_app_le by lia. }
      exists (drop (length f) s). split; [by rewrite Ef at 1; rewrite take_drop|].
      exists k. transitivity (drop (length f) (f ++ concat fs)); [by rewrite drop_app_length|].
      by rewrite Hk, drop_app_le by lia. }
    destruct (IH s' Hs') as (n & p & Hn & -> & Hp & Hlen & Hall).
    exists (S n), p. cbn [take concat length]. rewrite app_assoc.
    split_and!; [lia|done|done|done|]. intros Heq. rewrite <- app_assoc in Heq.
    apply app_inv_head in Heq. destruct (Hall Heq) as [-> ->]. done.
  - assert (s = take (length s) f) as Es.
    { destruct Hs as [k Hk]. transitivity (take (length s) (s ++ k)); [by rewrite take_app_length|].
      by rewrite <- Hk, take_app_le by lia. }
    exists O, s. split_and!; [lia|done| | |].
    + right. exists m, f, (length s). split_and!; [done|lia|done].
    + right. exists f. split; [done|lia].
    + intros ->. exfalso. cbn [concat] in Hlt. rewrite length_app in Hlt. lia.
Qed.

(** The bytes a chunk adds to an incomplete frame: whole messages for the
    handler and again an incomplete frame. *)
Lemma receive_data_stream ms fs p bytes (c : t H) h :
  Forall2 is_frame ms fs → incomplete p → input_data_ c ++ bytes = concat fs ++ p →
  Z.of_nat (length (input_data_ c ++ bytes)) < 2 ^ 31 →
  protocol_connection_handler_ c = Some h → bytes ≠ [] →
  receive_data (RecvData bytes) c =
    '(h', closed) ← notify_all ms h (close_requested_ c);
    Ok (mk (Some h') false (send_blocked_ c) closed p (output_data_ c)).
Proof.
  intros Hfs Hp Hin Hlen Hh Hne. destruct bytes as [|b bytes]; [done|].
  cbn [receive_data]. rewrite (ParseMessages_stream ms fs p _ h); [|done|done|by rewrite <- Hin|done|done].
  cbn [set_input_data close_requested_ receive_blocked_ send_blocked_ output_data_].
  by destruct (notify_all _ _ _) as [[h' cl]| |].
Qed.

Lemma notify_all_app ms1 ms2 (h : H) cl :
  notify_all (ms1 ++ ms2) h cl =
    '(h', cl') ← notify_all ms1 h cl; notify_all ms2 h' cl'.
Proof. unfold notify_all. rewrite foldM_app. by destruct (foldM _ _ _) as [[h' cl']| |]. Qed.

(** Receiving one chunk after the other. *)
Definition receive_all (chunks : list (list byte)) (c : t H) : res (t H) :=
  foldM (fun c bytes => receive_data (RecvData bytes) c) c chunks.

(** The bytes of a stream of frames may arrive in any non-empty pieces that fit
    the input buffer: after each of them the handler has been given exactly the
    messages whose frames are complete, the rest of the bytes is kept, and
    nothing but the handler can have aborted. *)
Theorem receiving_is_exact ms fs chunks (h : H) sb cl out
    (Hfs : Forall2 is_frame ms fs) (Hpre : concat chunks `prefix_of` concat fs)
    (Hchunks : Forall (fun x => x ≠ [] ∧ (length x ≤ kInputBufferSize)%nat) chunks) :
  ∃ n p, (n ≤ length ms)%nat ∧ concat chunks = concat (take n fs) ++ p ∧
    (p = [] ∨ ∃ f, fs !! n = Some f ∧ (length p < length f)%nat) ∧
    receive_all chunks (mk (Some h) false sb cl [] out) =
      '(h', cl') ← notify_all (take n ms) h cl; Ok (mk (Some h') false sb cl' p out).
Proof.
  induction chunks as [|bytes chunks IH] using rev_ind.
  { exists O, []. split_and!; [lia|done|by left|done]. }
  apply Forall_app in Hchunks as [Hchunks Hb]. rewrite Forall_singleton in Hb.
  destruct Hb as [Hne Hlen]. rewrite concat_app in Hpre |- *. cbn [concat] in *.
  rewrite app_nil_r in *. destruct IH as (n & p & Hn & Hs & Hp & Hrun); [|done|].
  { etransitivity; [|exact Hpre]. by apply prefix_app_r. }
  destruct (cut_stream (drop n ms) (drop n fs) (p ++ bytes)) as (n' & p' & Hn' & Hcut & Hinc & Hp' & _).
  { by apply Forall2_drop. }
  { apply (prefix_app_inv (concat (take n fs))). rewrite <- concat_app, take_drop, app_assoc.
    by rewrite <- Hs. }
  rewrite length_drop in Hn'. exists (n + n')%nat, p'.
  pose proof (Forall2_length _ _ _ Hfs).
  assert (∀ X (l : list X), (n ≤ length l)%nat → take (n + n') l = take n l ++ take n' (drop n l)) as Htake.
  { intros X l Hl. rewrite <- (take_drop n l) at 1.
    rewrite take_app_ge by (rewrite length_take; lia). f_equal. f_equal. rewrite length_take. lia. }
  split_and!; [lia| | |].
  - rewrite Hs, <- app_assoc, Hcut, app_assoc, <- concat_app. by rewrite Htake by lia.
  - destruct Hp' as [?|(f & Hf & Hpf)]; [by left|right]. exists f. by rewrite lookup_drop in Hf.
  - unfold receive_all in *. rewrite foldM_app, Hrun, (Htake _ ms), notify_all_app by lia.
    destruct (notify_all (take n ms) h cl) as [[h1 cl1]| |]; [|done|done].
    cbn [mbind res_bind foldM].
    rewrite (receive_data_stream (take n' (drop n ms)) (take n' (drop n fs)) p' bytes _ h1);
      [|by apply Forall2_take, Forall2_drop|done|done| |done|done].
    2:{ cbn [input_data_]. rewrite length_app. unfold kInputBufferSize in *.
        destruct Hp as [->|(f & Hf & Hpf)]; [simpl; lia|].
        destruct (Forall2_lookup_r _ _ _ _ _ Hfs Hf) as (m & _ & _ & Hsz).
        unfold kInputBufferSize in Hsz. lia. }
    by destruct (notify_all _ _ _) as [[h2 cl2]| |].
Qed.

End receive.

(** * Length prefixes that are too large

    The receiver means to refuse a length that does not fit in an [int].  It
    converts the 64-bit number to [int] first, which keeps the low 32 bits: a
    length of 2^32 or more is refused only when bit 31 of it is set; otherwise
    its low bits are taken for the length of the message. *)
Theorem message_length_truncated (v : Z) (Hv : is_uint64 v) :
  ∃ prefix, FormatVarint v kMaxVarintLength = Ok (Z.of_nat (length prefix), prefix) ∧
    ParseMessageLength prefix (Z.of_nat (length prefix)) =
      if v mod 2 ^ 32 <? 2 ^ 31 then Ok (Z.of_nat (length prefix), v mod 2 ^ 32) else Fatal.
Proof.
  destruct (varint_roundtrip v Hv) as (p & Hp & _ & Hlen & _ & Hfull & _).
  exists p. split; [done|]. specialize (Hfull [] (Z.of_nat (length p))). rewrite app_nil_r in Hfull.
  unfold ParseMessageLength. rewrite Hfull by lia. cbn [mbind res_bind].
  rewrite (proj2 (Z.ltb_ge (Z.of_nat (length p)) 0)) by lia. unfold int32_of.
  pose proof (Z.mod_pos_bound v (2 ^ 32)). destruct (Z.ltb_spec (v mod 2 ^ 32) (2 ^ 31)).
  - by rewrite (proj2 (Z.leb_le 0 (v mod 2 ^ 32))) by lia.
  - by rewrite (proj2 (Z.leb_gt 0 (v mod 2 ^ 32 - 2 ^ 32))) by lia.
Qed.

(** * Runs of a connection

    The calls the protocol server makes, in any order; [Close] may also come
    from the owner of the connection. *)
Inductive conn_event :=
| EvSendAndReceive (r : recv_result) (s : send_result)
| EvIsBlocked
| EvHasOutputData
| EvClose.

(** The bytes a call took from the socket. *)
Definition event_bytes (e : conn_event) : list byte :=
  match e with EvSendAndReceive (RecvData bytes) _ => bytes | _ => [] end.

(** [recv] fills at most the buffer it is given, [send] takes at most what it
    is given (it returns a count of bytes from the front). *)
Definition event_ok (e : conn_event) : Prop := (length (event_bytes e) ≤ kInputBufferSize)%nat.

(** A handler that also keeps the messages that went through it. *)
Record logged (H Msg : Type) := Logged {
  inner : H;
  sent : list Msg;
  received : list Msg;
}.
Arguments Logged {H Msg}.
Arguments inner {H Msg}.
Arguments sent {H Msg}.
Arguments received {H Msg}.

#[export] Instance logged_handler {H Msg} `{ConnectionHandler H Msg} :
    ConnectionHandler (logged H Msg) Msg := {|
  GetNextOutputMessage l :=
    '(next, h, closed) ← GetNextOutputMessage (inner l);
    Ok (next, Logged h (sent l ++ option_list next) (received l), closed);
  NotifyMessageReceived m l :=
    '(h, closed) ← NotifyMessageReceived m (inner l);
    Ok (Logged h (sent l) (received l ++ [m]), closed);
|}.

Section runs.
Context {H Msg : Type} `{ProtoMessageLaws Msg} `{ConnectionHandler H Msg}.
Abbreviation conn := (t (logged H Msg)).

Definition conn_step (e : conn_event) (c : conn) : res (conn * list byte) :=
  match e with
  | EvSendAndReceive r s => SendAndReceive (Msg := Msg) r s c
  | EvIsBlocked => '(_, c') ← IsBlocked (Msg := Msg) c; Ok (c', [])
  | EvHasOutputData => '(_, c') ← PrivateHasOutputData (Msg := Msg) c; Ok (c', [])
  | EvClose => Ok (Close c, [])
  end.

(** A run: the connection at the end and the bytes it wrote to the socket. *)
Fixpoint conn_run (es : list conn_event) (c : conn) : res (conn * list byte) :=
  match es with
  | [] => Ok (c, [])
  | e :: es' =>
      '(c', out) ← conn_step e c;
      '(c'', out') ← conn_run es' c';
      Ok (c'', out ++ out')
  end.

(** A connection just initialised. *)
Definition fresh (h : H) : conn := mk (Some (Logged h [] [])) false false false [] [].

Lemma conn_run_cons e es (c c'' : conn) o :
  conn_run (e :: es) c = Ok (c'', o) →
  ∃ c' o1 o2, conn_step e c = Ok (c', o1) ∧ conn_run es c' = Ok (c'', o2) ∧ o = o1 ++ o2.
Proof.
  cbn [conn_run]. intros Hr. apply bind_Ok in Hr as ([c1 o1] & E1 & Hr).
  apply bind_Ok in Hr as ([c2 o2] & E2 & Hr). injection Hr as <- <-. by exists c1, o1, o2.
Qed.

(** ** What the calls leave unchanged *)

Lemma parse_messages_loop_sent fuel (c c' : conn) l :
  parse_messages_loop (Msg := Msg) fuel c = Ok c' → protocol_connection_handler_ c = Some l →
  ∃ l', protocol_connection_handler_ c' = Some l' ∧ sent l' = sent l ∧
    output_data_ c' = output_data_ c.
Proof.
  revert c l. induction fuel as [|fuel IH]; intros c l Hp Hl; cbn [parse_messages_loop] in Hp.
  { injection Hp as <-. eauto. }
  apply bind_Ok in Hp as ([[n m]|] & _ & Hp); [|injection Hp as <-; eauto].
  apply bind_Ok in Hp as (? & _ & Hp). rewrite Hl in Hp. cbn [check_some mbind res_bind] in Hp.
  apply bind_Ok in Hp as ([l1 cl] & Hn & Hp). cbn [NotifyMessageReceived logged_handler] in Hn.
  apply bind_Ok in Hn as ([h cl'] & _ & Hn). injection Hn as <- <-.
  destruct (IH _ _ Hp eq_refl) as (l' & ? & ? & ?). by exists l'.
Qed.

Lemma receive_data_sent r (c c' : conn) l :
  receive_data (Msg := Msg) r c = Ok c' → protocol_connection_handler_ c = Some l →
  ∃ l', protocol_connection_handler_ c' = Some l' ∧ sent l' = sent l ∧
    output_data_ c' = output_data_ c.
Proof.
  intros Hr Hl. destruct r as [[|b bytes]|[]]; cbn [receive_data] in Hr;
    try (injection Hr as <-; by exists l); try done.
  apply bind_Ok in Hr as (c1 & Hp & Hr). injection Hr as <-. unfold ParseMessages in Hp.
  apply bind_Ok in Hp as (? & _ & Hp). by apply (parse_messages_loop_sent _ _ _ l) in Hp.
Qed.

Lemma PrivateHasOutputData_spec (c c' : conn) l b :
  PrivateHasOutputData (Msg := Msg) c = Ok (b, c') → protocol_connection_handler_ c = Some l →
  ∃ l', protocol_connection_handler_ c' = Some l' ∧ received l' = received l ∧
    input_data_ c' = input_data_ c ∧
    ((sent l' = sent l ∧ output_data_ c' = output_data_ c) ∨
     ∃ m f, sent l' = sent l ++ [m] ∧ FormatProtocolMessage m = Ok f ∧
       output_data_ c = [] ∧ output_data_ c' = f).
Proof.
  intros Hp Hl. unfold PrivateHasOutputData in Hp. rewrite Hl in Hp.
  cbn [check_some mbind res_bind] in Hp. apply bind_Ok in Hp as (c1 & Hc & Hp).
  injection Hp as _ <-. destruct (output_data_ c) as [|x o] eqn:Eo.
  2:{ injection Hc as <-. exists l. rewrite Eo. by split_and!; [done..|left]. }
  cbn [GetNextOutputMessage logged_handler] in Hc.
  apply bind_Ok in Hc as ([[next l1] cl] & Hn & Hc).
  apply bind_Ok in Hn as ([[next' h] cl'] & _ & Hn). injection Hn as <- <- <-.
  destruct next' as [m|].
  - apply bind_Ok in Hc as (f & Hf & Hc). injection Hc as <-. eexists.
    split_and!; [done|done|done|right]. by exists m, f.
  - injection Hc as <-. eexists. split_and!; [done|done|done|left].
    split; [by simpl; rewrite app_nil_r|done].
Qed.

(** ** The bytes sent are the frames of the messages the handler gave *)

Definition sent_frames (c : conn) (out : list byte) : Prop :=
  ∃ l fs, protocol_connection_handler_ c = Some l ∧
    Forall2 (fun m f => FormatProtocolMessage m = Ok f) (sent l) fs ∧
    concat fs = out ++ output_data_ c.

Lemma sent_frames_output b (c c' : conn) out :
  sent_frames c out → PrivateHasOutputData (Msg := Msg) c = Ok (b, c') → sent_frames c' out.
Proof.
  intros (l & fs & Hl & Hfs & Hout) Hp.
  destruct (PrivateHasOutputData_spec _ _ _ _ Hp Hl)
    as (l' & Hl' & _ & _ & [[Hs Ho]|(m & f & Hs & Hf & Ho & Ho')]).
  - exists l', fs. by rewrite Hs, Ho.
  - exists l', (fs ++ [f]). rewrite Hs, Ho', concat_app, Hout, Ho. simpl.
    rewrite !app_nil_r. split_and!; [done|by apply Forall2_app; [|repeat constructor]|done].
Qed.

Lemma sent_frames_step e (c c' : conn) out o :
  sent_frames c out → conn_step e c = Ok (c', o) → sent_frames c' (out ++ o).
Proof.
  intros Hs He. destruct e as [r s| | |]; cbn [conn_step] in He.
  - unfold SendAndReceive in He. apply bind_Ok in He as (c1 & Hr & He).
    assert (sent_frames c1 out) as Hc1.
    { destruct Hs as (l & fs & Hl & Hfs & Hout).
      destruct (receive_data_sent _ _ _ _ Hr Hl) as (l' & Hl' & Hs' & Ho').
      exists l', fs. by rewrite Hs', Ho'. }
    unfold send_data in He. apply bind_Ok in He as ([b c2] & Hp & He).
    pose proof (sent_frames_output _ _ _ _ Hc1 Hp) as (l & fs & Hl & Hfs & Hout).
    destruct b; [destruct s as [n|[]]|]; try done; injection He as <- <-;
      (exists l, fs; split_and!; [done|done|]); rewrite Hout; simpl; rewrite <- ?app_assoc; try done.
    by rewrite take_drop.
  - apply bind_Ok in He as ([b c1] & Hb & He). injection He as <- <-. rewrite app_nil_r.
    unfold IsBlocked in Hb. destruct (receive_blocked_ c); [|by injection Hb as <- <-].
    apply bind_Ok in Hb as ([b2 c2] & Hp & Hb). injection Hb as <- <-.
    by eapply sent_frames_output.
  - apply bind_Ok in He as ([b c1] & Hp & He). injection He as <- <-. rewrite app_nil_r.
    by eapply sent_frames_output.
  - injection He as <- <-. by rewrite app_nil_r.
Qed.

Lemma sent_frames_run es (c c' : conn) out o :
  sent_frames c out → conn_run es c = Ok (c', o) → sent_frames c' (out ++ o).
Proof.
  revert c out o. induction es as [|e es IH]; intros c out o Hs Hr.
  { injection Hr as <- <-. by rewrite app_nil_r. }
  apply conn_run_cons in Hr as (c1 & o1 & o2 & He & Hr & ->). rewrite app_assoc.
  eapply IH; [|exact Hr]. by eapply sent_frames_step.
Qed.

(** ** The messages received are those of the frames that have arrived *)

Lemma notify_all_logged ms (l l' : logged H Msg) cl cl' :
  notify_all ms l cl = Ok (l', cl') → received l' = received l ++ ms.
Proof.
  revert l cl. induction ms as [|m ms IH]; intros l cl Hn.
  { injection Hn as <- _. by rewrite app_nil_r. }
  unfold notify_all in Hn. cbn [foldM] in Hn. apply bind_Ok in Hn as ([l1 cl1] & Hm & Hn).
  apply IH in Hn. rewrite Hn. apply bind_Ok in Hm as ([l2 cl2] & Hm & Hr). injection Hr as <- _.
  apply bind_Ok in Hm as ([h cl3] & _ & Hr). injection Hr as <- _. simpl. by rewrite <- app_assoc.
Qed.

Lemma incomplete_length p : incomplete (Msg := Msg) p →
  Z.of_nat (length p) + Z.of_nat kInputBufferSize < 2 ^ 31.
Proof.
  intros [->|(m & f & k & [_ Hf] & Hk & ->)]; [simpl; unfold kInputBufferSize; lia|].
  rewrite length_take. lia.
Qed.

(** [s] is what has arrived of the stream [fs] of the messages [ms]. *)
Definition received_prefix (ms : list Msg) (fs : list (list byte)) (c : conn) (s : list byte) : Prop :=
  ∃ l n, protocol_connection_handler_ c = Some l ∧ (n ≤ length ms)%nat ∧
    received l = take n ms ∧ s = concat (take n fs) ++ input_data_ c ∧
    incomplete (Msg := Msg) (input_data_ c) ∧ (s = concat fs → n = length ms).

Lemma received_prefix_output ms fs b (c c' : conn) s :
  received_prefix ms fs c s → PrivateHasOutputData (Msg := Msg) c = Ok (b, c') →
  received_prefix ms fs c' s.
Proof.
  intros (l & n & Hl & Hn & Hrec & Hs & Hinc & Hall) Hp.
  destruct (PrivateHasOutputData_spec _ _ _ _ Hp Hl) as (l' & Hl' & Hr & Hi & _).
  exists l', n. by rewrite Hr, Hi.
Qed.

Lemma received_prefix_data ms fs bytes (c c' : conn) s :
  Forall2 is_frame ms fs → received_prefix ms fs c s → bytes ≠ [] →
  (length bytes ≤ kInputBufferSize)%nat → s ++ bytes `prefix_of` concat fs →
  receive_data (Msg := Msg) (RecvData bytes) c = Ok c' → received_prefix ms fs c' (s ++ bytes).
Proof.
  intros Hfs (l & n & Hl & Hn & Hrec & Hs & Hinc & Hall) Hne Hlen Hpre Hr.
  assert (concat fs = concat (take n fs) ++ concat (drop n fs)) as Hsplit.
  { by rewrite <- concat_app, take_drop. }
  destruct (cut_stream (drop n ms) (drop n fs) (input_data_ c ++ bytes))
    as (n' & p & Hn' & Hcut & Hp & _ & Hend).
  { by apply Forall2_drop. }
  { rewrite Hs, <- app_assoc, Hsplit in Hpre. by apply prefix_app_inv in Hpre. }
  rewrite length_drop in Hn', Hend. rewrite take_drop_commute in Hcut.
  rewrite (receive_data_stream (drop n (take (n + n') ms)) (drop n (take (n + n') fs)) p
             bytes c l) in Hr; [|by apply Forall2_drop, Forall2_take|done|done| |done|done].
  2:{ pose proof (incomplete_length _ Hinc). rewrite length_app. lia. }
  apply bind_Ok in Hr as ([l' cl] & Hnot & Hr). injection Hr as <-. exists l', (n + n')%nat.
  apply notify_all_logged in Hnot. cbn [protocol_connection_handler_ input_data_].
  assert (n ≤ length fs)%nat as Hnf by (by rewrite <- (Forall2_length _ _ _ Hfs)).
  split_and!; [done|lia| | |done|].
  - rewrite Hnot, Hrec. rewrite <- (take_drop n (take (n + n') ms)) at 2.
    by rewrite take_take, Nat.min_l by lia.
  - rewrite Hs, <- app_assoc, Hcut, app_assoc, <- concat_app. f_equal. f_equal.
    rewrite <- (take_drop n (take (n + n') fs)) at 2. by rewrite take_take, Nat.min_l by lia.
  - intros Heq. rewrite Hs, <- app_assoc, Hsplit in Heq. apply app_inv_head in Heq.
    destruct (Hend Heq). lia.
Qed.

Lemma received_prefix_step ms fs e (c c' : conn) s o :
  Forall2 is_frame ms fs → received_prefix ms fs c s → event_ok e →
  s ++ event_bytes e `prefix_of` concat fs → conn_step e c = Ok (c', o) →
  received_prefix ms fs c' (s ++ event_bytes e).
Proof.
  intros Hfs Hc Hok Hpre He.
  assert (∀ b (c2 : conn), PrivateHasOutputData (Msg := Msg) c = Ok (b, c2) →
            received_prefix ms fs c2 (s ++ [])) as Hout.
  { intros b c2 Hp. rewrite app_nil_r. by eapply received_prefix_output. }
  destruct e as [r sr| | |]; cbn [conn_step event_bytes] in *.
  - unfold SendAndReceive in He. apply bind_Ok in He as (c1 & Hr & He).
    assert (received_prefix ms fs c1 (s ++ event_bytes (EvSendAndReceive r sr))) as Hc1.
    { destruct r as [[|b bytes]|[]]; cbn [receive_data event_bytes] in Hr |- *; try done;
        try (injection Hr as <-; by rewrite app_nil_r).
      eapply received_prefix_data; [done|done|done|done|done|exact Hr]. }
    unfold send_data in He. apply bind_Ok in He as ([b c2] & Hp & He).
    pose proof (received_prefix_output _ _ _ _ _ _ Hc1 Hp) as Hc2.
    destruct b; [destruct sr as [n|[]]|]; try done; by injection He as <- <-.
  - apply bind_Ok in He as ([b c1] & Hb & He). injection He as <- <-.
    unfold IsBlocked in Hb. destruct (receive_blocked_ c).
    + apply bind_Ok in Hb as ([b2 c2] & Hp & Hb). injection Hb as <- <-. by eapply Hout.
    + injection Hb as <- <-. by rewrite app_nil_r.
  - apply bind_Ok in He as ([b c1] & Hp & He). injection He as <- <-. by eapply Hout.
  - injection He as <- <-. by rewrite app_nil_r.
Qed.

Lemma received_prefix_run ms fs es (c c' : conn) s o :
  Forall2 is_frame ms fs → received_prefix ms fs c s → Forall event_ok es →
  s ++ concat (event_bytes <$> es) `prefix_of` concat fs → conn_run es c = Ok (c', o) →
  received_prefix ms fs c' (s ++ concat (event_bytes <$> es)).
Proof.
  intros Hfs Hc Hes. revert c s o Hc. induction Hes as [|e es He Hes IH]; intros c s o Hc Hpre Hr.
  { injection Hr as <- <-. by rewrite app_nil_r. }
  apply conn_run_cons in Hr as (c1 & o1 & o2 & Hstep & Hr & _).
  cbn [fmap list_fmap concat] in *. rewrite app_assoc in *.
  eapply IH; [|done|exact Hr]. eapply received_prefix_step; [done|done|done| |exact Hstep].
  etransitivity; [|exact Hpre]. by apply prefix_app_r.
Qed.

(** C18 (refinement). Two ends of a connection.  The sender [a] runs on whatever its socket does
    (partial writes, errors that may be retried, calls in any order) and writes
    [out]; the receiver [b] gets some prefix of these bytes in arbitrary pieces.
    Then the receiver's handler has been given a prefix of the messages that the
    sender's handler supplied, unchanged and in order, and all of them once
    everything has arrived. *)
Theorem connection_delivers_in_order (ha hb : H) ea eb (a b : conn) out ob la lb
    (Hruna : conn_run ea (fresh ha) = Ok (a, out))
    (Hrunb : conn_run eb (fresh hb) = Ok (b, ob))
    (Hbuf : Forall event_ok eb)
    (Hnet : concat (event_bytes <$> eb) `prefix_of` out)
    (Hla : protocol_connection_handler_ a = Some la)
    (Hlb : protocol_connection_handler_ b = Some lb)
    (Hsize : Forall (fun m => ∀ f, FormatProtocolMessage m = Ok f →
               Z.of_nat (length f) + Z.of_nat kInputBufferSize < 2 ^ 31) (sent la)) :
  received lb `prefix_of` sent la ∧
  (concat (event_bytes <$> eb) = out → output_data_ a = [] → received lb = sent la).
Proof.
  assert (sent_frames a out) as (la' & fs & Hla' & Hfs & Hout).
  { apply (sent_frames_run ea (fresh ha) a [] out); [|done].
    exists (Logged ha [] []), []. by split_and!; [|constructor|]. }
  rewrite Hla in Hla'. injection Hla' as <-.
  assert (Forall2 is_frame (sent la) fs) as Hframes.
  { clear -Hfs Hsize. revert Hsize. induction Hfs; intros Hs; constructor;
      inversion_clear Hs; [by split; auto|auto]. }
  assert (received_prefix (sent la) fs b ([] ++ concat (event_bytes <$> eb)))
    as (lb' & n & Hlb' & Hn & Hrec & _ & _ & Hall).
  { eapply received_prefix_run; [done| |done| |exact Hrunb].
    - exists (Logged hb [] []), O. split_and!; [done|lia|done|done|by left|].
      intros Hnil. pose proof (frames_count _ _ Hframes).
      rewrite (Forall2_length _ _ _ Hframes). rewrite <- Hnil in *. simpl in *. lia.
    - rewrite Hout. simpl. etransitivity; [exact Hnet|]. by apply prefix_app_r. }
  rewrite Hlb in Hlb'. injection Hlb' as <-. rewrite Hrec. split.
  - exists (drop n (sent la)). by rewrite take_drop.
  - intros Heq Hempty. rewrite Heq in Hall. rewrite Hempty, app_nil_r in Hout.
    rewrite (Hall (eq_sym Hout)), take_ge by done. done.
Qed.

End runs.

(** * A message type and a handler that run *)

(** A message that is its own encoding, and a handler with a list of messages
    to send. *)
#[export] Instance blob_message : ProtoMessage (list byte) := {|
  ByteSize m := Z.of_nat (length m);
  AppendToString m := Some m;
  ParseFromString bytes := Some bytes;
  IsInitialized _ := true;
|}.

#[export] Instance blob_message_laws : ProtoMessageLaws (list byte).
Proof.
  constructor; simpl; [eauto|naive_solver|naive_solver|done].
Qed.

#[export] Instance outbox_handler : ConnectionHandler (list (list byte)) (list byte) := {|
  GetNextOutputMessage l :=
    match l with [] => Ok (None, [], false) | m :: l' => Ok (Some m, l', false) end;
  NotifyMessageReceived _ l := Ok (l, false);
|}.

Example framing_example : FormatProtocolMessage [7; 8; 9] = Ok [3; 7; 8; 9].
Proof. reflexivity. Qed.

(** A length prefix of 2^32 + 3 is taken for a message of three bytes. *)
Example truncated_length_example :
  ParseProtocolMessage [0x83; 0x80; 0x80; 0x80; 0x10; 7; 8; 9] 8 = Ok (Some (8, [7; 8; 9])).
Proof. reflexivity. Qed.

(** Two messages; the sender's socket takes the bytes two at a time, the
    receiver gets a piece that cuts the second frame. *)
Definition example_sender_events : list conn_event :=
  replicate 3 (EvSendAndReceive (RecvError EAGAIN) (SendCount 2)) ++
  [EvIsBlocked; EvSendAndReceive (RecvError EAGAIN) (SendCount 2)].
Definition example_receiver_events : list conn_event :=
  [EvSendAndReceive (RecvData [3; 7]) (SendCount 0);
   EvSendAndReceive (RecvData [8; 9; 1]) (SendCount 0); EvHasOutputData].

Definition conn_of (r : res (t (logged (list (list byte)) (list byte)) * list byte)) :=
  match r with Ok x => x | _ => (fresh [], []) end.

Lemma connection_delivers_in_order_witness :
  [[7; 8; 9]] `prefix_of` [[7; 8; 9]; [5]].
Proof.
  refine (proj1 (connection_delivers_in_order [[7; 8; 9]; [5]] []
    example_sender_events example_receiver_events
    (conn_of (conn_run example_sender_events (fresh [[7; 8; 9]; [5]]))).1
    (conn_of (conn_run example_receiver_events (fresh []))).1
    [3; 7; 8; 9; 1; 5] []
    (Logged [] [[7; 8; 9]; [5]] []) (Logged [] [] [[7; 8; 9]]) _ _ _ _ _ _ _)).
  - vm_compute. reflexivity.
  - vm_compute. reflexivity.
  - repeat constructor; unfold event_ok, kInputBufferSize; simpl; lia.
  - exists [5]. reflexivity.
  - vm_compute. reflexivity.
  - vm_compute. reflexivity.
  - repeat constructor; intros f [= <-]; unfold kInputBufferSize; simpl; lia.
Defined.

Lemma receiving_is_exact_witness :
  ∃ n p, (n ≤ 2)%nat ∧ [3; 7; 8; 9; 1] = concat (take n [[3; 7; 8; 9]; [1; 5]]) ++ p ∧
    (p = [] ∨ ∃ f, [[3; 7; 8; 9]; [1; 5]] !! n = Some f ∧ (length p < length f)%nat) ∧
    receive_all [[3; 7]; [8; 9; 1]] (mk (Some (@nil (list byte))) false false false [] []) =
      '(h', cl') ← notify_all (take n [[7; 8; 9]; [5]]) [] false;
      Ok (mk (Some h') false false cl' p []).
Proof.
  apply (receiving_is_exact [[7; 8; 9]; [5]] [[3; 7; 8; 9]; [1; 5]] [[3; 7]; [8; 9; 1]]
           [] false false []).
  - repeat constructor; unfold kInputBufferSize; simpl; lia.
  - exists [5]. reflexivity.
  - repeat constructor; done || (unfold kInputBufferSize; simpl; lia).
Defined.

Lemma message_length_truncated_witness :
  ∃ prefix, FormatVarint (2 ^ 32 + 3) kMaxVarintLength = Ok (Z.of_nat (length prefix), prefix) ∧
    ParseMessageLength prefix (Z.of_nat (length prefix)) = Ok (Z.of_nat (length prefix), 3).
Proof.
  destruct (message_length_truncated (2 ^ 32 + 3)) as (p & Hp & Hl);
    [unfold is_uint64; lia|]. exists p. split; [exact Hp|]. exact Hl.
Defined.
