(* ===== verification/Queues.v ===== *)
(** * State variables and queues between threads

    [util/math_util.cc], [util/bool_variable.cc], [util/state_variable.cc],
    [util/producer_consumer_queue.h] and [util/quota_queue.h].  A critical
    section of the code is one step.  A call that would wait on a condition
    variable in the current state is [Blocked]: it continues when another thread
    has changed the state. *)
From S2P Require Import Prelude.
From stdpp Require Import base tactics list gmap sets.
From Stdlib Require Import ZArith Lia.
Open Scope Z_scope.

(** A call that either returns or waits. *)
Inductive blocking (A : Type) : Type :=
| Done (a : A)
| Blocked.
Arguments Done {A} a.
Arguments Blocked {A}.

(** * [math_util.cc] *)

(** [unsigned] is 32 bits wide; [n - 1] wraps around. *)
Definition IsPowerOfTwo (n : Z) : bool :=
  negb (n =? 0) && (Z.land n ((n - 1) mod 2 ^ 32) =? 0).

(** * [BoolVariable] *)
Module BoolVariable.
Record t := mk { value_ : bool }.
Definition Get (v : t) : bool := value_ v.
Definition Set_ (value : bool) (v : t) : t := mk value.
End BoolVariable.

(** * [StateVariable] *)
Module StateVariable.

Record t := mk {
  state_transitions_ : gset (Z * Z);
  current_state_ : Z;
}.

Definition New (starting_state : Z) : res t :=
  _ ← CHECK (IsPowerOfTwo starting_state);
  Ok (mk ∅ starting_state).

Definition AddStateTransition (old_state new_state : Z) (v : t) : res t :=
  _ ← CHECK (IsPowerOfTwo old_state);
  _ ← CHECK (IsPowerOfTwo new_state);
  _ ← CHECK (negb (old_state =? new_state));
  Ok (mk ({[ (old_state, new_state) ]} ∪ state_transitions_ v) (current_state_ v)).

Definition MatchesStateMask_Locked (state_mask : Z) (v : t) : res bool :=
  _ ← CHECK (negb (state_mask =? 0));
  Ok (negb (Z.land (current_state_ v) state_mask =? 0)).

Definition CheckState_Locked (expected_state_mask : Z) (v : t) : res unit :=
  b ← MatchesStateMask_Locked expected_state_mask v;
  CHECK b.

Definition WaitForState_Locked (expected_state_mask : Z) (v : t) : res (blocking unit) :=
  b ← MatchesStateMask_Locked expected_state_mask v;
  Ok (if b : bool then Done tt else Blocked).

Definition WaitForNotState_Locked (inverse_expected_state_mask : Z) (v : t) : res (blocking unit) :=
  b ← MatchesStateMask_Locked inverse_expected_state_mask v;
  Ok (if b : bool then Blocked else Done tt).

Definition ChangeState_Locked (new_state : Z) (v : t) : res t :=
  _ ← CHECK (bool_decide ((current_state_ v, new_state) ∈ state_transitions_ v));
  Ok (mk (state_transitions_ v) new_state).

Definition MatchesStateMask := MatchesStateMask_Locked.
Definition CheckState := CheckState_Locked.
Definition ChangeState := ChangeState_Locked.

Definition WaitForState (expected_state_mask : Z) (v : t) : res (blocking Z) :=
  w ← WaitForState_Locked expected_state_mask v;
  Ok (match w with Done _ => Done (current_state_ v) | Blocked => Blocked end).

Definition WaitForNotState (inverse_expected_state_mask : Z) (v : t) : res (blocking Z) :=
  w ← WaitForNotState_Locked inverse_expected_state_mask v;
  Ok (match w with Done _ => Done (current_state_ v) | Blocked => Blocked end).

(** [mutate_func] works on the variable while it is locked. *)
Definition Mutate (mutate_func : t → res t) (v : t) : res (Z * t) :=
  v' ← mutate_func v;
  Ok (current_state_ v', v').

Definition SaveOldStateAndMutate (mutate_func : t → res t) (v : t) : res (Z * Z * t) :=
  let old_state := current_state_ v in
  v' ← mutate_func v;
  Ok (current_state_ v', old_state, v').

End StateVariable.

(** * [ProducerConsumerQueue] *)
Module ProducerConsumerQueue.
Section queue.
Context {T : Type}.

Record t := mk {
  max_size_ : Z;
  queue_ : list T;
  draining_ : bool;
}.

Definition New (max_size : Z) : res t :=
  _ ← (if max_size =? -1 then Ok tt else CHECK (0 <? max_size));
  Ok (mk max_size [] false).

Definition QueueFull_Locked (q : t) : bool :=
  (0 <? max_size_ q) && (max_size_ q <=? Z.of_nat (length (queue_ q))).

Definition Push (item : T) (wait : bool) (q : t) : blocking (bool * t) :=
  if wait && (negb (draining_ q) && QueueFull_Locked q) then Blocked
  else if draining_ q then Done (false, q)
  else Done (true, mk (max_size_ q) (queue_ q ++ [item]) (draining_ q)).

Definition Pop (wait : bool) (q : t) : blocking (option T * t) :=
  if wait && (negb (draining_ q) && match queue_ q with [] => true | _ => false end) then Blocked
  else match queue_ q with
       | [] => Done (None, q)
       | item :: queue => Done (Some item, mk (max_size_ q) queue (draining_ q))
       end.

Definition Drain (q : t) : t := mk (max_size_ q) (queue_ q) true.

End queue.
Arguments t : clear implicits.
End ProducerConsumerQueue.

(** * [QuotaQueue] *)
Module QuotaQueue.
Section queue.
Context {T : Type}.

Record Service := mkService {
  max_item_count : Z;
  item_count : Z;
}.

Record t := mk {
  services_ : list (option Service);
  draining_ : bool;
  queue_ : ProducerConsumerQueue.t (T * Z);
}.

Definition New (max_size : Z) : res t :=
  q ← ProducerConsumerQueue.New max_size;
  Ok (mk [] false q).

Definition set_services (s : list (option Service)) (q : t) : t := mk s (draining_ q) (queue_ q).
Definition set_queue (p : ProducerConsumerQueue.t (T * Z)) (q : t) : t :=
  mk (services_ q) (draining_ q) p.

Definition AddService (service_id max_item_count : Z) (q : t) : res t :=
  _ ← CHECK (0 <=? service_id);
  _ ← (if max_item_count =? -1 then Ok tt else CHECK (0 <? max_item_count));
  let new_index := Z.to_nat service_id in
  let services :=
    services_ q ++ replicate (S new_index - length (services_ q)) None in
  _ ← CHECK (match services !! new_index with Some None => true | _ => false end);
  Ok (set_services (<[new_index := Some (mkService max_item_count 0)]> services) q).

Definition GetService_Locked (service_id : Z) (q : t) : res Service :=
  _ ← CHECK (0 <=? service_id);
  _ ← CHECK (service_id <? Z.of_nat (length (services_ q)));
  service ← deref (services_ q !! Z.to_nat service_id);
  check_some service.

Definition ServiceFull_Locked (service : Service) : bool :=
  (0 <? max_item_count service) && (max_item_count service <=? item_count service).

Definition set_item_count (service_id n : Z) (service : Service) (q : t) : t :=
  set_services
    (<[Z.to_nat service_id := Some (mkService (max_item_count service) n)]> (services_ q)) q.

(** The first critical section of [Push]: whether the second one follows. *)
Definition push_reserve (service_id : Z) (wait : bool) (q : t) : res (blocking (bool * t)) :=
  service ← GetService_Locked service_id q;
  Ok (if wait && (negb (draining_ q) && ServiceFull_Locked service) then Blocked
      else if draining_ q then Done (false, q)
      else Done (true, set_item_count service_id (item_count service + 1) service q)).

(** The second one. *)
Definition push_queue (item : T) (service_id : Z) (wait : bool) (q : t) : blocking (bool * t) :=
  match ProducerConsumerQueue.Push (item, service_id) wait (queue_ q) with
  | Done (b, p) => Done (b, set_queue p q)
  | Blocked => Blocked
  end.

Definition Push (item : T) (service_id : Z) (wait : bool) (q : t) : res (blocking (bool * t)) :=
  r ← push_reserve service_id wait q;
  Ok (match r with
      | Done (true, q') => push_queue item service_id wait q'
      | Done (false, q') => Done (false, q')
      | Blocked => Blocked
      end).

(** The two critical sections of [Pop]. *)
Definition pop_queue (wait : bool) (q : t) : blocking (option (T * Z) * t) :=
  match ProducerConsumerQueue.Pop wait (queue_ q) with
  | Done (r, p) => Done (r, set_queue p q)
  | Blocked => Blocked
  end.

Definition pop_release (service_id : Z) (q : t) : res t :=
  service ← GetService_Locked service_id q;
  let n := item_count service - 1 in
  _ ← CHECK (0 <=? n);
  Ok (set_item_count service_id n service q).

Definition Pop (wait : bool) (q : t) : res (blocking (option (T * Z) * t)) :=
  match pop_queue wait q with
  | Blocked => Ok Blocked
  | Done (None, q') => Ok (Done (None, q'))
  | Done (Some (item, service_id), q') =>
      q'' ← pop_release service_id q';
      Ok (Done (Some (item, service_id), q''))
  end.

Definition Drain (q : t) : t :=
  mk (services_ q) true (ProducerConsumerQueue.Drain (queue_ q)).

End queue.
Arguments t : clear implicits.
End QuotaQueue.

(** * State variables: which states can be reached *)

Section state_variable.
Import StateVariable.

Lemma ChangeState_eq new_state v :
  ChangeState new_state v =
    if bool_decide ((current_state_ v, new_state) ∈ state_transitions_ v)
    then Ok (mk (state_transitions_ v) new_state) else Fatal.
Proof. unfold ChangeState, ChangeState_Locked. by destruct (bool_decide _). Qed.

(** The states of the classes that are started and stopped
    ([ProtocolServer], [ConnectionManager] and [PeerImpl] each declare them). *)
Definition NOT_STARTED : Z := 0x1.
Definition STARTING : Z := 0x2.
Definition RUNNING : Z := 0x4.
Definition STOPPING : Z := 0x8.
Definition STOPPED : Z := 0x10.

(** The transitions that their constructors add. *)
Definition lifecycle : res t :=
  v ← New NOT_STARTED;
  v ← AddStateTransition NOT_STARTED STARTING v;
  v ← AddStateTransition STARTING RUNNING v;
  v ← AddStateTransition RUNNING STOPPING v;
  AddStateTransition STOPPING STOPPED v.

(** The state after a sequence of changes. *)
Definition change_states (states : list Z) (v : t) : res t :=
  foldM (fun v s => ChangeState s v) v states.

Definition lifecycle_order : list Z := [STARTING; RUNNING; STOPPING; STOPPED].

Lemma lifecycle_edges v : lifecycle = Ok v → ∀ a b,
  (a, b) ∈ state_transitions_ v ↔ ∃ i, (NOT_STARTED :: lifecycle_order) !! i = Some a ∧
    lifecycle_order !! i = Some b.
Proof.
  intros [= <-] a b. cbn [state_transitions_].
  assert (∀ x y, (a, b) = (x, y) ↔ a = x ∧ b = y) as Hp by naive_solver.
  rewrite !elem_of_union, !elem_of_singleton, !Hp. split.
  - intros [[-> ->]|[[-> ->]|[[-> ->]|[[-> ->]|Hx]]]]; [by exists 3%nat|by exists 2%nat|
      by exists 1%nat|by exists 0%nat|set_solver].
  - intros (i & Ha & Hb). destruct i as [|[|[|[|i]]]]; simpl in Ha, Hb; naive_solver.
Qed.

(** An object with these states goes through them once, in the declared order:
    the changes that succeed are exactly the prefixes of the order, so nothing
    is started twice, stopped before it runs, or used again after it stopped. *)
Theorem lifecycle_states (v : t) (states : list Z) (Hv : lifecycle = Ok v) :
  is_ok (change_states states v) = true ↔ states `prefix_of` lifecycle_order.
Proof.
  assert (∀ i s w, state_transitions_ w = state_transitions_ v →
      (NOT_STARTED :: lifecycle_order) !! i = Some (current_state_ w) →
      is_ok (change_states s w) = true ↔ s `prefix_of` drop i lifecycle_order) as Hgen.
  { intros i s. revert i. induction s as [|x s IH]; intros i w Hw Hi.
    { split; intros _; [apply prefix_nil|done]. }
    unfold change_states in *. cbn [foldM]. rewrite (ChangeState_eq x w), Hw.
    assert ((current_state_ w, x) ∈ state_transitions_ v ↔ lifecycle_order !! i = Some x) as He.
    { rewrite (lifecycle_edges v Hv). split; [|by exists i]. intros (j & Hj & Hx).
      assert (j = i) as ->; [|done].
      unfold lifecycle_order, NOT_STARTED, STARTING, RUNNING, STOPPING, STOPPED in Hi, Hj.
      destruct i as [|[|[|[|[|i]]]]], j as [|[|[|[|[|j]]]]]; simpl in Hi, Hj; rewrite ?lookup_nil in *; congruence. }
    destruct (bool_decide _) eqn:Eb; cbn [mbind res_bind].
    - apply bool_decide_eq_true in Eb. apply He in Eb. rewrite (IH (S i)); [|done|exact Eb].
      rewrite (drop_S _ _ _ Eb). split; [apply prefix_cons|apply prefix_cons_inv_2].
    - apply bool_decide_eq_false in Eb. split; [done|]. intros [k Hk]. exfalso. apply Eb, He.
      rewrite <- (Nat.add_0_r i), <- lookup_drop, Hk. done. }
  apply (Hgen O); [done|]. by injection Hv as <-.
Qed.

Lemma lifecycle_states_witness :
  ∃ v, lifecycle = Ok v ∧ is_ok (change_states [STARTING; RUNNING] v) = true.
Proof.
  eexists. split; [reflexivity|]. apply lifecycle_states; [reflexivity|].
  exists [STOPPING; STOPPED]. reflexivity.
Defined.

End state_variable.

(** * Queues: first in, first out *)

Section producer_consumer.
Context {T : Type}.
Import ProducerConsumerQueue.

Inductive queue_op :=
| OpPush (item : T) (wait : bool)
| OpPop (wait : bool)
| OpDrain.

(** The queue with the items that [Push] accepted and that [Pop] returned. *)
Record history := mkHistory {
  queue : t T;
  accepted : list T;
  taken : list T;
}.

(** One call; a call that waits changes nothing until it is made again. *)
Definition queue_step (h : history) (op : queue_op) : history :=
  match op with
  | OpPush item wait =>
      match Push item wait (queue h) with
      | Done (true, q) => mkHistory q (accepted h ++ [item]) (taken h)
      | Done (false, q) => mkHistory q (accepted h) (taken h)
      | Blocked => h
      end
  | OpPop wait =>
      match Pop wait (queue h) with
      | Done (Some item, q) => mkHistory q (accepted h) (taken h ++ [item])
      | Done (None, q) => mkHistory q (accepted h) (taken h)
      | Blocked => h
      end
  | OpDrain => mkHistory (Drain (queue h)) (accepted h) (taken h)
  end.

Definition queue_run (ops : list queue_op) (h : history) : history := foldl queue_step h ops.

Definition waits (op : queue_op) : Prop :=
  match op with OpPush _ wait => wait = true | _ => True end.

Definition within_limit (q : t T) : Prop :=
  0 < max_size_ q → Z.of_nat (length (queue_ q)) ≤ max_size_ q.

Lemma queue_step_max h op : max_size_ (queue (queue_step h op)) = max_size_ (queue h).
Proof.
  destruct op as [item wait|wait|]; [| |done]; unfold queue_step, Push, Pop; destruct h as [[m l d] a k];
    cbn [queue draining_ queue_ max_size_]; repeat case_match; simplify_eq; done.
Qed.

Lemma queue_step_fifo h op : accepted h = taken h ++ queue_ (queue h) →
  accepted (queue_step h op) = taken (queue_step h op) ++ queue_ (queue (queue_step h op)).
Proof.
  destruct op as [item wait|wait|]; [| |done]; unfold queue_step, Push, Pop; destruct h as [[m l d] a k];
    cbn [queue accepted taken draining_ queue_ max_size_]; intros ->;
    repeat case_match; simplify_eq; cbn; rewrite <- ?app_assoc; done.
Qed.

Lemma queue_step_limit h op : waits op → within_limit (queue h) → within_limit (queue (queue_step h op)).
Proof.
  unfold within_limit. rewrite queue_step_max.
  destruct op as [item wait|wait|]; [| |done]; unfold queue_step, Push, Pop, QueueFull_Locked, waits;
    destruct h as [[m l d] a k]; cbn [queue draining_ queue_ max_size_].
  - intros -> Hl Hm. rewrite andb_true_l. destruct d; cbn [negb andb]; [by apply Hl|].
    rewrite (proj2 (Z.ltb_lt _ _) Hm). cbn [andb].
    destruct (Z.leb_spec m (Z.of_nat (length l))); simpl; [lia|]. rewrite length_app. simpl. lia.
  - intros _ Hl Hm. specialize (Hl Hm).
    destruct (wait && _); [done|]. destruct l; simpl in *; lia.
Qed.

Lemma queue_step_drained h op : draining_ (queue h) = true →
  draining_ (queue (queue_step h op)) = true ∧ accepted (queue_step h op) = accepted h.
Proof.
  destruct op as [item wait|wait|]; [| |done]; unfold queue_step, Push, Pop; destruct h as [[m l d] a k];
    cbn [queue draining_ queue_ max_size_]; intros ->; repeat case_match; simplify_eq; done.
Qed.

(** Whatever calls threads make, the items that [Pop] returned followed by
    those in the queue are the items that [Push] accepted, in order: none is
    lost, repeated or overtaken.  A queue whose producers wait never exceeds its
    maximum size.  After [Drain] nothing is accepted any more. *)
Theorem queue_is_fifo (max_size : Z) (q : t T) (ops ops' : list queue_op)
    (Hnew : New max_size = Ok q) :
  let h := queue_run ops (mkHistory q [] []) in
  accepted h = taken h ++ queue_ (queue h) ∧
  (Forall waits ops → within_limit (queue h)) ∧
  accepted (queue_run ops' (queue_step h OpDrain)) = accepted h.
Proof.
  intros h. split_and!.
  - subst h. assert (accepted (mkHistory q [] []) = taken (mkHistory q [] []) ++
      queue_ (queue (mkHistory q [] []))) as H0.
    { unfold New in Hnew. apply bind_Ok in Hnew as (? & _ & Hnew). by injection Hnew as <-. }
    revert H0. generalize (mkHistory q [] []). unfold queue_run.
    induction ops as [|op ops IH]; intros h H0; [done|]. by apply IH, queue_step_fifo.
  - intros Hw. subst h. assert (within_limit (queue (mkHistory q [] []))) as H0.
    { unfold New in Hnew. apply bind_Ok in Hnew as (? & _ & Hnew). injection Hnew as <-.
      unfold within_limit; simpl; lia. }
    revert H0. generalize (mkHistory q [] []). unfold queue_run.
    induction Hw as [|op ops Hop Hw IH]; intros h H0; [done|]. by apply IH, queue_step_limit.
  - assert (draining_ (queue (queue_step h OpDrain)) = true) as Hd by done.
    change (accepted h) with (accepted (queue_step h OpDrain)). revert Hd.
    generalize (queue_step h OpDrain). unfold queue_run.
    induction ops' as [|op ops' IH]; intros h' Hd; [done|].
    destruct (queue_step_drained h' op Hd) as [Hd' <-]. by apply IH.
Qed.

(** A producer that does not wait ignores the limit: its item is added to a full
    queue as well. *)
Theorem push_without_wait_ignores_limit (item : T) (q : t T) :
  Push item false q =
    if draining_ q then Done (false, q)
    else Done (true, mk (max_size_ q) (queue_ q ++ [item]) (draining_ q)).
Proof. reflexivity. Qed.

End producer_consumer.

Lemma queue_is_fifo_witness :
  accepted (queue_run [OpPush 5 true; OpPush 6 true; OpPop true]
    (mkHistory (ProducerConsumerQueue.mk 1 [] false) [] [])) = [5].
Proof.
  destruct (queue_is_fifo 1 (ProducerConsumerQueue.mk 1 [] false)
    [OpPush 5 true; OpPush 6 true; OpPop true] [] eq_refl) as (Ha & _ & _).
  exact Ha.
Defined.

(** * Quota queues used by several threads

    [Push] and [Pop] of [QuotaQueue] have two critical sections each, so another
    thread can come between them.  A state of the system is the queue, the items
    of the threads inside [Push] that have been counted but not queued, and the
    services of the threads inside [Pop] whose item has not been discounted. *)
Section quota.
Context {T : Type}.
Import QuotaQueue.

Record quota_system := mkSystem {
  quota_queue : t T;
  pushing : list (T * Z * bool);
  popping : list Z;
}.

(** One critical section of one thread.  With [polite] every producer waits. *)
Inductive quota_step (polite : bool) : quota_system → quota_system → Prop :=
| step_reserve q q' item id wait ps rs :
    (polite = true → wait = true) →
    push_reserve id wait q = Ok (Done (true, q')) →
    quota_step polite (mkSystem q ps rs) (mkSystem q' ((item, id, wait) :: ps) rs)
| step_enqueue q q' item id wait ps ps' rs b :
    push_queue item id wait q = Done (b, q') →
    quota_step polite (mkSystem q (ps ++ (item, id, wait) :: ps') rs) (mkSystem q' (ps ++ ps') rs)
| step_dequeue q q' item id wait ps rs :
    pop_queue wait q = Done (Some (item, id), q') →
    quota_step polite (mkSystem q ps rs) (mkSystem q' ps (id :: rs))
| step_release q q' id ps rs rs' :
    pop_release id q = Ok q' →
    quota_step polite (mkSystem q ps (rs ++ id :: rs')) (mkSystem q' ps (rs ++ rs'))
| step_drain q ps rs :
    quota_step polite (mkSystem q ps rs) (mkSystem (mk (services_ q) true (queue_ q)) ps rs)
| step_drain_queue q ps rs :
    draining_ q = true →
    quota_step polite (mkSystem q ps rs)
      (mkSystem (set_queue (ProducerConsumerQueue.Drain (queue_ q)) q) ps rs).

(** How often a service occurs. *)
Definition occ (id : Z) (l : list Z) : Z := Z.of_nat (length (filter (eq id) l)).

Lemma occ_nil id : occ id [] = 0.
Proof. done. Qed.
Lemma occ_cons id x l : occ id (x :: l) = (if decide (id = x) then 1 else 0) + occ id l.
Proof. unfold occ. rewrite filter_cons. destruct (decide _); simpl; lia. Qed.
Lemma occ_app id l l' : occ id (l ++ l') = occ id l + occ id l'.
Proof. unfold occ. rewrite filter_app, length_app. lia. Qed.
Lemma occ_nonneg id l : 0 ≤ occ id l.
Proof. unfold occ. lia. Qed.

(** Items of a service that are counted: being pushed, queued or being popped. *)
Definition held (id : Z) (s : quota_system) : Z :=
  occ id ((fun x => x.1.2) <$> pushing s) +
  occ id (snd <$> ProducerConsumerQueue.queue_ (queue_ (quota_queue s))) +
  occ id (popping s).

(** The service a number names. *)
Definition service_of (id : Z) (q : t T) : option Service :=
  if 0 <=? id then mjoin (services_ q !! Z.to_nat id) else None.

Lemma GetService_Locked_spec id q :
  GetService_Locked id q = check_some (service_of id q).
Proof.
  unfold GetService_Locked, service_of. destruct (Z.leb_spec 0 id); [|done].
  cbn [CHECK mbind res_bind]. destruct (Z.ltb_spec id (Z.of_nat (length (services_ q)))).
  - destruct (lookup_lt_is_Some_2 (services_ q) (Z.to_nat id)) as [o Ho]; [lia|].
    rewrite Ho. by destruct o.
  - by rewrite lookup_ge_None_2 by lia.
Qed.

Lemma service_of_set id id' n svc q : service_of id' q = Some svc →
  service_of id (set_item_count id' n svc q) =
    if decide (id = id') then Some (mkService (max_item_count svc) n) else service_of id q.
Proof.
  unfold service_of, set_item_count, set_services. cbn [services_].
  destruct (Z.leb_spec 0 id') as [Hid'|]; [|done]. intros Hs.
  assert (Z.to_nat id' < length (services_ q))%nat as Hlt.
  { apply lookup_lt_is_Some_1. destruct (services_ q !! _); [eauto|done]. }
  destruct (decide (id = id')) as [->|Hne].
  - rewrite (proj2 (Z.leb_le 0 id')) by done. by rewrite list_lookup_insert_eq.
  - destruct (Z.leb_spec 0 id); [|done]. by rewrite list_lookup_insert_ne by lia.
Qed.

(** The invariant: the count of a service covers the items it holds, and is
    exact until the queue is drained; with polite producers it stays within the
    quota; every item belongs to a service. *)
Record quota_inv (polite : bool) (s : quota_system) : Prop := {
  inv_count id svc : service_of id (quota_queue s) = Some svc →
    held id s ≤ item_count svc ∧
    (ProducerConsumerQueue.draining_ (queue_ (quota_queue s)) = false → held id s = item_count svc) ∧
    (polite = true → 0 < max_item_count svc → item_count svc ≤ max_item_count svc);
  inv_service id : service_of id (quota_queue s) = None → held id s = 0;
  inv_draining : ProducerConsumerQueue.draining_ (queue_ (quota_queue s)) = true →
    draining_ (quota_queue s) = true;
}.

(** A queue as its constructor and [AddService] leave it. *)
Definition quota_start (q : t T) : Prop :=
  ProducerConsumerQueue.queue_ (queue_ q) = [] ∧
  ProducerConsumerQueue.draining_ (queue_ q) = false ∧
  ∀ id svc, service_of id q = Some svc → item_count svc = 0.

Lemma quota_inv_start polite q : quota_start q → quota_inv polite (mkSystem q [] []).
Proof.
  intros (Hq & Hd & Hs). assert (∀ id, held id (mkSystem q [] []) = 0) as Hh.
  { intros id. unfold held. simpl. by rewrite Hq, !occ_nil. }
  split; simpl.
  - intros id svc Hsvc. rewrite Hh, (Hs id svc Hsvc). split_and!; [lia|done|lia].
  - intros id _. apply Hh.
  - intros Hd'. congruence.
Qed.

Lemma held_nonneg id s : 0 ≤ held id s.
Proof. unfold held, occ. lia. Qed.

(** Changing the count of one service by as much as what it holds. *)
Lemma quota_inv_count polite s s' id n svc :
  quota_inv polite s → service_of id (quota_queue s) = Some svc →
  quota_queue s' = set_item_count id (item_count svc + n) svc (quota_queue s) →
  (∀ id', held id' s' = held id' s + if decide (id' = id) then n else 0) →
  (polite = true → 0 < max_item_count svc → item_count svc + n ≤ max_item_count svc) →
  quota_inv polite s'.
Proof.
  intros [Hc Hn Hd] Hsvc Hq Hh Hp. split; rewrite Hq; [| |done].
  - intros id' svc'. rewrite service_of_set by done. rewrite Hh. destruct (decide (id' = id)) as [->|].
    + intros [= <-]. destruct (Hc id svc Hsvc) as (H1 & H2 & _). cbn [item_count max_item_count].
      split_and!; [lia| |done]. intros Hdr. rewrite H2 by done. lia.
    + intros Hs'. rewrite Z.add_0_r. by apply Hc.
  - intros id'. rewrite service_of_set, Hh by done.
    destruct (decide (id' = id)) as [->|]; [done|]. intros Hs'. rewrite Hn by done. lia.
Qed.

(** Moving an item from one place to another. *)
Lemma quota_inv_move polite s s' :
  quota_inv polite s → services_ (quota_queue s') = services_ (quota_queue s) →
  (∀ id, held id s' ≤ held id s) →
  (ProducerConsumerQueue.draining_ (queue_ (quota_queue s')) = false →
     ProducerConsumerQueue.draining_ (queue_ (quota_queue s)) = false ∧ ∀ id, held id s' = held id s) →
  (ProducerConsumerQueue.draining_ (queue_ (quota_queue s')) = true → draining_ (quota_queue s') = true) →
  quota_inv polite s'.
Proof.
  intros [Hc Hn Hd] Hs Hle Heq Hd'.
  assert (∀ id, service_of id (quota_queue s') = service_of id (quota_queue s)) as Hsv
    by (intros id; unfold service_of; by rewrite Hs).
  split; [| |done].
  - intros id svc. rewrite Hsv. intros Hsvc. destruct (Hc id svc Hsvc) as (H1 & H2 & H3).
    specialize (Hle id). split_and!; [lia| |done]. intros Hdr. destruct (Heq Hdr) as [Hdr0 ->]. auto.
  - intros id. rewrite Hsv. intros Hsvc. pose proof (held_nonneg id s'). specialize (Hle id).
    rewrite (Hn id Hsvc) in Hle. lia.
Qed.

Ltac solve_held :=
  unfold held;
  cbn [pushing popping quota_queue queue_ set_queue set_item_count set_services
       ProducerConsumerQueue.queue_];
  try match goal with E : ProducerConsumerQueue.queue_ _ = _ |- _ => rewrite E end;
  rewrite ?fmap_app, ?fmap_cons, ?fmap_nil, ?occ_app, ?occ_cons, ?occ_nil;
  cbn [fst snd]; repeat case_decide; subst; lia || done.

Lemma quota_inv_step polite s s' : quota_inv polite s → quota_step polite s s' → quota_inv polite s'.
Proof.
  intros Hinv Hstep. destruct Hstep as
    [q q' item id wait ps rs Hpol Hr|q q' item id wait ps ps' rs b Hr|q q' item id wait ps rs Hr
    |q q' id ps rs rs' Hr|q ps rs|q ps rs Hdr].
  - unfold push_reserve in Hr. rewrite GetService_Locked_spec in Hr.
    destruct (service_of id q) as [svc|] eqn:Hsvc; [|done]. cbn [check_some mbind res_bind] in Hr.
    destruct (wait && _) eqn:Hw; [done|]. destruct (draining_ q) eqn:Hd; [done|].
    injection Hr as <-. apply (quota_inv_count polite (mkSystem q ps rs) _ id 1 svc); [done|done|done| |].
    + intros id'. solve_held.
    + intros Hpo Hmax. rewrite (Hpol Hpo) in Hw. simpl in Hw. unfold ServiceFull_Locked in Hw.
      rewrite (proj2 (Z.ltb_lt _ _) Hmax) in Hw. simpl in Hw. apply Z.leb_gt in Hw. lia.
  - unfold push_queue, ProducerConsumerQueue.Push in Hr.
    destruct (wait && _); [done|].
    destruct (ProducerConsumerQueue.draining_ (queue_ q)) eqn:Hd; injection Hr as <- <-;
      apply (quota_inv_move polite (mkSystem q (ps ++ (item, id, wait) :: ps') rs)); simpl; try done.
    + intros id'. solve_held.
    + congruence.
    + intros _. by apply (inv_draining _ _ Hinv).
    + intros id'. solve_held.
    + intros _. split; [done|]. intros id'. solve_held.
  - unfold pop_queue, ProducerConsumerQueue.Pop in Hr. destruct (wait && _); [done|].
    destruct (ProducerConsumerQueue.queue_ (queue_ q)) as [|[i d] l] eqn:Hq; [done|].
    injection Hr as -> -> <-.
    assert (∀ id', held id' (mkSystem (set_queue (ProducerConsumerQueue.mk
      (ProducerConsumerQueue.max_size_ (queue_ q)) l (ProducerConsumerQueue.draining_ (queue_ q))) q)
      ps (id :: rs)) = held id' (mkSystem q ps rs)) as Hh.
    { intros id'. solve_held. }
    apply (quota_inv_move polite (mkSystem q ps rs)); [done|done| | |].
    + intros id'. rewrite Hh. lia.
    + intros Hd. split; [exact Hd|exact Hh].
    + apply (inv_draining _ _ Hinv).
  - unfold pop_release in Hr. rewrite GetService_Locked_spec in Hr.
    destruct (service_of id q) as [svc|] eqn:Hsvc; [|done]. cbn [check_some mbind res_bind] in Hr.
    apply bind_Ok in Hr as (? & _ & Hr). injection Hr as <-.
    apply (quota_inv_count polite (mkSystem q ps (rs ++ id :: rs')) _ id (-1) svc); [done|done|done| |].
    + intros id'. solve_held.
    + intros Hpo Hmax. destruct (inv_count _ _ Hinv id svc Hsvc) as (_ & _ & H3).
      specialize (H3 Hpo Hmax). lia.
  - apply (quota_inv_move polite (mkSystem q ps rs)); [done|done|done|done|done].
  - apply (quota_inv_move polite (mkSystem q ps rs)); [done|done|done|done|done].
Qed.

(** The second half of [Pop] never fails on a service it has taken an item of. *)
Lemma pop_release_total polite s id : quota_inv polite s → id ∈ popping s →
  ∃ q', pop_release id (quota_queue s) = Ok q'.
Proof.
  intros [Hc Hn Hd] Hid. unfold pop_release. rewrite GetService_Locked_spec.
  assert (0 < held id s) as Hpos.
  { apply list_elem_of_split in Hid as (l & l' & Hl). unfold held. rewrite Hl, occ_app, occ_cons.
    rewrite decide_True by done. unfold occ. lia. }
  destruct (service_of id (quota_queue s)) as [svc|] eqn:Hsvc; [|rewrite Hn in Hpos by done; lia].
  destruct (Hc id svc Hsvc) as (H1 & _). cbn [check_some mbind res_bind].
  rewrite (proj2 (Z.leb_le 0 (item_count svc - 1))) by lia. eauto.
Qed.

(** Whatever the threads do with a quota queue: the [CHECK] in [Pop] that a
    service's count is not negative never fails (nor does the lookup of the
    service), the counts are those of the items in flight until the queue is
    drained, and no service whose producers wait exceeds its quota. *)
Theorem quota_queue_counts (polite : bool) (q : t T) (s : quota_system)
    (Hstart : quota_start q) (Hreach : rtc (quota_step polite) (mkSystem q [] []) s) :
  (∀ id, id ∈ popping s → is_ok (pop_release id (quota_queue s)) = true) ∧
  (∀ id svc, service_of id (quota_queue s) = Some svc →
     (draining_ (quota_queue s) = false → item_count svc = held id s) ∧
     (polite = true → 0 < max_item_count svc → held id s ≤ max_item_count svc)).
Proof.
  assert (quota_inv polite s) as Hinv.
  { remember (mkSystem q [] []) as s0 eqn:E0. assert (quota_inv polite s0) as H0.
    { subst. by apply quota_inv_start. } clear E0. induction Hreach; [done|].
    by apply IHHreach, (quota_inv_step polite x). }
  split.
  - intros id Hid. destruct (pop_release_total polite s id) as [q' ->]; [done|done|done].
  - intros id svc Hsvc. destruct Hinv as [Hc Hn Hd]. destruct (Hc id svc Hsvc) as (H1 & H2 & H3). split.
    + intros Hnd. symmetry. apply H2. destruct (ProducerConsumerQueue.draining_ _) eqn:E; [|done].
      rewrite (Hd eq_refl) in Hnd. done.
    + intros Hp Hm. specialize (H3 Hp Hm). lia.
Qed.

End quota.

(** The queue of a connection, and a thread that has taken an item out. *)
Lemma quota_queue_counts_witness :
  is_ok (QuotaQueue.pop_release 1
    (QuotaQueue.mk (T := Z)
       [Some (QuotaQueue.mkService (-1) 0); Some (QuotaQueue.mkService 1 1)] false
       (ProducerConsumerQueue.mk (-1) [] false))) = true.
Proof.
  refine (proj1 (quota_queue_counts (T := Z) true
    (QuotaQueue.mk [Some (QuotaQueue.mkService (-1) 0); Some (QuotaQueue.mkService 1 0)] false
       (ProducerConsumerQueue.mk (-1) [] false))
    (mkSystem (QuotaQueue.mk
       [Some (QuotaQueue.mkService (-1) 0); Some (QuotaQueue.mkService 1 1)] false
       (ProducerConsumerQueue.mk (-1) [] false)) [] [1]) _ _) 1 _).
  - split; [reflexivity|split; [reflexivity|]]. intros id svc. unfold service_of.
    destruct (0 <=? id); [|done]. cbn [QuotaQueue.services_].
    destruct (Z.to_nat id) as [|[|n]]; [intros [= <-]; reflexivity|intros [= <-]; reflexivity|done].
  - eapply rtc_l; [eapply step_reserve with (item := 7) (id := 1) (wait := true); [done|reflexivity]|].
    eapply rtc_l; [eapply step_enqueue with (ps := []) (ps' := []); reflexivity|].
    eapply rtc_l; [eapply step_dequeue with (wait := false); reflexivity|]. apply rtc_refl.
  - left.
Defined.
