(* ===== verification/Monitors.v ===== *)
(** * Threads that sleep on condition variables

    [base/cond_var.{h,cc}], [base/notification.cc], [base/thread_safe_counter.cc] and
    the conditions of the classes of file [Queues].  A critical section either puts
    its thread to sleep on a condition variable or changes the state and wakes
    threads, one ([Signal]) or all ([Broadcast]); a thread that is woken runs its
    section again when it gets the mutex, and other threads can come before it.
    Sleeping threads may also wake up without a reason, or because of a timeout.

    What is shown: no wake-up is lost.  When every thread that was woken has run, a
    thread that sleeps has a reason to. *)
From S2P Require Import Prelude Queues.
From stdpp Require Import base tactics list gmap relations.
From Stdlib Require Import ZArith Lia.
#[local] Open Scope Z_scope.

(** ** Condition variables *)
Module CondVar.
Definition ETIMEDOUT : Z := 110.

(** [TimedWait], where [error_code] is what [pthread_cond_timedwait] returns. *)
Definition TimedWait (error_code : Z) : res bool :=
  if negb (error_code =? 0) then (if negb (error_code =? ETIMEDOUT) then Fatal else Ok false) else Ok true.

Record deadline := { tv_sec : Z; tv_nsec : Z }.
Definition deadline_of (deadline_usec : Z) : deadline :=
  {| tv_sec := Z.quot deadline_usec 1000000; tv_nsec := Z.rem deadline_usec 1000000 * 1000 |}.

(** [Wait]: [flag] is [FLAGS_cond_var_timeout_sec_for_debugging]; [timedwait] is what
    [pthread_cond_timedwait] returns for a deadline. *)
Definition Wait (flag now_usec : Z) (timedwait : deadline → Z) : res unit :=
  if 0 <=? flag then
    b ← TimedWait (timedwait (deadline_of (now_usec + flag * 1000000)));
    CHECK b
  else Ok tt.

(** The time in a deadline is the time it was made of. *)
Lemma deadline_of_usec usec : 0 ≤ usec →
  tv_sec (deadline_of usec) * 1000000000 + tv_nsec (deadline_of usec) = usec * 1000 ∧
  0 ≤ tv_nsec (deadline_of usec) < 1000000000.
Proof.
  intros Hu. unfold deadline_of. simpl. pose proof (Z.quot_rem' usec 1000000).
  pose proof (Z.rem_bound_pos usec 1000000 Hu ltac:(lia)). lia.
Qed.
End CondVar.

(** ** [Notification] *)

(** The deadline, in microseconds, of a wait of [timeout_ms]: the product has type
    [int]. *)
Definition deadline_usec (now timeout_ms : Z) : res Z :=
  _ ← CHECK (0 <=? timeout_ms);
  if timeout_ms * 1000 <? 2 ^ 31 then Ok (now + timeout_ms * 1000) else Undef.

(** A timed wait: [looks i] is the state that the thread finds when it looks for the
    [i]th time, with the time that it reads.  [None]: it has not ended. *)
Fixpoint timed_wait {S} (fuel : nat) (waiting : S → bool) (deadline : Z) (looks : nat → S * Z) : option S :=
  match fuel with
  | O => None
  | Datatypes.S fuel =>
      if waiting (looks O).1 && ((looks O).2 <=? deadline)
      then timed_wait fuel waiting deadline (fun i => looks (Datatypes.S i)) else Some (looks O).1
  end.

Module Notification.
Record t := mk { notified_ : bool }.
Definition New : t := mk false.
Definition notified (v : t) : bool := notified_ v.
Definition Wait (v : t) : blocking unit := if negb (notified_ v) then Blocked else Done tt.
Definition WaitWithTimeout (fuel : nat) (timeout_ms now : Z) (looks : nat → t * Z) : res (option bool) :=
  deadline ← deadline_usec now timeout_ms;
  Ok (if 0 <? timeout_ms then notified_ <$> timed_wait fuel (fun v => negb (notified_ v)) deadline looks
      else Some (notified_ (looks O).1)).
Definition Notify (v : t) : t := mk true.
End Notification.

(** ** [ThreadSafeCounter] *)
Module ThreadSafeCounter.
Record t := mk { value_ : Z }.
Definition New (initial_value : Z) : res t := _ ← CHECK (0 <=? initial_value); Ok (mk initial_value).
Definition Decrement (v : t) : res t := _ ← CHECK (0 <? value_ v); Ok (mk (value_ v - 1)).
Definition WaitForZero (v : t) : res (blocking unit) :=
  if 0 <? value_ v then Ok Blocked else _ ← CHECK (value_ v =? 0); Ok (Done tt).
Definition WaitForZeroWithTimeout (fuel : nat) (timeout_ms now : Z) (looks : nat → t * Z) : res (option bool) :=
  deadline ← deadline_usec now timeout_ms;
  match (if 0 <? timeout_ms then timed_wait fuel (fun v => 0 <? value_ v) deadline looks else Some (looks O).1) with
  | None => Ok None
  | Some v => _ ← CHECK (0 <=? value_ v); Ok (Some (value_ v =? 0))
  end.
End ThreadSafeCounter.

(** ** Monitors *)
Inductive wake (C : Type) := Signal (c : C) | Broadcast (c : C).
Arguments Signal {C} c.
Arguments Broadcast {C} c.
#[export] Instance wake_eq_dec {C} `{EqDecision C} : EqDecision (wake C).
Proof. solve_decision. Defined.

(** What a critical section does. *)
Inductive action (S C : Type) := Sleep (c : C) | Return (s : S) (ws : list (wake C)).
Arguments Sleep {S C} c.
Arguments Return {S C} s ws.

(** [K] are the calls, [C] the condition variables. *)
Class Monitor (S K C : Type) := run : K → S → res (action S C).

(** A thread outside, asleep, or woken but without the mutex yet. *)
Inductive thread (K C : Type) := Idle | Asleep (c : C) (k : K) | Woken (k : K).
Arguments Idle {K C}.
Arguments Asleep {K C} c k.
Arguments Woken {K C} k.

Section monitor.
Context {S K C : Type} `{EqDecision C} `{Monitor S K C}.
Abbreviation threads := (list (thread K C)).

Definition wake_if (c : C) (t : thread K C) : thread K C :=
  match t with Asleep c' k => if decide (c = c') then Woken k else t | _ => t end.
Definition sleeps_on (c : C) (t : thread K C) : bool :=
  match t with Asleep c' _ => bool_decide (c = c') | _ => false end.

(** [Signal] wakes a thread if there is one. *)
Inductive wakes : wake C → threads → threads → Prop :=
| wakes_one c ts i k : ts !! i = Some (Asleep c k) → wakes (Signal c) ts (<[i := Woken k]> ts)
| wakes_none c ts : forallb (fun t => negb (sleeps_on c t)) ts = true → wakes (Signal c) ts ts
| wakes_all c ts : wakes (Broadcast c) ts (wake_if c <$> ts).
Inductive wakes_list : list (wake C) → threads → threads → Prop :=
| wakes_nil ts : wakes_list [] ts ts
| wakes_cons w ws ts ts1 ts2 : wakes w ts ts1 → wakes_list ws ts1 ts2 → wakes_list (w :: ws) ts ts2.

(** The thread [i] runs its section. *)
Inductive runs (i : nat) (k : K) : S * threads → S * threads → Prop :=
| runs_sleep s ts c : run k s = Ok (Sleep c) → runs i k (s, ts) (s, <[i := Asleep c k]> ts)
| runs_return s ts s' ws ts' : run k s = Ok (Return s' ws) → wakes_list ws (<[i := Idle]> ts) ts' → runs i k (s, ts) (s', ts').

Inductive monitor_step : S * threads → S * threads → Prop :=
| step_call i k s ts x : ts !! i = Some Idle → runs i k (s, ts) x → monitor_step (s, ts) x
| step_resume i k s ts x : ts !! i = Some (Woken k) → runs i k (s, ts) x → monitor_step (s, ts) x
| step_spurious i c k s ts : ts !! i = Some (Asleep c k) → monitor_step (s, ts) (s, <[i := Woken k]> ts).

Definition is_woken (t : thread K C) : bool := match t with Woken _ => true | _ => false end.

(** No wake-up is lost, from [s0] on. *)
Definition keeps_waking (s0 : S) : Prop := ∀ n s ts,
  rtc monitor_step (s0, replicate n Idle) (s, ts) → Forall (fun t => is_woken t = false) ts →
  ∀ i c k, ts !! i = Some (Asleep c k) → run k s = Ok (Sleep c).
End monitor.

(** ** Slots *)

(** Each condition [c] stands for slots that become free: [slots c s] is how many
    are, or [None] if there is no limit.  A call that waits on [c] takes one; each
    slot that becomes free comes with a signal. *)
Definition signals {C} `{EqDecision C} (c : C) (ws : list (wake C)) : Z :=
  Z.of_nat (length (filter (fun w => w = Signal c) ws)).

Class SlotMonitor (S K C : Type) `{EqDecision C} `{Monitor S K C} := {
  waits_on : K → option C;
  slots : C → S → option Z;
  sleep_slots k s c : run k s = Ok (Sleep c) → waits_on k = Some c ∧ ∃ n, slots c s = Some n ∧ n ≤ 0;
  no_slot_sleeps k s c n : waits_on k = Some c → slots c s = Some n → n ≤ 0 → run k s = Ok (Sleep c);
  return_slots k s s' ws c n : run k s = Ok (Return s' ws) → slots c s = Some n → Broadcast c ∉ ws →
    ∃ n', slots c s' = Some n' ∧ n' ≤ n + signals c ws - (if decide (waits_on k = Some c) then 1 else 0);
}.

Section slot_monitor.
Context {S K C : Type} `{SlotMonitor S K C}.
Abbreviation threads := (list (thread K C)).

Fixpoint count (p : thread K C → bool) (ts : threads) : Z :=
  match ts with [] => 0 | t :: ts => (if p t then 1 else 0) + count p ts end.
Definition wakes_for (c : C) (t : thread K C) : bool :=
  match t with Woken k => bool_decide (waits_on k = Some c) | _ => false end.
Abbreviation asleep c ts := (count (sleeps_on c) ts).
Abbreviation woken c ts := (count (wakes_for c) ts).

Lemma count_nonneg p ts : 0 ≤ count p ts.
Proof. induction ts as [|t ts IH]; simpl; [done|]. destruct (p t); lia. Qed.
Lemma count_insert p ts i t t' :
  ts !! i = Some t → count p (<[i := t']> ts) = count p ts - (if p t then 1 else 0) + (if p t' then 1 else 0).
Proof.
  revert i. induction ts as [|u ts IH]; intros [|i] Hi; simplify_eq/=; [lia|]. rewrite (IH i Hi). lia.
Qed.
Lemma count_pos p ts i t : ts !! i = Some t → p t = true → 0 < count p ts.
Proof.
  revert i. induction ts as [|u ts IH]; intros [|i] Hi Hp; simplify_eq/=; [rewrite Hp; pose proof (count_nonneg p ts); lia|].
  pose proof (IH i Hi Hp). destruct (p u); lia.
Qed.
Lemma count_none p ts : forallb (fun t => negb (p t)) ts = true → count p ts = 0.
Proof. induction ts as [|t ts IH]; simpl; [done|]. intros [Hp Ht]%andb_prop. rewrite (IH Ht). by destruct (p t). Qed.

(** A thread sleeps on the condition that its call waits on. *)
Definition right_condition (ts : threads) : Prop := ∀ i c k, ts !! i = Some (Asleep c k) → waits_on k = Some c.

Lemma insert_right i t ts :
  right_condition ts → (∀ c k, t = Asleep c k → waits_on k = Some c) → right_condition (<[i := t]> ts).
Proof.
  intros Hr Ht j c k Hj. destruct (decide (i = j)) as [->|Hne].
  - destruct (decide (j < length ts)%nat) as [Hlt|Hge].
    + rewrite list_lookup_insert_eq in Hj by done. simplify_eq. by apply Ht.
    + rewrite list_insert_ge in Hj by lia. by eapply Hr.
  - rewrite list_lookup_insert_ne in Hj by done. by eapply Hr.
Qed.

(** What waking does to the counts: sleeping threads become woken ones. *)
Record woke (c : C) (n : Z) (ts ts' : threads) : Prop := {
  woke_asleep : asleep c ts' ≤ asleep c ts;
  woke_woken : woken c ts ≤ woken c ts';
  woke_right : right_condition ts';
  woke_signalled : asleep c ts' = 0 ∨ woken c ts + n ≤ woken c ts';
}.

Lemma wake_all_counts c c0 ts :
  right_condition ts →
  asleep c (wake_if c0 <$> ts) = (if decide (c = c0) then 0 else asleep c ts) ∧
  woken c ts ≤ woken c (wake_if c0 <$> ts) ∧ right_condition (wake_if c0 <$> ts).
Proof.
  induction ts as [|t ts IH]; intros Hr; csimpl; [by destruct (decide (c = c0))|].
  destruct IH as (IH1 & IH2 & IH3); [intros i c1 k1; apply (Hr (Datatypes.S i))|]. split_and!.
  - rewrite IH1. destruct t as [|c1 k1|k1]; simpl; repeat case_decide; simplify_eq/=; repeat case_bool_decide; simplify_eq/=; lia.
  - destruct t as [|c1 k1|k1]; simpl; try lia. repeat case_decide; simpl; repeat case_bool_decide; lia.
  - intros [|i] c1 k1; simpl; [|by apply IH3]. pose proof (Hr 0%nat) as Hr0. simpl in Hr0.
    destruct t; simpl; intros [= Ht]; try done. case_decide; simplify_eq. by apply Hr0.
Qed.

Lemma wakes_woke w ts ts' c :
  wakes w ts ts' → right_condition ts → woke c (signals c [w]) ts ts' ∧ (w = Broadcast c → asleep c ts' = 0).
Proof.
  unfold signals. intros Hw Hr. destruct Hw as [c0 ts i k Hi|c0 ts Hn|c0 ts]; simpl.
  - pose proof (count_insert (sleeps_on c) _ _ _ (Woken k) Hi) as E1. pose proof (count_insert (wakes_for c) _ _ _ (Woken k) Hi) as E2.
    simpl in E1, E2. rewrite (Hr _ _ _ Hi) in E2.
    split; [|done]. rewrite filter_cons, filter_nil. split.
    + rewrite E1. clear E1 E2. case_bool_decide; lia.
    + rewrite E2. clear E1 E2. case_bool_decide; lia.
    + by apply insert_right.
    + right. rewrite E2. clear E1 E2. destruct (decide (Signal c0 = Signal c)) as [[= ->]|];
        [rewrite bool_decide_eq_true_2 by done|case_bool_decide]; simpl; lia.
  - split; [|done]. rewrite filter_cons, filter_nil. split; [lia|lia|done|].
    destruct (decide (Signal c0 = Signal c)) as [[= ->]|]; [left; by apply count_none|right; simpl; lia].
  - destruct (wake_all_counts c c0 ts Hr) as (E1 & E2 & E3). rewrite E1. split.
    + split; [|done|done|right; lia]. rewrite E1. pose proof (count_nonneg (sleeps_on c) ts). case_decide; lia.
    + intros [= ->]. by rewrite decide_True.
Qed.

Lemma signals_cons (c : C) w ws : signals c (w :: ws) = signals c [w] + signals c ws.
Proof. unfold signals. rewrite !filter_cons, filter_nil. case_decide; simpl; lia. Qed.

Lemma wakes_list_woke ws ts ts' c :
  wakes_list ws ts ts' → right_condition ts →
  woke c (signals c ws) ts ts' ∧ (Broadcast c ∈ ws → asleep c ts' = 0).
Proof.
  induction 1 as [ts|w ws ts ts1 ts2 Hw _ IH]; intros Hr.
  - split; [split; try done; right; unfold signals; simpl; lia|by intros ?%elem_of_nil].
  - destruct (wakes_woke w ts ts1 c Hw Hr) as [[A1 A2 A3 A4] A5]. destruct (IH A3) as [[B1 B2 B3 B4] B5].
    pose proof (count_nonneg (sleeps_on c) ts2). split.
    + split; [lia|lia|done|]. rewrite signals_cons. lia.
    + intros [<-|Hin]%elem_of_cons; [|by apply B5]. specialize (A5 eq_refl). lia.
Qed.

Lemma wakes_list_right ws ts ts' : wakes_list ws ts ts' → right_condition ts → right_condition ts'.
Proof.
  induction 1 as [|w ws ts ts1 ts2 Hw _ IH]; intros Hr; [done|]. apply IH.
  destruct w as [c|c]; by destruct (wakes_woke _ ts ts1 c Hw Hr) as [[] _].
Qed.

(** The invariant: while a thread sleeps, there is a woken thread for every free
    slot. *)
Definition slots_covered (x : S * threads) : Prop :=
  right_condition x.2 ∧ ∀ c, 0 < asleep c x.2 → ∃ n, slots c x.1 = Some n ∧ n ≤ woken c x.2.

Lemma runs_covered i k s ts x t :
  ts !! i = Some t → t = Idle ∨ t = Woken k → slots_covered (s, ts) → runs i k (s, ts) x → slots_covered x.
Proof.
  intros Hi Ht [Hr Hc] Hrun. simpl in *. inversion Hrun as [? ? c0 Hs|? ? s' ws ts' Hret Hws]; simplify_eq.
  - destruct (sleep_slots _ _ _ Hs) as (Hk & n & Hn & Hle). split; simpl; [apply insert_right; [done|by intros ? ? [= <- <-]]|].
    intros c Ha. rewrite (count_insert _ _ _ _ _ Hi) in Ha. rewrite (count_insert _ _ _ _ _ Hi). simpl in *.
    destruct (decide (c = c0)) as [->|Hne].
    + exists n. split; [done|]. assert (wakes_for c0 t = true → 0 < woken c0 ts) by (intros; by eapply count_pos).
      pose proof (count_nonneg (wakes_for c0) ts). destruct (wakes_for c0 t); lia.
    + rewrite bool_decide_eq_false_2 in Ha by done.
      destruct (Hc c) as (m & Hm & Hmle); [destruct Ht as [-> | ->]; simpl in Ha; lia|]. exists m. split; [done|].
      destruct Ht as [-> | ->]; simpl; [lia|]. rewrite bool_decide_eq_false_2 by congruence. lia.
  - assert (Hr1 : right_condition (<[i := Idle]> ts)) by by apply insert_right.
    split; simpl; [by eapply wakes_list_right|]. intros c Ha.
    destruct (wakes_list_woke ws _ _ c Hws Hr1) as [[A1 A2 A3 A4] A5].
    rewrite (count_insert (sleeps_on c) _ _ _ _ Hi) in A1. rewrite (count_insert (wakes_for c) _ _ _ _ Hi) in A2, A4.
    simpl in *. assert (sleeps_on c t = false) as Hst by (by destruct Ht as [-> | ->]). rewrite Hst in A1.
    destruct (Hc c) as (n & Hn & Hle); [lia|].
    destruct (return_slots _ _ _ _ c n Hret Hn) as (n' & Hn' & Hle'); [intros Hin; specialize (A5 Hin); lia|].
    exists n'. split; [done|]. destruct A4 as [A4|A4]; [lia|].
    destruct Ht as [-> | ->]; simpl in *; repeat case_decide; repeat case_bool_decide; simplify_eq; lia.
Qed.

Lemma step_covered x y : slots_covered x → monitor_step x y → slots_covered y.
Proof.
  intros Hx Hstep. destruct Hstep as [i k s ts y Hi Hrun|i k s ts y Hi Hrun|i c0 k s ts Hi].
  - eapply runs_covered; [exact Hi|by left|exact Hx|exact Hrun].
  - eapply runs_covered; [exact Hi|by right|exact Hx|exact Hrun].
  - destruct Hx as [Hr Hc]. split; simpl in *; [by apply insert_right|]. intros c Ha.
    rewrite (count_insert _ _ _ _ _ Hi) in Ha. rewrite (count_insert _ _ _ _ _ Hi). simpl in *.
    destruct (Hc c) as (n & Hn & Hle); [case_bool_decide; lia|]. exists n. split; [done|]. clear Ha. case_bool_decide; lia.
Qed.

Lemma count_idle p n : p Idle = false → count p (replicate n Idle) = 0.
Proof. intros Hp. induction n as [|n IH]; simpl; [done|]. by rewrite Hp, IH. Qed.

Lemma reachable_covered s0 n x : rtc monitor_step (s0, replicate n Idle) x → slots_covered x.
Proof.
  apply (rtc_ind_r (slots_covered)).
  - split; simpl; [by intros i c k [? _]%lookup_replicate_1|]. intros c Ha. by rewrite count_idle in Ha.
  - intros y z _ Hyz Hy. by eapply step_covered.
Qed.

Lemma slot_monitor_keeps_waking s0 : keeps_waking s0.
Proof.
  intros n s ts Hreach Hq i c k Hi. destruct (reachable_covered _ _ _ Hreach) as [Hr Hc]. simpl in *.
  destruct (Hc c) as (m & Hm & Hle); [eapply count_pos; [exact Hi|]; simpl; by apply bool_decide_eq_true|].
  assert (woken c ts = 0) as E.
  { clear -Hq. induction Hq as [|t ts Ht _ IH]; simpl; [done|]. rewrite IH. by destruct t. }
  eapply no_slot_sleeps; [by eapply Hr|exact Hm|lia].
Qed.
End slot_monitor.

(** ** Broadcasts *)

(** Whenever a sleeping call could go on, its condition is broadcast. *)
Class BroadcastMonitor (S K C : Type) `{EqDecision C} `{Monitor S K C} : Prop :=
  broadcast_law k s s' ws k' c :
    run k s = Ok (Return s' ws) → run k' s = Ok (Sleep c) → run k' s' = Ok (Sleep c) ∨ Broadcast c ∈ ws.

Section broadcast_monitor.
Context {S K C : Type} `{BroadcastMonitor S K C}.
Abbreviation threads := (list (thread K C)).

Lemma wakes_asleep w (ts ts' : threads) i c k :
  wakes w ts ts' → ts' !! i = Some (Asleep c k) → ts !! i = Some (Asleep c k) ∧ w ≠ Broadcast c.
Proof.
  destruct 1 as [c0 ts j k0 Hj|c0 ts _|c0 ts]; intros Hi.
  - destruct (decide (j = i)) as [->|Hne]; [|by rewrite list_lookup_insert_ne in Hi].
    by rewrite list_lookup_insert_eq in Hi by (by eapply lookup_lt_Some).
  - done.
  - rewrite list_lookup_fmap in Hi. destruct (ts !! i) as [t|]; simplify_eq/=.
    destruct t as [|c1 k1|k1]; simpl in *; try done. case_decide; simplify_eq. split; [done|congruence].
Qed.
Lemma wakes_list_asleep ws (ts ts' : threads) i c k :
  wakes_list ws ts ts' → ts' !! i = Some (Asleep c k) → ts !! i = Some (Asleep c k) ∧ Broadcast c ∉ ws.
Proof.
  induction 1 as [ts|w ws ts ts1 ts2 Hw _ IH]; intros Hi; [split; [done|by intros ?%elem_of_nil]|].
  destruct (IH Hi) as [Hi1 Hn]. destruct (wakes_asleep _ _ _ _ _ _ Hw Hi1) as [? Hw'].
  split; [done|]. rewrite elem_of_cons. intros [E|?]; [by apply Hw'|done].
Qed.

Definition sleeps_rightly (x : S * threads) : Prop :=
  ∀ i c k, x.2 !! i = Some (Asleep c k) → run k x.1 = Ok (Sleep c).

Lemma insert_rightly i t s (ts : threads) :
  sleeps_rightly (s, ts) → (∀ c k, t = Asleep c k → run k s = Ok (Sleep c)) → sleeps_rightly (s, <[i := t]> ts).
Proof.
  intros Hs Ht j c k Hj. simpl in *. destruct (decide (i = j)) as [->|Hne].
  - destruct (decide (j < length ts)%nat) as [Hlt|Hge].
    + rewrite list_lookup_insert_eq in Hj by done. simplify_eq. by apply Ht.
    + rewrite list_insert_ge in Hj by lia. by eapply (Hs j).
  - rewrite list_lookup_insert_ne in Hj by done. by eapply (Hs j).
Qed.

Lemma runs_rightly i k x y : sleeps_rightly x → runs i k x y → sleeps_rightly y.
Proof.
  intros Hx Hrun. destruct Hrun as [s ts c Hs|s ts s' ws ts' Hret Hws].
  - apply insert_rightly; [done|]. by intros ? ? [= <- <-].
  - intros j c k' Hj. simpl in *. destruct (wakes_list_asleep _ _ _ _ _ _ Hws Hj) as [Hj' Hn].
    pose proof (insert_rightly i Idle s ts Hx ltac:(done) j c k' Hj') as Hk. simpl in Hk.
    by destruct (broadcast_law _ _ _ _ _ _ Hret Hk).
Qed.

Lemma broadcast_monitor_keeps_waking s0 : keeps_waking s0.
Proof.
  intros n s ts Hreach _. revert Hreach. change (rtc monitor_step (s0, replicate n Idle) (s, ts) → sleeps_rightly (s, ts)).
  apply (rtc_ind_r sleeps_rightly).
  - by intros i c k [? _]%lookup_replicate_1.
  - intros y z _ Hyz Hy. destruct Hyz as [i k s1 ts1 z Hi Hrun|i k s1 ts1 z Hi Hrun|i c k s1 ts1 Hi].
    + by eapply runs_rightly. + by eapply runs_rightly. + by apply insert_rightly.
Qed.
End broadcast_monitor.

(** ** The queues *)
Inductive queue_cond := queue_not_empty_cond | queue_not_full_cond.
#[export] Instance queue_cond_eq_dec : EqDecision queue_cond.
Proof. solve_decision. Defined.
Inductive queue_call (T : Type) := PushCall (item : T) (wait : bool) | PopCall (wait : bool) | DrainCall.
Arguments PushCall {T} item wait.
Arguments PopCall {T} wait.
Arguments DrainCall {T}.

Section queues.
Context {T : Type}.
Import ProducerConsumerQueue.

Definition queue_run (k : queue_call T) (q : ProducerConsumerQueue.t T) : res (action (ProducerConsumerQueue.t T) queue_cond) :=
  match k with
  | PushCall item wait =>
      Ok match Push item wait q with
         | Blocked => Sleep queue_not_full_cond
         | Done (pushed, q) => Return q (if (pushed : bool) then [Signal queue_not_empty_cond] else [])
         end
  | PopCall wait =>
      Ok match Pop wait q with
         | Blocked => Sleep queue_not_empty_cond
         | Done (item, q) => Return q (match item with Some _ => [Signal queue_not_full_cond] | None => [] end)
         end
  | DrainCall => Ok (Return (Drain q) [Broadcast queue_not_empty_cond; Broadcast queue_not_full_cond])
  end.
#[export] Instance queue_monitor : Monitor (ProducerConsumerQueue.t T) (queue_call T) queue_cond := queue_run.

Definition queue_waits_on (k : queue_call T) : option queue_cond :=
  match k with
  | PushCall _ true => Some queue_not_full_cond
  | PopCall true => Some queue_not_empty_cond
  | _ => None
  end.
Definition queue_slots (c : queue_cond) (q : ProducerConsumerQueue.t T) : option Z :=
  if draining_ q then None
  else match c with
       | queue_not_empty_cond => Some (Z.of_nat (length (queue_ q)))
       | queue_not_full_cond => if 0 <? max_size_ q then Some (max_size_ q - Z.of_nat (length (queue_ q))) else None
       end.

#[export] Instance queue_slot_monitor : SlotMonitor (ProducerConsumerQueue.t T) (queue_call T) queue_cond.
Proof.
  refine {| waits_on := queue_waits_on; slots := queue_slots |}.
  - intros [item [] | [] | ] q c; unfold run, queue_monitor, queue_run, Push, Pop, QueueFull_Locked, queue_slots; simpl;
      repeat case_match; intros; simplify_eq/=; split; try done; eexists; (split; [done|]); simpl in *; lia.
  - intros [item [] | [] | ] q c n; unfold run, queue_monitor, queue_run, Push, Pop, QueueFull_Locked, queue_slots; simpl;
      repeat case_match; intros; simplify_eq/=; try done; lia.
  - intros k [max queue []] q' ws c n Hrun Hn Hb; [by destruct c|].
    destruct k as [item wait|wait|]; unfold run, queue_monitor, queue_run, Push, Pop, QueueFull_Locked in Hrun; simpl in Hrun.
    + destruct wait; simpl in Hrun; repeat case_match; simplify_eq/=; destruct c; unfold queue_slots, signals in *; simpl in *;
        repeat case_match; simplify_eq/=; eexists; (split; [done|]); rewrite ?length_app; simpl; lia.
    + destruct wait; simpl in Hrun; repeat case_match; simplify_eq/=; destruct c; unfold queue_slots, signals in *; simpl in *;
        repeat case_match; simplify_eq/=; eexists; (split; [done|]); simpl; lia.
    + simplify_eq. destruct Hb. destruct c; set_solver.
Qed.

Lemma queue_sleeps_full (k : queue_call T) q : run k q = Ok (Sleep queue_not_full_cond) → QueueFull_Locked q = true.
Proof.
  destruct k as [item []|wait|]; unfold run, queue_monitor, queue_run, Push; simpl; [| |by repeat case_match|done].
  - destruct (draining_ q), (QueueFull_Locked q); simpl; congruence.
  - destruct (draining_ q); congruence.
Qed.
Lemma queue_sleeps_empty (k : queue_call T) q : run k q = Ok (Sleep queue_not_empty_cond) → queue_ q = [].
Proof.
  destruct k as [item wait|[]|]; unfold run, queue_monitor, queue_run, Pop; simpl; [by repeat case_match| | |done].
  - destruct (draining_ q), (queue_ q); simpl; congruence.
  - destruct (queue_ q); simpl; congruence.
Qed.
End queues.

(** The critical sections under the mutex of [QuotaQueue]; the condition of a
    service is named by its id. *)
Inductive quota_call := ReserveCall (service_id : Z) (wait : bool) | ReleaseCall (service_id : Z)
  | AddServiceCall (service_id max_item_count : Z) | DrainServices.

Section quota.
Context {T : Type}.
Import QuotaQueue.

Definition find_service (service_id : Z) (q : QuotaQueue.t T) : option Service :=
  if 0 <=? service_id then mjoin (services_ q !! Z.to_nat service_id) else None.

(** [Drain] wakes the threads of every service. *)
Definition service_ids (q : QuotaQueue.t T) : list Z :=
  List.filter (fun i => match find_service i q with Some _ => true | None => false end)
    (Z.of_nat <$> seq 0 (length (services_ q))).

Definition quota_run (k : quota_call) (q : QuotaQueue.t T) : res (action (QuotaQueue.t T) Z) :=
  match k with
  | ReserveCall service_id wait =>
      r ← push_reserve service_id wait q;
      Ok match r with Blocked => Sleep service_id | Done (_, q) => Return q [] end
  | ReleaseCall service_id => q ← pop_release service_id q; Ok (Return q [Signal service_id])
  | AddServiceCall service_id max_item_count => q ← AddService service_id max_item_count q; Ok (Return q [])
  | DrainServices => Ok (Return (Drain q) (Broadcast <$> service_ids q))
  end.
#[export] Instance quota_monitor : Monitor (QuotaQueue.t T) quota_call Z := quota_run.

Definition service_slots (service : Service) : option Z :=
  if 0 <? max_item_count service then Some (max_item_count service - item_count service) else None.
Definition quota_slots (service_id : Z) (q : QuotaQueue.t T) : option Z :=
  if draining_ q then None else find_service service_id q ≫= service_slots.
Definition quota_waits_on (k : quota_call) : option Z :=
  match k with ReserveCall service_id true => Some service_id | _ => None end.

Lemma GetService_find id q service : GetService_Locked id q = Ok service ↔ find_service id q = Some service.
Proof.
  unfold GetService_Locked, find_service. destruct (Z.leb_spec 0 id); simpl; [|done].
  destruct (Z.ltb_spec id (Z.of_nat (length (services_ q)))) as [Hlt|Hge]; simpl.
  - destruct (lookup_lt_is_Some_2 (services_ q) (Z.to_nat id)) as [o ->]; [lia|]. simpl. destruct o; simpl; naive_solver.
  - rewrite lookup_ge_None_2 by lia. done.
Qed.

Lemma find_set_item id n service c q :
  find_service id q = Some service →
  find_service c (set_item_count id n service q) =
    if decide (c = id) then Some (mkService (max_item_count service) n) else find_service c q.
Proof.
  unfold find_service, set_item_count. simpl. destruct (Z.leb_spec 0 id); [|done]. intros Hid.
  destruct (services_ q !! Z.to_nat id) as [o|] eqn:E; [|done]. apply lookup_lt_Some in E.
  destruct (decide (c = id)) as [->|Hne].
  - rewrite (proj2 (Z.leb_le 0 id)) by lia. by rewrite list_lookup_insert_eq.
  - destruct (Z.leb_spec 0 c); [|done]. rewrite list_lookup_insert_ne by lia. done.
Qed.

Lemma find_add_service id max q q' c :
  AddService id max q = Ok q' → find_service c q ≠ None → find_service c q' = find_service c q.
Proof.
  unfold AddService. intros H Hc. apply bind_Ok in H as (? & Hid%CHECK_Ok & H). apply bind_Ok in H as (? & _ & H).
  apply bind_Ok in H as (? & Hnew%CHECK_Ok & [= <-]). unfold find_service in *. simpl.
  destruct (Z.leb_spec 0 c); [|done]. destruct (services_ q !! Z.to_nat c) as [o|] eqn:E; [|done].
  assert (Z.to_nat id ≠ Z.to_nat c) as Hne.
  { intros Heq. rewrite Heq, lookup_app_l, E in Hnew by (by eapply lookup_lt_Some). by destruct o. }
  rewrite list_lookup_insert_ne, lookup_app_l, E by (done || by eapply lookup_lt_Some). done.
Qed.

Lemma quota_slots_find c (q : QuotaQueue.t T) n : quota_slots c q = Some n →
  draining_ q = false ∧ ∃ service, find_service c q = Some service ∧ 0 < max_item_count service ∧
    n = max_item_count service - item_count service.
Proof.
  unfold quota_slots. destruct (draining_ q); [done|]. intros (service & Hf & Hs)%bind_Some. split; [done|].
  exists service. unfold service_slots in Hs. destruct (Z.ltb_spec 0 (max_item_count service)); by simplify_eq.
Qed.
Lemma quota_slots_set c (q : QuotaQueue.t T) service :
  draining_ q = false → find_service c q = Some service → 0 < max_item_count service →
  quota_slots c q = Some (max_item_count service - item_count service).
Proof. intros Hd Hf Hm. unfold quota_slots. rewrite Hd, Hf. simpl. unfold service_slots. by rewrite (proj2 (Z.ltb_lt _ _) Hm). Qed.

Lemma find_service_id c (q : QuotaQueue.t T) service : find_service c q = Some service → c ∈ service_ids q.
Proof.
  intros Hf. unfold service_ids. apply list_elem_of_In, List.filter_In. rewrite Hf. split; [|done].
  unfold find_service in Hf. destruct (Z.leb_spec 0 c); [|done].
  destruct (services_ q !! Z.to_nat c) as [o|] eqn:E; [|done]. apply list_elem_of_In, list_elem_of_fmap. exists (Z.to_nat c).
  rewrite elem_of_seq. split; [lia|]. apply lookup_lt_Some in E. lia.
Qed.

(** The count of one service changes. *)
Lemma quota_slots_count id n service c m q :
  GetService_Locked id q = Ok service → quota_slots c q = Some m →
  quota_slots c (set_item_count id n service q) =
    Some (if decide (c = id) then max_item_count service - n else m).
Proof.
  intros Hid%GetService_find Hm. destruct (quota_slots_find c q m Hm) as (Hd & sc & Hsc & Hpos & ->).
  pose proof (find_set_item id n service c q Hid) as Hf. destruct (decide (c = id)) as [->|Hne].
  - simplify_eq. by rewrite (quota_slots_set _ (set_item_count id n service q) _ Hd Hf Hpos).
  - rewrite Hsc in Hf. by rewrite (quota_slots_set _ (set_item_count id n service q) _ Hd Hf Hpos).
Qed.

#[export] Instance quota_slot_monitor : SlotMonitor (QuotaQueue.t T) quota_call Z.
Proof.
  refine {| waits_on := quota_waits_on; slots := quota_slots |}.
  - intros [id wait|id|id max|] q c Hrun; unfold run, quota_monitor, quota_run in Hrun; [|by apply bind_Ok in Hrun as (? & _ & ?)..|done].
    apply bind_Ok in Hrun as (r & Hr & Hrun). unfold push_reserve in Hr. apply bind_Ok in Hr as (service & Hs & [= <-]).
    destruct wait; simpl in *; [|by repeat case_match].
    destruct (draining_ q) eqn:Hd; simpl in *; [done|]. destruct (ServiceFull_Locked service) eqn:Hfull; simplify_eq/=.
    unfold ServiceFull_Locked in Hfull. apply andb_prop in Hfull as [Hm Hfull]. split; [done|].
    apply GetService_find in Hs. eexists. split; [apply (quota_slots_set _ _ service); [done|done|lia]|lia].
  - intros [id [] | | | ] q c n [= ->] Hn Hle. unfold run, quota_monitor, quota_run, push_reserve.
    destruct (quota_slots_find c q n Hn) as (Hd & service & Hf%GetService_find & Hpos & ->). rewrite Hf. simpl.
    unfold ServiceFull_Locked. rewrite Hd, (proj2 (Z.ltb_lt _ _) Hpos), (proj2 (Z.leb_le _ _)) by lia. done.
  - intros [id wait|id|id max|] q q' ws c n Hrun Hn Hb; unfold run, quota_monitor, quota_run in Hrun; simpl.
    + apply bind_Ok in Hrun as (r & Hr & Hrun). unfold push_reserve in Hr. apply bind_Ok in Hr as (service & Hs & [= <-]).
      destruct (quota_slots_find c q n Hn) as (Hd & sc & Hf & Hpos & ->). rewrite Hd in Hrun. simpl in Hrun.
      destruct (wait && ServiceFull_Locked service); simplify_eq/=. rewrite (quota_slots_count _ _ _ _ _ _ Hs Hn).
      eexists. split; [done|]. unfold signals. simpl. apply GetService_find in Hs.
      destruct (decide (c = id)) as [->|Hne]; simplify_eq; destruct wait; repeat case_decide; simplify_eq; lia.
    + apply bind_Ok in Hrun as (q1 & Hr & [= <- <-]). unfold pop_release in Hr. apply bind_Ok in Hr as (service & Hs & Hr).
      simpl in Hr. apply bind_Ok in Hr as (? & _ & [= <-]). rewrite (quota_slots_count _ _ _ _ _ _ Hs Hn). eexists. split; [done|].
      destruct (quota_slots_find c q n Hn) as (Hd & sc & Hf & Hpos & ->). apply GetService_find in Hs.
      unfold signals. rewrite filter_cons, filter_nil.
      destruct (decide (c = id)) as [->|Hne]; simplify_eq; repeat case_decide; simplify_eq/=; lia.
    + apply bind_Ok in Hrun as (q1 & Hr & [= <- <-]). destruct (quota_slots_find c q n Hn) as (Hd & sc & Hf & Hpos & ->).
      pose proof (find_add_service _ _ _ _ c Hr ltac:(by rewrite Hf)) as Hf'. rewrite Hf in Hf'.
      assert (draining_ q1 = false) as Hd'.
      { unfold AddService in Hr. do 3 (apply bind_Ok in Hr as (? & _ & Hr)). by injection Hr as <-. }
      rewrite (quota_slots_set _ _ _ Hd' Hf' Hpos). eexists. split; [done|]. unfold signals. simpl. lia.
    + simplify_eq. destruct (quota_slots_find c q n Hn) as (_ & sc & Hf & _). destruct Hb.
      apply list_elem_of_fmap. exists c. split; [done|]. by eapply find_service_id.
Qed.
End quota.

(** ** The other classes *)
Inductive notification_call := WaitCall | NotifyCall.
Definition notification_run (k : notification_call) (v : Notification.t) : res (action Notification.t unit) :=
  match k with
  | WaitCall => Ok match Notification.Wait v with Blocked => Sleep tt | Done _ => Return v [] end
  | NotifyCall => Ok (Return (Notification.Notify v) [Broadcast tt])
  end.
#[export] Instance notification_monitor : Monitor Notification.t notification_call unit := notification_run.
#[export] Instance notification_broadcast : BroadcastMonitor Notification.t notification_call unit.
Proof.
  intros [] v v' ws k' [] Hrun Hs; unfold run, notification_monitor, notification_run in Hrun; [|simplify_eq; right; set_solver].
  left. assert (v' = v) as -> by (by destruct (Notification.Wait v); simplify_eq). done.
Qed.

Inductive counter_call := WaitForZeroCall | DecrementCall.
Definition counter_run (k : counter_call) (v : ThreadSafeCounter.t) : res (action ThreadSafeCounter.t unit) :=
  match k with
  | WaitForZeroCall => r ← ThreadSafeCounter.WaitForZero v; Ok match r with Blocked => Sleep tt | Done _ => Return v [] end
  | DecrementCall =>
      v ← ThreadSafeCounter.Decrement v;
      Ok (Return v (if ThreadSafeCounter.value_ v =? 0 then [Broadcast tt] else []))
  end.
#[export] Instance counter_monitor : Monitor ThreadSafeCounter.t counter_call unit := counter_run.
#[export] Instance counter_broadcast : BroadcastMonitor ThreadSafeCounter.t counter_call unit.
Proof.
  intros [] v v' ws k' [] Hrun Hs; unfold run, counter_monitor, counter_run in *.
  - left. apply bind_Ok in Hrun as (r & _ & Hrun). by destruct r; simplify_eq.
  - apply bind_Ok in Hrun as (v1 & Hd & [= <- <-]). unfold ThreadSafeCounter.Decrement in Hd.
    apply bind_Ok in Hd as (? & Hv%CHECK_Ok & [= <-]). simpl. destruct (Z.eqb_spec (ThreadSafeCounter.value_ v - 1) 0); [right; set_solver|].
    left. destruct k'; [|by apply bind_Ok in Hs as (? & _ & ?)]. unfold ThreadSafeCounter.WaitForZero. simpl.
    by rewrite (proj2 (Z.ltb_lt _ _)) by lia.
Qed.

Inductive state_call := WaitForStateCall (mask : Z) | WaitForNotStateCall (mask : Z) | ChangeStateCall (new_state : Z).
Definition state_run (k : state_call) (v : StateVariable.t) : res (action StateVariable.t unit) :=
  match k with
  | WaitForStateCall mask => r ← StateVariable.WaitForState mask v; Ok match r with Blocked => Sleep tt | Done _ => Return v [] end
  | WaitForNotStateCall mask => r ← StateVariable.WaitForNotState mask v; Ok match r with Blocked => Sleep tt | Done _ => Return v [] end
  | ChangeStateCall new_state => v ← StateVariable.ChangeState new_state v; Ok (Return v [Broadcast tt])
  end.
#[export] Instance state_monitor : Monitor StateVariable.t state_call unit := state_run.
#[export] Instance state_broadcast : BroadcastMonitor StateVariable.t state_call unit.
Proof.
  intros [] v v' ws k' [] Hrun Hs; unfold run, state_monitor, state_run in Hrun; apply bind_Ok in Hrun as (r & _ & Hrun).
  - left. by destruct r; simplify_eq.
  - left. by destruct r; simplify_eq.
  - simplify_eq. right. set_solver.
Qed.

(** C22 (liveness). No wake-up is lost.  Any number of threads call the operations of
    a producer-consumer queue, a quota queue, a notification, a counter or a state
    variable; they sleep on its condition variables, are woken one by one or all at
    once, or without a reason, and run in any order.  Whenever all woken threads have
    run, each thread that still sleeps has to: its call would sleep in the present
    state too.  So, for the queue, it never happens that some threads sleep because it
    is full and others because it is empty. *)
Theorem no_wakeup_is_lost {T} (q : ProducerConsumerQueue.t T) (quota : QuotaQueue.t T) (v : Notification.t)
    (counter : ThreadSafeCounter.t) (state : StateVariable.t) :
  keeps_waking q ∧ keeps_waking quota ∧ keeps_waking v ∧ keeps_waking counter ∧ keeps_waking state ∧
  ∀ n q' ts i j k1 k2, rtc monitor_step (q, replicate n Idle) (q', ts) → Forall (fun t => is_woken t = false) ts →
    ts !! i = Some (Asleep queue_not_full_cond k1) → ts !! j = Some (Asleep queue_not_empty_cond k2) → False.
Proof.
  assert (Hq : keeps_waking q) by apply slot_monitor_keeps_waking.
  split_and!; [done|apply slot_monitor_keeps_waking|apply broadcast_monitor_keeps_waking..|].
  intros n q' ts i j k1 k2 Hreach Hw Hi Hj. pose proof (queue_sleeps_full _ _ (Hq _ _ _ Hreach Hw _ _ _ Hi)) as Hfull.
  pose proof (queue_sleeps_empty _ _ (Hq _ _ _ Hreach Hw _ _ _ Hj)) as Hempty.
  unfold ProducerConsumerQueue.QueueFull_Locked in Hfull. rewrite Hempty in Hfull.
  apply andb_prop in Hfull as [?%Z.ltb_lt ?%Z.leb_le]. simpl in *. lia.
Qed.

(** A thread that pops an empty queue sleeps, and is woken by one that pushes. *)
Example pop_waits_for_push : ∃ q,
  ProducerConsumerQueue.New (T := Z) 2 = Ok q ∧
  rtc monitor_step (q, replicate 2 Idle) (q, [Asleep queue_not_empty_cond (PopCall true); Idle]) ∧
  rtc monitor_step (q, [Asleep queue_not_empty_cond (PopCall true); Idle])
    (ProducerConsumerQueue.mk 2 [7] false, [Woken (PopCall true); Idle]).
Proof.
  eexists. split; [reflexivity|]. split; apply rtc_once.
  - apply (step_call 0%nat (PopCall true)); [done|]. by apply (runs_sleep 0%nat (PopCall true) _ [Idle; Idle]).
  - apply (step_call 1%nat (PushCall 7 true)); [done|]. eapply runs_return; [reflexivity|].
    eapply wakes_cons; [apply (wakes_one _ _ 0%nat); reflexivity|apply wakes_nil].
Qed.

(** ** Timed waits *)

(** A timed wait ends with the first look that finds the state it waits for, or a
    time after the deadline. *)
Theorem timed_wait_ends {S} (waiting : S → bool) deadline (looks : nat → S * Z) i fuel :
  (i < fuel)%nat → waiting (looks i).1 = false ∨ deadline < (looks i).2 →
  (∀ j, (j < i)%nat → waiting (looks j).1 = true ∧ (looks j).2 ≤ deadline) →
  timed_wait fuel waiting deadline looks = Some (looks i).1.
Proof.
  revert i looks. induction fuel as [|fuel IH]; intros i looks Hi Hend Hbefore; [lia|]. simpl. destruct i as [|i].
  - destruct (waiting (looks 0%nat).1); simpl; [|done]. destruct Hend as [?|Hend]; [done|].
    by rewrite (proj2 (Z.leb_gt _ _)).
  - destruct (Hbefore 0%nat) as [-> Hle]; [lia|]. rewrite (proj2 (Z.leb_le _ _)) by done. simpl.
    apply (IH i (fun j => looks (Datatypes.S j))); [lia|done|]. intros j Hj. apply Hbefore. lia.
Qed.

(** A timeout of 2147484 milliseconds, or 36 minutes, is too long. *)
Example long_timeout_overflows looks :
  Notification.WaitWithTimeout 5 2147483 0 (fun i => (Notification.mk true, 0)) = Ok (Some true) ∧
  Notification.WaitWithTimeout 5 2147484 0 looks = Undef ∧
  ThreadSafeCounter.WaitForZeroWithTimeout 5 2147484 0 (fun i => (ThreadSafeCounter.mk 0, 0)) = Undef.
Proof. split_and!; reflexivity. Qed.

(** ** Signals ([util/signal_handler.cc]) *)
Module SignalHandler.
(** Where the thread is in [WaitForSignal]. *)
Inductive place := Before | AboutToSuspend | Suspended | Returned.

(** The signals SIGINT and SIGTERM: whether one is pending, whether they are blocked,
    and whether [HandleSignal] is installed. *)
Record t := mk {
  g_exit_requested : bool;
  blocked : bool;
  installed : bool;
  pending : bool;
  at_ : place;
}.

Definition HandleSignal (s : t) : t := mk true (blocked s) (installed s) (pending s) (at_ s).

(** Blocks the signals, then installs the handler. *)
Definition InstallSignalHandler (s : t) : t := mk (g_exit_requested s) true true (pending s) (at_ s).

(** The test of the loop of [WaitForSignal]. *)
Definition wait_test (s : t) : t :=
  mk (g_exit_requested s) (blocked s) (installed s) (pending s) (if g_exit_requested s then Returned else AboutToSuspend).

(** [sigsuspend] with an empty mask: the signals are let through and the thread
    sleeps, in one step; a pending signal is handled at once, and the signals are
    blocked again. *)
Definition sigsuspend (s : t) : t :=
  if pending s then HandleSignal (mk (g_exit_requested s) (blocked s) (installed s) false Before)
  else mk (g_exit_requested s) (blocked s) (installed s) false Suspended.

(** A signal arrives; [None]: it ends the process. *)
Definition deliver (s : t) : option t :=
  match at_ s with
  | Suspended =>
      if installed s then Some (HandleSignal (mk (g_exit_requested s) (blocked s) (installed s) (pending s) Before)) else None
  | _ =>
      if blocked s then Some (mk (g_exit_requested s) (blocked s) (installed s) true (at_ s))
      else if installed s then Some (HandleSignal s) else None
  end.

Inductive step : t → t → Prop :=
| step_test s : at_ s = Before → step s (wait_test s)
| step_suspend s : at_ s = AboutToSuspend → step s (sigsuspend s)
| step_signal s s' : deliver s = Some s' → step s s'.

Definition start : t := InstallSignalHandler (mk false false false false Before).

(** What is true while the process waits: a signal that came is not forgotten. *)
Record inv (came : bool) (s : t) : Prop := {
  inv_blocked : blocked s = true;
  inv_installed : installed s = true;
  inv_came : came = g_exit_requested s || pending s;
  inv_suspended : at_ s = Suspended → came = false;
  inv_about : at_ s = AboutToSuspend → g_exit_requested s = false;
  inv_returned : at_ s = Returned → g_exit_requested s = true;
}.

Lemma inv_start : inv false start.
Proof. by split. Qed.
Lemma inv_deliver came s : inv came s → ∃ s', deliver s = Some s' ∧ inv true s'.
Proof.
  intros [Hb Hi Hc Hs Ha Hr]. destruct s as [g b i p []]; simpl in *; subst; unfold deliver; simpl;
    eexists; (split; [done|]); split; simpl; try done; by rewrite ?orb_true_r.
Qed.
Lemma inv_step came s : inv came s →
  (at_ s = Before → inv came (wait_test s)) ∧ (at_ s = AboutToSuspend → inv came (sigsuspend s)).
Proof.
  intros [Hb Hi Hc Hs Ha Hr]. destruct s as [g b i p a]; simpl in *; subst. split; intros ->.
  - destruct g; by split.
  - rewrite Ha in * by done. destruct p; by split.
Qed.

(** Signals are let through only while the thread sleeps, so none is lost between
    the test of the flag and the sleep: once a signal has come, the thread does not
    sleep, and it returns after at most three steps of its own. *)
Theorem signal_ends_wait came s :
  inv came s → came = true → at_ s ≠ Suspended ∧
  ∃ s', nsteps (fun s s' => (at_ s = Before ∧ s' = wait_test s) ∨ (at_ s = AboutToSuspend ∧ s' = sigsuspend s))
    (match at_ s with Returned | Suspended => 0 | Before => if g_exit_requested s then 1 else 3 | AboutToSuspend => 2 end) s s' ∧
    at_ s' = Returned.
Proof.
  intros [Hb Hi Hc Hs Ha Hr] ->. split; [by intros ?%Hs|].
  destruct s as [g b i p []]; simpl in *; subst.
  - destruct g; simpl in *.
    + eexists. split; [apply nsteps_once; by left|done].
    + subst. eexists. split; [|]. eapply nsteps_l; [by left|]. eapply nsteps_l; [by right|]. apply nsteps_once. by left. done.
  - rewrite Ha in * by done. simpl in *. subst. eexists. split; [eapply nsteps_l; [by right|]; apply nsteps_once; by left|done].
  - by specialize (Hs eq_refl).
  - eexists. split; [apply nsteps_O|done].
Qed.

(** [main] of [bin/floating_toy_lang.cc] installs the handler and never waits: however
    many signals come, none is handled. *)
Lemma never_handled n s : nsteps (fun s s' => deliver s = Some s') n start s → g_exit_requested s = false ∧ at_ s = Before.
Proof.
  assert (∀ s0, blocked s0 = true → at_ s0 = Before → g_exit_requested s0 = false →
    nsteps (fun s s' => deliver s = Some s') n s0 s → g_exit_requested s = false ∧ at_ s = Before) as Hn; [|by apply Hn].
  induction n as [|n IH]; intros s0 Hb Ha Hg Hs; inversion Hs as [|? ? s1 ? Hd Hs1]; simplify_eq; [done|].
  unfold deliver in Hd. rewrite Ha, Hb in Hd. injection Hd as <-. by eapply IH; [..|exact Hs1].
Qed.
End SignalHandler.
