(* ===== verification/ProtocolServer.v ===== *)
(** * The protocol server's threads

    [protocol_server/protocol_server.h]: connections move between a queue of
    connections that are ready, the threads that send and receive on them, a set
    of blocked connections, and the thread that waits in [select].  A connection
    is not protected by a lock; that no two threads use it at once, and that none
    is forgotten, depends on these moves.

    A [ProtocolConnectionImpl] pointer is a number; [None] is the null pointer
    that stands for the listening socket.  The statements of a thread between two
    accesses to shared data are one step.  What the sockets and [select] report
    are inputs. *)
From S2P Require Import Prelude Varint Protocol Queues.
From stdpp Require Import base tactics list gmap sets.
From Stdlib Require Import ZArith Lia.

Module ProtocolServer.
Section server.
Context {H Msg : Type} `{ProtoMessage Msg} `{ConnectionHandler H Msg}.

(** Where the select thread is in its loop, with the connections of
    [blocked_connections_temp] it has to visit, keeps, or has to put back. *)
Inductive select_state :=
| SelTop
| SelScan (to_visit kept : list (option nat))
| SelDistribute (kept : list (option nat)).

Record t := mk {
  ready_connections_ : ProducerConsumerQueue.t (option nat);
  blocked_connections_ : gset (option nat);
  select_thread_ : select_state;
  (** the connections that send/receive threads have taken *)
  in_hand : list (option nat);
  connections : gmap nat (ProtocolConnectionImpl.t H);
  (** the calls of [NotifyConnectionClosed] *)
  closed : list nat;
  next_pointer : nat;
}.

Definition set_ready x s := mk x (blocked_connections_ s) (select_thread_ s) (in_hand s)
  (connections s) (closed s) (next_pointer s).
Definition set_blocked x s := mk (ready_connections_ s) x (select_thread_ s) (in_hand s)
  (connections s) (closed s) (next_pointer s).
Definition set_select x s := mk (ready_connections_ s) (blocked_connections_ s) x (in_hand s)
  (connections s) (closed s) (next_pointer s).
Definition set_in_hand x s := mk (ready_connections_ s) (blocked_connections_ s) (select_thread_ s) x
  (connections s) (closed s) (next_pointer s).
Definition set_connection i x s := mk (ready_connections_ s) (blocked_connections_ s)
  (select_thread_ s) (in_hand s) (<[i := x]> (connections s)) (closed s) (next_pointer s).
Definition close_connection i s := mk (ready_connections_ s) (blocked_connections_ s)
  (select_thread_ s) (in_hand s) (delete i (connections s)) (closed s ++ [i]) (next_pointer s).

Definition AddConnectionToReadyConnections (connection : option nat) (s : t) : res t :=
  match ProducerConsumerQueue.Push connection false (ready_connections_ s) with
  | Done (true, q) => Ok (set_ready q s)
  | _ => Fatal
  end.

(** [CHECK(blocked_connections_.insert(connection).second)]. *)
Definition insert_blocked (connection : option nat) (s : t) : res t :=
  _ ← CHECK (bool_decide (connection ∉ blocked_connections_ s));
  Ok (set_blocked ({[connection]} ∪ blocked_connections_ s) s).

(** The end of [Start]. *)
Definition Start : res t :=
  q ← ProducerConsumerQueue.New (-1);
  AddConnectionToReadyConnections None (mk q ∅ SelTop [] ∅ [] 0).

(** The handler is the given one, or the one the server's handler returns for a
    connection it received. *)
Definition CreateConnection (socket_fd : Z) (handler : H) (s : t) : res t :=
  c ← ProtocolConnectionImpl.New socket_fd;
  c ← ProtocolConnectionImpl.Init handler c;
  let i := next_pointer s in
  AddConnectionToReadyConnections (Some i)
    (mk (ready_connections_ s) (blocked_connections_ s) (select_thread_ s) (in_hand s)
       (<[i := c]> (connections s)) (closed s) (S i)).

(** [OpenConnection]: [socket_fd] is -1 when the host cannot be reached. *)
Definition OpenConnection (socket_fd : Z) (handler : H) (s : t) : res t :=
  if (socket_fd =? -1)%Z then Ok s else CreateConnection socket_fd handler s.

(** [AcceptSingleConnection]: the result and the state. *)
Definition AcceptSingleConnection (accepted : option (Z * H)) (s : t) : res (bool * t) :=
  match accepted with
  | None => Ok (false, s)
  | Some (fd, handler) => s' ← CreateConnection fd handler s; Ok (true, s')
  end.

(** What a send/receive thread finds at the sockets. *)
Record io := { io_accept : option (Z * H); io_recv : recv_result; io_send : send_result }.

(** [GetNextReadyConnection], when the queue is not empty. *)
Definition take_ready (s : t) : option t :=
  match ProducerConsumerQueue.Pop true (ready_connections_ s) with
  | Done (Some c, q) => Some (set_in_hand (c :: in_hand s) (set_ready q s))
  | _ => None
  end.

(** The loop body of [SendAndReceiveData] for the connection the thread has
    taken (which is no longer [in_hand s]): whether it is now blocked. *)
Definition serve_connection (connection : option nat) (x : io) (s : t) : res (bool * t) :=
  match connection with
  | None =>
      '(accepted, s') ← AcceptSingleConnection (io_accept x) s;
      Ok (negb accepted, s')
  | Some i =>
      c ← deref (connections s !! i);
      '(c, _) ← ProtocolConnectionImpl.SendAndReceive (Msg := Msg) (io_recv x) (io_send x) c;
      if ProtocolConnectionImpl.close_requested_ c then Ok (true, set_connection i c s)
      else
        '(b, c) ← ProtocolConnectionImpl.IsBlocked (Msg := Msg) c;
        Ok (b, set_connection i c s)
  end.

Definition serve (connection : option nat) (x : io) (s : t) : res t :=
  '(blocked, s) ← serve_connection connection x s;
  if (blocked : bool) then insert_blocked connection s
  else AddConnectionToReadyConnections connection s.

(** The start of an iteration of [DoSelectLoop]: the swap. *)
Definition select_swap (s : t) : t :=
  set_select (SelScan (elements (blocked_connections_ s)) []) (set_blocked ∅ s).

(** The body of its first loop, for one connection. *)
Definition select_visit (connection : option nat) (to_visit kept : list (option nat)) (s : t) : res t :=
  match connection with
  | None => Ok (set_select (SelScan to_visit (kept ++ [None])) s)
  | Some i =>
      c ← deref (connections s !! i);
      if ProtocolConnectionImpl.close_requested_ c then
        Ok (set_select (SelScan to_visit kept) (close_connection i s))
      else
        '(b, c) ← ProtocolConnectionImpl.IsBlocked (Msg := Msg) c;
        if (b : bool) then
          '(_, c) ← ProtocolConnectionImpl.PrivateHasOutputData (Msg := Msg) c;
          Ok (set_select (SelScan to_visit (kept ++ [Some i])) (set_connection i c s))
        else
          s' ← AddConnectionToReadyConnections (Some i) (set_connection i c s);
          Ok (set_select (SelScan to_visit kept) s')
  end.

(** The body of its second loop, after [select]. *)
Definition select_put_back (connection : option nat) (rest : list (option nat)) (ready : bool) (s : t) :
    res t :=
  s' ← (if ready then AddConnectionToReadyConnections connection s else insert_blocked connection s);
  Ok (set_select (SelDistribute rest) s').

(** [Stop], after the threads have been joined: every connection in the queue
    and in the set, each of which must be new. *)
Fixpoint insert_all (l : list (option nat)) (all : gset nat) : res (gset nat) :=
  match l with
  | [] => Ok all
  | None :: l' => insert_all l' all
  | Some i :: l' =>
      _ ← CHECK (bool_decide (i ∉ all));
      insert_all l' ({[i]} ∪ all)
  end.

Definition stop_collect (s : t) : res (gset nat) :=
  all ← insert_all (ProducerConsumerQueue.queue_ (ready_connections_ s)) ∅;
  insert_all (elements (blocked_connections_ s)) all.

End server.
Arguments t : clear implicits.
Arguments io : clear implicits.
End ProtocolServer.

(** * Every connection is in one place *)
Section scheduling.
Context {H Msg : Type} `{ProtoMessage Msg} `{ConnectionHandler H Msg}.
Import ProtocolServer.
Abbreviation server := (t H).

(** One step of a thread. *)
Inductive server_step (s s' : server) : Prop :=
| st_open fd h : OpenConnection fd h s = Ok s' → server_step s s'
| st_take : take_ready s = Some s' → server_step s s'
| st_serve c x hs hs' : in_hand s = hs ++ c :: hs' →
    serve (Msg := Msg) c x (set_in_hand (hs ++ hs') s) = Ok s' → server_step s s'
| st_swap : select_thread_ s = SelTop → s' = select_swap s → server_step s s'
| st_visit c l k : select_thread_ s = SelScan (c :: l) k →
    select_visit (Msg := Msg) c l k s = Ok s' → server_step s s'
| st_select k : select_thread_ s = SelScan [] k → s' = set_select (SelDistribute k) s → server_step s s'
| st_put_back c l r : select_thread_ s = SelDistribute (c :: l) →
    select_put_back c l r s = Ok s' → server_step s s'
| st_loop : select_thread_ s = SelDistribute [] → s' = set_select SelTop s → server_step s s'
| st_drain : s' = set_ready (ProducerConsumerQueue.Drain (ready_connections_ s)) s → server_step s s'.

Definition cnt (c : option nat) (l : list (option nat)) : nat := length (filter (eq c) l).

Lemma cnt_nil c : cnt c [] = 0.
Proof. done. Qed.
Lemma cnt_cons c d l : cnt c (d :: l) = (if decide (c = d) then 1 else 0) + cnt c l.
Proof. unfold cnt. rewrite filter_cons. by destruct (decide _). Qed.
Lemma cnt_app c l l' : cnt c (l ++ l') = cnt c l + cnt c l'.
Proof. unfold cnt. by rewrite filter_app, length_app. Qed.
Lemma cnt_zero c l : cnt c l = 0 ↔ c ∉ l.
Proof.
  induction l as [|d l IH]; [rewrite cnt_nil; set_solver|].
  rewrite cnt_cons, not_elem_of_cons, <- IH. destruct (decide _); split; try lia; naive_solver.
Qed.
Lemma cnt_elements (c : option nat) (X : gset (option nat)) : cnt c (elements X) = if decide (c ∈ X) then 1 else 0.
Proof.
  assert (NoDup (elements X) → cnt c (elements X) = if decide (c ∈ elements X) then 1 else 0) as Hc.
  { intros Hnd. induction Hnd as [|d l Hd Hnd IH]; [done|]. rewrite cnt_cons, IH.
    repeat case_decide; set_solver. }
  rewrite Hc by apply NoDup_elements. repeat case_decide; set_solver.
Qed.

#[local] Arguments cnt : simpl never.
#[local] Arguments decide : simpl never.

Definition select_items (s : server) : list (option nat) :=
  match select_thread_ s with
  | SelTop => []
  | SelScan l k => l ++ k
  | SelDistribute k => k
  end.

(** In how many places a connection is. *)
Definition places (c : option nat) (s : server) : nat :=
  cnt c (ProducerConsumerQueue.queue_ (ready_connections_ s)) +
  (if decide (c ∈ blocked_connections_ s) then 1 else 0) +
  cnt c (select_items s) + cnt c (in_hand s).

(** The listening socket and the open connections are each in one place. *)
Definition expected (c : option nat) (s : server) : nat :=
  match c with
  | None => 1
  | Some i => if decide (i ∈ dom (connections s)) then 1 else 0
  end.

Definition server_inv (s : server) : Prop :=
  (∀ c, places c s = expected c s) ∧
  (∀ i, i ∈ dom (connections s) → i < next_pointer s).

(** What a helper does to the places, relative to where [c] is put. *)
Lemma add_ready_places c s s' : AddConnectionToReadyConnections c s = Ok s' →
  (∀ d, places d s' = (if decide (d = c) then 1 else 0) + places d s) ∧
  connections s' = connections s ∧ next_pointer s' = next_pointer s ∧
  select_thread_ s' = select_thread_ s.
Proof.
  unfold AddConnectionToReadyConnections, ProducerConsumerQueue.Push. cbn [andb].
  destruct (ProducerConsumerQueue.draining_ _); [done|]. intros [= <-]. split; [|done].
  intros d. unfold places, select_items. cbn. rewrite cnt_app, cnt_cons, cnt_nil. lia.
Qed.

Lemma insert_blocked_places c s s' : insert_blocked c s = Ok s' →
  (∀ d, places d s' = (if decide (d = c) then 1 else 0) + places d s) ∧
  connections s' = connections s ∧ next_pointer s' = next_pointer s ∧
  select_thread_ s' = select_thread_ s.
Proof.
  unfold insert_blocked. intros Hb. apply bind_Ok in Hb as (? & Hc & Hb).
  rewrite CHECK_Ok, bool_decide_eq_true in Hc. injection Hb as <-. split; [|done].
  intros d. unfold places, select_items. cbn. repeat case_decide; set_solver by lia.
Qed.

(** Changes that move nothing. *)
Lemma places_set_connection c i x s : places c (set_connection i x s) = places c s.
Proof. done. Qed.

Lemma create_places fd h s s' : server_inv s → CreateConnection fd h s = Ok s' →
  server_inv s' ∧ (∀ d, places d s' = (if decide (d = Some (next_pointer s)) then 1 else 0) + places d s) ∧
  dom (connections s') = {[next_pointer s]} ∪ dom (connections s).
Proof.
  intros [Hpl Hnext] Hc. unfold CreateConnection in Hc.
  apply bind_Ok in Hc as (c & _ & Hc). apply bind_Ok in Hc as (c' & _ & Hc).
  apply add_ready_places in Hc as (Hp & Hconn & Hn & _).
  set (s1 := mk _ _ _ _ _ _ _) in *. cbn in Hconn, Hn.
  assert (∀ d, places d s1 = places d s) as Hs1 by done.
  assert (dom (connections s') = {[next_pointer s]} ∪ dom (connections s)) as Hdom
    by (rewrite Hconn; by rewrite dom_insert_L).
  split_and!; [|intros d; by rewrite Hp, Hs1|done]. split.
  - intros d. rewrite Hp, Hs1, Hpl. unfold expected. rewrite Hdom. destruct d as [i|]; [|by case_decide].
    assert (next_pointer s ∉ dom (connections s)) by (intros Hin%Hnext; lia).
    repeat case_decide; set_solver by lia.
  - intros i. rewrite Hn, Hdom, elem_of_union, elem_of_singleton.
    intros [->|Hi%Hnext]; lia.
Qed.

Lemma server_inv_conn s i x : i ∈ dom (connections s) → server_inv s → server_inv (set_connection i x s).
Proof.
  intros Hi [Hpl Hn]. assert (dom (connections (set_connection i x s)) = dom (connections s)) as Hd.
  { cbn. rewrite dom_insert_L. set_solver. }
  split; [intros c; rewrite places_set_connection, Hpl; unfold expected; by rewrite Hd|].
  rewrite Hd. exact Hn.
Qed.

(** Putting a connection that is nowhere back into the queue or the set. *)
Lemma server_inv_put c s s' :
  (∀ d, places d s' = (if decide (d = c) then 1 else 0) + places d s) →
  connections s' = connections s → next_pointer s' = next_pointer s →
  (∀ d, (if decide (d = c) then 1 else 0) + places d s = expected d s) →
  (∀ i, i ∈ dom (connections s) → i < next_pointer s) → server_inv s'.
Proof.
  intros Hp Hc Hn He Hlt. split.
  - intros d. rewrite Hp, He. unfold expected. by rewrite Hc.
  - intros i. rewrite Hc, Hn. apply Hlt.
Qed.

(** The state with [c] in a thread's hands, and nowhere else. *)
Definition held_inv (c : option nat) (s : server) : Prop :=
  (∀ d, (if decide (d = c) then 1 else 0) + places d s = expected d s) ∧
  (∀ i, i ∈ dom (connections s) → i < next_pointer s).

Lemma held_inv_conn c s i x : is_Some (connections s !! i) → held_inv c s →
  held_inv c (set_connection i x s).
Proof.
  intros Hi%elem_of_dom [He Hn].
  assert (dom (connections (set_connection i x s)) = dom (connections s)) as Hd.
  { cbn. rewrite dom_insert_L. set_solver. }
  split; [intros d; rewrite places_set_connection, He; unfold expected; by rewrite Hd|].
  rewrite Hd. exact Hn.
Qed.

Lemma held_inv_create c fd h s s' : held_inv c s → CreateConnection fd h s = Ok s' → held_inv c s'.
Proof.
  intros [He Hn] Hb. unfold CreateConnection in Hb. apply bind_Ok in Hb as (c1 & _ & Hb).
  apply bind_Ok in Hb as (c2 & _ & Hb). apply add_ready_places in Hb as (Hp & Hconn & Hnx & _).
  assert (next_pointer s ∉ dom (connections s)) by (intros Hin%Hn; lia).
  cbn in Hconn, Hnx. split.
  - intros d. rewrite Hp. specialize (He d).
    change (places d (mk _ _ _ _ _ _ _)) with (places d s). unfold expected in *.
    rewrite Hconn, dom_insert_L. destruct d as [j|]; repeat case_decide; set_solver by lia.
  - rewrite Hconn, Hnx. intros j. rewrite dom_insert_L, elem_of_union, elem_of_singleton.
    intros [->|Hj%Hn]; lia.
Qed.

Lemma serve_connection_held c x s b s' : held_inv c s →
  serve_connection (Msg := Msg) c x s = Ok (b, s') → held_inv c s'.
Proof.
  intros Hi Hs. destruct c as [i|]; cbn [serve_connection] in Hs.
  - apply bind_Ok in Hs as (cn & Hcn & Hs). apply deref_Ok in Hcn.
    apply bind_Ok in Hs as ([c1 o] & _ & Hs). destruct (ProtocolConnectionImpl.close_requested_ c1).
    + injection Hs as _ <-. apply held_inv_conn; [eauto|done].
    + apply bind_Ok in Hs as ([b2 c2] & _ & Hs). injection Hs as _ <-. apply held_inv_conn; [eauto|done].
  - apply bind_Ok in Hs as ([a s3] & Ha & Hs). injection Hs as _ <-.
    unfold AcceptSingleConnection in Ha. destruct (io_accept x) as [[fd h]|]; [|by injection Ha as _ <-].
    apply bind_Ok in Ha as (s4 & Hc & Ha). injection Ha as _ <-. by eapply held_inv_create.
Qed.

Lemma put_back_inv (ready : bool) c s s' : held_inv c s →
  (if ready then AddConnectionToReadyConnections c s else insert_blocked c s) = Ok s' → server_inv s'.
Proof.
  intros [He Hn] Hp. apply (server_inv_put c s);
    [| | |exact He|exact Hn]; destruct ready;
    [apply add_ready_places in Hp|apply insert_blocked_places in Hp|apply add_ready_places in Hp
    |apply insert_blocked_places in Hp|apply add_ready_places in Hp|apply insert_blocked_places in Hp];
    by destruct Hp as (? & ? & ? & _).
Qed.

Lemma serve_inv c x hs hs' s s' : server_inv s → in_hand s = hs ++ c :: hs' →
  serve (Msg := Msg) c x (set_in_hand (hs ++ hs') s) = Ok s' → server_inv s'.
Proof.
  intros [Hpl Hn] Hh Hs. unfold serve in Hs. apply bind_Ok in Hs as ([blocked s2] & Hb & Hs).
  apply serve_connection_held in Hb.
  - destruct blocked; [apply (put_back_inv false) in Hs|apply (put_back_inv true) in Hs]; done.
  - split; [|exact Hn]. intros d. change (expected d (set_in_hand _ s)) with (expected d s).
    rewrite <- Hpl. unfold places, select_items. cbn. rewrite Hh, !cnt_app, cnt_cons. lia.
Qed.

(** Taking a connection out of the select thread's lists. *)
Lemma select_held c s st : server_inv s →
  (∀ d, cnt d (select_items s) =
     (if decide (d = c) then 1 else 0) + cnt d (select_items (set_select st s))) →
  held_inv c (set_select st s).
Proof.
  intros [Hpl Hn] Hst. split; [|exact Hn]. intros d. change (expected d (set_select st s)) with (expected d s).
  rewrite <- Hpl. unfold places. cbn [ready_connections_ blocked_connections_ in_hand set_select].
  rewrite (Hst d). lia.
Qed.

Lemma visit_inv c l k s s' : server_inv s → select_thread_ s = SelScan (c :: l) k →
  select_visit (Msg := Msg) c l k s = Ok s' → server_inv s'.
Proof.
  intros Hi Hst Hv.
  assert (held_inv c (set_select (SelScan l k) s)) as Hheld.
  { apply select_held; [done|]. intros d. unfold select_items. rewrite Hst. cbn. rewrite cnt_cons. lia. }
  assert (∀ y, held_inv c (set_select (SelScan l k) y) → server_inv (set_select (SelScan l (k ++ [c])) y)) as Hkeep.
  { intros y [He Hn]. split; [|exact Hn]. intros d.
    change (expected d (set_select _ y)) with (expected d (set_select (SelScan l k) y)).
    rewrite <- He. unfold places, select_items. cbn. rewrite !cnt_app, cnt_cons, cnt_nil. lia. }
  destruct c as [i|]; cbn [select_visit] in Hv; [|injection Hv as <-; by apply Hkeep].
  apply bind_Ok in Hv as (cn & Hcn & Hv). apply deref_Ok in Hcn.
  destruct (ProtocolConnectionImpl.close_requested_ cn).
  - injection Hv as <-. destruct Hheld as [He Hn]. split.
    + intros d. change (places d (set_select _ (close_connection i s))) with
        (places d (set_select (SelScan l k) s)).
      specialize (He d). unfold expected in *. cbn in *. rewrite dom_delete_L.
      apply elem_of_dom_2 in Hcn. destruct d as [j|]; repeat case_decide; set_solver by lia.
    + cbn. intros j. rewrite dom_delete_L. intros Hj. apply Hn. cbn. set_solver.
  - apply bind_Ok in Hv as ([b c1] & _ & Hv). destruct b.
    + apply bind_Ok in Hv as ([b2 c2] & _ & Hv). injection Hv as <-. apply Hkeep.
      by apply (held_inv_conn (Some i) (set_select (SelScan l k) s)).
    + apply bind_Ok in Hv as (s2 & Hadd & Hv). injection Hv as <-.
      apply (put_back_inv true (Some i) (set_connection i c1 (set_select (SelScan l k) s))).
      * by apply held_inv_conn.
      * revert Hadd. unfold AddConnectionToReadyConnections, ProducerConsumerQueue.Push. cbn.
        destruct (ProducerConsumerQueue.draining_ _); [done|]. by intros [= <-].
Qed.

(** A step that only moves connections. *)
Lemma move_inv s s' : server_inv s → (∀ d, places d s' = places d s) →
  connections s' = connections s → next_pointer s' = next_pointer s → server_inv s'.
Proof.
  intros [Hpl Hn] Hp Hc Hx. split.
  - intros d. rewrite Hp, Hpl. unfold expected. by rewrite Hc.
  - rewrite Hc, Hx. exact Hn.
Qed.

Lemma server_step_inv s s' : server_inv s → server_step s s' → server_inv s'.
Proof.
  intros Hi [fd h Ho|Ht|c x hs hs' Hh Hs|Hst ->|c l k Hst Hv|k Hst ->|c l r Hst Hp|Hst ->| ->].
  - unfold OpenConnection in Ho. destruct (fd =? -1)%Z; [by injection Ho as <-|].
    by eapply create_places in Ho as [? _].
  - unfold take_ready, ProducerConsumerQueue.Pop in Ht.
    destruct (true && _); [done|].
    destruct (ProducerConsumerQueue.queue_ (ready_connections_ s)) as [|c q] eqn:Eq; [done|].
    injection Ht as <-. apply (move_inv s); [done| |done|done]. intros d.
    unfold places, select_items. cbn. rewrite Eq, !cnt_cons. lia.
  - by eapply serve_inv.
  - apply (move_inv s); [done| |done|done]. intros d. unfold places, select_items. cbn.
    rewrite Hst, app_nil_r, cnt_elements, cnt_nil. repeat case_decide; set_solver by lia.
  - by eapply visit_inv.
  - apply (move_inv s); [done| |done|done]. intros d. unfold places, select_items. cbn. by rewrite Hst.
  - unfold select_put_back in Hp. apply bind_Ok in Hp as (s2 & Hp & Hs). injection Hs as <-.
    apply (put_back_inv r c (set_select (SelDistribute l) s)).
    + apply select_held; [done|]. intros d. unfold select_items. rewrite Hst. cbn. by rewrite cnt_cons.
    + destruct r; revert Hp.
      * unfold AddConnectionToReadyConnections, ProducerConsumerQueue.Push. cbn.
        destruct (ProducerConsumerQueue.draining_ _); [done|]. by intros [= <-].
      * unfold insert_blocked. cbn. by case_bool_decide; [intros [= <-]|].
  - apply (move_inv s); [done| |done|done]. intros d. unfold places, select_items. cbn. by rewrite Hst.
  - by apply (move_inv s).
Qed.

Lemma start_inv s : Start = Ok s → server_inv s.
Proof.
  intros [= <-]. split; [|by intros i Hi%elem_of_dom; destruct Hi].
  intros [i|]; unfold places, expected, select_items; cbn; rewrite cnt_cons, !cnt_nil;
    repeat case_decide; try done; set_solver.
Qed.

(** ** Collecting the connections when the server stops *)

Lemma insert_all_spec l all :
  (∀ i, cnt (Some i) l + (if decide (i ∈ all) then 1 else 0) ≤ 1) →
  ∃ all', insert_all l all = Ok all' ∧ ∀ i, i ∈ all' ↔ i ∈ all ∨ Some i ∈ l.
Proof.
  revert all. induction l as [|[j|] l IH]; intros all Hc; cbn [insert_all].
  - exists all. split; [done|]. set_solver.
  - assert (j ∉ all) as Hj.
    { specialize (Hc j). rewrite cnt_cons in Hc. repeat case_decide; [lia|done|done|done]. }
    rewrite bool_decide_eq_true_2 by done. cbn [CHECK mbind res_bind].
    destruct (IH ({[j]} ∪ all)) as (all' & -> & Hall).
    { intros i. specialize (Hc i). rewrite cnt_cons in Hc. repeat case_decide; set_solver by lia. }
    exists all'. split; [done|]. intros i. rewrite Hall, elem_of_cons. set_solver.
  - destruct (IH all) as (all' & -> & Hall).
    { intros i. specialize (Hc i). by rewrite cnt_cons in Hc. }
    exists all'. split; [done|]. intros i. rewrite Hall, elem_of_cons. naive_solver.
Qed.

Lemma stop_collect_spec s : server_inv s → in_hand s = [] → select_thread_ s = SelTop →
  stop_collect s = Ok (dom (connections s)).
Proof.
  intros [Hpl _] Hh Hst. unfold stop_collect.
  assert (∀ d, cnt d (ProducerConsumerQueue.queue_ (ready_connections_ s)) +
    cnt d (elements (blocked_connections_ s)) = expected d s) as Hc.
  { intros d. rewrite <- Hpl, cnt_elements. unfold places, select_items. rewrite Hh, Hst, cnt_nil. lia. }
  assert (∀ i, expected (Some i) s ≤ 1) as Hle by (intros i; cbn; by case_decide; lia).
  destruct (insert_all_spec (ProducerConsumerQueue.queue_ (ready_connections_ s)) ∅) as (a1 & -> & Ha1).
  { intros i. specialize (Hc (Some i)). specialize (Hle i). case_decide; set_solver by lia. }
  cbn [mbind res_bind].
  destruct (insert_all_spec (elements (blocked_connections_ s)) a1) as (a2 & -> & Ha2).
  { intros i. specialize (Hc (Some i)). specialize (Hle i). case_decide as Hin; [|lia].
    apply Ha1 in Hin as [?|Hin]; [set_solver|].
    pose proof (cnt_zero (Some i) (ProducerConsumerQueue.queue_ (ready_connections_ s))) as Hz.
    destruct (cnt (Some i) (ProducerConsumerQueue.queue_ _)); [by apply Hz in Hin|lia]. }
  f_equal. apply set_eq. intros i. rewrite Ha2, Ha1. specialize (Hc (Some i)). cbn in Hc.
  pose proof (cnt_zero (Some i) (ProducerConsumerQueue.queue_ (ready_connections_ s))) as Hz.
  pose proof (cnt_zero (Some i) (elements (blocked_connections_ s))) as Hz'.
  case_decide as Hd.
  - split; [done|]. intros _. destruct (decide (Some i ∈ ProducerConsumerQueue.queue_ (ready_connections_ s)));
      [by left; right|]. destruct (decide (Some i ∈ elements (blocked_connections_ s))); [by right|].
    rewrite (proj2 Hz), (proj2 Hz') in Hc by done. done.
  - split; [|done]. intros [[?|Hin]|Hin]; [set_solver| |]; exfalso; [apply (proj1 Hz)|apply (proj1 Hz')];
      done || lia.
Qed.

(** C20 (invariant). Whatever the threads of a server do, in every state each open connection and
    the listening socket is in exactly one place: waiting to be served, being
    served by one thread, blocked, or with the select thread.  So no two threads
    use a connection at once and none is forgotten; the [CHECK]s that a
    connection put back is not already there hold; and when the threads have
    ended [Stop] finds every open connection once. *)
Theorem connections_served_exclusively (s0 s : server)
    (Hstart : Start = Ok s0) (Hreach : rtc server_step s0 s) :
  (∀ c, places c s = expected c s) ∧
  (∀ c, c ∈ in_hand s ∨ c ∈ select_items s → c ∉ blocked_connections_ s) ∧
  (in_hand s = [] → select_thread_ s = SelTop → stop_collect s = Ok (dom (connections s))).
Proof.
  assert (server_inv s) as Hi.
  { apply start_inv in Hstart. induction Hreach; [done|]. apply IHHreach. by eapply server_step_inv. }
  split_and!; [apply Hi| |by apply stop_collect_spec].
  intros c Hc Hb. destruct Hi as [Hpl _]. specialize (Hpl c). unfold places in Hpl.
  rewrite decide_True in Hpl by done.
  assert (expected c s ≤ 1) by (unfold expected; destruct c; [case_decide|]; lia).
  destruct Hc as [Hc|Hc]; [pose proof (cnt_zero c (in_hand s)) as Hz|pose proof (cnt_zero c (select_items s)) as Hz];
    apply (proj1 Hz); done || lia.
Qed.

(** [Stop] drains the queue of ready connections before it waits for the
    threads.  A thread that is just serving a connection that is not blocked then
    fails the [CHECK] that the queue takes it back: the process ends. *)
Theorem stop_can_abort (c : option nat) (x : io H) (s s' : server)
    (Hdrain : ProducerConsumerQueue.draining_ (ready_connections_ s) = true)
    (Hserved : serve_connection (Msg := Msg) c x s = Ok (false, s'))
    (Hio : io_accept x = None) :
  serve (Msg := Msg) c x s = Fatal.
Proof.
  unfold serve. rewrite Hserved. cbn [mbind res_bind].
  assert (ProducerConsumerQueue.draining_ (ready_connections_ s') = true) as Hd.
  { destruct c as [i|]; cbn [serve_connection] in Hserved.
    - apply bind_Ok in Hserved as (cn & _ & Hs). apply bind_Ok in Hs as ([c1 o] & _ & Hs).
      destruct (ProtocolConnectionImpl.close_requested_ c1); [done|].
      apply bind_Ok in Hs as ([b2 c2] & _ & Hs). by injection Hs as _ <-.
    - unfold AcceptSingleConnection in Hserved. rewrite Hio in Hserved. done. }
  unfold AddConnectionToReadyConnections, ProducerConsumerQueue.Push. by rewrite Hd.
Qed.

End scheduling.

(** * A run *)

Definition run_server : ProtocolServer.t (list (list byte)) :=
  match ProtocolServer.Start with Ok s => s | _ => ProtocolServer.mk (ProducerConsumerQueue.mk 0 [] false) ∅
    ProtocolServer.SelTop [] ∅ [] 0 end.

(** One connection is opened and taken by a thread. *)
Definition run_server_2 : ProtocolServer.t (list (list byte)) :=
  match ProtocolServer.OpenConnection 7 [[1]%Z] run_server with
  | Ok s => match ProtocolServer.take_ready s with
            | Some s1 => match ProtocolServer.take_ready s1 with Some s2 => s2 | None => s1 end
            | None => s end
  | _ => run_server
  end.

Lemma connections_served_exclusively_witness :
  places (Some 0) run_server_2 = 1 ∧ Some 0 ∈ ProtocolServer.in_hand run_server_2.
Proof.
  assert (rtc (server_step (Msg := list byte)) run_server run_server_2) as Hr.
  { eapply rtc_l; [apply (st_open _ _ 7 [[1]%Z]); vm_compute; reflexivity|].
    eapply rtc_l; [apply st_take; vm_compute; reflexivity|].
    eapply rtc_l; [apply st_take; vm_compute; reflexivity|]. apply rtc_refl. }
  destruct (connections_served_exclusively run_server run_server_2 eq_refl Hr) as (Hp & _ & _).
  split; [rewrite (Hp (Some 0)); vm_compute; reflexivity|left].
Defined.

(** The connection has output and [recv] brings nothing: it is not blocked. *)
Lemma stop_can_abort_witness :
  ProtocolServer.serve (Msg := list byte) (Some 0)
    {| ProtocolServer.io_accept := None; ProtocolServer.io_recv := RecvData [1; 5]%Z;
       ProtocolServer.io_send := SendCount 1 |}
    (ProtocolServer.set_ready
       (ProducerConsumerQueue.Drain (ProtocolServer.ready_connections_ run_server_2)) run_server_2) = Fatal.
Proof.
  eapply stop_can_abort.
  - reflexivity.
  - vm_compute. reflexivity.
  - reflexivity.
Defined.
