(* ===== verification/Sockets.v ===== *)
(** * Sockets and file descriptors

    [util/tcp.cc], [util/socket_util.cc], [util/event_fd.cc] and [AddFdToSet] of
    [protocol_server/protocol_server.h].  The system calls are an interface
    (class [System]); class [SystemLaws] has what its manual says about the table of
    open file descriptors.  A system call that fails gives -1.  [CHECK_ERR(e)] ends
    the process if [e] is -1. *)
From S2P Require Import Prelude Text Protocol.
From stdpp Require Import base tactics list strings gmap.
From Stdlib Require Import ZArith Lia Ascii.
#[local] Open Scope string_scope.
#[local] Open Scope Z_scope.

(** ** Data *)
Definition AF_UNSPEC : Z := 0.
Definition AF_UNIX : Z := 1.
Definition AF_INET : Z := 2.
Definition AF_INET6 : Z := 10.
Definition SOCK_STREAM : Z := 1.
Definition SOCK_CLOEXEC : Z := 0x80000.
Definition O_NONBLOCK : Z := 0x800.
Definition IFF_LOOPBACK : Z := 8.
Definition AI_NUMERICHOST : Z := 4.
Definition AI_NUMERICSERV : Z := 0x400.

Record sockaddr := { sa_family : Z; sa_data : list ascii }.
Record addrinfo := { ai_flags : Z; ai_family : Z; ai_socktype : Z; ai_protocol : Z; ai_addr : option sockaddr }.
(** [ifa_addr] may be null. *)
Record ifaddrs := { ifa_flags : Z; ifa_addr : option sockaddr }.

(** ** System calls *)
Class System (W : Type) := {
  sys_socket : Z → Z → Z → W → Z * W;
  sys_bind : Z → option sockaddr → W → Z * W;
  sys_connect : Z → option sockaddr → W → Z * W;
  sys_listen : Z → Z → W → Z * W;
  (** The descriptor, the address and its length. *)
  sys_accept4 : Z → Z → W → (errno + Z * sockaddr * Z) * W;
  sys_close : Z → W → Z * W;
  (** [write] of a number to, [read] of a number from, an event descriptor: the
      count of bytes. *)
  sys_write : Z → Z → W → Z * W;
  sys_read : Z → W → (errno + Z) * W;
  sys_eventfd : Z → Z → W → Z * W;
  sys_pthread_create : W → Z * W;
  sys_pthread_join : W → Z * W;
  sys_getfl : Z → W → Z * W;
  sys_setfl : Z → Z → W → Z * W;
  sys_getaddrinfo : string → string → addrinfo → W → (Z * list addrinfo) * W;
  sys_freeaddrinfo : list addrinfo → W → W;
  sys_getifaddrs : W → (Z * list ifaddrs) * W;
  sys_freeifaddrs : list ifaddrs → W → W;
  sys_inet_ntop : sockaddr → option string;
  sys_random : W → Z * W;
}.

(** The table of open descriptors: which of them are non-blocking. *)
Class SystemLaws (W : Type) `{System W} := {
  fdt : W → gmap Z bool;
  new_fd (nonblock : bool) (fd : Z) (w w' : W) : Prop :=
    0 ≤ fd ∧ fdt w !! fd = None ∧ fdt w' = <[fd := nonblock]> (fdt w);
  socket_law d t p w fd w' : sys_socket d t p w = (fd, w') →
    (fd = -1 ∧ fdt w' = fdt w) ∨ new_fd (negb (Z.land t O_NONBLOCK =? 0)) fd w w';
  accept_law l f w r w' : sys_accept4 l f w = (r, w') →
    match r with
    | inl _ => fdt w' = fdt w
    | inr (fd, _, _) => new_fd (negb (Z.land f O_NONBLOCK =? 0)) fd w w'
    end;
  eventfd_law n f w fd w' : sys_eventfd n f w = (fd, w') →
    (fd = -1 ∧ fdt w' = fdt w) ∨ new_fd (negb (Z.land f O_NONBLOCK =? 0)) fd w w';
  pthread_create_law w r w' : sys_pthread_create w = (r, w') → fdt w' = fdt w;
  pthread_join_law w r w' : sys_pthread_join w = (r, w') → fdt w' = fdt w;
  bind_law fd a w r w' : sys_bind fd a w = (r, w') → fdt w' = fdt w;
  connect_law fd a w r w' : sys_connect fd a w = (r, w') → fdt w' = fdt w;
  listen_law fd n w r w' : sys_listen fd n w = (r, w') → fdt w' = fdt w;
  close_law fd w r w' : sys_close fd w = (r, w') → fdt w' = delete fd (fdt w);
  write_law fd n w r w' : sys_write fd n w = (r, w') → fdt w' = fdt w;
  read_law fd w r w' : sys_read fd w = (r, w') → fdt w' = fdt w;
  getfl_law fd w r w' : sys_getfl fd w = (r, w') → fdt w' = fdt w;
  setfl_law fd flags w r w' : sys_setfl fd flags w = (r, w') →
    (r = -1 ∧ fdt w' = fdt w) ∨ (r ≠ -1 ∧ fdt w' = alter (fun _ => negb (Z.land flags O_NONBLOCK =? 0)) fd (fdt w));
  getaddrinfo_law a p h w r w' : sys_getaddrinfo a p h w = (r, w') → fdt w' = fdt w;
  freeaddrinfo_law l w : fdt (sys_freeaddrinfo l w) = fdt w;
  getifaddrs_law w r w' : sys_getifaddrs w = (r, w') → fdt w' = fdt w;
  freeifaddrs_law l w : fdt (sys_freeifaddrs l w) = fdt w;
  random_law w n w' : sys_random w = (n, w') → 0 ≤ n ∧ fdt w' = fdt w;
}.

Module Sockets.
Section sockets.
Context {W : Type} `{System W}.

(** A computation with system calls. *)
Definition OS (A : Type) : Type := W → res (A * W).
#[global] Instance OS_ret : MRet OS := fun A a w => Ok (a, w).
#[global] Instance OS_bind : MBind OS := fun A B f m w =>
  match m w with Ok (a, w') => f a w' | Fatal => Fatal | Undef => Undef end.
Definition call {A} (f : W → A * W) : OS A := fun w => Ok (f w).
Definition check (b : bool) : OS unit := fun w => if b then Ok (tt, w) else Fatal.
Definition lift {A} (r : res A) : OS A := fun w => match r with Ok a => Ok (a, w) | Fatal => Fatal | Undef => Undef end.
Definition free (f : W → W) : OS unit := fun w => Ok (tt, f w).

Lemma bind_run {A B} (m : OS A) (f : A → OS B) w a w' : m w = Ok (a, w') → (m ≫= f) w = f a w'.
Proof. intros E. unfold mbind, OS_bind. by rewrite E. Qed.

Definition check_err (m : OS Z) : OS unit := e ← m; check (negb (e =? -1)).

(** ** [socket_util.cc] *)
Definition SetFdToNonBlocking (fd : Z) : OS bool :=
  flags ← call (sys_getfl fd);
  if flags =? -1 then mret false else
  r ← call (sys_setfl fd (Z.lor flags O_NONBLOCK));
  mret (negb (r =? -1)).

(** [sizeof addr->sun_path]. *)
Definition path_max : nat := 108.

Definition nul : ascii := char_of 0.

(** [strncpy(dest, s, n)]: zeros follow the text. *)
Definition strncpy (s : string) (n : nat) : list ascii := resize n nul (String.list_ascii_of_string (c_str s)).

Definition PopulateUnixAddrStruct (socket_file_name : string) : res sockaddr :=
  _ ← CHECK (negb (bool_decide (socket_file_name = "")));
  _ ← CHECK (match socket_file_name with String c _ => negb (byte_of c =? 0) | "" => false end);
  _ ← CHECK (String.length socket_file_name <? path_max)%nat;
  Ok {| sa_family := AF_UNIX;
        sa_data := <[(path_max - 1)%nat := nul]> (strncpy socket_file_name path_max) |}.

Definition ListenOnUnixSocket (socket_file_name : string) : OS Z :=
  listen_fd ← call (sys_socket AF_UNIX (Z.lor SOCK_STREAM SOCK_CLOEXEC) 0);
  _ ← check (negb (listen_fd =? -1));
  b ← SetFdToNonBlocking listen_fd;
  _ ← check b;
  addr ← lift (PopulateUnixAddrStruct socket_file_name);
  _ ← check_err (call (sys_bind listen_fd (Some addr)));
  _ ← check_err (call (sys_listen listen_fd 128));
  mret listen_fd.

Definition ConnectToUnixSocket (socket_file_name : string) : OS Z :=
  connection_fd ← call (sys_socket AF_UNIX (Z.lor SOCK_STREAM SOCK_CLOEXEC) 0);
  _ ← check (negb (connection_fd =? -1));
  addr ← lift (PopulateUnixAddrStruct socket_file_name);
  _ ← check_err (call (sys_connect connection_fd (Some addr)));
  b ← SetFdToNonBlocking connection_fd;
  _ ← check b;
  mret connection_fd.

(** The text that the address string holds afterwards. *)
Definition GetAddressString (address : sockaddr) : res string :=
  if (sa_family address =? AF_INET) || (sa_family address =? AF_INET6) then check_some (sys_inet_ntop address)
  else if sa_family address =? AF_UNIX then Ok ""
  else Fatal.

Definition sizeof_sockaddr_storage : Z := 128.

(** The new descriptor, or -1, and what [*remote_address] holds afterwards. *)
Definition AcceptConnection (listen_fd : Z) (remote_address : string) : OS (Z * string) :=
  r ← call (sys_accept4 listen_fd SOCK_CLOEXEC);
  match r with
  | inl e => _ ← check match e with EAGAIN | EWOULDBLOCK => true | _ => false end; mret (-1, remote_address)
  | inr (connection_fd, address, address_length) =>
      b ← SetFdToNonBlocking connection_fd;
      _ ← check b;
      _ ← check (address_length <=? sizeof_sockaddr_storage);
      remote_address ← lift (GetAddressString address);
      mret (connection_fd, remote_address)
  end.

(** ** [event_fd.cc] *)
Definition SignalEventFd (event_fd : Z) : OS unit := check_err (call (sys_write event_fd 1)).

Definition ClearEventFd (event_fd : Z) : OS unit :=
  byte_count ← call (sys_read event_fd);
  match byte_count with
  | inl e => check match e with EAGAIN | EWOULDBLOCK => true | _ => false end
  | inr n => check (n =? 8)
  end.

(** ** Descriptor sets ([AddFdToSet]) *)
Definition FD_SETSIZE : Z := 1024.

(** [FD_SET] of a descriptor that is not below [FD_SETSIZE] is undefined. *)
Definition FD_SET (fd : Z) (fds : gset Z) : res (gset Z) :=
  if (0 <=? fd) && (fd <? FD_SETSIZE) then Ok ({[fd]} ∪ fds) else Undef.

Definition AddFdToSet (fd : Z) (fds : gset Z) (nfds : Z) : res (gset Z * Z) :=
  _ ← CHECK (0 <=? fd);
  _ ← CHECK (0 <=? nfds);
  fds ← FD_SET fd fds;
  Ok (fds, if fd + 1 >? nfds then fd + 1 else nfds).

(** ** [tcp.cc] *)
Definition GetAddressInfo (address : string) (port : Z) : OS (list addrinfo) :=
  _ ← check (negb (bool_decide (address = "")));
  let hints := {| ai_flags := Z.lor AI_NUMERICHOST AI_NUMERICSERV; ai_family := AF_UNSPEC;
                  ai_socktype := SOCK_STREAM; ai_protocol := 0; ai_addr := None |} in
  r ← call (sys_getaddrinfo (c_str address) (printf_d port) hints);
  _ ← check (r.1 =? 0);
  _ ← check (negb (bool_decide (length r.2 = 0%nat)));
  mret r.2.

Definition BindToAddress (ai : addrinfo) : OS Z :=
  fd ← call (sys_socket (ai_family ai) (Z.lor (ai_socktype ai) SOCK_CLOEXEC) (ai_protocol ai));
  if fd =? -1 then mret (-1) else
  b ← SetFdToNonBlocking fd;
  if negb b then _ ← check_err (call (sys_close fd)); mret (-1) else
  r ← call (sys_bind fd (ai_addr ai));
  if r =? -1 then _ ← check_err (call (sys_close fd)); mret (-1) else
  mret fd.

Definition ConnectToAddress (ai : addrinfo) : OS Z :=
  fd ← call (sys_socket (ai_family ai) (Z.lor (ai_socktype ai) SOCK_CLOEXEC) (ai_protocol ai));
  if fd =? -1 then mret (-1) else
  r ← call (sys_connect fd (ai_addr ai));
  if r =? -1 then _ ← check_err (call (sys_close fd)); mret (-1) else
  b ← SetFdToNonBlocking fd;
  if negb b then _ ← check_err (call (sys_close fd)); mret (-1) else
  mret fd.

Fixpoint BindToSomeAddress_loop (ai_list : list addrinfo) : OS Z :=
  match ai_list with
  | [] => mret (-1)
  | ai :: rest =>
      socket_fd ← BindToAddress ai;
      if negb (socket_fd =? -1) then mret socket_fd else BindToSomeAddress_loop rest
  end.
Definition BindToSomeAddress (ai_list : list addrinfo) : OS Z :=
  _ ← check (negb (bool_decide (length ai_list = 0%nat)));
  BindToSomeAddress_loop ai_list.

Fixpoint ConnectToSomeAddress_loop (ai_list : list addrinfo) : OS Z :=
  match ai_list with
  | [] => mret (-1)
  | ai :: rest =>
      socket_fd ← ConnectToAddress ai;
      if negb (socket_fd =? -1) then mret socket_fd else ConnectToSomeAddress_loop rest
  end.
Definition ConnectToSomeAddress (ai_list : list addrinfo) : OS Z :=
  _ ← check (negb (bool_decide (length ai_list = 0%nat)));
  ConnectToSomeAddress_loop ai_list.

(** The body of the loop of [GetLocalAddress]. *)
Definition local_address_step (selected : Z * string) (ifa : ifaddrs) : res (Z * string) :=
  let '(selected_family, address_string) := selected in
  if Z.land (ifa_flags ifa) IFF_LOOPBACK =? 0 then
    address ← deref (ifa_addr ifa);
    let family := sa_family address in
    if ((family =? AF_INET) && negb (selected_family =? AF_INET)) ||
       ((family =? AF_INET6) && negb (selected_family =? AF_INET) && negb (selected_family =? AF_INET6))
    then s ← GetAddressString address; Ok (family, s)
    else Ok selected
  else Ok selected.

Fixpoint local_address_loop (ifa_list : list ifaddrs) (selected : Z * string) : res (Z * string) :=
  match ifa_list with
  | [] => Ok selected
  | ifa :: rest => selected ← local_address_step selected ifa; local_address_loop rest selected
  end.

Definition GetLocalAddress : OS string :=
  r ← call sys_getifaddrs;
  _ ← check (negb (r.1 =? -1));
  _ ← check (negb (bool_decide (length r.2 = 0%nat)));
  selected ← lift (local_address_loop r.2 (AF_UNSPEC, ""));
  _ ← free (sys_freeifaddrs r.2);
  _ ← check (negb (selected.1 =? AF_UNSPEC));
  _ ← check (negb (bool_decide (selected.2 = "")));
  mret selected.2.

Definition ListenOnLocalAddress (local_address : string) (port : Z) : OS Z :=
  address_info ← GetAddressInfo local_address port;
  socket_fd ← BindToSomeAddress address_info;
  _ ← free (sys_freeaddrinfo address_info);
  _ ← check (negb (socket_fd =? -1));
  _ ← check_err (call (sys_listen socket_fd 128));
  mret socket_fd.

Definition ConnectToRemoteHost (address : string) (port : Z) : OS Z :=
  address_info ← GetAddressInfo address port;
  socket_fd ← ConnectToSomeAddress address_info;
  _ ← free (sys_freeaddrinfo address_info);
  mret socket_fd.

Definition kMinPort : Z := 1024.
Definition kMaxPort : Z := 65535.

(** The endless loop, for [fuel] ports; [None]: none of them was free. *)
Fixpoint unused_port_loop (fuel : nat) (local_address : string) (port : Z) : OS (option Z) :=
  match fuel with
  | O => mret None
  | S fuel =>
      let port := if port + 1 >? kMaxPort then kMinPort else port + 1 in
      address_info ← GetAddressInfo local_address port;
      socket_fd ← BindToSomeAddress address_info;
      _ ← free (sys_freeaddrinfo address_info);
      if negb (socket_fd =? -1) then _ ← check_err (call (sys_close socket_fd)); mret (Some port)
      else unused_port_loop fuel local_address port
  end.

(** [port] is the static variable, which the result replaces. *)
Definition GetUnusedPortForTesting (fuel : nat) (port : Z) : OS (option Z) :=
  local_address ← GetLocalAddress;
  port ← (if port =? -1 then n ← call sys_random; mret (Z.rem n (kMaxPort - kMinPort + 1) + kMinPort)
          else mret port);
  unused_port_loop fuel local_address port.

(** ** The local address *)

(** The first address of the family that is not of a loopback interface. *)
Definition of_family (family : Z) (ifa : ifaddrs) : option sockaddr :=
  match ifa_addr ifa with
  | Some a => if (Z.land (ifa_flags ifa) IFF_LOOPBACK =? 0) && (sa_family a =? family) then Some a else None
  | None => None
  end.
Definition first_of (family : Z) (l : list ifaddrs) : option sockaddr := head (omap (of_family family) l).

(** An IPv4 address if there is one, else an IPv6 address. *)
Definition local_address_spec (l : list ifaddrs) : Z * option sockaddr :=
  match first_of AF_INET l, first_of AF_INET6 l with
  | Some a, _ => (AF_INET, Some a)
  | None, Some a => (AF_INET6, Some a)
  | None, None => (AF_UNSPEC, None)
  end.
Definition ntop (a : option sockaddr) : string := default "" (a ≫= sys_inet_ntop).

(** What the loop selects, when [family] (with [text]) is selected so far. *)
Definition selects (selected : Z * string) (l : list ifaddrs) : Z * string :=
  if selected.1 =? AF_INET then selected
  else match first_of AF_INET l with
       | Some a => (AF_INET, ntop (Some a))
       | None =>
           if selected.1 =? AF_INET6 then selected
           else match first_of AF_INET6 l with Some a => (AF_INET6, ntop (Some a)) | None => selected end
       end.

Definition readable (ifa : ifaddrs) : Prop :=
  Z.land (ifa_flags ifa) IFF_LOOPBACK = 0 →
  ∃ a, ifa_addr ifa = Some a ∧ (sa_family a = AF_INET ∨ sa_family a = AF_INET6 → is_Some (sys_inet_ntop a)).

Lemma first_of_cons family ifa l :
  first_of family (ifa :: l) = match of_family family ifa with Some a => Some a | None => first_of family l end.
Proof. unfold first_of. simpl. by destruct (of_family family ifa). Qed.

Lemma local_address_step_ok selected ifa l :
  readable ifa → ∃ selected', local_address_step selected ifa = Ok selected' ∧
    selects selected' l = selects selected (ifa :: l).
Proof.
  intros Hr. destruct selected as [f s]. unfold local_address_step, selects. rewrite !first_of_cons. unfold of_family. simpl.
  destruct (Z.eqb_spec (Z.land (ifa_flags ifa) IFF_LOOPBACK) 0) as [Hl|Hl].
  2: { eexists. split; [done|]. by destruct (ifa_addr ifa). }
  destruct (Hr Hl) as (a & -> & Hn). simpl. unfold GetAddressString, ntop. simpl.
  destruct (Z.eqb_spec (sa_family a) AF_INET) as [E4|E4]; simpl.
  - rewrite E4. destruct Hn as [x ->]; [by left|]. simpl.
    destruct (Z.eqb_spec f AF_INET) as [->|H4]; simpl; by eexists.
  - destruct (Z.eqb_spec (sa_family a) AF_INET6) as [E6|E6]; simpl; [|by eexists].
    rewrite E6. destruct Hn as [x ->]; [by right|]. simpl.
    destruct (Z.eqb_spec f AF_INET) as [->|H4]; simpl; [by eexists|].
    destruct (Z.eqb_spec f AF_INET6) as [->|H6]; simpl; by eexists.
Qed.

(** Of the interfaces that are not loopback interfaces, the first IPv4 address is
    taken, and the first IPv6 address only if there is none. *)
Theorem local_address_chosen l :
  Forall readable l →
  local_address_loop l (AF_UNSPEC, "") = Ok ((local_address_spec l).1, ntop (local_address_spec l).2).
Proof.
  intros Hl. assert (∀ selected, local_address_loop l selected = Ok (selects selected l)) as ->.
  - induction Hl as [|ifa l Hi _ IH]; intros selected; simpl.
    + unfold selects, first_of. simpl. by repeat case_match.
    + destruct (local_address_step_ok selected ifa l Hi) as (s' & -> & Hs). simpl. by rewrite IH, Hs.
  - unfold selects, local_address_spec. simpl. by repeat case_match.
Qed.

(** ** What they do to the table of descriptors *)
Section table.
Context `{!SystemLaws W}.

Definition same_fds (w w' : W) : Prop := fdt w' = fdt w.
(** [fd] is the one new descriptor, and it is non-blocking. *)
Definition opens (fd : Z) : W → W → Prop := new_fd true fd.
Definition opens_or_fails (fd : Z) (w w' : W) : Prop := (fd = -1 ∧ same_fds w w') ∨ opens fd w w'.

(** [m] ends in [R], from [w], if it ends. *)
Definition ends {A} (m : OS A) (w : W) (R : A → W → Prop) : Prop := ∀ a w', m w = Ok (a, w') → R a w'.

Lemma ends_ret {A} (a : A) w (R : A → W → Prop) : R a w → ends (mret a) w R.
Proof. by intros ? b w' [= <- <-]. Qed.
Lemma ends_bind {A B} (m : OS A) (f : A → OS B) w R :
  ends m w (fun a w1 => ends (f a) w1 R) → ends (m ≫= f) w R.
Proof.
  intros Hm b w' E. unfold mbind, OS_bind in E. destruct (m w) as [[a w1]| |] eqn:E1; try done.
  by eapply (Hm a w1).
Qed.
Lemma ends_mono {A} (m : OS A) w (R R' : A → W → Prop) :
  ends m w R → (∀ a w', R a w' → R' a w') → ends m w R'.
Proof. intros Hm HR a w' E. by apply HR, Hm. Qed.
Lemma ends_check b w (R : unit → W → Prop) : (b = true → R tt w) → ends (check b) w R.
Proof. intros HR a w'. unfold check. destruct b; [intros [= <- <-]; by apply HR|done]. Qed.
Lemma ends_lift {A} (r : res A) w (R : A → W → Prop) : (∀ a, r = Ok a → R a w) → ends (lift r) w R.
Proof. intros HR a w'. unfold lift. destruct r; [intros [= <- <-]; by apply HR|done..]. Qed.
Lemma ends_call {A} (f : W → A * W) w (R : A → W → Prop) : (∀ a w', f w = (a, w') → R a w') → ends (call f) w R.
Proof. intros HR a w' [= E]. by apply HR. Qed.
Lemma ends_free f w (R : unit → W → Prop) : R tt (f w) → ends (free f) w R.
Proof. by intros HR a w' [= <- <-]. Qed.
Lemma ends_check_err (f : W → Z * W) w (R : unit → W → Prop) :
  (∀ e w', f w = (e, w') → e ≠ -1 → R tt w') → ends (check_err (call f)) w R.
Proof.
  intros HR. apply ends_bind, ends_call. intros e w' E. apply ends_check. rewrite negb_true_iff, Z.eqb_neq. by apply HR.
Qed.

(** Once the new descriptor is set to non-blocking. *)
Lemma SetFdToNonBlocking_ends fd w :
  ends (SetFdToNonBlocking fd) w (fun b w' =>
    fdt w' = if b : bool then alter (fun _ => true) fd (fdt w) else fdt w).
Proof.
  apply ends_bind, ends_call. intros flags w1 E1%getfl_law.
  destruct (Z.eqb_spec flags (-1)); [by apply ends_ret|].
  apply ends_bind, ends_call. intros r w2 E2. apply ends_ret.
  destruct (setfl_law _ _ _ _ _ E2) as [[-> E]|[Hr E]]; [by rewrite E|].
  assert ((Z.land (Z.lor flags O_NONBLOCK) O_NONBLOCK =? 0) = false) as Hb.
  { apply Z.eqb_neq. intros E0.
    assert (Z.testbit (Z.land (Z.lor flags O_NONBLOCK) O_NONBLOCK) 11 = false) as Hb by by rewrite E0.
    by rewrite Z.land_spec, Z.lor_spec, orb_true_r in Hb. }
  apply Z.eqb_neq in Hr. rewrite Hr, E, E1, Hb. done.
Qed.

Lemma new_nonblocking nb fd w w1 w2 :
  new_fd nb fd w w1 → fdt w2 = alter (fun _ => true) fd (fdt w1) → opens fd w w2.
Proof.
  intros (Hfd & Hn & E1) E2. split_and!; [done..|]. rewrite E2, E1. by rewrite alter_insert_eq.
Qed.
Lemma new_closed nb fd w w1 w2 : new_fd nb fd w w1 → fdt w2 = delete fd (fdt w1) → same_fds w w2.
Proof. intros (Hfd & Hn & E1) E2. unfold same_fds. rewrite E2, E1. by rewrite delete_insert_id. Qed.


Lemma BindToAddress_ends ai w : ends (BindToAddress ai) w (fun fd => opens_or_fails fd w).
Proof.
  apply ends_bind, ends_call. intros fd w1 E1. destruct (Z.eqb_spec fd (-1)) as [->|Hfd].
  { apply ends_ret. left. by destruct (socket_law _ _ _ _ _ _ E1) as [[_ ?]|[? _]]. }
  destruct (socket_law _ _ _ _ _ _ E1) as [[? _]|Hnew]; [done|].
  apply ends_bind. eapply ends_mono; [apply SetFdToNonBlocking_ends|]. intros [] w2 E2; simpl in *.
  - apply ends_bind, ends_call. intros r w3 E3%bind_law. rewrite E2 in E3. destruct (Z.eqb_spec r (-1)).
    + apply ends_bind, ends_check_err. intros err w4 E4%close_law _. apply ends_ret. left. split; [done|].
      eapply (new_closed true); [|exact E4]. by eapply new_nonblocking.
    + apply ends_ret. right. by eapply new_nonblocking.
  - apply ends_bind, ends_check_err. intros err w4 E4%close_law _. apply ends_ret. left. split; [done|].
    rewrite E2 in E4. by eapply new_closed.
Qed.

Lemma ConnectToAddress_ends ai w : ends (ConnectToAddress ai) w (fun fd => opens_or_fails fd w).
Proof.
  apply ends_bind, ends_call. intros fd w1 E1. destruct (Z.eqb_spec fd (-1)) as [->|Hfd].
  { apply ends_ret. left. by destruct (socket_law _ _ _ _ _ _ E1) as [[_ ?]|[? _]]. }
  destruct (socket_law _ _ _ _ _ _ E1) as [[? _]|Hnew]; [done|].
  apply ends_bind, ends_call. intros r w2 E2%connect_law. destruct (Z.eqb_spec r (-1)).
  { apply ends_bind, ends_check_err. intros err w4 E4%close_law _. apply ends_ret. left. split; [done|].
    rewrite E2 in E4. by eapply new_closed. }
  apply ends_bind. eapply ends_mono; [apply SetFdToNonBlocking_ends|]. intros [] w3 E3; simpl in *; rewrite E2 in E3.
  - apply ends_ret. right. by eapply new_nonblocking.
  - apply ends_bind, ends_check_err. intros err w4 E4%close_law _. apply ends_ret. left. split; [done|].
    rewrite E3 in E4. by eapply new_closed.
Qed.

Lemma opens_same fd w w1 w2 : opens fd w w1 → same_fds w1 w2 → opens fd w w2.
Proof. intros (? & ? & E) E2. split_and!; [done..|]. by rewrite E2. Qed.
Lemma opens_or_fails_same fd w w1 w2 : opens_or_fails fd w w1 → same_fds w1 w2 → opens_or_fails fd w w2.
Proof. intros [[-> E]|Ho] E2; [left|right]; [split; [done|by etrans]|by eapply opens_same]. Qed.

(** Trying one address after the other. *)
Lemma opens_after fd w w1 w2 : same_fds w w1 → opens_or_fails fd w1 w2 → opens_or_fails fd w w2.
Proof.
  unfold same_fds. intros E [[-> E2]|(? & Hn & E2)]; [left; split; [done|by etrans]|right].
  rewrite E in Hn, E2. by split_and!.
Qed.

Lemma some_address (try : addrinfo → OS Z) loop ais w :
  (∀ ai w, ends (try ai) w (fun fd => opens_or_fails fd w)) →
  (∀ w, loop [] w = Ok (-1, w)) →
  (∀ ai rest, loop (ai :: rest) = (fd ← try ai; if negb (fd =? -1) then mret fd else loop rest)) →
  ends (loop ais) w (fun fd => opens_or_fails fd w).
Proof.
  intros Htry Hnil Hcons. revert w. induction ais as [|ai ais IH]; intros w.
  - intros fd w'. rewrite Hnil. intros [= <- <-]. by left.
  - rewrite Hcons. apply ends_bind. eapply ends_mono; [apply Htry|]. intros fd w1 Hfd.
    destruct (Z.eqb_spec fd (-1)); simpl; [|by apply ends_ret].
    destruct Hfd as [[_ Hs]|[? _]]; [|lia]. eapply ends_mono; [apply IH|]. intros fd' w2. by apply opens_after.
Qed.

Lemma BindToSomeAddress_ends ais w : ends (BindToSomeAddress ais) w (fun fd => opens_or_fails fd w).
Proof. apply ends_bind, ends_check. intros _. by apply (some_address BindToAddress _ _ _ BindToAddress_ends). Qed.
Lemma ConnectToSomeAddress_ends ais w : ends (ConnectToSomeAddress ais) w (fun fd => opens_or_fails fd w).
Proof. apply ends_bind, ends_check. intros _. by apply (some_address ConnectToAddress _ _ _ ConnectToAddress_ends). Qed.

Lemma GetAddressInfo_ends address port w : ends (GetAddressInfo address port) w (fun _ => same_fds w).
Proof.
  apply ends_bind, ends_check. intros _. apply ends_bind, ends_call. intros r w1 E%getaddrinfo_law.
  apply ends_bind, ends_check. intros _. apply ends_bind, ends_check. intros _. by apply ends_ret.
Qed.

(** [ListenOnLocalAddress] up to [listen], [ConnectToRemoteHost]: the addresses are
    found, one is taken, and their list is freed. *)
Lemma address_then (some : list addrinfo → OS Z) {B} (k : Z → OS B) address port w (R : B → W → Prop) :
  (∀ ais w, ends (some ais) w (fun fd => opens_or_fails fd w)) →
  (∀ fd w1, opens_or_fails fd w w1 → ends (k fd) w1 R) →
  ends (address_info ← GetAddressInfo address port;
        socket_fd ← some address_info;
        _ ← free (sys_freeaddrinfo address_info); k socket_fd) w R.
Proof.
  intros Hsome Hk. apply ends_bind. eapply ends_mono; [apply GetAddressInfo_ends|]. intros ais w1 H1.
  apply ends_bind. eapply ends_mono; [apply Hsome|]. intros fd w2 H2%(opens_after _ _ _ _ H1).
  apply ends_bind, ends_free, Hk. eapply opens_or_fails_same; [exact H2|]. apply freeaddrinfo_law.
Qed.

Lemma opens_or_fails_opens fd w w' : opens_or_fails fd w w' → (negb (fd =? -1)) = true → opens fd w w'.
Proof. intros [[-> _]|?]; done. Qed.

Lemma ListenOnLocalAddress_ends address port w : ends (ListenOnLocalAddress address port) w (fun fd => opens fd w).
Proof.
  apply (address_then BindToSomeAddress); [apply BindToSomeAddress_ends|]. intros fd w1 H1.
  apply ends_bind, ends_check. intros Hfd. apply ends_bind, ends_check_err. intros e w2 E%listen_law _.
  apply ends_ret. eapply opens_same; [|exact E]. by apply opens_or_fails_opens.
Qed.
Lemma ConnectToRemoteHost_ends address port w :
  ends (ConnectToRemoteHost address port) w (fun fd => opens_or_fails fd w).
Proof.
  apply (address_then ConnectToSomeAddress); [apply ConnectToSomeAddress_ends|]. intros fd w1 H1. by apply ends_ret.
Qed.

(** A new descriptor, made non-blocking. *)
Lemma then_nonblocking nb fd {A} (k : OS A) w w1 w2 (R : A → W → Prop) :
  new_fd nb fd w w1 → fdt w2 = fdt w1 → (∀ w3, opens fd w w3 → ends k w3 R) →
  ends (b ← SetFdToNonBlocking fd; _ ← check b; k) w2 R.
Proof.
  intros Hnew E2 Hk. apply ends_bind. eapply ends_mono; [apply SetFdToNonBlocking_ends|]. intros b w3 E3.
  apply ends_bind, ends_check. intros ->. apply Hk. rewrite E2 in E3. by eapply new_nonblocking.
Qed.

Lemma unix_socket {A} (k : Z → OS A) w (R : A → W → Prop) :
  (∀ nb fd w1, new_fd nb fd w w1 → ends (k fd) w1 R) →
  ends (fd ← call (sys_socket AF_UNIX (Z.lor SOCK_STREAM SOCK_CLOEXEC) 0);
        _ ← check (negb (fd =? -1)); k fd) w R.
Proof.
  intros Hk. apply ends_bind, ends_call. intros fd w1 E. apply ends_bind, ends_check. intros Hfd.
  destruct (socket_law _ _ _ _ _ _ E) as [[-> _]|Hnew]; [done|]. by eapply Hk.
Qed.

Lemma ListenOnUnixSocket_ends name w : ends (ListenOnUnixSocket name) w (fun fd => opens fd w).
Proof.
  apply unix_socket. intros nb fd w1 Hnew. eapply then_nonblocking; [exact Hnew|done|]. intros w2 H2.
  apply ends_bind, ends_lift. intros addr _. apply ends_bind, ends_check_err. intros e w3 E3%bind_law _.
  apply ends_bind, ends_check_err. intros e' w4 E4%listen_law _. apply ends_ret.
  eapply opens_same; [exact H2|]. unfold same_fds. by rewrite E4.
Qed.
Lemma ConnectToUnixSocket_ends name w : ends (ConnectToUnixSocket name) w (fun fd => opens fd w).
Proof.
  apply unix_socket. intros nb fd w1 Hnew. apply ends_bind, ends_lift. intros addr _.
  apply ends_bind, ends_check_err. intros e w2 E2%connect_law _.
  eapply then_nonblocking; [exact Hnew|exact E2|]. intros w3 H3. by apply ends_ret.
Qed.
Lemma AcceptConnection_ends listen_fd text w :
  ends (AcceptConnection listen_fd text) w (fun r => opens_or_fails r.1 w).
Proof.
  apply ends_bind, ends_call. intros [e|[[fd address] len]] w1 E%accept_law.
  - apply ends_bind, ends_check. intros _. apply ends_ret. by left.
  - eapply then_nonblocking; [exact E|done|]. intros w2 H2. apply ends_bind, ends_check. intros _.
    apply ends_bind, ends_lift. intros s _. apply ends_ret. by right.
Qed.

Lemma GetLocalAddress_ends w : ends GetLocalAddress w (fun _ => same_fds w).
Proof.
  apply ends_bind, ends_call. intros r w1 E1%getifaddrs_law. apply ends_bind, ends_check. intros _.
  apply ends_bind, ends_check. intros _. apply ends_bind, ends_lift. intros sel _.
  apply ends_bind, ends_free. apply ends_bind, ends_check. intros _. apply ends_bind, ends_check. intros _.
  apply ends_ret. unfold same_fds. by rewrite freeifaddrs_law.
Qed.

Definition valid_port (port : option Z) : Prop := ∀ p, port = Some p → kMinPort ≤ p ≤ kMaxPort.

Lemma unused_port_loop_ends fuel address port w :
  kMinPort - 1 ≤ port → ends (unused_port_loop fuel address port) w (fun p w' => valid_port p ∧ same_fds w w').
Proof.
  revert port w. induction fuel as [|fuel IH]; intros port w Hport; [by apply ends_ret|].
  simpl. set (p := if port + 1 >? kMaxPort then kMinPort else port + 1).
  assert (kMinPort ≤ p ≤ kMaxPort) as Hp.
  { unfold p. destruct (port + 1 >? kMaxPort) eqn:E; [done|]. unfold kMinPort, kMaxPort in *. lia. }
  apply (address_then BindToSomeAddress); [apply BindToSomeAddress_ends|]. intros fd w1 H1.
  destruct (Z.eqb_spec fd (-1)) as [->|Hfd]; simpl.
  - destruct H1 as [[_ H1]|[? _]]; [|lia]. eapply ends_mono; [apply IH; lia|]. intros q w2 [? H2].
    split; [done|]. unfold same_fds in *. by rewrite H2.
  - destruct H1 as [[? _]|H1]; [done|]. apply ends_bind, ends_check_err. intros err w2 E%close_law _.
    apply ends_ret. split; [by intros q [= <-]|]. by eapply new_closed.
Qed.

Lemma GetUnusedPortForTesting_ends fuel port w :
  port = -1 ∨ kMinPort ≤ port →
  ends (GetUnusedPortForTesting fuel port) w (fun p w' => valid_port p ∧ same_fds w w').
Proof.
  intros Hport. apply ends_bind. eapply ends_mono; [apply GetLocalAddress_ends|]. intros address w1 H1.
  apply ends_bind. eapply (ends_mono _ _ (fun p w2 => kMinPort ≤ p ∧ same_fds w w2)).
  - destruct (Z.eqb_spec port (-1)); [|apply ends_ret; by destruct Hport].
    apply ends_bind, ends_call. intros n w2 [Hn E]%random_law. apply ends_ret. split; [|by etrans].
    pose proof (Z.rem_nonneg n (kMaxPort - kMinPort + 1) ltac:(done) Hn). lia.
  - intros p w2 [Hp H2]. eapply ends_mono; [apply unused_port_loop_ends; lia|]. intros q w3 [? H3].
    split; [done|by etrans].
Qed.

(** C23 (safety). No call leaks a file descriptor.  A call that opens a socket and
    returns has added one descriptor to the table, the one it returns, which was not
    open before and is non-blocking, and has left the others alone; if it returns -1,
    the table is what it was, whatever it tried.  A search for an unused port leaves
    the table as it was, and the port is one that needs no privilege. *)
Theorem no_descriptor_leaks address name text (listen_fd port static_port : Z) fuel w :
  ends (ListenOnLocalAddress address port) w (fun fd => opens fd w) ∧
  ends (ConnectToRemoteHost address port) w (fun fd => opens_or_fails fd w) ∧
  ends (ListenOnUnixSocket name) w (fun fd => opens fd w) ∧
  ends (ConnectToUnixSocket name) w (fun fd => opens fd w) ∧
  ends (AcceptConnection listen_fd text) w (fun r => opens_or_fails r.1 w) ∧
  (static_port = -1 ∨ kMinPort ≤ static_port →
   ends (GetUnusedPortForTesting fuel static_port) w (fun p w' => valid_port p ∧ same_fds w w')).
Proof.
  split_and!; [apply ListenOnLocalAddress_ends|apply ConnectToRemoteHost_ends|apply ListenOnUnixSocket_ends|
    apply ConnectToUnixSocket_ends|apply AcceptConnection_ends|apply GetUnusedPortForTesting_ends].
Qed.
End table.
End sockets.
End Sockets.

(** ** A system *)

(** Its calls fail as [outcomes] says, one entry for each call that can fail. *)
Record fake_system := { table : gmap Z bool; outcomes : list bool }.
Definition next_outcome (w : fake_system) : bool * fake_system :=
  match outcomes w with
  | [] => (true, w)
  | b :: l => (b, {| table := table w; outcomes := l |})
  end.
Definition with_table (f : gmap Z bool → gmap Z bool) (w : fake_system) : fake_system :=
  {| table := f (table w); outcomes := outcomes w |}.
Definition free_fd (w : fake_system) : Z := fresh (dom (table w) ∪ {[-1]} ∪ set_map Z.opp (dom (table w))).
Definition attempt (f : gmap Z bool → gmap Z bool) (w : fake_system) : Z * fake_system :=
  let '(ok, w) := next_outcome w in if ok then (0, with_table f w) else (-1, w).
Definition open_fd (nonblock : bool) (w : fake_system) : Z * fake_system :=
  let '(ok, w) := next_outcome w in
  let fd := Z.abs (free_fd w) in
  if ok then (fd, with_table <[fd := nonblock]> w) else (-1, w).

Definition ipv4 (s : string) : sockaddr := {| sa_family := AF_INET; sa_data := String.list_ascii_of_string s |}.
Definition tcp_address (s : string) : addrinfo :=
  {| ai_flags := 0; ai_family := AF_INET; ai_socktype := SOCK_STREAM; ai_protocol := 6; ai_addr := Some (ipv4 s) |}.

#[local] Instance fake_calls : System fake_system := {
  sys_socket _ t _ := open_fd (negb (Z.land t O_NONBLOCK =? 0));
  sys_bind _ _ := attempt id;
  sys_connect _ _ := attempt id;
  sys_listen _ _ := attempt id;
  sys_accept4 _ f w :=
    let '(fd, w) := open_fd (negb (Z.land f O_NONBLOCK =? 0)) w in
    (if fd =? -1 then inl EAGAIN else inr (fd, ipv4 "10.0.0.2", 16), w);
  sys_close fd w := (0, with_table (delete fd) w);
  sys_write _ _ := attempt id;
  sys_read _ w := (inr 8, w);
  sys_eventfd _ f := open_fd (negb (Z.land f O_NONBLOCK =? 0));
  sys_pthread_create w := (0, w);
  sys_pthread_join w := (0, w);
  sys_getfl _ := attempt id;
  sys_setfl fd flags := attempt (alter (fun _ => negb (Z.land flags O_NONBLOCK =? 0)) fd);
  sys_getaddrinfo a _ _ w := ((0, [tcp_address a; tcp_address a]), w);
  sys_freeaddrinfo _ w := w;
  sys_getifaddrs w :=
    ((0, [{| ifa_flags := IFF_LOOPBACK; ifa_addr := Some (ipv4 "127.0.0.1") |};
          {| ifa_flags := 0; ifa_addr := Some (ipv4 "10.0.0.1") |}]), w);
  sys_freeifaddrs _ w := w;
  sys_inet_ntop a := Some (String.string_of_list_ascii (sa_data a));
  sys_random w := (4, w);
}.

Lemma next_outcome_table w : table (next_outcome w).2 = table w.
Proof. unfold next_outcome. by destruct (outcomes w). Qed.
Lemma attempt_table f w r w' : attempt f w = (r, w') → (r = -1 ∧ table w' = table w) ∨ (r ≠ -1 ∧ table w' = f (table w)).
Proof.
  unfold attempt. pose proof (next_outcome_table w) as E. destruct (next_outcome w) as [[] w1]; intros [= <- <-];
    simpl in *; rewrite E; [by right|by left].
Qed.
Lemma attempt_id w r w' : attempt id w = (r, w') → table w' = table w.
Proof. by intros [[_ ?]|[_ ?]]%attempt_table. Qed.
Lemma free_fd_ok w : 0 ≤ Z.abs (free_fd w) ∧ Z.abs (free_fd w) ≠ -1 ∧ table w !! Z.abs (free_fd w) = None.
Proof.
  pose proof (is_fresh (dom (table w) ∪ {[-1]} ∪ set_map Z.opp (dom (table w)))) as Hf. fold (free_fd w) in Hf.
  apply not_elem_of_union in Hf as [[Hd _]%not_elem_of_union Ho]. split_and!; [lia..|]. apply not_elem_of_dom.
  destruct (Z.abs_spec (free_fd w)) as [[_ ->]|[_ ->]]; [done|]. intros Hin. apply Ho. apply elem_of_map.
  exists (- free_fd w). split; [lia|done].
Qed.
Lemma open_fd_table nb w fd w' : open_fd nb w = (fd, w') →
  (fd = -1 ∧ table w' = table w) ∨ (0 ≤ fd ∧ table w !! fd = None ∧ table w' = <[fd := nb]> (table w)).
Proof.
  unfold open_fd. pose proof (next_outcome_table w) as E. destruct (next_outcome w) as [[] w1]; intros [= <- <-];
    simpl in *; rewrite <- E; [right|by left]. destruct (free_fd_ok w1) as (? & _ & ?). by split_and!.
Qed.

#[local] Instance fake_laws : SystemLaws fake_system.
Proof.
  refine {| fdt := table |}; simpl; try done; repeat match goal with |- (_ = (_, _)) → _ => fail 1 | |- _ => intro end.
  all: try apply attempt_id; try apply attempt_table; try apply open_fd_table; try (by intros [= _ <-]).
  - destruct (open_fd _ w) as [fd w1] eqn:E. apply open_fd_table in E as [[-> E]|(Hfd & Hn & E)]; intros [= <- <-]; [done|].
    destruct (Z.eqb_spec fd (-1)); [lia|done].
  - by intros [= <- <-].
Defined.

(** The first address cannot be bound, the second one can; and no address can. *)
Lemma no_descriptor_leaks_witness :
  let w := {| table := {[ 5 := true ]}; outcomes := [true; true; true; false; true] |} in
  let w_none := {| table := {[ 5 := true ]}; outcomes := [true; false; true; false] |} in
  (∃ fd w', Sockets.ListenOnLocalAddress "10.0.0.1" 1025 w = Ok (fd, w') ∧ Sockets.opens fd w w') ∧
  (∃ w', Sockets.ConnectToRemoteHost "10.0.0.1" 1025 w_none = Ok (-1, w') ∧ table w' = table w_none).
Proof.
  intros w w_none. split.
  - destruct (Sockets.ListenOnLocalAddress "10.0.0.1" 1025 w) as [[fd w']| |] eqn:E; [|vm_compute in E; discriminate..].
    exists fd, w'. split; [done|].
    destruct (Sockets.no_descriptor_leaks "10.0.0.1" "s" "" 3 1025 (-1) 5 w) as [H1 _]. by apply H1.
  - destruct (Sockets.ConnectToRemoteHost "10.0.0.1" 1025 w_none) as [[fd w']| |] eqn:E; [|vm_compute in E; discriminate..].
    destruct (Sockets.no_descriptor_leaks "10.0.0.1" "s" "" 3 1025 (-1) 5 w_none) as (_ & H1 & _).
    destruct (H1 fd w' E) as [[-> Hs]|[Hfd _]]; [by exists w'|].
    vm_compute in E. injection E as <- _. by destruct Hfd.
Defined.

(** An interface without an address: [ifa_addr] is null and is dereferenced. *)
Example interface_without_address :
  Sockets.local_address_loop [{| ifa_flags := 0; ifa_addr := None |}; {| ifa_flags := 0; ifa_addr := Some (ipv4 "10.0.0.1") |}]
    (AF_UNSPEC, "") = Undef.
Proof. reflexivity. Qed.

(** A server with a thousand open descriptors: the next one does not fit into the
    set for [select]. *)
Example descriptor_does_not_fit : Sockets.AddFdToSet 1024 ∅ 0 = Undef.
Proof. reflexivity. Qed.
