(* ===== verification/ServerSockets.v ===== *)
(** * The file descriptors of a server

    [protocol_server/protocol_server.h] again: file [ProtocolServer] says how
    connections move between its threads, [Sockets] what its system calls do to the
    table of open descriptors.  Here the two are put together: the life of a server
    from [Start] to [Stop], with its listening socket, its event descriptor, the
    sockets of its connections and the descriptor sets for [select].  What [select]
    answers is an input. *)
From S2P Require Import Prelude Varint Protocol Queues ProtocolServer Sockets.
From stdpp Require Import base tactics list strings gmap sets relations.
From Stdlib Require Import ZArith Lia.
#[local] Open Scope string_scope.
#[local] Open Scope Z_scope.

Module ServerSockets.
Import Sockets.
Section server.
Context {W H Msg : Type} `{System W} `{ProtoMessage Msg} `{ConnectionHandler H Msg}.

Abbreviation act := (OS (W := W)).

(** The sets of [DoSelectLoop]. *)
Record fd_sets := mkSets { read_fd_set : gset Z; write_fd_set : gset Z; nfds : Z }.

Record t := mk {
  server : ProtocolServer.t H;
  listen_fd_ : Z;
  connections_changed_event_fd_ : Z;
  state_ : StateVariable.t;
  (** [socket_fd_] of each connection *)
  socket_fds : gmap nat Z;
  sets : fd_sets;
}.

Definition set_server s x := mk s (listen_fd_ x) (connections_changed_event_fd_ x) (state_ x) (socket_fds x) (sets x).
Definition set_state st x := mk (server x) (listen_fd_ x) (connections_changed_event_fd_ x) st (socket_fds x) (sets x).
Definition set_fds fds x := mk (server x) (listen_fd_ x) (connections_changed_event_fd_ x) (state_ x) fds (sets x).
Definition set_sets z x := mk (server x) (listen_fd_ x) (connections_changed_event_fd_ x) (state_ x) (socket_fds x) z.

(** The constructor. *)
Definition New : res t :=
  q ← ProducerConsumerQueue.New (-1);
  v ← lifecycle;
  Ok (mk (ProtocolServer.mk q ∅ ProtocolServer.SelTop [] ∅ [] 0) (-1) (-1) v ∅ (mkSets ∅ ∅ 0)).

Definition ChangeState (new_state : Z) (x : t) : act t :=
  v ← lift (StateVariable.ChangeState new_state (state_ x)); mret (set_state v x).

(** [CHECK_PTHREAD_ERR(pthread_...)], [count] times. *)
Fixpoint pthread_calls (f : W → Z * W) (count : nat) : act unit :=
  match count with
  | O => mret tt
  | S count => e ← call f; _ ← check (e =? 0); pthread_calls f count
  end.

Definition EFD_CLOEXEC : Z := 0x80000.

Definition Start (local_address : string) (listen_port : Z) (send_receive_thread_count : nat) (x : t) : act t :=
  _ ← check (negb (bool_decide (send_receive_thread_count = 0%nat)));
  x ← ChangeState STARTING x;
  listen_fd ← ListenOnLocalAddress local_address listen_port;
  event_fd ← call (sys_eventfd 0 EFD_CLOEXEC);
  _ ← check (negb (event_fd =? -1));
  b ← SetFdToNonBlocking event_fd;
  _ ← check b;
  _ ← pthread_calls sys_pthread_create (S send_receive_thread_count);
  s ← lift (ProtocolServer.AddConnectionToReadyConnections None (server x));
  ChangeState RUNNING (mk s listen_fd event_fd (state_ x) (socket_fds x) (sets x)).

Definition CreateConnection (handler : H) (socket_fd : Z) (x : t) : act t :=
  s ← lift (ProtocolServer.CreateConnection socket_fd handler (server x));
  mret (set_fds (<[ProtocolServer.next_pointer (server x) := socket_fd]> (socket_fds x)) (set_server s x)).

Definition OpenConnection (handler : H) (address : string) (port : Z) (x : t) : act t :=
  socket_fd ← ConnectToRemoteHost address port;
  if socket_fd =? -1 then mret x else CreateConnection handler socket_fd x.

(** [handler]: what [NotifyConnectionReceived] returns for the new connection. *)
Definition AcceptSingleConnection (handler : H) (x : t) : act (bool * t) :=
  r ← AcceptConnection (listen_fd_ x) "";
  if r.1 =? -1 then mret (false, x) else
  x ← CreateConnection handler r.1 x;
  mret (true, x).

(** The loop of [SendAndReceiveData], for a connection that the thread has taken;
    [received] and [sent] are what [recv] and [send] return. *)
Definition serve (connection : option nat) (handler : H) (received : recv_result) (sent : send_result) (x : t) : act t :=
  r ← match connection with
      | None => '(accepted, x) ← AcceptSingleConnection handler x; mret (negb accepted, x)
      | Some _ =>
          r ← lift (ProtocolServer.serve_connection (Msg := Msg) connection
                      {| ProtocolServer.io_accept := None; ProtocolServer.io_recv := received; ProtocolServer.io_send := sent |}
                      (server x));
          mret (r.1, set_server r.2 x)
      end;
  let '(blocked, x) := r in
  if (blocked : bool) then
    s ← lift (ProtocolServer.insert_blocked connection (server x));
    _ ← SignalEventFd (connections_changed_event_fd_ x);
    mret (set_server s x)
  else
    s ← lift (ProtocolServer.AddConnectionToReadyConnections connection (server x));
    mret (set_server s x).

(** *** [DoSelectLoop] *)
Definition add_read (fd : Z) (z : fd_sets) : res fd_sets :=
  '(fds, n) ← AddFdToSet fd (read_fd_set z) (nfds z); Ok (mkSets fds (write_fd_set z) n).
Definition add_write (fd : Z) (z : fd_sets) : res fd_sets :=
  '(fds, n) ← AddFdToSet fd (write_fd_set z) (nfds z); Ok (mkSets (read_fd_set z) fds n).

(** The start of an iteration. *)
Definition select_swap (x : t) : act t :=
  _ ← ClearEventFd (connections_changed_event_fd_ x);
  mret (set_sets (mkSets ∅ ∅ 0) (set_server (ProtocolServer.select_swap (server x)) x)).

(** [connection->CloseSocket()]. *)
Definition CloseSocket (i : nat) (x : t) : act t :=
  fd ← lift (deref (socket_fds x !! i));
  _ ← check_err (call (sys_close fd));
  mret (set_fds (delete i (socket_fds x)) x).

(** The descriptor sets after the visit of a connection that stays. *)
Definition visit_sets (connection : option nat) (x : t) : res fd_sets :=
  match connection with
  | None => add_read (listen_fd_ x) (sets x)
  | Some i =>
      fd ← deref (socket_fds x !! i);
      c ← deref (ProtocolServer.connections (server x) !! i);
      '(b, c) ← ProtocolConnectionImpl.IsBlocked (Msg := Msg) c;
      if (b : bool) then
        z ← add_read fd (sets x);
        '(o, _) ← ProtocolConnectionImpl.PrivateHasOutputData (Msg := Msg) c;
        if (o : bool) then add_write fd z else Ok z
      else Ok (sets x)
  end.

(** The body of its first loop. *)
Definition select_visit (connection : option nat) (to_visit kept : list (option nat)) (x : t) : act t :=
  closing ← match connection with
            | None => mret None
            | Some i =>
                c ← lift (deref (ProtocolServer.connections (server x) !! i));
                mret (if ProtocolConnectionImpl.close_requested_ c then Some i else None)
            end;
  match closing with
  | Some i =>
      x ← CloseSocket i x;
      s ← lift (ProtocolServer.select_visit (Msg := Msg) connection to_visit kept (server x));
      mret (set_server s x)
  | None =>
      z ← lift (visit_sets connection x);
      s ← lift (ProtocolServer.select_visit (Msg := Msg) connection to_visit kept (server x));
      mret (set_sets z (set_server s x))
  end.

(** [select]: the descriptors that are left in the sets are those that are ready. *)
Definition select_call (ready_reads ready_writes : gset Z) (kept : list (option nat)) (x : t) : act t :=
  z ← lift (add_read (connections_changed_event_fd_ x) (sets x));
  let z := mkSets (read_fd_set z ∩ ready_reads) (write_fd_set z ∩ ready_writes) (nfds z) in
  _ ← check (negb (bool_decide (read_fd_set z ∪ write_fd_set z = ∅)));
  mret (set_sets z (set_server (ProtocolServer.set_select (ProtocolServer.SelDistribute kept) (server x)) x)).

(** [FD_ISSET] of the connection's socket. *)
Definition is_ready (connection : option nat) (x : t) : res bool :=
  match connection with
  | None => Ok (bool_decide (listen_fd_ x ∈ read_fd_set (sets x)))
  | Some i =>
      fd ← deref (socket_fds x !! i);
      Ok (bool_decide (fd ∈ read_fd_set (sets x)) || bool_decide (fd ∈ write_fd_set (sets x)))
  end.

Definition select_put_back (connection : option nat) (rest : list (option nat)) (x : t) : act t :=
  ready ← lift (is_ready connection x);
  s ← lift (ProtocolServer.select_put_back connection rest ready (server x));
  mret (set_server s x).

(** A connection has a message to send, or its state changed. *)
Definition NotifyConnectionsChanged (x : t) : act unit := SignalEventFd (connections_changed_event_fd_ x).

(** *** [Stop] *)
Definition Stop_begin (x : t) : act t :=
  x ← ChangeState STOPPING x;
  let s := server x in
  _ ← SignalEventFd (connections_changed_event_fd_ x);
  mret (set_server (ProtocolServer.set_ready (ProducerConsumerQueue.Drain (ProtocolServer.ready_connections_ s)) s) x).

Fixpoint close_all (connections : list nat) (x : t) : act t :=
  match connections with
  | [] => mret x
  | i :: rest => x ← CloseSocket i x; close_all rest x
  end.

(** From the joins on: the threads have ended. *)
Definition Stop_end (send_receive_thread_count : nat) (x : t) : act t :=
  _ ← pthread_calls sys_pthread_join (S send_receive_thread_count);
  _ ← check_err (call (sys_close (connections_changed_event_fd_ x)));
  _ ← check_err (call (sys_close (listen_fd_ x)));
  all_connections ← lift (ProtocolServer.stop_collect (server x));
  x ← close_all (elements all_connections) x;
  let s := ProtocolServer.set_blocked ∅ (server x) in
  let q := ProtocolServer.ready_connections_ s in
  ChangeState STOPPED
    (set_server (ProtocolServer.set_ready (ProducerConsumerQueue.mk (ProducerConsumerQueue.max_size_ q) []
       (ProducerConsumerQueue.draining_ q)) s) x).

(** The destructor. *)
Definition Destroy (x : t) : res unit :=
  _ ← StateVariable.CheckState (Z.lor NOT_STARTED STOPPED) (state_ x);
  CHECK (bool_decide (size (ProtocolServer.blocked_connections_ (server x)) = 0%nat)).

(** ** The threads *)
Definition running (x : t) : Prop := StateVariable.MatchesStateMask RUNNING (state_ x) = Ok true.

(** One step of a thread, of [OpenConnection] or of [Stop] before it joins the
    threads. *)
Inductive step : t * W → t * W → Prop :=
| s_open h address port x w x' w' :
    OpenConnection h address port x w = Ok (x', w') → step (x, w) (x', w')
| s_take x w s' :
    running x → ProtocolServer.take_ready (server x) = Some s' → step (x, w) (set_server s' x, w)
| s_serve c h received sent (hs hs' : list (option nat)) x w x' w' :
    ProtocolServer.in_hand (server x) = (hs ++ c :: hs')%list →
    serve c h received sent (set_server (ProtocolServer.set_in_hand (hs ++ hs')%list (server x)) x) w = Ok (x', w') →
    step (x, w) (x', w')
| s_swap x w x' w' :
    running x → ProtocolServer.select_thread_ (server x) = ProtocolServer.SelTop →
    select_swap x w = Ok (x', w') → step (x, w) (x', w')
| s_visit c l k x w x' w' :
    ProtocolServer.select_thread_ (server x) = ProtocolServer.SelScan (c :: l) k →
    select_visit c l k x w = Ok (x', w') → step (x, w) (x', w')
| s_select ready_reads ready_writes k x w x' w' :
    ProtocolServer.select_thread_ (server x) = ProtocolServer.SelScan [] k →
    select_call ready_reads ready_writes k x w = Ok (x', w') → step (x, w) (x', w')
| s_put_back c l x w x' w' :
    ProtocolServer.select_thread_ (server x) = ProtocolServer.SelDistribute (c :: l) →
    select_put_back c l x w = Ok (x', w') → step (x, w) (x', w')
| s_loop x w :
    ProtocolServer.select_thread_ (server x) = ProtocolServer.SelDistribute [] →
    step (x, w) (set_server (ProtocolServer.set_select ProtocolServer.SelTop (server x)) x, w)
| s_notify x w w' : NotifyConnectionsChanged x w = Ok (tt, w') → step (x, w) (x, w')
| s_stop x w x' w' : Stop_begin x w = Ok (x', w') → step (x, w) (x', w').
End server.
Arguments t : clear implicits.

(** ** The descriptors that a server has *)
Section descriptors.
Context {W H Msg : Type} `{SystemLaws W} `{ProtoMessage Msg} `{ConnectionHandler H Msg}.
Implicit Types (x : t H) (w : W) (D : gset Z).

(** [D]: the descriptors that were opened since [w0] and are still open. *)
Definition holds (w0 : W) (D : gset Z) (w : W) : Prop :=
  D ## dom (fdt w0) ∧ fdt w = (gset_to_gmap true D ∪ fdt w0).

Lemma holds_none w0 w : holds w0 ∅ w ↔ fdt w = fdt w0.
Proof. unfold holds. rewrite gset_to_gmap_empty, (left_id_L ∅ (∪)). (split; [by intros [_ ?]|split; [set_solver|done]]). Qed.
Lemma holds_same w0 D w w' : holds w0 D w → fdt w' = fdt w → holds w0 D w'.
Proof. intros [HD Hw] E. split; [done|]. by rewrite E. Qed.
Lemma holds_add w0 D fd w w' : holds w0 D w → opens fd w w' → (fd ∉ D) ∧ holds w0 ({[fd]} ∪ D) w'.
Proof.
  intros [HD Hw] (_ & Hn & E). rewrite Hw, lookup_union_None, lookup_gset_to_gmap_None, <- not_elem_of_dom in Hn.
  destruct Hn as [Hn Hn0]. split; [done|]. split; [set_solver|].
  by rewrite E, Hw, gset_to_gmap_union_singleton, insert_union_l.
Qed.
Lemma holds_remove w0 D fd w w' :
  holds w0 D w → fd ∈ D → fdt w' = delete fd (fdt w) → holds w0 (D ∖ {[fd]}) w'.
Proof.
  intros [HD Hw] Hfd E. split; [set_solver|]. rewrite E, Hw, delete_union, gset_to_gmap_difference_singleton.
  f_equal. apply delete_id, not_elem_of_dom. set_solver.
Qed.
Lemma holds_open w0 D fd w : holds w0 D w → fd ∈ D → is_Some (fdt w !! fd).
Proof. intros [_ ->] Hfd. apply lookup_union_is_Some. left. exists true. by apply lookup_gset_to_gmap_Some. Qed.

Definition socket_set (fds : gmap nat Z) : gset Z := map_img fds.
(** The descriptors that the server's variables name. *)
Definition owned x : gset Z := ({[listen_fd_ x; connections_changed_event_fd_ x]} : gset Z) ∪ socket_set (socket_fds x).

Record distinct x : Prop := {
  d_sockets : ∀ i j fd, socket_fds x !! i = Some fd → socket_fds x !! j = Some fd → i = j;
  d_listen : listen_fd_ x ∉ socket_set (socket_fds x);
  d_event : connections_changed_event_fd_ x ∉ socket_set (socket_fds x);
  d_two : listen_fd_ x ≠ connections_changed_event_fd_ x;
}.

(** The descriptors in the sets belong to what the select thread has kept. *)
Definition of_kept x (kept : list (option nat)) (fd : Z) : Prop :=
  (fd = listen_fd_ x ∧ None ∈ kept) ∨ ∃ i, Some i ∈ kept ∧ socket_fds x !! i = Some fd.
Definition set_members x : gset Z := read_fd_set (sets x) ∪ write_fd_set (sets x).
Definition sets_ok x : Prop :=
  match ProtocolServer.select_thread_ (server x) with
  | ProtocolServer.SelScan _ kept => 0 ≤ nfds (sets x) ∧ ∀ fd, fd ∈ set_members x → of_kept x kept fd ∧ 0 ≤ fd < nfds (sets x)
  | _ => True
  end.

Record fds_ok (w0 : W) x w : Prop := {
  f_sockets : dom (socket_fds x) = dom (ProtocolServer.connections (server x));
  f_distinct : distinct x;
  f_holds : holds w0 (owned x) w;
  f_sets : sets_ok x;
  f_lifecycle : (STOPPING, STOPPED) ∈ StateVariable.state_transitions_ (state_ x);
}.

(** A change to the server that leaves descriptors and connections alone. *)
Lemma fds_ok_frame w0 x x' w w' :
  fds_ok w0 x w → socket_fds x' = socket_fds x → listen_fd_ x' = listen_fd_ x →
  connections_changed_event_fd_ x' = connections_changed_event_fd_ x →
  dom (ProtocolServer.connections (server x')) = dom (ProtocolServer.connections (server x)) →
  sets_ok x' → StateVariable.state_transitions_ (state_ x') = StateVariable.state_transitions_ (state_ x) →
  fdt w' = fdt w → fds_ok w0 x' w'.
Proof.
  intros [Hs [] Hh _ ?] Es El Ee Ed Hsets Et Ew.
  split; [by rewrite Es, Ed|split; by rewrite ?Es, ?El, ?Ee| |done|by rewrite Et].
  unfold owned in *. rewrite Es, El, Ee. by eapply holds_same.
Qed.

Lemma sets_ok_frame x x' :
  sets_ok x → sets x' = sets x → socket_fds x' = socket_fds x → listen_fd_ x' = listen_fd_ x →
  ProtocolServer.select_thread_ (server x') = ProtocolServer.select_thread_ (server x) → sets_ok x'.
Proof. unfold sets_ok, of_kept, set_members. by intros ? -> -> -> ->. Qed.

(** [set_server]: the server's part changes, within the same connections. *)
Lemma fds_ok_server w0 x w w' s :
  fds_ok w0 x w → dom (ProtocolServer.connections s) = dom (ProtocolServer.connections (server x)) →
  ProtocolServer.select_thread_ s = ProtocolServer.select_thread_ (server x) → fdt w' = fdt w →
  fds_ok w0 (set_server s x) w'.
Proof.
  intros Hx Hd Hst Ew. eapply fds_ok_frame; try done. eapply sets_ok_frame; [by apply Hx|done..].
Qed.

Definition fresh_pointer x : Prop :=
  ∀ i, i ∈ dom (ProtocolServer.connections (server x)) → (i < ProtocolServer.next_pointer (server x))%nat.

(** *** Making a connection *)
Lemma create_frame fd h (s s' : ProtocolServer.t H) :
  ProtocolServer.CreateConnection fd h s = Ok s' →
  dom (ProtocolServer.connections s') = {[ProtocolServer.next_pointer s]} ∪ dom (ProtocolServer.connections s) ∧
  ProtocolServer.select_thread_ s' = ProtocolServer.select_thread_ s.
Proof.
  intros Hc. apply bind_Ok in Hc as (c & _ & Hc). apply bind_Ok in Hc as (c' & _ & Hc).
  apply add_ready_places in Hc as (_ & -> & _ & ->). by cbn; rewrite dom_insert_L.
Qed.

Lemma create_ok w0 fd h x w w1 :
  fds_ok w0 x w → fresh_pointer x → opens fd w w1 →
  ends (CreateConnection h fd x) w1 (fun x' w' =>
    fds_ok w0 x' w' ∧ ProtocolServer.CreateConnection fd h (server x) = Ok (server x')).
Proof.
  intros [Hs Hd Hh Hsets Ht] Hfresh Ho. apply ends_bind, ends_lift. intros s Hc. apply ends_ret. split; [|done].
  destruct (create_frame _ _ _ _ Hc) as [Hdom Hst]. set (p := ProtocolServer.next_pointer (server x)) in *.
  assert (socket_fds x !! p = None) as Hp.
  { apply not_elem_of_dom. rewrite Hs. intros Hin%Hfresh. fold p in Hin. lia. }
  destruct (holds_add _ _ _ _ _ Hh Ho) as [Hfd Hh']. unfold owned, socket_set in *.
  assert (map_img (<[p := fd]> (socket_fds x)) =@{gset Z} {[fd]} ∪ map_img (socket_fds x)) as Himg
    by by apply map_img_insert_notin_L.
  assert (∀ i, socket_fds x !! i ≠ Some fd) as Hnone.
  { intros i Hi. apply Hfd, elem_of_union. right. by eapply elem_of_map_img_2. }
  split; cbn.
  - by rewrite dom_insert_L, Hdom, Hs.
  - destruct Hd as [Hi Hl He Hle]. split; cbn; unfold socket_set; rewrite ?Himg; [|set_solver..].
    intros i j fd'. rewrite !lookup_insert_Some. naive_solver.
  - unfold owned, socket_set. cbn. rewrite Himg. eapply (eq_rect _ (fun D => holds w0 D w1)); [exact Hh'|set_solver].
  - unfold sets_ok in *. cbn. rewrite Hst. destruct (ProtocolServer.select_thread_ (server x)); try done.
    destruct Hsets as [? Hsets]. split; [done|]. intros fd' Hin. destruct (Hsets fd' Hin) as [[?|(i & Hi & Hf)] ?]; split; try done;
      [by left|right]. exists i. split; [done|]. cbn. by rewrite lookup_insert_ne by (intros <-; congruence).
  - exact Ht.
Qed.

Lemma open_ok w0 h address port x w :
  fds_ok w0 x w → fresh_pointer x →
  ends (OpenConnection h address port x) w (fun x' w' =>
    fds_ok w0 x' w' ∧ ∃ fd, ProtocolServer.OpenConnection fd h (server x) = Ok (server x')).
Proof.
  intros Hx Hf. apply ends_bind. eapply ends_mono; [apply ConnectToRemoteHost_ends|]. intros fd w1 Hfd.
  destruct (Z.eqb_spec fd (-1)) as [->|Hne].
  - apply ends_ret. split; [|by exists (-1)]. destruct Hfd as [[_ Hs]|[? _]]; [|done].
    eapply fds_ok_frame; try done. apply Hx.
  - destruct Hfd as [[? _]|Ho]; [done|]. eapply ends_mono; [by apply (create_ok w0 _ _ _ w)|].
    intros x' w' [? Hc]. split; [done|]. exists fd. unfold ProtocolServer.OpenConnection.
    apply Z.eqb_neq in Hne. by rewrite Hne.
Qed.

Lemma accept_ok w0 h x w :
  fds_ok w0 x w → fresh_pointer x →
  ends (AcceptSingleConnection h x) w (fun r w' =>
    fds_ok w0 r.2 w' ∧
    ∃ accepted, ProtocolServer.AcceptSingleConnection accepted (server x) = Ok (r.1, server r.2)).
Proof.
  intros Hx Hf. apply ends_bind. eapply ends_mono; [apply AcceptConnection_ends|]. intros [fd text] w1 Hfd. simpl in *.
  destruct (Z.eqb_spec fd (-1)) as [->|Hne].
  - apply ends_ret. split; [|by exists None]. destruct Hfd as [[_ Hs]|[? _]]; [|done].
    eapply fds_ok_frame; try done. apply Hx.
  - destruct Hfd as [[? _]|Ho]; [done|]. apply ends_bind. eapply ends_mono; [by apply (create_ok w0 _ _ _ w)|].
    intros x' w' [? Hc]. apply ends_ret. split; [done|]. exists (Some (fd, h)). simpl. by rewrite Hc.
Qed.

(** *** Serving a connection *)
Lemma put_frame (s s' : ProtocolServer.t H) c :
  ProtocolServer.AddConnectionToReadyConnections c s = Ok s' ∨ ProtocolServer.insert_blocked c s = Ok s' →
  ProtocolServer.connections s' = ProtocolServer.connections s ∧
  ProtocolServer.select_thread_ s' = ProtocolServer.select_thread_ s.
Proof. by intros [(_ & ? & _ & ?)%add_ready_places|(_ & ? & _ & ?)%insert_blocked_places]. Qed.

Lemma dom_set_connection i c (s : ProtocolServer.t H) :
  is_Some (ProtocolServer.connections s !! i) →
  dom (ProtocolServer.connections (ProtocolServer.set_connection i c s)) = dom (ProtocolServer.connections s).
Proof. intros Hi%elem_of_dom. cbn. rewrite dom_insert_L. set_solver. Qed.

Lemma serve_connection_frame i io (s s' : ProtocolServer.t H) b :
  ProtocolServer.serve_connection (Msg := Msg) (Some i) io s = Ok (b, s') →
  dom (ProtocolServer.connections s') = dom (ProtocolServer.connections s) ∧
  ProtocolServer.select_thread_ s' = ProtocolServer.select_thread_ s.
Proof.
  intros Hs. apply bind_Ok in Hs as (c & Hc%deref_Ok & Hs). apply bind_Ok in Hs as ([c1 o] & _ & Hs).
  destruct (ProtocolConnectionImpl.close_requested_ c1);
    [|apply bind_Ok in Hs as ([b2 c2] & _ & Hs)]; injection Hs as _ <-; by rewrite dom_set_connection.
Qed.

Lemma SignalEventFd_ends fd w : ends (SignalEventFd fd) w (fun _ w' => fdt w' = fdt w).
Proof. apply ends_check_err. by intros e w' E%write_law _. Qed.
Lemma ClearEventFd_ends fd w : ends (ClearEventFd fd) w (fun _ w' => fdt w' = fdt w).
Proof. apply ends_bind, ends_call. intros [e|n] w' E%read_law; by apply ends_check. Qed.

Lemma serve_ok w0 c h received sent x w :
  fds_ok w0 x w → fresh_pointer x →
  ends (serve c h received sent x) w (fun x' w' =>
    fds_ok w0 x' w' ∧ ∃ io, ProtocolServer.serve (Msg := Msg) c io (server x) = Ok (server x')).
Proof.
  intros Hx Hf. unfold serve. apply ends_bind.
  eapply (ends_mono _ _ (fun r w' => fds_ok w0 r.2 w' ∧
    ∃ io, ProtocolServer.serve_connection (Msg := Msg) c io (server x) = Ok (r.1, server r.2))).
  - destruct c as [i|].
    + apply ends_bind, ends_lift. intros [b s] Hs. apply ends_ret. split; [|by eexists].
      apply serve_connection_frame in Hs as [Hd Hst]. by apply fds_ok_server with w.
    + apply ends_bind. eapply ends_mono; [by apply (accept_ok w0)|]. intros [b x'] w' [Hx' [a Ha]].
      apply ends_ret. split; [done|]. exists {| ProtocolServer.io_accept := a; ProtocolServer.io_recv := received;
        ProtocolServer.io_send := sent |}. cbn in *. by rewrite Ha.
  - intros [b x1] w1 [Hx1 [io Hio]]. simpl in *.
    assert (∀ s, (if b then ProtocolServer.insert_blocked c (server x1)
                  else ProtocolServer.AddConnectionToReadyConnections c (server x1)) = Ok s →
            ∃ io, ProtocolServer.serve (Msg := Msg) c io (server x) = Ok s) as Hserve.
    { intros s Hs. exists io. unfold ProtocolServer.serve. by rewrite Hio. }
    destruct b; apply ends_bind, ends_lift; intros s Hs; specialize (Hserve s Hs).
    + apply ends_bind. eapply ends_mono; [apply SignalEventFd_ends|]. intros [] w' E. apply ends_ret. split; [|done].
      destruct (put_frame _ _ _ (or_intror Hs)) as [Hc Hst]. apply fds_ok_server with w1; [done| |done|done]. by rewrite Hc.
    + apply ends_ret. split; [|done]. destruct (put_frame _ _ _ (or_introl Hs)) as [Hc Hst].
      apply fds_ok_server with w1; [done| |done|done]. by rewrite Hc.
Qed.

(** *** The select thread *)

(** [z'] is [z] with some descriptors of [P] added. *)
Definition grows (P : Z → Prop) (z z' : fd_sets) : Prop :=
  nfds z ≤ nfds z' ∧ ∀ fd, fd ∈ read_fd_set z' ∪ write_fd_set z' →
    fd ∈ read_fd_set z ∪ write_fd_set z ∨ (P fd ∧ 0 ≤ fd < nfds z').

Lemma server_grows_refl P z : grows P z z.
Proof. split; [done|]. by left. Qed.
Lemma server_grows_trans P z1 z2 z3 : grows P z1 z2 → grows P z2 z3 → grows P z1 z3.
Proof.
  intros [N1 M1] [N2 M2]. split; [lia|]. intros fd [Hfd|?]%M2; [|by right].
  apply M1 in Hfd as [?|[? ?]]; [by left|right; split; [done|lia]].
Qed.

Lemma AddFdToSet_Ok fd fds n fds' n' :
  AddFdToSet fd fds n = Ok (fds', n') → fds' = {[fd]} ∪ fds ∧ n ≤ n' ∧ 0 ≤ fd < n' ∧ 0 ≤ n.
Proof.
  intros E. apply bind_Ok in E as (? & Hfd & E). apply bind_Ok in E as (? & Hn & E).
  apply bind_Ok in E as (s & Hs & E). rewrite CHECK_Ok in Hfd, Hn. unfold FD_SET in Hs.
  destruct ((0 <=? fd) && (fd <? FD_SETSIZE)); [|done]. injection Hs as <-. injection E as <- <-.
  split; [done|]. destruct (Z.gtb_spec (fd + 1) n); lia.
Qed.
Lemma add_read_grows fd z z' : add_read fd z = Ok z' → grows (.= fd) z z'.
Proof.
  intros E. apply bind_Ok in E as ([fds n] & (-> & ? & ? & ?)%AddFdToSet_Ok & E). injection E as <-.
  split; [done|]. cbn. intros fd'. rewrite !elem_of_union, elem_of_singleton. naive_solver.
Qed.
Lemma add_write_grows fd z z' : add_write fd z = Ok z' → grows (.= fd) z z'.
Proof.
  intros E. apply bind_Ok in E as ([fds n] & (-> & ? & ? & ?)%AddFdToSet_Ok & E). injection E as <-.
  split; [done|]. cbn. intros fd'. rewrite !elem_of_union, elem_of_singleton. naive_solver.
Qed.

(** What one more kept connection allows. *)
Lemma of_kept_mono x x' k k' fd :
  of_kept x k fd → k ⊆ k' → listen_fd_ x' = listen_fd_ x →
  (∀ i, Some i ∈ k → socket_fds x' !! i = socket_fds x !! i) → of_kept x' k' fd.
Proof. unfold of_kept. intros [[-> ?]|(i & ? & ?)] Hk -> Hs; [left; auto|right]. exists i. rewrite Hs by done. auto. Qed.

Lemma sets_ok_grows x s l k l' k' z :
  sets_ok x → ProtocolServer.select_thread_ (server x) = ProtocolServer.SelScan l k →
  ProtocolServer.select_thread_ s = ProtocolServer.SelScan l' k' → k ⊆ k' →
  grows (of_kept x k') (sets x) z → sets_ok (set_sets z (set_server s x)).
Proof.
  unfold sets_ok, set_members. cbn. intros Hx E1 -> Hk [Hn Hz]. rewrite E1 in Hx. destruct Hx as [Hn0 Hx]. split; [lia|].
  intros fd [Hin|Hin]%Hz; [|done]. destruct (Hx fd Hin) as [? ?]. split; [|lia]. by eapply of_kept_mono.
Qed.

(** What the visit of a connection that is not closed does to the server. *)
Lemma visit_frame c l k (s s' : ProtocolServer.t H) :
  ProtocolServer.select_visit (Msg := Msg) c l k s = Ok s' →
  (∀ i cn, c = Some i → ProtocolServer.connections s !! i = Some cn → ProtocolConnectionImpl.close_requested_ cn = false) →
  dom (ProtocolServer.connections s') = dom (ProtocolServer.connections s) ∧
  ∃ k', ProtocolServer.select_thread_ s' = ProtocolServer.SelScan l k' ∧ k ⊆ k' ∧
    (k' = (k ++ [c])%list ∨ ∃ i cn cn', c = Some i ∧ ProtocolServer.connections s !! i = Some cn ∧
       ProtocolConnectionImpl.IsBlocked (Msg := Msg) cn = Ok (false, cn')).
Proof.
  intros Hv Hopen. destruct c as [i|]; simpl in Hv.
  2: { injection Hv as <-. split; [done|]. eexists. split; [done|]. split; [set_solver|by left]. }
  apply bind_Ok in Hv as (cn & Hcn%deref_Ok & Hv). rewrite (Hopen i cn) in Hv by done.
  apply bind_Ok in Hv as ([b c1] & Hb & Hv). destruct b.
  - apply bind_Ok in Hv as ([o c2] & _ & Hv). injection Hv as <-. split; [by apply dom_set_connection|].
    eexists. split; [done|]. split; [set_solver|by left].
  - apply bind_Ok in Hv as (s2 & Hadd & Hv). injection Hv as <-. destruct (put_frame _ _ _ (or_introl Hadd)) as [Hc _].
    split; [cbn; rewrite Hc; by apply dom_set_connection|]. exists k. split; [done|]. split; [done|right].
    by exists i, cn, c1.
Qed.

Lemma visit_sets_grows c x z k' :
  visit_sets (Msg := Msg) c x = Ok z →
  c ∈ k' ∨ (∃ i cn cn', c = Some i ∧ ProtocolServer.connections (server x) !! i = Some cn ∧
       ProtocolConnectionImpl.IsBlocked (Msg := Msg) cn = Ok (false, cn')) →
  grows (of_kept x k') (sets x) z.
Proof.
  assert (∀ fd z z', of_kept x k' fd → grows (.= fd) z z' → grows (of_kept x k') z z') as Hweak.
  { intros fd z1 z2 Hfd [Hn Hz]. split; [done|]. intros fd' [?|[-> ?]]%Hz; [by left|by right]. }
  intros Hz Hc. destruct c as [i|]; simpl in Hz.
  - apply bind_Ok in Hz as (fd & Hfd%deref_Ok & Hz). apply bind_Ok in Hz as (cn & Hcn%deref_Ok & Hz).
    apply bind_Ok in Hz as ([b c1] & Hb & Hz). destruct b; [|injection Hz as <-; apply server_grows_refl].
    destruct Hc as [Hc|(i' & cn' & c' & [= <-] & ? & ?)]; [|congruence].
    assert (of_kept x k' fd) as Hk by (right; by exists i).
    apply bind_Ok in Hz as (z1 & Hz1%add_read_grows & Hz). apply bind_Ok in Hz as ([o c2] & _ & Hz).
    apply server_grows_trans with z1; [by eapply Hweak|]. destruct o; [|injection Hz as <-; apply server_grows_refl].
    apply add_write_grows in Hz. by eapply Hweak.
  - destruct Hc as [Hc|(? & ? & ? & [=] & _)]. apply add_read_grows in Hz. eapply Hweak; [|exact Hz]. by left.
Qed.

Definition injective (fds : gmap nat Z) : Prop := ∀ i j fd, fds !! i = Some fd → fds !! j = Some fd → i = j.

Lemma socket_set_delete i fd fds :
  injective fds → fds !! i = Some fd →
  socket_set (delete i fds) = socket_set fds ∖ {[fd]} ∧ fd ∈ socket_set fds ∧ injective (delete i fds).
Proof.
  intros Hi Hfd. unfold socket_set. split_and!; [|by eapply elem_of_map_img_2|].
  - apply set_eq. intros fd'. rewrite elem_of_difference, !elem_of_map_img, elem_of_singleton.
    setoid_rewrite lookup_delete_Some. naive_solver.
  - intros j j' fd' [_ ?]%lookup_delete_Some [_ ?]%lookup_delete_Some. by eapply Hi.
Qed.

Lemma sockets_delete i fd x :
  distinct x → socket_fds x !! i = Some fd →
  owned (set_fds (delete i (socket_fds x)) x) = owned x ∖ {[fd]} ∧ fd ∈ owned x ∧
  distinct (set_fds (delete i (socket_fds x)) x).
Proof.
  intros [Hi Hl He Hle] Hfd. destruct (socket_set_delete _ _ _ Hi Hfd) as (Himg & Hin & Hi'). split_and!.
  - unfold owned. cbn. rewrite Himg.
    assert (listen_fd_ x ≠ fd ∧ connections_changed_event_fd_ x ≠ fd) as [? ?] by (split; congruence). set_solver.
  - unfold owned. set_solver.
  - split; cbn; rewrite ?Himg, ?not_elem_of_difference; [exact Hi'|by left|by left|done].
Qed.

Lemma CloseSocket_ends w0 i x w :
  distinct x → holds w0 (owned x) w →
  ends (CloseSocket i x) w (fun x' w' => x' = set_fds (delete i (socket_fds x)) x ∧
    distinct x' ∧ holds w0 (owned x') w').
Proof.
  intros Hd Hh. apply ends_bind, ends_lift. intros fd Hfd%deref_Ok.
  apply ends_bind, ends_check_err. intros e w' E%close_law _. apply ends_ret. split; [done|].
  destruct (sockets_delete _ _ _ Hd Hfd) as (-> & ? & ?). split; [done|]. by eapply holds_remove.
Qed.

(** A connection that the select thread visits is not among those it has kept. *)
Lemma visited_not_kept i l k (s : ProtocolServer.t H) :
  server_inv s → ProtocolServer.select_thread_ s = ProtocolServer.SelScan (Some i :: l) k → Some i ∉ k.
Proof.
  intros [Hp _] Hst Hk. specialize (Hp (Some i)). unfold places, select_items in Hp. rewrite Hst in Hp.
  rewrite cnt_app, cnt_cons, (decide_True (P := Some i = Some i)) in Hp by done.
  assert (cnt (Some i) k ≠ 0)%nat as Hk0 by by intros E%cnt_zero.
  assert (expected (Some i) s ≤ 1)%nat by (clear; unfold expected; case_decide; lia). lia.
Qed.

Lemma visit_ok w0 c l k x w :
  fds_ok w0 x w → server_inv (server x) →
  ProtocolServer.select_thread_ (server x) = ProtocolServer.SelScan (c :: l) k →
  ends (select_visit (Msg := Msg) c l k x) w (fun x' w' => fds_ok w0 x' w' ∧
    ProtocolServer.select_visit (Msg := Msg) c l k (server x) = Ok (server x')).
Proof.
  intros Hx Hinv Hst. unfold select_visit.
  set (is_closing := fun i => ∃ cn, ProtocolServer.connections (server x) !! i = Some cn ∧
    ProtocolConnectionImpl.close_requested_ cn = true).
  apply ends_bind. eapply (ends_mono _ _ (fun closing w1 => w1 = w ∧
    match closing with
    | Some i => c = Some i ∧ is_closing i
    | None => ∀ i cn, c = Some i → ProtocolServer.connections (server x) !! i = Some cn →
                ProtocolConnectionImpl.close_requested_ cn = false
    end)).
  { destruct c as [i|]; [|by apply ends_ret]. apply ends_bind, ends_lift. intros cn Hcn%deref_Ok. apply ends_ret.
    split; [done|]. destruct (ProtocolConnectionImpl.close_requested_ cn) eqn:E.
    - split; [done|]. by exists cn.
    - intros ? cn' [= <-] ?. congruence. }
  intros [i|] w1 [-> Hc].
  - destruct Hc as [-> (cn & Hcn & Hclose)]. destruct Hx as [Hs Hd Hh Hsets Ht].
    apply ends_bind. eapply ends_mono; [by apply CloseSocket_ends|]. intros x1 w1 (-> & Hd1 & Hh1).
    apply ends_bind, ends_lift. intros s Hv. apply ends_ret. split; [|done].
    cbn in Hv. rewrite Hcn in Hv. cbn in Hv. rewrite Hclose in Hv. injection Hv as <-.
    pose proof (visited_not_kept _ _ _ _ Hinv Hst) as Hi.
    split; [cbn; by rewrite !dom_delete_L, Hs|split; apply Hd1|exact Hh1| |exact Ht].
    unfold sets_ok in *. rewrite Hst in Hsets. cbn in *. destruct Hsets as [? Hsets]. split; [done|].
    intros fd Hfd. destruct (Hsets fd Hfd) as [Hk ?]. split; [|done]. eapply of_kept_mono; [exact Hk|done|done|].
    intros j Hj. cbn. apply lookup_delete_ne. by intros ->.
  - apply ends_bind, ends_lift. intros z Hz. apply ends_bind, ends_lift. intros s Hv. apply ends_ret. split; [|done].
    destruct (visit_frame _ _ _ _ _ Hv Hc) as (Hdom & k' & Hst' & Hk & Hkept).
    eapply fds_ok_frame; try done. apply (sets_ok_grows _ _ _ _ _ _ _ (f_sets _ _ _ Hx) Hst Hst' Hk).
    apply (visit_sets_grows _ _ _ _ Hz). destruct Hkept as [->|?]; [left; set_solver|by right].
Qed.

Lemma swap_ok w0 x w :
  fds_ok w0 x w → ends (select_swap x) w (fun x' w' => fds_ok w0 x' w' ∧
    server x' = ProtocolServer.select_swap (server x)).
Proof.
  intros Hx. apply ends_bind. eapply ends_mono; [apply ClearEventFd_ends|]. intros [] w' E. apply ends_ret.
  split; [|done]. by eapply fds_ok_frame.
Qed.

Lemma select_ok w0 ready_reads ready_writes k x w :
  fds_ok w0 x w → ends (select_call ready_reads ready_writes k x) w (fun x' w' => fds_ok w0 x' w' ∧
    server x' = ProtocolServer.set_select (ProtocolServer.SelDistribute k) (server x)).
Proof.
  intros Hx. apply ends_bind, ends_lift. intros z _. apply ends_bind, ends_check. intros _. apply ends_ret.
  split; [|done]. by eapply fds_ok_frame.
Qed.

Lemma put_back_ok w0 c l x w :
  fds_ok w0 x w → ends (select_put_back c l x) w (fun x' w' => fds_ok w0 x' w' ∧
    ∃ ready, ProtocolServer.select_put_back c l ready (server x) = Ok (server x')).
Proof.
  intros Hx. apply ends_bind, ends_lift. intros ready _. apply ends_bind, ends_lift. intros s Hs. apply ends_ret.
  split; [|by exists ready]. apply bind_Ok in Hs as (s1 & Hp & Hs). injection Hs as <-.
  assert (ProtocolServer.connections s1 = ProtocolServer.connections (server x)) as Hc.
  { destruct ready; [apply (put_frame _ _ c)|apply (put_frame _ _ c)]; auto. }
  eapply fds_ok_frame; try done. cbn. by rewrite Hc.
Qed.

Lemma stop_ok w0 x w :
  fds_ok w0 x w → ends (Stop_begin x) w (fun x' w' => fds_ok w0 x' w' ∧
    server x' = ProtocolServer.set_ready (ProducerConsumerQueue.Drain (ProtocolServer.ready_connections_ (server x))) (server x)).
Proof.
  intros Hx. apply ends_bind, ends_bind, ends_lift. intros v Hv. apply ends_ret.
  apply bind_Ok in Hv as (? & _ & Hv). injection Hv as <-. apply ends_bind. eapply ends_mono; [apply SignalEventFd_ends|]. intros [] w' E. apply ends_ret. split; [|done].
  eapply fds_ok_frame; try done. eapply sets_ok_frame; [by apply Hx|done..].
Qed.

(** *** Every step *)
Record server_ok (w0 : W) (p : t H * W) : Prop := {
  ok_places : server_inv (server p.1);
  ok_fds : fds_ok w0 p.1 p.2;
}.

(** A server with its descriptors does what [ProtocolServer]'s threads do, and
    keeps the account of its descriptors. *)
Lemma step_ok w0 p p' :
  server_ok w0 p → step (Msg := Msg) p p' →
  server_ok w0 p' ∧ rtc (server_step (Msg := Msg)) (server p.1) (server p'.1).
Proof.
  intros [Hinv Hx] Hstep.
  assert (fds_ok w0 p'.1 p'.2 ∧
    (server_step (Msg := Msg) (server p.1) (server p'.1) ∨ server p'.1 = server p.1)) as [? Hs].
  2: { destruct Hs as [Hs|Hs].
       - split; [split; [by eapply server_step_inv|done]|by apply rtc_once].
       - rewrite Hs. split; [split; [by rewrite Hs|done]|done]. }
  destruct Hstep as [h a port x w x' w' E|x w s' _ E|c h rv sd hs hs' x w x' w' Hh E|x w x' w' _ Hst E|
    c l k x w x' w' Hst E|rr rw k x w x' w' Hst E|c l x w x' w' Hst E|x w Hst|x w w' E|x w x' w' E]; cbn in *.
  - destruct (open_ok w0 h a port x w Hx (proj2 Hinv) _ _ E) as [? [fd ?]]. split; [done|left]. by eapply st_open.
  - split; [|left; by apply st_take]. apply fds_ok_server with w; try done; unfold ProtocolServer.take_ready in E;
      by destruct (ProducerConsumerQueue.Pop _ _) as [[[?|] ?]|]; simplify_eq.
  - set (x1 := set_server _ x) in E. assert (fds_ok w0 x1 w) as Hx1 by by apply fds_ok_server with w.
    destruct (serve_ok w0 c h rv sd x1 w Hx1 (proj2 Hinv) _ _ E) as [? [io ?]]. split; [done|left]. by eapply st_serve.
  - destruct (swap_ok w0 x w Hx _ _ E) as [? ->]. split; [done|left]. by apply st_swap.
  - destruct (visit_ok w0 c l k x w Hx Hinv Hst _ _ E) as [? ?]. split; [done|left]. by eapply st_visit.
  - destruct (select_ok w0 rr rw k x w Hx _ _ E) as [? ->]. split; [done|left]. by eapply st_select.
  - destruct (put_back_ok w0 c l x w Hx _ _ E) as [? [r ?]]. split; [done|left]. by eapply st_put_back.
  - split; [|left; by eapply st_loop]. by eapply fds_ok_frame.
  - apply SignalEventFd_ends in E. split; [|by right]. eapply fds_ok_frame; try done. apply Hx.
  - destruct (stop_ok w0 x w Hx _ _ E) as [? ->]. split; [done|left]. by apply st_drain.
Qed.

Lemma steps_ok w0 p p' :
  server_ok w0 p → rtc (step (Msg := Msg)) p p' →
  server_ok w0 p' ∧ rtc (server_step (Msg := Msg)) (server p.1) (server p'.1).
Proof.
  intros Hp Hr. induction Hr as [|p p1 p' Hs _ IH]; [split; [done|apply rtc_refl]|].
  destruct (step_ok _ _ _ Hp Hs) as [Hp1 ?]. destruct (IH Hp1) as [? ?]. split; [done|]. by etrans.
Qed.

(** *** [Start] *)
Lemma pthread_calls_ends f n w :
  (∀ w r w', f w = (r, w') → fdt w' = fdt w) → ends (pthread_calls f n) w (fun _ w' => fdt w' = fdt w).
Proof.
  intros Hf. revert w. induction n as [|n IH]; intros w; [by apply ends_ret|].
  apply ends_bind, ends_call. intros e w1 E%Hf. apply ends_bind, ends_check. intros _.
  eapply ends_mono; [apply IH|]. intros [] w2. by rewrite E.
Qed.

Lemma server_start_ok address port n x0 w0 :
  New = Ok x0 →
  ends (Start address port n x0) w0 (fun x1 w1 =>
    server_ok w0 (x1, w1) ∧ ProtocolServer.Start = Ok (server x1) ∧ running x1).
Proof.
  intros [= <-]. apply ends_bind, ends_check. intros _. apply ends_bind, ends_bind, ends_lift.
  intros v Hv. apply ends_ret. vm_compute in Hv. injection Hv as <-.
  apply ends_bind. eapply ends_mono; [apply ListenOnLocalAddress_ends|]. intros fd w1 Ho.
  apply ends_bind, ends_call. intros efd w2 E2. apply ends_bind, ends_check. intros He.
  destruct (eventfd_law _ _ _ _ _ E2) as [[-> _]|Hnew]; [done|].
  apply (then_nonblocking _ _ _ w1 w2 w2 _ Hnew); [done|]. intros w3 Ho2.
  apply ends_bind. eapply ends_mono; [apply pthread_calls_ends, pthread_create_law|]. intros [] w4 E4.
  apply ends_bind, ends_lift. intros s Hs. apply ends_bind, ends_lift. intros v' Hv'. apply ends_ret.
  vm_compute in Hv'. injection Hv' as <-.
  assert (ProtocolServer.Start = Ok s) as Hstart by exact Hs.
  split; [|done]. split; [by apply start_inv|]. cbn. injection Hs as <-.
  destruct (holds_add w0 ∅ fd w0 w1) as [_ Hh1]; [by apply holds_none|done|].
  destruct (holds_add w0 _ efd w1 w3 Hh1 Ho2) as [Hne Hh2].
  split; cbn; [set_solver| | |done|vm_compute; set_solver].
  - split; cbn; unfold socket_set; rewrite ?map_img_empty_L; [set_solver..|]. set_solver.
  - unfold owned, socket_set. cbn. rewrite map_img_empty_L. eapply holds_same; [|exact E4].
    eapply (eq_rect _ (fun D => holds w0 D w3)); [exact Hh2|set_solver].
Qed.

(** *** [Stop], when a descriptor that is open can be closed and threads can be joined *)
Section stopping.
Context (Hclose : ∀ fd w, is_Some (fdt w !! fd) → (sys_close fd w).1 ≠ -1) (Hjoin : ∀ w, (sys_pthread_join w).1 = 0).

Lemma close_held w0 D fd w :
  holds w0 D w → fd ∈ D →
  ∃ w', check_err (call (sys_close fd)) w = Ok (tt, w') ∧ holds w0 (D ∖ {[fd]}) w'.
Proof.
  intros Hh Hfd. pose proof (Hclose fd w (holds_open _ _ _ _ Hh Hfd)) as Hc.
  destruct (sys_close fd w) as [e w'] eqn:E. exists w'. apply Z.eqb_neq in Hc. cbn in Hc.
  unfold check_err, mbind, OS_bind, call, check. rewrite E, Hc. split; [done|].
  apply close_law in E. by eapply holds_remove.
Qed.

Lemma joins_run n w : ∃ w', pthread_calls sys_pthread_join n w = Ok (tt, w') ∧ fdt w' = fdt w.
Proof.
  revert w. induction n as [|n IH]; intros w; [by exists w|]. pose proof (Hjoin w) as Hj.
  destruct (sys_pthread_join w) as [e w1] eqn:E. cbn in Hj. subst e.
  destruct (IH w1) as (w' & E' & Hw). exists w'. split; [|rewrite Hw; by eapply pthread_join_law].
  cbn [pthread_calls]. unfold mbind at 1, OS_bind at 1, call. by rewrite E.
Qed.

Lemma close_all_run w0 l x w :
  NoDup l → (∀ i, i ∈ l ↔ i ∈ dom (socket_fds x)) → injective (socket_fds x) →
  holds w0 (socket_set (socket_fds x)) w →
  ∃ w', close_all l x w = Ok (set_fds ∅ x, w') ∧ fdt w' = fdt w0.
Proof.
  intros Hl. revert x w. induction Hl as [|i l Hi Hl IH]; intros x w Hdom Hinj Hh.
  - assert (socket_fds x = ∅) as E.
    { apply dom_empty_inv_L, set_eq. intros i. rewrite <- Hdom. set_solver. }
    exists w. rewrite E in Hh. unfold socket_set in Hh. rewrite map_img_empty_L in Hh. apply holds_none in Hh.
    split; [|done]. unfold close_all, set_fds. rewrite <- E. by destruct x.
  - assert (i ∈ dom (socket_fds x)) as [fd Hfd]%elem_of_dom by (apply Hdom; set_solver).
    destruct (socket_set_delete _ _ _ Hinj Hfd) as (Himg & Hin & Hinj').
    destruct (close_held _ _ _ _ Hh Hin) as (w1 & E1 & Hh1). rewrite <- Himg in Hh1.
    destruct (IH (set_fds (delete i (socket_fds x)) x) w1) as (w' & E' & ?); [|exact Hinj'|exact Hh1|].
    { intros j. cbn. rewrite dom_delete_L, elem_of_difference, <- Hdom. set_solver. }
    exists w'. split; [|done]. cbn. unfold CloseSocket, lift, mbind, OS_bind in *. rewrite Hfd. cbn. rewrite E1. exact E'.
Qed.

Lemma Stop_end_run w0 n x w :
  server_ok w0 (x, w) → ProtocolServer.in_hand (server x) = [] →
  ProtocolServer.select_thread_ (server x) = ProtocolServer.SelTop →
  StateVariable.current_state_ (state_ x) = STOPPING →
  ∃ x' w', Stop_end n x w = Ok (x', w') ∧ fdt w' = fdt w0 ∧ Destroy x' = Ok tt.
Proof.
  intros [Hinv [Hs [Hi Hl He Hle] Hh _ Ht]] Hhand Hst Hstate. cbn in *. unfold Stop_end.
  destruct (joins_run (S n) w) as (w1 & E1 & Hw1). apply (holds_same _ _ _ w1) in Hh; [|done].
  destruct (close_held _ _ (connections_changed_event_fd_ x) _ Hh) as (w2 & E2 & Hh2); [unfold owned; set_solver|].
  destruct (close_held _ _ (listen_fd_ x) _ Hh2) as (w3 & E3 & Hh3); [unfold owned; set_solver|].
  assert (owned x ∖ {[connections_changed_event_fd_ x]} ∖ {[listen_fd_ x]} = socket_set (socket_fds x)) as HD
    by (unfold owned; set_solver).
  rewrite HD in Hh3. pose proof (stop_collect_spec _ Hinv Hhand Hst) as Ecollect.
  destruct (close_all_run w0 (elements (dom (socket_fds x))) x w3) as (w4 & E4 & Hw4);
    [apply NoDup_elements|intros i; apply elem_of_elements|done|done|]. rewrite Hs in E4.
  assert (∀ w, lift (ProtocolServer.stop_collect (server x)) w = Ok (dom (ProtocolServer.connections (server x)), w)) as E5
    by (intros; unfold lift; by rewrite Ecollect).
  rewrite (bind_run _ _ _ _ _ E1), (bind_run _ _ _ _ _ E2), (bind_run _ _ _ _ _ E3), (bind_run _ _ _ _ _ (E5 _)),
    (bind_run _ _ _ _ _ E4).
  unfold ChangeState, StateVariable.ChangeState, StateVariable.ChangeState_Locked. cbn.
  rewrite Hstate, bool_decide_eq_true_2 by done.
  eexists _, w4. split; [reflexivity|]. by split.
Qed.
End stopping.

(** C24 (safety). A server leaks no file descriptor and never uses a closed one.  From
    [Start] on, whatever its threads do and whatever the system calls answer, the
    descriptors that have been opened and are still open are exactly those in its
    variables and its connections, each in one place; the sets that it passes to
    [select] hold open descriptors only; and its threads do what the threads of
    [ProtocolServer] do.  When the threads have ended after [Stop] began, [Stop] runs
    to its end without closing a descriptor twice, and the process has the
    descriptors it had before [Start]. *)
Theorem server_returns_its_descriptors address port n x0 x1 x w0 w1 w
    (Hnew : New = Ok x0)
    (Hstart : Start address port n x0 w0 = Ok (x1, w1))
    (Hrun : rtc (step (Msg := Msg)) (x1, w1) (x, w)) :
  holds w0 (owned x) w ∧ distinct x ∧
  (∀ k fd, ProtocolServer.select_thread_ (server x) = ProtocolServer.SelScan [] k →
     fd ∈ set_members x → is_Some (fdt w !! fd) ∧ 0 ≤ fd < nfds (sets x)) ∧
  rtc (server_step (Msg := Msg)) (server x1) (server x) ∧
  (ProtocolServer.in_hand (server x) = [] → ProtocolServer.select_thread_ (server x) = ProtocolServer.SelTop →
   StateVariable.current_state_ (state_ x) = STOPPING →
   (∀ fd w, is_Some (fdt w !! fd) → (sys_close fd w).1 ≠ -1) → (∀ w, (sys_pthread_join w).1 = 0) →
   ∃ x' w', Stop_end n x w = Ok (x', w') ∧ fdt w' = fdt w0 ∧ Destroy x' = Ok tt).
Proof.
  destruct (server_start_ok _ _ _ _ _ Hnew _ _ Hstart) as (Hok1 & _ & _).
  destruct (steps_ok _ _ _ Hok1 Hrun) as [Hok Hsteps]. cbn in *. split_and!; [apply Hok|apply Hok| |done|].
  - intros k fd Hst Hfd. pose proof (f_sets _ _ _ (ok_fds _ _ Hok)) as Hsets. unfold sets_ok in Hsets. cbn in Hsets.
    rewrite Hst in Hsets. destruct Hsets as [_ Hsets]. destruct (Hsets fd Hfd) as [Hk ?]. split; [|done].
    eapply holds_open; [apply Hok|]. unfold owned. destruct Hk as [[-> _]|(i & _ & Hi)]; [set_solver|].
    apply elem_of_union. right. by eapply elem_of_map_img_2.
  - intros. by eapply Stop_end_run.
Qed.
End descriptors.
End ServerSockets.

(** * A run *)
#[local] Existing Instance fake_calls.
#[local] Existing Instance fake_laws.
Import Sockets.

Definition run_world : fake_system := {| table := {[ 0 := false ]}; outcomes := repeat true 15 ++ [false] |}.
Definition run_new : ServerSockets.t (list (list byte)) :=
  match ServerSockets.New with
  | Ok x => x
  | _ => ServerSockets.mk run_server (-1) (-1) (StateVariable.mk ∅ 0) ∅ (ServerSockets.mkSets ∅ ∅ 0)
  end.
Definition run_started : ServerSockets.t (list (list byte)) * fake_system :=
  match ServerSockets.Start "10.0.0.1" 1025 1 run_new run_world with Ok p => p | _ => (run_new, run_world) end.

(** A connection is opened; the thread that takes the listening socket accepts
    another one, then finds nothing to accept; the select thread waits; [Stop]. *)
Lemma server_returns_its_descriptors_witness :
  ∃ x w x' w', rtc (ServerSockets.step (Msg := list byte)) run_started (x, w) ∧
    size (table w) = 5%nat ∧ ServerSockets.Stop_end 1 x w = Ok (x', w') ∧ table w' = table run_world.
Proof.
  assert (∃ x w, rtc (ServerSockets.step (Msg := list byte)) run_started (x, w) ∧ size (table w) = 5%nat ∧
    ProtocolServer.in_hand (ServerSockets.server x) = [] ∧
    ProtocolServer.select_thread_ (ServerSockets.server x) = ProtocolServer.SelTop ∧
    StateVariable.current_state_ (ServerSockets.state_ x) = STOPPING) as (x & w & Hr & Hsize & Hh & Hst & Hstate).
  { eexists _, _. split.
    - eapply rtc_l; [apply (ServerSockets.s_open [[1]] "10.0.0.3" 1026); vm_compute; reflexivity|].
      eapply rtc_l; [eapply ServerSockets.s_take; vm_compute; reflexivity|].
      eapply rtc_l; [eapply (ServerSockets.s_serve None [[1]] (RecvData []) (SendCount 0) [] []); [reflexivity|vm_compute; reflexivity]|].
      (* both connections and the listening socket are ready: the listening socket is third *)
      do 3 (eapply rtc_l; [eapply ServerSockets.s_take; vm_compute; reflexivity|]).
      eapply rtc_l; [eapply (ServerSockets.s_serve None [[1]] (RecvData []) (SendCount 0) [] [Some 1%nat; Some 0%nat]);
        [vm_compute; reflexivity|vm_compute; reflexivity]|].
      eapply rtc_l; [eapply (ServerSockets.s_serve (Some 0%nat) [[1]] (RecvError EAGAIN) (SendCount 2) [Some 1%nat] []);
        [vm_compute; reflexivity|vm_compute; reflexivity]|].
      eapply rtc_l; [eapply ServerSockets.s_swap; vm_compute; reflexivity|].
      do 2 (eapply rtc_l; [eapply ServerSockets.s_visit; [vm_compute; reflexivity|vm_compute; reflexivity]|]).
      eapply rtc_l; [eapply (ServerSockets.s_select {[1]} ∅); [vm_compute; reflexivity|vm_compute; reflexivity]|].
      do 2 (eapply rtc_l; [eapply ServerSockets.s_put_back; [vm_compute; reflexivity|vm_compute; reflexivity]|]).
      eapply rtc_l; [eapply ServerSockets.s_loop; vm_compute; reflexivity|].
      eapply rtc_l; [eapply (ServerSockets.s_serve (Some 1%nat) [[1]] (RecvError EAGAIN) (SendCount 2) [] []);
        [vm_compute; reflexivity|vm_compute; reflexivity]|].
      eapply rtc_l; [eapply ServerSockets.s_stop; vm_compute; reflexivity|].
      apply rtc_refl.
    - vm_compute. done. }
  destruct (ServerSockets.server_returns_its_descriptors (Msg := list byte) "10.0.0.1" 1025 1 run_new run_started.1 x
    run_world run_started.2 w) as (_ & _ & _ & _ & Hstop); [done|vm_compute; reflexivity|done|].
  destruct Hstop as (x' & w' & ? & ? & _); [done..|by exists x, w, x', w'].
Defined.
