(* ===== verification/Ids.v ===== *)
(** Identifiers: [engine/uuid_util.cc], [engine/transaction_id_util.h/.cc],
    [engine/make_transaction_id.cc] and [engine/transaction_id_generator.cc].

    The words of a [Uuid] and a [TransactionId] are [uint64] values, kept as
    [Z]; the OSSP library behind [GenerateUuid] and the system clock are
    inputs. *)
From stdpp Require Import base tactics list strings countable sorting.
From Stdlib Require Import ZArith Lia Ascii.
From S2P Require Import Prelude Text.
#[local] Open Scope string_scope.
#[local] Open Scope Z_scope.
#[local] Arguments String.append !_ _ / : simpl nomatch.

(** * [Uuid] *)
Record Uuid := { high_word : Z; low_word : Z }.

#[export] Instance Uuid_eq_dec : EqDecision Uuid.
Proof. solve_decision. Defined.
#[export] Instance Uuid_countable : Countable Uuid.
Proof.
  refine (inj_countable' (fun u => (high_word u, low_word u))
            (fun p => {| high_word := p.1; low_word := p.2 |}) _).
  by intros [].
Defined.

Definition uuid_ok (u : Uuid) : Prop := is_uint64 (high_word u) ∧ is_uint64 (low_word u).

Definition CompareUuids (a b : Uuid) : Z :=
  if negb (high_word a =? high_word b)
  then if high_word a <? high_word b then -1 else 1
  else if negb (low_word a =? low_word b)
  then if low_word a <? low_word b then -1 else 1
  else 0.

(** [UuidEquals] and [UuidHasher] of [engine/transaction_store.cc]. *)
Definition UuidEquals (a b : Uuid) : bool := CompareUuids a b =? 0.
Definition UuidHasher (uuid : Uuid) : Z := uint64 (high_word uuid).

Fixpoint parse_hex_loop (n : Z) (hex : string) : res Z :=
  match hex with
  | "" => Ok n
  | String c rest =>
      let hex_digit := ParseHexDigit c in
      CHECK (0 <=? hex_digit);;
      parse_hex_loop (uint64 (n * 16 + hex_digit)) rest
  end.

Definition ParseHexUint64 (hex : string) : res Z :=
  CHECK (bool_decide (String.length hex = 16%nat));; parse_hex_loop 0 hex.

Definition UuidToString (uuid : Uuid) : string :=
  hex_pad 16 (high_word uuid) ++ hex_pad 16 (low_word uuid).

Definition StringToUuid (s : string) : res Uuid :=
  CHECK (bool_decide (String.length s = 32%nat));;
  h ← ParseHexUint64 (String.substring 0 16 s);
  l ← ParseHexUint64 (String.substring 16 (String.length s - 16) s);
  Ok {| high_word := h; low_word := l |}.

(** * [TransactionId] *)
Record TransactionId := { tid_a : Z; tid_b : Z; tid_c : Z }.

#[export] Instance TransactionId_eq_dec : EqDecision TransactionId.
Proof. solve_decision. Defined.
#[export] Instance TransactionId_countable : Countable TransactionId.
Proof.
  refine (inj_countable' (fun t => (tid_a t, tid_b t, tid_c t))
            (fun p => {| tid_a := p.1.1; tid_b := p.1.2; tid_c := p.2 |}) _).
  by intros [].
Defined.

Definition MakeTransactionId (a b c : Z) : TransactionId :=
  {| tid_a := a; tid_b := b; tid_c := c |}.

Definition MIN_TRANSACTION_ID : TransactionId := MakeTransactionId 0 0 0.
Definition MAX_TRANSACTION_ID : TransactionId :=
  MakeTransactionId kUint64Max kUint64Max kUint64Max.

Definition CompareTransactionIds (t1 t2 : TransactionId) : Z :=
  if negb (tid_a t1 =? tid_a t2) then if tid_a t1 <? tid_a t2 then -1 else 1
  else if negb (tid_b t1 =? tid_b t2) then if tid_b t1 <? tid_b t2 then -1 else 1
  else if negb (tid_c t1 =? tid_c t2) then if tid_c t1 <? tid_c t2 then -1 else 1
  else 0.

Definition IsValidTransactionId (t : TransactionId) : bool :=
  (0 <? tid_a t) && (tid_a t <? kUint64Max).

Definition TransactionIdToString (t : TransactionId) : string :=
  hex_pad 16 (tid_a t) ++ hex_pad 16 (tid_b t) ++ hex_pad 16 (tid_c t).

(** The operators of [engine/transaction_id_util.h]. *)
#[export] Instance TransactionId_ordered : Ordered TransactionId :=
  fun a b => CompareTransactionIds a b <? 0.
Definition tid_eqb (a b : TransactionId) : bool := CompareTransactionIds a b =? 0.
Definition tid_gtb (a b : TransactionId) : bool := ltb b a.
Definition tid_leb (a b : TransactionId) : bool := negb (ltb b a).
Definition tid_geb (a b : TransactionId) : bool := negb (ltb a b).
Definition tid_neb (a b : TransactionId) : bool := negb (tid_eqb a b).

(** * [TransactionIdGenerator] *)
Record TransactionIdGenerator := { uuid_ : Uuid; last_time_value_ : Z }.

(** [clock_gettime(CLOCK_REALTIME)]. *)
Record timespec := { tv_sec : Z; tv_nsec : Z }.

Definition time_value_of (ts : timespec) : Z :=
  uint64 (uint64 (uint64 (tv_sec ts) * 1000000000) + uint64 (tv_nsec ts)).

Definition NewTransactionIdGenerator (uuid : Uuid) : TransactionIdGenerator :=
  {| uuid_ := uuid; last_time_value_ := 0 |}.

Definition Generate (ts : timespec) (g : TransactionIdGenerator)
    : TransactionId * TransactionIdGenerator :=
  let time_value := time_value_of ts in
  let time_value :=
    if time_value <=? last_time_value_ g then uint64 (last_time_value_ g + 1)
    else time_value in
  (MakeTransactionId time_value (high_word (uuid_ g)) (low_word (uuid_ g)),
   {| uuid_ := uuid_ g; last_time_value_ := time_value |}).

Fixpoint GenerateAll (clocks : list timespec) (g : TransactionIdGenerator)
    : list TransactionId * TransactionIdGenerator :=
  match clocks with
  | [] => ([], g)
  | ts :: rest =>
      let '(t, g) := Generate ts g in
      let '(ts', g) := GenerateAll rest g in (t :: ts', g)
  end.

(** * The order on transaction ids *)
Lemma tid_ltb_iff a b :
  ltb a b = true ↔
  tid_a a < tid_a b ∨
  (tid_a a = tid_a b ∧ (tid_b a < tid_b b ∨ (tid_b a = tid_b b ∧ tid_c a < tid_c b))).
Proof. unfold ltb, TransactionId_ordered, CompareTransactionIds. repeat case_match; lia. Qed.

#[export] Instance TransactionId_ordered_laws : OrderedLaws TransactionId.
Proof.
  split.
  - intros x. apply not_true_iff_false. rewrite tid_ltb_iff. lia.
  - intros x y z. rewrite !tid_ltb_iff. lia.
  - intros [a b c] [a' b' c'] H1%not_true_iff_false H2%not_true_iff_false.
    rewrite tid_ltb_iff in H1, H2. simpl in *. f_equal; lia.
Qed.

Lemma tid_eqb_eq a b : tid_eqb a b = true ↔ a = b.
Proof.
  unfold tid_eqb, CompareTransactionIds. destruct a, b; simpl.
  repeat case_match; split; intros; simplify_eq/=; try done; f_equal; lia.
Qed.

Lemma tid_leb_true (a b : TransactionId) : tid_leb a b = true ↔ a ⪯ b.
Proof. unfold tid_leb. by rewrite negb_true_iff. Qed.

Lemma UuidEquals_eq a b : UuidEquals a b = true ↔ a = b.
Proof.
  unfold UuidEquals, CompareUuids. destruct a, b; simpl.
  repeat case_match; split; intros; simplify_eq/=; try done; f_equal; lia.
Qed.

Lemma min_tid_le (t : TransactionId) :
  IsValidTransactionId t = true → MIN_TRANSACTION_ID ≺ t ∧ t ≺ MAX_TRANSACTION_ID.
Proof. unfold IsValidTransactionId. rewrite !tid_ltb_iff. simpl. lia. Qed.

(** * Hexadecimal round trips *)
Lemma parse_hex_loop_pad k n z rest :
  0 ≤ n → 0 ≤ z < 16 ^ Z.of_nat k → n * 16 ^ Z.of_nat k + z < 2 ^ 64 →
  parse_hex_loop n (hex_pad k z ++ rest) =
  parse_hex_loop (n * 16 ^ Z.of_nat k + z) rest.
Proof.
  revert n z rest. induction k as [|k IH]; intros n z rest Hn Hz Hb.
  { change (16 ^ Z.of_nat 0) with 1 in *. simpl. f_equal. lia. }
  rewrite Nat2Z.inj_succ, Z.pow_succ_r in * by lia.
  pose proof (Z.mod_pos_bound z 16). pose proof (Z.div_mod z 16).
  cbn [hex_pad]. rewrite str_app_assoc.
  rewrite IH; [|lia| |].
  - simpl. rewrite ParseHexDigit_hex_digit by lia.
    destruct (Z.leb_spec 0 (z mod 16)); [|lia]. simpl.
    rewrite uint64_small by (unfold is_uint64; nia). f_equal. lia.
  - split; [apply Z.div_pos; lia|apply Z.div_lt_upper_bound; lia].
  - nia.
Qed.

Lemma ParseHexUint64_pad z : is_uint64 z → ParseHexUint64 (hex_pad 16 z) = Ok z.
Proof.
  intros Hz. unfold ParseHexUint64. rewrite hex_pad_length, bool_decide_true by done.
  cbn [CHECK mbind res_bind].
  rewrite <- (str_app_nil_r (hex_pad 16 z)).
  rewrite parse_hex_loop_pad; [|lia|exact Hz|exact (proj2 Hz)]. done.
Qed.


(** [StringToUuid] inverts [UuidToString] on every uuid, and
    never fails a check on its output. *)
Theorem string_uuid_roundtrip u : uuid_ok u → StringToUuid (UuidToString u) = Ok u.
Proof.
  intros [Hh Hl]. unfold StringToUuid, UuidToString.
  set (a := hex_pad 16 (high_word u)). set (b := hex_pad 16 (low_word u)).
  assert (String.length a = 16%nat) as Ha by apply hex_pad_length.
  assert (String.length b = 16%nat) as Hb by apply hex_pad_length.
  rewrite str_app_length, Ha, Hb. simpl (_ - _)%nat.
  rewrite bool_decide_true by done. cbn [CHECK mbind res_bind].
  pose proof (substring_app_l a b) as El. pose proof (substring_app_r a b) as Er.
  rewrite Ha in El, Er. rewrite Hb in Er. rewrite El, Er.
  unfold a. rewrite ParseHexUint64_pad by done. cbn [mbind res_bind].
  unfold b. rewrite ParseHexUint64_pad by done. by destruct u.
Qed.

(** * The generator *)
Lemma Generate_increases ts g t g' :
  0 ≤ last_time_value_ g < kUint64Max → Generate ts g = (t, g') →
  last_time_value_ g < last_time_value_ g' ∧ tid_a t = last_time_value_ g' ∧
  last_time_value_ g' ≤ Z.max (time_value_of ts) (last_time_value_ g + 1) ∧
  uuid_ g' = uuid_ g.
Proof.
  unfold Generate, kUint64Max. intros Hg [= <- <-]. simpl.
  rewrite (uint64_small (_ + 1)) by (unfold is_uint64; lia).
  destruct (Z.leb_spec (time_value_of ts) (last_time_value_ g)); split_and!; done || lia.
Qed.

Lemma time_value_range ts : is_uint64 (time_value_of ts).
Proof. apply uint64_range. Qed.

Lemma GenerateAll_bounds clocks g ids g' M :
  0 ≤ last_time_value_ g ≤ M → (∀ ts, ts ∈ clocks → time_value_of ts ≤ M) →
  M + Z.of_nat (length clocks) < kUint64Max →
  GenerateAll clocks g = (ids, g') →
  Forall (fun t => last_time_value_ g < tid_a t < kUint64Max) ids ∧
  StronglySorted (fun x y => x ≺ y) ids.
Proof.
  revert g ids g' M. induction clocks as [|ts clocks IH]; intros g ids g' M Hg Hc Hb.
  { intros [= <- <-]. split; constructor. }
  simpl in Hb. cbn [GenerateAll].
  destruct (Generate ts g) as [t g1] eqn:E1.
  destruct (GenerateAll clocks g1) as [ids1 g2] eqn:E2. intros [= <- <-].
  apply Generate_increases in E1 as (H1 & H2 & H3 & _); [|lia].
  assert (time_value_of ts ≤ M) by (apply Hc; constructor).
  destruct (IH g1 ids1 g2 (M + 1)) as [IH1 IH2]; [lia| |lia|done|].
  { intros ts' Hts'. assert (time_value_of ts' ≤ M); [|lia]. apply Hc. by constructor. }
  split.
  - constructor; [lia|]. eapply Forall_impl; [exact IH1|]. simpl. lia.
  - constructor; [done|]. eapply Forall_impl; [exact IH1|]. simpl.
    intros t' Ht'. apply tid_ltb_iff. lia.
Qed.

(** Whatever the clock reads, even when it stands still or is
    set back, the ids of one generator increase strictly and are all valid, as
    long as the clock and the number of ids stay below the [uint64] limit. *)
Theorem generate_strictly_increasing uuid clocks ids g :
  (∀ ts, ts ∈ clocks → time_value_of ts + Z.of_nat (length clocks) < kUint64Max) →
  Z.of_nat (length clocks) < kUint64Max →
  GenerateAll clocks (NewTransactionIdGenerator uuid) = (ids, g) →
  StronglySorted (fun x y => x ≺ y) ids ∧
  Forall (fun t => IsValidTransactionId t = true) ids.
Proof.
  intros Hc Hn Hg.
  destruct (GenerateAll_bounds clocks (NewTransactionIdGenerator uuid) ids g
              (kUint64Max - 1 - Z.of_nat (length clocks))) as [H1 H2]; [| | |exact Hg|].
  - simpl. lia.
  - intros ts Hts. specialize (Hc ts Hts). lia.
  - lia.
  - split; [done|]. eapply Forall_impl; [exact H1|]. simpl.
    intros t Ht. unfold IsValidTransactionId. lia.
Qed.

(** Without that limit the counter wraps: from the largest value
    the next id is [0], which is not a valid transaction id. *)
Lemma Generate_wraps ts g :
  last_time_value_ g = kUint64Max →
  tid_a (Generate ts g).1 = 0 ∧ IsValidTransactionId (Generate ts g).1 = false.
Proof.
  intros Hg. unfold Generate. rewrite Hg. pose proof (time_value_range ts) as Hr.
  unfold is_uint64, kUint64Max in *. destruct (Z.leb_spec (time_value_of ts) (2^64-1)); [|lia].
  by split.
Qed.

Lemma string_uuid_roundtrip_witness :
  StringToUuid (UuidToString {| high_word := 255; low_word := 2 ^ 63 |})
  = Ok {| high_word := 255; low_word := 2 ^ 63 |}.
Proof. apply string_uuid_roundtrip. vm_compute. repeat split; discriminate. Defined.

(** A clock that stands still and is then set back. *)
Definition clocks_back : list timespec :=
  [ {| tv_sec := 5; tv_nsec := 1 |}; {| tv_sec := 5; tv_nsec := 1 |}; {| tv_sec := 3; tv_nsec := 0 |} ].

Lemma generate_strictly_increasing_witness :
  let ids := (GenerateAll clocks_back
    (NewTransactionIdGenerator {| high_word := 7; low_word := 9 |})).1 in
  StronglySorted (fun x y => x ≺ y) ids ∧ Forall (fun t => IsValidTransactionId t = true) ids.
Proof.
  eapply (generate_strictly_increasing _ clocks_back); [|vm_compute; reflexivity|apply surjective_pairing].
  intros ts Hts. unfold clocks_back in Hts.
  repeat (apply elem_of_cons in Hts as [->|Hts]; [vm_compute; reflexivity|]).
  by apply elem_of_nil in Hts.
Defined.
