(* ===== verification/Mutexes.v ===== *)
(** * Mutexes, the time and random numbers

    [base/mutex.{h,cc}], [base/mutex_lock.cc], [base/time_util.cc] and
    [base/random.cc], over an interface of the library functions that they call.

    The other files take the code between the construction of a [MutexLock] and its
    destruction as one step.  Here is why: threads that touch the data of a class
    only between the two, in small steps that interleave in any way, do what a run
    does in which each critical section is one step; and the mutex functions never
    return the errors that the code does not expect. *)
From S2P Require Import Prelude Queues Monitors Ids.
From stdpp Require Import base tactics list relations.
From Stdlib Require Import ZArith Lia.
#[local] Open Scope Z_scope.

(** ** The functions of the pthread library

    A thread is a number.  [expired]: the deadline of [pthread_mutex_timedlock] has
    passed.  A call that waits for another thread is [Blocked]. *)
Class PthreadMutex (A X : Type) := {
  pthread_mutexattr_init : Z * A;
  pthread_mutexattr_settype : A → Z → Z * A;
  pthread_mutexattr_destroy : A → Z;
  pthread_mutex_init : A → Z * X;
  pthread_mutex_destroy : X → Z;
  pthread_mutex_lock : nat → X → blocking (Z * X);
  pthread_mutex_timedlock : nat → timespec → bool → X → blocking (Z * X);
  pthread_mutex_unlock : nat → X → Z * X;
  (** Who has locked it, and whether it is one that checks errors. *)
  owner : X → option nat;
  checks_errors : X → Prop;
}.

Definition PTHREAD_MUTEX_ERRORCHECK : Z := 2.
Definition EPERM : Z := 1.
Definition EDEADLK : Z := 35.

(** What the manual says of mutexes that check errors. *)
Class ErrorCheckLaws (A X : Type) `{PthreadMutex A X} : Prop := {
  init_checks : ∀ (a a' : A) (x : X), pthread_mutexattr_init = (0, a) →
    pthread_mutexattr_settype a PTHREAD_MUTEX_ERRORCHECK = (0, a') → pthread_mutex_init a' = (0, x) →
    checks_errors x ∧ owner x = None;
  lock_free : ∀ i x, checks_errors x → owner x = None →
    ∃ x', pthread_mutex_lock i x = Done (0, x') ∧ checks_errors x' ∧ owner x' = Some i;
  lock_own : ∀ i x, checks_errors x → owner x = Some i → pthread_mutex_lock i x = Done (EDEADLK, x);
  lock_other : ∀ i j x, checks_errors x → owner x = Some j → i ≠ j → pthread_mutex_lock i x = Blocked;
  timedlock_free : ∀ i t e x, checks_errors x → owner x = None →
    ∃ x', pthread_mutex_timedlock i t e x = Done (0, x') ∧ checks_errors x' ∧ owner x' = Some i;
  timedlock_own : ∀ i t e x, checks_errors x → owner x = Some i → pthread_mutex_timedlock i t e x = Done (EDEADLK, x);
  timedlock_other : ∀ i t (e : bool) j x, checks_errors x → owner x = Some j → i ≠ j →
    pthread_mutex_timedlock i t e x = if e then Done (CondVar.ETIMEDOUT, x) else Blocked;
  unlock_own : ∀ i x, checks_errors x → owner x = Some i →
    ∃ x', pthread_mutex_unlock i x = (0, x') ∧ checks_errors x' ∧ owner x' = None;
  unlock_other : ∀ i x, checks_errors x → owner x ≠ Some i → pthread_mutex_unlock i x = (EPERM, x);
}.

(** ** [Mutex] and [MutexLock] *)
Definition CHECK_PTHREAD_ERR (error_number : Z) : res unit := if error_number =? 0 then Ok tt else Fatal.

Module Mutex.
Section mutex.
Context {A X : Type} `{PthreadMutex A X}.

Definition New : res X :=
  let '(e1, attributes) := pthread_mutexattr_init in
  _ ← CHECK_PTHREAD_ERR e1;
  let '(e2, attributes) := pthread_mutexattr_settype attributes PTHREAD_MUTEX_ERRORCHECK in
  _ ← CHECK_PTHREAD_ERR e2;
  let '(e3, mtx_) := pthread_mutex_init attributes in
  _ ← CHECK_PTHREAD_ERR e3;
  _ ← CHECK_PTHREAD_ERR (pthread_mutexattr_destroy attributes);
  Ok mtx_.
Definition Destroy (mtx_ : X) : res unit := CHECK_PTHREAD_ERR (pthread_mutex_destroy mtx_).

(** The end of a call that may have waited. *)
Definition locked (r : blocking (Z * X)) : res (blocking X) :=
  match r with
  | Blocked => Ok Blocked
  | Done (e, mtx_) => _ ← CHECK_PTHREAD_ERR e; Ok (Done mtx_)
  end.
(** [flag] is [FLAGS_mutex_timeout_sec_for_debugging]; [now] is what [clock_gettime]
    returns, with its error code. *)
Definition Lock (flag : Z) (now : Z * timespec) (expired : bool) (i : nat) (mtx_ : X) : res (blocking X) :=
  if 0 <=? flag then
    _ ← CHECK (negb (now.1 =? -1));
    locked (pthread_mutex_timedlock i {| tv_sec := tv_sec now.2 + flag; tv_nsec := tv_nsec now.2 |} expired mtx_)
  else locked (pthread_mutex_lock i mtx_).
Definition Unlock (i : nat) (mtx_ : X) : res X :=
  let '(e, mtx_) := pthread_mutex_unlock i mtx_ in
  _ ← CHECK_PTHREAD_ERR e;
  Ok mtx_.
End mutex.
End Mutex.

Module MutexLock.
Section mutex.
Context {A X : Type} `{PthreadMutex A X}.
Definition New (flag : Z) (now : Z * timespec) (expired : bool) (i : nat) (mu : X) : res (blocking X) :=
  Mutex.Lock flag now expired i mu.
Definition Destroy (i : nat) (mu : X) : res X := Mutex.Unlock i mu.
End mutex.
End MutexLock.

(** *** What they do *)
Section laws.
Context {A X : Type} `{ErrorCheckLaws A X}.

Lemma Mutex_New_free x : Mutex.New = Ok x → checks_errors x ∧ owner x = None.
Proof.
  unfold Mutex.New, CHECK_PTHREAD_ERR. destruct pthread_mutexattr_init as [e1 a] eqn:E1.
  destruct (Z.eqb_spec e1 0) as [->|]; [|done]. simpl.
  destruct (pthread_mutexattr_settype a PTHREAD_MUTEX_ERRORCHECK) as [e2 a'] eqn:E2.
  destruct (Z.eqb_spec e2 0) as [->|]; [|done]. simpl. destruct (pthread_mutex_init a') as [e3 x'] eqn:E3.
  destruct (Z.eqb_spec e3 0) as [->|]; [|done]. simpl. case_match; [|done]. intros [= ->]. by eapply init_checks.
Qed.

(** The constructor returns only to a thread that then has the mutex. *)
Lemma MutexLock_New_Done flag now e i x x' : checks_errors x →
  MutexLock.New flag now e i x = Ok (Done x') → owner x = None ∧ checks_errors x' ∧ owner x' = Some i.
Proof.
  intros Hc. unfold MutexLock.New, Mutex.Lock, Mutex.locked, CHECK_PTHREAD_ERR.
  destruct (owner x) as [j|] eqn:Ho; [destruct (decide (i = j)) as [<-|Hne]|].
  - rewrite timedlock_own, lock_own by done. simpl. destruct (0 <=? flag), (negb (now.1 =? -1)); done.
  - rewrite (timedlock_other _ _ _ j), (lock_other _ j) by done.
    destruct (0 <=? flag), (negb (now.1 =? -1)), e; done.
  - destruct (lock_free i x Hc Ho) as (x1 & E1 & ? & ?).
    destruct (timedlock_free i {| tv_sec := tv_sec now.2 + flag; tv_nsec := tv_nsec now.2 |} e x Hc Ho) as (x2 & E2 & ? & ?).
    rewrite E1, E2. destruct (0 <=? flag), (negb (now.1 =? -1)); simpl; naive_solver.
Qed.
Lemma MutexLock_New_free flag now e i x : flag < 0 → checks_errors x → owner x = None →
  ∃ x', MutexLock.New flag now e i x = Ok (Done x').
Proof.
  intros Hf Hc Ho. unfold MutexLock.New, Mutex.Lock, Mutex.locked. rewrite (proj2 (Z.leb_gt 0 flag)) by lia.
  destruct (lock_free i x Hc Ho) as (x' & -> & _). by exists x'.
Qed.
Lemma MutexLock_New_waits flag now e i j x : flag < 0 → checks_errors x → owner x = Some j → i ≠ j →
  MutexLock.New flag now e i x = Ok Blocked.
Proof.
  intros Hf Hc Ho Hne. unfold MutexLock.New, Mutex.Lock. rewrite (proj2 (Z.leb_gt 0 flag)) by lia.
  by rewrite (lock_other _ j).
Qed.
Lemma MutexLock_Destroy_own i x : checks_errors x → owner x = Some i →
  ∃ x', MutexLock.Destroy i x = Ok x' ∧ checks_errors x' ∧ owner x' = None.
Proof.
  intros Hc Ho. unfold MutexLock.Destroy, Mutex.Unlock. destruct (unlock_own i x Hc Ho) as (x' & -> & ? & ?). by exists x'.
Qed.
End laws.

(** ** Threads that share the data of a class *)
Section threads.
Context {A X : Type} `{ErrorCheckLaws A X} {S R : Type}.

(** What a thread does: it ends, or constructs a [MutexLock], reads and writes the
    data (what it does then can depend on what it read), and destroys the
    [MutexLock].  [Fails]: a [CHECK] inside does not hold. *)
Inductive prog :=
| Finished (r : R)
| Locks (b : body)
with body :=
| Access (write : S → S) (next : S → body)
| Unlocks (p : prog)
| Fails.

Inductive thread := Outside (p : prog) | Inside (b : body).
Record state := mk_state { mutex : X; shared : S; threads : list thread }.

(** One thread goes one small step. *)
Inductive step (flag : Z) : state → state → Prop :=
| step_lock x s ts i b now expired x' :
    ts !! i = Some (Outside (Locks b)) → MutexLock.New flag now expired i x = Ok (Done x') →
    step flag (mk_state x s ts) (mk_state x' s (<[i := Inside b]> ts))
| step_access x s ts i write next :
    ts !! i = Some (Inside (Access write next)) →
    step flag (mk_state x s ts) (mk_state x (write s) (<[i := Inside (next s)]> ts))
| step_unlock x s ts i p x' :
    ts !! i = Some (Inside (Unlocks p)) → MutexLock.Destroy i x = Ok x' →
    step flag (mk_state x s ts) (mk_state x' s (<[i := Outside p]> ts)).

(** A critical section as one step. *)
Inductive access : body * S → body * S → Prop :=
| access_step write next s : access (Access write next, s) (next s, write s).
Inductive atomic_step : S * list prog → S * list prog → Prop :=
| atomic_section i b p s s' ps :
    ps !! i = Some (Locks b) → rtc access (b, s) (Unlocks p, s') → atomic_step (s, ps) (s', <[i := p]> ps).

Definition start (x : X) (s : S) (ps : list prog) : state := mk_state x s (Outside <$> ps).

(** What the threads have done, if the sections that are over were one step each. *)
Inductive explained (x : X) (s : S) (ts : list thread) (sa : S) (psa : list prog) : Prop :=
| explained_free : owner x = None → s = sa → ts = Outside <$> psa → explained x s ts sa psa
| explained_inside i b0 b : owner x = Some i → psa !! i = Some (Locks b0) → rtc access (b0, sa) (b, s) →
    ts = <[i := Inside b]> (Outside <$> psa) → explained x s ts sa psa.
Definition serial (s0 : S) (ps0 : list prog) (c : state) : Prop :=
  checks_errors (mutex c) ∧
  ∃ sa psa, rtc atomic_step (s0, ps0) (sa, psa) ∧ explained (mutex c) (shared c) (threads c) sa psa.

(** The thread that is inside has the mutex; the others are outside. *)
Lemma explained_thread x s ts sa psa j t : explained x s ts sa psa → ts !! j = Some t →
  match t with
  | Outside p => psa !! j = Some p ∧ owner x ≠ Some j
  | Inside b => owner x = Some j ∧ ts = <[j := Inside b]> (Outside <$> psa) ∧
      ∃ b0, psa !! j = Some (Locks b0) ∧ rtc access (b0, sa) (b, s)
  end.
Proof.
  intros [Ho -> ->|i b0 b Ho Hi Hb ->] Hj.
  - apply list_lookup_fmap_Some in Hj as (p & -> & Hp). by rewrite Ho.
  - destruct (decide (i = j)) as [<-|Hne].
    + rewrite list_lookup_insert_eq in Hj by (rewrite length_fmap; by eapply lookup_lt_Some). injection Hj as <-.
      split; [done|]. split; [done|]. by exists b0.
    + rewrite list_lookup_insert_ne in Hj by done. apply list_lookup_fmap_Some in Hj as (p & -> & Hp).
      split; [done|]. rewrite Ho. congruence.
Qed.

Lemma step_serial flag s0 ps0 c c' : step flag c c' → serial s0 ps0 c → serial s0 ps0 c'.
Proof.
  intros Hstep (Hc & sa & psa & Hrun & He). destruct Hstep as
    [x s ts i b now e x' Hi Hl|x s ts i write next Hi|x s ts i p x' Hi Hu]; cbn [mutex shared threads] in *.
  - destruct (MutexLock_New_Done flag now e i x x' Hc Hl) as (Ho & Hc' & Ho'). split; [done|].
    exists sa, psa. split; [done|]. destruct (explained_thread _ _ _ _ _ _ _ He Hi) as [Hp _].
    destruct He as [_ -> ->|]; [|congruence]. by eapply explained_inside.
  - split; [done|]. exists sa, psa. split; [done|].
    destruct (explained_thread _ _ _ _ _ _ _ He Hi) as (Ho & -> & b0 & Hp & Hb). eapply explained_inside; [done|done|..].
    + eapply rtc_r; [exact Hb|constructor].
    + by rewrite list_insert_insert_eq.
  - destruct (explained_thread _ _ _ _ _ _ _ He Hi) as (Ho & -> & b0 & Hp & Hb).
    destruct (MutexLock_Destroy_own i x Hc Ho) as (x1 & E & Hc1 & Ho1). rewrite Hu in E. injection E as <-.
    split; [done|]. exists s, (<[i := p]> psa). split; [eapply rtc_r; [exact Hrun|by econstructor]|].
    apply explained_free; [done..|]. by rewrite list_insert_insert_eq, list_fmap_insert.
Qed.

Lemma run_serial flag s0 ps0 c c' : rtc (step flag) c c' → serial s0 ps0 c → serial s0 ps0 c'.
Proof. induction 1; eauto using step_serial. Qed.
Lemma start_serial x s ps : Mutex.New = Ok x → serial s ps (start x s ps).
Proof.
  intros [Hc Ho]%Mutex_New_free. split; [done|]. exists s, ps. split; [constructor|]. by apply explained_free.
Qed.

(** C21 (refinement). A critical section is one step.  Threads share data that they touch
    only between the construction of a [MutexLock] and its destruction, in small steps
    that interleave in any way.  There is a run of the same threads in which each
    critical section is one step, such that, when nobody has the mutex, the data and
    the threads are as that run leaves them; else they are so but for the one thread
    that has the mutex, which is inside its next section.  No [CHECK] of a mutex
    function fails: the destructor finds the mutex locked by its thread, and the
    constructor (if the flag that limits its wait is not set) gets the mutex or
    waits. *)
Theorem critical_sections_are_atomic flag x0 s0 ps0 c
    (Hnew : Mutex.New = Ok x0) (Hrun : rtc (step flag) (start x0 s0 ps0) c) :
  (∃ sa psa, rtc atomic_step (s0, ps0) (sa, psa) ∧ explained (mutex c) (shared c) (threads c) sa psa) ∧
  (∀ i p, threads c !! i = Some (Inside (Unlocks p)) → is_ok (MutexLock.Destroy i (mutex c)) = true) ∧
  (flag < 0 → ∀ i b now expired, threads c !! i = Some (Outside (Locks b)) →
     is_ok (MutexLock.New flag now expired i (mutex c)) = true).
Proof.
  destruct (run_serial flag s0 ps0 _ _ Hrun (start_serial _ _ _ Hnew)) as (Hc & sa & psa & Hr & He).
  split; [by exists sa, psa|]. split.
  - intros i p Hi. destruct (explained_thread _ _ _ _ _ _ _ He Hi) as (Ho & _).
    by destruct (MutexLock_Destroy_own i _ Hc Ho) as (x' & -> & _).
  - intros Hf i b now e Hi. destruct (explained_thread _ _ _ _ _ _ _ He Hi) as (_ & Ho).
    destruct (owner (mutex c)) as [j|] eqn:Hj.
    + rewrite (MutexLock_New_waits flag now e i j); [done..|congruence].
    + by destruct (MutexLock_New_free flag now e i _ Hf Hc Hj) as (x' & ->).
Qed.

(** *** The other direction: such a run is one of the interleavings *)
Lemma accesses_possible flag x s ts i b b' s' : ts !! i = Some (Inside b) → rtc access (b, s) (b', s') →
  rtc (step flag) (mk_state x s ts) (mk_state x s' (<[i := Inside b']> ts)).
Proof.
  intros Hi Hr. remember (b, s) as y eqn:Ey. remember (b', s') as y' eqn:Ey'. revert b s ts Hi Ey.
  induction Hr as [y|y y1 y2 Ha Hr IH]; intros b s ts Hi ->.
  - injection Ey' as <- <-. by rewrite list_insert_id.
  - inversion Ha; subst. eapply rtc_l; [by apply step_access|].
    rewrite <- (list_insert_insert_eq ts i (Inside b') (Inside (next s))). apply (IH eq_refl (next s)); [|done].
    apply list_lookup_insert_eq. by eapply lookup_lt_Some.
Qed.
Lemma section_possible flag x s ps y : flag < 0 → checks_errors x → owner x = None → atomic_step (s, ps) y →
  ∃ x', rtc (step flag) (start x s ps) (start x' y.1 y.2) ∧ checks_errors x' ∧ owner x' = None.
Proof.
  intros Hf Hc Ho Ha. inversion Ha as [i b p ? s' ? Hi Hb]; subst. clear Ha.
  destruct (MutexLock_New_free flag (0, {| tv_sec := 0; tv_nsec := 0 |}) false i x Hf Hc Ho) as (x1 & Hl).
  destruct (MutexLock_New_Done _ _ _ _ _ _ Hc Hl) as (_ & Hc1 & Ho1).
  destruct (MutexLock_Destroy_own i x1 Hc1 Ho1) as (x2 & Hu & Hc2 & Ho2).
  assert (i < length (Outside <$> ps))%nat as Hlt by (rewrite length_fmap; by eapply lookup_lt_Some).
  exists x2. split; [|done]. unfold start. simpl. rewrite list_fmap_insert. eapply rtc_l.
  { eapply step_lock; [by rewrite list_lookup_fmap, Hi|exact Hl]. }
  etrans; [eapply (accesses_possible _ _ _ _ i); [by apply list_lookup_insert_eq|exact Hb]|].
  rewrite list_insert_insert_eq. rewrite <- (list_insert_insert_eq _ i (Outside p) (Inside (Unlocks p))).
  apply rtc_once. apply step_unlock; [by apply list_lookup_insert_eq|done].
Qed.
Lemma serial_runs_happen flag x s ps y : flag < 0 → checks_errors x → owner x = None →
  rtc atomic_step (s, ps) y → ∃ x', owner x' = None ∧ rtc (step flag) (start x s ps) (start x' y.1 y.2).
Proof.
  intros Hf Hc Ho Hr. remember (s, ps) as z eqn:Ez. revert x s ps Hc Ho Ez.
  induction Hr as [z|z z1 z2 Ha _ IH]; intros x s ps Hc Ho ->; [by exists x|].
  destruct (section_possible flag x s ps z1 Hf Hc Ho Ha) as (x1 & Hr1 & Hc1 & Ho1). destruct z1 as [s1 ps1].
  destruct (IH x1 s1 ps1 Hc1 Ho1 eq_refl) as (x2 & Ho2 & Hr2). exists x2. split; [done|by etrans].
Qed.

(** What threads can have done when nobody has the mutex is what runs of whole
    sections do. *)
Theorem interleavings_are_serial_runs flag x0 s0 ps0 s ps : flag < 0 → Mutex.New = Ok x0 →
  (∃ x, owner x = None ∧ rtc (step flag) (start x0 s0 ps0) (start x s ps)) ↔ rtc atomic_step (s0, ps0) (s, ps).
Proof.
  intros Hf Hnew. pose proof (Mutex_New_free _ Hnew) as [Hc Ho]. split.
  - intros (x & Hx & Hr). destruct (run_serial flag s0 ps0 _ _ Hr (start_serial _ _ _ Hnew)) as (_ & sa & psa & Hra & He).
    simpl in *. destruct He as [_ -> E|i b0 b Hi]; [|by rewrite Hx in Hi]. apply list_fmap_eq_inj in E; [by subst|].
    by intros p p' [= ->].
  - apply (serial_runs_happen flag x0 s0 ps0 (s, ps) Hf Hc Ho).
Qed.
End threads.

(** ** A library that keeps what the manual says *)
Record plain_mutex := { kind : Z; holder : option nat }.
#[export] Instance plain_pthread : PthreadMutex Z plain_mutex := {
  pthread_mutexattr_init := (0, 0);
  pthread_mutexattr_settype _ k := (0, k);
  pthread_mutexattr_destroy _ := 0;
  pthread_mutex_init k := (0, {| kind := k; holder := None |});
  pthread_mutex_destroy x := 0;
  pthread_mutex_lock i x :=
    match holder x with
    | None => Done (0, {| kind := kind x; holder := Some i |})
    | Some j => if bool_decide (i = j) then Done (EDEADLK, x) else Blocked
    end;
  pthread_mutex_timedlock i t e x :=
    match holder x with
    | None => Done (0, {| kind := kind x; holder := Some i |})
    | Some j => if bool_decide (i = j) then Done (EDEADLK, x) else if e : bool then Done (CondVar.ETIMEDOUT, x) else Blocked
    end;
  pthread_mutex_unlock i x :=
    if bool_decide (holder x = Some i) then (0, {| kind := kind x; holder := None |}) else (EPERM, x);
  owner := holder;
  checks_errors x := kind x = PTHREAD_MUTEX_ERRORCHECK;
}.
#[export] Instance plain_laws : ErrorCheckLaws Z plain_mutex.
Proof.
  split; simpl.
  - by intros ? ? ? [= <-] [= <-] [= <-].
  - intros i x Hc ->. by eexists.
  - intros i x Hc ->. by rewrite bool_decide_true.
  - intros i j x Hc -> Hne. by rewrite bool_decide_false.
  - intros i t e x Hc ->. by eexists.
  - intros i t e x Hc ->. by rewrite bool_decide_true.
  - intros i t e j x Hc -> Hne. by rewrite bool_decide_false.
  - intros i x Hc ->. rewrite bool_decide_true by done. by eexists.
  - intros i x Hc Ho. by rewrite bool_decide_false.
Qed.

(** Two threads that add to a number: each reads it, and then writes what it read
    plus one. *)
Definition inside_add (n : Z) : body (S := Z) (R := unit) := Access (fun _ => n + 1) (fun _ => Unlocks (Finished tt)).
Definition add_one : prog (S := Z) (R := unit) :=
  Locks (Access id inside_add).
Definition free_mutex : plain_mutex := {| kind := PTHREAD_MUTEX_ERRORCHECK; holder := None |}.
Definition held_by_0 : plain_mutex := {| kind := PTHREAD_MUTEX_ERRORCHECK; holder := Some 0%nat |}.
Definition second_waits : state (X := plain_mutex) (S := Z) (R := unit) :=
  mk_state held_by_0 0 [Inside (inside_add 0); Outside add_one].

Lemma critical_sections_are_atomic_witness :
  is_ok (MutexLock.New (-1) (0, {| tv_sec := 0; tv_nsec := 0 |}) false 1 (mutex second_waits)) = true.
Proof.
  destruct (critical_sections_are_atomic (-1) free_mutex 0 [add_one; add_one] second_waits) as (_ & _ & Hlock).
  - reflexivity.
  - eapply rtc_l; [eapply (step_lock _ _ _ _ 0%nat _ (0, {| tv_sec := 0; tv_nsec := 0 |}) false); reflexivity|].
    apply rtc_once. change second_waits with (mk_state held_by_0 (id 0) (<[0%nat := Inside (inside_add 0)]>
      [Inside (Access id inside_add); Outside add_one])). by apply (step_access (-1) held_by_0 0).
  - by eapply (Hlock ltac:(lia) 1%nat).
Defined.

(** ** The time and random numbers *)

(** [GetCurrentTimeUsec]: what [gettimeofday] returns, with seconds and microseconds;
    the product and the sum have type [int64]. *)
Record timeval := { tval_sec : Z; tval_usec : Z }.
Definition int64_or_undef (n : Z) : res Z := if (- 2 ^ 63 <=? n) && (n <? 2 ^ 63) then Ok n else Undef.
Definition GetCurrentTimeUsec (r : Z) (tv : timeval) : res Z :=
  _ ← CHECK (r =? 0);
  usec ← int64_or_undef (tval_sec tv * 1000000);
  int64_or_undef (usec + tval_usec tv).

(** Until the year 200000 the time is exact, and a deadline made of it splits it up
    again. *)
Lemma current_time_exact tv :
  0 ≤ tval_sec tv < 2 ^ 42 → 0 ≤ tval_usec tv < 1000000 →
  ∃ t, GetCurrentTimeUsec 0 tv = Ok t ∧
    CondVar.deadline_of t = {| CondVar.tv_sec := tval_sec tv; CondVar.tv_nsec := tval_usec tv * 1000 |}.
Proof.
  intros Hs Hu. exists (tval_sec tv * 1000000 + tval_usec tv). unfold GetCurrentTimeUsec, int64_or_undef. simpl.
  rewrite !(proj2 (andb_true_iff _ _)) by (split; [apply Z.leb_le|apply Z.ltb_lt]; lia). simpl.
  rewrite (proj2 (andb_true_iff _ _)) by (split; [apply Z.leb_le|apply Z.ltb_lt]; lia). split; [done|].
  unfold CondVar.deadline_of. rewrite Z.quot_div_nonneg, Z.rem_mod_nonneg by lia.
  rewrite Z.div_add_l, (Z.div_small (tval_usec tv)), Z.add_0_r by lia.
  by rewrite Z.add_comm, Z.mod_add, Z.mod_small by lia.
Qed.

(** [GetRandomInt], with the variables that each thread has; [rand_r] returns a number
    and the next seed. *)
Record random_state := { seed : Z; initialized : bool }.
Definition no_random : random_state := {| seed := 0; initialized := false |}.
Definition GetRandomInt (rand_r : Z → Z * Z) (now : res Z) (s : random_state) : res (Z * random_state) :=
  s ← (if negb (initialized s)
       then usec ← now; Ok {| seed := usec mod 2 ^ 32; initialized := true |}
       else Ok s);
  let '(n, seed') := rand_r (seed s) in
  Ok (n, {| seed := seed'; initialized := initialized s |}).

Fixpoint random_ints (rand_r : Z → Z * Z) (times : list (res Z)) (s : random_state) : res (list Z) :=
  match times with
  | [] => Ok []
  | now :: times => '(n, s) ← GetRandomInt rand_r now s; ns ← random_ints rand_r times s; Ok (n :: ns)
  end.
(** The numbers that follow a seed. *)
Fixpoint stream (rand_r : Z → Z * Z) (n : nat) (x : Z) : list Z :=
  match n with O => [] | Datatypes.S n => (rand_r x).1 :: stream rand_r n (rand_r x).2 end.

(** A thread reads the time once, and its numbers are the stream of that seed. *)
Lemma random_ints_stream rand_r usec times :
  random_ints rand_r (Ok usec :: times) no_random = Ok (stream rand_r (Datatypes.S (length times)) (usec mod 2 ^ 32)).
Proof.
  assert (∀ x, random_ints rand_r times {| seed := x; initialized := true |} = Ok (stream rand_r (length times) x)) as Hs.
  { induction times as [|now times IH]; intros x; [done|]. simpl. unfold GetRandomInt at 1. simpl.
    destruct (rand_r x) as [n x'] eqn:E. simpl. by rewrite IH. }
  simpl. unfold GetRandomInt. simpl. destruct (rand_r (usec mod 2 ^ 32)) as [n x'] eqn:E. simpl. by rewrite Hs.
Qed.
