(* ===== verification/Uuids.v ===== *)
(** Uuids in binary, and their generation: the rest of [engine/uuid_util.cc].  The
    OSSP library, which makes and formats uuids, is an interface (class [OsspUuid]);
    its calls can fail, which ends the process. *)
From S2P Require Import Prelude Text Ids.
From stdpp Require Import base tactics list strings.
From Stdlib Require Import ZArith Lia.
#[local] Open Scope Z_scope.
#[local] Open Scope list_scope.

(** ** Binary *)

(** [be64toh] of the word at the bytes, and [htobe64] of a word: the most significant
    byte is the first.  A byte is a number below 256. *)
Definition be64toh (bytes : list Z) : Z := foldl (fun n b => n * 256 + b) 0 bytes.
Fixpoint be_bytes (count : nat) (n : Z) : list Z :=
  match count with O => [] | S count => be_bytes count (n / 256) ++ [n mod 256] end.
Definition htobe64 (n : Z) : list Z := be_bytes 8 n.

Definition UUID_LEN_BIN : nat := 16.

Definition BinaryToUuid (buffer : list Z) : res Uuid :=
  _ ← CHECK (bool_decide (length buffer = 16%nat));
  Ok {| high_word := be64toh (take 8 buffer); low_word := be64toh (drop 8 buffer) |}.

Definition UuidToBinary (uuid : Uuid) (buffer_size : nat) : res (list Z) :=
  _ ← CHECK (bool_decide (buffer_size = 16%nat));
  Ok (htobe64 (high_word uuid) ++ htobe64 (low_word uuid)).

(** ** Generation *)

(** What the library makes, in binary: the [n]th uuid of version 1, a uuid of version
    5 of a name space and a name; and its format for text. *)
Class OsspUuid := {
  ossp_v1 : nat → option (list Z);
  ossp_v5 : string → string → option (list Z);
  ossp_text : list Z → option string;
}.
Class OsspUuidLaws `{OsspUuid} : Prop := {
  ossp_v1_bytes n b : ossp_v1 n = Some b → length b = UUID_LEN_BIN ∧ Forall (fun x => 0 ≤ x < 256) b;
  ossp_v5_bytes ns name b : ossp_v5 ns name = Some b → length b = UUID_LEN_BIN ∧ Forall (fun x => 0 ≤ x < 256) b;
}.

Section generate.
Context `{OsspUuid}.

Definition GenerateUuid (n : nat) : res Uuid :=
  buffer ← check_some (ossp_v1 n); BinaryToUuid buffer.

Definition UuidToHyphenatedString (uuid : Uuid) : res string :=
  buffer ← UuidToBinary uuid UUID_LEN_BIN; check_some (ossp_text buffer).

Definition GeneratePredictableUuid (ns_uuid : Uuid) (name : string) : res Uuid :=
  ns_uuid_str ← UuidToHyphenatedString ns_uuid;
  buffer ← check_some (ossp_v5 (c_str ns_uuid_str) (c_str name));
  BinaryToUuid buffer.
End generate.

(** ** Round trips *)
Definition is_byte (b : Z) : Prop := 0 ≤ b < 256.

Lemma be_bytes_length count n : length (be_bytes count n) = count.
Proof. revert n. induction count as [|count IH]; intros n; simpl; [done|]. rewrite length_app, IH. simpl. lia. Qed.
Lemma be_bytes_bytes count n : Forall is_byte (be_bytes count n).
Proof.
  revert n. induction count as [|count IH]; intros n; simpl; [constructor|]. apply Forall_app. split; [apply IH|].
  constructor; [|constructor]. apply Z.mod_pos_bound. lia.
Qed.
Lemma be64toh_app l b : be64toh (l ++ [b]) = be64toh l * 256 + b.
Proof. unfold be64toh. by rewrite foldl_app. Qed.

Lemma be64toh_be_bytes count n : 0 ≤ n < 256 ^ Z.of_nat count → be64toh (be_bytes count n) = n.
Proof.
  revert n. induction count as [|count IH]; intros n Hn; simpl; [rewrite Z.pow_0_r in Hn; unfold be64toh; simpl; lia|].
  rewrite be64toh_app, IH; [pose proof (Z.div_mod n 256); lia|].
  rewrite Nat2Z.inj_succ, Z.pow_succ_r in Hn by lia. split; [apply Z.div_pos; lia|apply Z.div_lt_upper_bound; lia].
Qed.

Lemma be_bytes_be64toh l :
  Forall is_byte l → be_bytes (length l) (be64toh l) = l ∧ 0 ≤ be64toh l < 256 ^ Z.of_nat (length l).
Proof.
  induction l as [|b l IH] using rev_ind; [done|]. intros [Hl Hb]%Forall_app. destruct (IH Hl) as [E [H0 H1]].
  apply Forall_cons in Hb as [Hb _]. unfold is_byte in Hb.
  rewrite length_app, Nat.add_comm. simpl. rewrite be64toh_app. split.
  - assert ((be64toh l * 256 + b) / 256 = be64toh l) as -> by (symmetry; apply (Z.div_unique_pos _ _ _ b); lia).
    assert ((be64toh l * 256 + b) mod 256 = b) as -> by (symmetry; apply (Z.mod_unique_pos _ _ (be64toh l)); lia).
    by rewrite E.
  - rewrite Nat2Z.inj_succ, Z.pow_succ_r by lia. lia.
Qed.

(** The binary format of uuids loses nothing, in either direction; the words that
    are read are 64 bits wide. *)
Theorem binary_uuid_roundtrip :
  (∀ u, uuid_ok u → (b ← UuidToBinary u UUID_LEN_BIN; BinaryToUuid b) = Ok u) ∧
  (∀ b, length b = UUID_LEN_BIN → Forall is_byte b →
    ∃ u, BinaryToUuid b = Ok u ∧ uuid_ok u ∧ UuidToBinary u UUID_LEN_BIN = Ok b).
Proof.
  split.
  - intros [h l] [Hh Hl]. change (BinaryToUuid (htobe64 h ++ htobe64 l) = Ok {| high_word := h; low_word := l |}).
    unfold BinaryToUuid, htobe64. rewrite bool_decide_true by (by rewrite length_app, !be_bytes_length).
    change (Ok {| high_word := be64toh (take 8 (be_bytes 8 h ++ be_bytes 8 l));
                  low_word := be64toh (drop 8 (be_bytes 8 h ++ be_bytes 8 l)) |} = Ok {| high_word := h; low_word := l |}).
    rewrite take_app_length', drop_app_length', !be64toh_be_bytes by (apply be_bytes_length || done). done.
  - intros b Hlen Hb. unfold BinaryToUuid. rewrite bool_decide_true by done. simpl. eexists. split; [done|].
    rewrite <- (take_drop 8 b) in Hb. apply Forall_app in Hb as [H1 H2].
    destruct (be_bytes_be64toh _ H1) as [E1 B1], (be_bytes_be64toh _ H2) as [E2 B2].
    rewrite length_take, Hlen in E1, B1. rewrite length_drop, Hlen in E2, B2.
    split; [by split|]. change (Ok (be_bytes 8 (be64toh (take 8 b)) ++ be_bytes 8 (be64toh (drop 8 b))) = Ok b).
    change (be_bytes 8 (be64toh (take 8 b)) = take 8 b) in E1. change (be_bytes 8 (be64toh (drop 8 b)) = drop 8 b) in E2.
    by rewrite E1, E2, take_drop.
Qed.

(** Uuids of one name space and different names are different if the library's
    are. *)
Lemma predictable_uuids_differ `{OsspUuidLaws} ns name name' text b b' u u' :
  UuidToHyphenatedString ns = Ok text →
  ossp_v5 (c_str text) (c_str name) = Some b → ossp_v5 (c_str text) (c_str name') = Some b' → b ≠ b' →
  GeneratePredictableUuid ns name = Ok u → GeneratePredictableUuid ns name' = Ok u' → u ≠ u'.
Proof.
  intros Ht Hb Hb' Hne. unfold GeneratePredictableUuid. rewrite Ht. simpl. rewrite Hb, Hb'. simpl. intros Hu Hu' ->.
  destruct binary_uuid_roundtrip as [_ Hr].
  destruct (Hr b) as (v & Hv & _ & E); [by eapply ossp_v5_bytes..|].
  destruct (Hr b') as (v' & Hv' & _ & E'); [by eapply ossp_v5_bytes..|]. congruence.
Qed.

Example binary_uuid :
  UuidToBinary {| high_word := 0x0102030405060708; low_word := 255 |} 16 =
    Ok [1; 2; 3; 4; 5; 6; 7; 8; 0; 0; 0; 0; 0; 0; 0; 255].
Proof. reflexivity. Qed.
