(* ===== verification/VersionMap.v ===== *)
(** [engine/canonical_peer.h], [engine/canonical_peer_map.cc],
    [engine/version_map.h], [engine/max_version_map.h] and
    [engine/min_version_map.h].

    A [const CanonicalPeer*] handed out by a [CanonicalPeerMap] is determined
    by its peer id ([canonical_peer_interned] below), so the rest of the
    development identifies the pointer with the id.  A [std::unordered_map]
    keyed by such pointers is a [gmap]; a loop over it folds over
    [map_to_list], and the theorems hold for whatever order that is. *)
From stdpp Require Import base tactics list strings gmap fin_maps.
From Stdlib Require Import ZArith Lia.
From S2P Require Import Prelude Ids.

(** * Canonical peers *)
Record CanonicalPeer := { peer_id : string }.

#[export] Instance CanonicalPeer_eq_dec : EqDecision CanonicalPeer.
Proof. solve_decision. Defined.
#[export] Instance CanonicalPeer_countable : Countable CanonicalPeer.
Proof.
  refine (inj_countable' peer_id (fun s => {| peer_id := s |}) _). by intros [].
Defined.

(** [CanonicalPeerMap]: the objects allocated so far (a pointer is a position)
    and the map from ids to pointers. *)
Record CanonicalPeerMap := {
  peers_heap : list CanonicalPeer;
  peers_map : gmap string nat;
}.

Definition NewCanonicalPeerMap : CanonicalPeerMap :=
  {| peers_heap := []; peers_map := ∅ |}.

Definition GetCanonicalPeer (id : string) (m : CanonicalPeerMap)
    : nat * CanonicalPeerMap :=
  match peers_map m !! id with
  | Some ptr => (ptr, m)
  | None =>
      let ptr := length (peers_heap m) in
      (ptr, {| peers_heap := peers_heap m ++ [{| peer_id := id |}];
               peers_map := <[id := ptr]> (peers_map m) |})
  end.

Definition canonical_peer_map_wf (m : CanonicalPeerMap) : Prop :=
  ∀ id ptr, peers_map m !! id = Some ptr ↔ peers_heap m !! ptr = Some {| peer_id := id |}.

(** * [VersionMap<CompareFunction>] *)
Abbreviation version_map := (gmap CanonicalPeer TransactionId).

Section version_map.
Context (CompareFunction : Ordered TransactionId).

Definition IsEmpty (m : version_map) : bool := bool_decide (size m = 0).

Definition Clear (m : version_map) : version_map := ∅.

Definition GetPeerTransactionId (p : CanonicalPeer) (m : version_map)
    : option TransactionId := m !! p.

Definition HasPeerTransactionId (p : CanonicalPeer) (min_transaction_id : TransactionId)
    (m : version_map) : bool :=
  match m !! p with
  | None => false
  | Some existing => negb (CompareFunction min_transaction_id existing)
  end.

Definition AddPeerTransactionId (p : CanonicalPeer) (t : TransactionId)
    (m : version_map) : res version_map :=
  CHECK (IsValidTransactionId t);;
  match m !! p with
  | None => Ok (<[p := t]> m)
  | Some existing => if negb (CompareFunction t existing) then Ok m else Ok (<[p := t]> m)
  end.

Definition RemovePeerTransactionId (p : CanonicalPeer) (t : TransactionId)
    (m : version_map) : res version_map :=
  CHECK (IsValidTransactionId t);;
  match m !! p with
  | None => Ok m
  | Some existing => if CompareFunction existing t then Ok m else Ok (delete p m)
  end.

Definition CopyFrom (other m : version_map) : version_map := other.

Definition Swap (m other : version_map) : version_map * version_map := (other, m).

Definition VersionMapsAreEqual (a b : version_map) : bool :=
  bool_decide (size a = size b) &&
  forallb (fun '(p, t) =>
    match b !! p with None => false | Some t' => negb (tid_neb t t') end)
    (map_to_list a).

Definition VersionMapIsLessThanOrEqual (a b : version_map) : bool :=
  forallb (fun '(p, t) =>
    match b !! p with None => false | Some t' => negb (tid_gtb t t') end)
    (map_to_list a).

Definition GetVersionMapUnion (a b : version_map) : res version_map :=
  foldM (fun out '(p, t) => AddPeerTransactionId p t out) a (map_to_list b).

Definition GetVersionMapIntersection (a b out : version_map) : res version_map :=
  foldM (fun out '(p, a_transaction_id) =>
    match b !! p with
    | None => Ok out
    | Some b_transaction_id =>
        AddPeerTransactionId p
          (if CompareFunction a_transaction_id b_transaction_id
           then a_transaction_id else b_transaction_id) out
    end) out (map_to_list a).

(** The invariant [AddPeerTransactionId] maintains. *)
Definition version_map_wf (m : version_map) : Prop :=
  map_Forall (fun _ t => IsValidTransactionId t = true) m.
End version_map.

(** [TransactionIdGreaterThanFunction] and [TransactionIdLessThanFunction]. *)
Definition GreaterThan : Ordered TransactionId := tid_gtb.
Definition LessThan : Ordered TransactionId := ltb.
#[export] Instance GreaterThan_laws : @OrderedLaws TransactionId GreaterThan.
Proof.
  unfold GreaterThan, tid_gtb. split; unfold ltb at 1.
  - apply ltb_irrefl.
  - intros x y z ??. by eapply (ltb_trans z y x).
  - intros x y ??. by apply ltb_total.
Qed.
#[export] Instance LessThan_laws : @OrderedLaws TransactionId LessThan.
Proof. exact TransactionId_ordered_laws. Qed.

(** [MaxVersionMap]: the instance the engine uses. *)
Abbreviation MaxHas := (HasPeerTransactionId GreaterThan).
Abbreviation MaxAdd := (AddPeerTransactionId GreaterThan).
Abbreviation MaxUnion := (GetVersionMapUnion GreaterThan).

(** * Lemmas *)
Lemma MaxHas_true p t (m : version_map) :
  MaxHas p t m = true ↔ ∃ u, m !! p = Some u ∧ t ⪯ u.
Proof.
  unfold HasPeerTransactionId, GreaterThan, tid_gtb. destruct (m !! p) as [u|]; [|naive_solver].
  rewrite negb_true_iff. naive_solver.
Qed.

Section version_map_lemmas.
Context (cmp : Ordered TransactionId) {Laws : @OrderedLaws TransactionId cmp}.
Implicit Types (m a b out : version_map).

Lemma add_ok p t m :
  IsValidTransactionId t = true → version_map_wf m →
  ∃ m', AddPeerTransactionId cmp p t m = Ok m' ∧ version_map_wf m'.
Proof.
  intros Ht Hm. unfold AddPeerTransactionId. rewrite Ht. simpl.
  destruct (m !! p) as [e|] eqn:E; [destruct (negb (cmp t e))|]; eexists;
    (split; [done|]); try done; by apply map_Forall_insert_2.
Qed.

Lemma add_Some p t m m' : AddPeerTransactionId cmp p t m = Ok m' →
  IsValidTransactionId t = true ∧ is_Some (m' !! p) ∧
  (∀ q, q ≠ p → m' !! q = m !! q).
Proof.
  unfold AddPeerTransactionId. intros H. res_inv. split; [done|].
  destruct (m !! p) as [e|] eqn:E; [destruct (negb (cmp t e))|]; res_inv;
    split; eauto; intros; by simplify_map_eq.
Qed.

(** The transactions a version covers after one is added. *)
Lemma has_add p t m m' q u :
  AddPeerTransactionId cmp p t m = Ok m' →
  HasPeerTransactionId cmp q u m' =
  HasPeerTransactionId cmp q u m || (bool_decide (q = p) && negb (cmp u t)).
Proof.
  unfold AddPeerTransactionId, HasPeerTransactionId. intros H. res_inv.
  destruct (decide (q = p)) as [->|Hne].
  - rewrite bool_decide_true by done. simpl.
    destruct (m !! p) as [e|] eqn:E; [destruct (negb (cmp t e)) eqn:Ec|]; res_inv;
      simplify_map_eq.
    + destruct (cmp u e) eqn:E1, (cmp u t) eqn:E2; try done. exfalso.
      apply negb_true_iff in Ec. assert (@ltb _ cmp u e = false); [|unfold ltb in *; congruence].
      change (@ltb _ cmp t e = false) in Ec. change (@ltb _ cmp u t = false) in E2. ord.
    + destruct (cmp u e) eqn:E1, (cmp u t) eqn:E2; try done. exfalso.
      apply negb_false_iff in Ec. assert (@ltb _ cmp u e = true); [|unfold ltb in *; congruence].
      change (@ltb _ cmp t e = true) in Ec. change (@ltb _ cmp u t = true) in E2. ord.
    + done.
  - rewrite bool_decide_false by done. simpl. rewrite orb_false_r.
    destruct (m !! p) as [e|] eqn:E; [destruct (negb (cmp t e)) eqn:Ec|]; res_inv;
      by simplify_map_eq.
Qed.

Definition list_has (q : CanonicalPeer) (u : TransactionId)
    (l : list (CanonicalPeer * TransactionId)) : bool :=
  existsb (fun '(p, t) => bool_decide (q = p) && negb (cmp u t)) l.

Lemma list_has_map_to_list q u m :
  list_has q u (map_to_list m) = HasPeerTransactionId cmp q u m.
Proof.
  unfold list_has, HasPeerTransactionId. apply eq_true_iff_eq. rewrite existsb_exists. split.
  - intros ([p t] & Hin & [->%bool_decide_eq_true Hc]%andb_true_iff).
    apply list_elem_of_In, elem_of_map_to_list in Hin. by rewrite Hin.
  - destruct (m !! q) as [t|] eqn:E; [|done]. intros Hc. exists (q, t).
    rewrite <- list_elem_of_In, elem_of_map_to_list, bool_decide_true, Hc by done. done.
Qed.

(** Adding a list of pairs, in any order. *)
Lemma add_all_spec l m :
  Forall (fun pt => IsValidTransactionId pt.2 = true) l → version_map_wf m →
  ∃ m', foldM (fun out '(p, t) => AddPeerTransactionId cmp p t out) m l = Ok m' ∧
    version_map_wf m' ∧
    ∀ q u, HasPeerTransactionId cmp q u m' =
           HasPeerTransactionId cmp q u m || list_has q u l.
Proof.
  intros Hl. revert m. induction l as [|[p t] l IH]; intros m Hm; simpl.
  - exists m. split_and!; [done..|]. intros. by rewrite orb_false_r.
  - inversion Hl; subst; simpl in *.
    destruct (add_ok p t m) as (m1 & E1 & Hm1); [done..|]. rewrite E1. simpl.
    destruct (IH ltac:(done) m1 Hm1) as (m2 & E2 & Hm2 & Hh). exists m2.
    split_and!; [done..|]. intros q u. rewrite Hh, (has_add _ _ _ _ _ _ E1).
    by rewrite orb_assoc.
Qed.

Lemma version_map_wf_list m :
  version_map_wf m → Forall (fun pt => IsValidTransactionId pt.2 = true) (map_to_list m).
Proof.
  intros Hm. apply Forall_forall. intros [p t] Hin.
  apply elem_of_map_to_list in Hin. by apply (Hm p t).
Qed.

(** [GetVersionMapUnion] of two well-formed version maps does
    not fail, is well-formed, and covers exactly the transactions that one of
    the two covers, for [MaxVersionMap] and [MinVersionMap] alike. *)
Theorem version_map_union_spec a b :
  version_map_wf a → version_map_wf b →
  ∃ c, GetVersionMapUnion cmp a b = Ok c ∧ version_map_wf c ∧
    ∀ p t, HasPeerTransactionId cmp p t c =
           HasPeerTransactionId cmp p t a || HasPeerTransactionId cmp p t b.
Proof.
  intros Ha Hb.
  destruct (add_all_spec (map_to_list b) a (version_map_wf_list b Hb) Ha)
    as (c & Ec & Hc & Hh).
  exists c. split_and!; [done..|]. intros. by rewrite Hh, list_has_map_to_list.
Qed.

End version_map_lemmas.

(** ** The order *)
Lemma less_or_equal_iff a b :
  VersionMapIsLessThanOrEqual a b = true ↔
  ∀ p t, a !! p = Some t → ∃ u, b !! p = Some u ∧ t ⪯ u.
Proof.
  unfold VersionMapIsLessThanOrEqual. rewrite forallb_forall. split.
  - intros H p t Hp. specialize (H (p, t)). simpl in H.
    rewrite <- list_elem_of_In, elem_of_map_to_list in H. specialize (H Hp).
    destruct (b !! p) as [u|]; [|done]. exists u. split; [done|].
    by apply negb_true_iff in H.
  - intros H [p t] Hin. rewrite <- list_elem_of_In, elem_of_map_to_list in Hin.
    destruct (H p t Hin) as (u & -> & Hu). by apply negb_true_iff.
Qed.

Lemma max_has_self p t (m : version_map) : m !! p = Some t → MaxHas p t m = true.
Proof. intros H. apply MaxHas_true. exists t. split; [done|apply ltb_irrefl]. Qed.

Lemma less_or_equal_has a b :
  VersionMapIsLessThanOrEqual a b = true ↔
  ∀ p t, MaxHas p t a = true → MaxHas p t b = true.
Proof.
  rewrite less_or_equal_iff. split.
  - intros H p t (u & Hu & Htu)%MaxHas_true. destruct (H p u Hu) as (w & Hw & Huw).
    apply MaxHas_true. exists w. split; [done|]. ord.
  - intros H p t Hp. apply MaxHas_true, H. by apply max_has_self.
Qed.

Lemma less_or_equal_antisym a b :
  VersionMapIsLessThanOrEqual a b = true → VersionMapIsLessThanOrEqual b a = true → a = b.
Proof.
  rewrite !less_or_equal_iff. intros Hab Hba. apply map_eq. intros p.
  destruct (a !! p) as [t|] eqn:Ea.
  - destruct (Hab p t Ea) as (u & Hu & Htu). destruct (Hba p u Hu) as (w & Hw & Huw).
    rewrite Ea in Hw. injection Hw as <-. rewrite Hu. f_equal. ord.
  - destruct (b !! p) as [u|] eqn:Eb; [|done]. destruct (Hba p u Eb) as (w & Hw & _). congruence.
Qed.

Lemma maps_are_equal_iff a b : VersionMapsAreEqual a b = true ↔ a = b.
Proof.
  unfold VersionMapsAreEqual. rewrite andb_true_iff, bool_decide_eq_true, forallb_forall. split.
  - intros [Hsz H]. assert (a ⊆ b) as Hsub.
    { apply map_subseteq_spec. intros p t Hp. specialize (H (p, t)). simpl in H.
      rewrite <- list_elem_of_In, elem_of_map_to_list in H. specialize (H Hp).
      destruct (b !! p) as [u|]; [|done]. unfold tid_neb in H.
      rewrite negb_involutive in H. apply tid_eqb_eq in H. congruence. }
    apply map_subseteq_size_eq; [done|lia].
  - intros ->. split; [done|]. intros [p t] Hin.
    rewrite <- list_elem_of_In, elem_of_map_to_list in Hin. rewrite Hin.
    unfold tid_neb. rewrite negb_involutive. by apply tid_eqb_eq.
Qed.

(** [MaxVersionMap]s refine sets of transactions ordered by
    inclusion: [VersionMapIsLessThanOrEqual] is inclusion of what the maps
    cover, two maps below each other are [operator==], and
    [GetVersionMapUnion] is their least upper bound. *)
Theorem max_version_map_lattice a b :
  version_map_wf a → version_map_wf b →
  (VersionMapIsLessThanOrEqual a b = true ↔
     ∀ p t, MaxHas p t a = true → MaxHas p t b = true) ∧
  (VersionMapIsLessThanOrEqual a b && VersionMapIsLessThanOrEqual b a =
   VersionMapsAreEqual a b) ∧
  ∃ c, MaxUnion a b = Ok c ∧
    ∀ d, VersionMapIsLessThanOrEqual c d =
         VersionMapIsLessThanOrEqual a d && VersionMapIsLessThanOrEqual b d.
Proof.
  intros Ha Hb. split; [apply less_or_equal_has|]. split.
  - apply eq_true_iff_eq. rewrite andb_true_iff, maps_are_equal_iff. split.
    + intros [??]. by apply less_or_equal_antisym.
    + intros ->. rewrite less_or_equal_has. naive_solver.
  - destruct (version_map_union_spec GreaterThan a b Ha Hb) as (c & -> & Hc & Hh).
    exists c. split; [done|]. intros d. apply eq_true_iff_eq.
    rewrite andb_true_iff, !less_or_equal_has. split.
    + intros H. split; intros p t Hp; apply H; rewrite Hh, Hp; [done|apply orb_true_r].
    + intros [H1 H2] p t. rewrite Hh, orb_true_iff. naive_solver.
Qed.

(** [GetVersionMapIntersection] written as a loop that adds a list of pairs. *)
Definition common_pairs (a b : version_map) : list (CanonicalPeer * TransactionId) :=
  omap (fun '(p, ta) => tb ← b !! p; Some (p, if tid_gtb ta tb then ta else tb))
    (map_to_list a).

Lemma intersection_as_adds l (b out : version_map) :
  foldM (fun out '(p, ta) =>
    match b !! p with
    | None => Ok out
    | Some tb => MaxAdd p (if tid_gtb ta tb then ta else tb) out
    end) out l =
  foldM (fun out '(p, t) => MaxAdd p t out) out
    (omap (fun '(p, ta) => tb ← b !! p; Some (p, if tid_gtb ta tb then ta else tb)) l).
Proof.
  revert out. induction l as [|[p ta] l IH]; intros out; simpl; [done|].
  destruct (b !! p) as [tb|]; simpl; [|done]. destruct (MaxAdd _ _ _); simpl; auto.
Qed.

Lemma common_pairs_valid a b :
  version_map_wf a → version_map_wf b →
  Forall (fun pt => IsValidTransactionId pt.2 = true) (common_pairs a b).
Proof.
  intros Ha Hb. apply Forall_forall. intros [p t] Hin.
  apply list_elem_of_omap in Hin as ([q ta] & Hq%elem_of_map_to_list & E).
  destruct (b !! q) as [tb|] eqn:Eb; simplify_eq/=.
  case_match; [by apply (Ha p)|by apply (Hb p)].
Qed.

Lemma common_pairs_has a b q u :
  list_has GreaterThan q u (common_pairs a b) =
  (bool_decide (is_Some (a !! q)) && bool_decide (is_Some (b !! q))) &&
  (MaxHas q u a || MaxHas q u b).
Proof.
  apply eq_true_iff_eq. unfold list_has.
  rewrite existsb_exists, !andb_true_iff, orb_true_iff, !bool_decide_eq_true. split.
  - intros ([p t] & Hin & [->%bool_decide_eq_true Hc]%andb_true_iff).
    apply list_elem_of_In, list_elem_of_omap in Hin as ([q ta] & Hq%elem_of_map_to_list & E).
    destruct (b !! q) as [tb|] eqn:Eb; simplify_eq/=. split; [by rewrite Hq, Eb|].
    rewrite !MaxHas_true. apply negb_true_iff in Hc.
    destruct (tid_gtb ta tb); [left; exists ta|right; exists tb]; done.
  - intros [[[ta Ha] [tb Hb]] Hh]. exists (q, if tid_gtb ta tb then ta else tb).
    rewrite <- list_elem_of_In, bool_decide_true by done. split.
    + apply list_elem_of_omap. exists (q, ta). rewrite elem_of_map_to_list, Hb. done.
    + simpl. apply negb_true_iff. unfold GreaterThan, tid_gtb in *. rewrite !MaxHas_true in Hh.
      destruct (ltb tb ta) eqn:E; destruct Hh as [(w & Hw & Hu)|(w & Hw & Hu)]; simplify_eq; ord.
Qed.

(** [GetVersionMapIntersection] of two [MaxVersionMap]s keeps,
    for each peer both maps know, the larger of the two ids: on those peers it
    covers what either map covers, not what both cover. *)
Theorem max_version_map_intersection_exact a b :
  version_map_wf a → version_map_wf b →
  ∃ c, GetVersionMapIntersection GreaterThan a b ∅ = Ok c ∧
    ∀ p t, MaxHas p t c =
      (bool_decide (is_Some (a !! p)) && bool_decide (is_Some (b !! p))) &&
      (MaxHas p t a || MaxHas p t b).
Proof.
  intros Ha Hb. unfold GetVersionMapIntersection.
  destruct (add_all_spec GreaterThan (common_pairs a b) ∅) as (c & Ec & _ & Hh).
  - by apply common_pairs_valid.
  - apply map_Forall_empty.
  - exists c. split.
    + rewrite <- Ec. apply (intersection_as_adds (map_to_list a) b ∅).
    + intros p t. rewrite Hh, common_pairs_has. done.
Qed.

(** ** Interned peers *)
Lemma canonical_peer_map_wf_new : canonical_peer_map_wf NewCanonicalPeerMap.
Proof. intros id ptr. simpl. by rewrite lookup_empty, lookup_nil. Qed.

Lemma GetCanonicalPeer_spec id m ptr m' :
  canonical_peer_map_wf m → GetCanonicalPeer id m = (ptr, m') →
  canonical_peer_map_wf m' ∧ peers_heap m' !! ptr = Some {| peer_id := id |} ∧
  peers_heap m `prefix_of` peers_heap m'.
Proof.
  intros Hm. unfold GetCanonicalPeer. destruct (peers_map m !! id) as [q|] eqn:E.
  { intros [= <- <-]. split; [done|]. split; [by apply Hm|done]. }
  intros [= <- <-]. simpl. split; [|split; [by rewrite lookup_app_r, Nat.sub_diag by lia|by eexists]].
  intros id' q. simpl. rewrite lookup_snoc_Some.
  destruct (decide (id = id')) as [<-|Hne].
  - rewrite lookup_insert_eq. split.
    + intros [= <-]. by right.
    + intros [[_ Hq]|[-> _]]; [|done]. apply Hm in Hq. congruence.
  - rewrite lookup_insert_ne by done. rewrite (Hm id' q). split.
    + intros Hq. left. split; [|done]. by apply lookup_lt_Some in Hq.
    + intros [[_ ?]|[_ [= ?]]]; [done|congruence].
Qed.

Fixpoint GetCanonicalPeers (ids : list string) (m : CanonicalPeerMap)
    : list nat * CanonicalPeerMap :=
  match ids with
  | [] => ([], m)
  | id :: rest =>
      let '(p, m) := GetCanonicalPeer id m in
      let '(ps, m) := GetCanonicalPeers rest m in (p :: ps, m)
  end.

Lemma GetCanonicalPeers_spec ids m ptrs m' :
  canonical_peer_map_wf m → GetCanonicalPeers ids m = (ptrs, m') →
  canonical_peer_map_wf m' ∧ peers_heap m `prefix_of` peers_heap m' ∧
  Forall2 (fun id p => peers_heap m' !! p = Some {| peer_id := id |}) ids ptrs.
Proof.
  revert m ptrs m'. induction ids as [|id ids IH]; intros m ptrs m' Hm; simpl.
  { intros [= <- <-]. split; [done|]. split; [done|constructor]. }
  destruct (GetCanonicalPeer id m) as [p m1] eqn:E1.
  destruct (GetCanonicalPeers ids m1) as [ps m2] eqn:E2. intros [= <- <-].
  apply GetCanonicalPeer_spec in E1 as (Hm1 & Hp & Hpre); [|done].
  apply IH in E2 as (Hm2 & Hpre2 & Hf); [|done].
  split; [done|]. split; [by etrans|]. constructor; [|done].
  by eapply prefix_lookup_Some.
Qed.

(** In any sequence of calls on one [CanonicalPeerMap], two
    calls return the same pointer exactly when they ask for the same peer id. *)
Theorem canonical_peer_interned ids ptrs m i j id1 id2 p1 p2 :
  GetCanonicalPeers ids NewCanonicalPeerMap = (ptrs, m) →
  ids !! i = Some id1 → ids !! j = Some id2 →
  ptrs !! i = Some p1 → ptrs !! j = Some p2 →
  (p1 = p2 ↔ id1 = id2).
Proof.
  intros H Hi Hj Hp1 Hp2.
  apply GetCanonicalPeers_spec in H as (Hm & _ & Hf); [|apply canonical_peer_map_wf_new].
  pose proof (Forall2_lookup_lr _ _ _ _ _ _ Hf Hi Hp1) as H1.
  pose proof (Forall2_lookup_lr _ _ _ _ _ _ Hf Hj Hp2) as H2. simpl in *. split.
  - intros ->. congruence.
  - intros ->. apply Hm in H1, H2. congruence.
Qed.

(** ** Concrete version maps *)
Definition vm_peer (s : string) : CanonicalPeer := {| peer_id := s |}.
Definition vm_id (n : Z) : TransactionId := MakeTransactionId n 1 1.
Definition vm_a : version_map := {[ vm_peer "a" := vm_id 3; vm_peer "b" := vm_id 5 ]}.
Definition vm_b : version_map := {[ vm_peer "b" := vm_id 4; vm_peer "c" := vm_id 1 ]}.

Lemma vm_a_wf : version_map_wf vm_a.
Proof. apply map_Forall_insert_2; [done|]. apply map_Forall_singleton. done. Qed.
Lemma vm_b_wf : version_map_wf vm_b.
Proof. apply map_Forall_insert_2; [done|]. apply map_Forall_singleton. done. Qed.

Lemma version_map_union_spec_witness :
  ∃ c, MaxUnion vm_a vm_b = Ok c ∧ version_map_wf c ∧
    ∀ p t, MaxHas p t c = MaxHas p t vm_a || MaxHas p t vm_b.
Proof. apply (version_map_union_spec GreaterThan vm_a vm_b vm_a_wf vm_b_wf). Defined.

Lemma max_version_map_lattice_witness :
  ∃ c, MaxUnion vm_a vm_b = Ok c ∧ VersionMapIsLessThanOrEqual vm_a c = true.
Proof.
  destruct (max_version_map_lattice vm_a vm_b vm_a_wf vm_b_wf) as (_ & _ & c & Hc & Hle).
  exists c. split; [done|]. specialize (Hle c).
  assert (VersionMapIsLessThanOrEqual c c = true) as E by (by apply less_or_equal_has).
  rewrite E in Hle. by destruct (VersionMapIsLessThanOrEqual vm_a c).
Defined.

(** The "intersection" has peer [b] at 5, which only one of the maps reaches. *)
Lemma max_version_map_intersection_exact_witness :
  ∃ c, GetVersionMapIntersection GreaterThan vm_a vm_b ∅ = Ok c ∧
    MaxHas (vm_peer "b") (vm_id 5) c = true ∧ MaxHas (vm_peer "b") (vm_id 5) vm_b = false.
Proof.
  destruct (max_version_map_intersection_exact vm_a vm_b vm_a_wf vm_b_wf) as (c & Hc & Hhas).
  exists c. split; [done|]. rewrite Hhas. split; vm_compute; reflexivity.
Defined.

Lemma canonical_peer_interned_witness : (0%nat = 0%nat ↔ "x" = "x").
Proof.
  apply (canonical_peer_interned ["x"; "y"; "x"] [0; 1; 0]%nat
    (GetCanonicalPeers ["x"; "y"; "x"] NewCanonicalPeerMap).2 0 2); vm_compute; reflexivity.
Defined.
