(* ===== verification/SequencePoint.v ===== *)
(** [engine/peer_exclusion_map.cc] and [engine/sequence_point_impl.cc]: which
    transactions are visible at a point of a peer's history. *)
From stdpp Require Import base tactics list strings gmap fin_maps sorting sets.
From Stdlib Require Import ZArith Lia.
From S2P Require Import Prelude StdMap IntervalSet Ids VersionMap.

(** * [PeerExclusionMap] *)
Module PeerExclusionMap.
Abbreviation t := (gmap CanonicalPeer (omap TransactionId TransactionId)).

Definition New : t := ∅.

Definition AddExcludedRange (origin_peer : CanonicalPeer)
    (start_transaction_id end_transaction_id : TransactionId) (map_ : t) : res t :=
  s ← AddInterval start_transaction_id end_transaction_id (default [] (map_ !! origin_peer));
  Ok (<[origin_peer := s]> map_).

Definition IsTransactionExcluded (origin_peer : CanonicalPeer)
    (transaction_id : TransactionId) (map_ : t) : res bool :=
  match map_ !! origin_peer with
  | None => Ok false
  | Some s => Contains transaction_id s
  end.

Definition CopyFrom (other map_ : t) : t := other.
Definition Swap (map_ other : t) : t * t := (other, map_).

Definition PeerExclusionMapsAreEqual (a b : t) : bool := bool_decide (a = b).

Definition wf (map_ : t) : Prop := map_Forall (fun _ s => separated s) map_.

(** The excluded transactions of a peer. *)
Definition excluded (map_ : t) (p : CanonicalPeer) (u : TransactionId) : bool :=
  covers u (default [] (map_ !! p)).

Lemma wf_default map_ p : wf map_ → separated (default [] (map_ !! p)).
Proof. intros Hm. destruct (map_ !! p) as [s|] eqn:E; [by apply (Hm p)|done]. Qed.

Lemma IsTransactionExcluded_spec map_ p u :
  wf map_ → IsTransactionExcluded p u map_ = Ok (excluded map_ p u).
Proof.
  intros Hm. unfold IsTransactionExcluded, excluded.
  destruct (map_ !! p) as [s|] eqn:E; [|done]. apply contains_covers. by apply (Hm p).
Qed.

(** [AddExcludedRange] never fails, keeps what was excluded, excludes nothing
    outside the range, and excludes the whole range unless its start continues
    an excluded interval and its end does not meet one. *)
Lemma AddExcludedRange_spec map_ p s e :
  wf map_ →
  ∃ map', AddExcludedRange p s e map_ = Ok map' ∧ wf map' ∧
    (∀ q u, q ≠ p → excluded map' q u = excluded map_ q u) ∧
    (∀ u, excluded map_ p u = true → excluded map' p u = true) ∧
    (∀ u, excluded map' p u = true → excluded map_ p u = true ∨ (s ⪯ u ∧ u ≺ e)) ∧
    (touches s (default [] (map_ !! p)) = false ∨ touches e (default [] (map_ !! p)) = true →
     ∀ u, excluded map' p u = excluded map_ p u || in_interval s e u).
Proof.
  intros Hm. unfold AddExcludedRange.
  pose proof (wf_default map_ p Hm) as Hs. set (m := default [] (map_ !! p)) in *.
  destruct (ltb s e) eqn:Hse.
  - destruct (AddInterval_covers s e m Hs Hse) as (m' & Em & Hsep & Hc).
    rewrite Em. simpl. eexists. split; [done|]. 
    assert (∀ u, excluded (<[p:=m']> map_) p u = covers u m') as Hex.
    { intros u. unfold excluded. by rewrite lookup_insert_eq. }
    assert (∀ u, excluded map_ p u = covers u m) as Hex0 by done.
    split_and!.
    + by apply map_Forall_insert_2.
    + intros q u Hq. unfold excluded. by rewrite lookup_insert_ne.
    + intros u. rewrite Hex, Hex0, Hc. by intros ->.
    + intros u. rewrite Hex, Hex0, Hc. apply add_interval_inside; done.
    + intros Hcase u. rewrite Hex, Hex0. revert u. by apply (add_interval_whole s e m m').
  - unfold AddInterval. rewrite Hse. simpl. eexists. split; [done|].
    assert (∀ q u, excluded (<[p:=m]> map_) q u = excluded map_ q u) as Hex.
    { intros q u. unfold excluded. destruct (decide (p = q)) as [<-|?].
      - by rewrite lookup_insert_eq.
      - by rewrite lookup_insert_ne. }
    split_and!; [by apply map_Forall_insert_2|by intros; apply Hex| | |].
    + intros u. by rewrite Hex.
    + intros u. rewrite Hex. by left.
    + intros _ u. rewrite Hex. replace (in_interval s e u) with false; [by rewrite orb_false_r|].
      symmetry. apply not_true_iff_false. rewrite in_interval_true. intros [??]. ord.
Qed.
End PeerExclusionMap.

(** * [SequencePointImpl] *)
Module SequencePointImpl.
Record t := {
  version_map_ : version_map;
  peer_exclusion_map_ : PeerExclusionMap.t;
  rejected_peers_ : gmap CanonicalPeer (oset TransactionId);
}.

#[export] Instance t_eq_dec : EqDecision t.
Proof. solve_decision. Defined.

Definition New : t :=
  {| version_map_ := ∅; peer_exclusion_map_ := PeerExclusionMap.New; rejected_peers_ := ∅ |}.

Definition HasPeerTransactionId (canonical_peer : CanonicalPeer)
    (transaction_id : TransactionId) (sp : t) : res bool :=
  if negb (MaxHas canonical_peer transaction_id (version_map_ sp)) then Ok false else
  ex ← PeerExclusionMap.IsTransactionExcluded canonical_peer transaction_id
         (peer_exclusion_map_ sp);
  if (ex : bool) then Ok false else
  match rejected_peers_ sp !! canonical_peer with
  | None => Ok true
  | Some transaction_ids =>
      CHECK (negb (bool_decide (transaction_ids = [])));;
      first ← deref (fst <$> transaction_ids !! 0);
      Ok (ltb transaction_id first)
  end.

Definition AddPeerTransactionId (canonical_peer : CanonicalPeer)
    (transaction_id : TransactionId) (sp : t) : res t :=
  vm ← MaxAdd canonical_peer transaction_id (version_map_ sp);
  Ok {| version_map_ := vm; peer_exclusion_map_ := peer_exclusion_map_ sp;
        rejected_peers_ := rejected_peers_ sp |}.

Definition AddInvalidatedRange (origin_peer : CanonicalPeer)
    (start_transaction_id end_transaction_id : TransactionId) (sp : t) : res t :=
  pem ← PeerExclusionMap.AddExcludedRange origin_peer start_transaction_id
          end_transaction_id (peer_exclusion_map_ sp);
  rej ← match rejected_peers_ sp !! origin_peer with
        | None => Ok (rejected_peers_ sp)
        | Some transaction_ids =>
            ids ← map_erase_range (lower_bound start_transaction_id transaction_ids)
                    (lower_bound end_transaction_id transaction_ids) transaction_ids;
            if bool_decide (ids = []) then Ok (delete origin_peer (rejected_peers_ sp))
            else Ok (<[origin_peer := ids]> (rejected_peers_ sp))
        end;
  Ok {| version_map_ := version_map_ sp; peer_exclusion_map_ := pem;
        rejected_peers_ := rej |}.

Definition AddRejectedPeer (origin_peer : CanonicalPeer)
    (start_transaction_id : TransactionId) (sp : t) : t :=
  {| version_map_ := version_map_ sp; peer_exclusion_map_ := peer_exclusion_map_ sp;
     rejected_peers_ :=
       <[origin_peer :=
           (map_emplace start_transaction_id tt
              (default [] (rejected_peers_ sp !! origin_peer))).1.1]>
         (rejected_peers_ sp) |}.

Definition CopyFrom (other sp : t) : t :=
  {| version_map_ := VersionMap.CopyFrom (version_map_ other) (version_map_ sp);
     peer_exclusion_map_ :=
       PeerExclusionMap.CopyFrom (peer_exclusion_map_ other) (peer_exclusion_map_ sp);
     rejected_peers_ := rejected_peers_ other |}.

Definition Clone (sp : t) : t :=
  {| version_map_ := version_map_ sp; peer_exclusion_map_ := peer_exclusion_map_ sp;
     rejected_peers_ := rejected_peers_ sp |}.

(** ** Invariant *)
Record wf (sp : t) : Prop := {
  wf_version : version_map_wf (version_map_ sp);
  wf_exclusion : PeerExclusionMap.wf (peer_exclusion_map_ sp);
  wf_rejected : map_Forall (fun _ ids => map_wf ids ∧ ids ≠ []) (rejected_peers_ sp);
}.

(** ** Abstract view: the transactions a sequence point makes visible *)
Definition rejected (sp : t) (p : CanonicalPeer) : list TransactionId :=
  (default [] (rejected_peers_ sp !! p)).*1.

Definition visible (sp : t) (p : CanonicalPeer) (u : TransactionId) : bool :=
  MaxHas p u (version_map_ sp) &&
  negb (PeerExclusionMap.excluded (peer_exclusion_map_ sp) p u) &&
  forallb (fun r => ltb u r) (rejected sp p).

Lemma wf_New : wf New.
Proof. split; simpl; apply map_Forall_empty. Qed.

(** Below the first of an increasing list is below all of it. *)
Lemma below_first (u r : TransactionId) (ids : oset TransactionId) :
  map_wf ((r, tt) :: ids) → ltb u r = forallb (fun x => ltb u x) ((r, tt) :: ids).*1.
Proof.
  intros [Hm Hf]%map_wf_cons. simpl. destruct (ltb u r) eqn:E; [|done]. simpl. symmetry.
  apply forallb_forall. intros x Hx%list_elem_of_In. apply list_elem_of_fmap in Hx as (q & -> & Hq).
  eapply Forall_forall in Hf; [|done]. simpl in Hf. ord.
Qed.

Lemma HasPeerTransactionId_visible sp p u :
  wf sp → HasPeerTransactionId p u sp = Ok (visible sp p u).
Proof.
  intros [Hv He Hr]. unfold HasPeerTransactionId, visible, rejected.
  destruct (MaxHas p u (version_map_ sp)); [simpl|done].
  rewrite PeerExclusionMap.IsTransactionExcluded_spec by done. simpl.
  destruct (PeerExclusionMap.excluded _ p u); [done|]. simpl.
  destruct (rejected_peers_ sp !! p) as [ids|] eqn:E; [|done].
  destruct (Hr p ids E) as [Hids Hne].
  rewrite bool_decide_false by done. destruct ids as [|[r []] ids]; [done|].
  cbn [CHECK negb mbind res_bind deref lookup list_lookup fmap option_fmap option_map].
  simpl. f_equal. by apply below_first.
Qed.

(** Erasing the ids of a range from an increasing list keeps the others. *)
Lemma erase_range_spec (s e : TransactionId) (ids : oset TransactionId) :
  map_wf ids → s ⪯ e →
  ∃ ids', map_erase_range (lower_bound s ids) (lower_bound e ids) ids = Ok ids' ∧
    map_wf ids' ∧ ∀ r, r ∈ ids'.*1 ↔ r ∈ ids.*1 ∧ ¬ (s ⪯ r ∧ r ≺ e).
Proof.
  intros Hids Hse.
  destruct (map_split_lt s ids Hids) as (A & M & -> & H1 & H2).
  pose proof Hids as (HA & HM & HAM)%map_wf_app.
  destruct (map_split_lt e M HM) as (B & C & -> & H3 & H4).
  rewrite !Forall_forall in H1, H2, H3, H4.
  exists (A ++ C). split_and!.
  - apply map_erase_range_app.
    + apply lower_bound_app; apply Forall_forall; [done|]. done.
    + rewrite app_assoc, <- length_app. apply lower_bound_app; apply Forall_forall; [|done].
      intros p [Hp|Hp]%elem_of_app; [|by apply H3]. specialize (H1 p Hp). ord.
  - apply map_wf_app. apply map_wf_app in Hids as (? & (? & ? & ?)%map_wf_app & Hlt).
    split_and!; [done..|]. intros p q Hp Hq. apply Hlt; [done|set_solver].
  - intros r. rewrite !list_elem_of_fmap. split.
    + intros ([r' u] & -> & [Hin|Hin]%elem_of_app).
      * split; [exists (r', u); set_solver|]. specialize (H1 _ Hin). simpl in *. intros [??]. ord.
      * split; [exists (r', u); set_solver|]. specialize (H4 _ Hin). simpl in *. intros [??]. ord.
    + intros [([r' u] & -> & Hin) Hout]. exists (r', u). split; [done|].
      apply elem_of_app in Hin as [Hin|[Hin|Hin]%elem_of_app]; [set_solver| |set_solver].
      destruct Hout. specialize (H3 _ Hin). specialize (H2 (r', u) ltac:(set_solver)). done.
Qed.

Lemma forallb_keys_iff (l l' : list TransactionId) (u : TransactionId) :
  (∀ r, r ∈ l ↔ r ∈ l') → forallb (fun r => ltb u r) l = forallb (fun r => ltb u r) l'.
Proof.
  intros H. apply eq_true_iff_eq. rewrite !forallb_forall.
  setoid_rewrite <- list_elem_of_In. naive_solver.
Qed.

Lemma wf_rejected_default sp p :
  wf sp → map_wf (default [] (rejected_peers_ sp !! p)).
Proof.
  intros Hw. destruct (rejected_peers_ sp !! p) as [ids|] eqn:E; [|apply map_wf_nil].
  by apply (wf_rejected _ Hw p ids E).
Qed.

(** [AddPeerTransactionId] makes the transactions of the peer
    up to the given one part of the version, and nothing else changes. *)
Theorem add_peer_transaction_visible sp p v :
  wf sp → IsValidTransactionId v = true →
  ∃ sp', AddPeerTransactionId p v sp = Ok sp' ∧ wf sp' ∧
    ∀ q u, HasPeerTransactionId q u sp' =
      Ok ((MaxHas q u (version_map_ sp) || (bool_decide (q = p) && negb (ltb v u))) &&
          negb (PeerExclusionMap.excluded (peer_exclusion_map_ sp) q u) &&
          forallb (fun r => ltb u r) (rejected sp q)).
Proof.
  intros [Hv He Hr] Hvalid. unfold AddPeerTransactionId.
  destruct (add_ok GreaterThan p v (version_map_ sp) Hvalid Hv) as (vm & E & Hvm).
  rewrite E. simpl. eexists. split; [done|].
  set (sp' := {| version_map_ := vm; peer_exclusion_map_ := _; rejected_peers_ := _ |}).
  assert (wf sp') as Hw by by split.
  split; [done|]. intros q u. rewrite HasPeerTransactionId_visible by done.
  unfold visible, rejected. simpl. by rewrite (has_add _ _ _ _ _ _ _ E).
Qed.

Lemma AddRejectedPeer_spec sp p r :
  wf sp →
  wf (AddRejectedPeer p r sp) ∧
  ∀ q u, visible (AddRejectedPeer p r sp) q u =
    visible sp q u && (negb (bool_decide (q = p)) || ltb u r).
Proof.
  intros Hw. pose proof (wf_rejected_default sp p Hw) as Hd. destruct Hw as [Hv He Hr].
  set (ids := default [] (rejected_peers_ sp !! p)) in *.
  pose proof (map_emplace_wf r tt ids Hd) as Hd'.
  assert (∀ j, j ∈ (map_emplace r tt ids).1.1.*1 ↔ j = r ∨ j ∈ ids.*1) as Hk
    by (intros; by apply map_emplace_keys_iff).
  assert (wf (AddRejectedPeer p r sp)) as Hw'.
  { split; simpl; [done..|]. apply map_Forall_insert_2; [|done]. split; [done|].
    intros En. fold ids in En. specialize (Hk r). rewrite En in Hk. set_solver. }
  split; [done|]. intros q u.
  unfold visible, rejected. simpl. rewrite <- !andb_assoc. do 2 f_equal.
  destruct (decide (q = p)) as [->|Hne].
  - rewrite lookup_insert_eq, bool_decide_true by done. simpl. fold ids.
    rewrite andb_comm. change (ltb u r && forallb (fun r => ltb u r) ids.*1)
      with (forallb (fun r => ltb u r) (r :: ids.*1)).
    apply forallb_keys_iff. intros j. rewrite Hk. by rewrite elem_of_cons.
  - rewrite lookup_insert_ne, bool_decide_false by done. simpl. by rewrite andb_true_r.
Qed.

(** [AddRejectedPeer] hides the rejected transaction and every
    later one of that peer, and nothing else. *)
Theorem add_rejected_peer_visible sp p r :
  wf sp →
  wf (AddRejectedPeer p r sp) ∧
  ∀ q u, HasPeerTransactionId q u (AddRejectedPeer p r sp) =
    Ok (visible sp q u && (negb (bool_decide (q = p)) || ltb u r)).
Proof.
  intros Hw. destruct (AddRejectedPeer_spec sp p r Hw) as [Hw' Hv]. split; [done|].
  intros q u. by rewrite HasPeerTransactionId_visible, Hv.
Qed.

(** The rejections [AddInvalidatedRange] leaves. *)
Lemma invalidate_rejected sp p s e :
  wf sp → s ⪯ e →
  ∃ rej, match rejected_peers_ sp !! p with
         | None => Ok (rejected_peers_ sp)
         | Some transaction_ids =>
             ids ← map_erase_range (lower_bound s transaction_ids)
                     (lower_bound e transaction_ids) transaction_ids;
             if bool_decide (ids = []) then Ok (delete p (rejected_peers_ sp))
             else Ok (<[p := ids]> (rejected_peers_ sp))
         end = Ok rej ∧
    map_Forall (fun _ ids => map_wf ids ∧ ids ≠ []) rej ∧
    (∀ q, q ≠ p → rej !! q = rejected_peers_ sp !! q) ∧
    (∀ r, r ∈ (default [] (rej !! p)).*1 ↔ r ∈ rejected sp p ∧ in_interval s e r = false).
Proof.
  intros [Hv He Hr] Hse. unfold rejected.
  destruct (rejected_peers_ sp !! p) as [ids|] eqn:E.
  2:{ eexists. split; [done|]. rewrite E. split; [done|]. split; [done|]. set_solver. }
  destruct (Hr p ids E) as [Hids _].
  destruct (erase_range_spec s e ids Hids Hse) as (ids' & -> & Hids' & Hk). simpl.
  assert (∀ r, r ∈ ids'.*1 ↔ r ∈ ids.*1 ∧ in_interval s e r = false) as Hk'.
  { intros r. by rewrite Hk, <- (not_true_iff_false (in_interval s e r)), in_interval_true. }
  destruct (decide (ids' = [])) as [->|Hne].
  - rewrite bool_decide_true by done. eexists. split; [done|]. split_and!.
    + by apply map_Forall_delete.
    + intros q Hq. by rewrite lookup_delete_ne.
    + rewrite lookup_delete_eq. done.
  - rewrite bool_decide_false by done. eexists. split; [done|]. split_and!.
    + by apply map_Forall_insert_2.
    + intros q Hq. by rewrite lookup_insert_ne.
    + rewrite lookup_insert_eq. done.
Qed.

(** Whatever the interval, other peers are not affected. *)
Lemma AddInvalidatedRange_frame sp p s e :
  wf sp → s ⪯ e →
  ∃ sp', AddInvalidatedRange p s e sp = Ok sp' ∧ wf sp' ∧ version_map_ sp' = version_map_ sp ∧
    ∀ q u, q ≠ p → visible sp' q u = visible sp q u.
Proof.
  intros Hw Hse.
  destruct (invalidate_rejected sp p s e Hw Hse) as (rej & Erej & Hrej & Hother & _).
  destruct Hw as [Hv He Hr].
  destruct (PeerExclusionMap.AddExcludedRange_spec (peer_exclusion_map_ sp) p s e He)
    as (pem & Epem & Hpem & Hq & _).
  unfold AddInvalidatedRange. rewrite Epem. cbn [mbind res_bind]. rewrite Erej. simpl.
  eexists. split; [done|]. split; [by split|]. split; [done|]. intros q u Hne.
  unfold visible, rejected. simpl. by rewrite Hq, Hother.
Qed.

(** An answer keeps the invariant, even for an interval whose ends are
    swapped. *)
Lemma AddInvalidatedRange_wf sp p s e sp' :
  wf sp → AddInvalidatedRange p s e sp = Ok sp' →
  wf sp' ∧ version_map_ sp' = version_map_ sp.
Proof.
  intros Hw Ha. destruct Hw as [Hv He Hr].
  destruct (PeerExclusionMap.AddExcludedRange_spec (peer_exclusion_map_ sp) p s e He)
    as (pem & Epem & Hpem & _).
  unfold AddInvalidatedRange in Ha. rewrite Epem in Ha.
  apply bind_Ok in Ha as (pem' & [= <-] & Ha).
  apply bind_Ok in Ha as (rej & Hrej & [= <-]). split; [|done]. split; simpl; [done..|].
  destruct (rejected_peers_ sp !! p) as [ids|] eqn:E; [|by injection Hrej as <-].
  apply bind_Ok in Hrej as (ids' & Herase & Hrej).
  assert (map_wf ids') as Hids'.
  { eapply map_erase_range_wf; [|done]. by apply (Hr p). }
  case_bool_decide; injection Hrej as <-; [by apply map_Forall_delete|by apply map_Forall_insert_2].
Qed.

(** [AddInvalidatedRange p start end] never fails on a well-formed
    sequence point, hides every transaction of [p] in [[start, end)], lifts
    the rejections in that range, and changes nothing else: provided [start]
    continues no excluded interval of [p] or [end] meets one. *)
Theorem add_invalidated_range_visible sp p s e :
  wf sp → s ⪯ e →
  touches s (default [] (peer_exclusion_map_ sp !! p)) = false ∨
  touches e (default [] (peer_exclusion_map_ sp !! p)) = true →
  ∃ sp', AddInvalidatedRange p s e sp = Ok sp' ∧ wf sp' ∧
    ∀ q u, HasPeerTransactionId q u sp' =
      Ok (if bool_decide (q = p)
          then MaxHas p u (version_map_ sp) &&
               negb (PeerExclusionMap.excluded (peer_exclusion_map_ sp) p u) &&
               negb (in_interval s e u) &&
               forallb (fun r => in_interval s e r || ltb u r) (rejected sp p)
          else visible sp q u).
Proof.
  intros Hw Hse Hcase.
  destruct (invalidate_rejected sp p s e Hw Hse) as (rej & Erej & Hrej & Hother & Hk).
  destruct Hw as [Hv He Hr].
  destruct (PeerExclusionMap.AddExcludedRange_spec (peer_exclusion_map_ sp) p s e He)
    as (pem & Epem & Hpem & Hq & _ & _ & Hwhole).
  unfold AddInvalidatedRange. rewrite Epem. cbn [mbind res_bind]. rewrite Erej. simpl.
  eexists. split; [done|].
  set (sp' := {| version_map_ := _; peer_exclusion_map_ := _; rejected_peers_ := _ |}).
  assert (wf sp') as Hw' by by split.
  split; [done|]. intros q u. rewrite HasPeerTransactionId_visible by done. f_equal.
  unfold visible, rejected at 1. simpl. case_bool_decide; [subst q|].
  - rewrite (Hwhole Hcase u), negb_orb, !andb_assoc. f_equal.
    apply eq_true_iff_eq. rewrite !forallb_forall. setoid_rewrite <- list_elem_of_In.
    setoid_rewrite Hk. setoid_rewrite orb_true_iff. split; intros H r Hr'.
    + destruct (in_interval s e r) eqn:Ein; [by left|]. right. by apply H.
    + destruct Hr' as [Hr' Hin]. destruct (H r Hr') as [?|?]; [congruence|done].
  - rewrite Hq by done. by rewrite Hother.
Qed.
End SequencePointImpl.

(** ** A concrete sequence point: one peer, one rejected transaction *)
Definition sp_peer : CanonicalPeer := {| peer_id := "p" |}.
Definition sp_id (n : Z) : TransactionId := MakeTransactionId n 0 0.
Definition sp_five : SequencePointImpl.t :=
  {| SequencePointImpl.version_map_ := {[ sp_peer := sp_id 5 ]};
     SequencePointImpl.peer_exclusion_map_ := ∅;
     SequencePointImpl.rejected_peers_ := {[ sp_peer := [(sp_id 4, tt)] ]} |}.

Lemma sp_five_wf : SequencePointImpl.wf sp_five.
Proof.
  split.
  - apply map_Forall_singleton. done.
  - apply map_Forall_empty.
  - apply map_Forall_singleton. split; [|done]. apply map_wf_cons. split; [apply map_wf_nil|constructor].
Qed.

Lemma add_peer_transaction_visible_witness :
  ∃ sp', SequencePointImpl.AddPeerTransactionId sp_peer (sp_id 9) sp_five = Ok sp' ∧
    SequencePointImpl.HasPeerTransactionId sp_peer (sp_id 3) sp' = Ok true ∧
    SequencePointImpl.HasPeerTransactionId sp_peer (sp_id 9) sp' = Ok false.
Proof.
  destruct (SequencePointImpl.add_peer_transaction_visible sp_five sp_peer (sp_id 9) sp_five_wf)
    as (sp' & H1 & _ & H2); [reflexivity|].
  exists sp'. split; [done|]. rewrite !H2. split; vm_compute; reflexivity.
Defined.

Lemma add_rejected_peer_visible_witness :
  SequencePointImpl.HasPeerTransactionId sp_peer (sp_id 3)
    (SequencePointImpl.AddRejectedPeer sp_peer (sp_id 2) sp_five) = Ok false.
Proof.
  destruct (SequencePointImpl.add_rejected_peer_visible sp_five sp_peer (sp_id 2) sp_five_wf) as [_ ->].
  vm_compute. reflexivity.
Defined.

Lemma add_invalidated_range_visible_witness :
  ∃ sp', SequencePointImpl.AddInvalidatedRange sp_peer (sp_id 4) (sp_id 5) sp_five = Ok sp' ∧
    SequencePointImpl.HasPeerTransactionId sp_peer (sp_id 4) sp' = Ok false ∧
    SequencePointImpl.HasPeerTransactionId sp_peer (sp_id 5) sp' = Ok true.
Proof.
  destruct (SequencePointImpl.add_invalidated_range_visible sp_five sp_peer (sp_id 4) (sp_id 5)
    sp_five_wf) as (sp' & H1 & _ & H2); [reflexivity|left; reflexivity|].
  exists sp'. split; [done|]. rewrite !H2. split; vm_compute; reflexivity.
Defined.

(** A range whose ends are swapped, around a rejected transaction: the ids that
    are erased are no range of the set. *)
Example swapped_range_undefined :
  SequencePointImpl.AddInvalidatedRange sp_peer (sp_id 5) (sp_id 3) sp_five = Undef.
Proof. vm_compute. reflexivity. Qed.
