(* ===== verification/Values.v ===== *)
(** Values exchanged with the interpreter and their wire form:
    [include/c++/value.h], [value/value.cc], [engine/value_proto_util.cc],
    [engine/convert_value.cc] and the generated class of
    [engine/proto/value_proto.proto].

    A [double] or [float] is its IEEE 754 bit pattern; [==] on it is the
    IEEE comparison ([NaN] differs from itself, the two zeros are equal).  A
    pointer to an [ObjectReferenceImpl] is its index in the transaction store's
    [object_references_] (references are never deleted). *)
From stdpp Require Import base tactics list strings.
From Stdlib Require Import ZArith Lia.
From S2P Require Import Prelude Text Ids.
#[local] Open Scope Z_scope.

(** ** Floating-point numbers, as bit patterns *)
Module Fp.
(** [ew] exponent bits, [mw] fraction bits. *)
Definition fraction (mw : Z) (bits : Z) : Z := Z.land bits (2 ^ mw - 1).
Definition exponent (ew mw : Z) (bits : Z) : Z :=
  Z.land (Z.shiftr bits mw) (2 ^ ew - 1).
Definition negative (ew mw : Z) (bits : Z) : bool := Z.testbit bits (ew + mw).
Definition is_nan (ew mw bits : Z) : bool :=
  (exponent ew mw bits =? 2 ^ ew - 1) && negb (fraction mw bits =? 0).
Definition is_zero (ew mw bits : Z) : bool :=
  (exponent ew mw bits =? 0) && (fraction mw bits =? 0).

(** IEEE [==]. *)
Definition eqb (ew mw a b : Z) : bool :=
  negb (is_nan ew mw a) && negb (is_nan ew mw b) &&
  ((a =? b) || (is_zero ew mw a && is_zero ew mw b)).

Definition double_eqb : Z → Z → bool := eqb 11 52.
Definition float_eqb : Z → Z → bool := eqb 8 23.
End Fp.

(** ** [Value] *)
Abbreviation ObjectReference := nat (only parsing).

(** The tag [type_] and the union member it selects. *)
Inductive value_data :=
| UNINITIALIZED
| EMPTY
| DOUBLE (double_value_ : Z)
| FLOAT (float_value_ : Z)
| INT64 (int64_value_ : Z)
| UINT64 (uint64_value_ : Z)
| BOOL (bool_value_ : bool)
| STRING (string_or_bytes_value_ : string)
| BYTES (string_or_bytes_value_ : string)
| OBJECT_REFERENCE (object_reference_ : ObjectReference).

Record Value := { local_type : Z; data : value_data }.

#[export] Instance value_data_eq_dec : EqDecision value_data.
Proof. solve_decision. Defined.
#[export] Instance Value_eq_dec : EqDecision Value.
Proof. solve_decision. Defined.

Definition NewValue : Value := {| local_type := -1; data := UNINITIALIZED |}.

(** The getters: the wrong one ends the process. *)
Definition double_value (v : Value) : res Z :=
  match data v with DOUBLE x => Ok x | _ => Fatal end.
Definition float_value (v : Value) : res Z :=
  match data v with FLOAT x => Ok x | _ => Fatal end.
Definition int64_value (v : Value) : res Z :=
  match data v with INT64 x => Ok x | _ => Fatal end.
Definition uint64_value (v : Value) : res Z :=
  match data v with UINT64 x => Ok x | _ => Fatal end.
Definition bool_value (v : Value) : res bool :=
  match data v with BOOL x => Ok x | _ => Fatal end.
Definition string_value (v : Value) : res string :=
  match data v with STRING x => Ok x | _ => Fatal end.
Definition bytes_value (v : Value) : res string :=
  match data v with BYTES x => Ok x | _ => Fatal end.
Definition object_reference (v : Value) : res ObjectReference :=
  match data v with OBJECT_REFERENCE x => Ok x | _ => Fatal end.

(** The setters ([ChangeType] followed by the assignment). *)
Definition set_empty (lt : Z) : Value := {| local_type := lt; data := EMPTY |}.
Definition set_double_value (lt x : Z) : Value := {| local_type := lt; data := DOUBLE x |}.
Definition set_float_value (lt x : Z) : Value := {| local_type := lt; data := FLOAT x |}.
Definition set_int64_value (lt x : Z) : Value := {| local_type := lt; data := INT64 x |}.
Definition set_uint64_value (lt x : Z) : Value := {| local_type := lt; data := UINT64 x |}.
Definition set_bool_value (lt : Z) (x : bool) : Value :=
  {| local_type := lt; data := BOOL x |}.
Definition set_string_value (lt : Z) (x : string) : Value :=
  {| local_type := lt; data := STRING x |}.
Definition set_bytes_value (lt : Z) (x : string) : Value :=
  {| local_type := lt; data := BYTES x |}.
Definition set_object_reference (lt : Z) (x : ObjectReference) : Value :=
  {| local_type := lt; data := OBJECT_REFERENCE x |}.

(** ** The "exactly one field is set" classification

    [GetValueProtoType], [GetEventProtoType] and [GetPeerMessageType] are the
    same sequence of [CHECK_FIELD]s followed by a [CHECK_NE]. *)
Section check_field.
Context {T : Type} `{EqDecision T} (UNKNOWN : T).

Definition CHECK_FIELD (type : T) (field : bool * T) : res T :=
  let '(has_method, enum_const) := field in
  if has_method then CHECK (bool_decide (type = UNKNOWN));; Ok enum_const
  else Ok type.

Definition GetFieldType (fields : list (bool * T)) : res T :=
  type ← foldM CHECK_FIELD UNKNOWN fields;
  CHECK (bool_decide (type ≠ UNKNOWN));; Ok type.

(** The constants of the fields that are set, in order. *)
Fixpoint set_fields (fields : list (bool * T)) : list T :=
  match fields with
  | [] => []
  | (has_method, enum_const) :: fs =>
      if has_method then enum_const :: set_fields fs else set_fields fs
  end.

Lemma set_fields_elem fields t :
  t ∈ set_fields fields → ∃ f, f ∈ fields ∧ f.2 = t.
Proof.
  induction fields as [|[[] c] fs IH]; simpl; intros Hin.
  - by apply not_elem_of_nil in Hin.
  - apply elem_of_cons in Hin as [->|Hin].
    + exists (true, c). split; [left|done].
    + destruct (IH Hin) as (f & ? & ?). exists f. split; [by right|done].
  - destruct (IH Hin) as (f & ? & ?). exists f. split; [by right|done].
Qed.

Lemma check_fields_spec fields type t :
  (∀ f, f ∈ fields → f.2 ≠ UNKNOWN) →
  foldM CHECK_FIELD type fields = Ok t ↔
  (set_fields fields = [] ∧ t = type) ∨
  (type = UNKNOWN ∧ set_fields fields = [t]).
Proof.
  revert type.
  induction fields as [|[[] c] fs IH]; intros type Hc; simpl.
  - naive_solver.
  - assert (Hcc : c ≠ UNKNOWN) by (apply (Hc (true, c)); left).
    assert (Hfs : ∀ f, f ∈ fs → f.2 ≠ UNKNOWN) by (intros; apply Hc; by right).
    case_bool_decide as Ht; simpl.
    + rewrite IH by done. split.
      * intros [[-> ->]|[-> _]]; [by right|done].
      * intros [[[=] _]|[_ [= -> Hs]]]. by left.
    + split; [done|]. intros [[[=] _]|[? _]]. done.
  - assert (Hfs : ∀ f, f ∈ fs → f.2 ≠ UNKNOWN) by (intros; apply Hc; by right).
    by apply IH.
Qed.

Lemma get_field_type_spec fields t :
  (∀ f, f ∈ fields → f.2 ≠ UNKNOWN) →
  GetFieldType fields = Ok t ↔ set_fields fields = [t].
Proof.
  intros Hc. unfold GetFieldType. rewrite bind_Ok. split.
  - intros (type & H & H2). apply bind_Ok in H2 as ([] & Hn & H2).
    apply CHECK_Ok in Hn. case_bool_decide as Hu; [|done]. injection H2 as ->.
    apply check_fields_spec in H; naive_solver.
  - intros H. exists t. split; [apply check_fields_spec; auto|].
    rewrite bool_decide_true; [done|].
    assert (Hin : t ∈ set_fields fields) by (rewrite H; left).
    apply set_fields_elem in Hin as (f & Hf & <-). by apply Hc.
Qed.

(** It never has undefined behaviour: it returns or ends the process. *)
Lemma get_field_type_defined fields : GetFieldType fields ≠ Undef.
Proof.
  unfold GetFieldType.
  assert (H : ∀ type, foldM CHECK_FIELD type fields ≠ Undef).
  { induction fields as [|[[] c] fs IH]; intros type; simpl; [done| |apply IH].
    case_bool_decide; simpl; [apply IH|done]. }
  specialize (H UNKNOWN). destruct (foldM _ _ _); simpl; [|done|done].
  by case_bool_decide.
Qed.
End check_field.

(** ** [ValueProto] *)
Module ValueProto.
Inductive Type_ :=
| UNKNOWN | EMPTY | DOUBLE | FLOAT | INT64 | UINT64 | BOOL | STRING | BYTES | OBJECT_ID.

#[global] Instance Type_eq_dec : EqDecision Type_.
Proof. solve_decision. Defined.

Record t := {
  local_type : Z;
  empty_value : option unit;
  double_value : option Z;
  float_value : option Z;
  int64_value : option Z;
  uint64_value : option Z;
  bool_value : option bool;
  string_value : option string;
  bytes_value : option string;
  object_id : option Uuid;
}.

#[global] Instance t_eq_dec : EqDecision t.
Proof. solve_decision. Defined.

(** [Clear] followed by [set_local_type]. *)
Definition Init (lt : Z) : t :=
  {| local_type := lt; empty_value := None; double_value := None;
     float_value := None; int64_value := None; uint64_value := None;
     bool_value := None; string_value := None; bytes_value := None;
     object_id := None |}.

(** The generated setters. *)
Definition set_empty_value (x : unit) (v : t) : t :=
  {| local_type := local_type v; empty_value := Some x; double_value := double_value
     v; float_value := float_value v; int64_value := int64_value v; uint64_value :=
     uint64_value v; bool_value := bool_value v; string_value := string_value v;
     bytes_value := bytes_value v; object_id := object_id v |}.
Definition set_double_value (x : Z) (v : t) : t :=
  {| local_type := local_type v; empty_value := empty_value v; double_value := Some
     x; float_value := float_value v; int64_value := int64_value v; uint64_value :=
     uint64_value v; bool_value := bool_value v; string_value := string_value v;
     bytes_value := bytes_value v; object_id := object_id v |}.
Definition set_float_value (x : Z) (v : t) : t :=
  {| local_type := local_type v; empty_value := empty_value v; double_value :=
     double_value v; float_value := Some x; int64_value := int64_value v;
     uint64_value := uint64_value v; bool_value := bool_value v; string_value :=
     string_value v; bytes_value := bytes_value v; object_id := object_id v |}.
Definition set_int64_value (x : Z) (v : t) : t :=
  {| local_type := local_type v; empty_value := empty_value v; double_value :=
     double_value v; float_value := float_value v; int64_value := Some x;
     uint64_value := uint64_value v; bool_value := bool_value v; string_value :=
     string_value v; bytes_value := bytes_value v; object_id := object_id v |}.
Definition set_uint64_value (x : Z) (v : t) : t :=
  {| local_type := local_type v; empty_value := empty_value v; double_value :=
     double_value v; float_value := float_value v; int64_value := int64_value v;
     uint64_value := Some x; bool_value := bool_value v; string_value :=
     string_value v; bytes_value := bytes_value v; object_id := object_id v |}.
Definition set_bool_value (x : bool) (v : t) : t :=
  {| local_type := local_type v; empty_value := empty_value v; double_value :=
     double_value v; float_value := float_value v; int64_value := int64_value v;
     uint64_value := uint64_value v; bool_value := Some x; string_value :=
     string_value v; bytes_value := bytes_value v; object_id := object_id v |}.
Definition set_string_value (x : string) (v : t) : t :=
  {| local_type := local_type v; empty_value := empty_value v; double_value :=
     double_value v; float_value := float_value v; int64_value := int64_value v;
     uint64_value := uint64_value v; bool_value := bool_value v; string_value :=
     Some x; bytes_value := bytes_value v; object_id := object_id v |}.
Definition set_bytes_value (x : string) (v : t) : t :=
  {| local_type := local_type v; empty_value := empty_value v; double_value :=
     double_value v; float_value := float_value v; int64_value := int64_value v;
     uint64_value := uint64_value v; bool_value := bool_value v; string_value :=
     string_value v; bytes_value := Some x; object_id := object_id v |}.
Definition set_object_id (x : Uuid) (v : t) : t :=
  {| local_type := local_type v; empty_value := empty_value v; double_value :=
     double_value v; float_value := float_value v; int64_value := int64_value v;
     uint64_value := uint64_value v; bool_value := bool_value v; string_value :=
     string_value v; bytes_value := bytes_value v; object_id := Some x |}.

Definition fields (v : t) : list (bool * Type_) :=
  [(bool_decide (is_Some (empty_value v)), EMPTY);
   (bool_decide (is_Some (double_value v)), DOUBLE);
   (bool_decide (is_Some (float_value v)), FLOAT);
   (bool_decide (is_Some (int64_value v)), INT64);
   (bool_decide (is_Some (uint64_value v)), UINT64);
   (bool_decide (is_Some (bool_value v)), BOOL);
   (bool_decide (is_Some (string_value v)), STRING);
   (bool_decide (is_Some (bytes_value v)), BYTES);
   (bool_decide (is_Some (object_id v)), OBJECT_ID)].

Definition GetValueProtoType (v : t) : res Type_ := GetFieldType UNKNOWN (fields v).
End ValueProto.

(** A protocol buffer getter of an unset field returns the default value. *)
Definition zero_uuid : Uuid := {| high_word := 0; low_word := 0 |}.

Definition ValueProtosEqual (a b : ValueProto.t) : res bool :=
  if negb (ValueProto.local_type a =? ValueProto.local_type b) then Ok false
  else
    a_type ← ValueProto.GetValueProtoType a;
    b_type ← ValueProto.GetValueProtoType b;
    if bool_decide (a_type ≠ b_type) then Ok false
    else match a_type with
    | ValueProto.EMPTY => Ok true
    | ValueProto.DOUBLE =>
        Ok (Fp.double_eqb (default 0 (ValueProto.double_value a))
                          (default 0 (ValueProto.double_value b)))
    | ValueProto.FLOAT =>
        Ok (Fp.float_eqb (default 0 (ValueProto.float_value a))
                         (default 0 (ValueProto.float_value b)))
    | ValueProto.INT64 =>
        Ok (default 0 (ValueProto.int64_value a) =?
            default 0 (ValueProto.int64_value b))
    | ValueProto.UINT64 =>
        Ok (default 0 (ValueProto.uint64_value a) =?
            default 0 (ValueProto.uint64_value b))
    | ValueProto.BOOL =>
        Ok (Bool.eqb (default false (ValueProto.bool_value a))
                     (default false (ValueProto.bool_value b)))
    | ValueProto.STRING =>
        Ok (bool_decide (default "" (ValueProto.string_value a) =
                         default "" (ValueProto.string_value b)))
    | ValueProto.BYTES =>
        Ok (bool_decide (default "" (ValueProto.bytes_value a) =
                         default "" (ValueProto.bytes_value b)))
    | ValueProto.OBJECT_ID =>
        Ok (CompareUuids (default zero_uuid (ValueProto.object_id a))
                         (default zero_uuid (ValueProto.object_id b)) =? 0)
    | ValueProto.UNKNOWN => Fatal
    end.

(** ** From [Value] to [ValueProto]

    [shared_object] gives the object id of the shared object a reference is
    bound to; [None] is the null pointer. *)
Section convert.
Context (shared_object : ObjectReference → option Uuid).

Definition ConvertValueToValueProto (in_ : Value) : res ValueProto.t :=
  let out := ValueProto.Init (local_type in_) in
  match data in_ with
  | EMPTY => Ok (ValueProto.set_empty_value tt out)
  | DOUBLE x => Ok (ValueProto.set_double_value x out)
  | FLOAT x => Ok (ValueProto.set_float_value x out)
  | INT64 x => Ok (ValueProto.set_int64_value x out)
  | UINT64 x => Ok (ValueProto.set_uint64_value x out)
  | BOOL x => Ok (ValueProto.set_bool_value x out)
  | STRING x => Ok (ValueProto.set_string_value x out)
  | BYTES x => Ok (ValueProto.set_bytes_value x out)
  | OBJECT_REFERENCE r =>
      object_id ← check_some (shared_object r);
      Ok (ValueProto.set_object_id object_id out)
  | UNINITIALIZED => Fatal
  end.

(** ** What the wire form preserves

    The specification of equality of two values: the same local type, and the
    same datum, floating-point data compared as IEEE does and references by
    the shared object they are bound to. *)
Definition data_same (x y : value_data) : bool :=
  match x, y with
  | EMPTY, EMPTY => true
  | DOUBLE a, DOUBLE b => Fp.double_eqb a b
  | FLOAT a, FLOAT b => Fp.float_eqb a b
  | INT64 a, INT64 b => a =? b
  | UINT64 a, UINT64 b => a =? b
  | BOOL a, BOOL b => Bool.eqb a b
  | STRING a, STRING b => bool_decide (a = b)
  | BYTES a, BYTES b => bool_decide (a = b)
  | OBJECT_REFERENCE a, OBJECT_REFERENCE b =>
      bool_decide (shared_object a = shared_object b)
  | _, _ => false
  end.

Definition value_same (v w : Value) : bool :=
  (local_type v =? local_type w) && data_same (data v) (data w).

(** A value that can be sent: set, and any reference bound. *)
Definition sendable (v : Value) : bool :=
  match data v with
  | UNINITIALIZED => false
  | OBJECT_REFERENCE r => bool_decide (is_Some (shared_object r))
  | _ => true
  end.

Definition proto_type (d : value_data) : ValueProto.Type_ :=
  match d with
  | UNINITIALIZED => ValueProto.UNKNOWN
  | EMPTY => ValueProto.EMPTY
  | DOUBLE _ => ValueProto.DOUBLE
  | FLOAT _ => ValueProto.FLOAT
  | INT64 _ => ValueProto.INT64
  | UINT64 _ => ValueProto.UINT64
  | BOOL _ => ValueProto.BOOL
  | STRING _ => ValueProto.STRING
  | BYTES _ => ValueProto.BYTES
  | OBJECT_REFERENCE _ => ValueProto.OBJECT_ID
  end.

(** Conversion succeeds exactly on sendable values, and the message has the
    one field of the value's type set. *)
Lemma convert_value_ok v :
  sendable v = true →
  ∃ p, ConvertValueToValueProto v = Ok p ∧
       ValueProto.local_type p = local_type v ∧
       ValueProto.GetValueProtoType p = Ok (proto_type (data v)).
Proof.
  unfold sendable, ConvertValueToValueProto.
  destruct (data v) as [| | | | | | | | |r]; intros Hs; try done;
    try (eexists; split_and!; reflexivity).
  case_bool_decide as H; [|done]. destruct H as [u Hu]. rewrite Hu.
  eexists; split_and!; reflexivity.
Qed.

Lemma convert_value_fails v :
  sendable v = false → ConvertValueToValueProto v = Fatal.
Proof.
  unfold sendable, ConvertValueToValueProto.
  destruct (data v) as [| | | | | | | | |r]; intros Hs; try done.
  case_bool_decide as H; [done|].
  destruct (shared_object r) eqn:E; [|done]. destruct H. by eexists.
Qed.

(** The wire form preserves equality: two sendable values
    convert to messages that [ValueProtosEqual] accepts exactly when they have
    the same local type, the same type and the same datum (a reference stands
    for the shared object it is bound to; [NaN] equals nothing). *)
Theorem value_protos_equal_iff v w :
  sendable v = true → sendable w = true →
  (p ← ConvertValueToValueProto v; q ← ConvertValueToValueProto w;
   ValueProtosEqual p q) = Ok (value_same v w).
Proof.
  destruct v as [lv v], w as [lw w]. unfold value_same, sendable. simpl.
  intros Hv Hw.
  assert (Href : ∀ r, bool_decide (is_Some (shared_object r)) = true →
                 ∃ u, shared_object r = Some u).
  { intros r H. by apply bool_decide_eq_true in H. }
  destruct v as [| | | | | | | | |r], w as [| | | | | | | | |r']; try done;
    try (apply Href in Hv as [u Hu]);
    try (apply Href in Hw as [u' Hu']);
    unfold ConvertValueToValueProto; simpl;
    rewrite ?Hu, ?Hu'; simpl; unfold ValueProtosEqual; simpl;
    destruct (lv =? lw) eqn:El; simpl; try done.
  f_equal. fold (UuidEquals u u'). apply eq_bool_prop_intro.
  rewrite bool_decide_spec, Is_true_true, UuidEquals_eq. naive_solver.
Qed.
End convert.

Definition bound_to_42 (r : ObjectReference) : option Uuid :=
  if decide (r = 0%nat) then None else Some {| high_word := 4; low_word := 2 |}.

Lemma value_protos_equal_iff_witness :
  (p ← ConvertValueToValueProto bound_to_42 (set_object_reference 3 1%nat);
   q ← ConvertValueToValueProto bound_to_42 (set_object_reference 3 2%nat);
   ValueProtosEqual p q) = Ok true.
Proof. apply (value_protos_equal_iff bound_to_42); reflexivity. Defined.

(** Two references to one shared object are the same value on the wire, and a
    [NaN] differs from itself. *)
Example nan_is_not_equal :
  (p ← ConvertValueToValueProto bound_to_42 (set_double_value 0 (Z.shiftl 4095 51));
   ValueProtosEqual p p) = Ok false.
Proof. vm_compute. reflexivity. Qed.
