(* ===== verification/ValueStorage.v ===== *)
(** * The storage of values

    [include/c++/value.h] and [value/value.cc]: a [Value] is a tagged union, one
    member of which is a pointer to a string that the value owns.  Here the union
    and the strings it owns are explicit; [value_storage_refines] shows that the
    operations implement the values of file [Values], which the rest of the
    development uses, without leaks, double deletes or reads of a member that was
    not the last one written. *)
From S2P Require Import Prelude Values.
From stdpp Require Import base tactics list strings gmap fin_maps fin_map_dom.
From Stdlib Require Import ZArith Lia.

Module ValueStorage.
(** [Value::Type]. *)
Inductive Type_ :=
| T_UNINITIALIZED | T_EMPTY | T_DOUBLE | T_FLOAT | T_INT64 | T_UINT64 | T_BOOL | T_STRING | T_BYTES
| T_OBJECT_REFERENCE.
#[global] Instance Type_eq_dec : EqDecision Type_.
Proof. solve_decision. Defined.

(** The member of the union that was written last. *)
Inductive member :=
| M_none
| M_double (double_value_ : Z)
| M_float (float_value_ : Z)
| M_int64 (int64_value_ : Z)
| M_uint64 (uint64_value_ : Z)
| M_bool (bool_value_ : bool)
| M_string (string_or_bytes_value_ : nat)
| M_reference (object_reference_ : ObjectReference).

Record cell := mkCell { local_type_ : Z; type_ : Type_; union_ : member }.

(** The values that exist and the strings on the heap. *)
Record state := mkState {
  values : gmap nat cell;
  strings : gmap nat string;
  next_string : nat;
}.
Definition empty_state : state := mkState ∅ ∅ 0.

Definition put_cell (v : nat) (c : cell) (s : state) : state :=
  mkState (<[v := c]> (values s)) (strings s) (next_string s).

(** [new string(x)] and [delete p]. *)
Definition new_string (x : string) (s : state) : nat * state :=
  (next_string s, mkState (values s) (<[next_string s := x]> (strings s)) (S (next_string s))).
Definition delete_string (p : nat) (s : state) : res state :=
  _ ← deref (strings s !! p); Ok (mkState (values s) (delete p (strings s)) (next_string s)).
Definition assign_string (p : nat) (x : string) (s : state) : res state :=
  _ ← deref (strings s !! p); Ok (mkState (values s) (<[p := x]> (strings s)) (next_string s)).

(** Reading a member: undefined unless it was the last one written. *)
Definition get_double (c : cell) : res Z := match union_ c with M_double x => Ok x | _ => Undef end.
Definition get_float (c : cell) : res Z := match union_ c with M_float x => Ok x | _ => Undef end.
Definition get_int64 (c : cell) : res Z := match union_ c with M_int64 x => Ok x | _ => Undef end.
Definition get_uint64 (c : cell) : res Z := match union_ c with M_uint64 x => Ok x | _ => Undef end.
Definition get_bool (c : cell) : res bool := match union_ c with M_bool x => Ok x | _ => Undef end.
Definition get_string (c : cell) : res nat := match union_ c with M_string p => Ok p | _ => Undef end.
Definition get_reference (c : cell) : res ObjectReference := match union_ c with M_reference r => Ok r | _ => Undef end.

Definition is_string (t : Type_) : bool := bool_decide (t = T_STRING) || bool_decide (t = T_BYTES).

(** [Value::Value()] and [Value::~Value()]. *)
Definition New (v : nat) (s : state) : res state := Ok (put_cell v (mkCell (-1) T_UNINITIALIZED M_none) s).
Definition Destroy (v : nat) (s : state) : res state :=
  c ← deref (values s !! v);
  s ← (if is_string (type_ c) then p ← get_string c; delete_string p s else Ok s);
  Ok (mkState (delete v (values s)) (strings s) (next_string s)).

Definition ChangeType (v : nat) (local_type : Z) (new_type : Type_) (s : state) : res state :=
  c ← deref (values s !! v);
  if is_string (type_ c) then
    s ← (if negb (is_string new_type) then p ← get_string c; delete_string p s else Ok s);
    Ok (put_cell v (mkCell local_type new_type (union_ c)) s)
  else if is_string new_type then
    let '(p, s) := new_string "" s in
    Ok (put_cell v (mkCell local_type new_type (M_string p)) s)
  else Ok (put_cell v (mkCell local_type new_type (union_ c)) s).

(** The assignment to a member, after [ChangeType]. *)
Definition set_member (v : nat) (m : member) (s : state) : res state :=
  c ← deref (values s !! v); Ok (put_cell v (mkCell (local_type_ c) (type_ c) m) s).

Definition set_empty (v : nat) (local_type : Z) (s : state) : res state := ChangeType v local_type T_EMPTY s.
Definition set_double_value (v : nat) (local_type value : Z) (s : state) : res state :=
  s ← ChangeType v local_type T_DOUBLE s; set_member v (M_double value) s.
Definition set_float_value (v : nat) (local_type value : Z) (s : state) : res state :=
  s ← ChangeType v local_type T_FLOAT s; set_member v (M_float value) s.
Definition set_int64_value (v : nat) (local_type value : Z) (s : state) : res state :=
  s ← ChangeType v local_type T_INT64 s; set_member v (M_int64 value) s.
Definition set_uint64_value (v : nat) (local_type value : Z) (s : state) : res state :=
  s ← ChangeType v local_type T_UINT64 s; set_member v (M_uint64 value) s.
Definition set_bool_value (v : nat) (local_type : Z) (value : bool) (s : state) : res state :=
  s ← ChangeType v local_type T_BOOL s; set_member v (M_bool value) s.
Definition set_object_reference (v : nat) (local_type : Z) (r : ObjectReference) (s : state) : res state :=
  s ← ChangeType v local_type T_OBJECT_REFERENCE s; set_member v (M_reference r) s.

(** A [const string&] argument: a string elsewhere, or the one that a value owns
    ([v.string_value()]), which is read when it is assigned. *)
Inductive string_ref := Elsewhere (x : string) | OwnedBy (v : nat).
Definition read_ref (r : string_ref) (s : state) : res string :=
  match r with
  | Elsewhere x => Ok x
  | OwnedBy v => c ← deref (values s !! v); p ← get_string c; deref (strings s !! p)
  end.

Definition set_string_value (v : nat) (local_type : Z) (value : string_ref) (s : state) : res state :=
  s ← ChangeType v local_type T_STRING s;
  c ← deref (values s !! v); p ← get_string c; x ← read_ref value s; assign_string p x s.
Definition set_bytes_value (v : nat) (local_type : Z) (value : string_ref) (s : state) : res state :=
  s ← ChangeType v local_type T_BYTES s;
  c ← deref (values s !! v); p ← get_string c; x ← read_ref value s; assign_string p x s.

(** [Value::Value(const Value&)] *)
Definition Copy (v other : nat) (s : state) : res state :=
  o ← deref (values s !! other);
  let s := put_cell v (mkCell (local_type_ o) (type_ o) M_none) s in
  match type_ o with
  | T_UNINITIALIZED | T_EMPTY => Ok s
  | T_DOUBLE => x ← get_double o; set_member v (M_double x) s
  | T_FLOAT => x ← get_float o; set_member v (M_float x) s
  | T_INT64 => x ← get_int64 o; set_member v (M_int64 x) s
  | T_UINT64 => x ← get_uint64 o; set_member v (M_uint64 x) s
  | T_BOOL => x ← get_bool o; set_member v (M_bool x) s
  | T_STRING | T_BYTES =>
      q ← get_string o; x ← deref (strings s !! q);
      let '(p, s) := new_string x s in set_member v (M_string p) s
  | T_OBJECT_REFERENCE => r ← get_reference o; set_member v (M_reference r) s
  end.

(** [Value::operator=]; [other] may be the value itself. *)
Definition Assign (v other : nat) (s : state) : res state :=
  o ← deref (values s !! other);
  s ← ChangeType v (local_type_ o) (type_ o) s;
  o ← deref (values s !! other);
  match type_ o with
  | T_UNINITIALIZED | T_EMPTY => Ok s
  | T_DOUBLE => x ← get_double o; set_member v (M_double x) s
  | T_FLOAT => x ← get_float o; set_member v (M_float x) s
  | T_INT64 => x ← get_int64 o; set_member v (M_int64 x) s
  | T_UINT64 => x ← get_uint64 o; set_member v (M_uint64 x) s
  | T_BOOL => x ← get_bool o; set_member v (M_bool x) s
  | T_STRING | T_BYTES =>
      c ← deref (values s !! v); p ← get_string c;
      q ← get_string o; x ← deref (strings s !! q); assign_string p x s
  | T_OBJECT_REFERENCE => r ← get_reference o; set_member v (M_reference r) s
  end.

(** The getters. *)
Definition string_value (v : nat) (s : state) : res string :=
  c ← deref (values s !! v);
  CHECK (bool_decide (type_ c = T_STRING));; p ← get_string c; deref (strings s !! p).
Definition bytes_value (v : nat) (s : state) : res string :=
  c ← deref (values s !! v);
  CHECK (bool_decide (type_ c = T_BYTES));; p ← get_string c; deref (strings s !! p).
Definition int64_value (v : nat) (s : state) : res Z :=
  c ← deref (values s !! v); CHECK (bool_decide (type_ c = T_INT64));; get_int64 c.
Definition object_reference (v : nat) (s : state) : res ObjectReference :=
  c ← deref (values s !! v); CHECK (bool_decide (type_ c = T_OBJECT_REFERENCE));; get_reference c.

(** ** What the storage stands for *)
Definition own (c : cell) : option nat :=
  if is_string (type_ c) then match union_ c with M_string p => Some p | _ => None end else None.

Definition cell_data (strings : gmap nat string) (c : cell) : option value_data :=
  match type_ c, union_ c with
  | T_UNINITIALIZED, _ => Some UNINITIALIZED
  | T_EMPTY, _ => Some EMPTY
  | T_DOUBLE, M_double x => Some (DOUBLE x)
  | T_FLOAT, M_float x => Some (FLOAT x)
  | T_INT64, M_int64 x => Some (INT64 x)
  | T_UINT64, M_uint64 x => Some (UINT64 x)
  | T_BOOL, M_bool x => Some (BOOL x)
  | T_STRING, M_string p => STRING <$> strings !! p
  | T_BYTES, M_string p => BYTES <$> strings !! p
  | T_OBJECT_REFERENCE, M_reference r => Some (OBJECT_REFERENCE r)
  | _, _ => None
  end.

Definition cell_shows (strings : gmap nat string) (c : cell) (x : Value) : Prop :=
  cell_data strings c = Some (data x) ∧ local_type_ c = local_type x.

(** The values [a] are stored; the one named by [skip] may be in the middle of an
    operation.  Each string belongs to exactly one value. *)
Record stores (skip : option nat) (s : state) (a : gmap nat Value) : Prop := {
  st_values v : Some v ≠ skip → option_Forall2 (cell_shows (strings s)) (values s !! v) (a !! v);
  st_dom v : is_Some (values s !! v) ↔ is_Some (a !! v);
  st_owned v c : values s !! v = Some c → is_string (type_ c) = true →
    ∃ p, own c = Some p ∧ is_Some (strings s !! p);
  st_unique v1 v2 c1 c2 p : values s !! v1 = Some c1 → values s !! v2 = Some c2 →
    own c1 = Some p → own c2 = Some p → v1 = v2;
  st_no_leak p : is_Some (strings s !! p) → ∃ v c, values s !! v = Some c ∧ own c = Some p;
  st_fresh p : is_Some (strings s !! p) → p < next_string s;
}.

Lemma stores_cell s a v x :
  stores None s a → a !! v = Some x → ∃ c, values s !! v = Some c ∧ cell_shows (strings s) c x.
Proof.
  intros Hs Ha. pose proof (st_values _ _ _ Hs v ltac:(done)) as Hv. rewrite Ha in Hv.
  inversion Hv; eauto.
Qed.

Lemma own_not_string c p : own c = Some p → is_string (type_ c) = true.
Proof. unfold own. by destruct (is_string (type_ c)). Qed.
Lemma own_union c p : own c = Some p → get_string c = Ok p.
Proof. unfold own, get_string. destruct (is_string (type_ c)), (union_ c); naive_solver. Qed.

Lemma cell_data_other strs strs' c :
  (∀ p, own c = Some p → strs' !! p = strs !! p) → cell_data strs' c = cell_data strs c.
Proof.
  destruct c as [lt [] []]; try done; intros Hp; unfold cell_data; cbn [type_ union_];
    by rewrite (Hp _ eq_refl).
Qed.

Lemma shows_frame s strs' (a : gmap nat Value) v :
  option_Forall2 (cell_shows (strings s)) (values s !! v) (a !! v) →
  (∀ c p, values s !! v = Some c → own c = Some p → strs' !! p = strings s !! p) →
  option_Forall2 (cell_shows strs') (values s !! v) (a !! v).
Proof.
  intros Hv Hp. destruct Hv as [c x [Hd Hl]|]; constructor. split; [|done].
  rewrite <- Hd. apply cell_data_other. eauto.
Qed.

(** A value whose cell is complete. *)
Lemma stores_finish s a v c x :
  stores (Some v) s a → values s !! v = Some c → cell_shows (strings s) c x → stores None s (<[v := x]> a).
Proof.
  intros Hs Hc Hx. destruct Hs as [Hval Hdom Hown Huniq Hleak Hfr]. split; try done.
  - intros w _. destruct (decide (w = v)) as [->|Hw].
    + rewrite lookup_insert_eq, Hc. by constructor.
    + rewrite lookup_insert_ne by done. apply Hval. congruence.
  - intros w. rewrite Hdom. destruct (decide (w = v)) as [->|Hw].
    + rewrite lookup_insert_eq. rewrite <- Hdom, Hc. naive_solver.
    + by rewrite lookup_insert_ne.
Qed.

Lemma stores_skip s a v : stores None s a → stores (Some v) s a.
Proof. intros [Hval ????]. split; try done. intros w _. by apply Hval. Qed.

(** The cell of [v] changes, with the strings: it owns a string of its own, if it
    should own one, and every other string belongs to another value. *)
Lemma stores_update s a v c c' strs' next' :
  stores (Some v) s a → values s !! v = Some c →
  (∀ w d p, w ≠ v → values s !! w = Some d → own d = Some p → strs' !! p = strings s !! p) →
  (is_string (type_ c') = true → ∃ p, own c' = Some p ∧ is_Some (strs' !! p) ∧
     (own c = Some p ∨ strings s !! p = None)) →
  (∀ p, is_Some (strs' !! p) → own c' = Some p ∨ (is_Some (strings s !! p) ∧ own c ≠ Some p)) →
  (∀ p, is_Some (strs' !! p) → p < next') →
  stores (Some v) (mkState (<[v := c']> (values s)) strs' next') a.
Proof.
  intros [Hval Hdom Hown Huniq Hleak Hfr] Hc Hother Hnew Hstr Hnext.
  assert (∀ w d p, w ≠ v → values s !! w = Some d → own d = Some p → own c' = Some p → False) as Hdisj.
  { intros w d p Hw Hd Hp Hp'. destruct (Hnew (own_not_string _ _ Hp')) as (p' & E & _ & Hcase).
    assert (p' = p) as -> by congruence. destruct Hcase as [Hcase|Hcase].
    - apply Hw. by eapply Huniq.
    - destruct (Hown w d Hd (own_not_string _ _ Hp)) as (q & Eq & Hq).
      assert (q = p) as -> by congruence. rewrite Hcase in Hq. by destruct Hq. }
  split; simpl; [..|done].
  - intros w Hw. rewrite lookup_insert_ne by congruence. apply shows_frame; [by apply Hval|].
    intros d p. apply Hother. congruence.
  - intros w. rewrite <- Hdom. destruct (decide (w = v)) as [->|Hw].
    + rewrite lookup_insert_eq, Hc. naive_solver.
    + by rewrite lookup_insert_ne.
  - intros w d [[<- <-]|[? Hw]]%lookup_insert_Some Hd.
    + destruct (Hnew Hd) as (p & ? & ? & _). eauto.
    + destruct (Hown w d Hw Hd) as (p & Hp & Hs). exists p. split; [done|]. by rewrite (Hother w d p).
  - intros w1 w2 d1 d2 p [[<- <-]|[? H1]]%lookup_insert_Some [[<- <-]|[? H2]]%lookup_insert_Some O1 O2; try done.
    + by destruct (Hdisj w2 d2 p).
    + by destruct (Hdisj w1 d1 p).
    + by eapply Huniq.
  - intros p [Hp|[Hp Hne]]%Hstr.
    + exists v, c'. by rewrite lookup_insert_eq.
    + destruct (Hleak p Hp) as (w & d & Hw & Hd). exists w, d. split; [|done].
      rewrite lookup_insert_ne; [done|]. intros <-. congruence.
Qed.

(** What [ChangeType] leaves. *)
Lemma ChangeType_stores s a v c lt t :
  stores (Some v) s a → values s !! v = Some c →
  ∃ s' c', ChangeType v lt t s = Ok s' ∧ stores (Some v) s' a ∧ values s' = <[v := c']> (values s) ∧
    local_type_ c' = lt ∧ type_ c' = t ∧
    (is_string t = is_string (type_ c) → union_ c' = union_ c ∧ strings s' = strings s).
Proof.
  intros Hs Hc. pose proof Hs as [_ _ Hown Huniq Hleak Hfr]. unfold ChangeType. rewrite Hc. simpl.
  destruct (is_string (type_ c)) eqn:Ec.
  - destruct (Hown v c Hc Ec) as (p & Hp & Hsp). destruct (is_string t) eqn:Et; simpl.
    + eexists _, _. split_and!; [done| |done..]. apply (stores_update s a v c); try done.
      * intros _. exists p. split_and!; [|done|by left]. unfold own in *. simpl. by rewrite Et, Ec in *.
      * intros q Hq. unfold own in *. simpl. rewrite Et, Ec in *.
        destruct (decide (p = q)) as [->|]; [by left|]. right. split; [done|congruence].
    + rewrite (own_union _ _ Hp). simpl. destruct Hsp as [x Hx]. unfold delete_string. rewrite Hx. simpl.
      eexists _, _. split_and!; [done| |done..]. apply (stores_update s a v c); try done; simpl.
      * intros w d q Hw Hd Hq. rewrite lookup_delete_ne; [done|]. intros ->. apply Hw. by eapply Huniq.
      * rewrite Et. done.
      * intros q [y [? Hq]%lookup_delete_Some]. right. split; [by eexists|congruence].
      * intros q [y [? Hq]%lookup_delete_Some]. apply Hfr. by eexists.
  - destruct (is_string t) eqn:Et; simpl.
    + eexists _, _. split_and!; [done| |done..]. apply (stores_update s a v c); try done; simpl.
      * intros w d q Hw Hd Hq. rewrite lookup_insert_ne; [done|]. intros <-.
        destruct (Hown w d Hd (own_not_string _ _ Hq)) as (q' & Hq' & Hs').
        assert (q' = next_string s) as -> by congruence. specialize (Hfr _ Hs'). lia.
      * intros _. exists (next_string s). unfold own. simpl. rewrite Et, lookup_insert_eq. split_and!; [done|by eexists|].
        right. apply eq_None_not_Some. intros Hn. specialize (Hfr _ Hn). lia.
      * intros q [y [[<- <-]|[? Hq]]%lookup_insert_Some]; [left; unfold own; simpl; by rewrite Et|].
        right. split; [by eexists|]. unfold own. by rewrite Ec.
      * intros q [y [[<- <-]|[? Hq]]%lookup_insert_Some]; [lia|]. specialize (Hfr q ltac:(by eexists)). lia.
    + eexists _, _. split_and!; [done| |done..]. apply (stores_update s a v c); try done; simpl.
      * by rewrite Et.
      * intros q Hq. right. split; [done|]. unfold own. by rewrite Ec.
Qed.

(** The assignment to a member of a value that owns no string. *)
Lemma set_member_stores s a v c m x :
  stores (Some v) s a → values s !! v = Some c → is_string (type_ c) = false →
  cell_data (strings s) (mkCell (local_type_ c) (type_ c) m) = Some x →
  ∃ s', set_member v m s = Ok s' ∧ stores None s' (<[v := {| local_type := local_type_ c; data := x |}]> a).
Proof.
  intros Hs Hc Ht Hx. unfold set_member. rewrite Hc. simpl. eexists. split; [done|].
  eapply stores_finish; [|by simpl; rewrite lookup_insert_eq|by split].
  pose proof (st_fresh _ _ _ Hs). apply (stores_update s a v c); try done; simpl.
  - by rewrite Ht.
  - intros q Hq. right. split; [done|]. unfold own. by rewrite Ht.
Qed.

(** The assignment to the string of a value. *)
Lemma assign_string_stores s a v c p y x :
  stores (Some v) s a → values s !! v = Some c → own c = Some p →
  cell_data (<[p := y]> (strings s)) c = Some x →
  ∃ s', assign_string p y s = Ok s' ∧ stores None s' (<[v := {| local_type := local_type_ c; data := x |}]> a).
Proof.
  intros Hs Hc Hp Hx. pose proof Hs as [_ _ Hown Huniq Hleak Hfr].
  destruct (Hown v c Hc (own_not_string _ _ Hp)) as (q & Eq & Hq). assert (q = p) as -> by congruence.
  destruct Hq as [z Hz]. unfold assign_string. rewrite Hz. simpl. eexists. split; [done|].
  eapply stores_finish; [|simpl; exact Hc|by split].
  rewrite <- (insert_id (values s) v c Hc) at 1. apply (stores_update s a v c); try done; simpl.
  - intros w d q Hw Hd Hq. rewrite lookup_insert_ne; [done|]. intros <-. apply Hw. by eapply Huniq.
  - intros _. exists p. rewrite lookup_insert_eq. split_and!; [done|by eexists|by left].
  - intros q [u [[<- <-]|[? Hq]]%lookup_insert_Some]; [by left|]. right. split; [by eexists|congruence].
  - intros q [u [[<- <-]|[? Hq]]%lookup_insert_Some]; apply Hfr; by eexists.
Qed.

(** ** The operations *)
Lemma stores_skip_dom s a v : stores None s a → is_Some (a !! v) → ∃ c, values s !! v = Some c.
Proof. intros Hs [x Hx]. destruct (stores_cell s a v x Hs Hx) as (c & ? & _). eauto. Qed.

Lemma set_scalar_stores s a v lt t m x :
  stores None s a → is_Some (a !! v) → is_string t = false →
  (∀ strs, cell_data strs (mkCell lt t m) = Some x) →
  ∃ s', (s ← ChangeType v lt t s; set_member v m s) = Ok s' ∧
    stores None s' (<[v := {| local_type := lt; data := x |}]> a).
Proof.
  intros Hs Hv Ht Hx. destruct (stores_skip_dom s a v Hs Hv) as [c Hc].
  destruct (ChangeType_stores s a v c lt t (stores_skip _ _ _ Hs) Hc) as (s1 & c1 & -> & Hs1 & Ev & <- & <- & _).
  apply (set_member_stores s1 a v c1); [done| |done|apply Hx]. by rewrite Ev, lookup_insert_eq.
Qed.

Lemma set_empty_stores s a v lt :
  stores None s a → is_Some (a !! v) →
  ∃ s', set_empty v lt s = Ok s' ∧ stores None s' (<[v := Values.set_empty lt]> a).
Proof.
  intros Hs Hv. destruct (stores_skip_dom s a v Hs Hv) as [c Hc].
  destruct (ChangeType_stores s a v c lt T_EMPTY (stores_skip _ _ _ Hs) Hc) as (s1 & c1 & E & Hs1 & Ev & Hl & Ht & _).
  exists s1. split; [done|]. eapply stores_finish; [done|by rewrite Ev, lookup_insert_eq|].
  split; [|done]. unfold cell_data. by rewrite Ht.
Qed.

(** The string that a reference stands for. *)
Definition string_of (d : value_data) : option string :=
  match d with STRING x | BYTES x => Some x | _ => None end.
Definition ref_value (a : gmap nat Value) (r : string_ref) : option string :=
  match r with Elsewhere x => Some x | OwnedBy w => x ← a !! w; string_of (data x) end.

Lemma cell_string strs c x y :
  cell_shows strs c x → string_of (data x) = Some y →
  is_string (type_ c) = true ∧ ∃ p, own c = Some p ∧ strs !! p = Some y.
Proof.
  intros [Hd _] Hy. destruct c as [lt t u]. unfold cell_data, own in *. simpl in *.
  destruct (data x), t, u; simplify_eq/=; try (by destruct (strs !! _)); split; [done| |done|];
    destruct (strs !! _) eqn:E; simplify_eq/=; eauto.
Qed.

(** Reading a reference after [ChangeType] to a type of strings. *)
Lemma read_ref_stores s a v c lt t r y s' c' :
  stores None s a → values s !! v = Some c → is_string t = true → ref_value a r = Some y →
  ChangeType v lt t s = Ok s' → stores (Some v) s' a → values s' = <[v := c']> (values s) →
  (is_string t = is_string (type_ c) → union_ c' = union_ c ∧ strings s' = strings s) →
  type_ c' = t → read_ref r s' = Ok y.
Proof.
  intros Hs Hc Ht Hr Hct Hs' Ev Hkeep Htc. destruct r as [x|w]; simpl in *; [congruence|].
  destruct (a !! w) as [x|] eqn:Ew; [|done]. simpl in Hr.
  destruct (decide (w = v)) as [->|Hne].
  - destruct (stores_cell s a v x Hs Ew) as (c0 & Hc0 & Hshow). assert (c0 = c) as -> by congruence.
    destruct (cell_string _ _ _ _ Hshow Hr) as (Hstr & p & Hp & Hy). destruct (Hkeep ltac:(congruence)) as [Hu Hstrs].
    rewrite Ev, lookup_insert_eq. simpl. unfold get_string. rewrite Hu. apply own_union in Hp.
    unfold get_string in Hp. rewrite Hp. simpl. rewrite Hstrs, Hy. done.
  - pose proof (st_values _ _ _ Hs' w ltac:(congruence)) as Hw. rewrite Ew in Hw.
    destruct (values s' !! w) as [d|]; [|by inversion Hw].
    assert (cell_shows (strings s') d x) as Hshow by (by inversion Hw).
    destruct (cell_string _ _ _ _ Hshow Hr) as (Hstr & p & Hp & Hy). simpl. rewrite (own_union _ _ Hp). simpl. by rewrite Hy.
Qed.

Lemma set_text_stores s a v lt t r y (mk : string → value_data) :
  stores None s a → is_Some (a !! v) → is_string t = true → ref_value a r = Some y →
  (∀ strs p lt, cell_data strs (mkCell lt t (M_string p)) = mk <$> strs !! p) →
  ∃ s', (s ← ChangeType v lt t s; c ← deref (values s !! v); p ← get_string c; x ← read_ref r s; assign_string p x s) = Ok s' ∧
    stores None s' (<[v := {| local_type := lt; data := mk y |}]> a).
Proof.
  intros Hs Hv Ht Hr Hmk. destruct (stores_skip_dom s a v Hs Hv) as [c Hc].
  destruct (ChangeType_stores s a v c lt t (stores_skip _ _ _ Hs) Hc) as (s1 & c1 & E & Hs1 & Ev & Hl & Htc & Hkeep).
  rewrite E. simpl. assert (values s1 !! v = Some c1) as Hc1 by (by rewrite Ev, lookup_insert_eq). rewrite Hc1. simpl.
  destruct (st_owned _ _ _ Hs1 v c1 Hc1 ltac:(by rewrite Htc)) as (p & Hp & _).
  rewrite (own_union _ _ Hp). simpl. rewrite (read_ref_stores s a v c lt t r y s1 c1) by done. simpl. rewrite <- Hl.
  apply (assign_string_stores s1 a v c1 p y); try done.
  apply own_union in Hp. unfold get_string in Hp. destruct c1 as [lt1 t1 u1]; simpl in *.
  destruct u1; simplify_eq. by rewrite Hmk, lookup_insert_eq.
Qed.

Lemma New_stores s a v :
  stores None s a → a !! v = None → ∃ s', New v s = Ok s' ∧ stores None s' (<[v := NewValue]> a).
Proof.
  intros [Hval Hdom Hown Huniq Hleak Hfr] Hv. eexists. split; [done|].
  assert (values s !! v = None) as Hnone.
  { apply eq_None_not_Some. rewrite Hdom, Hv. by intros []. }
  split; simpl; [..|done].
  - intros w _. destruct (decide (w = v)) as [->|Hw].
    + rewrite !lookup_insert_eq. by constructor.
    + rewrite !lookup_insert_ne by done. by apply Hval.
  - intros w. rewrite !lookup_insert_is_Some, Hdom. done.
  - intros w d [[<- <-]|[??]]%lookup_insert_Some Hd; [done|]. by eapply Hown.
  - intros w1 w2 d1 d2 p [[<- <-]|[? H1]]%lookup_insert_Some [[<- <-]|[? H2]]%lookup_insert_Some O1 O2; try done.
    by eapply Huniq.
  - intros p Hp. destruct (Hleak p Hp) as (w & d & Hw & Hd). exists w, d. split; [|done].
    rewrite lookup_insert_ne; [done|]. congruence.
Qed.

Lemma Destroy_stores s a v :
  stores None s a → is_Some (a !! v) → ∃ s', Destroy v s = Ok s' ∧ stores None s' (delete v a).
Proof.
  intros Hs Hv. destruct (stores_skip_dom s a v Hs Hv) as [c Hc]. pose proof Hs as [Hval Hdom Hown Huniq Hleak Hfr].
  assert (∃ s', (if is_string (type_ c) then p ← get_string c; delete_string p s else Ok s) = Ok s' ∧
    values s' = values s ∧ next_string s' = next_string s ∧
    ∀ p, strings s' !! p = if decide (own c = Some p) then None else strings s !! p)
    as (s' & E & Ev & En & Hstr).
  { destruct (is_string (type_ c)) eqn:Et.
    - destruct (Hown v c Hc Et) as (p & Hp & [x Hx]). rewrite (own_union _ _ Hp). simpl. unfold delete_string.
      rewrite Hx. simpl. eexists. split_and!; [done..|]. intros q. simpl. case_decide as Hq.
      + assert (q = p) as -> by congruence. apply lookup_delete_eq.
      + apply lookup_delete_ne. congruence.
    - exists s. split_and!; [done..|]. intros q. rewrite decide_False; [done|]. unfold own. by rewrite Et. }
  unfold Destroy. rewrite Hc. simpl. rewrite E. simpl. eexists. split; [done|]. split; simpl; rewrite ?Ev.
  - intros w _. destruct (decide (w = v)) as [->|Hw].
    + rewrite !lookup_delete_eq. constructor.
    + rewrite !lookup_delete_ne by done. apply shows_frame; [by apply Hval|].
      intros d p Hd Hp. rewrite Hstr, decide_False; [done|]. intros Hcp. apply Hw. by eapply Huniq.
  - intros w. rewrite !lookup_delete_is_Some, Hdom. done.
  - intros w d [? Hw]%lookup_delete_Some Hd. destruct (Hown w d Hw Hd) as (p & Hp & Hs'). exists p. split; [done|].
    rewrite Hstr, decide_False; [done|]. intros Hcp. by assert (v = w) by (by eapply Huniq).
  - intros w1 w2 d1 d2 p [? H1]%lookup_delete_Some [? H2]%lookup_delete_Some. by eapply Huniq.
  - intros p. rewrite Hstr. case_decide as Hcp; [by intros []|]. intros Hp. destruct (Hleak p Hp) as (w & d & Hw & Hd).
    exists w, d. split; [|done]. rewrite lookup_delete_ne; [done|]. intros <-. congruence.
  - intros p. rewrite Hstr, En. case_decide; [by intros []|]. apply Hfr.
Qed.

(** What is read of a value that is copied. *)
Lemma Assign_stores s a v other x :
  stores None s a → is_Some (a !! v) → a !! other = Some x →
  ∃ s', Assign v other s = Ok s' ∧ stores None s' (<[v := x]> a).
Proof.
  intros Hs Hv Hx. destruct (stores_skip_dom s a v Hs Hv) as [c Hc].
  destruct (stores_cell s a other x Hs Hx) as (o & Ho & Hshow). unfold Assign. rewrite Ho. simpl.
  destruct (ChangeType_stores s a v c (local_type_ o) (type_ o) (stores_skip _ _ _ Hs) Hc)
    as (s1 & c1 & -> & Hs1 & Ev & Hl & Ht & Hkeep). simpl.
  assert (∃ o1, values s1 !! other = Some o1 ∧ type_ o1 = type_ o ∧ cell_shows (strings s1) o1 x) as (o1 & Ho1 & Et & Hshow1).
  { destruct (decide (other = v)) as [->|Hne].
    - assert (c = o) as -> by congruence. destruct (Hkeep eq_refl) as [Hu Hstrs].
      exists c1. rewrite Ev, lookup_insert_eq, Hstrs. split_and!; [done..|].
      destruct c1, o; simpl in *; by subst.
    - pose proof (st_values _ _ _ Hs1 other ltac:(congruence)) as Hw. rewrite Hx in Hw.
      exists o. rewrite Ev, lookup_insert_ne in Hw |- * by done. rewrite Ho in *. split_and!; [done..|]. by inversion Hw. }
  rewrite Ho1. simpl. assert (values s1 !! v = Some c1) as Hc1 by (by rewrite Ev, lookup_insert_eq).
  destruct Hshow1 as [Hd Hlx], Hshow as [_ Hlo]. destruct x as [ltx dx]; simpl in *. subst ltx.
  rewrite <- Hl. unfold cell_data in Hd. rewrite <- Ht in Et. rewrite Et in Hd |- *.
  destruct (type_ c1) eqn:Et1, (union_ o1) eqn:Eu; try discriminate; simplify_eq/=.
  1-16: eexists; split; [done|]; eapply stores_finish; [done|exact Hc1|by split; [unfold cell_data; rewrite Et1|]].
  all: try (unfold get_double, get_float, get_int64, get_uint64, get_bool, get_reference; rewrite Eu; simpl;
    apply (set_member_stores s1 a v c1); [done..|by rewrite Et1|by unfold cell_data; simpl; rewrite Et1]).
  all: rewrite Hc1; simpl; destruct (st_owned _ _ _ Hs1 v c1 Hc1 ltac:(by rewrite Et1)) as (p & Hp & _);
    rewrite (own_union _ _ Hp); simpl; unfold get_string at 1; rewrite Eu; simpl;
    destruct (strings s1 !! _) as [y|] eqn:Ey; simplify_eq/=;
    apply (assign_string_stores s1 a v c1 p y); try done; apply own_union in Hp; unfold get_string in Hp;
    destruct c1 as [lt1 t1 u1]; simpl in *; subst t1; destruct u1; simplify_eq; unfold cell_data; simpl;
    by rewrite lookup_insert_eq.
Qed.

(** A new value with a complete cell, which owns no string or a new one. *)
Lemma stores_construct s a v c' x :
  stores None s a → a !! v = None →
  (is_string (type_ c') = false → cell_shows (strings s) c' x → stores None (put_cell v c' s) (<[v := x]> a)) ∧
  (∀ y, own c' = Some (next_string s) → cell_shows (<[next_string s := y]> (strings s)) c' x →
   stores None (put_cell v c' (new_string y s).2) (<[v := x]> a)).
Proof.
  intros Hs Hv. destruct (New_stores s a v Hs Hv) as (s0 & [= <-] & Hs0). pose proof (st_fresh _ _ _ Hs) as Hfr.
  assert (∀ strs next, stores (Some v) (mkState (<[v := c']> (values s)) strs next) (<[v := NewValue]> a) →
    cell_shows strs c' x → stores None (mkState (<[v := c']> (values s)) strs next) (<[v := x]> a)) as Hfin.
  { intros strs next H1 H2. rewrite <- (insert_insert_eq a v x NewValue).
    eapply stores_finish; [exact H1|by simpl; rewrite lookup_insert_eq|done]. }
  pose proof (fun strs next => stores_update (put_cell v (mkCell (-1) T_UNINITIALIZED M_none) s) (<[v := NewValue]> a)
    v (mkCell (-1) T_UNINITIALIZED M_none) c' strs next) as Hup.
  split.
  - intros Ht Hshow. apply Hfin; [|done]. rewrite <- (insert_insert_eq (values s) v c' (mkCell (-1) T_UNINITIALIZED M_none)).
    apply Hup; simpl; [by apply stores_skip|by rewrite lookup_insert_eq|done|by rewrite Ht|by right|done].
  - intros y Ho Hshow. apply Hfin; [|done]. rewrite <- (insert_insert_eq (values s) v c' (mkCell (-1) T_UNINITIALIZED M_none)).
    assert (strings s !! next_string s = None) as Hn.
    { apply eq_None_not_Some. intros Hn. specialize (Hfr _ Hn). lia. }
    apply Hup; simpl; [by apply stores_skip|by rewrite lookup_insert_eq|..].
    + intros w d p Hw Hd Hp. rewrite lookup_insert_ne in Hd by done. rewrite lookup_insert_ne; [done|]. intros <-.
      destruct (st_owned _ _ _ Hs w d Hd (own_not_string _ _ Hp)) as (q & Hq & Hsq).
      assert (q = next_string s) as -> by congruence. rewrite Hn in Hsq. by destruct Hsq.
    + intros _. exists (next_string s). rewrite lookup_insert_eq. split_and!; [done|by eexists|by right].
    + intros q [z [[<- <-]|[? Hq]]%lookup_insert_Some]; [by left|]. right. split; [by eexists|done].
    + intros q [z [[<- <-]|[? Hq]]%lookup_insert_Some]; [lia|]. specialize (Hfr q ltac:(by eexists)). lia.
Qed.

Lemma Copy_stores s a v other x :
  stores None s a → a !! v = None → a !! other = Some x →
  ∃ s', Copy v other s = Ok s' ∧ stores None s' (<[v := x]> a).
Proof.
  intros Hs Hv Hx. destruct (stores_cell s a other x Hs Hx) as (o & Ho & [Hd Hl]). unfold Copy. rewrite Ho. simpl.
  assert (∀ c, put_cell v c (put_cell v (mkCell (local_type_ o) (type_ o) M_none) s) = put_cell v c s) as Hput.
  { intros c. unfold put_cell. simpl. by rewrite insert_insert_eq. }
  destruct x as [ltx dx]; simpl in *. unfold cell_data in Hd.
  destruct (type_ o) eqn:Et, (union_ o) eqn:Eu; try discriminate; simplify_eq/=.
  1-16: eexists; split; [done|]; by apply stores_construct.
  all: try (unfold get_double, get_float, get_int64, get_uint64, get_bool, get_reference; rewrite Eu; simpl;
    unfold set_member; simpl; rewrite lookup_insert_eq; simpl; rewrite Hput; eexists; split; [done|]; by apply stores_construct).
  all: unfold get_string; rewrite Eu; simpl; destruct (strings s !! _) as [y|] eqn:Ey; simplify_eq/=;
    unfold set_member; simpl; rewrite lookup_insert_eq; simpl; eexists; split; [done|];
    unfold put_cell; simpl; rewrite insert_insert_eq;
    eapply (stores_construct s a v (mkCell _ _ (M_string (next_string s)))); [done..|];
    split; [unfold cell_data; simpl; by rewrite lookup_insert_eq|done].
Qed.

(** ** Sequences of operations *)
Inductive op :=
| ONew (v : nat)
| OCopy (v other : nat)
| OAssign (v other : nat)
| OSetEmpty (v : nat) (lt : Z)
| OSetDouble (v : nat) (lt x : Z)
| OSetFloat (v : nat) (lt x : Z)
| OSetInt64 (v : nat) (lt x : Z)
| OSetUint64 (v : nat) (lt x : Z)
| OSetBool (v : nat) (lt : Z) (b : bool)
| OSetString (v : nat) (lt : Z) (x : string_ref)
| OSetBytes (v : nat) (lt : Z) (x : string_ref)
| OSetReference (v : nat) (lt : Z) (r : ObjectReference)
| ODestroy (v : nat).

Definition step (s : state) (o : op) : res state :=
  match o with
  | ONew v => New v s
  | OCopy v other => Copy v other s
  | OAssign v other => Assign v other s
  | OSetEmpty v lt => set_empty v lt s
  | OSetDouble v lt x => set_double_value v lt x s
  | OSetFloat v lt x => set_float_value v lt x s
  | OSetInt64 v lt x => set_int64_value v lt x s
  | OSetUint64 v lt x => set_uint64_value v lt x s
  | OSetBool v lt b => set_bool_value v lt b s
  | OSetString v lt x => set_string_value v lt x s
  | OSetBytes v lt x => set_bytes_value v lt x s
  | OSetReference v lt r => set_object_reference v lt r s
  | ODestroy v => Destroy v s
  end.

(** The same on values; [None] if the operation is not on values that exist, or
    constructs one that does. *)
Definition spec_step (a : gmap nat Value) (o : op) : option (gmap nat Value) :=
  match o with
  | ONew v => match a !! v with None => Some (<[v := NewValue]> a) | Some _ => None end
  | OCopy v other => match a !! v with None => x ← a !! other; Some (<[v := x]> a) | Some _ => None end
  | OAssign v other => x ← a !! other; set_existing v x a
  | OSetEmpty v lt => set_existing v (Values.set_empty lt) a
  | OSetDouble v lt x => set_existing v (Values.set_double_value lt x) a
  | OSetFloat v lt x => set_existing v (Values.set_float_value lt x) a
  | OSetInt64 v lt x => set_existing v (Values.set_int64_value lt x) a
  | OSetUint64 v lt x => set_existing v (Values.set_uint64_value lt x) a
  | OSetBool v lt b => set_existing v (Values.set_bool_value lt b) a
  | OSetString v lt r => x ← ref_value a r; set_existing v (Values.set_string_value lt x) a
  | OSetBytes v lt r => x ← ref_value a r; set_existing v (Values.set_bytes_value lt x) a
  | OSetReference v lt r => set_existing v (Values.set_object_reference lt r) a
  | ODestroy v => _ ← a !! v; Some (delete v a)
  end.

Fixpoint spec_run (a : gmap nat Value) (ops : list op) : option (gmap nat Value) :=
  match ops with [] => Some a | o :: ops => a ← spec_step a o; spec_run a ops end.


Lemma step_stores s a o a' :
  stores None s a → spec_step a o = Some a' → ∃ s', step s o = Ok s' ∧ stores None s' a'.
Proof.
  intros Hs. destruct o; simpl.
  - destruct (a !! v) eqn:E; [done|]. intros [= <-]. by apply New_stores.
  - destruct (a !! v) eqn:E; [done|]. intros (x & Hx & [= <-])%bind_Some. by apply Copy_stores.
  - intros (x & Hx & [Hv ->]%set_existing_Some)%bind_Some. by apply Assign_stores.
  - intros [Hv ->]%set_existing_Some. by apply set_empty_stores.
  - intros [Hv ->]%set_existing_Some. by apply set_scalar_stores.
  - intros [Hv ->]%set_existing_Some. by apply set_scalar_stores.
  - intros [Hv ->]%set_existing_Some. by apply set_scalar_stores.
  - intros [Hv ->]%set_existing_Some. by apply set_scalar_stores.
  - intros [Hv ->]%set_existing_Some. by apply set_scalar_stores.
  - intros (y & Hy & [Hv ->]%set_existing_Some)%bind_Some. by apply (set_text_stores s a v lt T_STRING x y STRING).
  - intros (y & Hy & [Hv ->]%set_existing_Some)%bind_Some. by apply (set_text_stores s a v lt T_BYTES x y BYTES).
  - intros [Hv ->]%set_existing_Some. by apply set_scalar_stores.
  - intros (x & Hx & [= <-])%bind_Some. by apply Destroy_stores.
Qed.

Lemma run_stores s a ops a' :
  stores None s a → spec_run a ops = Some a' → ∃ s', foldM step s ops = Ok s' ∧ stores None s' a'.
Proof.
  revert s a. induction ops as [|o ops IH]; intros s a Hs; simpl; [intros [= <-]; eauto|].
  intros (a1 & H1 & H2)%bind_Some. destruct (step_stores s a o a1 Hs H1) as (s1 & -> & Hs1). simpl. eauto.
Qed.

Lemma stores_empty : stores None empty_state ∅.
Proof.
  split; simpl; intros *; rewrite ?lookup_empty; try (by intros []); try done.
  intros _. constructor.
Qed.

(** The getters. *)
Lemma getters_stores s a v x :
  stores None s a → a !! v = Some x →
  string_value v s = Values.string_value x ∧ bytes_value v s = Values.bytes_value x ∧
  int64_value v s = Values.int64_value x ∧ object_reference v s = Values.object_reference x.
Proof.
  intros Hs Hx. destruct (stores_cell s a v x Hs Hx) as (c & Hc & [Hd _]).
  unfold string_value, bytes_value, int64_value, object_reference,
    Values.string_value, Values.bytes_value, Values.int64_value, Values.object_reference.
  rewrite Hc. simpl. unfold cell_data in Hd. unfold get_string, get_int64, get_reference.
  destruct (type_ c), (union_ c); simplify_eq/=; try (rewrite <- Hd; done);
    destruct (strings s !! _); simplify_eq/=; rewrite <- Hd; done.
Qed.

Lemma no_leak s a : stores None s a → a = ∅ → strings s = ∅.
Proof.
  intros Hs ->. apply map_empty. intros p. apply eq_None_not_Some. intros Hp.
  destruct (st_no_leak _ _ _ Hs p Hp) as (v & c & Hv & _).
  destruct (proj1 (st_dom _ _ _ Hs v)) as [x Hx]; [by eexists|]. done.
Qed.
End ValueStorage.


Definition sample_ops : list ValueStorage.op :=
  [ValueStorage.ONew 0; ValueStorage.OSetString 0 1 (ValueStorage.Elsewhere "ab");
   ValueStorage.OCopy 1 0; ValueStorage.OSetBytes 0 2 (ValueStorage.OwnedBy 0);
   ValueStorage.OSetInt64 1 0 7; ValueStorage.OAssign 1 0; ValueStorage.OAssign 0 0].

