(* ===== verification/Events.v ===== *)
(** Events and peer messages: [engine/committed_event.{h,cc}],
    [engine/shared_object_transaction.{h,cc}], [engine/get_event_proto_type.cc],
    [engine/get_peer_message_type.cc] and the generated classes of
    [engine/proto/event.proto] and [engine/proto/peer.proto].

    A [shared_ptr<const LiveObject>] is an index in the heap of live objects
    (file [LiveObject]); an [unordered_set] of references is a [gset]. *)
From stdpp Require Import base tactics list strings gmap.
From Stdlib Require Import ZArith Lia.
From S2P Require Import Prelude Ids VersionMap Values.
#[local] Open Scope string_scope.

Abbreviation LiveObjectPtr := nat (only parsing).

(** ** [CommittedEvent] *)
Module CommittedEvent.
Inductive Type_ :=
| OBJECT_CREATION | BEGIN_TRANSACTION | END_TRANSACTION | METHOD_CALL
| METHOD_RETURN | SUB_METHOD_CALL | SUB_METHOD_RETURN | SELF_METHOD_CALL
| SELF_METHOD_RETURN.

#[global] Instance Type_eq_dec : EqDecision Type_.
Proof. solve_decision. Defined.

(** One constructor per subclass; [new_objects_] is in the classes whose
    constructor takes it (it is empty in the others). *)
Inductive t :=
| ObjectCreation (live_object_ : LiveObjectPtr)
| BeginTransaction
| EndTransaction
| MethodCall (method_name_ : string) (parameters_ : list Value)
| MethodReturn (new_objects_ : gset ObjectReference) (return_value_ : Value)
| SubMethodCall (new_objects_ : gset ObjectReference) (callee_ : ObjectReference)
    (method_name_ : string) (parameters_ : list Value)
| SubMethodReturn (return_value_ : Value)
| SelfMethodCall (new_objects_ : gset ObjectReference) (method_name_ : string)
    (parameters_ : list Value)
| SelfMethodReturn (new_objects_ : gset ObjectReference) (return_value_ : Value).

#[global] Instance t_eq_dec : EqDecision t.
Proof. solve_decision. Defined.

Definition new_objects (e : t) : gset ObjectReference :=
  match e with
  | MethodReturn n _ | SubMethodCall n _ _ _ | SelfMethodCall n _ _
  | SelfMethodReturn n _ => n
  | _ => ∅
  end.

Definition type (e : t) : Type_ :=
  match e with
  | ObjectCreation _ => OBJECT_CREATION
  | BeginTransaction => BEGIN_TRANSACTION
  | EndTransaction => END_TRANSACTION
  | MethodCall _ _ => METHOD_CALL
  | MethodReturn _ _ => METHOD_RETURN
  | SubMethodCall _ _ _ _ => SUB_METHOD_CALL
  | SubMethodReturn _ => SUB_METHOD_RETURN
  | SelfMethodCall _ _ _ => SELF_METHOD_CALL
  | SelfMethodReturn _ _ => SELF_METHOD_RETURN
  end.

(** The constructors that [CHECK] the method name. *)
Definition NewMethodCall (method_name : string) (parameters : list Value) : res t :=
  CHECK (negb (bool_decide (method_name = "")));; Ok (MethodCall method_name parameters).
Definition NewSubMethodCall (n : gset ObjectReference) (callee : ObjectReference)
    (method_name : string) (parameters : list Value) : res t :=
  CHECK (negb (bool_decide (method_name = "")));;
  Ok (SubMethodCall n callee method_name parameters).
Definition NewSelfMethodCall (n : gset ObjectReference)
    (method_name : string) (parameters : list Value) : res t :=
  CHECK (negb (bool_decide (method_name = "")));;
  Ok (SelfMethodCall n method_name parameters).

(** The accessors: the base class's version ends the process. *)
Definition GetObjectCreation (e : t) : res LiveObjectPtr :=
  match e with ObjectCreation l => Ok l | _ => Fatal end.
Definition GetMethodCall (e : t) : res (string * list Value) :=
  match e with MethodCall m ps => Ok (m, ps) | _ => Fatal end.
Definition GetMethodReturn (e : t) : res Value :=
  match e with MethodReturn _ v => Ok v | _ => Fatal end.
Definition GetSubMethodCall (e : t) : res (ObjectReference * string * list Value) :=
  match e with SubMethodCall _ c m ps => Ok (c, m, ps) | _ => Fatal end.
Definition GetSubMethodReturn (e : t) : res Value :=
  match e with SubMethodReturn v => Ok v | _ => Fatal end.
Definition GetSelfMethodCall (e : t) : res (string * list Value) :=
  match e with SelfMethodCall _ m ps => Ok (m, ps) | _ => Fatal end.
Definition GetSelfMethodReturn (e : t) : res Value :=
  match e with SelfMethodReturn _ v => Ok v | _ => Fatal end.

Definition Clone (e : t) : res t :=
  match e with
  | ObjectCreation l => Ok (ObjectCreation l)
  | BeginTransaction => Ok BeginTransaction
  | EndTransaction => Ok EndTransaction
  | MethodCall m ps => NewMethodCall m ps
  | MethodReturn n v => Ok (MethodReturn n v)
  | SubMethodCall n c m ps => NewSubMethodCall n c m ps
  | SubMethodReturn v => Ok (SubMethodReturn v)
  | SelfMethodCall n m ps => NewSelfMethodCall n m ps
  | SelfMethodReturn n v => Ok (SelfMethodReturn n v)
  end.

Definition GetTypeString (event_type : Type_) : string :=
  match event_type with
  | OBJECT_CREATION => "OBJECT_CREATION"
  | BEGIN_TRANSACTION => "BEGIN_TRANSACTION"
  | END_TRANSACTION => "END_TRANSACTION"
  | METHOD_CALL => "METHOD_CALL"
  | METHOD_RETURN => "METHOD_RETURN"
  | SUB_METHOD_CALL => "SUB_METHOD_CALL"
  | SUB_METHOD_RETURN => "SUB_METHOD_RETURN"
  | SELF_METHOD_CALL => "SELF_METHOD_CALL"
  | SELF_METHOD_RETURN => "SELF_METHOD_RETURN"
  end.

(** Every event that exists went through a constructor. *)
Definition wf (e : t) : Prop :=
  match e with
  | MethodCall m _ | SubMethodCall _ _ m _ | SelfMethodCall _ m _ => m ≠ ""
  | _ => True
  end.

Lemma clone_event e : wf e → Clone e = Ok e.
Proof.
  destruct e; simpl; unfold NewMethodCall, NewSubMethodCall, NewSelfMethodCall;
    intros; try done; by rewrite bool_decide_false.
Qed.
End CommittedEvent.

(** ** [SharedObjectTransaction] *)
Module SharedObjectTransaction.
Record t := { events : list CommittedEvent.t; origin_peer : CanonicalPeer }.

#[global] Instance t_eq_dec : EqDecision t.
Proof. solve_decision. Defined.

(** The constructor that clones the events it is given. *)
Definition New (events : list CommittedEvent.t) (origin_peer : CanonicalPeer) : res t :=
  es ← mapR CommittedEvent.Clone events;
  Ok {| events := es; origin_peer := origin_peer |}.

Definition NewEmpty (origin_peer : CanonicalPeer) : t :=
  {| events := []; origin_peer := origin_peer |}.

Definition AddEvent (event : CommittedEvent.t) (s : t) : t :=
  {| events := events s ++ [event]; origin_peer := origin_peer s |}.

Definition Clone (s : t) : res t := New (events s) (origin_peer s).

Definition wf (s : t) : Prop := Forall CommittedEvent.wf (events s).

Lemma New_wf es p : Forall CommittedEvent.wf es → New es p = Ok {| events := es; origin_peer := p |}.
Proof.
  intros H. unfold New.
  assert (mapR CommittedEvent.Clone es = Ok es) as ->; [|done].
  induction H as [|e es He Hes IH]; simpl; [done|].
  by rewrite CommittedEvent.clone_event, IH.
Qed.

Lemma New_Ok es p s : New es p = Ok s → s = {| events := es; origin_peer := p |}.
Proof.
  unfold New. intros Hn. apply bind_Ok in Hn as (es' & Hes & [= <-]). f_equal.
  revert es' Hes. induction es as [|e es IH]; simpl; intros es' Hes; [by injection Hes as <-|].
  apply bind_Ok in Hes as (e' & He & Hes). apply bind_Ok in Hes as (es1 & Hes & [= <-]).
  f_equal; [|by apply IH].
  destruct e; simpl in He;
    unfold CommittedEvent.NewMethodCall, CommittedEvent.NewSubMethodCall,
      CommittedEvent.NewSelfMethodCall in He; res_inv; done.
Qed.

Lemma clone_transaction s : wf s → Clone s = Ok s.
Proof. intros H. unfold Clone. rewrite New_wf by done. by destruct s. Qed.
End SharedObjectTransaction.

(** ** [EventProto] *)
Module EventProto.
Inductive Type_ :=
| UNKNOWN | OBJECT_CREATION | BEGIN_TRANSACTION | END_TRANSACTION | METHOD_CALL
| METHOD_RETURN | SUB_METHOD_CALL | SUB_METHOD_RETURN | SELF_METHOD_CALL
| SELF_METHOD_RETURN.

#[global] Instance Type_eq_dec : EqDecision Type_.
Proof. solve_decision. Defined.

Record ObjectCreationEventProto := {
  oc_data : string; oc_referenced_object_id : list Uuid }.
Record MethodCallEventProto := {
  mc_method_name : string; mc_parameter : list ValueProto.t }.
Record SubMethodCallEventProto := {
  sub_method_name : string; sub_parameter : list ValueProto.t;
  sub_callee_object_id : Uuid }.

#[global] Instance oc_eq_dec : EqDecision ObjectCreationEventProto.
Proof. solve_decision. Defined.
#[global] Instance mc_eq_dec : EqDecision MethodCallEventProto.
Proof. solve_decision. Defined.
#[global] Instance sub_eq_dec : EqDecision SubMethodCallEventProto.
Proof. solve_decision. Defined.

(** The required fields of the sub-messages are plain fields: a message that
    lacks one does not parse. *)
Record t := {
  object_creation : option ObjectCreationEventProto;
  begin_transaction : option unit;
  end_transaction : option unit;
  method_call : option MethodCallEventProto;
  method_return : option ValueProto.t;
  sub_method_call : option SubMethodCallEventProto;
  sub_method_return : option ValueProto.t;
  self_method_call : option MethodCallEventProto;
  self_method_return : option ValueProto.t;
  new_object_id : list Uuid;
}.

#[global] Instance t_eq_dec : EqDecision t.
Proof. solve_decision. Defined.

Definition empty : t := Build_t None None None None None None None None None [].

Definition fields (e : t) : list (bool * Type_) :=
  [(bool_decide (is_Some (object_creation e)), OBJECT_CREATION);
   (bool_decide (is_Some (begin_transaction e)), BEGIN_TRANSACTION);
   (bool_decide (is_Some (end_transaction e)), END_TRANSACTION);
   (bool_decide (is_Some (method_call e)), METHOD_CALL);
   (bool_decide (is_Some (method_return e)), METHOD_RETURN);
   (bool_decide (is_Some (sub_method_call e)), SUB_METHOD_CALL);
   (bool_decide (is_Some (sub_method_return e)), SUB_METHOD_RETURN);
   (bool_decide (is_Some (self_method_call e)), SELF_METHOD_CALL);
   (bool_decide (is_Some (self_method_return e)), SELF_METHOD_RETURN)].

Definition GetEventProtoType (e : t) : res Type_ := GetFieldType UNKNOWN (fields e).
End EventProto.

(** ** [PeerMessage] *)
Module PeerMessage.
Inductive Type_ :=
| UNKNOWN | HELLO | GOODBYE | APPLY_TRANSACTION | GET_OBJECT | STORE_OBJECT
| REJECT_TRANSACTION | INVALIDATE_TRANSACTIONS | TEST.

#[global] Instance Type_eq_dec : EqDecision Type_.
Proof. solve_decision. Defined.

Record ObjectTransactionProto := {
  ot_object_id : Uuid; ot_event : list EventProto.t }.
Record TransactionProto := {
  tp_transaction_id : TransactionId; tp_event : list EventProto.t;
  tp_origin_peer_id : string }.
Record PeerVersion := { pv_peer_id : string; pv_last_transaction_id : TransactionId }.
Record RejectedPeerProto := {
  rp_rejected_peer_id : string; rp_rejected_transaction_id : TransactionId }.
Record HelloMessage := { hello_peer_id : string; hello_interpreter_type : string }.
Record ApplyTransactionMessage := {
  at_transaction_id : TransactionId;
  at_object_transaction : list ObjectTransactionProto }.
Record GetObjectMessage := { go_object_id : Uuid }.
Record StoreObjectMessage := {
  so_object_id : Uuid;
  so_transaction : list TransactionProto;
  so_peer_version : list PeerVersion;
  so_interested_peer_id : list string }.
Record RejectTransactionMessage := {
  rt_rejected_peer : list RejectedPeerProto;
  rt_new_transaction_id : TransactionId }.
Record InvalidateTransactionsMessage := {
  it_start_transaction_id : TransactionId;
  it_end_transaction_id : TransactionId }.

Record t := {
  hello_message : option HelloMessage;
  goodbye_message : option unit;
  apply_transaction_message : option ApplyTransactionMessage;
  get_object_message : option GetObjectMessage;
  store_object_message : option StoreObjectMessage;
  reject_transaction_message : option RejectTransactionMessage;
  invalidate_transactions_message : option InvalidateTransactionsMessage;
  test_message : option string;
}.

(** The messages the engine builds: one field set. *)
Definition empty : t := Build_t None None None None None None None None.
Definition Hello m : t := Build_t (Some m) None None None None None None None.
Definition Goodbye : t := Build_t None (Some tt) None None None None None None.
Definition ApplyTransaction m : t := Build_t None None (Some m) None None None None None.
Definition GetObject m : t := Build_t None None None (Some m) None None None None.
Definition StoreObject m : t := Build_t None None None None (Some m) None None None.
Definition RejectTransaction m : t := Build_t None None None None None (Some m) None None.
Definition InvalidateTransactions m : t := Build_t None None None None None None (Some m) None.

Definition fields (m : t) : list (bool * Type_) :=
  [(bool_decide (is_Some (hello_message m)), HELLO);
   (bool_decide (is_Some (goodbye_message m)), GOODBYE);
   (bool_decide (is_Some (apply_transaction_message m)), APPLY_TRANSACTION);
   (bool_decide (is_Some (get_object_message m)), GET_OBJECT);
   (bool_decide (is_Some (store_object_message m)), STORE_OBJECT);
   (bool_decide (is_Some (reject_transaction_message m)), REJECT_TRANSACTION);
   (bool_decide (is_Some (invalidate_transactions_message m)), INVALIDATE_TRANSACTIONS);
   (bool_decide (is_Some (test_message m)), TEST)].

Definition GetPeerMessageType (m : t) : res Type_ := GetFieldType UNKNOWN (fields m).

(** [GetPeerMessageType] names a type exactly when that type's
    field is the only one set; on a message with no field or with several it
    ends the process, whatever the remote peer sent. *)
Theorem peer_message_type_spec m :
  (∀ ty, GetPeerMessageType m = Ok ty ↔ set_fields (fields m) = [ty]) ∧
  (length (set_fields (fields m)) ≠ 1 → GetPeerMessageType m = Fatal).
Proof.
  assert (Hspec : ∀ ty, GetPeerMessageType m = Ok ty ↔ set_fields (fields m) = [ty]).
  { intros ty. apply get_field_type_spec. intros f Hf. unfold fields in Hf.
    rewrite !elem_of_cons, elem_of_nil in Hf. naive_solver. }
  split; [done|]. intros Hlen.
  pose proof (get_field_type_defined UNKNOWN (fields m)) as Hd.
  unfold GetPeerMessageType in *. destruct (GetFieldType _ _) as [ty| |] eqn:E; [|done|done].
  assert (set_fields (fields m) = [ty]) as Hs by (by apply Hspec).
  by rewrite Hs in Hlen.
Qed.
End PeerMessage.
