(* ===== verification/TransactionSequencer.v ===== *)
(** [engine/transaction_sequencer.{h,cc}]: outgoing messages that belong to a
    transaction leave the peer in the order of the transactions, whatever the
    order in which the threads that commit them finish.

    The peer message sender ([engine/peer_message_sender.h]) is the log of the
    calls made on it; the transaction id generator is an interface,
    [IdSource], which [TransactionIdGenerator] implements. *)
From stdpp Require Import base tactics list sorting strings sets.
From Stdlib Require Import ZArith Lia.
From S2P Require Import Prelude StdMap Ids VersionMap Values Events.

Inductive SendMode := NON_BLOCKING_MODE | BLOCKING_MODE.

(** ** What the sequencer needs of the generator *)
Class IdSource (G : Type) := {
  (** one call of [Generate], the clock reading [ts] *)
  generate : timespec → G → TransactionId * G;
  (** [issued g t]: [t] is below everything [g] will return *)
  issued : G → TransactionId → Prop;
  (** the generator has not reached its limit *)
  usable : G → Prop;
}.

Class IdSourceLaws (G : Type) `{IdSource G} : Prop := {
  generate_above ts g t g' :
    usable g → generate ts g = (t, g') →
    (∀ u, issued g u → u ≺ t) ∧ (∀ u, issued g u → issued g' u) ∧ issued g' t;
}.

#[export] Instance TransactionIdGenerator_source : IdSource TransactionIdGenerator := {
  generate := Generate;
  issued g t := (tid_a t ≤ last_time_value_ g)%Z;
  usable g := (0 ≤ last_time_value_ g < kUint64Max)%Z;
}.

#[export] Instance TransactionIdGenerator_laws : IdSourceLaws TransactionIdGenerator.
Proof.
  split. intros ts g t g' Hu Hg.
  apply Generate_increases in Hg as (H1 & H2 & _ & _); [|done]. simpl.
  split_and!; [|lia|lia]. intros u Hut. apply tid_ltb_iff. lia.
Qed.

(** ** The component *)
Inductive OutgoingType := UNICAST | BROADCAST.

Record OutgoingMessage := {
  om_type : OutgoingType;
  om_remote_peer : option CanonicalPeer;
  om_peer_message : PeerMessage.t;
  om_send_mode : SendMode;
}.

Record Transaction := { outgoing_messages : list OutgoingMessage; done : bool }.

(** The calls made on [peer_message_sender_]. *)
Inductive sender_call :=
| SendMessageToRemotePeer_call (canonical_peer : CanonicalPeer) (m : PeerMessage.t)
    (send_mode : SendMode)
| BroadcastMessage_call (m : PeerMessage.t) (send_mode : SendMode).

Module Sequencer.
Section sequencer.
Context {G : Type} `{IdSource G}.

Record t := {
  transaction_id_generator_ : G;
  transactions_ : omap TransactionId Transaction;
  sender : list sender_call;
}.

Definition New (g : G) : t :=
  {| transaction_id_generator_ := g; transactions_ := []; sender := [] |}.

Definition ReserveTransaction (ts : timespec) (st : t) : res (TransactionId * t) :=
  let '(transaction_id, g) := generate ts (transaction_id_generator_ st) in
  match last (transactions_ st) with
  | None => Ok tt
  | Some rbegin => CHECK (ltb rbegin.1 transaction_id)
  end;;
  let '(m, _, inserted) :=
    map_emplace transaction_id {| outgoing_messages := []; done := false |}
      (transactions_ st) in
  CHECK inserted;;
  Ok (transaction_id,
      {| transaction_id_generator_ := g; transactions_ := m; sender := sender st |}).

Definition SendOutgoingMessage (log : list sender_call) (om : OutgoingMessage)
    : res (list sender_call) :=
  match om_type om with
  | UNICAST =>
      remote_peer ← check_some (om_remote_peer om);
      Ok (log ++ [SendMessageToRemotePeer_call remote_peer (om_peer_message om)
                    (om_send_mode om)])
  | BROADCAST =>
      CHECK (bool_decide (om_remote_peer om = None));;
      Ok (log ++ [BroadcastMessage_call (om_peer_message om) (om_send_mode om)])
  end.

(** The loop erases the first entry and starts again. *)
Fixpoint flush_loop (m : omap TransactionId Transaction) (log : list sender_call)
    : res (omap TransactionId Transaction * list sender_call) :=
  match m with
  | [] => Ok ([], log)
  | (transaction_id, transaction) :: rest =>
      log ← foldM SendOutgoingMessage log (outgoing_messages transaction);
      if negb (done transaction) then Ok ((transaction_id, transaction) :: rest, log)
      else flush_loop rest log
  end.

Definition FlushMessages_Locked (st : t) : res t :=
  '(m, log) ← flush_loop (transactions_ st) (sender st);
  Ok {| transaction_id_generator_ := transaction_id_generator_ st;
        transactions_ := m; sender := log |}.

Definition set_transactions (m : omap TransactionId Transaction) (st : t) : t :=
  {| transaction_id_generator_ := transaction_id_generator_ st;
     transactions_ := m; sender := sender st |}.

Definition ReleaseTransaction (transaction_id : TransactionId) (st : t) : res t :=
  transaction ← check_some (map_find transaction_id (transactions_ st));
  CHECK (negb (done transaction));;
  FlushMessages_Locked
    (set_transactions
       (map_put transaction_id
          {| outgoing_messages := outgoing_messages transaction; done := true |}
          (transactions_ st)) st).

Definition ExtractTransactionIdFromPeerMessage (m : PeerMessage.t)
    : res (option TransactionId) :=
  type ← PeerMessage.GetPeerMessageType m;
  match type with
  | PeerMessage.APPLY_TRANSACTION =>
      Ok (PeerMessage.at_transaction_id <$> PeerMessage.apply_transaction_message m)
  | PeerMessage.REJECT_TRANSACTION =>
      Ok (PeerMessage.rt_new_transaction_id <$> PeerMessage.reject_transaction_message m)
  | PeerMessage.INVALIDATE_TRANSACTIONS =>
      Ok (PeerMessage.it_end_transaction_id <$>
            PeerMessage.invalidate_transactions_message m)
  | _ => Ok None
  end.

Definition QueueOutgoingMessage (om : OutgoingMessage) (st : t) : res t :=
  transaction_id ← ExtractTransactionIdFromPeerMessage (om_peer_message om);
  match transaction_id with
  | None =>
      log ← SendOutgoingMessage (sender st) om;
      Ok {| transaction_id_generator_ := transaction_id_generator_ st;
            transactions_ := transactions_ st; sender := log |}
  | Some transaction_id =>
      transaction ← check_some (map_find transaction_id (transactions_ st));
      FlushMessages_Locked
        (set_transactions
           (map_put transaction_id
              {| outgoing_messages := outgoing_messages transaction ++ [om];
                 done := done transaction |}
              (transactions_ st)) st)
  end.

Definition SendMessageToRemotePeer (canonical_peer : CanonicalPeer)
    (m : PeerMessage.t) (send_mode : SendMode) (st : t) : res t :=
  QueueOutgoingMessage {| om_type := UNICAST; om_remote_peer := Some canonical_peer;
                          om_peer_message := m; om_send_mode := send_mode |} st.

Definition BroadcastMessage (m : PeerMessage.t) (send_mode : SendMode) (st : t) : res t :=
  QueueOutgoingMessage {| om_type := BROADCAST; om_remote_peer := None;
                          om_peer_message := m; om_send_mode := send_mode |} st.

(** ** Runs *)
Inductive op :=
| OpReserve (ts : timespec)
| OpRelease (transaction_id : TransactionId)
| OpSend (canonical_peer : CanonicalPeer) (m : PeerMessage.t) (send_mode : SendMode)
| OpBroadcast (m : PeerMessage.t) (send_mode : SendMode).

Definition step (st : t) (o : op) : res t :=
  match o with
  | OpReserve ts => '(_, st') ← ReserveTransaction ts st; Ok st'
  | OpRelease tid => ReleaseTransaction tid st
  | OpSend p m mode => SendMessageToRemotePeer p m mode st
  | OpBroadcast m mode => BroadcastMessage m mode st
  end.

Definition run (st : t) (ops : list op) : res t := foldM step st ops.

(** The states a sequencer reaches, with the operations that led there.  The
    generator is not used past its limit. *)
Inductive reachable (g : G) : list op → t → Prop :=
| reachable_new : reachable g [] (New g)
| reachable_step ops st o st' :
    reachable g ops st →
    (∀ ts, o = OpReserve ts → usable (transaction_id_generator_ st)) →
    step st o = Ok st' →
    reachable g (ops ++ [o]) st'.

(** ** Specification vocabulary *)
Definition call_of (om : OutgoingMessage) : option sender_call :=
  match om_type om, om_remote_peer om with
  | UNICAST, Some p => Some (SendMessageToRemotePeer_call p (om_peer_message om) (om_send_mode om))
  | BROADCAST, None => Some (BroadcastMessage_call (om_peer_message om) (om_send_mode om))
  | _, _ => None
  end.

Definition call_message (c : sender_call) : PeerMessage.t :=
  match c with SendMessageToRemotePeer_call _ m _ | BroadcastMessage_call m _ => m end.

(** The transaction a sent message belongs to. *)
Definition call_tid (c : sender_call) : option TransactionId :=
  match ExtractTransactionIdFromPeerMessage (call_message c) with
  | Ok o => o | _ => None
  end.

Definition log_ids (log : list sender_call) : list TransactionId := base.omap call_tid log.

Definition entry_ok (p : TransactionId * Transaction) : Prop :=
  ∀ om, om ∈ outgoing_messages p.2 →
    is_Some (call_of om) ∧
    ExtractTransactionIdFromPeerMessage (om_peer_message om) = Ok (Some p.1).

Record log_inv (log : list sender_call) (m : omap TransactionId Transaction) : Prop := {
  log_sorted : StronglySorted (fun x y : TransactionId => x ⪯ y) (log_ids log);
  log_below u p : u ∈ log_ids log → p ∈ m → u ⪯ p.1;
}.

Definition head_pending (m : omap TransactionId Transaction) : Prop :=
  match m with (_, tr) :: _ => done tr = false | [] => True end.

Record inv (st : t) : Prop := {
  inv_wf : map_wf (transactions_ st);
  inv_entries : Forall entry_ok (transactions_ st);
  inv_log : log_inv (sender st) (transactions_ st);
  inv_issued_log u : u ∈ log_ids (sender st) → issued (transaction_id_generator_ st) u;
  inv_issued p : p ∈ transactions_ st → issued (transaction_id_generator_ st) p.1;
  inv_head : head_pending (transactions_ st);
}.

(** Messages of [m] that may not have been sent yet. *)
Definition pending_calls (m : omap TransactionId Transaction) : list sender_call :=
  p ← m; base.omap call_of (outgoing_messages p.2).

(** ** Sending *)
Lemma send_ok log om c :
  call_of om = Some c → SendOutgoingMessage log om = Ok (log ++ [c]).
Proof.
  unfold call_of, SendOutgoingMessage.
  destruct (om_type om), (om_remote_peer om); simpl; intros [= <-]; done.
Qed.

Lemma send_all_ok log oms :
  Forall (fun om => is_Some (call_of om)) oms →
  foldM SendOutgoingMessage log oms = Ok (log ++ base.omap call_of oms).
Proof.
  intros Homs. revert log. induction Homs as [|om oms [c Hc] _ IH]; intros log; simpl.
  - by rewrite app_nil_r.
  - rewrite (send_ok _ _ _ Hc). simpl. rewrite IH, Hc. by rewrite <- app_assoc.
Qed.

Lemma call_of_message om c : call_of om = Some c → call_message c = om_peer_message om.
Proof.
  unfold call_of. destruct (om_type om), (om_remote_peer om); simpl; intros [= <-]; done.
Qed.

Lemma entry_calls_tid p c :
  entry_ok p → c ∈ base.omap call_of (outgoing_messages p.2) → call_tid c = Some p.1.
Proof.
  intros Hp Hc. apply list_elem_of_omap in Hc as (om & Hom & Hc).
  destruct (Hp om Hom) as [_ Hx]. unfold call_tid.
  by rewrite (call_of_message _ _ Hc), Hx.
Qed.

Lemma entry_log_ids p :
  entry_ok p → Forall (eq p.1) (log_ids (base.omap call_of (outgoing_messages p.2))).
Proof.
  intros Hp. apply Forall_forall. intros u Hu.
  apply list_elem_of_omap in Hu as (c & Hc & Hu).
  rewrite (entry_calls_tid _ _ Hp Hc) in Hu. congruence.
Qed.

Lemma log_inv_send log p m :
  entry_ok p → map_wf (p :: m) → log_inv log (p :: m) →
  log_inv (log ++ base.omap call_of (outgoing_messages p.2)) (p :: m).
Proof.
  intros Hp Hwf [Hs Hb]. destruct p as [k tr]. apply map_wf_cons in Hwf as [_ Hlt].
  pose proof (entry_log_ids _ Hp) as Hids. rewrite Forall_forall in Hids. simpl in Hids.
  split; unfold log_ids in *.
  - rewrite omap_app. apply StronglySorted_app. split_and!; [|done|].
    + intros u v Hu Hv. rewrite <- (Hids v Hv). apply (Hb u (k, tr)); [done|left].
    + simpl. clear -Hids. induction (base.omap call_tid _) as [|x l IH]; constructor.
      * apply IH. intros y Hy. apply Hids. by right.
      * apply Forall_forall. intros y Hy. rewrite <- (Hids x), <- (Hids y); [apply ltb_irrefl|by right|left].
  - intros u q. rewrite omap_app, elem_of_app. intros [Hu|Hu] Hq; [by apply Hb|].
    rewrite <- (Hids u Hu). apply elem_of_cons in Hq as [->|Hq]; [apply ltb_irrefl|].
    rewrite Forall_forall in Hlt. apply ord_lt_le. by apply Hlt.
Qed.

(** A flush sends the leading released transactions and the messages so far
    of the first one that is not released, and keeps the rest. *)
Lemma flush_loop_spec m log :
  map_wf m → Forall entry_ok m → log_inv log m →
  ∃ m1 m2 new, flush_loop m log = Ok (m2, log ++ new) ∧ m = m1 ++ m2 ∧
    log_inv (log ++ new) m2 ∧ head_pending m2 ∧
    Forall (fun p => done p.2 = true) m1 ∧
    new = pending_calls m1 ++ pending_calls (take 1 m2).
Proof.
  revert log. induction m as [|[k tr] m IH]; intros log Hwf He Hl; simpl.
  { exists [], [], []. rewrite app_nil_r. split_and!; done. }
  apply Forall_cons in He as [Hp He].
  rewrite send_all_ok by (apply Forall_forall; intros om Hom; by apply Hp). simpl.
  pose proof (log_inv_send log (k, tr) m Hp Hwf Hl) as Hl'. simpl in Hl'.
  destruct (done tr) eqn:Hd; simpl.
  - apply map_wf_cons in Hwf as [Hwf _].
    destruct (IH (log ++ base.omap call_of (outgoing_messages tr)))
      as (m1 & m2 & new & Hf & -> & H1 & H2 & H3 & ->); [done|done| |].
    { destruct Hl' as [Hs Hb]. split; [done|]. intros u p Hu Hpm.
      apply Hb; [done|by right]. }
    exists ((k, tr) :: m1), m2, (base.omap call_of (outgoing_messages tr) ++
      pending_calls m1 ++ pending_calls (take 1 m2)).
    rewrite app_assoc. split_and!; [done|done|done|done|by constructor|].
    unfold pending_calls at 3. simpl. by rewrite <- app_assoc.
  - exists [], ((k, tr) :: m), (base.omap call_of (outgoing_messages tr)).
    split_and!; [done|done|done|done|by constructor|].
    unfold pending_calls. simpl. by rewrite ?app_nil_r.
Qed.

Lemma pending_calls_app m1 m2 :
  pending_calls (m1 ++ m2) = pending_calls m1 ++ pending_calls m2.
Proof. unfold pending_calls. by rewrite bind_app. Qed.

Lemma pending_calls_tid m c :
  Forall entry_ok m → c ∈ pending_calls m → ∃ p, p ∈ m ∧ call_tid c = Some p.1.
Proof.
  intros He Hc. unfold pending_calls in Hc. apply list_elem_of_bind in Hc as (p & Hc & Hp).
  rewrite Forall_forall in He. exists p. split; [done|].
  apply entry_calls_tid; [by apply He|done].
Qed.

Lemma flush_spec st :
  map_wf (transactions_ st) → Forall entry_ok (transactions_ st) →
  log_inv (sender st) (transactions_ st) →
  (∀ u, u ∈ log_ids (sender st) → issued (transaction_id_generator_ st) u) →
  (∀ p, p ∈ transactions_ st → issued (transaction_id_generator_ st) p.1) →
  ∃ st', FlushMessages_Locked st = Ok st' ∧ inv st' ∧
    (∀ c, c ∈ sender st ++ pending_calls (transactions_ st) →
          c ∈ sender st' ++ pending_calls (transactions_ st')) ∧
    transaction_id_generator_ st' = transaction_id_generator_ st.
Proof.
  intros Hwf He Hl Hi1 Hi2. unfold FlushMessages_Locked.
  destruct (flush_loop_spec _ _ Hwf He Hl) as (m1 & m2 & new & -> & Hm & H1 & H2 & H3 & Hnew).
  simpl. eexists. split; [done|]. rewrite Hm in *. apply map_wf_app in Hwf as (_ & Hwf & _).
  split_and!; [split; simpl; [done| |done| | |done]| |done].
  - by apply Forall_app in He as [_ He].
  - intros u. unfold log_ids. rewrite omap_app, elem_of_app. intros [Hu|Hu]; [by apply Hi1|].
    apply list_elem_of_omap in Hu as (c & Hc & Hu). rewrite Hnew, <- pending_calls_app in Hc.
    destruct (pending_calls_tid (m1 ++ take 1 m2) c) as (p & Hp & Htid); [|done|].
    + apply Forall_app in He as [? ?]. apply Forall_app; split; [done|by apply Forall_take].
    + rewrite Htid in Hu. injection Hu as <-. apply Hi2.
      apply elem_of_app in Hp as [?|Hp]; apply elem_of_app; [by left|right].
      rewrite <- (take_drop 1 m2). apply elem_of_app. by left.
  - intros p Hp. apply Hi2. apply elem_of_app. by right.
  - simpl. intros c. rewrite pending_calls_app, Hnew. set_solver.
Qed.

(** Assigning an entry that exists, then flushing. *)
Lemma assign_flush_spec st k tr tr' :
  inv st → map_find k (transactions_ st) = Some tr → entry_ok (k, tr') →
  (∀ om, om ∈ outgoing_messages tr → om ∈ outgoing_messages tr') →
  ∃ st', FlushMessages_Locked (set_transactions (map_put k tr' (transactions_ st)) st) = Ok st' ∧
    inv st' ∧
    (∀ c, c ∈ sender st ++ pending_calls (map_put k tr' (transactions_ st)) →
          c ∈ sender st' ++ pending_calls (transactions_ st')) ∧
    (∀ c, c ∈ pending_calls (transactions_ st) →
          c ∈ pending_calls (map_put k tr' (transactions_ st))) ∧
    transaction_id_generator_ st' = transaction_id_generator_ st.
Proof.
  intros Hinv Hfind Hok Hincl. pose proof (inv_wf _ Hinv) as Hwf.
  destruct (map_find_split _ _ _ Hfind) as (m1 & m2 & Hm & Hput).
  assert (Hkeys : ∀ p, p ∈ map_put k tr' (transactions_ st) →
                  ∃ q, q ∈ transactions_ st ∧ q.1 = p.1).
  { intros p. rewrite Hput, Hm, elem_of_app, elem_of_cons. intros [?|[->|?]].
    - exists p. set_solver.
    - exists (k, tr). set_solver.
    - exists p. set_solver. }
  destruct (flush_spec (set_transactions (map_put k tr' (transactions_ st)) st))
    as (st' & Hf & Hi & Hc & Hg); simpl.
  - by apply map_put_wf.
  - pose proof (inv_entries _ Hinv) as He. rewrite Hm in He. rewrite Hput.
    apply Forall_app in He as [? He]. apply Forall_cons in He as [_ ?].
    apply Forall_app; split; [done|]. by apply Forall_cons.
  - destruct (inv_log _ Hinv) as [Hs Hb]. split; [done|]. intros u p Hu Hp.
    destruct (Hkeys p Hp) as (q & Hq & <-). by apply Hb.
  - apply (inv_issued_log _ Hinv).
  - intros p Hp. destruct (Hkeys p Hp) as (q & Hq & <-). by apply (inv_issued _ Hinv).
  - exists st'. split_and!; [done|done|done| |done].
    intros c. rewrite Hput, Hm, !pending_calls_app. unfold pending_calls. simpl.
    rewrite !elem_of_app, !list_elem_of_omap. naive_solver.
Qed.

Lemma last_lt (m : omap TransactionId Transaction) (k : TransactionId) :
  map_wf m → (∀ p, p ∈ m → p.1 ≺ k) →
  match last m with None => Ok tt | Some r => CHECK (ltb r.1 k) end = Ok tt.
Proof.
  intros Hwf Hlt. destruct (last m) as [r|] eqn:E; [|done].
  rewrite (Hlt r); [done|]. by apply last_Some_elem_of.
Qed.

Lemma reserve_spec ts st `{!IdSourceLaws G} :
  inv st → usable (transaction_id_generator_ st) →
  ∃ k st', ReserveTransaction ts st = Ok (k, st') ∧ inv st' ∧
    sender st' = sender st ∧
    transactions_ st' =
      transactions_ st ++ [(k, {| outgoing_messages := []; done := false |})] ∧
    (∀ u, issued (transaction_id_generator_ st) u →
          u ≺ k ∧ issued (transaction_id_generator_ st') u).
Proof.
  intros Hinv Hu. unfold ReserveTransaction.
  destruct (generate ts (transaction_id_generator_ st)) as [k g'] eqn:Hg.
  destruct (generate_above _ _ _ _ Hu Hg) as (Hlt & Hmono & Hk).
  assert (Hall : ∀ p, p ∈ transactions_ st → p.1 ≺ k)
    by (intros p Hp; by apply Hlt, (inv_issued _ Hinv)).
  rewrite last_lt by (done || apply (inv_wf _ Hinv)). simpl. unfold map_emplace.
  assert (Hnone : map_find k (transactions_ st) = None).
  { apply map_find_None; [apply (inv_wf _ Hinv)|]. intros (p & -> & Hp)%list_elem_of_fmap.
    specialize (Hall p Hp). by rewrite ltb_irrefl in Hall. }
  rewrite Hnone. simpl. rewrite map_put_last by (by apply Forall_forall).
  do 2 eexists. split; [done|]. split_and!; [|done|done|by auto].
  split; simpl.
  - apply map_wf_app. split_and!; [apply (inv_wf _ Hinv)|by repeat constructor|].
    intros p q Hp ->%list_elem_of_singleton. by apply Hall.
  - apply Forall_app; split; [apply (inv_entries _ Hinv)|].
    repeat constructor; by apply not_elem_of_nil in H0.
  - destruct (inv_log _ Hinv) as [Hs Hb]. split; [done|]. intros u p Hul Hp.
    apply elem_of_snoc in Hp as [Hp| ->]; [by apply Hb|].
    apply ord_lt_le, Hlt. by apply (inv_issued_log _ Hinv).
  - intros u Hul. apply Hmono. by apply (inv_issued_log _ Hinv).
  - intros p Hp. apply elem_of_snoc in Hp as [Hp| ->]; [|done].
    apply Hmono. by apply (inv_issued _ Hinv).
  - pose proof (inv_head _ Hinv) as Hh. by destruct (transactions_ st) as [|[]].
Qed.

(** ** One operation *)

(** What a caller must respect: release a transaction that is reserved and not
    yet released, attach a message to a transaction that is still reserved. *)
Definition enabled (st : t) (o : op) : Prop :=
  match o with
  | OpReserve _ => usable (transaction_id_generator_ st)
  | OpRelease k => ∃ tr, map_find k (transactions_ st) = Some tr ∧ done tr = false
  | OpSend _ m _ | OpBroadcast m _ =>
      ∃ tid, ExtractTransactionIdFromPeerMessage m = Ok tid ∧
        ∀ k, tid = Some k → is_Some (map_find k (transactions_ st))
  end.

Definition op_call (o : op) : option sender_call :=
  match o with
  | OpSend p m mode => Some (SendMessageToRemotePeer_call p m mode)
  | OpBroadcast m mode => Some (BroadcastMessage_call m mode)
  | _ => None
  end.

(** Sent or waiting to be sent. *)
Definition known_calls (st : t) : list sender_call :=
  sender st ++ pending_calls (transactions_ st).

Lemma queue_spec st om c :
  inv st → call_of om = Some c →
  (∃ tid, ExtractTransactionIdFromPeerMessage (om_peer_message om) = Ok tid ∧
     ∀ k, tid = Some k → is_Some (map_find k (transactions_ st))) →
  ∃ st', QueueOutgoingMessage om st = Ok st' ∧ inv st' ∧
    (∀ c', c' ∈ known_calls st → c' ∈ known_calls st') ∧ c ∈ known_calls st'.
Proof.
  intros Hinv Hc (tid & Hx & Hk). unfold QueueOutgoingMessage. rewrite Hx. simpl.
  destruct tid as [k|].
  - destruct (Hk k eq_refl) as [tr Htr]. rewrite Htr. simpl.
    destruct (assign_flush_spec st k tr
      {| outgoing_messages := outgoing_messages tr ++ [om]; done := done tr |})
      as (st' & -> & Hi & Hc1 & Hc2 & _); [done|done| |set_solver|].
    { intros om'. simpl. rewrite elem_of_snoc. intros [Hom| ->]; [|by eauto].
      pose proof (inv_entries _ Hinv) as He. rewrite Forall_forall in He.
      apply map_find_Some in Htr; [|apply (inv_wf _ Hinv)]. by apply (He _ Htr). }
    exists st'. split_and!; [done|done| |]; unfold known_calls in *.
    + intros c'. rewrite elem_of_app. intros [?|?]; apply Hc1, elem_of_app; auto.
    + apply Hc1, elem_of_app. right.
      destruct (map_find_split _ _ _ Htr) as (m1 & m2 & _ & ->).
      rewrite pending_calls_app. unfold pending_calls. simpl. rewrite omap_app. simpl.
      rewrite Hc. set_solver.
  - rewrite (send_ok _ _ _ Hc). simpl. eexists. split; [done|].
    assert (Hids : log_ids (sender st ++ [c]) = log_ids (sender st)).
    { unfold log_ids. rewrite omap_app. simpl. unfold call_tid.
      rewrite (call_of_message _ _ Hc), Hx. by rewrite app_nil_r. }
    split_and!; unfold known_calls; simpl; [|set_solver|set_solver].
    destruct Hinv as [? ? [Hls Hlb] ? ? ?]. split; simpl; try done.
    + split; rewrite Hids; done.
    + by rewrite Hids.
Qed.

Lemma step_spec st o `{!IdSourceLaws G} :
  inv st → enabled st o →
  ∃ st', step st o = Ok st' ∧ inv st' ∧
    (∀ c, c ∈ known_calls st → c ∈ known_calls st') ∧
    (∀ c, op_call o = Some c → c ∈ known_calls st').
Proof.
  intros Hinv Hen. destruct o as [ts|k|p m mode|m mode]; simpl in *.
  - destruct (reserve_spec ts st Hinv Hen) as (k & st' & -> & Hi & Hs & Ht & _). simpl.
    exists st'. split_and!; [done|done| |done]. intros c.
    unfold known_calls. rewrite Hs, Ht, pending_calls_app. unfold pending_calls at 3. simpl.
    by rewrite app_nil_r.
  - destruct Hen as (tr & Htr & Hd). unfold ReleaseTransaction. rewrite Htr. simpl.
    rewrite Hd. simpl.
    destruct (assign_flush_spec st k tr
      {| outgoing_messages := outgoing_messages tr; done := true |})
      as (st' & -> & Hi & Hc1 & Hc2 & _); [done|done| |done|].
    { pose proof (inv_entries _ Hinv) as He. rewrite Forall_forall in He.
      apply map_find_Some in Htr; [|apply (inv_wf _ Hinv)]. by apply (He _ Htr). }
    exists st'. split_and!; [done|done| |done]. unfold known_calls in *.
    intros c'. rewrite elem_of_app. intros [?|?]; apply Hc1, elem_of_app; auto.
  - destruct (queue_spec st {| om_type := UNICAST; om_remote_peer := Some p;
      om_peer_message := m; om_send_mode := mode |} _ Hinv eq_refl Hen)
      as (st' & Hq & Hi & H1 & H2).
    exists st'. split_and!; [exact Hq|done|done|]. by intros c [= <-].
  - destruct (queue_spec st {| om_type := BROADCAST; om_remote_peer := None;
      om_peer_message := m; om_send_mode := mode |} _ Hinv eq_refl Hen)
      as (st' & Hq & Hi & H1 & H2).
    exists st'. split_and!; [exact Hq|done|done|]. by intros c [= <-].
Qed.

Lemma step_enabled st o st' :
  (∀ ts, o = OpReserve ts → usable (transaction_id_generator_ st)) →
  step st o = Ok st' → enabled st o.
Proof.
  intros Hu Hs. destruct o as [ts|k|p m mode|m mode]; simpl in *; [by eapply Hu| | |].
  - unfold ReleaseTransaction in Hs. res_inv. exists a. by destruct (done a).
  - unfold SendMessageToRemotePeer, QueueOutgoingMessage in Hs. simpl in Hs.
    apply bind_Ok in Hs as (tid & Hx & Hs). exists tid. split; [done|]. intros k ->.
    simpl in Hs. res_inv. by eexists.
  - unfold BroadcastMessage, QueueOutgoingMessage in Hs. simpl in Hs.
    apply bind_Ok in Hs as (tid & Hx & Hs). exists tid. split; [done|]. intros k ->.
    simpl in Hs. res_inv. by eexists.
Qed.

Lemma inv_new g : inv (New g).
Proof.
  split; simpl; [apply map_wf_nil|constructor| | | |done].
  - split; [constructor|]. by intros u p ?%elem_of_nil.
  - by intros u ?%elem_of_nil.
  - by intros p ?%elem_of_nil.
Qed.

Lemma reachable_inv g ops st `{!IdSourceLaws G} :
  reachable g ops st →
  inv st ∧ ∀ o c, o ∈ ops → op_call o = Some c → c ∈ known_calls st.
Proof.
  induction 1 as [|ops st o st' Hr [IH1 IH2] Hu Hs].
  - split; [apply inv_new|]. by intros o c ?%elem_of_nil.
  - destruct (step_spec st o IH1 (step_enabled _ _ _ Hu Hs)) as (st1 & Hs1 & Hi & H1 & H2).
    rewrite Hs1 in Hs. injection Hs as ->. split; [done|].
    intros o' c [Ho| ->]%elem_of_snoc Hc; [by eapply H1, IH2|by apply H2].
Qed.

(** ** Released transactions *)
Lemma flush_suffix st st' :
  FlushMessages_Locked st = Ok st' →
  (∃ m1, transactions_ st = m1 ++ transactions_ st') ∧
  transaction_id_generator_ st' = transaction_id_generator_ st.
Proof.
  unfold FlushMessages_Locked. intros H1. apply bind_Ok in H1 as ([m log] & H1 & [= <-]).
  simpl. split; [|done]. revert H1. generalize (sender st).
  induction (transactions_ st) as [|[k tr] l IH]; simpl; intros log0 H1.
  - injection H1 as <- <-. by exists [].
  - apply bind_Ok in H1 as (log1 & _ & H1). destruct (done tr); simpl in H1.
    + destruct (IH _ H1) as [m1 ->]. by exists ((k, tr) :: m1).
    + injection H1 as <- <-. by exists [].
Qed.

(** A released transaction that is still there is marked as done. *)
Definition released_inv (ops : list op) (st : t) : Prop :=
  ∀ k, OpRelease k ∈ ops →
    issued (transaction_id_generator_ st) k ∧
    ∀ tr, (k, tr) ∈ transactions_ st → done tr = true.

Lemma assign_released ops st k tr tr' st' o :
  inv st → released_inv ops st → map_find k (transactions_ st) = Some tr →
  (done tr = true → done tr' = true) → (o = OpRelease k → done tr' = true) →
  (∀ k', o = OpRelease k' → k' = k) →
  FlushMessages_Locked (set_transactions (map_put k tr' (transactions_ st)) st) = Ok st' →
  released_inv (ops ++ [o]) st'.
Proof.
  intros Hinv Hrel Hfind Hd Ho Hk Hf. apply flush_suffix in Hf as [[m1 Hm] Hg].
  simpl in Hm, Hg. intros k' Hk'. rewrite Hg.
  destruct (map_find_split _ _ _ Hfind) as (l1 & l2 & Hl & Hput).
  assert (Hin : ∀ u v, (u, v) ∈ transactions_ st' → (u, v) ∈ transactions_ st ∨ (u = k ∧ v = tr')).
  { intros u v Huv. assert (Huv' : (u, v) ∈ m1 ++ transactions_ st') by set_solver.
    rewrite <- Hm, Hput in Huv'. rewrite Hl. set_solver. }
  apply map_find_Some in Hfind as Hin'; [|apply (inv_wf _ Hinv)].
  apply elem_of_snoc in Hk' as [Hk'|Hk'].
  - destruct (Hrel _ Hk') as [Hi Hdone]. split; [done|]. intros v Hv.
    destruct (Hin _ _ Hv) as [?|[-> ->]]; [by apply Hdone|]. apply Hd. by apply Hdone.
  - assert (k' = k) as -> by (by apply Hk). split; [by apply (inv_issued _ Hinv (k, tr))|].
    intros v Hv. destruct (Hin _ _ Hv) as [Hv'|[_ ->]]; [|by apply Ho].
    assert (Hkv : (k, v) ∈ m1 ++ transactions_ st') by set_solver. rewrite <- Hm in Hkv.
    apply map_find_Some in Hkv; [|apply map_put_wf, (inv_wf _ Hinv)].
    rewrite map_find_put_eq in Hkv. injection Hkv as <-. by apply Ho.
Qed.

Lemma step_released ops st o st' `{!IdSourceLaws G} :
  inv st → released_inv ops st →
  (∀ ts, o = OpReserve ts → usable (transaction_id_generator_ st)) →
  step st o = Ok st' → released_inv (ops ++ [o]) st'.
Proof.
  intros Hinv Hrel Hu Hs.
  assert (Hqueue : ∀ om, QueueOutgoingMessage om st = Ok st' → (∀ k, o ≠ OpRelease k) →
                   released_inv (ops ++ [o]) st').
  { unfold QueueOutgoingMessage. intros om Hq Hno.
    apply bind_Ok in Hq as ([k|] & Hx & Hq); simpl in Hq.
    - apply bind_Ok in Hq as (tr & Htr%check_some_Ok & Hq).
      refine (assign_released _ _ _ _ _ _ _ Hinv Hrel Htr _ _ _ Hq); [done| |];
        intros; by edestruct Hno.
    - apply bind_Ok in Hq as (log & _ & [= <-]). intros k [Hk|Hk]%elem_of_snoc; simpl; [by apply Hrel|].
      by edestruct Hno. }
  destruct o as [ts|k|p m mode|m mode]; simpl in Hs.
  - destruct (reserve_spec ts st Hinv (Hu ts eq_refl)) as (k & st1 & Hr & _ & _ & Ht & Hlt).
    rewrite Hr in Hs. injection Hs as ->. intros k' [Hk'|Hk']%elem_of_snoc; [|done].
    destruct (Hrel _ Hk') as [Hi Hd]. split; [by apply Hlt|].
    intros tr. rewrite Ht, elem_of_snoc. intros [?|[= -> ->]]; [by apply Hd|].
    destruct (Hlt _ Hi) as [Hlt' _]. by rewrite ltb_irrefl in Hlt'.
  - unfold ReleaseTransaction in Hs.
    apply bind_Ok in Hs as (tr & Htr%check_some_Ok & Hs).
    apply bind_Ok in Hs as ([] & _ & Hs).
    refine (assign_released _ _ _ _ _ _ _ Hinv Hrel Htr _ _ _ Hs); [done|done|].
    by intros k' [= ->].
  - by eapply Hqueue.
  - by eapply Hqueue.
Qed.

Lemma reachable_released g ops st `{!IdSourceLaws G} :
  reachable g ops st → released_inv ops st.
Proof.
  induction 1 as [|ops st o st' Hr IH Hu Hs]; [by intros k ?%elem_of_nil|].
  destruct (reachable_inv _ _ _ Hr) as [Hinv _]. by eapply step_released.
Qed.

(** ** Open transactions: reserved and not released *)
Definition open_ids (m : omap TransactionId Transaction) : list TransactionId :=
  base.omap (fun p : TransactionId * Transaction => if done p.2 then None else Some p.1) m.

#[global] Arguments open_ids : simpl never.

(** No released transaction is left at the head of the table. *)
Definition calm (st : t) : Prop :=
  map_wf (transactions_ st) ∧ head_pending (transactions_ st).

Lemma calm_closed st : calm st → open_ids (transactions_ st) = [] → transactions_ st = [].
Proof.
  intros [_ Hh]. unfold open_ids. destruct (transactions_ st) as [|[k tr] m]; [done|].
  simpl in *. by rewrite Hh.
Qed.

Lemma open_ids_elem m k : k ∈ open_ids m → k ∈ m.*1.
Proof.
  unfold open_ids. rewrite list_elem_of_omap. intros ([k' tr] & Hin & Hk). simpl in Hk.
  destruct (done tr); simplify_eq. apply list_elem_of_fmap. by exists (k, tr).
Qed.

Lemma open_ids_cons k tr m :
  open_ids ((k, tr) :: m) = if done tr then open_ids m else k :: open_ids m.
Proof. unfold open_ids. simpl. by destruct (done tr). Qed.

Lemma flush_calm st st' :
  map_wf (transactions_ st) → FlushMessages_Locked st = Ok st' →
  calm st' ∧ open_ids (transactions_ st') = open_ids (transactions_ st).
Proof.
  unfold FlushMessages_Locked. intros Hwf Hf. apply bind_Ok in Hf as ([m log] & Hf & [= <-]).
  unfold calm. simpl. revert Hwf Hf. generalize (sender st).
  induction (transactions_ st) as [|[k tr] l IH]; simpl; intros log0 Hwf Hf.
  - injection Hf as <- <-. split; [split; [apply map_wf_nil|done]|done].
  - apply bind_Ok in Hf as (log1 & _ & Hf). destruct (done tr) eqn:Hd; simpl in Hf.
    + apply map_wf_cons in Hwf as [Hwf _]. rewrite open_ids_cons, Hd. by eapply IH.
    + injection Hf as <- <-. done.
Qed.

Lemma reserve_open ts st k st' :
  calm st → ReserveTransaction ts st = Ok (k, st') →
  calm st' ∧ open_ids (transactions_ st') = open_ids (transactions_ st) ++ [k] ∧
  k ∉ (transactions_ st).*1.
Proof.
  intros [Hwf Hh] Hr. unfold ReserveTransaction in Hr. destruct (generate _ _) as [k0 g].
  apply bind_Ok in Hr as ([] & Hlast & Hr). unfold map_emplace in Hr.
  destruct (map_find k0 (transactions_ st)) eqn:Hf; simpl in Hr; [done|]. injection Hr as <- <-.
  apply map_find_None in Hf as Hfresh; [|done].
  assert (Hlt : Forall (fun p => p.1 ≺ k0) (transactions_ st)).
  { destruct (last (transactions_ st)) as [r|] eqn:El.
    - apply CHECK_Ok in Hlast. apply last_Some in El as [m0 Em]. rewrite Em in Hwf |- *.
      apply map_wf_app in Hwf as (_ & _ & Hlt). apply Forall_app. split; [|by constructor].
      apply Forall_forall. intros p Hp. specialize (Hlt p r Hp ltac:(left)). ord.
    - apply last_None in El. rewrite El. constructor. }
  unfold calm. simpl. split_and!; [by apply map_put_wf| |..].
  - rewrite map_put_last by done. by destruct (transactions_ st) as [|[? ?] ?].
  - rewrite map_put_last by done. unfold open_ids. by rewrite omap_app.
  - done.
Qed.

Lemma queue_open om st st' :
  calm st → QueueOutgoingMessage om st = Ok st' →
  calm st' ∧ open_ids (transactions_ st') = open_ids (transactions_ st).
Proof.
  intros Hc Hq. unfold QueueOutgoingMessage in Hq. apply bind_Ok in Hq as ([k|] & _ & Hq).
  - apply bind_Ok in Hq as (tr & Htr%check_some_Ok & Hq).
    apply flush_calm in Hq as [Hc' Hq]; [|by apply map_put_wf, Hc]. split; [done|].
    rewrite Hq. simpl. destruct (map_find_split _ _ _ Htr) as (m1 & m2 & Hm & Hput).
    rewrite Hput, Hm. unfold open_ids. rewrite !omap_app. by simpl.
  - by apply bind_Ok in Hq as (log & _ & [= <-]).
Qed.

Lemma release_open k st st' :
  calm st → ReleaseTransaction k st = Ok st' →
  calm st' ∧ ∃ ids1 ids2, open_ids (transactions_ st) = ids1 ++ k :: ids2 ∧
    open_ids (transactions_ st') = ids1 ++ ids2.
Proof.
  intros Hc Hr. unfold ReleaseTransaction in Hr.
  apply bind_Ok in Hr as (tr & Htr%check_some_Ok & Hr). apply bind_Ok in Hr as ([] & Hd%CHECK_Ok & Hr).
  apply flush_calm in Hr as [Hc' Hr]; [|by apply map_put_wf, Hc]. split; [done|].
  rewrite Hr. simpl. destruct (map_find_split _ _ _ Htr) as (m1 & m2 & Hm & Hput).
  rewrite Hput, Hm. exists (open_ids m1), (open_ids m2). unfold open_ids. rewrite !omap_app. simpl.
  by destruct (done tr).
Qed.

(** ** Properties *)

(** Callers that release each reserved transaction once and attach
    messages only to reserved transactions never trip a [CHECK] of the
    sequencer: every such operation returns. *)
Theorem sequencer_never_aborts g ops st o `{!IdSourceLaws G} :
  reachable g ops st → enabled st o →
  ∃ st', step st o = Ok st' ∧ reachable g (ops ++ [o]) st'.
Proof.
  intros Hr Hen. destruct (reachable_inv _ _ _ Hr) as [Hinv _].
  destruct (step_spec st o Hinv Hen) as (st' & Hs & _). exists st'. split; [done|].
  eapply reachable_step; [done| |done]. by intros ts ->.
Qed.

(** C16 (invariant). In every reachable state the messages handed to the peer
    message sender that belong to a transaction are in the order of the
    transaction ids, and every transaction still reserved is at or after all
    of them: a message is never sent after one of a later transaction. *)
Theorem sequencer_sends_in_order g ops st `{!IdSourceLaws G} :
  reachable g ops st →
  StronglySorted (fun x y : TransactionId => x ⪯ y) (log_ids (sender st)) ∧
  ∀ u p, u ∈ log_ids (sender st) → p ∈ transactions_ st → u ⪯ p.1.
Proof.
  intros Hr. destruct (reachable_inv _ _ _ Hr) as [Hinv _].
  by destruct (inv_log _ Hinv).
Qed.

(** C17 (liveness). Nothing is held back: once every transaction that is still
    in the table has been released, the table is empty and every message that
    was queued has been handed to the peer message sender. *)
Theorem sequencer_sends_everything g ops st `{!IdSourceLaws G} :
  reachable g ops st →
  (∀ p, p ∈ transactions_ st → OpRelease p.1 ∈ ops) →
  transactions_ st = [] ∧
  ∀ o c, o ∈ ops → op_call o = Some c → c ∈ sender st.
Proof.
  intros Hr Hall. destruct (reachable_inv _ _ _ Hr) as [Hinv Hcalls].
  pose proof (reachable_released _ _ _ Hr) as Hrel.
  assert (Hnil : transactions_ st = []).
  { pose proof (inv_head _ Hinv) as Hh. destruct (transactions_ st) as [|[k tr] l] eqn:E; [done|].
    simpl in Hh. destruct (Hrel k) as [_ Hd]; [apply (Hall (k, tr)); left|].
    rewrite (Hd tr) in Hh; [done|]. rewrite E. left. }
  split; [done|]. intros o c Ho Hc. specialize (Hcalls o c Ho Hc).
  unfold known_calls in Hcalls. rewrite Hnil in Hcalls. by rewrite app_nil_r in Hcalls.
Qed.

(** The messages sent when [ms] are broadcast one by one for the transaction
    at the head of the table, which already holds [acc], and the transaction is
    then released. *)
Fixpoint resent (mode : SendMode) (acc ms : list PeerMessage.t) : list sender_call :=
  match ms with
  | [] => (fun m => BroadcastMessage_call m mode) <$> acc
  | m :: ms' =>
      ((fun m => BroadcastMessage_call m mode) <$> (acc ++ [m])) ++
      resent mode (acc ++ [m]) ms'
  end.

Definition broadcast_of (mode : SendMode) (m : PeerMessage.t) : OutgoingMessage :=
  {| om_type := BROADCAST; om_remote_peer := None; om_peer_message := m;
     om_send_mode := mode |}.

Lemma calls_of_broadcasts mode (ms : list PeerMessage.t) :
  base.omap call_of (broadcast_of mode <$> ms) =
  (fun m => BroadcastMessage_call m mode) <$> ms.
Proof. induction ms as [|m ms IH]; csimpl; [done|]. by rewrite IH. Qed.

Lemma send_broadcasts log mode (ms : list PeerMessage.t) :
  foldM SendOutgoingMessage log (broadcast_of mode <$> ms) =
  Ok (log ++ ((fun m => BroadcastMessage_call m mode) <$> ms)).
Proof.
  rewrite send_all_ok, calls_of_broadcasts; [done|].
  apply Forall_fmap, Forall_forall. intros m _. by eexists.
Qed.

Definition head_holds (k : TransactionId) (mode : SendMode) (acc : list PeerMessage.t)
    (st : t) : Prop :=
  transactions_ st =
    [(k, {| outgoing_messages := broadcast_of mode <$> acc; done := false |})].

Lemma release_head k mode acc st :
  head_holds k mode acc st →
  ∃ st', ReleaseTransaction k st = Ok st' ∧ transactions_ st' = [] ∧
    sender st' = sender st ++ ((fun m => BroadcastMessage_call m mode) <$> acc).
Proof.
  unfold head_holds, ReleaseTransaction. intros ->. cbn [map_find map_put].
  rewrite !ltb_irrefl. simpl. unfold FlushMessages_Locked. cbn [flush_loop set_transactions
    transactions_ sender outgoing_messages done].
  rewrite send_broadcasts. simpl. by eexists.
Qed.

Lemma broadcast_head k mode acc m st :
  head_holds k mode acc st → ExtractTransactionIdFromPeerMessage m = Ok (Some k) →
  ∃ st', BroadcastMessage m mode st = Ok st' ∧ head_holds k mode (acc ++ [m]) st' ∧
    sender st' = sender st ++ ((fun m => BroadcastMessage_call m mode) <$> (acc ++ [m])).
Proof.
  unfold head_holds, BroadcastMessage, QueueOutgoingMessage. intros Ht Hm.
  cbn [om_peer_message]. rewrite Hm, Ht. cbn [map_find map_put]. simpl. rewrite !ltb_irrefl. simpl.
  change [{| om_type := _; om_remote_peer := _; om_peer_message := m; om_send_mode := _ |}]
    with (broadcast_of mode <$> [m]).
  rewrite <- fmap_app. unfold FlushMessages_Locked.
  cbn [flush_loop set_transactions transactions_ sender outgoing_messages done].
  rewrite send_broadcasts. simpl. by eexists.
Qed.

Lemma run_head_transaction k mode (ms acc : list PeerMessage.t) st :
  head_holds k mode acc st →
  Forall (fun m => ExtractTransactionIdFromPeerMessage m = Ok (Some k)) ms →
  ∃ st', run st (((fun m => OpBroadcast m mode) <$> ms) ++ [OpRelease k]) = Ok st' ∧
    transactions_ st' = [] ∧ sender st' = sender st ++ resent mode acc ms.
Proof.
  intros Ht Hms. revert acc st Ht. induction Hms as [|m ms Hm _ IH]; intros acc st Ht.
  - destruct (release_head _ _ _ _ Ht) as (st' & Hr & H1 & H2). exists st'.
    unfold run. simpl. by rewrite Hr.
  - destruct (broadcast_head _ _ _ _ _ Ht Hm) as (st1 & Hr & H1 & H2).
    destruct (IH _ _ H1) as (st' & Hr' & H3 & H4). exists st'. unfold run in *. csimpl.
    rewrite Hr. simpl. split_and!; [exact Hr'|done|].
    by rewrite H4, H2, <- app_assoc.
Qed.

Lemma resent_length mode acc ms :
  2 * length (resent mode acc ms) =
  length ms * (length ms + 3) + 2 * (length ms + 1) * length acc.
Proof.
  revert acc. induction ms as [|m ms IH]; intros acc; simpl resent.
  - rewrite length_fmap. simpl. lia.
  - rewrite length_app, length_fmap, Nat.mul_add_distr_l, IH, !length_app. simpl. lia.
Qed.

(** Messages of the transaction at the head of the table are
    sent more than once: [outgoing_messages] is not cleared when it is
    flushed, so each of [n] broadcasts for that transaction, and then its
    release, sends all the messages queued for it so far, [n * (n + 3) / 2]
    in all. *)
Theorem sequencer_resends_head g ts mode (ms : list PeerMessage.t) k st `{!IdSourceLaws G} :
  usable g → ReserveTransaction ts (New g) = Ok (k, st) →
  Forall (fun m => ExtractTransactionIdFromPeerMessage m = Ok (Some k)) ms →
  ∃ st', run st (((fun m => OpBroadcast m mode) <$> ms) ++ [OpRelease k]) = Ok st' ∧
    transactions_ st' = [] ∧ sender st' = resent mode [] ms ∧
    2 * length (sender st') = length ms * (length ms + 3).
Proof.
  intros Hu Hres Hms.
  destruct (reserve_spec ts (New g) (inv_new g) Hu) as (k1 & st1 & Hres1 & _ & Hs & Ht & _).
  rewrite Hres1 in Hres. injection Hres as -> ->.
  destruct (run_head_transaction k mode ms [] st Ht Hms) as (st' & Hr & Hn & Hl).
  exists st'. rewrite Hs in Hl. simpl in Hl. split_and!; [done|done|done|].
  rewrite Hl, resent_length. simpl. lia.
Qed.
End sequencer.
Arguments t : clear implicits.
End Sequencer.

(** ** Witnesses: two transactions, the second finished first *)
Definition seq_uuid : Uuid := {| high_word := 7; low_word := 9 |}.
Definition seq_gen : TransactionIdGenerator := NewTransactionIdGenerator seq_uuid.
Definition seq_clock : timespec := {| tv_sec := 1; tv_nsec := 5 |}.
Definition seq_id1 : TransactionId := MakeTransactionId 1000000005 7 9.
Definition seq_id2 : TransactionId := MakeTransactionId 1000000006 7 9.
Definition seq_message (k : TransactionId) : PeerMessage.t :=
  PeerMessage.RejectTransaction
    {| PeerMessage.rt_rejected_peer := []; PeerMessage.rt_new_transaction_id := k |}.
Definition seq_ops : list Sequencer.op :=
  [Sequencer.OpReserve seq_clock; Sequencer.OpReserve seq_clock;
   Sequencer.OpBroadcast (seq_message seq_id2) BLOCKING_MODE;
   Sequencer.OpRelease seq_id2;
   Sequencer.OpBroadcast (seq_message seq_id1) BLOCKING_MODE;
   Sequencer.OpRelease seq_id1].

Definition seq_state (n : nat) : Sequencer.t TransactionIdGenerator :=
  match Sequencer.run (Sequencer.New seq_gen) (take n seq_ops) with
  | Ok st => st | _ => Sequencer.New seq_gen
  end.

Lemma seq_reachable : Sequencer.reachable seq_gen seq_ops (seq_state 6).
Proof.
  change seq_ops with (((((([] ++ [Sequencer.OpReserve seq_clock]) ++
   [Sequencer.OpReserve seq_clock]) ++
   [Sequencer.OpBroadcast (seq_message seq_id2) BLOCKING_MODE]) ++
   [Sequencer.OpRelease seq_id2]) ++
   [Sequencer.OpBroadcast (seq_message seq_id1) BLOCKING_MODE]) ++
   [Sequencer.OpRelease seq_id1]).
  apply (Sequencer.reachable_step _ _ (seq_state 5)); [|done|vm_compute; reflexivity].
  apply (Sequencer.reachable_step _ _ (seq_state 4)); [|done|vm_compute; reflexivity].
  apply (Sequencer.reachable_step _ _ (seq_state 3)); [|done|vm_compute; reflexivity].
  apply (Sequencer.reachable_step _ _ (seq_state 2)); [|done|vm_compute; reflexivity].
  apply (Sequencer.reachable_step _ _ (seq_state 1)); [|vm_compute; intuition congruence|vm_compute; reflexivity].
  apply (Sequencer.reachable_step _ _ (seq_state 0)); [|vm_compute; intuition congruence|vm_compute; reflexivity].
  apply Sequencer.reachable_new.
Qed.

Lemma sequencer_never_aborts_witness :
  ∃ st', Sequencer.step (seq_state 6) (Sequencer.OpReserve seq_clock) = Ok st' ∧
    Sequencer.reachable seq_gen (seq_ops ++ [Sequencer.OpReserve seq_clock]) st'.
Proof.
  apply Sequencer.sequencer_never_aborts; [exact _|exact seq_reachable|].
  vm_compute. intuition congruence.
Defined.

Lemma sequencer_sends_in_order_witness :
  Sequencer.log_ids (Sequencer.sender (seq_state 6)) = [seq_id1; seq_id1; seq_id2] ∧
  StronglySorted (fun x y : TransactionId => x ⪯ y)
    (Sequencer.log_ids (Sequencer.sender (seq_state 6))).
Proof.
  split; [vm_compute; reflexivity|].
  apply (Sequencer.sequencer_sends_in_order seq_gen seq_ops (seq_state 6) seq_reachable).
Defined.

Lemma sequencer_sends_everything_witness :
  BroadcastMessage_call (seq_message seq_id2) BLOCKING_MODE ∈
  Sequencer.sender (seq_state 6).
Proof.
  apply (Sequencer.sequencer_sends_everything seq_gen seq_ops (seq_state 6) seq_reachable)
    with (o := Sequencer.OpBroadcast (seq_message seq_id2) BLOCKING_MODE);
    [by intros p ?%elem_of_nil|apply (list_elem_of_lookup_2 _ 2); reflexivity|reflexivity].
Defined.

Lemma sequencer_resends_head_witness :
  ∃ st', Sequencer.run (seq_state 1)
           [Sequencer.OpBroadcast (seq_message seq_id1) BLOCKING_MODE;
            Sequencer.OpBroadcast (seq_message seq_id1) BLOCKING_MODE;
            Sequencer.OpRelease seq_id1] = Ok st' ∧
    length (Sequencer.sender st') = 5.
Proof.
  destruct (Sequencer.sequencer_resends_head seq_gen seq_clock BLOCKING_MODE
              [seq_message seq_id1; seq_message seq_id1] seq_id1 (seq_state 1))
    as (st' & Hr & _ & _ & Hl).
  - vm_compute. intuition congruence.
  - vm_compute. reflexivity.
  - repeat constructor.
  - exists st'. split; [exact Hr|]. simpl in Hl. lia.
Defined.
