(* ===== verification/Connections.v ===== *)
(** * Connections between peers

    [engine/peer_connection.cc] and [.h] (one connection: it greets, forwards
    messages and says goodbye) and [engine/connection_manager.cc] and [.h] (the
    connections of a peer: at most one per remote peer is in use).  The protocol
    server is what [Protocol] models; opening a connection is an input.  The
    calls to the transaction store are outputs. *)
From S2P Require Import Prelude Text Ids VersionMap Values Events Varint Protocol Queues TransactionSequencer.
From stdpp Require Import base tactics strings list gmap sets.
From Stdlib Require Import ZArith Lia.
Open Scope Z_scope.
Open Scope string_scope.
Open Scope list_scope.

(** * Methods that may wait

    A method changes the state [S] and returns, ends the process, or waits in
    the state it has reached so far. *)
Inductive outcome (S A : Type) : Type :=
| Ret (a : A) (s : S)
| Wait (s : S)
| Abort.
Arguments Ret {S A} a s.
Arguments Wait {S A} s.
Arguments Abort {S A}.

Definition W (S A : Type) : Type := S → outcome S A.
#[export] Instance W_ret {S} : MRet (W S) := fun A a s => Ret a s.
#[export] Instance W_bind {S} : MBind (W S) := fun A B f m s =>
  match m s with Ret a s' => f a s' | Wait s' => Wait s' | Abort => Abort end.

Definition gets {S A} (f : S → A) : W S A := fun s => Ret (f s) s.
Definition modify {S} (f : S → S) : W S unit := fun s => Ret tt (f s).
Definition check {S} (b : bool) : W S unit := fun s => if b then Ret tt s else Abort.
Definition wait {S A} : W S A := fun s => Wait s.
(** Any failure of [res] ends the run. *)
Definition lift {S A} (r : res A) : W S A :=
  fun s => match r with Ok a => Ret a s | _ => Abort end.

(** * [PeerConnection] *)
Module PeerConnection.

Inductive ConnectionState := CONNECTION_OPEN | CONNECTION_CLOSED.
Inductive ReceiveState := NO_MESSAGE_RECEIVED | HELLO_RECEIVED | GOODBYE_RECEIVED.
Inductive SendState := NO_MESSAGE_SENT | HELLO_SENT | GOODBYE_SENT.
Inductive DrainState := NO_DRAIN_REQUESTED | DRAIN_REQUESTED.

#[global] Instance ReceiveState_eq_dec : EqDecision ReceiveState.
Proof. solve_decision. Defined.
#[global] Instance SendState_eq_dec : EqDecision SendState.
Proof. solve_decision. Defined.
#[global] Instance DrainState_eq_dec : EqDecision DrainState.
Proof. solve_decision. Defined.

(** The calls to [ConnectionManagerInterfaceForPeerConnection]. *)
Inductive manager_call :=
| NotifyRemotePeerKnown_call (remote_peer : CanonicalPeer)
| HandleMessageFromRemotePeer_call (remote_peer : option CanonicalPeer) (m : PeerMessage.t).

(** [protocol_connection_] is null before [Init]; then the boolean says whether
    [Close] has been called on it.  [manager_calls] are the calls made to the
    connection manager. *)
Record t := mk {
  remote_address_ : string;
  locally_initiated_ : bool;
  protocol_connection_ : option bool;
  remote_peer_ : option CanonicalPeer;
  connection_state_ : ConnectionState;
  receive_state_ : ReceiveState;
  send_state_ : SendState;
  drain_state_ : DrainState;
  output_messages_ : QuotaQueue.t PeerMessage.t;
  ref_count_ : Z;
  manager_calls : list manager_call;
}.

Definition set_protocol_connection x c := mk (remote_address_ c) (locally_initiated_ c) x
  (remote_peer_ c) (connection_state_ c) (receive_state_ c) (send_state_ c) (drain_state_ c)
  (output_messages_ c) (ref_count_ c) (manager_calls c).
Definition set_remote_peer x c := mk (remote_address_ c) (locally_initiated_ c)
  (protocol_connection_ c) x (connection_state_ c) (receive_state_ c) (send_state_ c)
  (drain_state_ c) (output_messages_ c) (ref_count_ c) (manager_calls c).
Definition set_connection_state x c := mk (remote_address_ c) (locally_initiated_ c)
  (protocol_connection_ c) (remote_peer_ c) x (receive_state_ c) (send_state_ c)
  (drain_state_ c) (output_messages_ c) (ref_count_ c) (manager_calls c).
Definition set_receive_state x c := mk (remote_address_ c) (locally_initiated_ c)
  (protocol_connection_ c) (remote_peer_ c) (connection_state_ c) x (send_state_ c)
  (drain_state_ c) (output_messages_ c) (ref_count_ c) (manager_calls c).
Definition set_send_state x c := mk (remote_address_ c) (locally_initiated_ c)
  (protocol_connection_ c) (remote_peer_ c) (connection_state_ c) (receive_state_ c) x
  (drain_state_ c) (output_messages_ c) (ref_count_ c) (manager_calls c).
Definition set_drain_state x c := mk (remote_address_ c) (locally_initiated_ c)
  (protocol_connection_ c) (remote_peer_ c) (connection_state_ c) (receive_state_ c)
  (send_state_ c) x (output_messages_ c) (ref_count_ c) (manager_calls c).
Definition set_output_messages x c := mk (remote_address_ c) (locally_initiated_ c)
  (protocol_connection_ c) (remote_peer_ c) (connection_state_ c) (receive_state_ c)
  (send_state_ c) (drain_state_ c) x (ref_count_ c) (manager_calls c).
Definition set_ref_count x c := mk (remote_address_ c) (locally_initiated_ c)
  (protocol_connection_ c) (remote_peer_ c) (connection_state_ c) (receive_state_ c)
  (send_state_ c) (drain_state_ c) (output_messages_ c) x (manager_calls c).
Definition call_manager x c := mk (remote_address_ c) (locally_initiated_ c)
  (protocol_connection_ c) (remote_peer_ c) (connection_state_ c) (receive_state_ c)
  (send_state_ c) (drain_state_ c) (output_messages_ c) (ref_count_ c) (manager_calls c ++ [x]).

(** The values of the enumeration [SendMode]. *)
Definition service_of_mode (m : SendMode) : Z :=
  match m with NON_BLOCKING_MODE => 0 | BLOCKING_MODE => 1 end.

Definition New (remote_peer : option CanonicalPeer) (remote_address : string)
    (locally_initiated : bool) : res t :=
  q ← QuotaQueue.New (-1);
  _ ← CHECK (negb (bool_decide (remote_address = "")));
  q ← QuotaQueue.AddService (service_of_mode BLOCKING_MODE) 1 q;
  q ← QuotaQueue.AddService (service_of_mode NON_BLOCKING_MODE) (-1) q;
  Ok (mk remote_address locally_initiated None remote_peer CONNECTION_OPEN
        NO_MESSAGE_RECEIVED NO_MESSAGE_SENT NO_DRAIN_REQUESTED q 1 []).

(** The loop of the destructor: the messages it deletes. *)
Fixpoint delete_messages (fuel : nat) (q : QuotaQueue.t PeerMessage.t) :
    res (list PeerMessage.t * QuotaQueue.t PeerMessage.t) :=
  match fuel with
  | O => Undef
  | S fuel =>
      r ← QuotaQueue.Pop false q;
      match r with
      | Done (Some (m, _), q) => '(l, q) ← delete_messages fuel q; Ok (m :: l, q)
      | Done (None, q) => Ok ([], q)
      | Blocked => Undef
      end
  end.

Definition queued (c : t) : list PeerMessage.t :=
  fst <$> ProducerConsumerQueue.queue_ (QuotaQueue.queue_ (output_messages_ c)).

Definition Destroy (c : t) : res (list PeerMessage.t) :=
  '(l, _) ← delete_messages (S (length (queued c))) (output_messages_ c); Ok l.

Definition PrivateGetRemotePeer (c : t) : option CanonicalPeer := remote_peer_ c.

Definition GetRemotePeerIdForLogging (c : t) : string :=
  match remote_peer_ c with
  | Some remote_peer => peer_id remote_peer
  | None => "(unknown peer at address " +:+ c_str (remote_address_ c) +:+ ")"
  end.

(** Waits until [Init] has set the connection. *)
Definition PrivateGetProtocolConnection : W t unit := fun c =>
  match protocol_connection_ c with Some _ => Ret tt c | None => Wait c end.

Definition Init : W t unit := modify (set_protocol_connection (Some false)).

(** [PrivateGetProtocolConnection()->Close()]. *)
Definition close_protocol_connection : W t unit :=
  _ ← PrivateGetProtocolConnection;
  modify (set_protocol_connection (Some true)).

(** The queue never waits here: [Push] is called with [wait] false. *)
Definition push_output (m : PeerMessage.t) (send_mode : SendMode) : W t bool := fun c =>
  match QuotaQueue.Push m (service_of_mode send_mode) false (output_messages_ c) with
  | Ok (Done (b, q)) => Ret b (set_output_messages q c)
  | Ok Blocked => Wait c
  | _ => Abort
  end.

Definition SendMessage (m : PeerMessage.t) (send_mode : SendMode) : W t bool :=
  pushed ← push_output m send_mode;
  if (pushed : bool) then
    _ ← PrivateGetProtocolConnection;
    mret true
  else mret false.

Definition Drain : W t unit :=
  _ ← modify (set_drain_state DRAIN_REQUESTED);
  _ ← modify (fun c => set_output_messages (QuotaQueue.Drain (output_messages_ c)) c);
  PrivateGetProtocolConnection.

Definition Close : W t unit := modify (set_connection_state CONNECTION_CLOSED).

Definition IncrementRefCount : W t unit :=
  _ ← modify (fun c => set_ref_count (ref_count_ c + 1) c);
  n ← gets ref_count_;
  check (1 <=? n)%Z.

Definition DecrementRefCount : W t bool :=
  n ← gets ref_count_;
  _ ← check (1 <=? n)%Z;
  _ ← modify (set_ref_count (n - 1));
  mret (n - 1 =? 0)%Z.

Section methods.
(** What the connection manager answers: [local_peer()] and [interpreter_type()]. *)
Context (local_peer : CanonicalPeer) (interpreter_type : string).

Definition CreateHelloMessage : PeerMessage.t :=
  PeerMessage.Hello {| PeerMessage.hello_peer_id := peer_id local_peer;
                       PeerMessage.hello_interpreter_type := interpreter_type |}.

Definition CreateGoodbyeMessage : PeerMessage.t := PeerMessage.Goodbye.

Definition pop_output : W t (option PeerMessage.t) := fun c =>
  match QuotaQueue.Pop false (output_messages_ c) with
  | Ok (Done (r, q)) => Ret (fst <$> r) (set_output_messages q c)
  | Ok Blocked => Wait c
  | _ => Abort
  end.

(** The last critical section of [GetNextOutputMessageHelper], and what follows. *)
Definition next_output_goodbye : W t (option PeerMessage.t) :=
  drain_state ← gets drain_state_;
  if bool_decide (drain_state ≠ DRAIN_REQUESTED) then mret None
  else
    _ ← modify (set_send_state GOODBYE_SENT);
    receive_state ← gets receive_state_;
    _ ← (if bool_decide (receive_state = GOODBYE_RECEIVED)
         then close_protocol_connection else mret tt);
    mret (Some CreateGoodbyeMessage).

Definition GetNextOutputMessageHelper : W t (option PeerMessage.t) :=
  send_state ← gets send_state_;
  match send_state with
  | NO_MESSAGE_SENT =>
      _ ← modify (set_send_state HELLO_SENT);
      mret (Some CreateHelloMessage)
  | HELLO_SENT =>
      regular_message ← pop_output;
      match regular_message with
      | Some m => mret (Some m)
      | None => next_output_goodbye
      end
  | GOODBYE_SENT => mret None
  end.

(** The log line of the code reads the type of the message, which ends the
    process when it has none. *)
Definition GetNextOutputMessage : W t (option PeerMessage.t) :=
  next ← GetNextOutputMessageHelper;
  match next with
  | None => mret None
  | Some m => _ ← lift (PeerMessage.GetPeerMessageType m); mret (Some m)
  end.

Definition SetRemotePeer (new_remote_peer : CanonicalPeer) : W t unit :=
  remote_peer ← gets remote_peer_;
  _ ← match remote_peer with
      | None => modify (set_remote_peer (Some new_remote_peer))
      | Some p => check (bool_decide (p = new_remote_peer))
      end;
  modify (call_manager (NotifyRemotePeerKnown_call new_remote_peer)).

Definition HandleHelloMessage (m : PeerMessage.HelloMessage) : W t unit :=
  _ ← check (bool_decide (PeerMessage.hello_interpreter_type m = interpreter_type));
  receive_state ← gets receive_state_;
  _ ← check (bool_decide (receive_state = NO_MESSAGE_RECEIVED));
  _ ← modify (set_receive_state HELLO_RECEIVED);
  SetRemotePeer {| peer_id := PeerMessage.hello_peer_id m |}.

Definition HandleGoodbyeMessage : W t unit :=
  receive_state ← gets receive_state_;
  _ ← check (bool_decide (receive_state = HELLO_RECEIVED));
  _ ← modify (set_receive_state GOODBYE_RECEIVED);
  _ ← modify (set_drain_state DRAIN_REQUESTED);
  send_state ← gets send_state_;
  _ ← modify (fun c => set_output_messages (QuotaQueue.Drain (output_messages_ c)) c);
  if bool_decide (send_state = GOODBYE_SENT) then close_protocol_connection else mret tt.

Definition HandleRegularMessage (m : PeerMessage.t) : W t unit :=
  receive_state ← gets receive_state_;
  _ ← check (bool_decide (receive_state = HELLO_RECEIVED));
  remote_peer ← gets remote_peer_;
  modify (call_manager (HandleMessageFromRemotePeer_call remote_peer m)).

(** ([CheckInitialized] is the library's; a parsed message passes it.) *)
Definition NotifyMessageReceived (m : PeerMessage.t) : W t unit :=
  type ← lift (PeerMessage.GetPeerMessageType m);
  match type with
  | PeerMessage.HELLO => hello ← lift (deref (PeerMessage.hello_message m)); HandleHelloMessage hello
  | PeerMessage.GOODBYE => HandleGoodbyeMessage
  | _ => HandleRegularMessage m
  end.

End methods.
End PeerConnection.

(** * Deleting a connection *)
Section deletion.
Import QuotaQueue PeerConnection.

Lemma Pop_total (polite : bool) (q : QuotaQueue.t PeerMessage.t) ps m id l :
  quota_inv polite (mkSystem q ps []) → ProducerConsumerQueue.queue_ (queue_ q) = (m, id) :: l →
  ∃ q', QuotaQueue.Pop false q = Ok (Done (Some (m, id), q')) ∧ quota_inv polite (mkSystem q' ps []) ∧
    ProducerConsumerQueue.queue_ (queue_ q') = l.
Proof.
  intros Hinv Hq. unfold QuotaQueue.Pop.
  assert (pop_queue false q = Done (Some (m, id), set_queue (ProducerConsumerQueue.mk
    (ProducerConsumerQueue.max_size_ (queue_ q)) l (ProducerConsumerQueue.draining_ (queue_ q))) q)) as Epop.
  { unfold pop_queue, ProducerConsumerQueue.Pop. by rewrite Hq. }
  rewrite Epop. set (q1 := set_queue _ q) in *.
  assert (quota_inv polite (mkSystem q1 ps [id])) as Hinv1.
  { eapply quota_inv_step; [exact Hinv|]. eapply (step_dequeue _ _ _ m id false), Epop. }
  destruct (pop_release_total polite (mkSystem q1 ps [id]) id Hinv1) as [q' Eq']; [set_solver|]. cbn in Eq'.
  rewrite Eq'. exists q'. split; [done|]. split.
  - apply (quota_inv_step polite _ _ Hinv1). apply (step_release _ _ _ id ps [] []), Eq'.
  - unfold pop_release in Eq'. apply bind_Ok in Eq' as (svc & _ & Eq'). apply bind_Ok in Eq' as (? & _ & Eq').
    by injection Eq' as <-.
Qed.

(** A connection whose queue is as its threads leave it ([quota_queue_counts]) is
    deleted without a failed [CHECK], and with it the messages that were not sent,
    each once. *)
Theorem destructor_deletes_messages (polite : bool) (c : t) ps
    (Hinv : quota_inv polite (mkSystem (output_messages_ c) ps [])) :
  Destroy c = Ok (queued c).
Proof.
  unfold Destroy, queued. rewrite length_fmap. remember (ProducerConsumerQueue.queue_ _) as l eqn:El. symmetry in El.
  assert (∃ q', delete_messages (S (length l)) (output_messages_ c) = Ok (fst <$> l, q')) as [q' ->]; [|done].
  revert El Hinv. generalize (output_messages_ c) as q. induction l as [|[m id] l IH]; intros q El Hinv.
  - simpl. unfold QuotaQueue.Pop, pop_queue, ProducerConsumerQueue.Pop. rewrite El. by eexists.
  - destruct (Pop_total _ _ _ _ _ _ Hinv El) as (q1 & E1 & Hinv1 & El1).
    destruct (IH q1 El1 Hinv1) as [q' E']. exists q'. change (length ((m, id) :: l)) with (S (length l)).
    clear IH. generalize dependent (S (length l)). intros n E'. cbn [delete_messages]. rewrite E1. cbn [mbind res_bind].
    by rewrite E'.
Qed.

Lemma destructor_deletes_messages_witness :
  ∃ c, PeerConnection.New None "10.0.0.2" true = Ok c ∧ Destroy c = Ok [].
Proof.
  eexists. split; [reflexivity|]. etrans; [apply (destructor_deletes_messages false _ [])|reflexivity].
  apply quota_inv_start. split; [done|]. split; [done|]. intros id svc. unfold service_of. simpl.
  destruct (0 <=? id)%Z eqn:E; [|done]. apply Z.leb_le in E.
  destruct (Z.to_nat id) as [|[|n]]; simpl; [by intros [= <-]..|done].
Defined.
End deletion.

(** * The conversation on a connection *)
Section conversation.
Import PeerConnection.
Context (local_peer : CanonicalPeer) (interpreter_type : string).

(** The messages other than greetings. *)
Definition regular (m : PeerMessage.t) : Prop :=
  ∃ ty, PeerMessage.GetPeerMessageType m = Ok ty ∧
    ty ≠ PeerMessage.HELLO ∧ ty ≠ PeerMessage.GOODBYE.

(** What is done with a connection once [Init] has been called: the engine
    sends and drains, the protocol server asks for output and hands over what
    arrives.  (Before [Init] a call that needs the protocol connection waits.) *)
Inductive pc_op :=
| PSend (m : PeerMessage.t) (send_mode : SendMode)
| PDrain
| PGetNext
| PReceive (m : PeerMessage.t).

(** The connection with the messages [SendMessage] accepted and those that have
    gone out. *)
Record pc_history := mkPc {
  pc : t;
  pc_accepted : list PeerMessage.t;
  pc_sent : list PeerMessage.t;
}.

(** One call; [None] when the process ends or the call waits. *)
Definition pc_step (op : pc_op) (g : pc_history) : option pc_history :=
  match op with
  | PSend m mode =>
      match SendMessage m mode (pc g) with
      | Ret b c =>
          Some (mkPc c (if b : bool then pc_accepted g ++ [m] else pc_accepted g) (pc_sent g))
      | _ => None
      end
  | PDrain =>
      match Drain (pc g) with
      | Ret _ c => Some (mkPc c (pc_accepted g) (pc_sent g))
      | _ => None
      end
  | PGetNext =>
      match GetNextOutputMessage local_peer interpreter_type (pc g) with
      | Ret next c => Some (mkPc c (pc_accepted g) (pc_sent g ++ option_list next))
      | _ => None
      end
  | PReceive m =>
      match NotifyMessageReceived interpreter_type m (pc g) with
      | Ret _ c => Some (mkPc c (pc_accepted g) (pc_sent g))
      | _ => None
      end
  end.

Definition pc_run (ops : list pc_op) (g : pc_history) : option pc_history :=
  foldl (fun r op => g ← r; pc_step op g) (Some g) ops.

(** The messages a sequence of calls receives, and that it may send. *)
Definition receives (op : pc_op) : list PeerMessage.t :=
  match op with PReceive m => [m] | _ => [] end.
Definition sends_regular (op : pc_op) : Prop :=
  match op with PSend m _ => regular m | _ => True end.

(** A conversation as [p] holds it: a greeting, regular messages, a goodbye. *)
Definition conversation (p : CanonicalPeer) (ms : list PeerMessage.t) : Prop :=
  ∃ regs, Forall regular regs ∧
    ms `prefix_of` CreateHelloMessage p interpreter_type :: regs ++ [CreateGoodbyeMessage].

(** The calls to the connection manager for the messages received from [p]. *)
Definition calls_for (p : CanonicalPeer) (ms : list PeerMessage.t) : list manager_call :=
  match ms with
  | [] => []
  | _ :: regs =>
      NotifyRemotePeerKnown_call p ::
      ((fun m => HandleMessageFromRemotePeer_call (Some p) m) <$>
         filter (fun m => PeerMessage.goodbye_message m = None) regs)
  end.

(** ** The invariant *)

(** The queue: its counts are right and it has both services. *)
Definition queue_ok (q : QuotaQueue.t PeerMessage.t) : Prop :=
  quota_inv false (mkSystem q [] []) ∧
  is_Some (service_of 0 q) ∧ is_Some (service_of 1 q) ∧
  QuotaQueue.draining_ q = ProducerConsumerQueue.draining_ (QuotaQueue.queue_ q).

Definition queued (q : QuotaQueue.t PeerMessage.t) : list PeerMessage.t :=
  fst <$> ProducerConsumerQueue.queue_ (QuotaQueue.queue_ q).

Record pc_inv (remote : CanonicalPeer) (rs : list PeerMessage.t) (g : pc_history) : Prop := {
  inv_proto : protocol_connection_ (pc g) =
    Some (bool_decide (send_state_ (pc g) = GOODBYE_SENT ∧ receive_state_ (pc g) = GOODBYE_RECEIVED));
  inv_queue : queue_ok (output_messages_ (pc g));
  inv_drain : QuotaQueue.draining_ (output_messages_ (pc g)) =
    bool_decide (drain_state_ (pc g) = DRAIN_REQUESTED);
  inv_goodbye : receive_state_ (pc g) = GOODBYE_RECEIVED → drain_state_ (pc g) = DRAIN_REQUESTED;
  inv_regular : Forall regular (pc_accepted g);
  inv_sent : match send_state_ (pc g) with
    | NO_MESSAGE_SENT => pc_sent g = [] ∧ pc_accepted g = queued (output_messages_ (pc g))
    | HELLO_SENT => ∃ l, pc_sent g = CreateHelloMessage local_peer interpreter_type :: l ∧
        pc_accepted g = l ++ queued (output_messages_ (pc g))
    | GOODBYE_SENT => drain_state_ (pc g) = DRAIN_REQUESTED ∧
        queued (output_messages_ (pc g)) = [] ∧
        pc_sent g = CreateHelloMessage local_peer interpreter_type ::
          pc_accepted g ++ [CreateGoodbyeMessage]
    end;
  inv_received : match receive_state_ (pc g) with
    | NO_MESSAGE_RECEIVED => rs = []
    | HELLO_RECEIVED => ∃ l, Forall regular l ∧ rs = CreateHelloMessage remote interpreter_type :: l
    | GOODBYE_RECEIVED => ∃ l, Forall regular l ∧
        rs = CreateHelloMessage remote interpreter_type :: l ++ [CreateGoodbyeMessage]
    end;
  inv_remote : match receive_state_ (pc g) with
    | NO_MESSAGE_RECEIVED => remote_peer_ (pc g) = None ∨ remote_peer_ (pc g) = Some remote
    | _ => remote_peer_ (pc g) = Some remote
    end;
  inv_calls : manager_calls (pc g) = calls_for remote rs;
}.

(** ** The queue of a connection *)

Lemma queue_push q m mode : queue_ok q →
  ∃ q', QuotaQueue.Push m (service_of_mode mode) false q =
      Ok (Done (negb (QuotaQueue.draining_ q), q')) ∧ queue_ok q' ∧
    QuotaQueue.draining_ q' = QuotaQueue.draining_ q ∧
    queued q' = queued q ++ (if QuotaQueue.draining_ q then [] else [m]).
Proof.
  intros (Hinv & H0 & H1 & Hd). set (id := service_of_mode mode).
  assert (∃ svc, service_of id q = Some svc) as [svc Hsvc] by (destruct mode; [exact H0|exact H1]).
  unfold QuotaQueue.Push, QuotaQueue.push_reserve. rewrite GetService_Locked_spec, Hsvc.
  cbn [check_some mbind res_bind andb]. destruct (QuotaQueue.draining_ q) eqn:Ed.
  { exists q. split_and!; [done|unfold queue_ok; split_and!; done || congruence|done|by rewrite app_nil_r]. }
  set (q1 := QuotaQueue.set_item_count _ _ _ _).
  unfold QuotaQueue.push_queue, ProducerConsumerQueue.Push. cbn [andb].
  assert (ProducerConsumerQueue.draining_ (QuotaQueue.queue_ q1) = false) as Hq1.
  { change (ProducerConsumerQueue.draining_ (QuotaQueue.queue_ q) = false). congruence. }
  rewrite Hq1.
  eexists. split; [reflexivity|]. set (q2 := QuotaQueue.set_queue _ _).
  assert (quota_inv false (mkSystem q1 [(m, id, false)] [])) as Hi1.
  { eapply (quota_inv_step false (mkSystem q [] [])); [done|]. apply step_reserve; [done|].
    unfold QuotaQueue.push_reserve. by rewrite GetService_Locked_spec, Hsvc, Ed. }
  assert (quota_inv false (mkSystem q2 [] [])) as Hi2.
  { eapply (quota_inv_step false _ _ Hi1). apply (step_enqueue false q1 q2 m id false [] [] [] true).
    unfold QuotaQueue.push_queue, ProducerConsumerQueue.Push. cbn [andb]. by rewrite Hq1. }
  assert (∀ j, is_Some (service_of j q) → is_Some (service_of j q2)) as Hkeep.
  { intros j Hj. change (is_Some (service_of j q1)). unfold q1. rewrite service_of_set by done.
    destruct (decide _); [eauto|done]. }
  assert (QuotaQueue.draining_ q2 = false) as Hq2 by exact Ed.
  split_and!; [|done|].
  { unfold queue_ok. split_and!; [done|by apply Hkeep|by apply Hkeep|by rewrite Hq2]. }
  unfold queued, q2. cbn. rewrite fmap_app. done.
Qed.

Lemma queue_pop q : queue_ok q →
  match queued q with
  | [] => QuotaQueue.Pop false q = Ok (Done (None, q))
  | m :: l => ∃ id q', QuotaQueue.Pop false q = Ok (Done (Some (m, id), q')) ∧ queue_ok q' ∧
      QuotaQueue.draining_ q' = QuotaQueue.draining_ q ∧ queued q' = l
  end.
Proof.
  intros (Hinv & H0 & H1 & Hd). unfold queued, QuotaQueue.Pop, QuotaQueue.pop_queue,
    ProducerConsumerQueue.Pop. cbn [andb].
  destruct (ProducerConsumerQueue.queue_ (QuotaQueue.queue_ q)) as [|[m id] l] eqn:Eq.
  { cbn. by destruct q. }
  cbn [fmap list_fmap fst]. set (q1 := QuotaQueue.set_queue _ _).
  assert (quota_inv false (mkSystem q1 [] [id])) as Hi1.
  { eapply (quota_inv_step false (mkSystem q [] [])); [done|].
    apply (step_dequeue false q q1 m id false).
    unfold QuotaQueue.pop_queue, ProducerConsumerQueue.Pop. cbn [andb]. by rewrite Eq. }
  destruct (pop_release_total false (mkSystem q1 [] [id]) id) as [q2 Hq2]; [done|simpl; set_solver|].
  cbn [quota_queue] in Hq2. exists id, q2. rewrite Hq2. cbn [mbind res_bind].
  assert (quota_inv false (mkSystem q2 [] [])) as Hi2.
  { eapply (quota_inv_step false _ _ Hi1). by apply (step_release false q1 q2 id [] [] []). }
  unfold QuotaQueue.pop_release in Hq2. rewrite GetService_Locked_spec in Hq2.
  destruct (service_of id q1) as [svc|] eqn:Hsvc; [|done]. cbn [check_some mbind res_bind] in Hq2.
  apply bind_Ok in Hq2 as (? & _ & Hq2). injection Hq2 as Hq2.
  assert (∀ j, is_Some (service_of j q) → is_Some (service_of j q2)) as Hkeep.
  { intros j Hj. rewrite <- Hq2, service_of_set by done. by destruct (decide _); [eauto|]. }
  split_and!; [done| |by rewrite <- Hq2|by rewrite <- Hq2].
  unfold queue_ok. split_and!; [done|by apply Hkeep|by apply Hkeep|by rewrite <- Hq2].
Qed.

Lemma queue_drain q : queue_ok q → queue_ok (QuotaQueue.Drain q) ∧
  QuotaQueue.draining_ (QuotaQueue.Drain q) = true ∧ queued (QuotaQueue.Drain q) = queued q.
Proof.
  intros (Hinv & H0 & H1 & Hd). split_and!; [|done|done]. unfold queue_ok.
  split_and!; [|done|done|done].
  eapply (quota_inv_step false (mkSystem (QuotaQueue.mk (QuotaQueue.services_ q) true (QuotaQueue.queue_ q)) [] [])).
  - eapply (quota_inv_step false _ _ Hinv), step_drain.
  - by apply (step_drain_queue false
      (QuotaQueue.mk (QuotaQueue.services_ q) true (QuotaQueue.queue_ q)) [] []).
Qed.

(** ** Each call preserves the invariant and returns *)

Lemma pc_step_send remote rs g m mode : pc_inv remote rs g → regular m →
  ∃ g', pc_step (PSend m mode) g = Some g' ∧ pc_inv remote rs g'.
Proof.
  intros [Hp Hq Hd Hg Hr Hs Hrc Hrm Hc] Hm. destruct g as [c acc snt]. cbn [pc pc_accepted pc_sent] in *.
  destruct (queue_push (output_messages_ c) m mode Hq) as (q & Hpush & Hq' & Hdr & Hqd).
  unfold pc_step, SendMessage, push_output. cbn [pc]. unfold mbind, W_bind. rewrite Hpush.
  destruct (QuotaQueue.draining_ (output_messages_ c)) eqn:Ed; cbn [negb].
  - eexists. split; [reflexivity|]. rewrite app_nil_r in Hqd.
    split; cbn [pc pc_accepted pc_sent]; destruct c; cbn in *; rewrite ?Hqd, ?Hdr; done.
  - unfold PrivateGetProtocolConnection. destruct c as [ad li pr rp cs rcs ss ds om rc mc]; cbn in *.
    rewrite Hp. eexists. split; [reflexivity|].
    split; cbn; rewrite ?Hqd, ?Hdr, ?Hp; try done.
    + by apply Forall_app; split; [|repeat constructor].
    + destruct ss.
      * destruct Hs as [-> ->]. done.
      * destruct Hs as (l & -> & ->). exists l. by rewrite app_assoc.
      * destruct Hs as (Hds & _). rewrite Hds, bool_decide_eq_true_2 in Hd by done. congruence.
Qed.

Lemma pc_step_drain remote rs g : pc_inv remote rs g →
  ∃ g', pc_step PDrain g = Some g' ∧ pc_inv remote rs g'.
Proof.
  intros [Hp Hq Hd Hg Hr Hs Hrc Hrm Hc]. destruct g as [c acc snt]. cbn [pc pc_accepted pc_sent] in *.
  destruct (queue_drain _ Hq) as (Hq' & Hdr & Hqd).
  destruct c as [ad li pr rp cs rcs ss ds om rc mc]; cbn [pc protocol_connection_ output_messages_
    send_state_ receive_state_ drain_state_ remote_peer_ manager_calls] in *.
  unfold pc_step, Drain. cbn. rewrite Hp. eexists. split; [reflexivity|].
  split; cbn; try done. destruct ss; [done|done|]. by destruct Hs as (_ & ? & ?).
Qed.

Lemma not_closed (ss : SendState) (rcs : ReceiveState) :
  ss ≠ GOODBYE_SENT ∨ rcs ≠ GOODBYE_RECEIVED →
  bool_decide (ss = GOODBYE_SENT ∧ rcs = GOODBYE_RECEIVED) = false.
Proof. intros Hn. apply bool_decide_eq_false_2. naive_solver. Qed.

Lemma pc_step_next remote rs g : pc_inv remote rs g →
  ∃ g', pc_step PGetNext g = Some g' ∧ pc_inv remote rs g'.
Proof.
  intros [Hp Hq Hd Hg Hr Hs Hrc Hrm Hc]. destruct g as [c acc snt].
  destruct c as [ad li pr rp cs rcs ss ds om rc mc]; cbn [pc pc_accepted pc_sent protocol_connection_
    output_messages_ send_state_ receive_state_ drain_state_ remote_peer_ manager_calls] in *.
  unfold pc_step, GetNextOutputMessage, GetNextOutputMessageHelper, next_output_goodbye, pop_output,
    close_protocol_connection, PrivateGetProtocolConnection, gets, modify, mbind, W_bind, mret, W_ret.
  cbn [pc send_state_ output_messages_]. destruct ss; cbn [output_messages_].
  - destruct Hs as [-> ->]. eexists. split; [reflexivity|]. split; cbn -[queued]; try done.
    by exists [].
  - destruct Hs as (l & -> & ->). pose proof (queue_pop om Hq) as Hpop.
    destruct (queued om) as [|m ms] eqn:Eqd.
    + rewrite Hpop. cbn [fmap option_fmap option_map]. rewrite Eqd || idtac. cbn [drain_state_ set_output_messages].
      rewrite app_nil_r in Hr. destruct (bool_decide (ds ≠ DRAIN_REQUESTED)) eqn:Eds.
      * eexists. split; [reflexivity|]. split; cbn -[queued]; rewrite ?app_nil_r; try done.
        exists l. by rewrite Eqd, app_nil_r.
      * apply bool_decide_eq_false in Eds. assert (ds = DRAIN_REQUESTED) as -> by (destruct ds; [by destruct Eds|done]).
        cbn. destruct (bool_decide (rcs = GOODBYE_RECEIVED)) eqn:Er; cbn.
        -- apply bool_decide_eq_true in Er as ->. rewrite Hp. cbn. eexists. split; [reflexivity|].
           split; cbn -[queued]; rewrite ?app_nil_r; try done.
        -- apply bool_decide_eq_false in Er. eexists. split; [reflexivity|].
           split; cbn -[queued]; rewrite ?app_nil_r; try done.
           ++ rewrite Hp, !not_closed; [done|by right|by left].
    + destruct Hpop as (id & q & -> & Hq' & Hdr & Hqd). cbn [fmap option_fmap option_map fst].
      assert (regular m) as (ty & Hty & _) by (apply Forall_app in Hr as [_ Hr]; by inversion Hr).
      unfold lift. rewrite Hty. eexists. split; [reflexivity|].
      split; cbn -[queued]; rewrite ?Hdr; try done. exists (l ++ [m]). by rewrite Hqd, <- app_assoc.
  - eexists. split; [reflexivity|]. split; cbn -[queued]; rewrite ?app_nil_r; try done.
Qed.

(** What may still come after [rs]. *)
Definition next_received (remote : CanonicalPeer) (rs : list PeerMessage.t) (m : PeerMessage.t) : Prop :=
  match rs with
  | [] => m = CreateHelloMessage remote interpreter_type
  | _ => (CreateGoodbyeMessage ∉ rs) ∧ (regular m ∨ m = CreateGoodbyeMessage)
  end.

Lemma regular_not_goodbye m : regular m → PeerMessage.goodbye_message m = None.
Proof.
  intros (ty & Hty & _ & Hne). destruct m as [h [[]|] a go st re inv te]; [|done].
  destruct h, a, go, st, re, inv, te; cbn in Hty; try done. by injection Hty as <-.
Qed.

Lemma calls_for_snoc p x ms m :
  calls_for p (x :: ms ++ [m]) =
    calls_for p (x :: ms) ++
    (if decide (PeerMessage.goodbye_message m = None)
     then [HandleMessageFromRemotePeer_call (Some p) m] else []).
Proof.
  cbn [calls_for]. rewrite filter_app, fmap_app. rewrite filter_cons, filter_nil.
  by destruct (decide _).
Qed.

(** Which handler a message goes to. *)
Lemma notify_hello p c :
  NotifyMessageReceived interpreter_type (CreateHelloMessage p interpreter_type) c =
  HandleHelloMessage interpreter_type
    {| PeerMessage.hello_peer_id := peer_id p;
       PeerMessage.hello_interpreter_type := interpreter_type |} c.
Proof. reflexivity. Qed.

Lemma notify_goodbye c :
  NotifyMessageReceived interpreter_type CreateGoodbyeMessage c = HandleGoodbyeMessage c.
Proof. reflexivity. Qed.

Lemma notify_regular m c : regular m →
  NotifyMessageReceived interpreter_type m c = HandleRegularMessage m c.
Proof.
  intros (ty & Hty & Hh & Hg). unfold NotifyMessageReceived, lift, mbind, W_bind. rewrite Hty.
  by destruct ty.
Qed.

Lemma check_true {S} (P : Prop) `{Decision P} (s : S) : P → check (bool_decide P) s = Ret tt s.
Proof. intros HP. unfold check. by rewrite bool_decide_eq_true_2. Qed.

Lemma pc_receive_hello remote g : pc_inv remote [] g → receive_state_ (pc g) = NO_MESSAGE_RECEIVED →
  ∃ g', pc_step (PReceive (CreateHelloMessage remote interpreter_type)) g = Some g' ∧
    pc_inv remote [CreateHelloMessage remote interpreter_type] g'.
Proof.
  intros [Hp Hq Hd Hg Hr Hs Hrc Hrm Hc] Hst. destruct g as [c acc snt].
  destruct c as [ad li pr rp cs rcs ss ds om rc mc]; cbn [pc pc_accepted pc_sent protocol_connection_
    output_messages_ send_state_ receive_state_ drain_state_ remote_peer_ manager_calls] in *. subst rcs.
  unfold pc_step. cbn [pc]. rewrite notify_hello.
  unfold HandleHelloMessage, SetRemotePeer, gets, modify, mbind, W_bind.
  rewrite check_true by done. cbn [receive_state_]. rewrite check_true by done.
  cbn [remote_peer_ set_receive_state PeerMessage.hello_peer_id].
  assert (pr = Some false) as -> by (rewrite Hp, not_closed; [done|by right]).
  assert ({| peer_id := peer_id remote |} = remote) as Er by (by destruct remote).
  destruct Hrm as [-> | ->]; [|rewrite check_true by (by rewrite Er)];
    (eexists; split; [reflexivity|]); rewrite ?Er;
    (split; cbn -[bool_decide queued]; rewrite ?not_closed by (by right); try done).
  - by exists [].
  - by rewrite Hc.
  - by exists [].
  - by rewrite Hc.
Qed.

Lemma pc_receive_regular remote rs g m : pc_inv remote rs g → regular m →
  receive_state_ (pc g) = HELLO_RECEIVED →
  ∃ g', pc_step (PReceive m) g = Some g' ∧ pc_inv remote (rs ++ [m]) g'.
Proof.
  intros [Hp Hq Hd Hg Hr Hs Hrc Hrm Hc] Hreg Hst. destruct g as [c acc snt].
  destruct c as [ad li pr rp cs rcs ss ds om rc mc]; cbn [pc pc_accepted pc_sent protocol_connection_
    output_messages_ send_state_ receive_state_ drain_state_ remote_peer_ manager_calls] in *. subst rcs.
  destruct Hrc as (l & Hl & ->). unfold pc_step. cbn [pc]. rewrite notify_regular by done.
  unfold HandleRegularMessage, gets, modify, mbind, W_bind. cbn [receive_state_].
  rewrite check_true by done. eexists. split; [reflexivity|].
  split; cbn -[bool_decide queued calls_for]; try done.
  - exists (l ++ [m]). split; [by apply Forall_app; split; [|repeat constructor]|done].
  - rewrite Hc, Hrm. cbn [app]. rewrite calls_for_snoc, decide_True; [done|].
    by apply regular_not_goodbye.
Qed.

Lemma pc_receive_goodbye remote rs g : pc_inv remote rs g →
  receive_state_ (pc g) = HELLO_RECEIVED →
  ∃ g', pc_step (PReceive CreateGoodbyeMessage) g = Some g' ∧
    pc_inv remote (rs ++ [CreateGoodbyeMessage]) g'.
Proof.
  intros [Hp Hq Hd Hg Hr Hs Hrc Hrm Hc] Hst. destruct g as [c acc snt].
  destruct c as [ad li pr rp cs rcs ss ds om rc mc]; cbn [pc pc_accepted pc_sent protocol_connection_
    output_messages_ send_state_ receive_state_ drain_state_ remote_peer_ manager_calls] in *. subst rcs.
  destruct Hrc as (l & Hl & ->). destruct (queue_drain _ Hq) as (Hq' & Hdr & Hqd).
  unfold pc_step. cbn [pc]. rewrite notify_goodbye.
  unfold HandleGoodbyeMessage, close_protocol_connection, PrivateGetProtocolConnection,
    gets, modify, mbind, W_bind. cbn [receive_state_]. rewrite check_true by done.
  assert (pr = Some false) as -> by (rewrite Hp, not_closed; [done|by right]).
  assert (mc = calls_for remote ((CreateHelloMessage remote interpreter_type :: l) ++ [CreateGoodbyeMessage]))
    as Hcalls by (cbn [app]; by rewrite calls_for_snoc, decide_False, app_nil_r, Hc).
  cbn -[bool_decide queued calls_for].
  destruct (bool_decide (ss = GOODBYE_SENT)) eqn:Es; cbn -[bool_decide queued calls_for];
    (eexists; split; [reflexivity|]); (split; cbn -[bool_decide queued calls_for]; try done).
  - apply bool_decide_eq_true in Es as ->. done.
  - apply bool_decide_eq_true in Es as ->. by destruct Hs as (_ & ? & ?).
  - by exists l.
  - apply bool_decide_eq_false in Es. by rewrite not_closed by (by left).
  - by destruct ss.
  - by exists l.
Qed.

Lemma pc_step_receive remote rs g m : pc_inv remote rs g → next_received remote rs m →
  ∃ g', pc_step (PReceive m) g = Some g' ∧ pc_inv remote (rs ++ [m]) g'.
Proof.
  intros Hinv Hm. pose proof (inv_received _ _ _ Hinv) as Hrc.
  destruct (receive_state_ (pc g)) eqn:Est.
  - subst rs. cbn in Hm. subst m. by apply pc_receive_hello.
  - destruct Hrc as (l & Hl & ->). destruct Hm as [_ [Hreg| ->]].
    + by apply pc_receive_regular.
    + by apply pc_receive_goodbye.
  - destruct Hrc as (l & Hl & ->). exfalso. destruct Hm as [Hn _]. apply Hn.
    right. apply elem_of_app. right. left.
Qed.

(** ** Conversations *)

Lemma goodbye_not_regular : ¬ regular CreateGoodbyeMessage.
Proof. intros Hr. apply regular_not_goodbye in Hr. done. Qed.

Lemma goodbye_not_in p l : Forall regular l →
  CreateGoodbyeMessage ∉ CreateHelloMessage p interpreter_type :: l.
Proof.
  intros Hl [He|Hin]%elem_of_cons.
  { by apply (f_equal PeerMessage.goodbye_message) in He. }
  rewrite Forall_forall in Hl.
  by apply goodbye_not_regular, Hl.
Qed.

Lemma conversation_next p rs m : conversation p (rs ++ [m]) → next_received p rs m.
Proof.
  intros (regs & Hregs & Hpre). destruct rs as [|x l]; cbn [app] in Hpre.
  { apply prefix_cons_inv_1 in Hpre. by subst. }
  pose proof (prefix_cons_inv_1 _ _ _ _ Hpre) as ->. apply prefix_cons_inv_2 in Hpre.
  assert (m ∈ regs ++ [CreateGoodbyeMessage] ∧ Forall regular l) as [Hm Hl].
  { destruct Hpre as [k Hk]. rewrite <- app_assoc in Hk. cbn [app] in Hk. split.
    - rewrite Hk. apply elem_of_app. right. left.
    - assert (length l ≤ length regs)%nat as Hle.
      { apply (f_equal length) in Hk. rewrite !length_app in Hk. simpl in Hk. lia. }
      assert (l = take (length l) regs) as ->.
      { transitivity (take (length l) (l ++ m :: k)); [by rewrite take_app_length|].
        by rewrite <- Hk, take_app_le. }
      by apply Forall_take. }
  split; [by apply goodbye_not_in|].
  apply elem_of_app in Hm as [Hm|Hm]; [left|right; by apply list_elem_of_singleton in Hm].
  by rewrite Forall_forall in Hregs; apply Hregs.
Qed.

Lemma conversation_prefix p ms ms' : ms `prefix_of` ms' → conversation p ms' → conversation p ms.
Proof. intros Hp (regs & Hr & Hp'). exists regs. split; [done|by transitivity ms']. Qed.

Lemma pc_run_inv remote ops g : pc_inv remote [] g → Forall sends_regular ops →
  conversation remote (concat (receives <$> ops)) →
  ∃ g', pc_run ops g = Some g' ∧ pc_inv remote (concat (receives <$> ops)) g'.
Proof.
  intros Hinv. unfold pc_run. induction ops as [|op ops IH] using rev_ind; intros Hops Hconv.
  { by exists g. }
  rewrite fmap_app, concat_app in *. rewrite fmap_cons, fmap_nil in *. cbn [concat] in *.
  rewrite app_nil_r in *. apply Forall_app in Hops as [Hops Hop]. rewrite Forall_singleton in Hop.
  destruct IH as (g1 & Hg1 & Hi1); [done| |].
  { eapply conversation_prefix; [|exact Hconv]. by apply prefix_app_r. }
  rewrite foldl_app, Hg1. cbn [foldl mbind option_bind]. destruct op as [m mode| | |m]; cbn [receives] in *.
  - rewrite app_nil_r. apply pc_step_send; [exact Hi1|exact Hop].
  - rewrite app_nil_r. by apply pc_step_drain.
  - rewrite app_nil_r. by apply pc_step_next.
  - apply pc_step_receive; [done|]. by apply conversation_next.
Qed.

(** A connection just made and initialised. *)
Lemma pc_inv_new remote rp addr li c :
  New rp addr li = Ok c → rp = None ∨ rp = Some remote →
  pc_inv remote [] (mkPc (set_protocol_connection (Some false) c) [] []).
Proof.
  intros Hnew Hrp. unfold New in Hnew. cbn -[bool_decide] in Hnew.
  destruct (bool_decide (addr = "")); [done|]. cbn in Hnew. injection Hnew as <-.
  split; cbn; try done. unfold queue_ok. split_and!; [|by eexists..|done].
  apply quota_inv_start. split_and!; [done|done|]. intros id svc. unfold service_of.
  destruct (0 <=? id)%Z; [|done]. cbn. destruct (Z.to_nat id) as [|[|n]]; naive_solver.
Qed.

Lemma inv_sent_goodbye remote rs g : pc_inv remote rs g →
  pc_sent g `prefix_of` CreateHelloMessage local_peer interpreter_type ::
    pc_accepted g ++ [CreateGoodbyeMessage] ∧
  (CreateGoodbyeMessage ∈ pc_sent g ↔ send_state_ (pc g) = GOODBYE_SENT).
Proof.
  intros [_ _ _ _ Hr Hs _ _ _]. destruct (send_state_ (pc g)).
  - destruct Hs as [-> _]. split; [apply prefix_nil|]. split; [|done]. by intros ?%elem_of_nil.
  - destruct Hs as (l & -> & Ha). rewrite Ha. split.
    + apply prefix_cons. rewrite <- app_assoc. by apply prefix_app_r.
    + split; [|done]. intros Hin. exfalso. revert Hin. apply goodbye_not_in.
      rewrite Ha in Hr. by apply Forall_app in Hr as [? _].
  - destruct Hs as (_ & _ & ->). split; [done|]. split; [done|]. intros _.
    right. apply elem_of_app. right. left.
Qed.

Lemma inv_received_goodbye remote rs g : pc_inv remote rs g →
  CreateGoodbyeMessage ∈ rs ↔ receive_state_ (pc g) = GOODBYE_RECEIVED.
Proof.
  intros [_ _ _ _ _ _ Hrc _ _]. destruct (receive_state_ (pc g)).
  - subst rs. split; [|done]. by intros ?%elem_of_nil.
  - destruct Hrc as (l & Hl & ->). split; [|done]. intros Hin. exfalso. revert Hin.
    by apply goodbye_not_in.
  - destruct Hrc as (l & Hl & ->). split; [done|]. intros _. right. apply elem_of_app. right. left.
Qed.


(** [GetNextOutputMessageHelper] does not hold a lock from finding the queue
    empty to deciding on the goodbye.  If in between another thread sends a
    message and a third one drains the connection, the message was accepted but
    the goodbye goes out first and the message never does. *)
Theorem goodbye_can_overtake_message (c : t) (m : PeerMessage.t) (mode : SendMode) (closed : bool)
    (Hproto : protocol_connection_ c = Some closed) (Hsend : send_state_ c = HELLO_SENT)
    (Hrecv : receive_state_ c = HELLO_RECEIVED) (Hq : queue_ok (output_messages_ c))
    (Hempty : queued (output_messages_ c) = [])
    (Hopen : QuotaQueue.draining_ (output_messages_ c) = false) :
  ∃ c1 c2 c3, pop_output c = Ret None c ∧ SendMessage m mode c = Ret true c1 ∧
    Drain c1 = Ret tt c2 ∧ next_output_goodbye c2 = Ret (Some CreateGoodbyeMessage) c3 ∧
    queued (output_messages_ c3) = [m] ∧
    GetNextOutputMessage local_peer interpreter_type c3 = Ret None c3.
Proof.
  destruct (queue_push (output_messages_ c) m mode Hq) as (q & Hpush & _ & _ & Hqd).
  rewrite Hopen, Hempty in *. pose proof (queue_pop _ Hq) as Hpop. rewrite Hempty in Hpop.
  destruct c as [ad li pr rp cs rcs ss ds om rc mc]; cbn [protocol_connection_ output_messages_
    send_state_ receive_state_] in *. subst.
  do 3 eexists. split; [|split; [|split; [|split; [|split]]]].
  - unfold pop_output. cbn [output_messages_]. by rewrite Hpop.
  - unfold SendMessage, push_output, mbind, W_bind. cbn [output_messages_]. by rewrite Hpush.
  - reflexivity.
  - reflexivity.
  - exact Hqd.
  - reflexivity.
Qed.

End conversation.

(** * [ConnectionManager] *)
Module ConnectionManager.

(** The calls to [ConnectionHandler] (the transaction store). *)
Inductive handler_call :=
| NotifyNewConnection_call (remote_peer : CanonicalPeer)
| HandleMessageFromRemotePeer_call (remote_peer : option CanonicalPeer) (m : PeerMessage.t).

(** The connections ever made are in [heap]; a [PeerConnection] pointer is an
    index.  [unnamed_connections_] maps each pointer to itself. *)
Record t := mk {
  interpreter_type_ : string;
  local_peer_ : option CanonicalPeer;
  state_ : StateVariable.t;
  named_connections_ : gmap CanonicalPeer nat;
  unnamed_connections_ : gset nat;
  heap : list PeerConnection.t;
  handler_calls : list handler_call;
}.

Definition set_named x s := mk (interpreter_type_ s) (local_peer_ s) (state_ s) x
  (unnamed_connections_ s) (heap s) (handler_calls s).
Definition set_unnamed x s := mk (interpreter_type_ s) (local_peer_ s) (state_ s)
  (named_connections_ s) x (heap s) (handler_calls s).
Definition set_heap x s := mk (interpreter_type_ s) (local_peer_ s) (state_ s)
  (named_connections_ s) (unnamed_connections_ s) x (handler_calls s).
Definition set_state x s := mk (interpreter_type_ s) (local_peer_ s) x
  (named_connections_ s) (unnamed_connections_ s) (heap s) (handler_calls s).
Definition set_started ty p s := mk ty (Some p) (state_ s)
  (named_connections_ s) (unnamed_connections_ s) (heap s) (handler_calls s).
Definition call_handler x s := mk (interpreter_type_ s) (local_peer_ s) (state_ s)
  (named_connections_ s) (unnamed_connections_ s) (heap s) (handler_calls s ++ [x]).

(** A method of the connection at [ptr]. *)
Definition on_connection {A} (ptr : nat) (m : W PeerConnection.t A) : W t A := fun s =>
  match heap s !! ptr with
  | None => Abort
  | Some c =>
      match m c with
      | Ret a c' => Ret a (set_heap (<[ptr := c']> (heap s)) s)
      | Wait c' => Wait (set_heap (<[ptr := c']> (heap s)) s)
      | Abort => Abort
      end
  end.

(** [new PeerConnection(...)]. *)
Definition new_connection (remote_peer : option CanonicalPeer) (address : string)
    (locally_initiated : bool) : W t nat :=
  c ← lift (PeerConnection.New remote_peer address locally_initiated);
  ptr ← gets (fun s => length (heap s));
  _ ← modify (fun s => set_heap (heap s ++ [c]) s);
  mret ptr.

Definition New : res t :=
  v ← lifecycle;
  Ok (mk "" None v ∅ ∅ [] []).

Definition Destroy (s : t) : res unit := StateVariable.CheckState (Z.lor NOT_STARTED STOPPED) (state_ s).

Definition ChangeState (new_state : Z) : W t unit :=
  v ← gets state_;
  v' ← lift (StateVariable.ChangeState new_state v);
  modify (set_state v').

Definition interpreter_type : W t string :=
  ty ← gets interpreter_type_;
  _ ← check (negb (bool_decide (ty = "")));
  mret ty.

Definition local_peer : W t CanonicalPeer :=
  p ← gets local_peer_;
  lift (check_some p).

(** [opened] is whether the protocol server can open the connection. *)
Definition ConnectToRemotePeer (remote_peer : CanonicalPeer) (opened : bool) : W t unit :=
  '(address, _) ← lift (check_some (ParsePeerId (peer_id remote_peer)));
  ptr ← new_connection None address true;
  unnamed ← gets unnamed_connections_;
  _ ← check (bool_decide (ptr ∉ unnamed));
  _ ← modify (set_unnamed ({[ptr]} ∪ unnamed));
  if opened then on_connection ptr PeerConnection.Init else mret tt.

(** (The protocol server's [Start] is in file [ServerSockets].) *)
Definition Start (interpreter_type : string) (local_peer : CanonicalPeer) : W t unit :=
  _ ← check (negb (bool_decide (interpreter_type = "")));
  _ ← ChangeState STARTING;
  _ ← modify (set_started interpreter_type local_peer);
  _ ← lift (check_some (ParsePeerId (peer_id local_peer)));
  ChangeState RUNNING.

Definition GetAllOpenConnections : W t (list nat) :=
  gets (fun s => (snd <$> map_to_list (named_connections_ s)) ++ elements (unnamed_connections_ s)).

Fixpoint for_each {A} (f : A → W t unit) (l : list A) : W t unit :=
  match l with
  | [] => mret tt
  | x :: l' => _ ← f x; for_each f l'
  end.

(** A thread that finds connections open waits until they are gone. *)
Definition DrainAllConnections : W t unit :=
  connections ← GetAllOpenConnections;
  _ ← for_each (fun ptr => on_connection ptr PeerConnection.Drain) connections;
  empty ← gets (fun s => bool_decide (named_connections_ s = ∅ ∧ unnamed_connections_ s = ∅));
  if (empty : bool) then mret tt else wait.

Definition Stop : W t unit :=
  _ ← ChangeState STOPPING;
  _ ← DrainAllConnections;
  ChangeState STOPPED.

Definition GetOrCreateNamedConnection (canonical_peer : CanonicalPeer) (address : string) :
    W t (nat * bool) :=
  named ← gets named_connections_;
  match named !! canonical_peer with
  | Some ptr => mret (ptr, false)
  | None =>
      ptr ← new_connection (Some canonical_peer) address true;
      _ ← modify (set_named (<[canonical_peer := ptr]> named));
      mret (ptr, true)
  end.

(** [ConnectToPeer] tries again every few seconds: it waits while the server
    cannot open the connection. *)
Definition ConnectToPeer (opened : bool) : W t unit :=
  if opened then mret tt else wait.

Definition GetConnectionToPeer (canonical_peer : CanonicalPeer) (opened : bool) : W t nat :=
  '(address, _) ← lift (check_some (ParsePeerId (peer_id canonical_peer)));
  '(ptr, connection_is_new) ← GetOrCreateNamedConnection canonical_peer address;
  _ ← (if connection_is_new : bool then
         _ ← ConnectToPeer opened;
         on_connection ptr PeerConnection.Init
       else mret tt);
  mret ptr.

(** While a connection is being drained the loop tries again; it then depends on
    other threads, so it waits. *)
Definition SendMessageToRemotePeer (canonical_peer : CanonicalPeer) (m : PeerMessage.t)
    (send_mode : SendMode) (opened : bool) : W t unit :=
  v ← gets state_;
  active ← lift (StateVariable.MatchesStateMask (Z.lor (Z.lor NOT_STARTED STARTING) RUNNING) v);
  if (active : bool) then
    ptr ← GetConnectionToPeer canonical_peer opened;
    sent ← on_connection ptr (PeerConnection.SendMessage m send_mode);
    if (sent : bool) then mret tt else wait
  else mret tt.

Definition BroadcastMessage (m : PeerMessage.t) (send_mode : SendMode) : W t unit :=
  connections ← GetAllOpenConnections;
  for_each (fun ptr => _ ← on_connection ptr (PeerConnection.SendMessage m send_mode); mret tt)
    connections.

Definition GetConnectionInitiator (ptr : nat) : W t CanonicalPeer :=
  li ← on_connection ptr (gets PeerConnection.locally_initiated_);
  p ← (if li : bool then gets local_peer_ else on_connection ptr (gets PeerConnection.remote_peer_));
  lift (deref p).

Definition NotifyConnectionReceived (remote_address : string) : W t nat :=
  ptr ← new_connection None remote_address false;
  _ ← on_connection ptr PeerConnection.Init;
  _ ← modify (fun s => set_unnamed ({[ptr]} ∪ unnamed_connections_ s) s);
  mret ptr.

Definition NotifyConnectionClosed (ptr : nat) : W t unit :=
  remote_peer ← on_connection ptr (gets PeerConnection.remote_peer_);
  named ← gets named_connections_;
  unnamed ← gets unnamed_connections_;
  let named_connection := p ← remote_peer; named !! p in
  _ ← (if bool_decide (named_connection = Some ptr) then
         _ ← check (bool_decide (ptr ∉ unnamed));
         modify (set_named (match remote_peer with Some p => delete p named | None => named end))
       else
         _ ← check (bool_decide (ptr ∈ unnamed));
         modify (set_unnamed (unnamed ∖ {[ptr]})));
  on_connection ptr PeerConnection.Close.

(** The connections after a peer has identified itself, and the connection to
    drain. *)
Definition identify_connection (ptr : nat) (remote_peer : CanonicalPeer) : W t (option nat) :=
  named ← gets named_connections_;
  unnamed ← gets unnamed_connections_;
  match named !! remote_peer with
  | None =>
      _ ← check (bool_decide (ptr ∈ unnamed));
      _ ← modify (set_named (<[remote_peer := ptr]> named));
      _ ← modify (set_unnamed (unnamed ∖ {[ptr]}));
      mret None
  | Some named_connection =>
      if bool_decide (named_connection = ptr) then
        _ ← check (bool_decide (ptr ∉ unnamed));
        mret None
      else
        _ ← check (bool_decide (ptr ∈ unnamed));
        existing_connection_initiator ← GetConnectionInitiator named_connection;
        new_connection_initiator ← GetConnectionInitiator ptr;
        if (peer_id new_connection_initiator <? peer_id existing_connection_initiator)%string then
          _ ← check (bool_decide (named_connection ∉ unnamed));
          _ ← modify (set_named (<[remote_peer := ptr]> named));
          _ ← modify (set_unnamed (({[named_connection]} ∪ unnamed) ∖ {[ptr]}));
          mret (Some named_connection)
        else mret (Some ptr)
  end.

Definition NotifyRemotePeerKnown (ptr : nat) (remote_peer : CanonicalPeer) : W t unit :=
  local ← gets local_peer_;
  local ← lift (check_some local);
  _ ← check (negb (bool_decide (local = remote_peer)));
  to_drain ← identify_connection ptr remote_peer;
  _ ← match to_drain with
      | Some p => on_connection p PeerConnection.Drain
      | None => mret tt
      end;
  modify (call_handler (NotifyNewConnection_call remote_peer)).

Definition HandleMessageFromRemotePeer (remote_peer : option CanonicalPeer) (m : PeerMessage.t) :
    W t unit :=
  local ← gets local_peer_;
  _ ← lift (check_some local);
  modify (call_handler (HandleMessageFromRemotePeer_call remote_peer m)).

(** A message arrives on a connection: the connection's handler and the calls it
    makes to the manager. *)
Definition receive_message (ptr : nat) (m : PeerMessage.t) : W t unit :=
  ty ← interpreter_type;
  before ← on_connection ptr (gets PeerConnection.manager_calls);
  _ ← on_connection ptr (PeerConnection.NotifyMessageReceived ty m);
  after ← on_connection ptr (gets PeerConnection.manager_calls);
  for_each (fun call =>
      match call with
      | PeerConnection.NotifyRemotePeerKnown_call p => NotifyRemotePeerKnown ptr p
      | PeerConnection.HandleMessageFromRemotePeer_call p m' => HandleMessageFromRemotePeer p m'
      end) (drop (length before) after).

End ConnectionManager.

(** * The tables of the connection manager *)
Section manager.
Import ConnectionManager.

(** The state a call leaves, whether it returns or waits. *)
Definition left_state {S A} (o : outcome S A) : option S :=
  match o with Ret _ s | Wait s => Some s | Abort => None end.

(** A named connection is to the peer it is named after; an unnamed one is not
    named; all of them exist. *)
Record cm_inv (s : t) : Prop := {
  cm_named p i : named_connections_ s !! p = Some i →
    ∃ c, heap s !! i = Some c ∧ PeerConnection.remote_peer_ c = Some p;
  cm_unnamed i : i ∈ unnamed_connections_ s →
    (i < length (heap s))%nat ∧ ∀ p, named_connections_ s !! p ≠ Some i;
}.

Definition live (s : t) (i : nat) : Prop :=
  (∃ p, named_connections_ s !! p = Some i) ∨ i ∈ unnamed_connections_ s.

(** The computations that keep the invariant. *)
Definition keeps {A} (m : W t A) : Prop :=
  ∀ s s', cm_inv s → left_state (m s) = Some s' → cm_inv s'.

(** The methods of a connection that do not change the peer it is known to be to. *)
Definition keeps_peer {A} (m : W PeerConnection.t A) : Prop :=
  ∀ c c', left_state (m c) = Some c' →
    PeerConnection.remote_peer_ c = None ∨
    PeerConnection.remote_peer_ c' = PeerConnection.remote_peer_ c.

Lemma keeps_ret {A} (a : A) : keeps (mret a).
Proof. intros s s' Hi [= <-]. done. Qed.
Lemma keeps_gets {A} (f : t → A) : keeps (gets f).
Proof. intros s s' Hi [= <-]. done. Qed.
Lemma keeps_check b : keeps (check b).
Proof. intros s s' Hi. unfold check. destruct b; [|done]. by intros [= <-]. Qed.
Lemma keeps_waiting {A} : keeps (wait (A := A)).
Proof. intros s s' Hi [= <-]. done. Qed.
Lemma keeps_lift {A} (r : res A) : keeps (lift r).
Proof. intros s s' Hi. unfold lift. destruct r; try done. by intros [= <-]. Qed.
Lemma keeps_bind {A B} (m : W t A) (f : A → W t B) :
  keeps m → (∀ a, keeps (f a)) → keeps (m ≫= f).
Proof.
  intros Hm Hf s s' Hi. unfold mbind, W_bind. specialize (Hm s).
  destruct (m s) as [a s1|s1|] eqn:E; [|intros [= <-]; by apply Hm|done].
  intros Hs. eapply Hf; [|exact Hs]. by apply Hm.
Qed.
Lemma keeps_if {A} (b : bool) (m m' : W t A) : keeps m → keeps m' → keeps (if b then m else m').
Proof. by destruct b. Qed.
Lemma keeps_for_each {A} (f : A → W t unit) l : (∀ x, keeps (f x)) → keeps (for_each f l).
Proof. intros Hf. induction l; simpl; [apply keeps_ret|by apply keeps_bind]. Qed.

(** Changes that do not touch the tables or the connections. *)
Lemma keeps_modify (f : t → t) :
  (∀ s, named_connections_ (f s) = named_connections_ s ∧
        unnamed_connections_ (f s) = unnamed_connections_ s ∧ heap (f s) = heap s) →
  keeps (modify f).
Proof.
  intros Hf s s' [Hn Hu] [= <-]. destruct (Hf s) as (En & Eu & Eh). split; rewrite ?En, ?Eu, ?Eh; done.
Qed.

Lemma keeps_on_connection {A} i (m : W PeerConnection.t A) :
  keeps_peer m → keeps (on_connection i m).
Proof.
  intros Hm s s' [Hn Hu]. unfold on_connection. destruct (heap s !! i) as [c|] eqn:Ei; [|done].
  specialize (Hm c). destruct (m c) as [a c'|c'|]; [| |done]; intros [= <-];
    (specialize (Hm c' eq_refl); split; cbn;
     [intros p j Hp; destruct (Hn p j Hp) as (cj & Hj & Hr); destruct (decide (i = j)) as [->|];
      [exists c'; rewrite list_lookup_insert_eq by (by eapply lookup_lt_Some);
       destruct Hm as [Hm|Hm]; [congruence|split; [done|congruence]]
      |exists cj; by rewrite list_lookup_insert_ne]
     |intros j Hj; by rewrite length_insert; apply Hu]).
Qed.

Create HintDb keeps.
Hint Resolve keeps_ret keeps_gets keeps_check keeps_waiting keeps_lift keeps_if keeps_for_each
  keeps_on_connection : keeps.
Ltac keeps := repeat first [solve [eauto with keeps] | apply keeps_bind; [|intros ?] | case_match].

(** ** The connection's own methods *)
Lemma keeps_peer_ret {A} (a : A) : keeps_peer (mret a).
Proof. intros c c' [= <-]. by right. Qed.
Lemma keeps_peer_gets {A} (f : PeerConnection.t → A) : keeps_peer (gets f).
Proof. intros c c' [= <-]. by right. Qed.
Lemma keeps_peer_check b : keeps_peer (check b).
Proof. intros c c'. unfold check. destruct b; [|done]. intros [= <-]. by right. Qed.
Lemma keeps_peer_lift {A} (r : res A) : keeps_peer (lift r).
Proof. intros c c'. unfold lift. destruct r; try done. intros [= <-]. by right. Qed.
Lemma keeps_peer_bind {A B} (m : W PeerConnection.t A) (f : A → W PeerConnection.t B) :
  keeps_peer m → (∀ a, keeps_peer (f a)) → keeps_peer (m ≫= f).
Proof.
  intros Hm Hf c c'. unfold mbind, W_bind. specialize (Hm c).
  destruct (m c) as [a c1|c1|] eqn:E; [|intros [= <-]; by apply Hm|done].
  intros Hs. destruct (Hf a c1 c' Hs) as [H1|H1]; destruct (Hm c1 eq_refl) as [H2|H2];
    rewrite ?H1, ?H2 in *; auto.
Qed.
Lemma keeps_peer_modify (f : PeerConnection.t → PeerConnection.t) :
  (∀ c, PeerConnection.remote_peer_ (f c) = PeerConnection.remote_peer_ c) → keeps_peer (modify f).
Proof. intros Hf c c' [= <-]. by right. Qed.

Lemma keeps_peer_get_protocol : keeps_peer PeerConnection.PrivateGetProtocolConnection.
Proof.
  intros c c'. unfold PeerConnection.PrivateGetProtocolConnection. case_match; intros [= <-]; by right.
Qed.
Lemma keeps_peer_push m mode : keeps_peer (PeerConnection.push_output m mode).
Proof.
  intros c c'. unfold PeerConnection.push_output. repeat case_match; try done; intros [= <-]; by right.
Qed.

Hint Resolve keeps_peer_ret keeps_peer_gets keeps_peer_check keeps_peer_lift
  keeps_peer_get_protocol keeps_peer_push : keeps.
Ltac keeps_peer := repeat first
  [solve [eauto with keeps] | apply keeps_peer_bind; [|intros ?]
  | apply keeps_peer_modify; done | case_match].

Lemma keeps_peer_init : keeps_peer PeerConnection.Init.
Proof. by apply keeps_peer_modify. Qed.
Lemma keeps_peer_send m mode : keeps_peer (PeerConnection.SendMessage m mode).
Proof. unfold PeerConnection.SendMessage. keeps_peer. Qed.
Lemma keeps_peer_drain : keeps_peer PeerConnection.Drain.
Proof. unfold PeerConnection.Drain. keeps_peer. Qed.
Lemma keeps_peer_close : keeps_peer PeerConnection.Close.
Proof. by apply keeps_peer_modify. Qed.

Lemma keeps_peer_set_remote p : keeps_peer (PeerConnection.SetRemotePeer p).
Proof.
  intros c c'. unfold PeerConnection.SetRemotePeer, gets, modify, mbind, W_bind.
  destruct (PeerConnection.remote_peer_ c) as [q|] eqn:E; [|by left].
  unfold check. case_bool_decide; [|done]. intros [= <-]. right. by cbn.
Qed.

Lemma keeps_peer_notify ty m : keeps_peer (PeerConnection.NotifyMessageReceived ty m).
Proof.
  pose proof keeps_peer_set_remote.
  unfold PeerConnection.NotifyMessageReceived, PeerConnection.HandleHelloMessage,
    PeerConnection.HandleGoodbyeMessage, PeerConnection.HandleRegularMessage,
    PeerConnection.close_protocol_connection. keeps_peer.
Qed.
Hint Resolve keeps_peer_init keeps_peer_send keeps_peer_drain keeps_peer_close
  keeps_peer_notify : keeps.

(** ** The manager's methods keep the invariant *)

Lemma keeps_change_state x : keeps (ChangeState x).
Proof. unfold ChangeState. keeps. by apply keeps_modify. Qed.
Lemma keeps_call x : keeps (modify (call_handler x)).
Proof. by apply keeps_modify. Qed.
Hint Resolve keeps_change_state keeps_call : keeps.

Lemma new_connection_inv rp addr li s s' ptr :
  cm_inv s → new_connection rp addr li s = Ret ptr s' →
  ptr = length (heap s) ∧ (∃ c, heap s' = heap s ++ [c] ∧ PeerConnection.remote_peer_ c = rp) ∧
  named_connections_ s' = named_connections_ s ∧ unnamed_connections_ s' = unnamed_connections_ s ∧
  cm_inv s' ∧ (ptr ∉ unnamed_connections_ s) ∧ ∀ p, named_connections_ s !! p ≠ Some ptr.
Proof.
  intros [Hn Hu]. unfold new_connection, lift, mbind, W_bind.
  destruct (PeerConnection.New rp addr li) as [c| |] eqn:Enew; [|done|done]. intros [= <- <-].
  assert (PeerConnection.remote_peer_ c = rp) as Hc.
  { unfold PeerConnection.New in Enew. cbn -[bool_decide] in Enew.
    destruct (bool_decide (addr = "")); [done|]. by injection Enew as <-. }
  split_and!; [done|by exists c|done|done| | |].
  - split; cbn.
    + intros p i Hp. destruct (Hn p i Hp) as (ci & Hi & Hr). exists ci. split; [|done].
      by apply lookup_app_l_Some.
    + intros i Hi. destruct (Hu i Hi). rewrite length_app. split; [lia|done].
  - intros Hin. apply Hu in Hin as [Hlt _]. lia.
  - intros p Hp. destruct (Hn p _ Hp) as (c0 & Hlt & _). apply lookup_lt_Some in Hlt. lia.
Qed.

Lemma new_connection_no_wait rp addr li s s' : new_connection rp addr li s ≠ Wait s'.
Proof.
  unfold new_connection, lift, mbind, W_bind. by destruct (PeerConnection.New _ _ _).
Qed.

Lemma cm_inv_set_unnamed s i : cm_inv s → (i < length (heap s))%nat →
  (∀ p, named_connections_ s !! p ≠ Some i) →
  cm_inv (set_unnamed ({[i]} ∪ unnamed_connections_ s) s).
Proof.
  intros [Hn Hu] Hi Hni. split; cbn; [done|]. intros j [->%elem_of_singleton|Hj]%elem_of_union; auto.
Qed.

Lemma keeps_connect p b : keeps (ConnectToRemotePeer p b).
Proof.
  unfold ConnectToRemotePeer. apply keeps_bind; [apply keeps_lift|]. intros [addr port] s s' Hi.
  unfold mbind at 1, W_bind at 1. destruct (new_connection _ _ _ s) as [ptr s1|s1|] eqn:E; [| |done].
  2:{ by apply new_connection_no_wait in E. }
  destruct (new_connection_inv _ _ _ _ _ _ Hi E) as (-> & (c & Hh & _) & En & Eu & Hi1 & Hnu & Hnn).
  unfold gets, mbind at 1, W_bind at 1. rewrite Eu. unfold mbind at 1, W_bind at 1.
  rewrite check_true by done. unfold mbind at 1, W_bind at 1, modify at 1. rewrite <- Eu.
  intros Hs. eapply (keeps_if b); [| | |exact Hs]; [keeps|keeps|].
  apply cm_inv_set_unnamed; [done|rewrite Hh, length_app; simpl; lia|by rewrite En].
Qed.

Lemma keeps_received addr : keeps (NotifyConnectionReceived addr).
Proof.
  unfold NotifyConnectionReceived. intros s s' Hi.
  unfold mbind at 1, W_bind at 1. destruct (new_connection _ _ _ s) as [ptr s1|s1|] eqn:E; [| |done].
  2:{ by apply new_connection_no_wait in E. }
  destruct (new_connection_inv _ _ _ _ _ _ Hi E) as (-> & (c & Hh & _) & En & Eu & Hi1 & Hnu & Hnn).
  unfold mbind at 1, W_bind at 1, on_connection. rewrite Hh, list_lookup_middle by done.
  intros [= <-]. cbn.
  assert (cm_inv (set_heap (<[length (heap s) := PeerConnection.set_protocol_connection (Some false) c]>
    (heap s1)) s1)) as Hi2.
  { apply (keeps_on_connection (length (heap s)) PeerConnection.Init) with s1; [keeps|done|].
    unfold on_connection. by rewrite Hh, list_lookup_middle by done. }
  rewrite <- Hh. apply (cm_inv_set_unnamed _ (length (heap s))) in Hi2; [done| |by cbn; rewrite En].
  cbn. rewrite length_insert, Hh, length_app. simpl. lia.
Qed.

Lemma keeps_get_or_create p addr : keeps (GetOrCreateNamedConnection p addr).
Proof.
  unfold GetOrCreateNamedConnection. intros s s' Hi. unfold mbind at 1, W_bind at 1, gets.
  destruct (named_connections_ s !! p) as [ptr|] eqn:Ep; [by intros [= <-]|].
  unfold mbind at 1, W_bind at 1. destruct (new_connection _ _ _ s) as [ptr s1|s1|] eqn:E; [| |done].
  2:{ by apply new_connection_no_wait in E. }
  destruct (new_connection_inv _ _ _ _ _ _ Hi E) as (-> & (c & Hh & Hc) & En & Eu & Hi1 & Hnu & Hnn).
  intros [= <-]. destruct Hi1 as [Hn Hu]. rewrite <- En. split; cbn.
  - intros q i. destruct (decide (p = q)) as [<-|].
    + rewrite lookup_insert_eq. intros [= <-]. exists c. split; [|done]. by rewrite Hh, list_lookup_middle.
    + rewrite lookup_insert_ne by done. apply Hn.
  - intros i Hin. destruct (Hu i Hin) as [Hlt Hno]. split; [done|]. intros q.
    destruct (decide (p = q)) as [<-|].
    + rewrite lookup_insert_eq. intros [= <-]. by rewrite Eu in Hin.
    + rewrite lookup_insert_ne by done. apply Hno.
Qed.

(** Reading a connection does not change anything. *)
Lemma on_connection_gets {A} i (f : PeerConnection.t → A) s c :
  heap s !! i = Some c → on_connection i (gets f) s = Ret (f c) s.
Proof.
  intros Hi. unfold on_connection, gets. rewrite Hi. f_equal.
  rewrite list_insert_id by done. by destruct s.
Qed.

Lemma cm_inv_delete_named s p : cm_inv s → cm_inv (set_named (delete p (named_connections_ s)) s).
Proof.
  intros [Hn Hu]. split; cbn.
  - intros q i [_ Hq]%lookup_delete_Some. by apply Hn.
  - intros i Hi. destruct (Hu i Hi) as [Hlt Hno]. split; [done|]. intros q [_ Hq]%lookup_delete_Some.
    by apply (Hno q).
Qed.

Lemma cm_inv_delete_unnamed s i : cm_inv s → cm_inv (set_unnamed (unnamed_connections_ s ∖ {[i]}) s).
Proof. intros [Hn Hu]. split; cbn; [done|]. intros j [Hj _]%elem_of_difference. by apply Hu. Qed.

(** A named connection has one name. *)
Lemma named_unique s p q i : cm_inv s →
  named_connections_ s !! p = Some i → named_connections_ s !! q = Some i → p = q.
Proof.
  intros [Hn _] Hp Hq. destruct (Hn p i Hp) as (c & Hc & Hr). destruct (Hn q i Hq) as (c' & Hc' & Hr').
  congruence.
Qed.

Lemma closed_spec s i c : cm_inv s → heap s !! i = Some c →
  NotifyConnectionClosed i s =
    if bool_decide ((p ← PeerConnection.remote_peer_ c; named_connections_ s !! p) = Some i) then
      on_connection i PeerConnection.Close (set_named
        (match PeerConnection.remote_peer_ c with
         | Some p => delete p (named_connections_ s) | None => named_connections_ s end) s)
    else if bool_decide (i ∈ unnamed_connections_ s) then
      on_connection i PeerConnection.Close (set_unnamed (unnamed_connections_ s ∖ {[i]}) s)
    else Abort.
Proof.
  intros [Hn Hu] Hi. unfold NotifyConnectionClosed, mbind at 1, W_bind at 1.
  rewrite (on_connection_gets i _ s c Hi). unfold gets, mbind at 1, W_bind at 1.
  unfold mbind at 1, W_bind at 1. case_bool_decide as Hb; cbn -[bool_decide on_connection].
  - assert (i ∉ unnamed_connections_ s) as Hnu.
    { intros Hin. apply Hu in Hin as [_ Hno]. destruct (PeerConnection.remote_peer_ c); [|done].
      by eapply Hno. }
    unfold mbind at 1, W_bind at 1. unfold mbind at 1, W_bind at 1. by rewrite check_true by done.
  - unfold mbind at 1, W_bind at 1. unfold mbind at 1, W_bind at 1. unfold check.
    by case_bool_decide.
Qed.

Lemma keeps_closed i : keeps (NotifyConnectionClosed i).
Proof.
  intros s s' Hi. destruct (heap s !! i) as [c|] eqn:Ec.
  2:{ unfold NotifyConnectionClosed, mbind at 1, W_bind at 1, on_connection at 1. by rewrite Ec. }
  rewrite (closed_spec s i c) by done. case_bool_decide; [|case_bool_decide; [|done]];
    apply (keeps_on_connection i PeerConnection.Close keeps_peer_close).
  - destruct (PeerConnection.remote_peer_ c) as [p|]; [by apply cm_inv_delete_named|].
    by destruct s.
  - by apply cm_inv_delete_unnamed.
Qed.

Lemma live_heap s i : cm_inv s → live s i → ∃ c, heap s !! i = Some c.
Proof.
  intros [Hn Hu] [[p Hp]|Hi].
  - destruct (Hn p i Hp) as (c & Hc & _). eauto.
  - destruct (Hu i Hi) as [Hlt _]. by apply lookup_lt_is_Some_2 in Hlt.
Qed.

(** Closing a connection that is in a table succeeds, and takes it out. *)
Lemma closed_total s i : cm_inv s → live s i →
  ∃ s', NotifyConnectionClosed i s = Ret tt s' ∧ ¬ live s' i ∧ ∀ j, j ≠ i → live s' j ↔ live s j.
Proof.
  intros Hi Hl. destruct (live_heap s i Hi Hl) as [c Hc]. rewrite (closed_spec s i c) by done.
  assert (∀ s0, heap s0 = heap s → on_connection i PeerConnection.Close s0 =
    Ret tt (set_heap (<[i := PeerConnection.set_connection_state PeerConnection.CONNECTION_CLOSED c]>
      (heap s)) s0)) as Hclose.
  { intros s0 E. unfold on_connection. by rewrite E, Hc. }
  case_bool_decide as Hb.
  - destruct (PeerConnection.remote_peer_ c) as [p|] eqn:Er; [|done]. cbn in Hb.
    rewrite Hclose by done. eexists. split; [reflexivity|]. unfold live. cbn. split.
    + intros [[q [Hne Hq]%lookup_delete_Some]|Hin].
      * by rewrite (named_unique s p q i Hi Hb Hq) in Hne.
      * destruct (cm_unnamed s Hi i Hin) as [_ Hno]. by apply (Hno p).
    + intros j Hj. split; (intros [[q Hq]|Hin]; [left; exists q|by right]).
      * by apply lookup_delete_Some in Hq as [_ ?].
      * rewrite lookup_delete_ne; [done|]. intros ->. congruence.
  - assert (i ∈ unnamed_connections_ s) as Hin.
    { destruct Hl as [[p Hp]|?]; [|done]. destruct (cm_named s Hi p i Hp) as (c' & Hc' & Hr).
      rewrite Hc in Hc'. injection Hc' as <-. rewrite Hr in Hb. done. }
    rewrite bool_decide_eq_true_2 by done. rewrite Hclose by done. eexists. split; [reflexivity|].
    unfold live. cbn. split.
    + intros [[q Hq]|Hin']; [|set_solver]. destruct (cm_unnamed s Hi i Hin) as [_ Hno]. by apply (Hno q).
    + intros j Hj. set_solver.
Qed.

(** The peer that opened a connection to [remote]. *)
Definition initiator (local remote : CanonicalPeer) (c : PeerConnection.t) : CanonicalPeer :=
  if PeerConnection.locally_initiated_ c then local else remote.

Lemma initiator_spec s i c l p : heap s !! i = Some c → local_peer_ s = Some l →
  PeerConnection.remote_peer_ c = Some p →
  GetConnectionInitiator i s = Ret (initiator l p c) s.
Proof.
  intros Hi Hl Hp. unfold GetConnectionInitiator, mbind at 1, W_bind at 1, initiator.
  rewrite (on_connection_gets i _ s c Hi). unfold mbind, W_bind.
  destruct (PeerConnection.locally_initiated_ c).
  - unfold gets. by rewrite Hl.
  - rewrite (on_connection_gets i _ s c Hi). by rewrite Hp.
Qed.

Definition keep_new s i j p : t :=
  set_unnamed (({[j]} ∪ unnamed_connections_ s) ∖ {[i]})
    (set_named (<[p := i]> (named_connections_ s)) s).

(** What happens to a connection [i] that turns out to be to [p]. *)
Lemma identify_spec s i c l p : cm_inv s → heap s !! i = Some c → local_peer_ s = Some l →
  PeerConnection.remote_peer_ c = Some p →
  identify_connection i p s =
    match named_connections_ s !! p with
    | Some j =>
        if bool_decide (j = i) then Ret None s
        else if bool_decide (i ∈ unnamed_connections_ s) then
          match heap s !! j with
          | Some cj =>
              if (peer_id (initiator l p c) <? peer_id (initiator l p cj))%string
              then Ret (Some j) (keep_new s i j p) else Ret (Some i) s
          | None => Abort
          end
        else Abort
    | None =>
        if bool_decide (i ∈ unnamed_connections_ s) then
          Ret None (set_unnamed (unnamed_connections_ s ∖ {[i]})
                      (set_named (<[p := i]> (named_connections_ s)) s))
        else Abort
    end.
Proof.
  intros Hinv Hi Hl Hp. unfold identify_connection, mbind at 1, W_bind at 1, gets at 1.
  unfold mbind at 1, W_bind at 1, gets at 1.
  destruct (named_connections_ s !! p) as [j|] eqn:Ej.
  2:{ unfold mbind at 1, W_bind at 1, check. by case_bool_decide. }
  destruct (cm_named s Hinv p j Ej) as (cj & Hj & Hpj).
  assert (j ∉ unnamed_connections_ s) as Hju.
  { intros Hin. destruct (cm_unnamed s Hinv j Hin) as [_ Hno]. by apply (Hno p). }
  case_bool_decide as Hij.
  { subst j. unfold mbind, W_bind. by rewrite check_true. }
  unfold mbind at 1, W_bind at 1, check at 1. case_bool_decide; [|done].
  unfold mbind at 1, W_bind at 1. rewrite (initiator_spec s j cj l p) by done.
  unfold mbind at 1, W_bind at 1. rewrite (initiator_spec s i c l p) by done. rewrite Hj.
  destruct (_ <? _)%string; [|done]. unfold mbind at 1, W_bind at 1. by rewrite check_true.
Qed.

Lemma cm_inv_rename s i c p : cm_inv s → heap s !! i = Some c →
  PeerConnection.remote_peer_ c = Some p →
  ∀ u, (∀ j, j ∈ u → j ≠ i ∧ (j ∈ unnamed_connections_ s ∨ named_connections_ s !! p = Some j)) →
  cm_inv (set_unnamed u (set_named (<[p := i]> (named_connections_ s)) s)).
Proof.
  intros Hinv Hi Hp u Hu. split; cbn.
  - intros q j. destruct (decide (p = q)) as [<-|].
    + rewrite lookup_insert_eq. intros [= <-]. eauto.
    + rewrite lookup_insert_ne by done. by apply cm_named.
  - intros j Hj. destruct (Hu j Hj) as [Hne Hor]. split.
    + destruct Hor as [Hor|Hor]; [by apply (cm_unnamed s)|].
      destruct (cm_named s Hinv p j Hor) as (cj & Hcj & _). by eapply lookup_lt_Some.
    + intros q. destruct (decide (p = q)) as [<-|].
      * rewrite lookup_insert_eq. naive_solver.
      * rewrite lookup_insert_ne by done. intros Hq. destruct Hor as [Hor|Hor].
        -- destruct (cm_unnamed s Hinv j Hor) as [_ Hno]. by apply (Hno q).
        -- by rewrite (named_unique s p q j Hinv Hor Hq) in *.
Qed.

Lemma known_inv s s' i c p : cm_inv s → heap s !! i = Some c →
  PeerConnection.remote_peer_ c = Some p →
  left_state (NotifyRemotePeerKnown i p s) = Some s' → cm_inv s'.
Proof.
  intros Hinv Hi Hp. unfold NotifyRemotePeerKnown, mbind at 1, W_bind at 1, gets at 1.
  unfold mbind at 1, W_bind at 1, lift. destruct (local_peer_ s) as [l|] eqn:El; [|done]. cbn [check_some].
  unfold mbind at 1, W_bind at 1, check at 1. destruct (negb _); [|done].
  unfold mbind at 1, W_bind at 1. rewrite (identify_spec s i c l p) by done.
  assert (∀ (d : option nat) s1, cm_inv s1 → left_state
    ((_ ← match d with Some j => on_connection j PeerConnection.Drain | None => mret tt end;
      modify (call_handler (NotifyNewConnection_call p))) s1) = Some s' → cm_inv s') as Hrest.
  { intros d s1 H1. revert s1 s' H1. change (keeps (_ ← match d with
      Some j => on_connection j PeerConnection.Drain | None => mret tt end;
      modify (call_handler (NotifyNewConnection_call p)))). keeps. }
  destruct (named_connections_ s !! p) as [j|] eqn:Ej.
  - case_bool_decide; [by apply (Hrest None)|]. case_bool_decide; [|done].
    destruct (cm_named s Hinv p j Ej) as (cj & Hj & Hpj). rewrite Hj.
    destruct (_ <? _)%string; [|by apply (Hrest (Some i))]. apply (Hrest (Some j)).
    apply (cm_inv_rename s i c p); [done..|]. intros k. rewrite elem_of_difference, elem_of_union,
      !elem_of_singleton. naive_solver.
  - case_bool_decide; [|done]. apply (Hrest None).
    apply (cm_inv_rename s i c p); [done..|]. intros k. rewrite elem_of_difference,
      elem_of_singleton. naive_solver.
Qed.

(** The calls a received message causes. *)
Lemma notify_calls ty m c c' : PeerConnection.NotifyMessageReceived ty m c = Ret tt c' →
  PeerConnection.manager_calls c' = PeerConnection.manager_calls c ∨
  (∃ p, PeerConnection.manager_calls c' = PeerConnection.manager_calls c ++
          [PeerConnection.NotifyRemotePeerKnown_call p] ∧ PeerConnection.remote_peer_ c' = Some p) ∨
  (∃ p, PeerConnection.manager_calls c' = PeerConnection.manager_calls c ++
          [PeerConnection.HandleMessageFromRemotePeer_call p m]).
Proof.
  assert (∀ h, PeerConnection.HandleHelloMessage ty h c = Ret tt c' →
    ∃ p, PeerConnection.manager_calls c' = PeerConnection.manager_calls c ++
          [PeerConnection.NotifyRemotePeerKnown_call p] ∧ PeerConnection.remote_peer_ c' = Some p) as Hhello.
  { intros h. unfold PeerConnection.HandleHelloMessage, PeerConnection.SetRemotePeer, gets, modify,
      check, mbind, W_bind. case_bool_decide; [|done]. case_bool_decide; [|done]. cbn.
    destruct (PeerConnection.remote_peer_ c) as [q|] eqn:E.
    - case_bool_decide; [|done]. intros [= <-]. subst q. eexists. by cbn.
    - intros [= <-]. eexists. by cbn. }
  assert (PeerConnection.HandleGoodbyeMessage c = Ret tt c' →
    PeerConnection.manager_calls c' = PeerConnection.manager_calls c) as Hbye.
  { unfold PeerConnection.HandleGoodbyeMessage, PeerConnection.close_protocol_connection,
      PeerConnection.PrivateGetProtocolConnection, gets, modify, check, mbind, W_bind, mret, W_ret.
    intros Hc. repeat case_match; simplify_eq/=; done. }
  assert (PeerConnection.HandleRegularMessage m c = Ret tt c' →
    ∃ p, PeerConnection.manager_calls c' = PeerConnection.manager_calls c ++
          [PeerConnection.HandleMessageFromRemotePeer_call p m]) as Hreg.
  { unfold PeerConnection.HandleRegularMessage, gets, modify, check, mbind, W_bind.
    case_bool_decide; [|done]. intros [= <-]. eexists. by cbn. }
  unfold PeerConnection.NotifyMessageReceived, mbind at 1, W_bind at 1, lift.
  destruct (PeerMessage.GetPeerMessageType m) as [type| |]; [|done|done].
  destruct type; auto. unfold mbind, W_bind.
  destruct (PeerMessage.hello_message m) as [h|]; cbn [deref]; [|done]. eauto.
Qed.

Lemma keeps_receive i m : keeps (receive_message i m).
Proof.
  unfold receive_message. apply keeps_bind; [unfold interpreter_type; keeps|]. intros ty s s' Hinv.
  destruct (heap s !! i) as [c|] eqn:Ei.
  2:{ unfold mbind at 1, W_bind at 1, on_connection at 1. by rewrite Ei. }
  unfold mbind at 1, W_bind at 1. rewrite (on_connection_gets i _ s c Ei).
  unfold mbind at 1, W_bind at 1.
  pose proof (keeps_on_connection i _ (keeps_peer_notify ty m) s) as Hk. revert Hk.
  unfold on_connection at 1 2. rewrite Ei.
  destruct (PeerConnection.NotifyMessageReceived ty m c) as [[] c1|c1|] eqn:En; [| |done].
  2:{ intros Hk [= <-]. by apply Hk. }
  intros Hk. specialize (Hk _ Hinv eq_refl). set (s1 := set_heap _ s) in *.
  assert (heap s1 !! i = Some c1) as Hi1.
  { cbn. rewrite list_lookup_insert_eq; [done|]. by eapply lookup_lt_Some. }
  unfold mbind at 1, W_bind at 1. rewrite (on_connection_gets i _ s1 c1 Hi1).
  destruct (notify_calls ty m c c1 En) as [->|[(p & -> & Hp)|(p & ->)]].
  - rewrite drop_all. by intros [= <-].
  - rewrite drop_app_length. cbn [for_each]. unfold mbind, W_bind.
    pose proof (fun s' => known_inv s1 s' i c1 p Hk Hi1 Hp) as Hkn.
    destruct (NotifyRemotePeerKnown i p s1) as [[] s2|s2|]; [| |done]; intros [= <-]; by apply Hkn.
  - rewrite drop_app_length. cbn [for_each]. revert Hk. generalize s1. intros s2 Hk.
    eapply keeps_bind; [unfold HandleMessageFromRemotePeer; keeps|intros; keeps|done].
Qed.

(** ** Reachable states *)

(** One call to the manager, from the engine or from the protocol server; a call
    that waits counts with what it has done. *)
Inductive cm_step (s s' : t) : Prop :=
| cm_start ty p : left_state (Start ty p s) = Some s' → cm_step s s'
| cm_stop : left_state (Stop s) = Some s' → cm_step s s'
| cm_connect p opened : left_state (ConnectToRemotePeer p opened s) = Some s' → cm_step s s'
| cm_send p m mode opened :
    left_state (SendMessageToRemotePeer p m mode opened s) = Some s' → cm_step s s'
| cm_broadcast m mode : left_state (BroadcastMessage m mode s) = Some s' → cm_step s s'
| cm_received addr : left_state (NotifyConnectionReceived addr s) = Some s' → cm_step s s'
| cm_closed i : left_state (NotifyConnectionClosed i s) = Some s' → cm_step s s'
| cm_message i m : left_state (receive_message i m s) = Some s' → cm_step s s'.

Lemma keeps_send_message p m mode opened : keeps (SendMessageToRemotePeer p m mode opened).
Proof.
  pose proof keeps_get_or_create.
  unfold SendMessageToRemotePeer, GetConnectionToPeer, ConnectToPeer. keeps.
Qed.

Lemma cm_step_inv s s' : cm_inv s → cm_step s s' → cm_inv s'.
Proof.
  intros Hinv [ty p Hs|Hs|p o Hs|p m mode o Hs|m mode Hs|addr Hs|i Hs|i m Hs]; revert s s' Hinv Hs.
  - change (keeps (Start ty p)). unfold Start. keeps. by apply keeps_modify.
  - change (keeps Stop). unfold Stop, DrainAllConnections, GetAllOpenConnections. keeps.
  - apply keeps_connect.
  - apply keeps_send_message.
  - change (keeps (BroadcastMessage m mode)). unfold BroadcastMessage, GetAllOpenConnections. keeps.
    apply keeps_for_each. intros i. keeps.
  - apply keeps_received.
  - apply keeps_closed.
  - apply keeps_receive.
Qed.

Lemma cm_inv_new s0 : New = Ok s0 → cm_inv s0.
Proof.
  intros Hnew. unfold New in Hnew. apply bind_Ok in Hnew as (v & _ & Hnew). injection Hnew as <-.
  split; cbn; [by intros p i ?%lookup_empty_Some|by intros i ?%elem_of_empty].
Qed.


(** ** Two peers that connect to each other at the same time *)

Lemma string_ltb_flip (a b : string) : a ≠ b → (b <? a)%string = negb (a <? b)%string.
Proof.
  intros Hne. unfold String.ltb. rewrite (String.compare_antisym b a).
  destruct (String.compare a b) eqn:E; [|done|done].
  by apply String.compare_eq_iff in E.
Qed.

(** The manager of [l] has two connections to [p] that have just been identified:
    [x], which it opened, and [y], which the other peer opened. *)
Record two_connections (s : t) (l p : CanonicalPeer) (x y : nat) : Prop := {
  tc_inv : cm_inv s;
  tc_local : local_peer_ s = Some l;
  tc_x : ∃ c b, heap s !! x = Some c ∧ PeerConnection.locally_initiated_ c = true ∧
    PeerConnection.remote_peer_ c = Some p ∧ PeerConnection.protocol_connection_ c = Some b;
  tc_y : ∃ c b, heap s !! y = Some c ∧ PeerConnection.locally_initiated_ c = false ∧
    PeerConnection.remote_peer_ c = Some p ∧ PeerConnection.protocol_connection_ c = Some b;
  tc_unnamed : x ∈ unnamed_connections_ s ∧ y ∈ unnamed_connections_ s;
  tc_none : named_connections_ s !! p = None;
}.

(** The callbacks for the two connections, in either order. *)
Definition both_known (x_first : bool) (x y : nat) (p : CanonicalPeer) : W t unit :=
  if x_first then _ ← NotifyRemotePeerKnown x p; NotifyRemotePeerKnown y p
  else _ ← NotifyRemotePeerKnown y p; NotifyRemotePeerKnown x p.

Lemma known_first s l p i c : cm_inv s → local_peer_ s = Some l → l ≠ p →
  heap s !! i = Some c → PeerConnection.remote_peer_ c = Some p →
  i ∈ unnamed_connections_ s → named_connections_ s !! p = None →
  ∃ s', NotifyRemotePeerKnown i p s = Ret tt s' ∧ cm_inv s' ∧ local_peer_ s' = Some l ∧
    heap s' = heap s ∧ named_connections_ s' !! p = Some i ∧
    unnamed_connections_ s' = unnamed_connections_ s ∖ {[i]}.
Proof.
  intros Hinv Hl Hne Hi Hp Hu Hn.
  assert (∃ s', NotifyRemotePeerKnown i p s = Ret tt s' ∧ local_peer_ s' = Some l ∧
    heap s' = heap s ∧ named_connections_ s' !! p = Some i ∧
    unnamed_connections_ s' = unnamed_connections_ s ∖ {[i]}) as (s' & Hs & H').
  { unfold NotifyRemotePeerKnown, mbind at 1, W_bind at 1, gets at 1.
    unfold mbind at 1, W_bind at 1, lift. rewrite Hl. cbn [check_some].
    unfold mbind at 1, W_bind at 1, check at 1. rewrite bool_decide_eq_false_2 by done. cbn [negb].
    unfold mbind at 1, W_bind at 1. rewrite (identify_spec s i c l p), Hn by done.
    rewrite bool_decide_eq_true_2 by done. eexists. split; [reflexivity|]. cbn.
    by rewrite lookup_insert_eq. }
  exists s'. split; [done|]. split; [|done]. apply (known_inv s s' i c p); [done..|]. by rewrite Hs.
Qed.

Lemma known_second s l p i j ci cj bi bj : cm_inv s → local_peer_ s = Some l → l ≠ p →
  heap s !! i = Some ci → PeerConnection.remote_peer_ ci = Some p →
  PeerConnection.protocol_connection_ ci = Some bi →
  heap s !! j = Some cj → PeerConnection.protocol_connection_ cj = Some bj →
  i ∈ unnamed_connections_ s → named_connections_ s !! p = Some j → i ≠ j →
  ∃ s', NotifyRemotePeerKnown i p s = Ret tt s' ∧
    named_connections_ s' !! p =
      Some (if (peer_id (initiator l p ci) <? peer_id (initiator l p cj))%string then i else j).
Proof.
  intros Hinv Hl Hne Hi Hp Hbi Hj Hbj Hu Hn Hij.
  unfold NotifyRemotePeerKnown, mbind at 1, W_bind at 1, gets at 1.
  unfold mbind at 1, W_bind at 1, lift. rewrite Hl. cbn [check_some].
  unfold mbind at 1, W_bind at 1, check at 1. rewrite bool_decide_eq_false_2 by done. cbn [negb].
  unfold mbind at 1, W_bind at 1. rewrite (identify_spec s i ci l p), Hn by done.
  rewrite bool_decide_eq_false_2, bool_decide_eq_true_2, Hj by done.
  destruct (_ <? _)%string; unfold mbind at 1, W_bind at 1, on_connection; cbn [heap keep_new
    set_unnamed set_named]; rewrite ?Hi, ?Hj; unfold PeerConnection.Drain,
    PeerConnection.PrivateGetProtocolConnection, modify, mbind, W_bind; cbn; rewrite ?Hbi, ?Hbj;
    (eexists; split; [reflexivity|]); cbn; [by rewrite lookup_insert_eq|done].
Qed.

Lemma winner s l p x y x_first : l ≠ p → two_connections s l p x y →
  ∃ s', both_known x_first x y p s = Ret tt s' ∧
    named_connections_ s' !! p = Some (if (peer_id l <? peer_id p)%string then x else y).
Proof.
  intros Hne [Hinv Hl (cx & bx & Hx & Hix & Hpx & Hbx) (cy & by_ & Hy & Hiy & Hpy & Hby) [Hux Huy] Hn].
  assert (x ≠ y) as Hxy by congruence.
  assert (peer_id l ≠ peer_id p) as Hid by (intros E; apply Hne; destruct l, p; by f_equal).
  unfold both_known. destruct x_first; unfold mbind, W_bind.
  - destruct (known_first s l p x cx) as (s1 & -> & Hinv1 & Hl1 & Hh1 & Hn1 & Hu1); [done..|].
    destruct (known_second s1 l p y x cy cx by_ bx) as (s2 & -> & Hn2); rewrite ?Hh1, ?Hu1; try done.
    { set_solver. }
    exists s2. split; [done|]. rewrite Hn2. unfold initiator. rewrite Hix, Hiy. cbv iota.
    rewrite (string_ltb_flip (peer_id l) (peer_id p)) by done.
    by destruct (peer_id l <? peer_id p)%string.
  - destruct (known_first s l p y cy) as (s1 & -> & Hinv1 & Hl1 & Hh1 & Hn1 & Hu1); [done..|].
    destruct (known_second s1 l p x y cx cy bx by_) as (s2 & -> & Hn2); rewrite ?Hh1, ?Hu1; try done.
    { set_solver. }
    exists s2. split; [done|]. rewrite Hn2. unfold initiator. by rewrite Hix, Hiy.
Qed.


(** ** A connection that cannot be opened

    [ConnectToRemotePeer] puts the connection into the table before it is
    opened, and leaves it there, not initialised, when that fails.  The next
    broadcast then waits for it to be initialised, and so does draining the
    connections to stop the peer. *)
Theorem failed_connect_blocks_broadcast (s s' : t) (p : CanonicalPeer) (m : PeerMessage.t)
    (mode : SendMode) (Hinv : cm_inv s)
    (Hempty : named_connections_ s = ∅ ∧ unnamed_connections_ s = ∅)
    (Hfail : ConnectToRemotePeer p false s = Ret tt s') :
  (∃ s1, BroadcastMessage m mode s' = Wait s1) ∧ (∃ s1, DrainAllConnections s' = Wait s1).
Proof.
  destruct Hempty as [Hn Hu]. unfold ConnectToRemotePeer, lift in Hfail.
  unfold mbind at 1, W_bind at 1 in Hfail.
  destruct (check_some (ParsePeerId (peer_id p))) as [[addr port]| |]; [|done|done].
  unfold mbind at 1, W_bind at 1 in Hfail.
  destruct (new_connection None addr true s) as [ptr s1|s1|] eqn:E; [|done|done].
  pose proof (new_connection_inv _ _ _ _ _ _ Hinv E) as (-> & (c & Hh & _) & En & Eu & _ & Hnu & _).
  assert (PeerConnection.protocol_connection_ c = None ∧ queue_ok (PeerConnection.output_messages_ c) ∧
          QuotaQueue.draining_ (PeerConnection.output_messages_ c) = false) as (Hpc & Hq & Hdr).
  { unfold new_connection, lift, mbind at 1, W_bind at 1 in E.
    destruct (PeerConnection.New None addr true) as [c0| |] eqn:Enew; [|done|done].
    injection E as <-. apply app_inv_head in Hh. injection Hh as ->.
    pose proof (pc_inv_new p "" p None addr true c Enew (or_introl eq_refl)) as Hpi.
    apply inv_queue in Hpi. unfold PeerConnection.New in Enew.
    cbn -[bool_decide] in Enew. destruct (bool_decide _); [done|]. by injection Enew as <-. }
  unfold gets, mbind at 1, W_bind at 1 in Hfail. rewrite Eu in Hfail.
  unfold mbind at 1, W_bind at 1 in Hfail. rewrite check_true in Hfail by done.
  injection Hfail as <-.
  assert (∀ st, GetAllOpenConnections (set_unnamed ({[length (heap s)]} ∪ ∅) st) =
    Ret ((snd <$> map_to_list (named_connections_ st)) ++ [length (heap s)])
      (set_unnamed ({[length (heap s)]} ∪ ∅) st)) as Hall.
  { intros st. unfold GetAllOpenConnections, gets. cbn. by rewrite union_empty_r_L, elements_singleton. }
  assert (heap s1 !! length (heap s) = Some c) as Hc by (by rewrite Hh, list_lookup_middle).
  rewrite Hu. split.
  - unfold BroadcastMessage, mbind at 1, W_bind at 1. rewrite Hall, En, Hn, map_to_list_empty. cbn [fmap list_fmap app].
    cbn [for_each]. unfold mbind, W_bind, on_connection. cbn [heap set_unnamed]. rewrite Hc.
    unfold PeerConnection.SendMessage, PeerConnection.push_output, mbind, W_bind.
    destruct (queue_push (PeerConnection.output_messages_ c) m mode Hq) as (q & -> & _).
    destruct (QuotaQueue.draining_ _) eqn:Ed; cbn [negb].
    + congruence.
    + unfold PeerConnection.PrivateGetProtocolConnection. cbn. rewrite Hpc. eauto.
  - unfold DrainAllConnections, mbind at 1, W_bind at 1. rewrite Hall, En, Hn, map_to_list_empty. cbn [fmap list_fmap app].
    cbn [for_each]. unfold mbind, W_bind, on_connection. cbn [heap set_unnamed]. rewrite Hc.
    unfold PeerConnection.Drain, PeerConnection.PrivateGetProtocolConnection, modify, mbind, W_bind.
    cbn. rewrite Hpc. eauto.
Qed.

End manager.

(** * Concrete runs *)

Definition peer_a : CanonicalPeer := {| peer_id := "ip/10.0.0.1/1025" |}.
Definition peer_b : CanonicalPeer := {| peer_id := "ip/10.0.0.2/1025" |}.

Example peer_a_parses : is_Some (ParsePeerId (peer_id peer_a)).
Proof. vm_compute. eauto. Qed.

(** A connection as [New] makes it, with the protocol connection set. *)
Definition new_pc (remote_peer : option CanonicalPeer) (li : bool) (proto : option bool) : PeerConnection.t :=
  match PeerConnection.New remote_peer "10.0.0.2" li with
  | Ok c => PeerConnection.set_protocol_connection proto c
  | _ => PeerConnection.mk "" li None None PeerConnection.CONNECTION_OPEN
           PeerConnection.NO_MESSAGE_RECEIVED PeerConnection.NO_MESSAGE_SENT
           PeerConnection.NO_DRAIN_REQUESTED
           (QuotaQueue.mk [] false (ProducerConsumerQueue.mk 0 [] false)) 0 []
  end.

Definition test_message_1 : PeerMessage.t :=
  PeerMessage.GetObject {| PeerMessage.go_object_id := {| high_word := 1; low_word := 2 |} |}.

Lemma test_message_1_regular : regular test_message_1.
Proof. exists PeerMessage.GET_OBJECT. split; [reflexivity|done]. Qed.

Definition conversation_ops : list pc_op :=
  [PGetNext; PSend test_message_1 NON_BLOCKING_MODE; PReceive (PeerConnection.CreateHelloMessage peer_b "toy_lang");
   PReceive test_message_1; PGetNext; PDrain; PGetNext; PReceive PeerConnection.CreateGoodbyeMessage].


Lemma goodbye_can_overtake_message_witness :
  ∃ c1 c2 c3,
    PeerConnection.SendMessage test_message_1 NON_BLOCKING_MODE
      (PeerConnection.set_receive_state PeerConnection.HELLO_RECEIVED
        (PeerConnection.set_send_state PeerConnection.HELLO_SENT (new_pc None false (Some false))))
      = Ret true c1 ∧
    PeerConnection.Drain c1 = Ret tt c2 ∧
    PeerConnection.next_output_goodbye c2 = Ret (Some PeerConnection.CreateGoodbyeMessage) c3 ∧
    queued (PeerConnection.output_messages_ c3) = [test_message_1].
Proof.
  destruct (goodbye_can_overtake_message peer_a "toy_lang"
    (PeerConnection.set_receive_state PeerConnection.HELLO_RECEIVED
      (PeerConnection.set_send_state PeerConnection.HELLO_SENT (new_pc None false (Some false))))
    test_message_1 NON_BLOCKING_MODE false) as (c1 & c2 & c3 & _ & H1 & H2 & H3 & H4 & _).
  - reflexivity.
  - reflexivity.
  - reflexivity.
  - apply (inv_queue peer_a "" peer_b [] (mkPc (new_pc None false (Some false)) [] [])).
    apply (pc_inv_new peer_a "" peer_b None "10.0.0.2" false (new_pc None false None)); [reflexivity|].
    left. reflexivity.
  - reflexivity.
  - reflexivity.
  - exists c1, c2, c3. split; [exact H1|split; [exact H2|split; [exact H3|exact H4]]].
Defined.

Definition new_manager : ConnectionManager.t :=
  match ConnectionManager.New with
  | Ok s => s
  | _ => ConnectionManager.mk "" None (StateVariable.mk ∅ 0) ∅ ∅ [] []
  end.

(** A manager of [l] with two connections to [p], both identified. *)
Definition two_connections_state (l p : CanonicalPeer) : ConnectionManager.t :=
  ConnectionManager.mk "toy_lang" (Some l) (StateVariable.mk ∅ RUNNING) ∅ {[0%nat; 1%nat]}
    [new_pc (Some p) true (Some false); new_pc (Some p) false (Some false)] [].

Lemma two_connections_state_ok l p : two_connections (two_connections_state l p) l p 0 1.
Proof.
  split.
  - split; cbn; [by intros q i ?%lookup_empty_Some|]. intros i Hi. split; [|done].
    apply elem_of_union in Hi as [->%elem_of_singleton| ->%elem_of_singleton]; lia.
  - reflexivity.
  - eexists _, false. split; [reflexivity|]. repeat split.
  - eexists _, false. split; [reflexivity|]. repeat split.
  - cbn. set_solver.
  - reflexivity.
Qed.



Lemma failed_connect_blocks_broadcast_witness :
  ∃ s s1, ConnectionManager.ConnectToRemotePeer peer_b false new_manager = Ret tt s ∧
    ConnectionManager.BroadcastMessage test_message_1 NON_BLOCKING_MODE s = Wait s1.
Proof.
  set (s' := match left_state (ConnectionManager.ConnectToRemotePeer peer_b false new_manager) with
             | Some s => s | None => new_manager end).
  destruct (failed_connect_blocks_broadcast new_manager s' peer_b test_message_1 NON_BLOCKING_MODE)
    as [[s1 Hs1] _].
  - apply cm_inv_new. reflexivity.
  - split; reflexivity.
  - vm_compute. reflexivity.
  - exists s', s1. split; [vm_compute; reflexivity|exact Hs1].
Defined.
