(* ===== verification/PeerImpl.v ===== *)
(** * Starting and stopping a peer

    [engine/peer_impl.{h,cc}] and [engine/create_network_peer.cc]: a peer owns the map
    of canonical peers, the connection manager and the transaction store, which is
    made when the peer starts.  The store is a parameter here ([NewTransactionStore],
    [StoreRunProgram]); files [TransactionStore] and [RecordingThread] model it. *)
From S2P Require Import Prelude Text Ids VersionMap Queues Values Events Connections.
From stdpp Require Import base tactics list strings gmap.
From Stdlib Require Import ZArith Lia.
#[local] Open Scope string_scope.
#[local] Open Scope Z_scope.

Module PeerImpl.
Section peer_impl.
Context {Store : Type} (NewTransactionStore : CanonicalPeer → res Store).
Context (StoreRunProgram : Store → outcome Store Value).

Record t := mk {
  canonical_peer_map_ : CanonicalPeerMap;
  connection_manager_ : ConnectionManager.t;
  transaction_store_ : option Store;
  state_ : StateVariable.t;
}.

Definition New : res t :=
  v ← lifecycle; cm ← ConnectionManager.New; Ok (mk NewCanonicalPeerMap cm None v).

Definition Destroy (p : t) : res unit :=
  StateVariable.CheckState (Z.lor NOT_STARTED STOPPED) (state_ p).

Definition set_map x p := mk x (connection_manager_ p) (transaction_store_ p) (state_ p).
Definition set_manager x p := mk (canonical_peer_map_ p) x (transaction_store_ p) (state_ p).
Definition set_store x p := mk (canonical_peer_map_ p) (connection_manager_ p) x (state_ p).
Definition set_state x p := mk (canonical_peer_map_ p) (connection_manager_ p) (transaction_store_ p) x.

Definition ChangeState (new_state : Z) : W t unit :=
  v ← gets state_; v' ← lift (StateVariable.ChangeState new_state v); modify (set_state v').

(** [canonical_peer_map_.GetCanonicalPeer(peer_id)]: the peer at the pointer. *)
Definition get_canonical_peer (id : string) : W t CanonicalPeer := fun p =>
  let '(ptr, m) := GetCanonicalPeer id (canonical_peer_map_ p) in
  match peers_heap m !! ptr with Some peer => Ret peer (set_map m p) | None => Abort end.

Definition with_manager {A} (m : W ConnectionManager.t A) : W t A := fun p =>
  match m (connection_manager_ p) with
  | Ret a c => Ret a (set_manager c p)
  | Wait c => Wait (set_manager c p)
  | Abort => Abort
  end.

(** The loop over the known peers; with each, whether the connection can be
    opened. *)
Fixpoint connect_all (known_peers : list (string * bool)) : W t unit :=
  match known_peers with
  | [] => mret tt
  | (peer_id, opened) :: rest =>
      known_peer ← get_canonical_peer peer_id;
      _ ← with_manager (ConnectionManager.ConnectToRemotePeer known_peer opened);
      connect_all rest
  end.

Definition Start (interpreter_type local_address : string) (peer_port : Z)
    (known_peers : list (string * bool)) : W t unit :=
  _ ← ChangeState STARTING;
  local_peer ← get_canonical_peer (MakePeerId local_address peer_port);
  store ← lift (NewTransactionStore local_peer);
  _ ← modify (set_store (Some store));
  _ ← with_manager (ConnectionManager.Start interpreter_type local_peer);
  _ ← connect_all known_peers;
  ChangeState RUNNING.

(** The result is [None] if the peer is not running any more. *)
Definition RunProgram : W t (option Value) := fun p =>
  match StateVariable.WaitForNotState (Z.lor NOT_STARTED STARTING) (state_ p) with
  | Ok Blocked => Wait p
  | Ok (Done st) =>
      if negb (st =? RUNNING) then Ret None p
      else match transaction_store_ p with
           | None => Abort
           | Some store =>
               match StoreRunProgram store with
               | Ret v store => Ret (Some v) (set_store (Some store) p)
               | Wait store => Wait (set_store (Some store) p)
               | Abort => Abort
               end
           end
  | _ => Abort
  end.

Definition Stop : W t unit :=
  _ ← ChangeState STOPPING;
  _ ← with_manager ConnectionManager.Stop;
  _ ← modify (set_store None);
  ChangeState STOPPED.

(** [CreateNetworkPeer]. *)
Definition CreateNetworkPeer (interpreter_type local_address : string) (peer_port : Z)
    (known_peers : list (string * bool)) : outcome t unit :=
  match New with
  | Ok p => Start interpreter_type local_address peer_port known_peers p
  | _ => Abort
  end.

(** ** What a started peer is *)
Definition valid_id (id : string) : Prop := ∃ address port, ParsePeerId id = Some (address, port) ∧ address ≠ "".

(** The state variable of the peer or of the connection manager. *)
Definition transitions : gset (Z * Z) :=
  match lifecycle with Ok v => StateVariable.state_transitions_ v | _ => ∅ end.
Definition at_state (st : Z) : StateVariable.t := StateVariable.mk transitions st.
Definition next_state (st st' : Z) : Prop :=
  (st, st') ∈ [(NOT_STARTED, STARTING); (STARTING, RUNNING); (RUNNING, STOPPING); (STOPPING, STOPPED)].

Lemma change_to st st' : next_state st st' → StateVariable.ChangeState st' (at_state st) = Ok (at_state st').
Proof.
  unfold next_state. rewrite !elem_of_cons, elem_of_nil.
  intros [[= -> ->]|[[= -> ->]|[[= -> ->]|[[= -> ->]|[]]]]]; reflexivity.
Qed.

(** The peer at the pointer that [GetCanonicalPeer] returns has the id. *)
Lemma get_canonical_peer_Ret id p :
  canonical_peer_map_wf (canonical_peer_map_ p) →
  ∃ m, get_canonical_peer id p = Ret {| peer_id := id |} (set_map m p) ∧ canonical_peer_map_wf m.
Proof.
  intros Hwf. unfold get_canonical_peer. destruct (GetCanonicalPeer id (canonical_peer_map_ p)) as [ptr m] eqn:E.
  destruct (GetCanonicalPeer_spec id (canonical_peer_map_ p) ptr m Hwf E) as (Hm & Hp & _). rewrite Hp. eauto.
Qed.

(** A connection that was requested: it is initialised if it could be opened. *)
Definition requested (x : string * bool) (c : PeerConnection.t) : Prop :=
  (∃ address port, ParsePeerId x.1 = Some (address, port) ∧ PeerConnection.remote_address_ c = address) ∧
  PeerConnection.locally_initiated_ c = true ∧ PeerConnection.remote_peer_ c = None ∧
  PeerConnection.protocol_connection_ c = if x.2 then Some false else None.

(** The manager [c'] is [c] with the connections of [xs]. *)
Record connected (xs : list (string * bool)) (c c' : ConnectionManager.t) : Prop := {
  con_heap : ∃ cs, ConnectionManager.heap c' = (ConnectionManager.heap c ++ cs)%list ∧ Forall2 requested xs cs;
  con_unnamed : ConnectionManager.unnamed_connections_ c' =
    ConnectionManager.unnamed_connections_ c ∪ set_seq (length (ConnectionManager.heap c)) (length xs);
  con_named : ConnectionManager.named_connections_ c' = ConnectionManager.named_connections_ c;
  con_state : ConnectionManager.state_ c' = ConnectionManager.state_ c;
  con_local : ConnectionManager.local_peer_ c' = ConnectionManager.local_peer_ c;
}.

Lemma connected_nil c : connected [] c c.
Proof.
  split; try done; [exists []; rewrite app_nil_r; split; [done|constructor]|]. simpl. by rewrite union_empty_r_L.
Qed.

Lemma connect_one id opened c :
  valid_id id → (∀ i, i ∈ ConnectionManager.unnamed_connections_ c → (i < length (ConnectionManager.heap c))%nat) →
  ∃ c', ConnectionManager.ConnectToRemotePeer {| peer_id := id |} opened c = Ret tt c' ∧ connected [(id, opened)] c c'.
Proof.
  intros (address & port & Hp & Hne) Hlt. unfold ConnectionManager.ConnectToRemotePeer, ConnectionManager.new_connection.
  cbv [mbind W_bind lift gets modify]. simpl peer_id. rewrite Hp. simpl.
  unfold PeerConnection.New. rewrite (bool_decide_false (address = "")) by done. simpl.
  set (pc := PeerConnection.mk _ _ _ _ _ _ _ _ _ _ _).
  unfold check. rewrite bool_decide_true by (intros Hin%Hlt; lia).
  destruct opened.
  - unfold ConnectionManager.on_connection. simpl. rewrite lookup_app_r, Nat.sub_diag by lia. simpl.
    eexists. split; [done|]. split; simpl; try done.
    + eexists [_]. rewrite insert_app_r_alt, Nat.sub_diag by lia. simpl. split; [done|]. repeat constructor. eauto.
    + set_solver.
  - eexists. split; [done|]. split; simpl; try done.
    + eexists [_]. split; [done|]. repeat constructor. eauto.
    + set_solver.
Qed.

Lemma connected_cons x xs c c1 c2 : connected [x] c c1 → connected xs c1 c2 → connected (x :: xs) c c2.
Proof.
  intros [(cs1 & E1 & F1) U1 N1 S1 L1] [(cs2 & E2 & F2) U2 N2 S2 L2]. split; try congruence.
  - exists (cs1 ++ cs2)%list. rewrite E2, E1, app_assoc. split; [done|]. change (x :: xs) with ([x] ++ xs)%list. by apply Forall2_app.
  - rewrite U2, U1, E1, length_app, <- (Forall2_length _ _ _ F1). simpl.
    rewrite Nat.add_1_r. set_solver.
Qed.

Lemma connect_all_Ret xs p :
  canonical_peer_map_wf (canonical_peer_map_ p) → Forall (fun x => valid_id x.1) xs →
  (∀ i, i ∈ ConnectionManager.unnamed_connections_ (connection_manager_ p) →
    (i < length (ConnectionManager.heap (connection_manager_ p)))%nat) →
  ∃ p', connect_all xs p = Ret tt p' ∧ connected xs (connection_manager_ p) (connection_manager_ p') ∧
    state_ p' = state_ p ∧ transaction_store_ p' = transaction_store_ p.
Proof.
  intros Hwf HF. revert p Hwf. induction HF as [|[id opened] xs Hid _ IH]; intros p Hwf Hlt; simpl.
  { eexists. split_and!; [done|apply connected_nil|done..]. }
  destruct (get_canonical_peer_Ret id p Hwf) as (m & Hm & Hwf'). cbv [mbind W_bind]. rewrite Hm.
  destruct (connect_one id opened (connection_manager_ p) Hid Hlt) as (c & Hc & Hcon).
  unfold with_manager. simpl. rewrite Hc.
  destruct (IH (set_manager c (set_map m p)) Hwf') as (p' & Hp' & Hcon' & Hs & Ht).
  - simpl. destruct Hcon as [(cs & -> & F) -> _ _ _]. rewrite length_app, <- (Forall2_length _ _ _ F). simpl.
    intros i. rewrite !elem_of_union, elem_of_singleton, elem_of_empty. intros [Hi%Hlt|[->|[]]]; lia.
  - exists p'. split_and!; [done|by eapply connected_cons|done..].
Qed.

(** [Start] of the connection manager. *)
Lemma manager_starts ty local c :
  ty ≠ "" → valid_id (peer_id local) → ConnectionManager.New = Ok c →
  ∃ c', ConnectionManager.Start ty local c = Ret tt c' ∧ ConnectionManager.state_ c' = at_state RUNNING ∧
    ConnectionManager.local_peer_ c' = Some local ∧ ConnectionManager.heap c' = [] ∧
    ConnectionManager.unnamed_connections_ c' = ∅ ∧ ConnectionManager.named_connections_ c' = ∅.
Proof.
  intros Hty (address & port & Hp & _) Hc.
  assert (c = ConnectionManager.mk "" None (at_state NOT_STARTED) ∅ ∅ [] []) as ->
    by (by injection Hc as <-).
  unfold ConnectionManager.Start, ConnectionManager.ChangeState, check. cbv [mbind W_bind lift gets modify].
  rewrite (bool_decide_false (ty = "")) by done. cbn [negb ConnectionManager.state_].
  rewrite change_to by (unfold next_state; set_solver). rewrite Hp. cbn [ConnectionManager.state_ ConnectionManager.set_state ConnectionManager.set_started check_some].
  rewrite change_to by (unfold next_state; set_solver). eexists. split_and!; done.
Qed.

Lemma start_Ret ty address port known store c v :
  ty ≠ "" → valid_id (MakePeerId address port) → Forall (fun x => valid_id x.1) known →
  NewTransactionStore {| peer_id := MakePeerId address port |} = Ok store →
  ConnectionManager.New = Ok c → v = at_state NOT_STARTED →
  ∃ p, Start ty address port known (mk NewCanonicalPeerMap c None v) = Ret tt p ∧
    state_ p = at_state RUNNING ∧ transaction_store_ p = Some store ∧
    ConnectionManager.state_ (connection_manager_ p) = at_state RUNNING ∧
    ConnectionManager.local_peer_ (connection_manager_ p) = Some {| peer_id := MakePeerId address port |} ∧
    ConnectionManager.named_connections_ (connection_manager_ p) = ∅ ∧
    ConnectionManager.unnamed_connections_ (connection_manager_ p) = set_seq 0 (length known) ∧
    Forall2 requested known (ConnectionManager.heap (connection_manager_ p)).
Proof.
  intros Hty Hlocal Hknown Hstore Hc ->.
  destruct (manager_starts ty {| peer_id := MakePeerId address port |} c Hty Hlocal Hc)
    as (c1 & Hc1 & Hs1 & Hl1 & Hh1 & Hu1 & Hn1).
  unfold Start, ChangeState. cbv [mbind W_bind lift gets modify]. cbn [state_].
  rewrite change_to by (unfold next_state; set_solver).
  set (p0 := set_state _ _).
  destruct (get_canonical_peer_Ret (MakePeerId address port) p0) as (m & -> & Hwf); [apply canonical_peer_map_wf_new|].
  rewrite Hstore. set (p1 := set_store _ _).
  unfold with_manager. change (connection_manager_ p1) with c. rewrite Hc1.
  destruct (connect_all_Ret known (set_manager c1 p1)) as (p2 & -> & Hcon & Hs2 & Ht2).
  - exact Hwf.
  - exact Hknown.
  - simpl. rewrite Hu1. set_solver.
  - rewrite Hs2. cbn [state_ set_manager p1 set_store p0 set_state set_map].
    rewrite change_to by (unfold next_state; set_solver). eexists. split; [done|].
    simpl in Hcon. destruct Hcon as [(cs & Eh & HF) Hu Hn Hs Hl]. cbn.
    rewrite Ht2, Hs, Hl, Hn, Hu, Hu1, Hh1, Eh, Hh1. split_and!; try done. simpl. by rewrite union_empty_l_L.
Qed.

(** Stopping a peer that has no connections returns at once. *)
Lemma stop_idle p :
  state_ p = at_state RUNNING → ConnectionManager.state_ (connection_manager_ p) = at_state RUNNING →
  ConnectionManager.named_connections_ (connection_manager_ p) = ∅ →
  ConnectionManager.unnamed_connections_ (connection_manager_ p) = ∅ →
  ∃ p', Stop p = Ret tt p' ∧ state_ p' = at_state STOPPED ∧ transaction_store_ p' = None.
Proof.
  intros Hs Hms Hn Hu. unfold Stop, ChangeState, with_manager, ConnectionManager.Stop,
    ConnectionManager.DrainAllConnections, ConnectionManager.ChangeState, ConnectionManager.GetAllOpenConnections.
  cbv [mbind W_bind lift gets modify]. rewrite Hs, change_to by (unfold next_state; set_solver).
  cbn [connection_manager_ set_state]. rewrite Hms, change_to by (unfold next_state; set_solver).
  cbn [ConnectionManager.named_connections_ ConnectionManager.unnamed_connections_ ConnectionManager.set_state].
  rewrite Hn, Hu. rewrite map_to_list_empty, elements_empty. simpl ConnectionManager.for_each. cbv [mret W_ret].
  cbn [ConnectionManager.named_connections_ ConnectionManager.unnamed_connections_ ConnectionManager.set_state ConnectionManager.state_].
  rewrite Hn, Hu, bool_decide_true by done. cbv [mret W_ret]. cbn [ConnectionManager.state_ ConnectionManager.set_state].
  rewrite change_to by (unfold next_state; set_solver). cbn [state_ set_manager set_store set_state].
  rewrite change_to by (unfold next_state; set_solver). eexists. split_and!; reflexivity.
Qed.

(** [CreateNetworkPeer] with a usable address and known peers
    whose ids can be parsed returns a running peer: the store is made for the
    local peer, and for every known peer, in order, there is one connection, still
    unnamed, that is initialised if it could be opened.  A second [Start] ends the
    process.  Before [Start] a program waits, and after [Stop], which returns at
    once if there were no connections, it is not run and the peer may be
    destroyed. *)
Theorem peer_starts ty address port known store :
  ty ≠ "" → valid_id (MakePeerId address port) → Forall (fun x => valid_id x.1) known →
  NewTransactionStore {| peer_id := MakePeerId address port |} = Ok store →
  ∃ p0 p, New = Ok p0 ∧ RunProgram p0 = Wait p0 ∧ CreateNetworkPeer ty address port known = Ret tt p ∧
    state_ p = at_state RUNNING ∧ transaction_store_ p = Some store ∧
    ConnectionManager.local_peer_ (connection_manager_ p) = Some {| peer_id := MakePeerId address port |} ∧
    ConnectionManager.named_connections_ (connection_manager_ p) = ∅ ∧
    ConnectionManager.unnamed_connections_ (connection_manager_ p) = set_seq 0 (length known) ∧
    Forall2 requested known (ConnectionManager.heap (connection_manager_ p)) ∧
    (∀ ty' address' port' known', Start ty' address' port' known' p = Abort) ∧
    (known = [] → ∃ p', Stop p = Ret tt p' ∧ RunProgram p' = Ret None p' ∧ Destroy p' = Ok tt).
Proof.
  intros Hty Hlocal Hknown Hstore.
  destruct ConnectionManager.New as [c| |] eqn:Hc; [|done..].
  destruct (start_Ret ty address port known store c _ Hty Hlocal Hknown Hstore Hc eq_refl)
    as (p & Hp & Hs & Ht & Hms & Hl & Hn & Hu & HF).
  exists (mk NewCanonicalPeerMap c None (at_state NOT_STARTED)), p. split_and!; try done.
  - unfold New. rewrite Hc. reflexivity.
  - unfold CreateNetworkPeer, New. rewrite Hc. exact Hp.
  - intros ty' address' port' known'. unfold Start, ChangeState. cbv [mbind W_bind lift gets modify]. by rewrite Hs.
  - intros ->. destruct (stop_idle p) as (p' & E & Hs' & _); [done..|by rewrite Hu|].
    exists p'. split; [done|]. unfold RunProgram, Destroy. rewrite Hs'. by split.
Qed.
End peer_impl.
End PeerImpl.

Lemma peer_starts_witness :
  ∃ p, PeerImpl.CreateNetworkPeer (fun local => Ok (peer_id local)) "toy_lang" "10.0.0.1" 1025
         [("ip/10.0.0.2/1026", true); ("ip/10.0.0.3/80", false)] = Ret tt p ∧
    PeerImpl.transaction_store_ p = Some "ip/10.0.0.1/1025".
Proof.
  destruct (PeerImpl.peer_starts (fun local => Ok (peer_id local)) (fun _ => Abort) "toy_lang" "10.0.0.1" 1025
    [("ip/10.0.0.2/1026", true); ("ip/10.0.0.3/80", false)] "ip/10.0.0.1/1025") as (p0 & p & _ & _ & Hp & _ & Ht & _).
  - done.
  - eexists _, _. split; [vm_compute; reflexivity|done].
  - repeat apply Forall_cons_2; try apply Forall_nil_2; (eexists _, _; split; [vm_compute; reflexivity|done]).
  - reflexivity.
  - eauto.
Defined.
