(* ===== verification/LiveObject.v ===== *)
(** [engine/live_object.{h,cc}] and [engine/live_object_node.{h,cc}]: local
    objects shared copy-on-write between live objects.

    A [LiveObject] points to a [LiveObjectNode], which owns a [LocalObject] and
    counts the live objects that point to it.  Both live in a heap; a pointer
    is an index.  A call of [LiveObject::InvokeMethod] is two steps, the ones
    before and after the call of [LocalObject::InvokeMethod], so that what the
    method does in between (including a call of a method on the same live
    object) can be any sequence of steps. *)
From stdpp Require Import base tactics list gmap.
From Stdlib Require Import ZArith Lia.
From S2P Require Import Prelude Events.
#[local] Open Scope Z_scope.

Module LiveObject.
Section live_object.
(** The state of a local object: the interpreter's own. *)
Context {LO : Type}.

Record Node := { local_object_ : LO; ref_count_ : Z }.

Record heap := {
  nodes : gmap nat Node;
  live_objects : gmap LiveObjectPtr nat;
  next_node : nat;
  next_live_object : nat;
}.

Definition empty_heap : heap :=
  {| nodes := ∅; live_objects := ∅; next_node := 0; next_live_object := 0 |}.

Definition set_nodes (ns : gmap nat Node) (h : heap) : heap :=
  {| nodes := ns; live_objects := live_objects h; next_node := next_node h;
     next_live_object := next_live_object h |}.
Definition set_live_objects (ls : gmap LiveObjectPtr nat) (h : heap) : heap :=
  {| nodes := nodes h; live_objects := ls; next_node := next_node h;
     next_live_object := next_live_object h |}.

Definition GetNode (l : LiveObjectPtr) (h : heap) : res nat := deref (live_objects h !! l).
Definition deref_node (n : nat) (h : heap) : res Node := deref (nodes h !! n).

(** [new LiveObjectNode(local_object)]. *)
Definition NewNode (local_object : LO) (h : heap) : nat * heap :=
  (next_node h,
   {| nodes := <[next_node h := {| local_object_ := local_object; ref_count_ := 1 |}]> (nodes h);
      live_objects := live_objects h;
      next_node := S (next_node h); next_live_object := next_live_object h |}).

(** A [LiveObject] whose [node_] is [n]. *)
Definition alloc_live_object (n : nat) (h : heap) : LiveObjectPtr * heap :=
  (next_live_object h,
   {| nodes := nodes h; live_objects := <[next_live_object h := n]> (live_objects h);
      next_node := next_node h; next_live_object := S (next_live_object h) |}).

Definition IncrementRefCount (n : nat) (h : heap) : res heap :=
  nd ← deref_node n h;
  let ref_count := ref_count_ nd + 1 in
  CHECK (2 <=? ref_count);;
  Ok (set_nodes (<[n := {| local_object_ := local_object_ nd; ref_count_ := ref_count |}]>
                   (nodes h)) h).

(** Returns whether the count reached zero. *)
Definition DecrementRefCount (n : nat) (h : heap) : res (bool * heap) :=
  nd ← deref_node n h;
  CHECK (1 <=? ref_count_ nd);;
  let ref_count := ref_count_ nd - 1 in
  Ok (ref_count =? 0,
      set_nodes (<[n := {| local_object_ := local_object_ nd; ref_count_ := ref_count |}]>
                   (nodes h)) h).

(** [if (node->DecrementRefCount()) delete node;] *)
Definition release_node (n : nat) (h : heap) : res heap :=
  '(zero, h) ← DecrementRefCount n h;
  Ok (if (zero : bool) then set_nodes (delete n (nodes h)) h else h).

(** The constructor that takes a local object. *)
Definition New (local_object : LO) (h : heap) : LiveObjectPtr * heap :=
  let '(n, h) := NewNode local_object h in alloc_live_object n h.

(** [LiveObject::~LiveObject]. *)
Definition Destroy (l : LiveObjectPtr) (h : heap) : res heap :=
  n ← GetNode l h;
  release_node n (set_live_objects (delete l (live_objects h)) h).

Definition local_object (l : LiveObjectPtr) (h : heap) : res LO :=
  n ← GetNode l h; nd ← deref_node n h; Ok (local_object_ nd).

Definition Clone (l : LiveObjectPtr) (h : heap) : res (LiveObjectPtr * heap) :=
  n ← GetNode l h;
  h ← IncrementRefCount n h;
  Ok (alloc_live_object n h).

(** [LiveObject::InvokeMethod] up to the call of [LocalObject::InvokeMethod]:
    the node on which the method runs.  The clone of a shared local object is
    a node from the start; nothing else can reach it before the method
    returns. *)
Definition InvokeMethod_begin (l : LiveObjectPtr) (h : heap) : res (nat * heap) :=
  n ← GetNode l h;
  nd ← deref_node n h;
  let ref_count := ref_count_ nd in
  CHECK (1 <=? ref_count);;
  if 1 <? ref_count then Ok (NewNode (local_object_ nd) h) else Ok (n, h).

(** The rest of it: install the node the method ran on. *)
Definition InvokeMethod_end (l : LiveObjectPtr) (new_node : nat) (h : heap) : res heap :=
  n ← GetNode l h;
  if bool_decide (new_node = n) then Ok h
  else release_node n (set_live_objects (<[l := new_node]> (live_objects h)) h).

(** What a running method reads and writes. *)
Definition ReadState (n : nat) (h : heap) : res LO :=
  nd ← deref_node n h; Ok (local_object_ nd).
Definition WriteState (n : nat) (lo : LO) (h : heap) : res heap :=
  nd ← deref_node n h;
  Ok (set_nodes (<[n := {| local_object_ := lo; ref_count_ := ref_count_ nd |}]> (nodes h)) h).

(** A method that calls nothing back: it maps the state of the local object. *)
Definition InvokeMethod_plain (l : LiveObjectPtr) (f : LO → LO) (h : heap) : res heap :=
  '(n, h) ← InvokeMethod_begin l h;
  lo ← ReadState n h;
  h ← WriteState n (f lo) h;
  InvokeMethod_end l n h.

(** ** Invariant: the counts are right *)

(** How many live objects point to a node. *)
Definition refs (ls : gmap LiveObjectPtr nat) (n : nat) : nat :=
  size (filter (fun kv => kv.2 = n) ls).

(** [own] holds the nodes a running method works on that no live object points
    to yet. *)
Definition owners (ls : gmap LiveObjectPtr nat) (own : gset nat) (n : nat) : nat :=
  (refs ls n + if bool_decide (n ∈ own) then 1 else 0)%nat.

Record heap_ok_with (own : gset nat) (h : heap) : Prop := {
  ok_count n nd : nodes h !! n = Some nd →
    ref_count_ nd = Z.of_nat (owners (live_objects h) own n) ∧
    (0 < owners (live_objects h) own n)%nat;
  ok_target l n : live_objects h !! l = Some n → is_Some (nodes h !! n);
  ok_own n : n ∈ own → is_Some (nodes h !! n);
  ok_next_node n : is_Some (nodes h !! n) → (n < next_node h)%nat;
  ok_next_live l : is_Some (live_objects h !! l) → (l < next_live_object h)%nat;
}.

Definition heap_ok : heap → Prop := heap_ok_with ∅.

(** What a heap stands for: each live object with a local object of its own. *)
Definition abs (h : heap) : gmap LiveObjectPtr LO :=
  omap (fun n => local_object_ <$> nodes h !! n) (live_objects h).

Lemma abs_lookup h l :
  abs h !! l = live_objects h !! l ≫= fun n => local_object_ <$> nodes h !! n.
Proof. unfold abs. by rewrite lookup_omap. Qed.

Lemma refs_insert_fresh ls l n m :
  ls !! l = None →
  refs (<[l := n]> ls) m = (refs ls m + if bool_decide (n = m) then 1 else 0)%nat.
Proof.
  intros Hl. unfold refs. case_bool_decide as Hn.
  - rewrite map_filter_insert_True by done. rewrite map_size_insert_None; [lia|].
    apply map_lookup_filter_None. by left.
  - rewrite map_filter_insert_False by done. rewrite delete_id by done. lia.
Qed.

Lemma refs_delete ls l n m :
  ls !! l = Some n →
  refs ls m = (refs (delete l ls) m + if bool_decide (n = m) then 1 else 0)%nat.
Proof.
  intros Hl. rewrite <- (insert_delete_id ls l n) at 1 by done.
  apply refs_insert_fresh, lookup_delete_eq.
Qed.

Lemma refs_pos ls l n : ls !! l = Some n → (0 < refs ls n)%nat.
Proof. intros Hl. rewrite (refs_delete ls l n n) by done. rewrite bool_decide_true by done. lia. Qed.

Lemma refs_exists ls n : (0 < refs ls n)%nat → ∃ l, ls !! l = Some n.
Proof.
  unfold refs. intros H. destruct (map_choose (filter (fun kv => kv.2 = n) ls)) as (l & m & Hm).
  { intros E. rewrite E, map_size_empty in H. lia. }
  apply map_lookup_filter_Some in Hm as [Hm ?]. simpl in *. subst. by exists l.
Qed.


Lemma refs_zero ls n : (∀ l, ls !! l ≠ Some n) → refs ls n = 0%nat.
Proof.
  intros H. destruct (refs ls n) eqn:E; [done|].
  destruct (refs_exists ls n) as [l Hl]; [lia|]. by destruct (H l).
Qed.

(** ** The operations *)
Lemma release_ok own n0 h :
  (∀ n nd, nodes h !! n = Some nd →
     ref_count_ nd = Z.of_nat (owners (live_objects h) own n + if bool_decide (n = n0) then 1 else 0) ∧
     (n ≠ n0 → (0 < owners (live_objects h) own n)%nat)) →
  is_Some (nodes h !! n0) →
  (∀ l n, live_objects h !! l = Some n → is_Some (nodes h !! n)) →
  (∀ n, n ∈ own → is_Some (nodes h !! n)) →
  (∀ n, is_Some (nodes h !! n) → (n < next_node h)%nat) →
  (∀ l, is_Some (live_objects h !! l) → (l < next_live_object h)%nat) →
  ∃ h', release_node n0 h = Ok h' ∧ heap_ok_with own h' ∧
    live_objects h' = live_objects h ∧
    (∀ n, (0 < owners (live_objects h) own n)%nat →
       local_object_ <$> nodes h' !! n = local_object_ <$> nodes h !! n).
Proof.
  intros Hcount [nd0 Hn0] Htarget Hown Hnn Hnl.
  unfold release_node, DecrementRefCount, deref_node. rewrite Hn0. simpl.
  destruct (Hcount _ _ Hn0) as [Hc0 _]. rewrite bool_decide_true in Hc0 by done.
  rewrite (proj2 (Z.leb_le 1 _)) by lia. simpl. eexists. split; [done|].
  set (ow := owners (live_objects h) own) in *.
  assert (Hzero : (ref_count_ nd0 - 1 =? 0) = bool_decide (ow n0 = 0%nat)).
  { apply eq_bool_prop_intro. rewrite bool_decide_spec, Is_true_true, Z.eqb_eq. lia. }
  rewrite Hzero. assert (Hown' : ∀ n, n ∈ own → (0 < ow n)%nat).
  { intros n Hn. unfold ow, owners. rewrite (bool_decide_true (n ∈ own)) by done. lia. }
  case_bool_decide as Hz; simpl.
  - split_and!; [|done|].
    + split; simpl.
      * intros n nd [Hne Hn]%lookup_delete_Some. rewrite lookup_insert_ne in Hn by done.
        destruct (Hcount _ _ Hn) as [Hc Hp]. rewrite bool_decide_false in Hc by done.
        fold ow. split; [lia|]. by apply Hp.
      * intros l n Hl. destruct (decide (n0 = n)) as [<-|Hne].
        { apply refs_pos in Hl. unfold ow, owners in Hz. lia. }
        rewrite lookup_delete_ne, lookup_insert_ne by done. by eapply Htarget.
      * intros n Hn. destruct (decide (n0 = n)) as [<-|Hne].
        { apply Hown' in Hn. lia. }
        rewrite lookup_delete_ne, lookup_insert_ne by done. by apply Hown.
      * intros n [nd [Hne Hn]%lookup_delete_Some]. rewrite lookup_insert_ne in Hn by done.
        apply Hnn. by eexists.
      * done.
    + intros n Hn. destruct (decide (n0 = n)) as [<-|Hne]; [lia|].
      by rewrite lookup_delete_ne, lookup_insert_ne by done.
  - split_and!; [|done|].
    + split; simpl.
      * intros n nd. destruct (decide (n0 = n)) as [<-|Hne].
        { rewrite lookup_insert_eq. intros [= <-]. simpl. fold ow. lia. }
        rewrite lookup_insert_ne by done. intros Hn.
        destruct (Hcount _ _ Hn) as [Hc Hp]. rewrite bool_decide_false in Hc by done.
        fold ow. split; [lia|]. by apply Hp.
      * intros l n Hl. rewrite lookup_insert_is_Some'. right. by eapply Htarget.
      * intros n Hn. rewrite lookup_insert_is_Some'. right. by apply Hown.
      * intros n [<-|Hn]%lookup_insert_is_Some'; [apply Hnn; by eexists|by apply Hnn].
      * done.
    + intros n _. destruct (decide (n0 = n)) as [<-|Hne].
      * by rewrite lookup_insert_eq, Hn0.
      * by rewrite lookup_insert_ne.
Qed.

Lemma NewNode_ok own lo h :
  heap_ok_with own h →
  heap_ok_with ({[next_node h]} ∪ own) (NewNode lo h).2 ∧ nodes h !! next_node h = None.
Proof.
  intros [Hc Ht Ho Hn Hl].
  assert (Hfresh : nodes h !! next_node h = None).
  { destruct (nodes h !! next_node h) eqn:E; [|done].
    assert (next_node h < next_node h)%nat by (apply Hn; by rewrite E). lia. }
  assert (Hr : refs (live_objects h) (next_node h) = 0%nat).
  { apply refs_zero. intros l El. apply Ht in El as [? El]. congruence. }
  assert (Hno : next_node h ∉ own) by (intros [? ?]%Ho; congruence).
  split; [|done]. unfold NewNode. split; simpl.
  - intros n nd. destruct (decide (next_node h = n)) as [<-|Hne].
    + rewrite lookup_insert_eq. intros [= <-]. unfold owners.
      rewrite Hr, bool_decide_true by set_solver. simpl. lia.
    + rewrite lookup_insert_ne by done. intros E. apply Hc in E.
      unfold owners in *. by rewrite (bool_decide_ext (n ∈ {[next_node h]} ∪ own) (n ∈ own)) by set_solver.
  - intros l n El. rewrite lookup_insert_is_Some'. right. by eapply Ht.
  - intros n [->%elem_of_singleton|E]%elem_of_union; rewrite lookup_insert_is_Some'; [by left|right; by apply Ho].
  - intros n [<-|E]%lookup_insert_is_Some'; [lia|]. apply Hn in E. lia.
  - done.
Qed.

Lemma begin_spec own l n0 nd0 h :
  heap_ok_with own h → live_objects h !! l = Some n0 → nodes h !! n0 = Some nd0 →
  InvokeMethod_begin l h =
    Ok (if 1 <? ref_count_ nd0 then NewNode (local_object_ nd0) h else (n0, h)).
Proof.
  intros Hok Hl Hn. unfold InvokeMethod_begin, GetNode, deref_node. rewrite Hl. simpl.
  rewrite Hn. simpl. destruct (ok_count _ _ Hok _ _ Hn) as [Hc Hp].
  rewrite (proj2 (Z.leb_le 1 _)) by lia. simpl. by destruct (1 <? ref_count_ nd0).
Qed.

(** Replacing the node of a live object by one a method owns. *)
Lemma end_spec own l n n0 h :
  heap_ok_with ({[n]} ∪ own) h → n ∉ own → live_objects h !! l = Some n0 →
  refs (live_objects h) n = 0%nat →
  ∃ h', InvokeMethod_end l n h = Ok h' ∧ heap_ok_with own h' ∧
    live_objects h' = <[l := n]> (live_objects h) ∧
    (∀ m, (0 < owners (live_objects h') own m)%nat →
       local_object_ <$> nodes h' !! m = local_object_ <$> nodes h !! m).
Proof.
  intros Hok Hno Hl Hr. assert (Hne : n ≠ n0).
  { intros ->. apply refs_pos in Hl. lia. }
  unfold InvokeMethod_end, GetNode. rewrite Hl. simpl. rewrite bool_decide_false by done.
  assert (Hrefs : ∀ m, (refs (<[l := n]> (live_objects h)) m + (if bool_decide (m = n0) then 1 else 0)
                   = refs (live_objects h) m + (if bool_decide (m = n) then 1 else 0))%nat).
  { intros m. rewrite <- insert_delete_eq, refs_insert_fresh by apply lookup_delete_eq.
    rewrite (refs_delete _ _ _ m Hl), (bool_decide_ext (n = m) (m = n)) by done.
    rewrite (bool_decide_ext (n0 = m) (m = n0)) by done. lia. }
  assert (Hown : ∀ m, (owners (live_objects h) ({[n]} ∪ own) m =
    owners (<[l := n]> (live_objects h)) own m + (if bool_decide (m = n0) then 1 else 0))%nat).
  { intros m. specialize (Hrefs m). unfold owners. destruct (decide (m = n)) as [->|Hmn].
    - rewrite (bool_decide_true (n ∈ {[n]} ∪ own)) by set_solver.
      rewrite (bool_decide_false (n ∈ own)) by done.
      rewrite (bool_decide_true (n = n)) in Hrefs by done. lia.
    - rewrite (bool_decide_ext (m ∈ {[n]} ∪ own) (m ∈ own)) by set_solver.
      rewrite (bool_decide_false (m = n)) in Hrefs by done. lia. }
  destruct (release_ok own n0 (set_live_objects (<[l := n]> (live_objects h)) h))
    as (h' & Hrel & Hok' & Hlo & Hsame); simpl.
  - intros m nd Hm. destruct (ok_count _ _ Hok _ _ Hm) as [Hc Hp]. rewrite Hown in Hc, Hp.
    split; [done|]. intros Hm0. rewrite bool_decide_false in Hp by done. lia.
  - by eapply (ok_target _ _ Hok).
  - intros l' m. destruct (decide (l = l')) as [<-|Hll].
    + rewrite lookup_insert_eq. intros [= <-]. apply (ok_own _ _ Hok). set_solver.
    + rewrite lookup_insert_ne by done. apply (ok_target _ _ Hok).
  - intros m Hm. apply (ok_own _ _ Hok). set_solver.
  - apply (ok_next_node _ _ Hok).
  - intros l' [<-|Hl']%lookup_insert_is_Some'; apply (ok_next_live _ _ Hok); [by eexists|done].
  - exists h'. split_and!; [exact Hrel|done|done|]. rewrite Hlo. simpl.
    intros m Hm. by apply Hsame.
Qed.

Lemma write_ok own n nd lo h :
  heap_ok_with own h → nodes h !! n = Some nd →
  WriteState n lo h = Ok (set_nodes (<[n := {| local_object_ := lo; ref_count_ := ref_count_ nd |}]> (nodes h)) h) ∧
  heap_ok_with own (set_nodes (<[n := {| local_object_ := lo; ref_count_ := ref_count_ nd |}]> (nodes h)) h).
Proof.
  intros Hok Hn. split.
  { unfold WriteState, deref_node. by rewrite Hn. }
  destruct Hok as [Hc Ht Ho Hnn Hnl]. split; simpl.
  - intros m nd'. destruct (decide (n = m)) as [<-|Hne].
    + rewrite lookup_insert_eq. intros [= <-]. simpl. by apply Hc.
    + rewrite lookup_insert_ne by done. apply Hc.
  - intros l m Hl. rewrite lookup_insert_is_Some'. right. by eapply Ht.
  - intros m Hm. rewrite lookup_insert_is_Some'. right. by apply Ho.
  - intros m [<-|Hm]%lookup_insert_is_Some'; apply Hnn; [by eexists|done].
  - done.
Qed.

Lemma refs_two ls l l' n :
  ls !! l = Some n → ls !! l' = Some n → l ≠ l' → (2 ≤ refs ls n)%nat.
Proof.
  intros Hl Hl' Hne. rewrite (refs_delete ls l n n), bool_decide_true by done.
  assert (0 < refs (delete l ls) n)%nat; [|lia].
  apply (refs_pos _ l'). by rewrite lookup_delete_ne.
Qed.

Lemma abs_Some h l lo :
  abs h !! l = Some lo ↔
  ∃ n nd, live_objects h !! l = Some n ∧ nodes h !! n = Some nd ∧ local_object_ nd = lo.
Proof.
  rewrite abs_lookup, bind_Some. setoid_rewrite fmap_Some. naive_solver.
Qed.

Lemma local_object_abs h l lo : abs h !! l = Some lo → local_object l h = Ok lo.
Proof.
  intros (n & nd & Hl & Hn & <-)%abs_Some. unfold local_object, GetNode, deref_node.
  rewrite Hl. simpl. by rewrite Hn.
Qed.

Lemma end_next_live l n h h' :
  InvokeMethod_end l n h = Ok h' → next_live_object h' = next_live_object h.
Proof.
  intros He. unfold InvokeMethod_end, release_node in He. res_inv.
  case_bool_decide; res_inv; [done|].
  destruct a0 as [[] ?]; unfold DecrementRefCount in *; res_inv; done.
Qed.

(** A method called on a shared node runs on a copy. *)
Lemma invoke_shared_ok own f l n0 nd0 h :
  heap_ok_with own h → live_objects h !! l = Some n0 → nodes h !! n0 = Some nd0 →
  1 < ref_count_ nd0 →
  ∃ h', InvokeMethod_plain l f h = Ok h' ∧ heap_ok_with own h' ∧
    live_objects h' = <[l := next_node h]> (live_objects h) ∧
    local_object_ <$> nodes h' !! next_node h = Some (f (local_object_ nd0)) ∧
    ∀ n, n ≠ next_node h → (0 < owners (live_objects h') own n)%nat →
      local_object_ <$> nodes h' !! n = local_object_ <$> nodes h !! n.
Proof.
  intros Hok Hl Hn Hrc. unfold InvokeMethod_plain.
  rewrite (begin_spec own l n0 nd0), (proj2 (Z.ltb_lt 1 _)) by done.
  destruct (NewNode_ok own (local_object_ nd0) h Hok) as [Hok1 Hfresh].
  unfold NewNode in *. simpl in *. unfold ReadState, deref_node. simpl.
  rewrite lookup_insert_eq. simpl.
  edestruct (write_ok ({[next_node h]} ∪ own) (next_node h)) as [Hw Hok2];
    [exact Hok1|apply lookup_insert_eq|]. rewrite Hw. simpl.
  match type of Hok2 with heap_ok_with _ ?h2 => set (h2' := h2) in * end.
  destruct (end_spec own l (next_node h) n0 h2') as (h' & He & Hok3 & Hlo & Hsame); [done| |done| |].
  { intros [? ?]%(ok_own _ _ Hok). congruence. }
  { apply refs_zero. intros l' El. apply (ok_target _ _ Hok) in El as [? El]. simpl in El. congruence. }
  exists h'. split_and!; [exact He|exact Hok3|done| |].
  - rewrite Hsame; [subst h2'; simpl; by rewrite lookup_insert_eq|].
    unfold owners. assert (0 < refs (live_objects h') (next_node h))%nat; [|lia].
    rewrite Hlo. apply (refs_pos _ l). by rewrite lookup_insert_eq.
  - intros n Hne Hown. rewrite Hsame by done. subst h2'. simpl. by rewrite !lookup_insert_ne.
Qed.

(** A method called on a node of its own runs in place. *)
Lemma invoke_unshared_ok own f l n0 nd0 h :
  heap_ok_with own h → live_objects h !! l = Some n0 → nodes h !! n0 = Some nd0 →
  ref_count_ nd0 ≤ 1 →
  ∃ h', InvokeMethod_plain l f h = Ok h' ∧ heap_ok_with own h' ∧
    live_objects h' = live_objects h ∧
    nodes h' = <[n0 := {| local_object_ := f (local_object_ nd0); ref_count_ := ref_count_ nd0 |}]> (nodes h).
Proof.
  intros Hok Hl Hn Hrc. unfold InvokeMethod_plain.
  rewrite (begin_spec own l n0 nd0), (proj2 (Z.ltb_ge 1 _)) by done. simpl.
  unfold ReadState, deref_node. rewrite Hn. simpl.
  destruct (write_ok own n0 nd0 (f (local_object_ nd0)) h Hok Hn) as [-> Hok2]. simpl.
  unfold InvokeMethod_end, GetNode. simpl. rewrite Hl. simpl.
  rewrite bool_decide_true by done. by eexists.
Qed.

Lemma invoke_plain_ok f l lo h :
  heap_ok h → abs h !! l = Some lo →
  ∃ h', InvokeMethod_plain l f h = Ok h' ∧ heap_ok h' ∧ abs h' = <[l := f lo]> (abs h) ∧
    next_live_object h' = next_live_object h.
Proof.
  intros Hok (n0 & nd0 & Hl & Hn & <-)%abs_Some.
  assert (Hnext : ∀ h', InvokeMethod_plain l f h = Ok h' → next_live_object h' = next_live_object h).
  { intros h' Hi. unfold InvokeMethod_plain in Hi. rewrite (begin_spec ∅ l n0 nd0) in Hi by done.
    simpl in Hi. destruct (1 <? ref_count_ nd0); unfold ReadState, WriteState, NewNode in Hi;
      res_inv; by rewrite (end_next_live _ _ _ _ Hi). }
  destruct (Z.lt_ge_cases 1 (ref_count_ nd0)) as [Hrc|Hrc].
  - destruct (invoke_shared_ok ∅ f l n0 nd0 h) as (h' & He & Hok' & Hlo & Hnew & Hsame); [done..|].
    exists h'. split_and!; [done|done| |by apply Hnext]. apply map_eq. intros l'.
    rewrite abs_lookup, Hlo. destruct (decide (l = l')) as [<-|Hne].
    + by rewrite !lookup_insert_eq.
    + rewrite !lookup_insert_ne, abs_lookup by done.
      destruct (live_objects h !! l') as [n'|] eqn:El'; [simpl|done]. apply Hsame.
      * intros ->. apply (ok_target _ _ Hok), (ok_next_node _ _ Hok) in El'. lia.
      * unfold owners. assert (0 < refs (live_objects h') n')%nat; [|lia].
        rewrite Hlo. apply (refs_pos _ l'). by rewrite lookup_insert_ne.
  - destruct (invoke_unshared_ok ∅ f l n0 nd0 h) as (h' & He & Hok' & Hlo & Hns); [done..|].
    exists h'. split_and!; [done|done| |by apply Hnext]. apply map_eq. intros l'.
    rewrite abs_lookup, Hlo, Hns. destruct (decide (l = l')) as [<-|Hne].
    + by rewrite Hl, lookup_insert_eq; simpl; rewrite lookup_insert_eq.
    + rewrite lookup_insert_ne, abs_lookup by done.
      destruct (live_objects h !! l') as [n'|] eqn:El'; [simpl|done].
      rewrite lookup_insert_ne; [done|]. intros <-.
      pose proof (refs_two _ _ _ _ Hl El' Hne).
      destruct (ok_count _ _ Hok _ _ Hn) as [Hc _]. unfold owners in Hc. lia.
Qed.

Lemma fresh_live_object own h : heap_ok_with own h → live_objects h !! next_live_object h = None.
Proof.
  intros Hok. destruct (live_objects h !! next_live_object h) eqn:E; [|done].
  assert (next_live_object h < next_live_object h)%nat
    by (apply (ok_next_live _ _ Hok); by rewrite E). lia.
Qed.

Lemma New_ok lo h :
  heap_ok h →
  heap_ok (New lo h).2 ∧ (New lo h).1 = next_live_object h ∧
  abs (New lo h).2 = <[next_live_object h := lo]> (abs h) ∧
  next_live_object (New lo h).2 = S (next_live_object h).
Proof.
  intros Hok. pose proof (fresh_live_object _ _ Hok) as Hfl.
  destruct (NewNode_ok ∅ lo h Hok) as [Hok1 Hfresh]. rewrite union_empty_r_L in Hok1.
  unfold New, NewNode, alloc_live_object in *. simpl in *. split_and!; [|done| |done].
  - destruct Hok1 as [Hc Ht Ho Hn Hl]. simpl in *. split; simpl.
    + intros n nd Hnd. destruct (Hc _ _ Hnd) as [H1 H2]. unfold owners in *.
      rewrite refs_insert_fresh by done. rewrite (bool_decide_false (n ∈ ∅)) by set_solver.
      rewrite (bool_decide_ext (n ∈ {[next_node h]}) (next_node h = n)) in H1, H2 by set_solver.
      lia.
    + intros l n. destruct (decide (next_live_object h = l)) as [<-|Hne].
      * rewrite lookup_insert_eq. intros [= <-]. by rewrite lookup_insert_eq.
      * rewrite lookup_insert_ne by done. apply Ht.
    + set_solver.
    + done.
    + intros l [<-|Hl']%lookup_insert_is_Some'; [lia|]. apply Hl in Hl'. lia.
  - apply map_eq. intros l. rewrite abs_lookup. simpl.
    destruct (decide (next_live_object h = l)) as [<-|Hne].
    + rewrite !lookup_insert_eq. simpl. by rewrite lookup_insert_eq.
    + rewrite !lookup_insert_ne, abs_lookup by done.
      destruct (live_objects h !! l) as [n|] eqn:El; [simpl|done].
      rewrite lookup_insert_ne; [done|]. intros <-.
      apply (ok_target _ _ Hok) in El as [? ?]. congruence.
Qed.

Lemma Clone_ok l lo h :
  heap_ok h → abs h !! l = Some lo →
  ∃ h', Clone l h = Ok (next_live_object h, h') ∧ heap_ok h' ∧
    abs h' = <[next_live_object h := lo]> (abs h) ∧
    next_live_object h' = S (next_live_object h).
Proof.
  intros Hok (n0 & nd0 & Hl & Hn & <-)%abs_Some.
  pose proof (fresh_live_object _ _ Hok) as Hfl.
  destruct (ok_count _ _ Hok _ _ Hn) as [Hc0 Hp0].
  unfold Clone, GetNode. rewrite Hl. simpl. unfold IncrementRefCount, deref_node. rewrite Hn. simpl.
  rewrite (proj2 (Z.leb_le 2 _)) by lia. simpl. eexists. split; [done|].
  split_and!; [|apply map_eq; intros l'; rewrite abs_lookup; simpl|done].
  - split; simpl.
    + intros n nd. unfold owners. rewrite refs_insert_fresh by done.
      rewrite (bool_decide_false (n ∈ ∅)) by set_solver.
      unfold owners in Hc0, Hp0. rewrite (bool_decide_false (n0 ∈ ∅)) in Hc0, Hp0 by set_solver.
      destruct (decide (n0 = n)) as [<-|Hne].
      * rewrite lookup_insert_eq, bool_decide_true by done. intros [= <-]. simpl. lia.
      * rewrite lookup_insert_ne, (bool_decide_false (n0 = n)) by done. intros Hnd.
        apply (ok_count _ _ Hok) in Hnd. unfold owners in Hnd.
        rewrite (bool_decide_false (n ∈ ∅)) in Hnd by set_solver. lia.
    + intros l' n Hl'. rewrite lookup_insert_is_Some'.
      destruct (decide (next_live_object h = l')) as [<-|Hne].
      * rewrite lookup_insert_eq in Hl'. injection Hl' as <-. by left.
      * rewrite lookup_insert_ne in Hl' by done. right. by eapply (ok_target _ _ Hok).
    + set_solver.
    + intros n [<-|Hn']%lookup_insert_is_Some'; apply (ok_next_node _ _ Hok); [by eexists|done].
    + intros l' [<-|Hl']%lookup_insert_is_Some'; [lia|]. apply (ok_next_live _ _ Hok) in Hl'. lia.
  - assert (Hlo : ∀ n, local_object_ <$> <[n0 := {| local_object_ := local_object_ nd0;
              ref_count_ := ref_count_ nd0 + 1 |}]> (nodes h) !! n = local_object_ <$> nodes h !! n).
    { intros n. destruct (decide (n0 = n)) as [<-|Hne]; [by rewrite lookup_insert_eq, Hn|].
      by rewrite lookup_insert_ne. }
    destruct (decide (next_live_object h = l')) as [<-|Hne].
    + rewrite !lookup_insert_eq. simpl. by rewrite Hlo, Hn.
    + rewrite !lookup_insert_ne, abs_lookup by done.
      destruct (live_objects h !! l'); simpl; [apply Hlo|done].
Qed.

Lemma Destroy_ok l lo h :
  heap_ok h → abs h !! l = Some lo →
  ∃ h', Destroy l h = Ok h' ∧ heap_ok h' ∧ abs h' = delete l (abs h) ∧
    next_live_object h' = next_live_object h.
Proof.
  intros Hok (n0 & nd0 & Hl & Hn & <-)%abs_Some. unfold Destroy, GetNode. rewrite Hl. simpl.
  destruct (release_ok ∅ n0 (set_live_objects (delete l (live_objects h)) h))
    as (h' & Hrel & Hok' & Hlo & Hsame); simpl.
  - intros n nd Hnd. destruct (ok_count _ _ Hok _ _ Hnd) as [Hc Hp]. unfold owners in *.
    rewrite (refs_delete _ _ _ n Hl), (bool_decide_ext (n0 = n) (n = n0)) in Hc, Hp by done.
    split; [lia|]. intros Hne. rewrite (bool_decide_false (n = n0)) in Hp by done. lia.
  - by eexists.
  - intros l' n [_ Hl']%lookup_delete_Some. by eapply (ok_target _ _ Hok).
  - set_solver.
  - apply (ok_next_node _ _ Hok).
  - intros l' [n [_ Hl']%lookup_delete_Some]. apply (ok_next_live _ _ Hok). by eexists.
  - exists h'. split_and!; [done|done| |].
    + apply map_eq. intros l'. rewrite abs_lookup, Hlo. simpl in *.
      destruct (decide (l = l')) as [<-|Hne]; [by rewrite !lookup_delete_eq|].
      rewrite !lookup_delete_ne, abs_lookup by done.
      destruct (live_objects h !! l') as [n|] eqn:El; [simpl|done]. apply Hsame.
      unfold owners. assert (0 < refs (delete l (live_objects h)) n)%nat; [|lia].
      apply (refs_pos _ l'). by rewrite lookup_delete_ne.
    + unfold release_node in Hrel. res_inv.
      destruct a as [[] ?]; unfold DecrementRefCount in *; res_inv; done.
Qed.

(** ** Refinement: live objects with a local object each *)
Inductive op :=
| OpNew (lo : LO)
| OpClone (l : LiveObjectPtr)
| OpInvoke (l : LiveObjectPtr) (f : LO → LO)
| OpDestroy (l : LiveObjectPtr).

Definition step (h : heap) (o : op) : res heap :=
  match o with
  | OpNew lo => Ok (New lo h).2
  | OpClone l => '(_, h) ← Clone l h; Ok h
  | OpInvoke l f => InvokeMethod_plain l f h
  | OpDestroy l => Destroy l h
  end.

(** The abstract machine: a map and the next pointer; [None] on a dangling
    pointer. *)
Definition spec_step (a : gmap LiveObjectPtr LO * nat) (o : op)
    : option (gmap LiveObjectPtr LO * nat) :=
  let '(m, next) := a in
  match o with
  | OpNew lo => Some (<[next := lo]> m, S next)
  | OpClone l => lo ← m !! l; Some (<[next := lo]> m, S next)
  | OpInvoke l f => lo ← m !! l; Some (<[l := f lo]> m, next)
  | OpDestroy l => _ ← m !! l; Some (delete l m, next)
  end.

Fixpoint spec_run (a : gmap LiveObjectPtr LO * nat) (ops : list op)
    : option (gmap LiveObjectPtr LO * nat) :=
  match ops with
  | [] => Some a
  | o :: ops' => a' ← spec_step a o; spec_run a' ops'
  end.

Lemma step_refines h o m next :
  heap_ok h → spec_step (abs h, next_live_object h) o = Some (m, next) →
  ∃ h', step h o = Ok h' ∧ heap_ok h' ∧ abs h' = m ∧ next_live_object h' = next.
Proof.
  intros Hok. destruct o as [lo|l|l f|l]; simpl.
  - intros [= <- <-]. destruct (New_ok lo h Hok) as (H1 & _ & H2 & H3). eauto.
  - intros (lo & Hl & [= <- <-])%bind_Some.
    destruct (Clone_ok l lo h Hok Hl) as (h' & -> & H1 & H2 & H3). simpl. eauto.
  - intros (lo & Hl & [= <- <-])%bind_Some.
    destruct (invoke_plain_ok f l lo h Hok Hl) as (h' & -> & H1 & H2 & H3). eauto.
  - intros (lo & Hl & [= <- <-])%bind_Some.
    destruct (Destroy_ok l lo h Hok Hl) as (h' & -> & H1 & H2 & H3). eauto.
Qed.


Lemma empty_heap_ok : heap_ok empty_heap.
Proof.
  split; simpl; intros *; rewrite ?lookup_empty; try done; try set_solver; by intros [].
Qed.

(** ** A method that calls a method on its own object

    The outer method starts, the inner one maps the state with [g], the outer
    one reads its state and returns. *)
Definition InvokeMethod_self (l : LiveObjectPtr) (g : LO → LO) (h : heap) : res (LO * heap) :=
  '(n, h) ← InvokeMethod_begin l h;
  h ← InvokeMethod_plain l g h;
  lo ← ReadState n h;
  h ← InvokeMethod_end l n h;
  Ok (lo, h).

Lemma self_call_unshared own g l n0 nd0 h :
  heap_ok_with own h → live_objects h !! l = Some n0 → nodes h !! n0 = Some nd0 →
  ref_count_ nd0 ≤ 1 →
  ∃ h', InvokeMethod_self l g h = Ok (g (local_object_ nd0), h') ∧
    abs h' !! l = Some (g (local_object_ nd0)).
Proof.
  intros Hok Hl Hn Hrc. unfold InvokeMethod_self.
  rewrite (begin_spec own l n0 nd0), (proj2 (Z.ltb_ge 1 _)) by done. simpl.
  destruct (invoke_unshared_ok own g l n0 nd0 h) as (h1 & -> & Hok1 & Hlo & Hns); [done..|]. simpl.
  unfold ReadState, deref_node, InvokeMethod_end, GetNode. rewrite Hns, lookup_insert_eq, Hlo, Hl. simpl.
  rewrite bool_decide_true by done. simpl. eexists. split; [done|].
  by rewrite abs_lookup, Hlo, Hl; simpl; rewrite Hns, lookup_insert_eq.
Qed.

Lemma self_call_shared own g l n0 nd0 h :
  heap_ok_with own h → live_objects h !! l = Some n0 → nodes h !! n0 = Some nd0 →
  2 < ref_count_ nd0 ∨ 1 < ref_count_ nd0 ∧ own = ∅ →
  ∃ h', InvokeMethod_self l g h = Ok (local_object_ nd0, h') ∧
    abs h' !! l = Some (local_object_ nd0).
Proof.
  intros Hok Hl Hn Hrc. unfold InvokeMethod_self.
  rewrite (begin_spec own l n0 nd0), (proj2 (Z.ltb_lt 1 _)) by (done || lia).
  destruct (NewNode_ok own (local_object_ nd0) h Hok) as [Hok1 Hfresh].
  set (n1 := next_node h) in *.
  assert (Hn1 : n1 ≠ n0) by congruence.
  destruct (NewNode (local_object_ nd0) h) as [n1' h1] eqn:Enew.
  assert (n1' = n1 ∧ live_objects h1 = live_objects h ∧
          nodes h1 !! n0 = Some nd0 ∧ next_node h1 = S n1 ∧
          nodes h1 !! n1 = Some {| local_object_ := local_object_ nd0; ref_count_ := 1 |})
    as (-> & Hlo1 & Hn0 & Hnn & Hnode1).
  { unfold NewNode in Enew. injection Enew as <- <-. simpl.
    rewrite lookup_insert_ne, lookup_insert_eq by done. done. }
  simpl in *.
  destruct (invoke_shared_ok ({[n1]} ∪ own) g l n0 nd0 h1) as (h2 & -> & Hok2 & Hlo2 & _ & Hsame);
    [done|congruence|done|lia|]. simpl.
  assert (Hr1 : refs (live_objects h2) n1 = 0%nat).
  { apply refs_zero. intros l'. rewrite Hlo2, Hlo1. destruct (decide (l = l')) as [<-|Hne].
    - rewrite lookup_insert_eq, Hnn. intros [= E]. lia.
    - rewrite lookup_insert_ne by done. intros El. apply (ok_target _ _ Hok) in El as [? ?]. congruence. }
  assert (Hkeep : local_object_ <$> nodes h2 !! n1 = Some (local_object_ nd0)).
  { rewrite Hsame, Hnode1; [done|lia|]. unfold owners. rewrite bool_decide_true by set_solver. lia. }
  unfold ReadState, deref_node. destruct (nodes h2 !! n1) as [nd1|] eqn:E1; [|done].
  injection Hkeep as Hk. simpl. rewrite Hk.
  destruct (end_spec own l n1 (next_node h1) h2) as (h3 & -> & Hok3 & Hlo3 & Hsame3); [done| | |done|].
  { intros [? ?]%(ok_own _ _ Hok). congruence. }
  { by rewrite Hlo2, lookup_insert_eq. }
  simpl. eexists. split; [done|]. rewrite abs_lookup, Hlo3, lookup_insert_eq. simpl.
  rewrite Hsame3; [by rewrite E1; simpl; rewrite Hk|].
  unfold owners. assert (0 < refs (live_objects h3) n1)%nat; [|lia].
  rewrite Hlo3. apply (refs_pos _ l), lookup_insert_eq.
Qed.

(** What a method that calls a method on its own object sees
    depends on whether the live object shares its node.  With a node of its
    own, the inner method's change is seen and kept; on a shared node the two
    invocations run on separate copies, and the inner method's change is
    lost. *)
Theorem self_call_depends_on_sharing g l n lo h :
  heap_ok h → live_objects h !! l = Some n → abs h !! l = Some lo →
  let seen := if bool_decide (refs (live_objects h) n = 1%nat) then g lo else lo in
  ∃ h', InvokeMethod_self l g h = Ok (seen, h') ∧ abs h' !! l = Some seen.
Proof.
  intros Hok Hl (n' & nd & Hl' & Hn & <-)%abs_Some seen.
  assert (n' = n) as -> by congruence.
  destruct (ok_count _ _ Hok _ _ Hn) as [Hc Hp]. unfold owners in Hc, Hp.
  rewrite bool_decide_false in Hc, Hp by set_solver.
  subst seen. case_bool_decide as Hone.
  - eapply self_call_unshared; [exact Hok|done|done|lia].
  - eapply self_call_shared; [exact Hok|done|done|right; split; [lia|done]].
Qed.
End live_object.
Arguments Node : clear implicits.
Arguments heap : clear implicits.
End LiveObject.

(** ** Witnesses *)
Definition counter_ops : list (LiveObject.op (LO := Z)) :=
  [LiveObject.OpNew 5; LiveObject.OpClone 0%nat;
   LiveObject.OpInvoke 1%nat (Z.add 1); LiveObject.OpDestroy 0%nat].


(** Two clones of one object: the inner call's change is lost. *)
Definition shared_heap : LiveObject.heap Z :=
  match foldM LiveObject.step LiveObject.empty_heap
          [LiveObject.OpNew 5; LiveObject.OpClone 0%nat] with
  | Ok h => h | _ => LiveObject.empty_heap
  end.

Lemma shared_heap_ok : LiveObject.heap_ok shared_heap.
Proof.
  destruct (LiveObject.New_ok 5 LiveObject.empty_heap LiveObject.empty_heap_ok) as (H1 & _).
  destruct (LiveObject.Clone_ok 0%nat 5 _ H1) as (h' & Hc & H2 & _); [reflexivity|].
  replace shared_heap with h'; [exact H2|].
  assert (Hs : Ok (1%nat, h') = Ok (1%nat, shared_heap)); [|congruence].
  etransitivity; [symmetry; exact Hc|reflexivity].
Qed.

Lemma self_call_depends_on_sharing_witness :
  ∃ h', LiveObject.InvokeMethod_self 1%nat (Z.add 1) shared_heap = Ok (5, h') ∧
    LiveObject.abs h' !! 1%nat = Some 5.
Proof.
  apply (LiveObject.self_call_depends_on_sharing (Z.add 1) 1%nat 0%nat 5 shared_heap shared_heap_ok);
    reflexivity.
Defined.
