(* ===== verification/HeapGuard.v ===== *)
(** * The node of a running method

    While a method runs, the engine calls other methods, replays histories and
    stores objects, all on the same heap of live objects ([engine/live_object.cc]).
    [guarded] is what protects the node a method runs on: it is counted correctly,
    so no other live object can work on it in place or delete it.  Every step of
    the heap that is not the method's own keeps it. *)
From stdpp Require Import base tactics list gmap.
From Stdlib Require Import ZArith Lia.
From S2P Require Import Prelude Events LiveObject.
#[local] Open Scope Z_scope.

Module HeapGuard.
Import LiveObject.
Section guard.
Context {LO : Type}.
Abbreviation heap := (heap LO).

(** A method of the live object [l] runs on the node [n], whose local object is
    [lo]: the node of [l] itself, or a copy that will become it. *)
Record guarded (l : LiveObjectPtr) (n : nat) (lo : LO) (h : heap) : Prop := {
  g_node : ∃ c, nodes h !! n = Some {| local_object_ := lo; ref_count_ := c |} ∧
    Z.of_nat (refs (live_objects h) n) + (if bool_decide (live_objects h !! l = Some n) then 0 else 1) ≤ c;
  g_live : is_Some (live_objects h !! l);
  g_next_node : (n < next_node h)%nat;
  g_next_live l' : is_Some (live_objects h !! l') → (l' < next_live_object h)%nat;
}.

(** What other threads and other methods do to the heap. *)
Definition keeps_guards (h h' : heap) : Prop := ∀ l n lo, guarded l n lo h → guarded l n lo h'.

#[global] Instance keeps_guards_preorder : PreOrder keeps_guards.
Proof. split; [by intros h l n lo|]. intros h1 h2 h3 H12 H23 l n lo Hg. by apply H23, H12. Qed.

Lemma guarded_fresh l n lo h : guarded l n lo h → live_objects h !! next_live_object h = None ∧ next_live_object h ≠ l.
Proof.
  intros Hg. split; [|intros <-; pose proof (g_next_live _ _ _ _ Hg _ (g_live _ _ _ _ Hg)); lia].
  apply eq_None_not_Some. intros Hl%(g_next_live _ _ _ _ Hg). lia.
Qed.

(** The nodes change: [n] keeps its local object and enough references. *)
Lemma guarded_nodes l n lo h ns c next :
  guarded l n lo h → ns !! n = Some {| local_object_ := lo; ref_count_ := c |} →
  Z.of_nat (refs (live_objects h) n) + (if bool_decide (live_objects h !! l = Some n) then 0 else 1) ≤ c →
  (next_node h ≤ next)%nat →
  guarded l n lo {| nodes := ns; live_objects := live_objects h; next_node := next;
                    next_live_object := next_live_object h |}.
Proof. intros [_ ? ? ?] Hn Hc Hnext. split; simpl; [by exists c|done|lia|done]. Qed.

Lemma keeps_NewNode x h : keeps_guards h (NewNode x h).2.
Proof.
  intros l n lo Hg. pose proof Hg as [(c & Hn & Hc) _ Hnn _]. unfold NewNode. simpl.
  eapply guarded_nodes; [done| |exact Hc|lia]. rewrite lookup_insert_ne; [done|lia].
Qed.

(** A new live object for the node [n'], which is counted for it. *)
Lemma guarded_alloc l n lo n' h h' :
  guarded l n lo h → nodes h' !! n = (if decide (n' = n) then
      (fun nd => {| local_object_ := local_object_ nd; ref_count_ := ref_count_ nd + 1 |}) <$> nodes h !! n
    else nodes h !! n) →
  live_objects h' = <[next_live_object h := n']> (live_objects h) →
  (next_node h ≤ next_node h')%nat → next_live_object h' = S (next_live_object h) → guarded l n lo h'.
Proof.
  intros Hg Hn' El Hnn Hnl. destruct (guarded_fresh _ _ _ _ Hg) as [Hfresh Hne].
  destruct Hg as [(c & Hn & Hc) Hl Hnn0 Hnl0]. split; rewrite ?El.
  - rewrite refs_insert_fresh, lookup_insert_ne by done. rewrite Hn in Hn'. case_decide as E; simpl in Hn'.
    + rewrite bool_decide_true by done. exists (c + 1). split; [done|]. lia.
    + rewrite bool_decide_false by done. exists c. split; [done|]. lia.
  - by rewrite lookup_insert_ne.
  - lia.
  - intros l' [<-|Hl']%lookup_insert_is_Some'; rewrite Hnl; [lia|]. specialize (Hnl0 l' Hl'). lia.
Qed.

Lemma keeps_New x h : keeps_guards h (New x h).2.
Proof.
  intros l n lo Hg. unfold New, NewNode, alloc_live_object. simpl.
  eapply (guarded_alloc l n lo (next_node h)); [exact Hg| |done|simpl; lia|done]. simpl.
  pose proof (g_next_node _ _ _ _ Hg). rewrite decide_False by lia. by rewrite lookup_insert_ne by lia.
Qed.

Lemma keeps_Clone l' h l'' h' : Clone l' h = Ok (l'', h') → keeps_guards h h' ∧ l'' = next_live_object h.
Proof.
  unfold Clone, GetNode, IncrementRefCount, deref_node, alloc_live_object. intros Hc. res_inv. split; [|congruence].
  intros l n lo Hg. match goal with H : nodes h !! ?m = Some ?nd |- _ => rename H into Hm end.
  eapply guarded_alloc; [exact Hg| |simplify_eq; simpl; done|simplify_eq; simpl; lia|by simplify_eq].
  simplify_eq. simpl. case_decide as E; [subst; by rewrite lookup_insert_eq, Hm|by rewrite lookup_insert_ne].
Qed.

(** Another live object that shares the node has it counted twice. *)
Lemma guarded_shared l n lo l' h :
  guarded l n lo h → live_objects h !! l' = Some n → l' ≠ l →
  ∃ c, nodes h !! n = Some {| local_object_ := lo; ref_count_ := c |} ∧ 2 ≤ c.
Proof.
  intros [(c & Hn & Hc) _ _ _] Hl' Hne. exists c. split; [done|]. case_bool_decide as E.
  - pose proof (refs_two _ _ _ _ E Hl' ltac:(done)). lia.
  - pose proof (refs_pos _ _ _ Hl'). lia.
Qed.

Lemma begin_other l n lo l' h n' h' :
  guarded l n lo h → l' ≠ l → InvokeMethod_begin l' h = Ok (n', h') → guarded l n lo h' ∧ n' ≠ n.
Proof.
  intros Hg Hne. unfold InvokeMethod_begin, GetNode, deref_node. intros Hb. res_inv.
  destruct (1 <? ref_count_ _) eqn:Erc; simplify_eq.
  - split; [by apply keeps_NewNode|]. simpl. pose proof (g_next_node _ _ _ _ Hg). lia.
  - split; [done|]. intros ->. destruct (guarded_shared l n lo l' h') as (c & Hn & Hc2); [done..|].
    apply Z.ltb_ge in Erc. simplify_eq/=. lia.
Qed.

Lemma write_other l n lo n' x h h' :
  guarded l n lo h → n' ≠ n → WriteState n' x h = Ok h' → guarded l n lo h'.
Proof.
  intros Hg Hne. unfold WriteState, deref_node. intros Hw. res_inv. subst.
  pose proof Hg as [(c & Hn & Hc) _ _ _]. eapply guarded_nodes; [done| |exact Hc|done].
  by rewrite lookup_insert_ne.
Qed.

Lemma end_other l n lo l' n' h h' :
  guarded l n lo h → l' ≠ l → n' ≠ n → InvokeMethod_end l' n' h = Ok h' → guarded l n lo h'.
Proof.
  intros Hg Hl Hn'. unfold InvokeMethod_end, release_node, GetNode, DecrementRefCount, deref_node.
  destruct (live_objects h !! l') as [n0|] eqn:El; [|done]. simpl. case_bool_decide; [by intros [= <-]|].
  destruct (nodes h !! n0) as [nd|] eqn:En0; [|done]. simpl. destruct (1 <=? ref_count_ nd); [|done]. simpl.
  intros [= <-]. pose proof Hg as [(c & Hc & Hcount) Hlive Hnn Hnl].
  assert (Hrefs : (refs (<[l' := n']> (live_objects h)) n + (if bool_decide (n0 = n) then 1 else 0) = refs (live_objects h) n)%nat).
  { rewrite <- insert_delete_eq, refs_insert_fresh by apply lookup_delete_eq.
    rewrite (refs_delete _ _ _ n El), (bool_decide_false (n' = n)) by done. lia. }
  assert (Hg' : ∀ ns c', ns !! n = Some {| local_object_ := lo; ref_count_ := c' |} →
    c - (if bool_decide (n0 = n) then 1 else 0) ≤ c' →
    guarded l n lo (set_nodes ns (set_live_objects (<[l' := n']> (live_objects h)) h))).
  { intros ns c' Hns Hc'. split; simpl; [|by rewrite lookup_insert_ne|done|].
    - exists c'. split; [done|]. rewrite lookup_insert_ne by done. case_bool_decide; case_bool_decide; lia.
    - intros k [<-|Hk]%lookup_insert_is_Some'; apply Hnl; [by rewrite El|done]. }
  destruct (decide (n0 = n)) as [->|Hne].
  - destruct (guarded_shared l n lo l' h Hg El Hl) as (c2 & Hc2 & H2).
    assert (c2 = c) as -> by congruence. assert (nd = {| local_object_ := lo; ref_count_ := c |}) as -> by congruence.
    simpl. rewrite (proj2 (Z.eqb_neq _ _)) by lia. apply (Hg' _ (c - 1)); [by rewrite lookup_insert_eq|].
    rewrite bool_decide_true by done. lia.
  - rewrite bool_decide_false in Hg' by done.
    destruct (_ =? 0); simpl; apply (Hg' _ c); rewrite ?lookup_delete_ne, ?lookup_insert_ne by done; done || lia.
Qed.

(** ** The method's own steps *)
Lemma write_own l n lo x h :
  guarded l n lo h → ∃ h', WriteState n x h = Ok h' ∧ guarded l n x h'.
Proof.
  intros [(c & Hn & Hc) ? ? ?]. unfold WriteState, deref_node. rewrite Hn. simpl. eexists. split; [done|].
  split; simpl; [|done..]. exists c. by rewrite lookup_insert_eq.
Qed.

Lemma read_own l n lo h : guarded l n lo h → ReadState n h = Ok lo.
Proof. intros [(c & Hn & _) _ _ _]. unfold ReadState, deref_node. by rewrite Hn. Qed.

Lemma begin_own own l lo h :
  heap_ok_with own h → abs h !! l = Some lo →
  ∃ n h', InvokeMethod_begin l h = Ok (n, h') ∧ guarded l n lo h'.
Proof.
  intros Hok (n0 & nd0 & Hl & Hn & <-)%abs_Some. rewrite (begin_spec own l n0 nd0) by done.
  destruct (ok_count _ _ Hok _ _ Hn) as [Hc Hp]. unfold owners in Hc.
  destruct (1 <? ref_count_ nd0) eqn:Erc; eexists _, _; (split; [done|]).
  - unfold NewNode. split; simpl; [|by eexists|lia|apply (ok_next_live _ _ Hok)].
    exists 1. rewrite lookup_insert_eq. split; [done|].
    assert (refs (live_objects h) (next_node h) = 0%nat) as Hz; [|rewrite Hz; by destruct (bool_decide (live_objects h !! l = Some (next_node h)))].
    apply refs_zero. intros l' Hl'%(ok_target _ _ Hok)%(ok_next_node _ _ Hok). lia.
  - split; [|by eexists|apply (ok_next_node _ _ Hok); by eexists|apply (ok_next_live _ _ Hok)].
    exists (ref_count_ nd0). split; [by destruct nd0|]. rewrite bool_decide_true by done. lia.
Qed.

Lemma end_own l n lo h h' : guarded l n lo h → InvokeMethod_end l n h = Ok h' → abs h' !! l = Some lo.
Proof.
  intros [(c & Hn & _) _ _ _]. unfold InvokeMethod_end, release_node, GetNode, DecrementRefCount, deref_node.
  destruct (live_objects h !! l) as [n0|] eqn:El; [|done]. simpl. rewrite abs_lookup. case_bool_decide as E.
  - intros [= <-]. rewrite El. simpl. by rewrite <- E, Hn.
  - destruct (nodes h !! n0) as [nd|] eqn:En0; [|done]. simpl. destruct (1 <=? ref_count_ nd); [|done]. simpl.
    intros [= <-]. destruct (_ =? 0); simpl; rewrite lookup_insert_eq; simpl;
      rewrite ?lookup_delete_ne, lookup_insert_ne, Hn by done; done.
Qed.
End guard.
End HeapGuard.
