(* ===== verification/Serialization.v ===== *)
(** Serialization of local objects:
    [engine/serialization_context_impl.cc],
    [engine/deserialization_context_impl.cc] and
    [engine/serialize_local_object_to_string.cc].

    A local object belongs to the interpreter.  Its [Serialize] method is a
    program that asks the context for indexes and then yields its bytes; what
    it does with the buffer is the contract in
    [include/c++/local_object.h]. *)
From stdpp Require Import base tactics list strings gmap.
From Stdlib Require Import ZArith Lia Ascii.
From S2P Require Import Prelude Text Values.
#[local] Open Scope Z_scope.

(** ** The contexts *)
Record SerializationContext := {
  object_references_ : list ObjectReference;
  indexes_ : gmap ObjectReference Z;
}.

Definition NewSerializationContext : SerializationContext :=
  {| object_references_ := []; indexes_ := ∅ |}.

Definition GetIndexForObjectReference (r : ObjectReference) (ctx : SerializationContext)
    : Z * SerializationContext :=
  match indexes_ ctx !! r with
  | Some index => (index, ctx)
  | None =>
      let new_index := int32_of (Z.of_nat (length (object_references_ ctx))) in
      (new_index,
       {| object_references_ := object_references_ ctx ++ [r];
          indexes_ := <[r := new_index]> (indexes_ ctx) |})
  end.

Definition GetObjectReferenceByIndex (refs : list ObjectReference) (index : Z)
    : res ObjectReference :=
  CHECK (0 <=? index);;
  CHECK (index <? Z.of_nat (length refs));;
  deref (refs !! Z.to_nat index).

(** ** [LocalObject::Serialize] *)
Inductive ser_prog :=
| SDone (data : string)
| SIndex (r : ObjectReference) (k : Z → ser_prog).

Fixpoint ser_run (p : ser_prog) (ctx : SerializationContext)
    : string * SerializationContext :=
  match p with
  | SDone data => (data, ctx)
  | SIndex r k =>
      let '(index, ctx) := GetIndexForObjectReference r ctx in ser_run (k index) ctx
  end.

(** The contract of [Serialize]: fill the buffer if it is large enough, and
    return the number of bytes needed. *)
Definition Serialize (p : ser_prog) (buffer : string) (ctx : SerializationContext)
    : nat * string * SerializationContext :=
  let '(data, ctx) := ser_run p ctx in
  let n := String.length data in
  (n,
   if bool_decide (n ≤ String.length buffer)%nat
   then data +:+ String.substring n (String.length buffer - n) buffer else buffer,
   ctx).

(** ** [SerializeLocalObjectToString] *)
Definition TryToSerialize (p : ser_prog) (buffer : string)
    : nat * string * list ObjectReference :=
  let '(n, buffer, ctx) := Serialize p buffer NewSerializationContext in
  (n, buffer, object_references_ ctx).

(** [static_buffer] (1000 bytes) and [new_buffer n] ([n] bytes) are the
    uninitialised buffers. *)
Definition SerializeLocalObjectToString (static_buffer : string)
    (new_buffer : nat → string) (p : ser_prog) : res (string * list ObjectReference) :=
  let '(data_size, buffer, refs) := TryToSerialize p static_buffer in
  if bool_decide (data_size ≤ String.length static_buffer)%nat
  then Ok (String.substring 0 data_size buffer, refs)
  else
    let '(data_size', buffer, refs) := TryToSerialize p (new_buffer data_size) in
    CHECK (bool_decide (data_size' = data_size));;
    Ok (String.substring 0 data_size buffer, refs).

(** ** Lemmas *)
Lemma serialize_to_string_eq static_buffer new_buffer p :
  (∀ n, String.length (new_buffer n) = n) →
  SerializeLocalObjectToString static_buffer new_buffer p =
    Ok ((ser_run p NewSerializationContext).1,
        object_references_ (ser_run p NewSerializationContext).2).
Proof.
  intros Hnew. unfold SerializeLocalObjectToString, TryToSerialize, Serialize.
  destruct (ser_run p NewSerializationContext) as [data ctx]. simpl.
  case_bool_decide as Hn.
  - by rewrite substring_app_l.
  - rewrite Hnew, !bool_decide_true by done. simpl. by rewrite substring_app_l.
Qed.

(** Whatever the size of the object, and whatever the
    uninitialised buffers hold, the string is all the bytes the object
    serializes to, with the references it asked indexes for: the static buffer
    of any size and the retry with a larger one are invisible. *)
Theorem serialize_to_string_complete static_buffer static_buffer' new_buffer new_buffer' p :
  (∀ n, String.length (new_buffer n) = n) → (∀ n, String.length (new_buffer' n) = n) →
  SerializeLocalObjectToString static_buffer new_buffer p =
    Ok ((ser_run p NewSerializationContext).1,
        object_references_ (ser_run p NewSerializationContext).2) ∧
  SerializeLocalObjectToString static_buffer' new_buffer' p =
    SerializeLocalObjectToString static_buffer new_buffer p.
Proof. intros H1 H2. by rewrite !serialize_to_string_eq. Qed.

(** The indexes a program was given, with the references it asked for. *)
Fixpoint ser_trace (p : ser_prog) (ctx : SerializationContext) : list (ObjectReference * Z) :=
  match p with
  | SDone _ => []
  | SIndex r k =>
      let '(index, ctx) := GetIndexForObjectReference r ctx in
      (r, index) :: ser_trace (k index) ctx
  end.

(** Every index in the table is the position of its reference. *)
Record ctx_ok (ctx : SerializationContext) : Prop := {
  ctx_index r i : indexes_ ctx !! r = Some i →
    0 ≤ i ∧ object_references_ ctx !! Z.to_nat i = Some r;
  ctx_refs r : r ∈ object_references_ ctx → is_Some (indexes_ ctx !! r);
  ctx_nodup : NoDup (object_references_ ctx);
}.

Lemma GetIndex_ok r ctx i ctx' :
  ctx_ok ctx → Z.of_nat (length (object_references_ ctx)) < 2 ^ 31 →
  GetIndexForObjectReference r ctx = (i, ctx') →
  ctx_ok ctx' ∧ indexes_ ctx' !! r = Some i ∧
  (∃ l, object_references_ ctx' = object_references_ ctx ++ l).
Proof.
  intros [Hi Hr Hnd] Hlen. unfold GetIndexForObjectReference.
  destruct (indexes_ ctx !! r) as [i0|] eqn:E.
  { intros [= <- <-]. split_and!; [done|done|]. exists []. by rewrite app_nil_r. }
  rewrite int32_of_id by (unfold is_int32; lia). intros [= <- <-]. simpl.
  split_and!; [split; simpl|by rewrite lookup_insert_eq|by eexists].
  - intros r' i'. destruct (decide (r = r')) as [<-|Hne].
    + rewrite lookup_insert_eq. intros [= <-]. split; [lia|].
      rewrite Nat2Z.id, lookup_app_r by lia. by rewrite Nat.sub_diag.
    + rewrite lookup_insert_ne by done. intros H. apply Hi in H as [? H]. split; [done|].
      apply lookup_app_l_Some. done.
  - intros r'. rewrite elem_of_snoc, lookup_insert_is_Some'. intros [H| ->]; [right; by apply Hr|by left].
  - apply NoDup_app. split_and!; [done| |apply NoDup_singleton].
    intros r' Hr' ->%list_elem_of_singleton. apply Hr in Hr' as [? ?]. congruence.
Qed.

Lemma ser_run_ok p ctx :
  ctx_ok ctx →
  Z.of_nat (length (object_references_ (ser_run p ctx).2)) < 2 ^ 31 →
  (∃ l, object_references_ (ser_run p ctx).2 = object_references_ ctx ++ l) ∧
  ctx_ok (ser_run p ctx).2 ∧
  ∀ r i, (r, i) ∈ ser_trace p ctx →
    0 ≤ i ∧ object_references_ (ser_run p ctx).2 !! Z.to_nat i = Some r.
Proof.
  revert ctx. induction p as [data|r k IH]; intros ctx Hok Hlen; simpl in *.
  { split_and!; [exists []; by rewrite app_nil_r|done|]. by intros r i ?%elem_of_nil. }
  destruct (GetIndexForObjectReference r ctx) as [i ctx1] eqn:Eg.
  assert (Hpre : Z.of_nat (length (object_references_ ctx)) ≤
                 Z.of_nat (length (object_references_ (ser_run (k i) ctx1).2)) ∧
                 (Z.of_nat (length (object_references_ ctx)) < 2 ^ 31)).
  { assert (Hmono : ∀ p ctx, (length (object_references_ ctx) ≤
                      length (object_references_ (ser_run p ctx).2))%nat).
    { clear. induction p as [|r k IH]; intros ctx; simpl; [done|].
      destruct (GetIndexForObjectReference r ctx) as [i ctx1] eqn:E.
      etransitivity; [|apply IH]. unfold GetIndexForObjectReference in E.
      case_match; injection E as <- <-; simpl; [done|]. rewrite length_app. lia. }
    pose proof (Hmono (k i) ctx1). unfold GetIndexForObjectReference in Eg.
    case_match; injection Eg as <- <-; simpl in *; [lia|]. rewrite length_app in *. lia. }
  destruct (GetIndex_ok _ _ _ _ Hok (proj2 Hpre) Eg) as (Hok1 & Hidx & [l1 Hl1]).
  destruct (IH i ctx1 Hok1 Hlen) as ([l2 Hl2] & Hok2 & Htr).
  split_and!; [exists (l1 ++ l2); by rewrite Hl2, Hl1, app_assoc|done|].
  intros r' i' [[= -> ->]|H]%elem_of_cons; [|by apply Htr].
  destruct (ctx_index _ Hok1 _ _ Hidx) as [? Hlk]. split; [done|].
  rewrite Hl2. by apply lookup_app_l_Some.
Qed.

Lemma new_ctx_ok : ctx_ok NewSerializationContext.
Proof. split; simpl; [by intros|by intros r ?%elem_of_nil|constructor]. Qed.

(** The index an object was given for a reference while it was
    serialized leads back to that reference when the same list of references
    is used to deserialize it; different references never share an index.
    (The number of references has to fit an [int].) *)
Theorem serialization_index_roundtrip p data refs :
  ser_run p NewSerializationContext = (data, refs) →
  Z.of_nat (length (object_references_ refs)) < 2 ^ 31 →
  NoDup (object_references_ refs) ∧
  ∀ r i, (r, i) ∈ ser_trace p NewSerializationContext →
    GetObjectReferenceByIndex (object_references_ refs) i = Ok r.
Proof.
  intros Hrun Hlen. destruct (ser_run_ok p _ new_ctx_ok) as (_ & Hok & Htr); rewrite Hrun in *; [done|].
  simpl in *. split; [by apply ctx_nodup|]. intros r i Hri.
  destruct (Htr _ _ Hri) as [Hi Hlk]. unfold GetObjectReferenceByIndex.
  rewrite (proj2 (Z.leb_le 0 i)) by done. simpl.
  pose proof (lookup_lt_Some _ _ _ Hlk). rewrite (proj2 (Z.ltb_lt i _)) by lia. simpl.
  by rewrite Hlk.
Qed.

(** ** Witnesses *)
Definition pair_prog : ser_prog :=
  SIndex 7%nat (fun i => SIndex 4%nat (fun j => SIndex 7%nat (fun k =>
    SDone (printf_d i +:+ printf_d j +:+ printf_d k)))).

Fixpoint zeros (n : nat) : string :=
  match n with O => "" | S n => String "000" (zeros n) end.

Lemma zeros_length n : String.length (zeros n) = n.
Proof. induction n as [|n IH]; simpl; [reflexivity|]. by rewrite IH. Qed.

Lemma serialize_to_string_complete_witness :
  SerializeLocalObjectToString (zeros 2) zeros pair_prog = Ok ("010", [7; 4]%nat).
Proof.
  apply (serialize_to_string_complete (zeros 2) (zeros 5) zeros zeros pair_prog zeros_length zeros_length).
Defined.

Lemma serialization_index_roundtrip_witness :
  GetObjectReferenceByIndex (object_references_ (ser_run pair_prog NewSerializationContext).2) 1
  = Ok 4%nat.
Proof.
  apply (serialization_index_roundtrip pair_prog "010" _ eq_refl);
    [reflexivity|apply (list_elem_of_lookup_2 _ 1); reflexivity].
Defined.
