(* ===== verification/ObjectTable.v ===== *)
(** The objects a peer knows: the reference-keeping half of
    [engine/shared_object.{h,cc}], [engine/object_reference_impl.{h,cc}], and
    the object tables of [engine/transaction_store.cc] with the conversions
    between events and their wire form that read and extend them.

    A [SharedObject] pointer is the object's id, its key in [shared_objects_]
    (shared objects are never removed); an [ObjectReferenceImpl] pointer is an
    index in [object_references_].  Each definition is one critical section or
    one method run by one thread; the [unordered_set]s are iterated in the
    order of [elements]. *)
From stdpp Require Import base tactics list strings gmap.
From Stdlib Require Import ZArith Lia.
From S2P Require Import Prelude Text Ids VersionMap Values Events Serialization LiveObject.
#[local] Open Scope string_scope.
#[local] Open Scope nat_scope.

(** ** What the tables need of live objects *)
Class LiveObjectStore (H : Type) := {
  SerializeLive : LiveObjectPtr → H → res (string * list ObjectReference);
  DeserializeLive : string → list ObjectReference → H → LiveObjectPtr * H;
}.

(** An interpreter with a canonical serialized form: an object that was read
    from bytes and references serializes to the same. *)
Class LiveObjectStoreLaws (H : Type) `{LiveObjectStore H} : Prop := {
  serialize_deserialize dat refs h : NoDup refs →
    SerializeLive (DeserializeLive dat refs h).1 (DeserializeLive dat refs h).2 = Ok (dat, refs);
}.

(** The interpreter's side: [LocalObject::Serialize] and
    [Interpreter::DeserializeObject]. *)
Class LocalObjectCodec (LO : Type) := {
  lo_serialize : LO → ser_prog;
  lo_deserialize : string → list ObjectReference → LO;
}.

#[export] Instance LiveObject_store {LO} `{LocalObjectCodec LO}
    : LiveObjectStore (LiveObject.heap LO) := {
  SerializeLive l h :=
    lo ← LiveObject.local_object l h;
    SerializeLocalObjectToString (zeros 1000) zeros (lo_serialize lo);
  DeserializeLive data refs h := LiveObject.New (lo_deserialize data refs) h;
}.

Module ObjectTable.
Section object_table.
(** [C] is the type of [ObjectContent]; [H] the heap of live objects.
    [GenerateUuid n] is the value of the [n]-th call of [GenerateUuid], and
    [GeneratePredictableUuid ns name] that of the function of this name: both
    come from the OSSP uuid library. *)
Context {C H : Type} `{LiveObjectStore H}.
Context (GenerateUuid : nat → Uuid) (GeneratePredictableUuid : Uuid → string → Uuid).

Record SharedObject := {
  interested_peers_ : gset CanonicalPeer;
  so_object_references_ : list ObjectReference;
  object_content_ : option C;
}.

Definition NewSharedObject : SharedObject :=
  {| interested_peers_ := ∅; so_object_references_ := []; object_content_ := None |}.

Record t := {
  object_references_ : list (option Uuid);
  shared_objects_ : gmap Uuid SharedObject;
  named_objects_ : gset Uuid;
  uuid_count : nat;
  live : H;
}.

Definition New (h : H) : t :=
  {| object_references_ := []; shared_objects_ := ∅; named_objects_ := ∅;
     uuid_count := 0; live := h |}.

Definition set_refs (x : list (option Uuid)) (s : t) : t :=
  {| object_references_ := x; shared_objects_ := shared_objects_ s;
     named_objects_ := named_objects_ s; uuid_count := uuid_count s; live := live s |}.
Definition set_shared (x : gmap Uuid SharedObject) (s : t) : t :=
  {| object_references_ := object_references_ s; shared_objects_ := x;
     named_objects_ := named_objects_ s; uuid_count := uuid_count s; live := live s |}.
Definition set_named (x : gset Uuid) (s : t) : t :=
  {| object_references_ := object_references_ s; shared_objects_ := shared_objects_ s;
     named_objects_ := x; uuid_count := uuid_count s; live := live s |}.
Definition set_count (x : nat) (s : t) : t :=
  {| object_references_ := object_references_ s; shared_objects_ := shared_objects_ s;
     named_objects_ := named_objects_ s; uuid_count := x; live := live s |}.
Definition set_live (x : H) (s : t) : t :=
  {| object_references_ := object_references_ s; shared_objects_ := shared_objects_ s;
     named_objects_ := named_objects_ s; uuid_count := uuid_count s; live := x |}.

(** ** A state monad over the tables *)
Definition M (A : Type) : Type := t → res (A * t).
#[global] Instance M_ret : MRet M := fun A a s => Ok (a, s).
#[global] Instance M_bind : MBind M := fun A B f m s => '(a, s') ← m s; f a s'.
Definition get : M t := fun s => Ok (s, s).
Definition modify (f : t → t) : M unit := fun s => Ok (tt, f s).
Definition lift {A} (r : res A) : M A := fun s => a ← r; Ok (a, s).

Fixpoint mapM_ {A B} (f : A → M B) (l : list A) : M (list B) :=
  match l with
  | [] => mret []
  | x :: l' => y ← f x; ys ← mapM_ f l'; mret (y :: ys)
  end.

(** ** [ObjectReferenceImpl] *)
Definition shared_object (s : t) (r : ObjectReference) : option Uuid :=
  mjoin (object_references_ s !! r).

Definition SetSharedObjectIfUnset (r : ObjectReference) (id : Uuid) : M Uuid := fun s =>
  so ← deref (object_references_ s !! r);
  match so with
  | Some id' => Ok (id', s)
  | None => Ok (id, set_refs (<[r := Some id]> (object_references_ s)) s)
  end.

Definition CreateUnboundObjectReference : M ObjectReference := fun s =>
  Ok (length (object_references_ s), set_refs (object_references_ s ++ [None]) s).

(** ** [SharedObject] *)
Definition GetInterestedPeers (id : Uuid) : M (gset CanonicalPeer) := fun s =>
  so ← deref (shared_objects_ s !! id); Ok (interested_peers_ so, s).

Definition AddInterestedPeer (id : Uuid) (interested_peer : CanonicalPeer) : M unit := fun s =>
  so ← deref (shared_objects_ s !! id);
  Ok (tt, set_shared
    (<[id := {| interested_peers_ := {[interested_peer]} ∪ interested_peers_ so;
                so_object_references_ := so_object_references_ so;
                object_content_ := object_content_ so |}]> (shared_objects_ s)) s).

Definition HasObjectReference (id : Uuid) (r : ObjectReference) : M bool := fun s =>
  so ← deref (shared_objects_ s !! id);
  Ok (bool_decide (r ∈ so_object_references_ so), s).

Definition HasAnyObjectReference (id : Uuid) (rs : gset ObjectReference) : M bool := fun s =>
  so ← deref (shared_objects_ s !! id);
  Ok (existsb (fun r => bool_decide (r ∈ rs)) (so_object_references_ so), s).

Definition AddObjectReference (id : Uuid) (r : ObjectReference) : M unit := fun s =>
  so ← deref (shared_objects_ s !! id);
  Ok (tt, set_shared
    (<[id := {| interested_peers_ := interested_peers_ so;
                so_object_references_ := so_object_references_ so ++ [r];
                object_content_ := object_content_ so |}]> (shared_objects_ s)) s).

(** The second look at [object_references_], after the unlocked part, is the
    one of another thread; run by one thread the list is still empty. *)
Definition GetOrCreateObjectReference (id : Uuid) : M ObjectReference :=
  s ← get;
  so ← lift (deref (shared_objects_ s !! id));
  match last (so_object_references_ so) with
  | Some r => mret r
  | None =>
      r ← CreateUnboundObjectReference;
      bound ← SetSharedObjectIfUnset r id;
      _ ← lift (CHECK (bool_decide (bound = id)));
      s ← get;
      so ← lift (deref (shared_objects_ s !! id));
      match last (so_object_references_ so) with
      | None => _ ← AddObjectReference id r; mret r
      | Some r' => mret r'
      end
  end.

(** ** [TransactionStore]: the tables *)
Definition GetSharedObject (s : t) (id : Uuid) : option Uuid :=
  if bool_decide (is_Some (shared_objects_ s !! id)) then Some id else None.

Definition GetOrCreateSharedObject (id : Uuid) : M Uuid := fun s =>
  Ok (id, match shared_objects_ s !! id with
          | Some _ => s
          | None => set_shared (<[id := NewSharedObject]> (shared_objects_ s)) s
          end).

Definition GenerateUuidM : M Uuid := fun s =>
  Ok (GenerateUuid (uuid_count s), set_count (S (uuid_count s)) s).

Definition GetSharedObjectForObjectReference (r : ObjectReference) : M Uuid :=
  s ← get;
  match shared_object s r with
  | Some id => mret id
  | None =>
      object_id ← GenerateUuidM;
      bound ← SetSharedObjectIfUnset r object_id;
      if bool_decide (bound ≠ object_id) then mret bound
      else
        s ← get;
        _ ← lift (CHECK (bool_decide (shared_objects_ s !! object_id = None)));
        _ ← modify (set_shared
              (<[object_id := {| interested_peers_ := ∅; so_object_references_ := [r];
                                 object_content_ := None |}]> (shared_objects_ s)));
        mret object_id
  end.

(** [kObjectNamespaceUuidString], parsed. *)
Definition object_namespace_uuid : res Uuid :=
  StringToUuid "ab2d0b40fe6211e2bf8b000c2949fc67".

Definition CreateBoundObjectReference (name : string) : M ObjectReference :=
  if bool_decide (name = "") then
    r ← CreateUnboundObjectReference;
    _ ← GetSharedObjectForObjectReference r;
    mret r
  else
    ns ← lift object_namespace_uuid;
    id ← GetOrCreateSharedObject (GeneratePredictableUuid ns name);
    s ← get;
    _ ← modify (set_named ({[id]} ∪ named_objects_ s));
    GetOrCreateObjectReference id.

Definition ObjectsAreIdentical (s : t) (a b : ObjectReference) : bool :=
  bool_decide (a = b) ||
  match shared_object s a with
  | Some ia => bool_decide (shared_object s b = Some ia)
  | None => false
  end.

Definition CreateNewObjectReferences (new : list (Uuid * ObjectReference)) : M unit :=
  _ ← mapM_ (fun p : Uuid * ObjectReference =>
        _ ← AddObjectReference p.1 p.2;
        bound ← SetSharedObjectIfUnset p.2 p.1;
        lift (CHECK (bool_decide (bound = p.1)))) new;
  mret tt.

(** ** [TransactionStore]: binding the references of an event *)
Definition EnsureSharedObjectInValueExists (v : Value) : M unit :=
  match data v with
  | OBJECT_REFERENCE r => _ ← GetSharedObjectForObjectReference r; mret tt
  | _ => mret tt
  end.

Definition EnsureSharedObjectsInEventExist (e : CommittedEvent.t) : M unit :=
  _ ← match e with
      | CommittedEvent.ObjectCreation _ | CommittedEvent.BeginTransaction
      | CommittedEvent.EndTransaction => mret []
      | CommittedEvent.MethodCall _ parameters
      | CommittedEvent.SelfMethodCall _ _ parameters =>
          mapM_ EnsureSharedObjectInValueExists parameters
      | CommittedEvent.SubMethodCall _ callee _ parameters =>
          _ ← GetSharedObjectForObjectReference callee;
          mapM_ EnsureSharedObjectInValueExists parameters
      | CommittedEvent.MethodReturn _ return_value
      | CommittedEvent.SubMethodReturn return_value
      | CommittedEvent.SelfMethodReturn _ return_value =>
          _ ← EnsureSharedObjectInValueExists return_value; mret []
      end;
  _ ← mapM_ GetSharedObjectForObjectReference (elements (CommittedEvent.new_objects e));
  mret tt.

Definition EnsureSharedObjectsInTransactionExist (tr : SharedObjectTransaction.t) : M unit :=
  _ ← mapM_ EnsureSharedObjectsInEventExist (SharedObjectTransaction.events tr); mret tt.

(** ** [TransactionStore]: events to and from the wire *)
Definition ValueToProto (v : Value) : M ValueProto.t :=
  s ← get; lift (ConvertValueToValueProto (shared_object s) v).

Definition ConvertCommittedEventToEventProto (e : CommittedEvent.t) : M EventProto.t :=
  out ← match e with
  | CommittedEvent.ObjectCreation live_object =>
      s ← get;
      p ← lift (SerializeLive live_object (live s));
      ids ← mapM_ GetSharedObjectForObjectReference p.2;
      mret (EventProto.Build_t
        (Some {| EventProto.oc_data := p.1; EventProto.oc_referenced_object_id := ids |})
        None None None None None None None None [])
  | CommittedEvent.BeginTransaction =>
      mret (EventProto.Build_t None (Some tt) None None None None None None None [])
  | CommittedEvent.EndTransaction =>
      mret (EventProto.Build_t None None (Some tt) None None None None None None [])
  | CommittedEvent.MethodCall method_name parameters =>
      ps ← mapM_ ValueToProto parameters;
      mret (EventProto.Build_t None None None
        (Some {| EventProto.mc_method_name := method_name; EventProto.mc_parameter := ps |})
        None None None None None [])
  | CommittedEvent.MethodReturn _ return_value =>
      p ← ValueToProto return_value;
      mret (EventProto.Build_t None None None None (Some p) None None None None [])
  | CommittedEvent.SubMethodCall _ callee method_name parameters =>
      ps ← mapM_ ValueToProto parameters;
      id ← GetSharedObjectForObjectReference callee;
      mret (EventProto.Build_t None None None None None
        (Some {| EventProto.sub_method_name := method_name; EventProto.sub_parameter := ps;
                 EventProto.sub_callee_object_id := id |}) None None None [])
  | CommittedEvent.SubMethodReturn return_value =>
      p ← ValueToProto return_value;
      mret (EventProto.Build_t None None None None None None (Some p) None None [])
  | CommittedEvent.SelfMethodCall _ method_name parameters =>
      ps ← mapM_ ValueToProto parameters;
      mret (EventProto.Build_t None None None None None None None
        (Some {| EventProto.mc_method_name := method_name; EventProto.mc_parameter := ps |})
        None [])
  | CommittedEvent.SelfMethodReturn _ return_value =>
      p ← ValueToProto return_value;
      mret (EventProto.Build_t None None None None None None None None (Some p) [])
  end;
  ids ← mapM_ GetSharedObjectForObjectReference (elements (CommittedEvent.new_objects e));
  mret (EventProto.Build_t (EventProto.object_creation out) (EventProto.begin_transaction out)
    (EventProto.end_transaction out) (EventProto.method_call out) (EventProto.method_return out)
    (EventProto.sub_method_call out) (EventProto.sub_method_return out)
    (EventProto.self_method_call out) (EventProto.self_method_return out) ids).

(** [GetOrCreateSharedObject(id)->GetOrCreateObjectReference()]. *)
Definition ReferenceForId (id : Uuid) : M ObjectReference :=
  id ← GetOrCreateSharedObject id; GetOrCreateObjectReference id.

Definition ConvertValueProtoToValue (in_ : ValueProto.t) : M Value :=
  let local_type := int32_of (ValueProto.local_type in_) in
  type ← lift (ValueProto.GetValueProtoType in_);
  match type with
  | ValueProto.EMPTY => mret (set_empty local_type)
  | ValueProto.DOUBLE =>
      mret (set_double_value local_type (default 0%Z (ValueProto.double_value in_)))
  | ValueProto.FLOAT =>
      mret (set_float_value local_type (default 0%Z (ValueProto.float_value in_)))
  | ValueProto.INT64 =>
      mret (set_int64_value local_type (default 0%Z (ValueProto.int64_value in_)))
  | ValueProto.UINT64 =>
      mret (set_uint64_value local_type (default 0%Z (ValueProto.uint64_value in_)))
  | ValueProto.BOOL =>
      mret (set_bool_value local_type (default false (ValueProto.bool_value in_)))
  | ValueProto.STRING =>
      mret (set_string_value local_type (default "" (ValueProto.string_value in_)))
  | ValueProto.BYTES =>
      mret (set_bytes_value local_type (default "" (ValueProto.bytes_value in_)))
  | ValueProto.OBJECT_ID =>
      r ← ReferenceForId (default zero_uuid (ValueProto.object_id in_));
      mret (set_object_reference local_type r)
  | ValueProto.UNKNOWN => lift Fatal
  end.

Definition no_new_objects (n : gset ObjectReference) : M unit :=
  lift (CHECK (bool_decide (size n = 0))).

Definition ConvertEventProtoToCommittedEvent (p : EventProto.t) : M CommittedEvent.t :=
  rs ← mapM_ ReferenceForId (EventProto.new_object_id p);
  let new_objects : gset ObjectReference := list_to_set rs in
  type ← lift (EventProto.GetEventProtoType p);
  match type with
  | EventProto.OBJECT_CREATION =>
      _ ← no_new_objects new_objects;
      oc ← lift (deref (EventProto.object_creation p));
      refs ← mapM_ ReferenceForId (EventProto.oc_referenced_object_id oc);
      s ← get;
      let '(l, h) := DeserializeLive (EventProto.oc_data oc) refs (live s) in
      _ ← modify (set_live h);
      mret (CommittedEvent.ObjectCreation l)
  | EventProto.BEGIN_TRANSACTION =>
      _ ← no_new_objects new_objects; mret CommittedEvent.BeginTransaction
  | EventProto.END_TRANSACTION =>
      _ ← no_new_objects new_objects; mret CommittedEvent.EndTransaction
  | EventProto.METHOD_CALL =>
      _ ← no_new_objects new_objects;
      mc ← lift (deref (EventProto.method_call p));
      parameters ← mapM_ ConvertValueProtoToValue (EventProto.mc_parameter mc);
      lift (CommittedEvent.NewMethodCall (EventProto.mc_method_name mc) parameters)
  | EventProto.METHOD_RETURN =>
      rv ← lift (deref (EventProto.method_return p));
      return_value ← ConvertValueProtoToValue rv;
      mret (CommittedEvent.MethodReturn new_objects return_value)
  | EventProto.SUB_METHOD_CALL =>
      sub ← lift (deref (EventProto.sub_method_call p));
      callee ← GetOrCreateSharedObject (EventProto.sub_callee_object_id sub);
      parameters ← mapM_ ConvertValueProtoToValue (EventProto.sub_parameter sub);
      r ← GetOrCreateObjectReference callee;
      lift (CommittedEvent.NewSubMethodCall new_objects r
              (EventProto.sub_method_name sub) parameters)
  | EventProto.SUB_METHOD_RETURN =>
      _ ← no_new_objects new_objects;
      rv ← lift (deref (EventProto.sub_method_return p));
      return_value ← ConvertValueProtoToValue rv;
      mret (CommittedEvent.SubMethodReturn return_value)
  | EventProto.SELF_METHOD_CALL =>
      mc ← lift (deref (EventProto.self_method_call p));
      parameters ← mapM_ ConvertValueProtoToValue (EventProto.mc_parameter mc);
      lift (CommittedEvent.NewSelfMethodCall new_objects (EventProto.mc_method_name mc) parameters)
  | EventProto.SELF_METHOD_RETURN =>
      rv ← lift (deref (EventProto.self_method_return p));
      return_value ← ConvertValueProtoToValue rv;
      mret (CommittedEvent.SelfMethodReturn new_objects return_value)
  | EventProto.UNKNOWN => lift Fatal
  end.

(** ** Invariant *)

(** A reference is bound to a shared object exactly when that shared object
    lists it. *)
Record wf (s : t) : Prop := {
  wf_bound r id : object_references_ s !! r = Some (Some id) →
    ∃ so, shared_objects_ s !! id = Some so ∧ r ∈ so_object_references_ so;
  wf_listed id so r : shared_objects_ s !! id = Some so →
    r ∈ so_object_references_ so → object_references_ s !! r = Some (Some id);
  wf_named id : id ∈ named_objects_ s → is_Some (shared_objects_ s !! id);
}.

(** What looking up and creating objects keeps: bindings, the existence of
    shared objects, the live objects. *)
Record extends (s s' : t) : Prop := {
  ext_bound r id : shared_object s r = Some id → shared_object s' r = Some id;
  ext_shared id : is_Some (shared_objects_ s !! id) → is_Some (shared_objects_ s' !! id);
  ext_live : live s' = live s;
  ext_alloc : length (object_references_ s) ≤ length (object_references_ s');
}.

#[global] Instance extends_refl : Reflexive extends.
Proof. by intros s; split. Qed.
#[global] Instance extends_trans : Transitive extends.
Proof.
  clear GenerateUuid GeneratePredictableUuid. intros a b c [] [].
  split; auto; [congruence|lia].
Qed.

Lemma shared_object_Some s r id :
  shared_object s r = Some id ↔ object_references_ s !! r = Some (Some id).
Proof.
  clear GenerateUuid GeneratePredictableUuid. unfold shared_object.
  destruct (object_references_ s !! r) as [[]|]; simpl; naive_solver.
Qed.

(** [m] returns from [s], to a state with the invariant [I] that extends [s],
    in which [Q] holds of the result. *)
Definition totalI (I : t → Prop) {A} (m : M A) (s : t) (Q : A → t → Prop) : Prop :=
  ∃ a s', m s = Ok (a, s') ∧ I s' ∧ extends s s' ∧ Q a s'.

Section total_rules.
Context (I : t → Prop).

Lemma total_ret {A} (a : A) s (Q : A → t → Prop) : I s → Q a s → totalI I (mret a) s Q.
Proof. intros. exists a, s. split_and!; done. Qed.

Lemma total_get s : I s → totalI I get s (fun a s' => a = s ∧ s' = s).
Proof. intros. exists s, s. split_and!; done. Qed.

Lemma total_bind {A B} (m : M A) (k : A → M B) s (Q : A → t → Prop) (R : B → t → Prop) :
  totalI I m s Q → (∀ a s', I s' → extends s s' → Q a s' → totalI I (k a) s' R) →
  totalI I (m ≫= k) s R.
Proof.
  intros (a & s1 & Hm & Hwf & He & HQ) Hk.
  destruct (Hk a s1 Hwf He HQ) as (b & s2 & Hk' & Hwf2 & He2 & HR).
  exists b, s2. split_and!; [|done|by etransitivity|done].
  unfold mbind, M_bind. rewrite Hm. simpl. exact Hk'.
Qed.

Lemma total_mono {A} (m : M A) s (Q R : A → t → Prop) :
  totalI I m s Q → (∀ a s', I s' → extends s s' → Q a s' → R a s') → totalI I m s R.
Proof. intros (a & s1 & Hm & Hwf & He & HQ) H1. exists a, s1. split_and!; auto. Qed.

Lemma total_mapM {A B} (f : A → M B) (l : list A) s (Q : A → B → t → Prop) :
  I s → (∀ x s', x ∈ l → I s' → extends s s' → totalI I (f x) s' (Q x)) →
  (∀ x y s1 s2, extends s1 s2 → Q x y s1 → Q x y s2) →
  totalI I (mapM_ f l) s (fun ys s' => Forall2 (fun x y => Q x y s') l ys).
Proof.
  intros Hwf Hf Hmono. revert s Hwf Hf. induction l as [|x l IH]; intros s Hwf Hf; simpl.
  { apply total_ret; [done|constructor]. }
  eapply total_bind; [apply Hf; [left|done|done]|]. intros y s1 Hwf1 He1 HQ.
  eapply total_bind.
  { apply IH; [done|]. intros x' s' Hx' Hwf' He'. apply Hf; [by right|done|by etransitivity]. }
  intros ys s2 Hwf2 He2 HQs. apply total_ret; [done|]. constructor; [by eapply Hmono|done].
Qed.

Lemma total_lift_bind {A B} (r : res A) a (k : A → M B) s R :
  r = Ok a → totalI I (k a) s R → totalI I (lift r ≫= k) s R.
Proof.
  intros -> (b & s' & Hk & Hrest). exists b, s'. split; [|done].
  unfold mbind, M_bind, lift. simpl. exact Hk.
Qed.
End total_rules.

Abbreviation total := (totalI wf).

(** ** Looking up and creating *)
Lemma GetOrCreateSharedObject_total id s :
  wf s → total (GetOrCreateSharedObject id) s (fun id' s' =>
    id' = id ∧ is_Some (shared_objects_ s' !! id)).
Proof.
  intros Hwf. unfold GetOrCreateSharedObject.
  destruct (shared_objects_ s !! id) as [so|] eqn:E.
  { exists id, s. rewrite E. by split_and!. }
  eexists id, _. rewrite E. split; [done|].
  assert (Hne : ∀ id', is_Some (shared_objects_ s !! id') → id ≠ id').
  { intros id' [? ?] ->. congruence. }
  split_and!; [split; simpl|split; simpl; [done| |done|done]|done|by simpl; rewrite lookup_insert_eq].
  - intros r id' Hr. destruct (wf_bound _ Hwf _ _ Hr) as (so & Hso & Hin).
    exists so. rewrite lookup_insert_ne by (apply Hne; by eexists). done.
  - intros id' so r. destruct (decide (id = id')) as [<-|Hn].
    + rewrite lookup_insert_eq. intros [= <-] Hr. by apply elem_of_nil in Hr.
    + rewrite lookup_insert_ne by done. apply (wf_listed _ Hwf).
  - intros id' Hid. rewrite lookup_insert_is_Some'. right. by apply (wf_named _ Hwf).
  - intros id' Hid. rewrite lookup_insert_is_Some'. by right.
Qed.

(** Adding a new reference, bound to a shared object that has none. *)
Definition with_new_reference (id : Uuid) (so : SharedObject) (s : t) : t :=
  set_shared (<[id := {| interested_peers_ := interested_peers_ so;
       so_object_references_ := so_object_references_ so ++ [length (object_references_ s)];
       object_content_ := object_content_ so |}]> (shared_objects_ s))
    (set_refs (object_references_ s ++ [Some id]) s).

Lemma with_new_reference_wf id so s :
  wf s → shared_objects_ s !! id = Some so →
  wf (with_new_reference id so s) ∧ extends s (with_new_reference id so s).
Proof.
  clear GenerateUuid GeneratePredictableUuid.
  intros Hwf Hso. split; split; simpl.
  - intros r id'. rewrite lookup_snoc_Some. intros [[Hlt Hr]|[-> [= <-]]].
    + destruct (wf_bound _ Hwf _ _ Hr) as (so' & Hso' & Hin).
      destruct (decide (id = id')) as [<-|Hne].
      * rewrite lookup_insert_eq. eexists. split; [done|]. simpl. apply elem_of_snoc. left.
        by assert (so' = so) as -> by congruence.
      * rewrite lookup_insert_ne by done. eauto.
    + rewrite lookup_insert_eq. eexists. split; [done|]. simpl. apply elem_of_snoc. by right.
  - intros id' so' r. destruct (decide (id = id')) as [<-|Hne].
    + rewrite lookup_insert_eq. intros [= <-]. simpl. rewrite elem_of_snoc. intros [Hin| ->].
      * apply (wf_listed _ Hwf _ _ _ Hso) in Hin. by apply lookup_app_l_Some.
      * by rewrite lookup_app_r, Nat.sub_diag by lia.
    + rewrite lookup_insert_ne by done. intros Hso' Hin.
      apply (wf_listed _ Hwf _ _ _ Hso') in Hin. by apply lookup_app_l_Some.
  - intros id' Hid. rewrite lookup_insert_is_Some'. right. by apply (wf_named _ Hwf).
  - intros r id'. rewrite !shared_object_Some. simpl. intros Hr. by apply lookup_app_l_Some.
  - intros id' Hid. rewrite lookup_insert_is_Some'. by right.
  - done.
  - rewrite length_app. lia.
Qed.

Lemma GetOrCreateObjectReference_total id s :
  wf s → is_Some (shared_objects_ s !! id) →
  total (GetOrCreateObjectReference id) s (fun r s' => shared_object s' r = Some id).
Proof.
  clear GenerateUuid GeneratePredictableUuid.
  intros Hwf [so Hso]. unfold totalI, GetOrCreateObjectReference, get, lift, mbind, M_bind. simpl.
  rewrite Hso. simpl. destruct (last (so_object_references_ so)) as [r|] eqn:El.
  - exists r, s. split_and!; [done|done|done|]. apply shared_object_Some.
    eapply (wf_listed _ Hwf); [done|]. by apply last_Some_elem_of.
  - destruct (with_new_reference_wf id so s Hwf Hso) as [Hwf' He].
    exists (length (object_references_ s)), (with_new_reference id so s).
    split_and!; [|done|done|].
    + unfold SetSharedObjectIfUnset. simpl. rewrite lookup_app_r, Nat.sub_diag by lia. simpl.
      rewrite bool_decide_true by done. simpl. rewrite Hso. simpl. rewrite El.
      unfold AddObjectReference, mbind, M_bind. simpl. rewrite Hso. simpl.
      unfold with_new_reference, set_shared, set_refs. simpl.
      by rewrite insert_app_r_alt, Nat.sub_diag by lia.
    + apply shared_object_Some. simpl. by rewrite lookup_app_r, Nat.sub_diag by lia.
Qed.

Lemma ReferenceForId_total id s :
  wf s → total (ReferenceForId id) s (fun r s' => shared_object s' r = Some id).
Proof.
  intros Hwf. eapply total_bind; [by apply GetOrCreateSharedObject_total|].
  intros id' s1 Hwf1 He1 (-> & Hso). by apply GetOrCreateObjectReference_total.
Qed.

Lemma ReferencesForIds_total ids s :
  wf s → total (mapM_ ReferenceForId ids) s (fun rs s' =>
    Forall2 (fun id r => shared_object s' r = Some id) ids rs).
Proof.
  intros Hwf. apply (total_mapM _ _ _ _ (fun id r s' => shared_object s' r = Some id)); [done| |].
  - intros id s' _ Hwf' _. by apply ReferenceForId_total.
  - intros id r s1 s2 He. apply (ext_bound _ _ He).
Qed.

(** ** Encoding what is bound leaves the tables alone *)
Lemma bound_lookup s r id :
  shared_object s r = Some id → GetSharedObjectForObjectReference r s = Ok (id, s).
Proof. intros Hr. unfold GetSharedObjectForObjectReference, mbind, M_bind. simpl. by rewrite Hr. Qed.

Lemma mapM_pure {A B} (f : A → M B) s l ys :
  Forall2 (fun x y => f x s = Ok (y, s)) l ys → mapM_ f l s = Ok (ys, s).
Proof.
  induction 1 as [|x y l ys Hx _ IH]; simpl; [done|].
  unfold mbind, M_bind. rewrite Hx. simpl. by rewrite IH.
Qed.

Lemma encode_stable s1 s2 v p :
  extends s1 s2 → ConvertValueToValueProto (shared_object s1) v = Ok p →
  ConvertValueToValueProto (shared_object s2) v = Ok p.
Proof.
  intros He. unfold ConvertValueToValueProto. destruct (data v) as [| | | | | | | | |r]; try done.
  destruct (shared_object s1 r) as [id|] eqn:E; simpl; [|done].
  by rewrite (ext_bound _ _ He _ _ E).
Qed.

(** ** Values *)

(** A message [ConvertValueProtoToValue] accepts, with a local type that fits
    the [int] it is stored in. *)
Definition value_proto_ok (p : ValueProto.t) : Prop :=
  is_ok (ValueProto.GetValueProtoType p) = true ∧ is_int32 (ValueProto.local_type p).

Lemma ConvertValueProtoToValue_total p s :
  wf s → value_proto_ok p →
  total (ConvertValueProtoToValue p) s (fun v s' =>
    ConvertValueToValueProto (shared_object s') v = Ok p).
Proof.
  intros Hwf [Hty Hlt]. unfold ConvertValueProtoToValue. rewrite (int32_of_id _ Hlt).
  destruct p as [lt e d f i u b st by_ oid].
  destruct e as [[]|], d as [?|]; try discriminate Hty;
  destruct f as [?|]; try discriminate Hty; destruct i as [?|]; try discriminate Hty;
  destruct u as [?|]; try discriminate Hty; destruct b as [?|]; try discriminate Hty;
  destruct st as [?|]; try discriminate Hty; destruct by_ as [?|]; try discriminate Hty;
  destruct oid as [id|]; try discriminate Hty;
  try (eexists _, s; split_and!; [reflexivity|done|done|done]).
  unfold mbind, M_bind, lift. simpl.
  change (total (r ← ReferenceForId id; mret (set_object_reference lt r)) s
    (fun v s' => ConvertValueToValueProto (shared_object s') v =
       Ok (ValueProto.set_object_id id (ValueProto.Init lt)))).
  eapply total_bind; [by apply ReferenceForId_total|]. intros r s1 Hwf1 He1 Hr.
  apply total_ret; [done|]. unfold ConvertValueToValueProto. simpl. by rewrite Hr.
Qed.

Lemma ConvertValueProtos_total ps s :
  wf s → Forall value_proto_ok ps →
  total (mapM_ ConvertValueProtoToValue ps) s (fun vs s' =>
    Forall2 (fun p v => ConvertValueToValueProto (shared_object s') v = Ok p) ps vs).
Proof.
  intros Hwf Hps.
  apply (total_mapM _ _ _ _ (fun p v s' => ConvertValueToValueProto (shared_object s') v = Ok p)); [done| |].
  - intros p s' Hp Hwf' _. rewrite Forall_forall in Hps.
    apply ConvertValueProtoToValue_total; [done|by apply Hps].
  - intros p v s1 s2. apply encode_stable.
Qed.

(** ** Events *)
Definition same_event (p q : EventProto.t) : Prop :=
  EventProto.object_creation p = EventProto.object_creation q ∧
  EventProto.begin_transaction p = EventProto.begin_transaction q ∧
  EventProto.end_transaction p = EventProto.end_transaction q ∧
  EventProto.method_call p = EventProto.method_call q ∧
  EventProto.method_return p = EventProto.method_return q ∧
  EventProto.sub_method_call p = EventProto.sub_method_call q ∧
  EventProto.sub_method_return p = EventProto.sub_method_return q ∧
  EventProto.self_method_call p = EventProto.self_method_call q ∧
  EventProto.self_method_return p = EventProto.self_method_return q ∧
  ∀ id, id ∈ EventProto.new_object_id p ↔ id ∈ EventProto.new_object_id q.

(** A well-formed event message: one kind of event, values that convert,
    method names that are not empty, new objects only where an event has
    them. *)
Definition method_call_ok (mc : EventProto.MethodCallEventProto) : Prop :=
  EventProto.mc_method_name mc ≠ "" ∧ Forall value_proto_ok (EventProto.mc_parameter mc).
Definition sub_method_call_ok (sc : EventProto.SubMethodCallEventProto) : Prop :=
  EventProto.sub_method_name sc ≠ "" ∧ Forall value_proto_ok (EventProto.sub_parameter sc).

Record event_proto_ok (p : EventProto.t) : Prop := {
  ep_type : is_ok (EventProto.GetEventProtoType p) = true;
  ep_creation : from_option (fun oc => NoDup (EventProto.oc_referenced_object_id oc)) True
                  (EventProto.object_creation p);
  ep_method_call : from_option method_call_ok True (EventProto.method_call p);
  ep_method_return : from_option value_proto_ok True (EventProto.method_return p);
  ep_sub_method_call : from_option sub_method_call_ok True (EventProto.sub_method_call p);
  ep_sub_method_return : from_option value_proto_ok True (EventProto.sub_method_return p);
  ep_self_method_call : from_option method_call_ok True (EventProto.self_method_call p);
  ep_self_method_return : from_option value_proto_ok True (EventProto.self_method_return p);
  ep_new_objects :
    EventProto.new_object_id p = [] ∨ is_Some (EventProto.method_return p) ∨
    is_Some (EventProto.sub_method_call p) ∨ is_Some (EventProto.self_method_call p) ∨
    is_Some (EventProto.self_method_return p);
}.

(** Encoding the objects an event created gives their ids back. *)
Lemma encode_new_objects s (ids : list Uuid) (rs : list ObjectReference) :
  Forall2 (fun id r => shared_object s r = Some id) ids rs →
  ∃ ids', mapM_ GetSharedObjectForObjectReference (elements (list_to_set rs : gset ObjectReference)) s
            = Ok (ids', s) ∧ ∀ id, id ∈ ids' ↔ id ∈ ids.
Proof.
  intros Hrs.
  assert (Hex : ∀ r, r ∈ rs → ∃ id, id ∈ ids ∧ shared_object s r = Some id).
  { intros r Hr. apply list_elem_of_lookup_1 in Hr as [i Hi].
    destruct (Forall2_lookup_r _ _ _ _ _ Hrs Hi) as (id & Hid & Hr).
    exists id. split; [by eapply list_elem_of_lookup_2|done]. }
  assert (Hlist : ∀ l : list ObjectReference, (∀ r, r ∈ l → r ∈ rs) →
    ∃ ids', Forall2 (fun r id => shared_object s r = Some id) l ids' ∧
      ∀ id, id ∈ ids' → id ∈ ids).
  { induction l as [|r l IH]; intros Hl; [exists []; split; [constructor|by intros id ?%elem_of_nil]|].
    destruct IH as (ids' & H1 & H2); [intros r' Hr'; apply Hl; by right|].
    destruct (Hex r) as (id & Hid & Hr); [apply Hl; left|].
    exists (id :: ids'). split; [by constructor|]. intros id' [->|?]%elem_of_cons; auto. }
  destruct (Hlist (elements (list_to_set rs : gset ObjectReference))) as (ids' & H1 & H2).
  { intros r. by rewrite elem_of_elements, elem_of_list_to_set. }
  exists ids'. split.
  - apply mapM_pure. eapply Forall2_impl; [exact H1|]. intros r id. apply bound_lookup.
  - intros id. split; [apply H2|]. intros Hid.
    apply list_elem_of_lookup_1 in Hid as [i Hi].
    destruct (Forall2_lookup_l _ _ _ _ _ Hrs Hi) as (r & Hr & Hb).
    apply list_elem_of_lookup_2 in Hr.
    assert (Hre : r ∈ elements (list_to_set rs : gset ObjectReference))
      by (by rewrite elem_of_elements, elem_of_list_to_set).
    apply list_elem_of_lookup_1 in Hre as [k Hk].
    destruct (Forall2_lookup_l _ _ _ _ _ H1 Hk) as (id' & Hid' & Hb').
    assert (id' = id) as -> by congruence. by eapply list_elem_of_lookup_2.
Qed.

Lemma ValueToProto_ok s v p :
  ConvertValueToValueProto (shared_object s) v = Ok p → ValueToProto v s = Ok (p, s).
Proof. intros Hv. unfold ValueToProto, mbind, M_bind, lift. simpl. by rewrite Hv. Qed.

Lemma encode_values s ps vs :
  Forall2 (fun p v => ConvertValueToValueProto (shared_object s) v = Ok p) ps vs →
  mapM_ ValueToProto vs s = Ok (ps, s).
Proof.
  intros Hps. apply mapM_pure. apply Forall2_flip. eapply Forall2_impl; [exact Hps|].
  intros p v. apply ValueToProto_ok.
Qed.

Definition decodes (p : EventProto.t) (s : t) : Prop :=
  total (ConvertEventProtoToCommittedEvent p) s (fun e s' =>
    ∃ p', ConvertCommittedEventToEventProto e s' = Ok (p', s') ∧ same_event p' p).

Lemma no_new_objects_bind {B} (k : unit → M B) s R :
  total (k tt) s R → total (no_new_objects (list_to_set []) ≫= k) s R.
Proof. by apply total_lift_bind. Qed.

(** A decoded event is encoded again from the bindings it created. *)
Lemma new_objects_kept s1 s2 (ids : list Uuid) (rs : list ObjectReference) :
  Forall2 (fun id r => shared_object s1 r = Some id) ids rs → extends s1 s2 →
  ∃ ids', mapM_ GetSharedObjectForObjectReference (elements (list_to_set rs : gset ObjectReference)) s2
            = Ok (ids', s2) ∧ ∀ id, id ∈ ids' ↔ id ∈ ids.
Proof.
  intros Hrs He. apply encode_new_objects. eapply Forall2_impl; [exact Hrs|].
  intros id r. apply (ext_bound _ _ He).
Qed.

Ltac same_event_by_fields := eexists; split; [reflexivity|]; by split_and!.

(** An event that carries one value. *)
Lemma decode_value_event (mk : Value → CommittedEvent.t) rv p s :
  wf s → value_proto_ok rv →
  (∀ v s', extends s s' → ValueToProto v s' = Ok (rv, s') →
     ∃ p', ConvertCommittedEventToEventProto (mk v) s' = Ok (p', s') ∧ same_event p' p) →
  total (v ← ConvertValueProtoToValue rv; mret (mk v)) s (fun e s' =>
    ∃ p', ConvertCommittedEventToEventProto e s' = Ok (p', s') ∧ same_event p' p).
Proof.
  intros Hwf Hrv Hmk. eapply total_bind; [by apply ConvertValueProtoToValue_total|].
  intros v s2 Hwf2 He2 Hv. apply total_ret; [done|]. apply Hmk; [done|].
  by apply ValueToProto_ok.
Qed.

(** An event that carries a method name and parameters. *)
Lemma decode_call_event (mk : list Value → res CommittedEvent.t) ps p s :
  wf s → Forall value_proto_ok ps →
  (∀ vs s', extends s s' → mapM_ ValueToProto vs s' = Ok (ps, s') →
     ∃ e p', mk vs = Ok e ∧
       ConvertCommittedEventToEventProto e s' = Ok (p', s') ∧ same_event p' p) →
  total (vs ← mapM_ ConvertValueProtoToValue ps; lift (mk vs)) s (fun e s' =>
    ∃ p', ConvertCommittedEventToEventProto e s' = Ok (p', s') ∧ same_event p' p).
Proof.
  intros Hwf Hps Hmk. eapply total_bind; [by apply ConvertValueProtos_total|].
  intros vs s2 Hwf2 He2 Hvs. destruct (Hmk vs s2 He2 (encode_values _ _ _ Hvs)) as (e & p' & He & Hp').
  exists e, s2. unfold lift. rewrite He. split_and!; [done|done|done|by exists p'].
Qed.

Lemma decode_sub_method_call ids rs sc s s1 p :
  sub_method_call_ok sc → wf s1 →
  Forall2 (fun id r => shared_object s1 r = Some id) ids rs →
  p = EventProto.Build_t None None None None None (Some sc) None None None ids →
  extends s s1 →
  total (callee ← GetOrCreateSharedObject (EventProto.sub_callee_object_id sc);
         parameters ← mapM_ ConvertValueProtoToValue (EventProto.sub_parameter sc);
         r ← GetOrCreateObjectReference callee;
         lift (CommittedEvent.NewSubMethodCall (list_to_set rs) r
                 (EventProto.sub_method_name sc) parameters)) s1 (fun e s' =>
    ∃ p', ConvertCommittedEventToEventProto e s' = Ok (p', s') ∧ same_event p' p).
Proof.
  destruct sc as [name ps callee]. intros [Hn Hps] Hwf1 Hrs -> He1. simpl in *.
  eapply total_bind; [by apply GetOrCreateSharedObject_total|]. intros id s2 Hwf2 He2 [-> Hso].
  eapply total_bind; [by apply ConvertValueProtos_total|]. intros vs s3 Hwf3 He3 Hvs.
  eapply total_bind.
  { apply GetOrCreateObjectReference_total; [done|]. by apply (ext_shared _ _ He3). }
  intros r s4 Hwf4 He4 Hr.
  exists (CommittedEvent.SubMethodCall (list_to_set rs) r name vs), s4.
  split_and!; [unfold lift, CommittedEvent.NewSubMethodCall; by rewrite bool_decide_false|done|done|].
  destruct (new_objects_kept s1 s4 ids rs Hrs) as (ids' & Henc & Hin).
  { by transitivity s3; [transitivity s2|]. }
  assert (Hvs' : mapM_ ValueToProto vs s4 = Ok (ps, s4)).
  { apply encode_values. eapply Forall2_impl; [exact Hvs|]. intros p v. by apply encode_stable. }
  unfold ConvertCommittedEventToEventProto, mbind, M_bind. simpl.
  rewrite Hvs'. simpl. rewrite (bound_lookup _ _ _ Hr). simpl. rewrite Henc. simpl.
  same_event_by_fields.
Qed.

Lemma decode_plain p ids s :
  event_proto_ok p → EventProto.new_object_id p = ids → wf s →
  EventProto.object_creation p = None → decodes p s.
Proof.
  intros [Hty Hcr Hmc Hmr Hsc Hsr Hfc Hfr Hnew] Hids Hwf Hoc.
  unfold decodes, ConvertEventProtoToCommittedEvent. rewrite Hids.
  eapply total_bind; [by apply ReferencesForIds_total|]. intros rs s1 Hwf1 He1 Hrs.
  destruct p as [oc bt et mc mr sc sr fc fr ni]. simpl in Hoc, Hids. subst oc ni.
  destruct bt as [[]|], et as [[]|]; try discriminate Hty;
  destruct mc as [mc|]; try discriminate Hty; destruct mr as [mr|]; try discriminate Hty;
  destruct sc as [sc|]; try discriminate Hty; destruct sr as [sr|]; try discriminate Hty;
  destruct fc as [fc|]; try discriminate Hty; destruct fr as [fr|]; try discriminate Hty;
  (eapply total_lift_bind; [reflexivity|]); simpl in *.
  all: try (assert (ids = []) as -> by (repeat destruct Hnew as [Hnew|Hnew]; by try destruct Hnew)).
  all: try (apply Forall2_nil_inv_l in Hrs as ->; apply no_new_objects_bind).
  all: try (eapply total_lift_bind; [reflexivity|]).
  - apply total_ret; [done|]. same_event_by_fields.
  - apply total_ret; [done|]. same_event_by_fields.
  - destruct mc as [name ps], Hmc as [Hn Hps]. apply decode_call_event; [done|done|].
    intros vs s2 He2 Hvs. exists (CommittedEvent.MethodCall name vs).
    unfold CommittedEvent.NewMethodCall, ConvertCommittedEventToEventProto, mbind, M_bind. simpl.
    rewrite Hvs, bool_decide_false by done. simpl. eexists. split; [done|]. split; [reflexivity|].
    by split_and!.
  - apply decode_value_event; [done|done|]. intros v s2 He2 Hv.
    destruct (new_objects_kept s1 s2 ids rs Hrs He2) as (ids' & Henc & Hin).
    unfold ConvertCommittedEventToEventProto, mbind, M_bind. simpl.
    rewrite Hv. simpl. rewrite Henc. simpl. same_event_by_fields.
  - by eapply decode_sub_method_call.
  - apply decode_value_event; [done|done|]. intros v s2 He2 Hv.
    unfold ConvertCommittedEventToEventProto, mbind, M_bind. simpl.
    rewrite Hv. simpl. same_event_by_fields.
  - destruct fc as [name ps], Hfc as [Hn Hps]. apply decode_call_event; [done|done|].
    intros vs s2 He2 Hvs. exists (CommittedEvent.SelfMethodCall (list_to_set rs) name vs).
    destruct (new_objects_kept s1 s2 ids rs Hrs He2) as (ids' & Henc & Hin).
    unfold CommittedEvent.NewSelfMethodCall, ConvertCommittedEventToEventProto, mbind, M_bind. simpl.
    rewrite Hvs, bool_decide_false by done. simpl. rewrite Henc. simpl.
    eexists. split; [done|]. split; [reflexivity|]. by split_and!.
  - apply decode_value_event; [done|done|]. intros v s2 He2 Hv.
    destruct (new_objects_kept s1 s2 ids rs Hrs He2) as (ids' & Henc & Hin).
    unfold ConvertCommittedEventToEventProto, mbind, M_bind. simpl.
    rewrite Hv. simpl. rewrite Henc. simpl. same_event_by_fields.
Qed.

Lemma decode_creation p oc s `{!LiveObjectStoreLaws H} :
  event_proto_ok p → wf s → EventProto.object_creation p = Some oc →
  ∃ e s', ConvertEventProtoToCommittedEvent p s = Ok (e, s') ∧ wf s' ∧
    (∀ r id, shared_object s r = Some id → shared_object s' r = Some id) ∧
    ∃ p', ConvertCommittedEventToEventProto e s' = Ok (p', s') ∧ same_event p' p.
Proof.
  intros [Hty Hcr Hmc Hmr Hsc Hsr Hfc Hfr Hnew] Hwf Hoc.
  destruct p as [oc' bt et mc mr sc sr fc fr ni]. simpl in *. subst oc'.
  destruct bt as [[]|], et as [[]|], mc, mr, sc, sr, fc, fr; try discriminate Hty.
  assert (ni = []) as -> by (repeat destruct Hnew as [Hnew|Hnew]; by try destruct Hnew).
  destruct oc as [dat ids]. unfold ConvertEventProtoToCommittedEvent. simpl.
  destruct (ReferencesForIds_total ids s Hwf) as (refs & s1 & Hrefs & Hwf1 & He1 & Hb).
  unfold no_new_objects, mbind, M_bind, lift. simpl.
  rewrite bool_decide_true by reflexivity. simpl. rewrite Hrefs. simpl.
  destruct (DeserializeLive dat refs (live s1)) as [l h] eqn:El.
  exists (CommittedEvent.ObjectCreation l), (set_live h s1).
  assert (Hnd : NoDup refs).
  { apply NoDup_alt. intros i j r Hi Hj.
    destruct (Forall2_lookup_r _ _ _ _ _ Hb Hi) as (id1 & Hid1 & Hr1).
    destruct (Forall2_lookup_r _ _ _ _ _ Hb Hj) as (id2 & Hid2 & Hr2).
    eapply (NoDup_lookup ids); [exact Hcr|exact Hid1|]. congruence. }
  pose proof (serialize_deserialize dat refs (live s1) Hnd) as Hser. rewrite El in Hser. simpl in Hser.
  split_and!; [done|by destruct Hwf1|apply (ext_bound _ _ He1)|].
  unfold ConvertCommittedEventToEventProto, mbind, M_bind, lift. simpl. rewrite Hser. simpl.
  rewrite (mapM_pure _ _ refs ids); simpl; [same_event_by_fields|].
  apply Forall2_flip. eapply Forall2_impl; [exact Hb|]. intros id r Hr. by apply bound_lookup.
Qed.


(** ** Identity of objects *)

(** Two references are identical exactly when they are the same
    or some shared object lists both, so [ObjectsAreIdentical] and
    [SharedObject::HasObjectReference] agree. *)
Theorem objects_are_identical_spec s a b :
  wf s →
  ObjectsAreIdentical s a b = true ↔
  a = b ∨ ∃ id, HasObjectReference id a s = Ok (true, s) ∧
                HasObjectReference id b s = Ok (true, s).
Proof.
  clear GenerateUuid GeneratePredictableUuid.
  intros Hwf.
  assert (Hhas : ∀ id r, HasObjectReference id r s = Ok (true, s) ↔ shared_object s r = Some id).
  { intros id r. rewrite shared_object_Some. unfold HasObjectReference. split.
    - destruct (shared_objects_ s !! id) as [so|] eqn:E; simpl; [|done]. intros [= Hin].
      apply bool_decide_eq_true in Hin. by eapply (wf_listed _ Hwf).
    - intros Hr. destruct (wf_bound _ Hwf _ _ Hr) as (so & -> & Hin). simpl.
      by rewrite bool_decide_true. }
  setoid_rewrite Hhas. unfold ObjectsAreIdentical. rewrite orb_true_iff, bool_decide_eq_true.
  destruct (shared_object s a) as [ia|] eqn:Ea; [rewrite bool_decide_eq_true|]; naive_solver.
Qed.

Lemma total_modify_named id s :
  wf s → is_Some (shared_objects_ s !! id) →
  total (modify (set_named ({[id]} ∪ named_objects_ s))) s (fun _ s' =>
    shared_objects_ s' = shared_objects_ s).
Proof.
  intros [Hb Hl Hn] Hid. exists tt, (set_named ({[id]} ∪ named_objects_ s) s).
  split_and!; [done| |by split|done].
  split; simpl; [done|done|]. intros id' [->%elem_of_singleton|?]%elem_of_union; auto.
Qed.

(** The id of a named object: a function of the name alone. *)
Definition named_id (name : string) : Uuid :=
  match object_namespace_uuid with
  | Ok ns => GeneratePredictableUuid ns name
  | _ => zero_uuid
  end.

Lemma CreateBound_total name s :
  wf s → name ≠ "" →
  total (CreateBoundObjectReference name) s (fun r s' => shared_object s' r = Some (named_id name)).
Proof.
  intros Hwf Hn. unfold CreateBoundObjectReference. rewrite bool_decide_false by done.
  eapply total_lift_bind; [reflexivity|].
  eapply total_bind; [by apply GetOrCreateSharedObject_total|]. intros id s1 Hwf1 He1 [-> Hso].
  eapply total_bind; [by apply total_get|]. intros s1' s2 Hwf2 He2 [-> ->].
  eapply total_bind; [by apply total_modify_named|]. intros ? s3 Hwf3 He3 Hs3.
  apply GetOrCreateObjectReference_total; [done|]. by rewrite Hs3.
Qed.

(** Named objects: creating an object with a name always
    returns, and two references so created, at any two moments, are identical
    exactly when the uuid library derives the same id from the two names. *)
Theorem named_objects_identity n1 n2 s :
  wf s → n1 ≠ "" → n2 ≠ "" →
  ∃ r1 s1, CreateBoundObjectReference n1 s = Ok (r1, s1) ∧ wf s1 ∧
    ∀ s2, wf s2 → extends s1 s2 →
      ∃ r2 s3, CreateBoundObjectReference n2 s2 = Ok (r2, s3) ∧ wf s3 ∧
        (ObjectsAreIdentical s3 r1 r2 = true ↔ named_id n1 = named_id n2).
Proof.
  intros Hwf H1 H2. destruct (CreateBound_total n1 s Hwf H1) as (r1 & s1 & Hc1 & Hwf1 & _ & Hr1).
  exists r1, s1. split_and!; [done|done|]. intros s2 Hwf2 He.
  destruct (CreateBound_total n2 s2 Hwf2 H2) as (r2 & s3 & Hc2 & Hwf3 & He3 & Hr2).
  exists r2, s3. split_and!; [done|done|].
  apply (ext_bound _ _ He), (ext_bound _ _ He3) in Hr1.
  unfold ObjectsAreIdentical. rewrite Hr1, Hr2, orb_true_iff, !bool_decide_eq_true. split.
  - intros [->|[= ->]]; [congruence|done].
  - intros ->. by right.
Qed.

(** ** Committing a local event: every reference becomes bound *)
Section commit.
(** The uuid library never returns an id twice. *)
Context {Hinj : Inj (=) (=) GenerateUuid}.

(** The ids that will be generated are not in use. *)
Definition gen_ok (s : t) : Prop :=
  wf s ∧ ∀ n, uuid_count s ≤ n → shared_objects_ s !! GenerateUuid n = None.

Lemma bind_reference_total r s :
  gen_ok s → r < length (object_references_ s) →
  totalI gen_ok (GetSharedObjectForObjectReference r) s (fun id s' => shared_object s' r = Some id).
Proof.
  clear GeneratePredictableUuid.
  intros [Hwf Hgen] Hr. unfold totalI, GetSharedObjectForObjectReference, mbind, M_bind, get. simpl.
  destruct (shared_object s r) as [id|] eqn:E; [by exists id, s; split_and!|].
  assert (Ho : object_references_ s !! r = Some None).
  { unfold shared_object in E. apply lookup_lt_is_Some in Hr as [o Ho].
    change (object_references_ s !! r = Some o) in Ho. rewrite Ho in E. simpl in E. by rewrite E in Ho. }
  unfold GenerateUuidM, SetSharedObjectIfUnset. simpl. rewrite Ho. simpl.
  rewrite bool_decide_false by (intros Hn; by apply Hn). simpl.
  set (id := GenerateUuid (uuid_count s)) in *.
  assert (Hfresh : shared_objects_ s !! id = None) by (by apply Hgen).
  rewrite Hfresh, bool_decide_true by done. simpl.
  assert (Hne : ∀ id', is_Some (shared_objects_ s !! id') → id ≠ id') by (intros id' [? ?] ->; congruence).
  do 2 eexists. split; [done|]. split_and!; [split; [split; simpl|simpl]|split; simpl|].
  - intros r' id'. destruct (decide (r = r')) as [<-|Hrr].
    + rewrite list_lookup_insert_eq by (by eapply lookup_lt_Some). intros [= <-].
      rewrite lookup_insert_eq. eexists. split; [done|]. simpl. left.
    + rewrite list_lookup_insert_ne by done. intros Hr'.
      destruct (wf_bound _ Hwf _ _ Hr') as (so & Hso & Hin). exists so.
      rewrite lookup_insert_ne by (apply Hne; by eexists). done.
  - intros id' so r'. destruct (decide (id = id')) as [<-|Hii].
    + rewrite lookup_insert_eq. intros [= <-]. simpl. intros ->%list_elem_of_singleton.
      by rewrite list_lookup_insert_eq by (by eapply lookup_lt_Some).
    + rewrite lookup_insert_ne by done. intros Hso Hin.
      apply (wf_listed _ Hwf _ _ _ Hso) in Hin. rewrite list_lookup_insert_ne; [done|congruence].
  - intros id' Hid. rewrite lookup_insert_is_Some'. right. by apply (wf_named _ Hwf).
  - intros n Hn. rewrite lookup_insert_ne; [apply Hgen; lia|]. intros He. apply Hinj in He. lia.
  - intros r' id'. rewrite !shared_object_Some. simpl. intros Hr'.
    rewrite list_lookup_insert_ne; [done|]. congruence.
  - intros id' Hid. rewrite lookup_insert_is_Some'. by right.
  - done.
  - by rewrite length_insert.
  - apply shared_object_Some. simpl. by rewrite list_lookup_insert_eq by (by eapply lookup_lt_Some).
Qed.

Lemma bind_references_total rs s :
  gen_ok s → Forall (fun r => r < length (object_references_ s)) rs →
  totalI gen_ok (mapM_ GetSharedObjectForObjectReference rs) s (fun ids s' =>
    Forall2 (fun r id => shared_object s' r = Some id) rs ids).
Proof.
  intros Hgen Hrs. rewrite Forall_forall in Hrs.
  apply (total_mapM _ _ _ _ (fun r id s' => shared_object s' r = Some id)); [done| |].
  - intros r s' Hr Hs' He. apply bind_reference_total; [done|].
    eapply Nat.lt_le_trans; [by apply Hrs|apply (ext_alloc _ _ He)].
  - intros r id s1 s2 He. apply (ext_bound _ _ He).
Qed.

(** A value the interpreter produced: set, and any reference one the store
    handed out. *)
Definition value_allocated (s : t) (v : Value) : Prop :=
  match data v with
  | UNINITIALIZED => False
  | OBJECT_REFERENCE r => r < length (object_references_ s)
  | _ => True
  end.

Lemma ensure_value_total v s :
  gen_ok s → value_allocated s v →
  totalI gen_ok (EnsureSharedObjectInValueExists v) s (fun _ s' =>
    sendable (shared_object s') v = true).
Proof.
  clear GeneratePredictableUuid.
  intros Hgen Hv. unfold EnsureSharedObjectInValueExists, value_allocated, sendable in *.
  destruct (data v) as [| | | | | | | | |r]; try (by apply total_ret).
  eapply total_bind; [by apply bind_reference_total|]. intros id s1 Hgen1 He1 Hr.
  apply total_ret; [done|]. rewrite Hr. by apply bool_decide_eq_true_2.
Qed.

Lemma sendable_stable s1 s2 v :
  extends s1 s2 → sendable (shared_object s1) v = true → sendable (shared_object s2) v = true.
Proof.
  intros He. unfold sendable. destruct (data v); try done.
  rewrite !bool_decide_eq_true. intros [id Hid]. exists id. by apply (ext_bound _ _ He).
Qed.

Lemma ensure_values_total vs s :
  gen_ok s → Forall (value_allocated s) vs →
  totalI gen_ok (mapM_ EnsureSharedObjectInValueExists vs) s (fun _ s' =>
    Forall (fun v => sendable (shared_object s') v = true) vs).
Proof.
  intros Hgen Hvs. rewrite Forall_forall in Hvs. eapply total_mono.
  - apply (total_mapM _ _ _ _ (fun v _ s' => sendable (shared_object s') v = true)); [done| |].
    + intros v s' Hv Hs' He. apply ensure_value_total; [done|]. specialize (Hvs v Hv).
      unfold value_allocated in *. destruct (data v); try done.
      eapply Nat.lt_le_trans; [exact Hvs|apply (ext_alloc _ _ He)].
    + intros v _ s1 s2. apply sendable_stable.
  - intros us s' _ _ HF. simpl in HF. clear -HF. induction HF; by constructor.
Qed.

(** The values and the references an event mentions. *)
Definition event_values (e : CommittedEvent.t) : list Value :=
  match e with
  | CommittedEvent.MethodCall _ ps | CommittedEvent.SubMethodCall _ _ _ ps
  | CommittedEvent.SelfMethodCall _ _ ps => ps
  | CommittedEvent.MethodReturn _ v | CommittedEvent.SubMethodReturn v
  | CommittedEvent.SelfMethodReturn _ v => [v]
  | _ => []
  end.

Definition event_callee (e : CommittedEvent.t) : list ObjectReference :=
  match e with CommittedEvent.SubMethodCall _ callee _ _ => [callee] | _ => [] end.

Definition event_allocated (s : t) (e : CommittedEvent.t) : Prop :=
  Forall (value_allocated s) (event_values e) ∧
  Forall (fun r => r < length (object_references_ s)) (event_callee e) ∧
  Forall (fun r => r < length (object_references_ s)) (elements (CommittedEvent.new_objects e)) ∧
  (∀ l, e = CommittedEvent.ObjectCreation l →
     ∃ dat refs, SerializeLive l (live s) = Ok (dat, refs) ∧
       Forall (fun r => r < length (object_references_ s)) refs).

Lemma allocated_le s s' rs :
  extends s s' → Forall (fun r => r < length (object_references_ s)) rs →
  Forall (fun r => r < length (object_references_ s')) rs.
Proof.
  intros He Hrs. eapply Forall_impl; [exact Hrs|]. intros r Hr. simpl in *. eapply Nat.lt_le_trans; [exact Hr|apply (ext_alloc _ _ He)].
Qed.

Lemma encode_sendable s vs :
  Forall (fun v => sendable (shared_object s) v = true) vs →
  ∃ ps, mapM_ ValueToProto vs s = Ok (ps, s).
Proof.
  induction 1 as [|v vs Hv _ [ps IH]]; simpl; [by eexists|].
  destruct (convert_value_ok _ _ Hv) as (p & Hp & _).
  unfold mbind, M_bind. rewrite (ValueToProto_ok _ _ _ Hp). simpl. rewrite IH. by eexists.
Qed.

Lemma encode_bound s rs ids :
  Forall2 (fun r id => shared_object s r = Some id) rs ids →
  mapM_ GetSharedObjectForObjectReference rs s = Ok (ids, s).
Proof. intros Hrs. apply mapM_pure. eapply Forall2_impl; [exact Hrs|]. intros r id. apply bound_lookup. Qed.

(** After the references of an event are bound, all of them are. *)
Lemma ensure_event_total e s :
  gen_ok s → event_allocated s e →
  totalI gen_ok (EnsureSharedObjectsInEventExist e) s (fun _ s' =>
    Forall (fun v => sendable (shared_object s') v = true) (event_values e) ∧
    Forall (fun r => is_Some (shared_object s' r)) (event_callee e) ∧
    ∃ ids, Forall2 (fun r id => shared_object s' r = Some id)
             (elements (CommittedEvent.new_objects e)) ids).
Proof.
  intros Hgen (Hvs & Hcallee & Hnew & _). unfold EnsureSharedObjectsInEventExist.
  eapply (total_bind _ _ _ _ (fun _ s' =>
    Forall (fun v => sendable (shared_object s') v = true) (event_values e) ∧
    Forall (fun r => is_Some (shared_object s' r)) (event_callee e))).
  - destruct e as [l| | |m ps|n v|n c m ps|v|n m ps|n v]; simpl in *;
      try (apply total_ret; [done|by split; constructor]);
      try (eapply total_mono; [by apply ensure_values_total|]; intros; by split; [|constructor]).
    + eapply total_bind; [apply ensure_value_total; [done|by inversion Hvs]|].
      intros ? s1 Hg1 He1 Hv. apply total_ret; [done|]. by repeat constructor.
    + rewrite Forall_singleton in Hcallee.
      eapply total_bind; [apply bind_reference_total; [exact Hgen|exact Hcallee]|]. intros id s1 Hg1 He1 Hc.
      eapply total_mono; [apply ensure_values_total; [done|]|].
      { eapply Forall_impl; [exact Hvs|]. intros v. unfold value_allocated.
        destruct (data v); try done. intros Hr. eapply Nat.lt_le_trans; [exact Hr|apply (ext_alloc _ _ He1)]. }
      intros ? s2 Hg2 He2 Hs2. split; [done|]. constructor; [|constructor].
      exists id. by apply (ext_bound _ _ He2).
    + eapply total_bind; [apply ensure_value_total; [done|by inversion Hvs]|].
      intros ? s1 Hg1 He1 Hv. apply total_ret; [done|]. by repeat constructor.
    + eapply total_bind; [apply ensure_value_total; [done|by inversion Hvs]|].
      intros ? s1 Hg1 He1 Hv. apply total_ret; [done|]. by repeat constructor.
  - intros ? s1 Hg1 He1 [Hv1 Hc1].
    eapply total_bind; [apply bind_references_total; [done|by eapply allocated_le]|].
    intros ids s2 Hg2 He2 Hids. apply total_ret; [done|]. split_and!; [| |by exists ids].
    + eapply Forall_impl; [exact Hv1|]. intros v. by apply sendable_stable.
    + eapply Forall_impl; [exact Hc1|]. intros r [id Hid]. exists id. by apply (ext_bound _ _ He2).
Qed.

(** An event recorded on this peer can always be sent: binding its
    references first ([EnsureSharedObjectsInEventExist]) makes the conversion
    to the wire form return, so the [CHECK] on an unbound reference in
    [ConvertValueToValueProto] never fires for it; the correspondence between
    references and shared objects is kept. *)
Theorem ensured_event_encodes e s :
  gen_ok s → event_allocated s e →
  ∃ s1, EnsureSharedObjectsInEventExist e s = Ok (tt, s1) ∧
    totalI gen_ok (ConvertCommittedEventToEventProto e) s1 (fun _ _ => True).
Proof.
  intros Hgen He. destruct (ensure_event_total e s Hgen He)
    as ([] & s1 & Hens & Hg1 & Hx1 & Hv & Hc & ids & Hids).
  exists s1. split; [done|]. unfold ConvertCommittedEventToEventProto.
  eapply (total_bind _ _ _ _ (fun _ _ => True)).
  - destruct e as [l| | |m ps|n v|n c m ps|v|n m ps|n v]; simpl in Hv, Hc;
      try (by apply total_ret);
      try (destruct (encode_sendable _ _ Hv) as [qs Hqs]).
    + destruct He as (_ & _ & _ & Hl). destruct (Hl l eq_refl) as (dat & refs & Hser & Hrefs).
      rewrite <- (ext_live _ _ Hx1) in Hser.
      destruct (bind_references_total refs s1 Hg1) as (ids1 & s2 & Hb & Hg2 & Hx2 & _);
        [by eapply allocated_le|].
      eexists _, s2. unfold mbind, M_bind, lift. simpl. rewrite Hser. simpl. rewrite Hb. by split_and!.
    + eexists _, s1. unfold mbind, M_bind. rewrite Hqs. by split_and!.
    + simpl in Hqs. unfold mbind, M_bind in Hqs.
      destruct (ValueToProto v s1) as [[q s2]| |] eqn:E; [|done..]. injection Hqs as <- <-.
      eexists _, s2. unfold mbind, M_bind. rewrite E. by split_and!.
    + rewrite Forall_singleton in Hc. destruct Hc as [id Hid].
      eexists _, s1. unfold mbind, M_bind. rewrite Hqs. simpl. rewrite (bound_lookup _ _ _ Hid). by split_and!.
    + simpl in Hqs. unfold mbind, M_bind in Hqs.
      destruct (ValueToProto v s1) as [[q s2]| |] eqn:E; [|done..]. injection Hqs as <- <-.
      eexists _, s2. unfold mbind, M_bind. rewrite E. by split_and!.
    + eexists _, s1. unfold mbind, M_bind. rewrite Hqs. by split_and!.
    + simpl in Hqs. unfold mbind, M_bind in Hqs.
      destruct (ValueToProto v s1) as [[q s2]| |] eqn:E; [|done..]. injection Hqs as <- <-.
      eexists _, s2. unfold mbind, M_bind. rewrite E. by split_and!.
  - intros out s2 Hg2 Hx2 _.
    eapply total_bind; [|intros ids2 s3 Hg3 Hx3 _; by apply total_ret].
    exists ids, s2. split_and!; [|done|done|exact I].
    apply encode_bound. eapply Forall2_impl; [exact Hids|]. intros r id. apply (ext_bound _ _ Hx2).
Qed.
End commit.

(** ** The contents of the shared objects *)

(** No operation of the tables touches an object's content, and none forgets a
    shared object. *)
Definition contents_kept (s s' : t) : Prop :=
  ∀ id so, shared_objects_ s !! id = Some so →
    ∃ so', shared_objects_ s' !! id = Some so' ∧ object_content_ so' = object_content_ so.

#[global] Instance contents_kept_preorder : PreOrder contents_kept.
Proof.
  clear GenerateUuid GeneratePredictableUuid. split; [by intros s id so ?; exists so|].
  intros s1 s2 s3 H1 H2 id so Hs. destruct (H1 id so Hs) as (so' & Hs' & <-). by apply H2.
Qed.

Definition keeps_contents {A} (m : M A) : Prop :=
  ∀ s a s', m s = Ok (a, s') → contents_kept s s'.

Lemma kc_same s s' : shared_objects_ s' = shared_objects_ s → contents_kept s s'.
Proof. intros E id so Hs. rewrite E. by exists so. Qed.

Lemma kc_insert s s' id so :
  shared_objects_ s' = <[id := so]> (shared_objects_ s) →
  (∀ so0, shared_objects_ s !! id = Some so0 → object_content_ so = object_content_ so0) →
  contents_kept s s'.
Proof.
  intros E Hso id' so' Hs. rewrite E. destruct (decide (id = id')) as [<-|Hne].
  - exists so. rewrite lookup_insert_eq. split; [done|]. by apply Hso.
  - exists so'. by rewrite lookup_insert_ne.
Qed.

Lemma kc_ret {A} (a : A) : keeps_contents (mret a).
Proof. intros s b s' [= <- <-]. reflexivity. Qed.

Lemma kc_get : keeps_contents get.
Proof. intros s b s' [= <- <-]. reflexivity. Qed.

Lemma kc_lift {A} (r : res A) : keeps_contents (lift r).
Proof. intros s b s' Hb. unfold lift in Hb. res_inv. reflexivity. Qed.

Lemma kc_bind {A B} (m : M A) (f : A → M B) :
  keeps_contents m → (∀ a, keeps_contents (f a)) → keeps_contents (m ≫= f).
Proof.
  intros Hm Hf s b s' Hb. apply bind_Ok in Hb as ([a s1] & Ha & Hb).
  etrans; [by eapply Hm|by eapply Hf].
Qed.

Lemma kc_mapM {A B} (f : A → M B) l : (∀ x, keeps_contents (f x)) → keeps_contents (mapM_ f l).
Proof.
  intros Hf. induction l as [|x l IH]; simpl; [apply kc_ret|].
  apply kc_bind; [done|]. intros y. apply kc_bind; [done|]. intros ys. apply kc_ret.
Qed.

Lemma kc_unbound : keeps_contents CreateUnboundObjectReference.
Proof. intros s b s' [= <- <-]. by apply kc_same. Qed.

Lemma kc_bind_reference r id : keeps_contents (SetSharedObjectIfUnset r id).
Proof.
  intros s b s' Hb. unfold SetSharedObjectIfUnset in Hb.
  apply bind_Ok in Hb as (so & _ & Hb). destruct so; injection Hb as <- <-; by apply kc_same.
Qed.

Lemma kc_has id r : keeps_contents (HasObjectReference id r).
Proof. intros s b s' Hb. unfold HasObjectReference in Hb. res_inv. reflexivity. Qed.

Lemma kc_interested id : keeps_contents (GetInterestedPeers id).
Proof. intros s b s' Hb. unfold GetInterestedPeers in Hb. res_inv. reflexivity. Qed.

Lemma kc_add_interested id p : keeps_contents (AddInterestedPeer id p).
Proof.
  intros s b s' Hb. unfold AddInterestedPeer in Hb.
  apply bind_Ok in Hb as (so & Hso%deref_Ok & [= <- <-]). eapply kc_insert; [done|].
  intros so0 Hso0. simpl. congruence.
Qed.

Lemma kc_add_reference id r : keeps_contents (AddObjectReference id r).
Proof.
  intros s b s' Hb. unfold AddObjectReference in Hb.
  apply bind_Ok in Hb as (so & Hso%deref_Ok & [= <- <-]). eapply kc_insert; [done|].
  intros so0 Hso0. simpl. congruence.
Qed.

Lemma kc_create_shared id : keeps_contents (GetOrCreateSharedObject id).
Proof.
  intros s b s' [= <- <-]. destruct (shared_objects_ s !! id) eqn:E; [reflexivity|].
  eapply kc_insert; [done|]. intros so0. by rewrite E.
Qed.

Lemma kc_uuid : keeps_contents (GenerateUuidM).
Proof. intros s b s' [= <- <-]. by apply kc_same. Qed.

Create HintDb contents.
#[local] Hint Resolve kc_ret kc_get kc_lift kc_unbound kc_bind_reference kc_has kc_interested
  kc_add_interested kc_add_reference kc_create_shared kc_uuid : contents.

Ltac contents :=
  repeat first
    [ progress auto with contents | apply kc_bind; [|intros ?] | apply kc_mapM; intros ? | case_match ].

Lemma kc_reference id : keeps_contents (GetOrCreateObjectReference id).
Proof. unfold GetOrCreateObjectReference. contents. Qed.
#[local] Hint Resolve kc_reference : contents.

Lemma kc_shared_for r : keeps_contents (GetSharedObjectForObjectReference r).
Proof.
  intros s b s' Hb. unfold GetSharedObjectForObjectReference in Hb.
  apply bind_Ok in Hb as ([s0 s1] & [= <- <-] & Hb).
  destruct (shared_object s r); [injection Hb as <- <-; reflexivity|].
  apply bind_Ok in Hb as ([id s1] & Hid & Hb). apply kc_uuid in Hid.
  apply bind_Ok in Hb as ([bound s2] & Hbd & Hb). apply kc_bind_reference in Hbd.
  etrans; [exact Hid|]. etrans; [exact Hbd|].
  case_bool_decide; [injection Hb as <- <-; reflexivity|].
  apply bind_Ok in Hb as ([s0 s3] & [= <- <-] & Hb).
  apply bind_Ok in Hb as ([[] s3] & Hc & Hb). unfold lift in Hc.
  apply bind_Ok in Hc as ([] & Hnone%CHECK_Ok & [= <-]). apply bool_decide_eq_true in Hnone.
  apply bind_Ok in Hb as ([[] s4] & [= <-] & [= <- <-]).
  eapply kc_insert; [done|]. intros so0 Hso0. congruence.
Qed.
#[local] Hint Resolve kc_shared_for : contents.

Lemma kc_bound name : keeps_contents (CreateBoundObjectReference name).
Proof.
  unfold CreateBoundObjectReference. contents.
  intros s b s' [= <- <-]. by apply kc_same.
Qed.

Lemma kc_for_id id : keeps_contents (ReferenceForId id).
Proof. unfold ReferenceForId. contents. Qed.
#[local] Hint Resolve kc_bound kc_for_id : contents.

Lemma kc_value p : keeps_contents (ConvertValueProtoToValue p).
Proof. unfold ConvertValueProtoToValue. contents. Qed.
#[local] Hint Resolve kc_value : contents.

Lemma kc_decode p : keeps_contents (ConvertEventProtoToCommittedEvent p).
Proof.
  unfold ConvertEventProtoToCommittedEvent, no_new_objects. contents.
  intros s1 b s1' [= <- <-]. by apply kc_same.
Qed.

Lemma kc_new_references new : keeps_contents (CreateNewObjectReferences new).
Proof. unfold CreateNewObjectReferences. contents. Qed.
End object_table.
Arguments t : clear implicits.
Arguments SharedObject : clear implicits.
End ObjectTable.

(** ** Witnesses: an interpreter whose objects are bytes and references *)
Definition blob : Type := string * list ObjectReference.

Fixpoint ask_indexes (refs : list ObjectReference) (dat : string) : ser_prog :=
  match refs with
  | [] => SDone dat
  | r :: rs => SIndex r (fun _ => ask_indexes rs dat)
  end.

#[export] Instance blob_codec : LocalObjectCodec blob := {
  lo_serialize b := ask_indexes b.2 b.1;
  lo_deserialize dat refs := (dat, refs);
}.

Lemma ask_indexes_run refs dat ctx :
  NoDup refs → (∀ r, r ∈ refs → indexes_ ctx !! r = None) →
  ∃ ctx', ser_run (ask_indexes refs dat) ctx = (dat, ctx') ∧
    Serialization.object_references_ ctx' = (Serialization.object_references_ ctx ++ refs)%list.
Proof.
  intros Hnd. revert ctx. induction Hnd as [|r rs Hr Hnd IH]; intros ctx Hnone; simpl.
  { exists ctx. by rewrite app_nil_r. }
  unfold GetIndexForObjectReference. rewrite Hnone by left. simpl.
  edestruct IH as (ctx' & Hrun & Hrefs).
  2: { exists ctx'. split; [exact Hrun|]. rewrite Hrefs. simpl. by rewrite <- app_assoc. }
  intros r' Hr'. simpl. rewrite lookup_insert_ne; [apply Hnone; by right|]. intros ->. done.
Qed.

#[export] Instance blob_laws : LiveObjectStoreLaws (LiveObject.heap blob).
Proof.
  split. intros dat refs h Hnd. simpl.
  unfold LiveObject.local_object, LiveObject.GetNode, LiveObject.deref_node. simpl.
  rewrite lookup_insert_eq. simpl. rewrite lookup_insert_eq. simpl.
  rewrite (serialize_to_string_eq _ _ _ zeros_length). simpl.
  destruct (ask_indexes_run refs dat NewSerializationContext Hnd) as (ctx' & -> & Hr); [done|].
  simpl. by rewrite Hr.
Qed.

Definition uuid_at (n : nat) : Uuid := {| high_word := Z.of_nat n; low_word := 0 |}.
#[export] Instance uuid_at_inj : Inj (=) (=) uuid_at.
Proof. intros a b [= ?]. lia. Qed.
Definition name_uuid (ns : Uuid) (name : string) : Uuid :=
  {| high_word := Z.of_nat (String.length name); low_word := 1 |}.

Definition table0 : ObjectTable.t unit (LiveObject.heap blob) :=
  ObjectTable.New LiveObject.empty_heap.

Lemma table0_wf : ObjectTable.wf table0.
Proof.
  split; simpl; [by intros r id; rewrite lookup_nil|by intros id so r; rewrite lookup_empty|].
  intros id Hid. by apply elem_of_empty in Hid.
Qed.

Definition creation_proto : EventProto.t :=
  EventProto.Build_t
    (Some {| EventProto.oc_data := "abc"; EventProto.oc_referenced_object_id := [uuid_at 3; uuid_at 5] |})
    None None None None None None None None [].


Lemma objects_are_identical_spec_witness :
  ObjectTable.ObjectsAreIdentical table0 2 2 = true ↔
  2 = 2 ∨ ∃ id, ObjectTable.HasObjectReference id 2 table0 = Ok (true, table0) ∧
                ObjectTable.HasObjectReference id 2 table0 = Ok (true, table0).
Proof. apply (ObjectTable.objects_are_identical_spec table0 2 2 table0_wf). Defined.

Lemma named_objects_identity_witness :
  ∃ r1 s1, ObjectTable.CreateBoundObjectReference uuid_at name_uuid "shell" table0 = Ok (r1, s1).
Proof.
  destruct (ObjectTable.named_objects_identity uuid_at name_uuid "shell" "init" table0 table0_wf)
    as (r1 & s1 & H1 & _); [discriminate|discriminate|eauto].
Defined.

(** One reference exists and is not bound. *)
Definition table1 : ObjectTable.t unit (LiveObject.heap blob) :=
  ObjectTable.set_refs [None] table0.

Lemma ensured_event_encodes_witness :
  ∃ s1, ObjectTable.EnsureSharedObjectsInEventExist uuid_at
          (CommittedEvent.MethodReturn {[0]} (set_object_reference 7 0)) table1 = Ok (tt, s1).
Proof.
  destruct (ObjectTable.ensured_event_encodes uuid_at
              (CommittedEvent.MethodReturn {[0]} (set_object_reference 7 0)) table1)
    as (s1 & Hs1 & _); [| |eauto].
  - split; [|intros n _; apply lookup_empty].
    split; simpl; [|by intros id so r; rewrite lookup_empty|].
    + intros [|r] id; simpl; [done|]. by rewrite lookup_nil.
    + intros id Hid. by apply elem_of_empty in Hid.
  - split_and!; simpl; [by repeat constructor|by constructor| |done].
    rewrite elements_singleton. repeat constructor.
Defined.
