(* ===== verification/ObjectContent.v ===== *)
(** [engine/object_content.{h,cc}]: the history of one shared object, and the
    replay of it that computes a version of the object.

    The playback thread is an interface, [Playback]; file [PlaybackThread]
    implements it.  [W] is what a playback thread shares with the rest of the
    peer: the object tables and the map of new object references that the
    callers pass along. *)
From stdpp Require Import base tactics list strings gmap sorting.
From Stdlib Require Import ZArith Lia.
From S2P Require Import Prelude StdMap Ids VersionMap SequencePoint Values Events.

(** ** What the history needs of a playback thread *)
Class Playback (W P : Type) := {
  (** [Start] with a null live object *)
  PStart : W → P;
  (** [QueueEvent] on each event, then [FlushEvents] *)
  PRun : list CommittedEvent.t → P → res P;
  (** [conflict_detected] *)
  PConflict : P → bool;
  (** [Stop], then [live_object] *)
  PStop : P → res (option LiveObjectPtr * W);
}.

(** What a playback thread leaves alone in the world it was started in, as a
    relation [F] between the world before and after. *)
Class PlaybackFrame (W P : Type) `{Playback W P} (F : relation W) := {
  frame_inv : W → P → Prop;
  frame_start w : frame_inv w (PStart w);
  frame_run w p evs p' : frame_inv w p → PRun evs p = Ok p' → frame_inv w p';
  frame_stop w p live_object w' : frame_inv w p → PStop p = Ok (live_object, w') → F w w';
}.

Abbreviation reject_list := (list (CanonicalPeer * TransactionId)).

(** The position of the first pair with this transaction id; the length of the
    list ([end()]) if there is none. *)
Fixpoint FindTransactionIdInVector (transaction_pairs : reject_list)
    (transaction_id : TransactionId) : nat :=
  match transaction_pairs with
  | [] => 0
  | (_, t) :: rest =>
      if tid_neb t transaction_id then S (FindTransactionIdInVector rest transaction_id) else 0
  end.

Module ObjectContent.
Section object_content.
Context {W P : Type} `{Playback W P}.

Record t := {
  committed_versions_ : omap TransactionId SharedObjectTransaction.t;
  version_map_ : version_map;
  up_to_date_peers_ : gset CanonicalPeer;
  max_requested_transaction_id_ : TransactionId;
  cached_live_object_ : option LiveObjectPtr;
  cached_sequence_point_ : SequencePointImpl.t;
}.

Definition New : t :=
  {| committed_versions_ := []; version_map_ := ∅; up_to_date_peers_ := ∅;
     max_requested_transaction_id_ := MIN_TRANSACTION_ID;
     cached_live_object_ := None; cached_sequence_point_ := SequencePointImpl.New |}.

Definition ComputeEffectiveVersion_Locked (transaction_store_version_map : version_map)
    (effective_version : version_map) (c : t) : res version_map :=
  effective_version ←
    foldM (fun out '(p, tid) => MaxAdd p tid out) effective_version
      (map_to_list (version_map_ c));
  foldM (fun out origin_peer =>
      match transaction_store_version_map !! origin_peer with
      | None => Ok out
      | Some tid => MaxAdd origin_peer tid out
      end) effective_version (elements (up_to_date_peers_ c)).

(** The iterator range of the inner loop; walking from an iterator behind the
    end iterator runs off the map. *)
Definition range {V} (start_it end_it : nat) (m : omap TransactionId V)
    : res (omap TransactionId V) :=
  if bool_decide (start_it ≤ end_it) then Ok (take (end_it - start_it) (drop start_it m))
  else Undef.

Definition harmless (e : CommittedEvent.t) : bool :=
  bool_decide (CommittedEvent.type e = CommittedEvent.METHOD_CALL) ||
  bool_decide (CommittedEvent.type e = CommittedEvent.SUB_METHOD_RETURN).

(** The loop over [requested_peer_transactions_ids]: [false] is the early
    [return false]. *)
Fixpoint cached_loop (requested : list (CanonicalPeer * TransactionId))
    (cached : version_map) (committed : omap TransactionId SharedObjectTransaction.t)
    : res bool :=
  match requested with
  | [] => Ok true
  | (origin_peer, requested_transaction_id) :: rest =>
      let cached_transaction_id := default MIN_TRANSACTION_ID (cached !! origin_peer) in
      txs ← range (upper_bound cached_transaction_id committed)
                  (upper_bound requested_transaction_id committed) committed;
      if forallb (fun tx : TransactionId * SharedObjectTransaction.t =>
           negb (bool_decide (SharedObjectTransaction.origin_peer tx.2 = origin_peer)) ||
           forallb harmless (SharedObjectTransaction.events tx.2)) txs
      then cached_loop rest cached committed
      else Ok false
  end.

Definition CanUseCachedLiveObject_Locked (requested_sequence_point : SequencePointImpl.t)
    (c : t) : res bool :=
  match cached_live_object_ c with
  | None => Ok false
  | Some _ =>
      let requested := SequencePointImpl.version_map_ requested_sequence_point in
      let cached := SequencePointImpl.version_map_ (cached_sequence_point_ c) in
      if negb (VersionMapIsLessThanOrEqual cached requested) then Ok false else
      ok ← cached_loop (map_to_list requested) cached (committed_versions_ c);
      if negb ok then Ok false else
      if negb (PeerExclusionMap.PeerExclusionMapsAreEqual
                 (SequencePointImpl.peer_exclusion_map_ requested_sequence_point)
                 (SequencePointImpl.peer_exclusion_map_ (cached_sequence_point_ c)))
      then Ok false else
      Ok (bool_decide (SequencePointImpl.rejected_peers_ requested_sequence_point =
                       SequencePointImpl.rejected_peers_ (cached_sequence_point_ c)))
  end.

(** Whether the loop of [ApplyTransactionsToWorkingVersion_Locked] replays a
    transaction. *)
Definition replayed (desired_version : version_map) (rejected : reject_list)
    (tx : TransactionId * SharedObjectTransaction.t) : bool :=
  negb (bool_decide (SharedObjectTransaction.events tx.2 = [])) &&
  MaxHas (SharedObjectTransaction.origin_peer tx.2) tx.1 desired_version &&
  bool_decide (FindTransactionIdInVector rejected tx.1 = length rejected).

Fixpoint ApplyTransactionsToWorkingVersion_Locked (desired_version : version_map)
    (committed : omap TransactionId SharedObjectTransaction.t)
    (playback_thread : P) (transactions_to_reject : reject_list)
    : res (bool * P * reject_list) :=
  match committed with
  | [] => Ok (true, playback_thread, transactions_to_reject)
  | (transaction_id, transaction) :: rest =>
      if replayed desired_version transactions_to_reject (transaction_id, transaction) then
        playback_thread ← PRun (SharedObjectTransaction.events transaction) playback_thread;
        if PConflict playback_thread then
          Ok (false, playback_thread,
              transactions_to_reject ++
                [(SharedObjectTransaction.origin_peer transaction, transaction_id)])
        else ApplyTransactionsToWorkingVersion_Locked desired_version rest playback_thread
               transactions_to_reject
      else ApplyTransactionsToWorkingVersion_Locked desired_version rest playback_thread
             transactions_to_reject
  end.

(** The endless loop, with fuel; [None] is out of fuel. *)
Fixpoint working_version_loop (fuel : nat) (desired_version : version_map)
    (committed : omap TransactionId SharedObjectTransaction.t)
    (w : W) (transactions_to_reject : reject_list)
    : option (res (option LiveObjectPtr * W * reject_list)) :=
  match fuel with
  | O => None
  | S fuel =>
      match ApplyTransactionsToWorkingVersion_Locked desired_version committed (PStart w)
              transactions_to_reject with
      | Ok (success, playback_thread, rejected) =>
          match PStop playback_thread with
          | Ok (live_object, w) =>
              if (success : bool) then Some (Ok (live_object, w, rejected))
              else working_version_loop fuel desired_version committed w rejected
          | Fatal => Some Fatal
          | Undef => Some Undef
          end
      | Fatal => Some Fatal
      | Undef => Some Undef
      end
  end.

(** One attempt per transaction, and the last one, are enough. *)
Definition GetWorkingVersion_Locked (desired_version : version_map) (w : W)
    (transactions_to_reject : reject_list) (c : t)
    : res (option LiveObjectPtr * W * reject_list) :=
  default Undef
    (working_version_loop (S (length (committed_versions_ c))) desired_version
       (committed_versions_ c) w transactions_to_reject).

Definition GetWorkingVersion (transaction_store_version_map : version_map)
    (sequence_point : SequencePointImpl.t) (w : W) (transactions_to_reject : reject_list)
    (c : t) : res (option LiveObjectPtr * W * reject_list) :=
  effective_version ← ComputeEffectiveVersion_Locked transaction_store_version_map ∅ c;
  if negb (VersionMapIsLessThanOrEqual (SequencePointImpl.version_map_ sequence_point)
             effective_version)
  then Ok (None, w, transactions_to_reject)
  else
    can_use ← CanUseCachedLiveObject_Locked sequence_point c;
    if (can_use : bool) then
      live_object ← check_some (cached_live_object_ c);
      Ok (Some live_object, w, transactions_to_reject)
    else GetWorkingVersion_Locked (SequencePointImpl.version_map_ sequence_point) w
           transactions_to_reject c.

Definition GetTransactions (transaction_store_version_map : version_map)
    (transactions : omap TransactionId SharedObjectTransaction.t)
    (effective_version : version_map) (c : t)
    : res (omap TransactionId SharedObjectTransaction.t * version_map) :=
  transactions ←
    foldM (fun out '(tid, tr) =>
        tr ← SharedObjectTransaction.Clone tr;
        let '(out, _, inserted) := map_emplace tid tr out in
        CHECK inserted;; Ok out) transactions (committed_versions_ c);
  effective_version ←
    ComputeEffectiveVersion_Locked transaction_store_version_map effective_version c;
  Ok (transactions, effective_version).

(** [new SharedObjectTransaction(...)] into an empty slot of
    [committed_versions_]. *)
Definition fill_slot (transaction_id : TransactionId) (make : res SharedObjectTransaction.t)
    (committed : omap TransactionId SharedObjectTransaction.t)
    : res (omap TransactionId SharedObjectTransaction.t) :=
  match map_find transaction_id committed with
  | Some _ => Ok committed
  | None => tr ← make; Ok (map_put transaction_id tr committed)
  end.

Definition set_history (committed : omap TransactionId SharedObjectTransaction.t)
    (vm : version_map) (peers : gset CanonicalPeer) (c : t) : t :=
  {| committed_versions_ := committed; version_map_ := vm; up_to_date_peers_ := peers;
     max_requested_transaction_id_ := max_requested_transaction_id_ c;
     cached_live_object_ := cached_live_object_ c;
     cached_sequence_point_ := cached_sequence_point_ c |}.

Definition store_step (max_requested : TransactionId)
    (acc : omap TransactionId SharedObjectTransaction.t * version_map * bool)
    (tx : TransactionId * SharedObjectTransaction.t)
    : res (omap TransactionId SharedObjectTransaction.t * version_map * bool) :=
  let '(committed, vm, should_replay) := acc in
  let '(transaction_id, src_transaction) := tx in
  CHECK (IsValidTransactionId transaction_id);;
  committed' ← fill_slot transaction_id (SharedObjectTransaction.Clone src_transaction) committed;
  let should_replay :=
    match map_find transaction_id committed with
    | Some _ => should_replay
    | None => should_replay || tid_leb transaction_id max_requested
    end in
  vm ← MaxAdd (SharedObjectTransaction.origin_peer src_transaction) transaction_id vm;
  Ok (committed', vm, should_replay).

(** ** Replay *)
Lemma find_in_vector l tid : FindTransactionIdInVector l tid = length l ↔ tid ∉ l.*2.
Proof.
  induction l as [|[p u] l IH]; csimpl; [split; [intros _ ?%elem_of_nil|]; done|].
  rewrite not_elem_of_cons, <- IH. unfold tid_neb.
  destruct (tid_eqb u tid) eqn:E; simpl.
  - apply tid_eqb_eq in E as ->. naive_solver.
  - assert (tid ≠ u) by (intros ->; by rewrite (proj2 (tid_eqb_eq u u) eq_refl) in E). naive_solver.
Qed.

Lemma replayed_iff d rej tid tr :
  replayed d rej (tid, tr) = true ↔
  SharedObjectTransaction.events tr ≠ [] ∧
  MaxHas (SharedObjectTransaction.origin_peer tr) tid d = true ∧ tid ∉ rej.*2.
Proof.
  unfold replayed. simpl.
  rewrite !andb_true_iff, negb_true_iff, bool_decide_eq_true, bool_decide_eq_false, find_in_vector.
  naive_solver.
Qed.

(** The transactions a replay has to run, in order: those with events that the
    desired version contains and that were not rejected. *)
Definition survivors (d : version_map) (rej : reject_list)
    (committed : omap TransactionId SharedObjectTransaction.t)
    : omap TransactionId SharedObjectTransaction.t :=
  filter (fun tx => SharedObjectTransaction.events tx.2 ≠ [] ∧
    MaxHas (SharedObjectTransaction.origin_peer tx.2) tx.1 d = true ∧ tx.1 ∉ rej.*2) committed.

Lemma survivors_eq d rej committed :
  survivors d rej committed = filter (fun tx => replayed d rej tx = true) committed.
Proof. apply list_filter_iff. intros [tid tr]. by rewrite replayed_iff. Qed.

(** [clean_replay p txs p']: running the transactions one after the other from
    [p] leads to [p'] and meets no conflict. *)
Inductive clean_replay : P → omap TransactionId SharedObjectTransaction.t → P → Prop :=
| clean_nil p : clean_replay p [] p
| clean_cons p tx p1 txs p2 :
    PRun (SharedObjectTransaction.events tx.2) p = Ok p1 → PConflict p1 = false →
    clean_replay p1 txs p2 → clean_replay p (tx :: txs) p2.

Lemma apply_spec d committed p rej ok p' rej' :
  ApplyTransactionsToWorkingVersion_Locked d committed p rej = Ok (ok, p', rej') →
  (ok = true ∧ rej' = rej ∧ clean_replay p (survivors d rej committed) p') ∨
  (ok = false ∧ ∃ pre tid tr post p1, committed = pre ++ (tid, tr) :: post ∧
     replayed d rej (tid, tr) = true ∧
     rej' = rej ++ [(SharedObjectTransaction.origin_peer tr, tid)] ∧
     clean_replay p (survivors d rej pre) p1 ∧
     PRun (SharedObjectTransaction.events tr) p1 = Ok p' ∧ PConflict p' = true).
Proof.
  setoid_rewrite survivors_eq. revert p. induction committed as [|[tid tr] rest IH]; intros p Ha.
  { injection Ha as <- <- <-. left. split_and!; [done|done|constructor]. }
  cbn [ApplyTransactionsToWorkingVersion_Locked] in Ha.
  destruct (replayed d rej (tid, tr)) eqn:Er.
  - apply bind_Ok in Ha as (p1 & Hp1 & Ha). destruct (PConflict p1) eqn:Ec.
    + injection Ha as <- <- <-. right. split; [done|].
      exists [], tid, tr, rest, p. split_and!; try done. constructor.
    + destruct (IH p1 Ha) as [(-> & -> & Hc)|(-> & pre & u & ur & post & p2 & -> & Hr & -> & Hc & Hp)].
      * left. split_and!; [done|done|]. rewrite filter_cons_True by done. by econstructor.
      * right. split; [done|]. exists ((tid, tr) :: pre), u, ur, post, p2.
        split_and!; try done; [|by destruct Hp..].
        rewrite filter_cons_True by done. by econstructor.
  - destruct (IH p Ha) as [(-> & -> & Hc)|(-> & pre & u & ur & post & p2 & -> & Hr & -> & Hc & Hp)].
    + left. split_and!; [done|done|]. rewrite filter_cons_False by (by rewrite Er). done.
    + right. split; [done|]. exists ((tid, tr) :: pre), u, ur, post, p2.
      split_and!; try done; [|by destruct Hp..].
      rewrite filter_cons_False by (by rewrite Er). done.
Qed.

(** Rejecting a transaction leaves fewer to replay. *)
Lemma survivors_decrease d rej committed tid tr :
  (tid, tr) ∈ committed → replayed d rej (tid, tr) = true →
  (length (survivors d (rej ++ [(SharedObjectTransaction.origin_peer tr, tid)]) committed) <
   length (survivors d rej committed)).
Proof.
  set (rej' := rej ++ _). intros Hin Hr. rewrite !survivors_eq.
  assert (Hsub : ∀ tx, replayed d rej' tx = true → replayed d rej tx = true).
  { intros [u ur]. rewrite !replayed_iff. subst rej'. rewrite fmap_app, not_elem_of_app. naive_solver. }
  assert (Hout : replayed d rej' (tid, tr) = false).
  { apply not_true_iff_false. rewrite replayed_iff. subst rej'. rewrite fmap_app.
    intros (_ & _ & Hn). apply Hn, elem_of_app. right. left. }
  assert (Hle : ∀ l, length (filter (fun tx => replayed d rej' tx = true) l) ≤
                     length (filter (fun tx => replayed d rej tx = true) l)).
  { induction l as [|tx l IH]; [done|]. rewrite !filter_cons.
    destruct (decide (replayed d rej' tx = true)) as [E|E].
    - rewrite decide_True by (by apply Hsub). simpl. lia.
    - case_decide; simpl; lia. }
  induction committed as [|tx l IH]; [by apply elem_of_nil in Hin|].
  rewrite !filter_cons. apply elem_of_cons in Hin as [<-|Hin].
  - rewrite (decide_True _ _ Hr), decide_False by congruence. simpl. specialize (Hle l). lia.
  - specialize (IH Hin). destruct (decide (replayed d rej' tx = true)) as [E|E].
    + rewrite decide_True by (by apply Hsub). simpl. lia.
    + case_decide; simpl; lia.
Qed.

Lemma loop_terminates fuel d committed w rej :
  length (survivors d rej committed) < fuel →
  working_version_loop fuel d committed w rej ≠ None.
Proof.
  revert w rej. induction fuel as [|fuel IH]; intros w rej Hf; [lia|].
  cbn [working_version_loop].
  destruct (ApplyTransactionsToWorkingVersion_Locked d committed (PStart w) rej)
    as [[[ok p'] rej']| |] eqn:Ea; [|done|done].
  destruct (PStop p') as [[lo w']| |]; [|done|done].
  apply apply_spec in Ea as [(-> & -> & _)|(-> & pre & tid & tr & post & p1 & -> & Hr & -> & _)]; [done|].
  apply IH. eapply Nat.lt_le_trans; [apply survivors_decrease; [|done]|lia].
  apply elem_of_app. right. left.
Qed.

(** What the loop returns: the version the surviving transactions produce, and
    the rejected ones, each of which is a distinct committed transaction that
    was asked for and met a conflict when it was replayed. *)
Record rejected_ok (d : version_map) (committed : omap TransactionId SharedObjectTransaction.t)
    (rej new : reject_list) : Prop := {
  rejected_nodup : NoDup new.*2;
  rejected_committed o tid : (o, tid) ∈ new →
    (tid ∉ rej.*2) ∧ MaxHas o tid d = true ∧
    ∃ tr, (tid, tr) ∈ committed ∧ SharedObjectTransaction.origin_peer tr = o;
  rejected_conflict o tid : (o, tid) ∈ new →
    ∃ w rej0 p1 p2 tr, (tid, tr) ∈ committed ∧
      clean_replay (PStart w)
        (survivors d rej0 (filter (fun tx => tx.1 ≺ tid) committed)) p1 ∧
      PRun (SharedObjectTransaction.events tr) p1 = Ok p2 ∧ PConflict p2 = true;
}.

Lemma before_filter pre tid tr post :
  map_wf (pre ++ (tid, tr) :: post) →
  filter (fun tx : TransactionId * SharedObjectTransaction.t => tx.1 ≺ tid)
    (pre ++ (tid, tr) :: post) = pre.
Proof.
  intros Hwf. apply map_wf_app in Hwf as (_ & Hpost & Hlt).
  apply map_wf_cons in Hpost as [_ Hgt]. rewrite Forall_forall in Hgt.
  rewrite filter_app, filter_cons_False by (simpl; by rewrite ltb_irrefl).
  rewrite (filter_none _ post), (filter_all _ pre), app_nil_r; [done| |].
  - apply Forall_forall. intros q Hq. apply (Hlt q (tid, tr)); [done|left].
  - apply Forall_forall. intros q Hq Hlt'. specialize (Hgt q Hq). ord.
Qed.

Lemma loop_spec fuel d committed w rej lo w' rej' :
  map_wf committed →
  working_version_loop fuel d committed w rej = Some (Ok (lo, w', rej')) →
  ∃ new w0 p, rej' = rej ++ new ∧ rejected_ok d committed rej new ∧
    clean_replay (PStart w0) (survivors d rej' committed) p ∧ PStop p = Ok (lo, w').
Proof.
  intros Hwf. revert w rej. induction fuel as [|fuel IH]; intros w rej Hl; [done|].
  cbn [working_version_loop] in Hl.
  destruct (ApplyTransactionsToWorkingVersion_Locked d committed (PStart w) rej)
    as [[[ok p'] rej1]| |] eqn:Ea; [|done|done].
  destruct (PStop p') as [[lo1 w1]| |] eqn:Es; [|done|done].
  apply apply_spec in Ea as [(-> & -> & Hc)|(-> & pre & tid & tr & post & p1 & Hcom & Hr & -> & Hc & Hp & Hconf)].
  - injection Hl as <- <- <-. exists [], w, p'. rewrite app_nil_r.
    split_and!; [done| |done|done]. split; [constructor|..]; intros ? ? Hin; by apply elem_of_nil in Hin.
  - destruct (IH _ _ Hl) as (new & w0 & p & -> & [Hnd Hcm Hcf] & Hclean & Hstop).
    exists ((SharedObjectTransaction.origin_peer tr, tid) :: new), w0, p.
    assert (Hin : (tid, tr) ∈ committed) by (rewrite Hcom; apply elem_of_app; right; left).
    pose proof Hr as Hr'. apply replayed_iff in Hr' as (_ & Hhas & Hnot).
    rewrite <- app_assoc in *. split_and!; [done| |done|done]. split.
    + csimpl. constructor; [|done]. intros ([o u] & Hu & Hou)%list_elem_of_fmap. simpl in Hu. subst u.
      destruct (Hcm _ _ Hou) as [Hn _]. apply Hn. rewrite fmap_app, elem_of_app. right. left.
    + intros o u [[= -> ->]|Hou]%elem_of_cons; [by eauto|].
      destruct (Hcm _ _ Hou) as (Hn & Hrest). split; [|done].
      rewrite fmap_app, not_elem_of_app in Hn. by destruct Hn.
    + intros o u [[= -> ->]|Hou]%elem_of_cons; [|by eapply Hcf].
      exists w, rej, p1, p', tr. split_and!; [done| |done|done].
      subst committed. by rewrite before_filter.
Qed.

(** C36 (termination). The loop of [GetWorkingVersion_Locked] that replays the
    history until no conflict is left ends: whatever the playback thread
    reports, one attempt per transaction to be replayed and a last one are
    enough, since each failed attempt rejects one more transaction. *)
Theorem get_working_version_terminates fuel d w rej c :
  length (survivors d rej (committed_versions_ c)) < fuel →
  is_Some (working_version_loop fuel d (committed_versions_ c) w rej) ∧
  working_version_loop fuel d (committed_versions_ c) w rej =
    Some (GetWorkingVersion_Locked d w rej c).
Proof.
  intros Hf.
  assert (Hmono : ∀ f1 f2 w rej r, f1 ≤ f2 →
    working_version_loop f1 d (committed_versions_ c) w rej = Some r →
    working_version_loop f2 d (committed_versions_ c) w rej = Some r).
  { clear. induction f1 as [|f1 IH]; intros f2 w rej r Hle; [done|].
    destruct f2 as [|f2]; [lia|]. cbn [working_version_loop].
    destruct (ApplyTransactionsToWorkingVersion_Locked _ _ _ _) as [[[ok p'] rej1]| |]; [|done|done].
    destruct (PStop p') as [[lo1 w1]| |]; [|done|done].
    destruct ok; [done|]. apply IH. lia. }
  assert (Hsome : ∀ f, length (survivors d rej (committed_versions_ c)) < f →
    ∃ r, working_version_loop f d (committed_versions_ c) w rej = Some r).
  { intros f Hlt. apply (loop_terminates _ _ _ w) in Hlt.
    destruct (working_version_loop _ _ _ _ _) as [r|]; [eauto|done]. }
  destruct (Hsome fuel Hf) as [r Hr]. split; [by rewrite Hr|].
  unfold GetWorkingVersion_Locked.
  destruct (Hsome (S (length (committed_versions_ c)))) as [r' Hr'].
  { rewrite survivors_eq. pose proof (length_filter (fun tx => replayed d rej tx = true) (committed_versions_ c)). lia. }
  rewrite Hr'. simpl. f_equal. rewrite Hr. f_equal.
  apply (Hmono _ (fuel + S (length (committed_versions_ c)))) in Hr; [|lia].
  apply (Hmono _ (fuel + S (length (committed_versions_ c)))) in Hr'; [|lia]. congruence.
Qed.

(** C10 (functional). A version that [GetWorkingVersion_Locked] returns is the
    state after replaying, in the order of their ids and without a conflict,
    exactly the committed transactions that the desired version contains and
    that were not rejected.  The transactions it adds to the rejected ones are
    distinct committed transactions of the desired version, not rejected
    before, each of which met a conflict after a clean replay of the earlier
    ones. *)
Theorem get_working_version_spec d w rej c lo w' rej' :
  map_wf (committed_versions_ c) →
  GetWorkingVersion_Locked d w rej c = Ok (lo, w', rej') →
  ∃ new w0 p, rej' = rej ++ new ∧ rejected_ok d (committed_versions_ c) rej new ∧
    clean_replay (PStart w0) (survivors d rej' (committed_versions_ c)) p ∧
    PStop p = Ok (lo, w').
Proof.
  intros Hwf Hg. unfold GetWorkingVersion_Locked in Hg.
  destruct (working_version_loop _ _ _ _ _) as [r|] eqn:El; [|done]. simpl in Hg. subst r.
  by eapply loop_spec.
Qed.

(** ** The cached version *)
Definition history_ok (c : t) : Prop :=
  map_wf (committed_versions_ c) ∧
  Forall (fun tx => IsValidTransactionId tx.1 = true) (committed_versions_ c).

Lemma valid_above_min tid : IsValidTransactionId tid = true → MIN_TRANSACTION_ID ≺ tid.
Proof.
  unfold IsValidTransactionId. intros [Ha _]%andb_true_iff. apply tid_ltb_iff. simpl. lia.
Qed.

(** One peer of the requested version adds nothing but harmless events. *)
Definition adds_harmless (requested cached : version_map) (origin_peer : CanonicalPeer)
    (committed : omap TransactionId SharedObjectTransaction.t) : Prop :=
  ∀ tid tr, (tid, tr) ∈ committed → SharedObjectTransaction.origin_peer tr = origin_peer →
    MaxHas origin_peer tid requested = true → MaxHas origin_peer tid cached = false →
    forallb harmless (SharedObjectTransaction.events tr) = true.

Lemma cached_range_spec requested cached (committed : omap TransactionId SharedObjectTransaction.t) p r :
  map_wf committed → Forall (fun tx => IsValidTransactionId tx.1 = true) committed →
  version_map_wf requested →
  VersionMapIsLessThanOrEqual cached requested = true → requested !! p = Some r →
  ∃ txs, range (upper_bound (default MIN_TRANSACTION_ID (cached !! p)) committed)
           (upper_bound r committed) committed = Ok txs ∧
    ∀ tid tr, (tid, tr) ∈ txs ↔ (tid, tr) ∈ committed ∧
      MaxHas p tid requested = true ∧ MaxHas p tid cached = false.
Proof.
  intros Hwf Hval Hreq Hle Hr. rewrite less_or_equal_iff in Hle. rewrite Forall_forall in Hval.
  assert (Hcr : default MIN_TRANSACTION_ID (cached !! p) ⪯ r).
  { destruct (cached !! p) as [u|] eqn:E; simpl; [|by apply ord_lt_le, valid_above_min, (Hreq p)].
    destruct (Hle _ _ E) as (r' & Hr' & Hu). congruence. }
  unfold range. rewrite bool_decide_true by (by apply upper_bound_mono).
  eexists. split; [done|]. intros tid tr. rewrite upper_bound_range by done. simpl.
  unfold HasPeerTransactionId, GreaterThan, tid_gtb. rewrite Hr, negb_true_iff.
  destruct (cached !! p) as [u|] eqn:E; simpl; [rewrite negb_false_iff; naive_solver|].
  split; [naive_solver|]. intros (Hin & ? & _). split_and!; [done| |done].
  apply valid_above_min. by apply (Hval (tid, tr)).
Qed.

Lemma cached_loop_spec requested cached (committed : omap TransactionId SharedObjectTransaction.t) l :
  map_wf committed → Forall (fun tx => IsValidTransactionId tx.1 = true) committed →
  version_map_wf requested →
  VersionMapIsLessThanOrEqual cached requested = true →
  (∀ p r, (p, r) ∈ l → requested !! p = Some r) →
  ∃ b, cached_loop l cached committed = Ok b ∧
    (b = true ↔ ∀ p r, (p, r) ∈ l → adds_harmless requested cached p committed).
Proof.
  intros Hwf Hval Hvm Hle. induction l as [|[p r] l IH]; intros Hl; cbn [cached_loop].
  { exists true. split; [done|]. split; [|done]. intros _ p r Hin. by apply elem_of_nil in Hin. }
  destruct (cached_range_spec requested cached committed p r) as (txs & -> & Htxs);
    [done..|apply Hl; left|]. simpl.
  destruct IH as (b & Hb & Hbiff); [intros p' r' Hin; apply Hl; by right|].
  assert (Hone : forallb (fun tx : TransactionId * SharedObjectTransaction.t =>
           negb (bool_decide (SharedObjectTransaction.origin_peer tx.2 = p)) ||
           forallb harmless (SharedObjectTransaction.events tx.2)) txs = true ↔
         adds_harmless requested cached p committed).
  { rewrite forallb_forall. unfold adds_harmless. split.
    - intros Hf tid tr Hin Ho Hreq Hc. specialize (Hf (tid, tr)). simpl in Hf.
      rewrite <- list_elem_of_In, Htxs, Ho, bool_decide_true in Hf by done. by apply Hf.
    - intros Ha [tid tr] Hin. rewrite <- list_elem_of_In, Htxs in Hin. destruct Hin as (Hin & Hreq & Hc).
      simpl. case_bool_decide as Ho; [|done]. simpl. by eapply Ha. }
  destruct (forallb _ txs) eqn:E.
  - exists b. split; [done|]. rewrite Hbiff. split.
    + intros Hall p' r' [[= -> ->]|Hin]%elem_of_cons; [by apply Hone|by eapply Hall].
    + intros Hall p' r' Hin. eapply Hall. by right.
  - exists false. split; [done|]. split; [done|]. intros Hall.
    assert (adds_harmless requested cached p committed) by (eapply Hall; left). by apply Hone in H0.
Qed.

(** The cached live object is used for a sequence point exactly
    when there is one, its version is contained in the requested one, the two
    sequence points exclude and reject the same transactions, and every
    committed transaction that the requested version adds has only events that
    leave the object alone (a method call without its return, or the return of
    a sub-method call). *)
Theorem can_use_cached_iff sp c :
  history_ok c → version_map_wf (SequencePointImpl.version_map_ sp) →
  ∃ b, CanUseCachedLiveObject_Locked sp c = Ok b ∧
    (b = true ↔
     is_Some (cached_live_object_ c) ∧
     VersionMapIsLessThanOrEqual (SequencePointImpl.version_map_ (cached_sequence_point_ c))
       (SequencePointImpl.version_map_ sp) = true ∧
     SequencePointImpl.peer_exclusion_map_ sp =
       SequencePointImpl.peer_exclusion_map_ (cached_sequence_point_ c) ∧
     SequencePointImpl.rejected_peers_ sp =
       SequencePointImpl.rejected_peers_ (cached_sequence_point_ c) ∧
     ∀ p, adds_harmless (SequencePointImpl.version_map_ sp)
            (SequencePointImpl.version_map_ (cached_sequence_point_ c)) p (committed_versions_ c)).
Proof.
  intros [Hwf Hval] Hvm. unfold CanUseCachedLiveObject_Locked.
  destruct (cached_live_object_ c) as [lo|].
  2: { exists false. split; [done|]. split; [done|]. intros ([? ?] & _). done. }
  set (req := SequencePointImpl.version_map_ sp).
  set (ca := SequencePointImpl.version_map_ (cached_sequence_point_ c)).
  destruct (VersionMapIsLessThanOrEqual ca req) eqn:Hle; simpl.
  2: { exists false. split; [done|]. split; [done|]. intros (_ & Hle' & _). congruence. }
  destruct (cached_loop_spec req ca (committed_versions_ c) (map_to_list req))
    as (b & -> & Hb); [done..| |].
  { intros p r. by rewrite elem_of_map_to_list. }
  simpl. assert (Hall : b = true ↔ ∀ p, adds_harmless req ca p (committed_versions_ c)).
  { rewrite Hb. split; [|by intros Hall p r _]. intros Hall p.
    destruct (req !! p) as [r|] eqn:Er.
    - apply (Hall p r). by apply elem_of_map_to_list.
    - intros tid tr _ _ Hreq _. unfold HasPeerTransactionId in Hreq. by rewrite Er in Hreq. }
  unfold PeerExclusionMap.PeerExclusionMapsAreEqual.
  destruct b; simpl; [|exists false; split; [done|]; split; [done|]; naive_solver].
  case_bool_decide as He; simpl; [|exists false; split; [done|]; split; [done|]; naive_solver].
  eexists. split; [done|]. rewrite bool_decide_eq_true. naive_solver.
Qed.

(** [empty w] is [w] with an empty map of new object references, the temporary
    one the replay gets; the caller's map is put back by [restore]. *)
Context (empty_references : W → W) (restore_references : W → W → W).

Definition replay_history (w : W) (transactions_to_reject : reject_list) (c : t)
    : res (t * W * reject_list) :=
  '(_, w', rejected) ←
    GetWorkingVersion_Locked (version_map_ c) (empty_references w) transactions_to_reject c;
  Ok (c, restore_references w w', rejected).

Definition StoreTransactions (remote_peer : CanonicalPeer)
    (transactions : omap TransactionId SharedObjectTransaction.t) (vm : version_map)
    (w : W) (transactions_to_reject : reject_list) (c : t) : res (t * W * reject_list) :=
  '(committed, vm1, should_replay) ←
    foldM (store_step (max_requested_transaction_id_ c))
      (committed_versions_ c, version_map_ c, false) transactions;
  vm2 ← MaxUnion vm1 vm;
  let c := set_history committed vm2 ({[remote_peer]} ∪ up_to_date_peers_ c) c in
  if (should_replay : bool) then replay_history w transactions_to_reject c
  else Ok (c, w, transactions_to_reject).

Definition InsertTransaction (origin_peer : CanonicalPeer) (transaction_id : TransactionId)
    (events : list CommittedEvent.t) (transaction_is_local : bool)
    (w : W) (transactions_to_reject : reject_list) (c : t) : res (t * W * reject_list) :=
  CHECK (IsValidTransactionId transaction_id);;
  committed ← fill_slot transaction_id (SharedObjectTransaction.New events origin_peer)
                (committed_versions_ c);
  vm ← MaxAdd origin_peer transaction_id (version_map_ c);
  let c := set_history committed vm ({[origin_peer]} ∪ up_to_date_peers_ c) c in
  if tid_leb transaction_id (max_requested_transaction_id_ c)
  then replay_history w transactions_to_reject c
  else
    Ok ((if transaction_is_local then
           {| committed_versions_ := committed_versions_ c; version_map_ := version_map_ c;
              up_to_date_peers_ := up_to_date_peers_ c;
              max_requested_transaction_id_ := transaction_id;
              cached_live_object_ := cached_live_object_ c;
              cached_sequence_point_ := cached_sequence_point_ c |}
         else c), w, transactions_to_reject).

Definition SetCachedLiveObject (cached_live_object : LiveObjectPtr)
    (cached_sequence_point : SequencePointImpl.t) (c : t) : t :=
  {| committed_versions_ := committed_versions_ c; version_map_ := version_map_ c;
     up_to_date_peers_ := up_to_date_peers_ c;
     max_requested_transaction_id_ := max_requested_transaction_id_ c;
     cached_live_object_ := Some cached_live_object;
     cached_sequence_point_ :=
       SequencePointImpl.CopyFrom cached_sequence_point (cached_sequence_point_ c) |}.

(** ** The history: what every peer must agree on *)
Record incoming := {
  in_origin : CanonicalPeer;
  in_id : TransactionId;
  in_events : list CommittedEvent.t;
  in_local : bool;
}.

Definition insert_step (acc : t * W * reject_list) (x : incoming) : res (t * W * reject_list) :=
  let '(c, w, rej) := acc in
  InsertTransaction (in_origin x) (in_id x) (in_events x) (in_local x) w rej c.

Definition in_transaction (x : incoming) : SharedObjectTransaction.t :=
  {| SharedObjectTransaction.events := in_events x;
     SharedObjectTransaction.origin_peer := in_origin x |}.

(** Replaying does not touch the history. *)
Lemma insert_history x c w rej c' w' rej' :
  Forall CommittedEvent.wf (in_events x) →
  insert_step (c, w, rej) x = Ok (c', w', rej') →
  IsValidTransactionId (in_id x) = true ∧
  committed_versions_ c' =
    match map_find (in_id x) (committed_versions_ c) with
    | Some _ => committed_versions_ c
    | None => map_put (in_id x) (in_transaction x) (committed_versions_ c)
    end ∧
  MaxAdd (in_origin x) (in_id x) (version_map_ c) = Ok (version_map_ c') ∧
  up_to_date_peers_ c' = {[in_origin x]} ∪ up_to_date_peers_ c.
Proof.
  intros Hev. cbn [insert_step]. unfold InsertTransaction. intros Hi.
  apply bind_Ok in Hi as ([] & Hv%CHECK_Ok & Hi). split; [done|].
  apply bind_Ok in Hi as (com & Hcom & Hi). apply bind_Ok in Hi as (vm & Hvm & Hi).
  assert (Hcom' : com = match map_find (in_id x) (committed_versions_ c) with
    | Some _ => committed_versions_ c
    | None => map_put (in_id x) (in_transaction x) (committed_versions_ c) end).
  { unfold fill_slot in Hcom. destruct (map_find _ _); [by injection Hcom as <-|].
    rewrite SharedObjectTransaction.New_wf in Hcom by done. by injection Hcom as <-. }
  rewrite <- Hcom'. simpl in Hi. destruct (tid_leb _ _).
  - unfold replay_history in Hi. apply bind_Ok in Hi as ([[lo w1] rej1] & _ & Hi).
    by injection Hi as <- <- <-.
  - injection Hi as <- <- <-. by destruct (in_local x).
Qed.

(** Ids determine transactions: among [xs], and against the history. *)
Definition consistent (xs : list incoming) : Prop :=
  ∀ x y, x ∈ xs → y ∈ xs → in_id x = in_id y → in_transaction x = in_transaction y.

Record history_after (c : t) (xs : list incoming) (c' : t) : Prop := {
  after_wf : map_wf (committed_versions_ c');
  after_version_wf : version_map_wf (version_map_ c');
  after_committed tid tr : map_find tid (committed_versions_ c') = Some tr ↔
    map_find tid (committed_versions_ c) = Some tr ∨
    map_find tid (committed_versions_ c) = None ∧
      ∃ x, x ∈ xs ∧ in_id x = tid ∧ in_transaction x = tr;
  after_version p u : MaxHas p u (version_map_ c') = true ↔
    MaxHas p u (version_map_ c) = true ∨ ∃ x, x ∈ xs ∧ in_origin x = p ∧ u ⪯ in_id x;
  after_peers p : p ∈ up_to_date_peers_ c' ↔
    p ∈ up_to_date_peers_ c ∨ ∃ x, x ∈ xs ∧ in_origin x = p;
}.

Lemma history_after_snoc c xs c1 x w rej c' w' rej' :
  consistent (xs ++ [x]) → Forall CommittedEvent.wf (in_events x) →
  history_after c xs c1 → insert_step (c1, w, rej) x = Ok (c', w', rej') →
  history_after c (xs ++ [x]) c'.
Proof.
  intros Hcons Hev [Hwf Hvwf Hcom Hver Hpeers] Hi.
  destruct (insert_history _ _ _ _ _ _ _ Hev Hi) as (Hval & Hcom' & Hvm & Hp). split.
  - rewrite Hcom'. case_match; [done|]. by apply map_put_wf.
  - destruct (add_ok GreaterThan (in_origin x) (in_id x) (version_map_ c1) Hval Hvwf) as (m' & Hm & Hm').
    rewrite Hm in Hvm. by injection Hvm as <-.
  - intros tid tr. setoid_rewrite elem_of_snoc. rewrite Hcom'.
    destruct (map_find (in_id x) (committed_versions_ c1)) as [tr0|] eqn:E.
    + rewrite Hcom. split; [clear; naive_solver|].
      intros [?|(Hn & y & [Hy| ->] & <- & <-)]; [by left|right; by eauto|].
      apply Hcom in E as [E|(_ & z & Hz & Hid & <-)]; [congruence|].
      right. split; [done|]. exists z. split_and!; [done|done|].
      apply Hcons; [apply elem_of_snoc; by left|apply elem_of_snoc; by right|done].
    + destruct (decide (in_id x = tid)) as [<-|Hne].
      * rewrite map_find_put_eq.
        assert (Hnone : map_find (in_id x) (committed_versions_ c) = None).
        { destruct (map_find _ (committed_versions_ c)) eqn:E'; [|done].
          rewrite (proj2 (Hcom (in_id x) t0)) in E; [done|by left]. }
        rewrite Hnone. split; [intros [= <-]; right; split; [done|]; exists x; auto|].
        intros [?|(_ & y & [Hy| ->] & Hid & <-)]; [done| |done].
        rewrite (proj2 (Hcom (in_id x) (in_transaction y))) in E; [done|]. right. eauto.
      * rewrite map_find_put_ne, Hcom by done. clear -Hne. naive_solver.
  - intros p u. setoid_rewrite elem_of_snoc. rewrite (has_add GreaterThan _ _ _ _ p u Hvm), orb_true_iff, Hver,
      andb_true_iff, bool_decide_eq_true, negb_true_iff.
    unfold GreaterThan, tid_gtb. clear. naive_solver.
  - intros p. setoid_rewrite elem_of_snoc. rewrite Hp, elem_of_union, elem_of_singleton, Hpeers. clear. naive_solver.
Qed.

Lemma insert_all_after c xs w rej c' w' rej' :
  map_wf (committed_versions_ c) → version_map_wf (version_map_ c) →
  consistent xs → Forall (fun x => Forall CommittedEvent.wf (in_events x)) xs →
  foldM insert_step (c, w, rej) xs = Ok (c', w', rej') → history_after c xs c'.
Proof.
  intros Hwf Hvwf. revert c' w' rej'.
  induction xs as [|x xs IH] using rev_ind; intros c' w' rej' Hcons Hev Hf.
  - injection Hf as <- <- <-. split; [done|done|..]; intros; setoid_rewrite elem_of_nil; naive_solver.
  - rewrite foldM_app in Hf. apply bind_Ok in Hf as ([[c1 w1] rej1] & Hf & Hx).
    apply bind_Ok in Hx as ([[c2 w2] rej2] & Hx & [= <- <- <-]).
    apply Forall_app in Hev as [Hev Hevx]. rewrite Forall_singleton in Hevx.
    eapply history_after_snoc; [done|done| |exact Hx]. eapply IH; [|done|exact Hf].
    intros y z Hy Hz. apply Hcons; apply elem_of_app; by left.
Qed.

(** C9 (invariant). Replicas converge: whatever the order in which transactions
    arrive, and however often the same one does, two copies of an object's
    history that received the same transactions agree on the committed
    transactions, the version map and the peers that are up to date; no
    conflict met while replaying changes that. *)
Theorem insert_transactions_converge c xs ys w1 w2 r1 r2 c1 c2 w1' w2' r1' r2' :
  map_wf (committed_versions_ c) → version_map_wf (version_map_ c) →
  (∀ x, x ∈ xs ↔ x ∈ ys) → consistent xs →
  Forall (fun x => Forall CommittedEvent.wf (in_events x)) xs →
  foldM insert_step (c, w1, r1) xs = Ok (c1, w1', r1') →
  foldM insert_step (c, w2, r2) ys = Ok (c2, w2', r2') →
  committed_versions_ c1 = committed_versions_ c2 ∧
  version_map_ c1 = version_map_ c2 ∧ up_to_date_peers_ c1 = up_to_date_peers_ c2.
Proof.
  intros Hwf Hvwf Hsame Hcons Hev Hx Hy.
  assert (Hcons' : consistent ys) by (intros x y Hxy Hyy; apply Hcons; by apply Hsame).
  assert (Hev' : Forall (fun x => Forall CommittedEvent.wf (in_events x)) ys).
  { rewrite Forall_forall in *. intros x Hxy. by apply Hev, Hsame. }
  destruct (insert_all_after _ _ _ _ _ _ _ Hwf Hvwf Hcons Hev Hx) as [Hw1 Hv1 Hc1 Hm1 Hp1].
  destruct (insert_all_after _ _ _ _ _ _ _ Hwf Hvwf Hcons' Hev' Hy) as [Hw2 Hv2 Hc2 Hm2 Hp2].
  split_and!.
  - apply map_find_ext; [done|done|]. intros tid. apply option_eq. intros tr.
    rewrite Hc1, Hc2. by setoid_rewrite Hsame.
  - apply less_or_equal_antisym; apply less_or_equal_has; intros p u;
      rewrite Hm1, Hm2; by setoid_rewrite Hsame.
  - apply set_eq. intros p. rewrite Hp1, Hp2. by setoid_rewrite Hsame.
Qed.

(** ** The effective version *)
Lemma add_store_versions_spec (tsvm : version_map) l vm :
  version_map_wf tsvm → version_map_wf vm →
  ∃ out, foldM (fun out origin_peer =>
      match tsvm !! origin_peer with
      | None => Ok out
      | Some tid => MaxAdd origin_peer tid out
      end) vm l = Ok out ∧ version_map_wf out ∧
    ∀ p u, MaxHas p u out = true ↔
      MaxHas p u vm = true ∨ (p ∈ l ∧ MaxHas p u tsvm = true).
Proof.
  intros Hts. revert vm. induction l as [|q l IH]; intros vm Hvm; cbn [foldM].
  { exists vm. split_and!; [done|done|]. intros p u. rewrite elem_of_nil. naive_solver. }
  destruct (tsvm !! q) as [tid|] eqn:Eq.
  - destruct (add_ok GreaterThan q tid vm (Hts _ _ Eq) Hvm) as (vm1 & Hadd & Hvm1).
    rewrite Hadd. simpl. destruct (IH vm1 Hvm1) as (out & -> & Hout & Hspec).
    exists out. split_and!; [done|done|]. intros p u.
    rewrite Hspec, (has_add _ _ _ _ _ p u Hadd), orb_true_iff, andb_true_iff, bool_decide_eq_true,
      elem_of_cons.
    assert (Hq : MaxHas q u tsvm = negb (GreaterThan u tid)).
    { unfold HasPeerTransactionId. by rewrite Eq. }
    clear -Hq. destruct (decide (p = q)) as [->|Hne]; rewrite ?Hq; tauto.
  - simpl. destruct (IH vm Hvm) as (out & -> & Hout & Hspec). exists out.
    split_and!; [done|done|]. intros p u. rewrite Hspec, elem_of_cons.
    assert (Hq : MaxHas q u tsvm = false) by (unfold HasPeerTransactionId; by rewrite Eq).
    clear -Hq. destruct (decide (p = q)) as [->|Hne]; [rewrite Hq; intuition congruence|tauto].
Qed.

Lemma effective_version_eq tsvm eff0 c :
  version_map_wf tsvm → version_map_wf eff0 → version_map_wf (version_map_ c) →
  ∃ eff, ComputeEffectiveVersion_Locked tsvm eff0 c = Ok eff ∧ version_map_wf eff ∧
    ∀ p u, MaxHas p u eff = true ↔
      MaxHas p u eff0 = true ∨ MaxHas p u (version_map_ c) = true ∨
      (p ∈ up_to_date_peers_ c ∧ MaxHas p u tsvm = true).
Proof.
  intros Hts He0 Hvm. unfold ComputeEffectiveVersion_Locked.
  destruct (add_all_spec GreaterThan (map_to_list (version_map_ c)) eff0) as (eff1 & -> & Hw1 & H1);
    [by apply version_map_wf_list|done|]. simpl.
  destruct (add_store_versions_spec tsvm (elements (up_to_date_peers_ c)) eff1 Hts Hw1)
    as (eff & -> & Hw & H2).
  exists eff. split_and!; [done|done|]. intros p u.
  rewrite H2, H1, orb_true_iff, list_has_map_to_list, elem_of_elements. naive_solver.
Qed.

(** The effective version of an object contains a transaction
    exactly when the object's history covers it, or when the object is up to
    date with the peer the transaction is from and the transaction store has
    seen it; asked for a sequence point with a transaction that is not in it,
    [GetWorkingVersion] replays nothing and returns no version. *)
Theorem get_working_version_availability tsvm sp w rej c :
  version_map_wf tsvm → version_map_wf (version_map_ c) →
  (∃ eff, ComputeEffectiveVersion_Locked tsvm ∅ c = Ok eff ∧ version_map_wf eff ∧
    ∀ p u, MaxHas p u eff = true ↔
      MaxHas p u (version_map_ c) = true ∨
      (p ∈ up_to_date_peers_ c ∧ MaxHas p u tsvm = true)) ∧
  ((∃ p u, MaxHas p u (SequencePointImpl.version_map_ sp) = true ∧
      MaxHas p u (version_map_ c) = false ∧
      ¬ (p ∈ up_to_date_peers_ c ∧ MaxHas p u tsvm = true)) →
   GetWorkingVersion tsvm sp w rej c = Ok (None, w, rej)).
Proof.
  intros Hts Hvm.
  destruct (effective_version_eq tsvm ∅ c Hts (map_Forall_empty _) Hvm) as (eff & He & Hw & Hspec).
  assert (Hemp : ∀ p u, MaxHas p u ∅ = false) by (intros; unfold HasPeerTransactionId; by rewrite lookup_empty).
  assert (Hspec' : ∀ p u, MaxHas p u eff = true ↔ MaxHas p u (version_map_ c) = true ∨
      (p ∈ up_to_date_peers_ c ∧ MaxHas p u tsvm = true)).
  { intros p u. rewrite Hspec, Hemp. clear. naive_solver. }
  split; [eauto|]. intros (p & u & Hsp & Hno & Hnot). unfold GetWorkingVersion. rewrite He. simpl.
  destruct (VersionMapIsLessThanOrEqual _ eff) eqn:Hle; [|done]. exfalso.
  rewrite less_or_equal_has in Hle. apply Hle, Hspec' in Hsp as [?|?]; [congruence|done].
Qed.

(** ** Sending a history to another peer *)
Lemma get_transactions_loop (m1 m2 : omap TransactionId SharedObjectTransaction.t) :
  map_wf (m1 ++ m2) → Forall (fun tx => SharedObjectTransaction.wf tx.2) m2 →
  foldM (fun out '(tid, tr) =>
      tr ← SharedObjectTransaction.Clone tr;
      let '(out, _, inserted) := map_emplace tid tr out in
      CHECK inserted;; Ok out) m1 m2 = Ok (m1 ++ m2).
Proof.
  revert m1. induction m2 as [|[tid tr] m2 IH]; intros m1 Hwf Hev; cbn [foldM].
  { by rewrite app_nil_r. }
  apply Forall_cons in Hev as [Htr Hev]. simpl in Htr.
  rewrite (SharedObjectTransaction.clone_transaction _ Htr). simpl.
  pose proof Hwf as (Hw1 & Hw2 & Hlt)%map_wf_app.
  assert (Hall : Forall (fun p => p.1 ≺ tid) m1).
  { apply Forall_forall. intros p Hp. apply (Hlt p (tid, tr)); [done|left]. }
  unfold map_emplace. rewrite (proj2 (map_find_None tid m1 Hw1)).
  2: { intros (p & -> & Hp)%list_elem_of_fmap. rewrite Forall_forall in Hall.
       specialize (Hall p Hp). simpl in Hall. by rewrite ltb_irrefl in Hall. }
  simpl. rewrite map_put_last by done. rewrite IH, <- app_assoc; [done| |done].
  by rewrite <- app_assoc.
Qed.

(** The version map covers the committed transactions. *)
Definition covered (vm : version_map) (m : omap TransactionId SharedObjectTransaction.t) : Prop :=
  Forall (fun tx => MaxHas (SharedObjectTransaction.origin_peer tx.2) tx.1 vm = true) m.

Lemma store_loop (m1 m2 : omap TransactionId SharedObjectTransaction.t) vm bound :
  map_wf (m1 ++ m2) → Forall (fun tx => SharedObjectTransaction.wf tx.2) m2 →
  Forall (fun tx => IsValidTransactionId tx.1 = true) m2 →
  version_map_wf vm → VersionMapIsLessThanOrEqual vm bound = true → covered bound m2 →
  ∃ vm', foldM (store_step MIN_TRANSACTION_ID) (m1, vm, false) m2 = Ok (m1 ++ m2, vm', false) ∧
    version_map_wf vm' ∧ VersionMapIsLessThanOrEqual vm' bound = true.
Proof.
  revert m1 vm. induction m2 as [|[tid tr] m2 IH]; intros m1 vm Hwf Hev Hval Hvm Hle Hcov; cbn [foldM].
  { exists vm. by rewrite app_nil_r. }
  apply Forall_cons in Hev as [Htr Hev]. apply Forall_cons in Hval as [Hv Hval].
  apply Forall_cons in Hcov as [Hc Hcov]. simpl in Htr, Hv, Hc.
  pose proof Hwf as (Hw1 & Hw2 & Hlt)%map_wf_app.
  assert (Hnone : map_find tid m1 = None).
  { apply map_find_None; [done|]. intros (p & -> & Hp)%list_elem_of_fmap.
    specialize (Hlt p (p.1, tr) Hp (list_elem_of_here _ _)). simpl in Hlt. by rewrite ltb_irrefl in Hlt. }
  destruct (add_ok GreaterThan (SharedObjectTransaction.origin_peer tr) tid vm Hv Hvm) as (vm1 & Hadd & Hvm1).
  assert (Hstep : store_step MIN_TRANSACTION_ID (m1, vm, false) (tid, tr) =
                  Ok (m1 ++ [(tid, tr)], vm1, false)).
  { unfold store_step. rewrite Hv. simpl. unfold fill_slot.
    rewrite Hnone, (SharedObjectTransaction.clone_transaction _ Htr). simpl. rewrite Hadd. simpl.
    rewrite map_put_last by (apply Forall_forall; intros p Hp; apply (Hlt p (tid, tr)); [done|left]).
    unfold tid_leb. by rewrite (valid_above_min _ Hv). }
  rewrite Hstep. simpl.
  destruct (IH (m1 ++ [(tid, tr)]) vm1) as (vm' & Hf & Hw' & Hle'); try done.
  - by rewrite <- app_assoc.
  - rewrite less_or_equal_has in *. intros p u.
    rewrite (has_add _ _ _ _ _ p u Hadd), orb_true_iff, andb_true_iff, bool_decide_eq_true, negb_true_iff.
    intros [?|[-> Hu]]; [by apply Hle|]. apply MaxHas_true in Hc as (v & Hv' & Htv).
    apply MaxHas_true. exists v. split; [done|]. unfold GreaterThan, tid_gtb in Hu. ord.
  - exists vm'. rewrite Hf. by rewrite <- app_assoc.
Qed.

(** An object travels whole: storing in an empty history what
    [GetTransactions] sends gives the same committed transactions, with the
    effective version of the sender, and rejects nothing. *)
Theorem transfer_roundtrip tsvm c remote_peer w rej :
  history_ok c → Forall (fun tx => SharedObjectTransaction.wf tx.2) (committed_versions_ c) →
  version_map_wf tsvm → version_map_wf (version_map_ c) →
  covered (version_map_ c) (committed_versions_ c) →
  ∃ txs eff c', GetTransactions tsvm [] ∅ c = Ok (txs, eff) ∧
    StoreTransactions remote_peer txs eff w rej New = Ok (c', w, rej) ∧
    committed_versions_ c' = committed_versions_ c ∧ version_map_ c' = eff ∧
    up_to_date_peers_ c' = {[remote_peer]}.
Proof.
  intros [Hwf Hval] Hev Hts Hvm Hcov. unfold GetTransactions.
  rewrite (get_transactions_loop []) by done. simpl.
  destruct (effective_version_eq tsvm ∅ c) as (eff & Heff & Hweff & Hspec);
    [done|apply map_Forall_empty|done|]. rewrite Heff. simpl.
  destruct (store_loop [] (committed_versions_ c) ∅ eff) as (vm' & Hst & Hw' & Hle');
    [done|done|done|apply map_Forall_empty|by apply less_or_equal_iff; intros ? ?; rewrite lookup_empty| |].
  { eapply Forall_impl; [exact Hcov|]. intros tx Htx. apply Hspec. auto. }
  destruct (add_all_spec GreaterThan (map_to_list eff) vm') as (vm2 & Hu & Hw2 & Hs2);
    [by apply version_map_wf_list|done|].
  exists (committed_versions_ c), eff,
    (set_history (committed_versions_ c) vm2 ({[remote_peer]} ∪ ∅) New).
  split_and!; [done| |done| |set_solver].
  { unfold StoreTransactions, GetVersionMapUnion. cbn [committed_versions_ version_map_ New
      max_requested_transaction_id_ up_to_date_peers_].
    rewrite Hst. simpl. by rewrite Hu. }
  simpl. apply less_or_equal_antisym; apply less_or_equal_has; intros p u;
    rewrite Hs2, list_has_map_to_list, orb_true_iff; [|by right].
  intros [Hh|Hh]; [|done]. by eapply (proj1 (less_or_equal_has _ _) Hle').
Qed.

(** ** What a replay leaves alone *)
Section frame.
Context (F : relation W) `{!PreOrder F} `{!PlaybackFrame W P F}.
Hypothesis F_empty : ∀ w w', F (empty_references w) w' → F w (restore_references w w').

Lemma apply_frame w d committed p rej b p' rej' :
  frame_inv w p →
  ApplyTransactionsToWorkingVersion_Locked d committed p rej = Ok (b, p', rej') → frame_inv w p'.
Proof.
  revert p. induction committed as [|[tid tr] rest IH]; simpl; intros p Hp Ha.
  { by injection Ha as <- <- <-. }
  destruct (replayed _ _ _); [|by eapply IH].
  apply bind_Ok in Ha as (p1 & Hp1 & Ha). eapply frame_run in Hp1; [|done].
  destruct (PConflict p1); [by injection Ha as <- <- <-|by eapply IH].
Qed.

Lemma loop_frame fuel w d committed rej lo w' rej' :
  working_version_loop fuel d committed w rej = Some (Ok (lo, w', rej')) → F w w'.
Proof.
  revert w rej. induction fuel as [|fuel IH]; simpl; intros w rej Hl; [done|].
  destruct (ApplyTransactionsToWorkingVersion_Locked _ _ _ _) as [[[b p'] rej1]| |] eqn:Ha; [|done..].
  eapply apply_frame in Ha; [|apply frame_start].
  destruct (PStop p') as [[lo1 w1]| |] eqn:Hs; [|done..]. eapply frame_stop in Hs; [|done].
  destruct b; [by injection Hl as <- <- <-|]. etrans; [done|by eapply IH].
Qed.

Lemma working_version_frame d w rej c lo w' rej' :
  GetWorkingVersion_Locked d w rej c = Ok (lo, w', rej') → F w w'.
Proof.
  unfold GetWorkingVersion_Locked.
  destruct (working_version_loop _ _ _ _ _) as [r|] eqn:E; simpl; [|done]. intros ->.
  by eapply loop_frame.
Qed.

(** [InsertTransaction] records the transaction, keeps what the history had,
    and otherwise does only what a replay does. *)
Lemma insert_recorded origin tid evs loc w rej c c' w' rej' :
  InsertTransaction origin tid evs loc w rej c = Ok (c', w', rej') →
  F w w' ∧ MaxHas origin tid (version_map_ c') = true ∧ origin ∈ up_to_date_peers_ c' ∧
  match map_find tid (committed_versions_ c) with
  | Some tr => map_find tid (committed_versions_ c') = Some tr
  | None => ∃ tr, SharedObjectTransaction.New evs origin = Ok tr ∧
      map_find tid (committed_versions_ c') = Some tr
  end ∧
  ∀ k, k ≠ tid → map_find k (committed_versions_ c') = map_find k (committed_versions_ c).
Proof.
  unfold InsertTransaction. intros Hi. apply bind_Ok in Hi as ([] & _ & Hi).
  apply bind_Ok in Hi as (com & Hcom & Hi). apply bind_Ok in Hi as (vm & Hvm & Hi). simpl in Hi.
  assert (F w w' ∧ committed_versions_ c' = com ∧ version_map_ c' = vm ∧
          up_to_date_peers_ c' = {[origin]} ∪ up_to_date_peers_ c) as (HF & -> & -> & ->).
  { destruct (tid_leb _ _).
    - unfold replay_history in Hi. apply bind_Ok in Hi as ([[lo w1] rej1] & Hw & [= <- <- <-]).
      apply working_version_frame in Hw. split; [by apply F_empty|done].
    - injection Hi as <- <- <-. split; [done|]. by destruct loc. }
  split; [done|]. split.
  { rewrite (has_add GreaterThan _ _ _ _ origin tid Hvm), bool_decide_true by done.
    unfold GreaterThan, tid_gtb. rewrite ltb_irrefl. by rewrite orb_true_r. }
  split; [set_solver|]. unfold fill_slot in Hcom.
  destruct (map_find tid (committed_versions_ c)) as [tr|] eqn:E; [by injection Hcom as <-|].
  apply bind_Ok in Hcom as (tr & Htr & [= <-]). split.
  - exists tr. split; [done|]. by rewrite map_find_put_eq.
  - intros k Hk. by rewrite map_find_put_ne.
Qed.

Lemma get_working_version_frame vm sp w rej c lo w' rej' :
  GetWorkingVersion vm sp w rej c = Ok (lo, w', rej') → F w w'.
Proof.
  unfold GetWorkingVersion. intros Hg. apply bind_Ok in Hg as (ev & _ & Hg).
  destruct (negb _); [by injection Hg as <- <- <-|]. apply bind_Ok in Hg as ([] & _ & Hg).
  - apply bind_Ok in Hg as (l & _ & Hg). by injection Hg as <- <- <-.
  - by eapply working_version_frame.
Qed.

Lemma store_transactions_frame p txs vm w rej c c' w' rej' :
  StoreTransactions p txs vm w rej c = Ok (c', w', rej') → F w w'.
Proof.
  unfold StoreTransactions. intros Hs. apply bind_Ok in Hs as ([[com vm1] replay] & _ & Hs).
  apply bind_Ok in Hs as (vm2 & _ & Hs). destruct replay; [|by injection Hs as <- <- <-].
  unfold replay_history in Hs. apply bind_Ok in Hs as ([[lo w1] rej1] & Hw & [= <- <- <-]).
  by apply F_empty, (working_version_frame _ _ _ _ _ _ _ Hw).
Qed.
End frame.
End object_content.
End ObjectContent.

(** ** Witnesses: a playback that reports a conflict at an END_TRANSACTION *)
Definition toy_playback : Playback unit (list CommittedEvent.t) := {|
  PStart _ := [];
  PRun es p := Ok (p ++ es);
  PConflict p := bool_decide (CommittedEvent.EndTransaction ∈ p);
  PStop p := Ok (Some (length p), tt);
|}.

Definition peer_a : CanonicalPeer := {| peer_id := "ip/10.0.0.1/1025" |}.
Definition peer_b : CanonicalPeer := {| peer_id := "ip/10.0.0.2/1025" |}.
Definition tid_n (n : Z) : TransactionId := MakeTransactionId n 0 0.

Definition history_ab : omap TransactionId SharedObjectTransaction.t :=
  [(tid_n 1, SharedObjectTransaction.Build_t [CommittedEvent.BeginTransaction] peer_a);
   (tid_n 2, SharedObjectTransaction.Build_t [CommittedEvent.EndTransaction] peer_b);
   (tid_n 3, SharedObjectTransaction.Build_t [CommittedEvent.BeginTransaction] peer_a)].

Definition version_ab : version_map := <[peer_a := tid_n 3]> {[peer_b := tid_n 2]}.

Definition content_ab : ObjectContent.t :=
  {| ObjectContent.committed_versions_ := history_ab;
     ObjectContent.version_map_ := version_ab;
     ObjectContent.up_to_date_peers_ := {[peer_a]};
     ObjectContent.max_requested_transaction_id_ := MIN_TRANSACTION_ID;
     ObjectContent.cached_live_object_ := Some 7;
     ObjectContent.cached_sequence_point_ := SequencePointImpl.New |}.

Lemma history_ab_wf : map_wf history_ab.
Proof. repeat constructor. Qed.

Lemma version_ab_wf : version_map_wf version_ab.
Proof.
  intros p tid. unfold version_ab. rewrite lookup_insert_Some, lookup_singleton_Some.
  intros [[_ <-]|[_ [_ <-]]]; reflexivity.
Qed.

Lemma get_working_version_terminates_witness :
  ObjectContent.working_version_loop (H := toy_playback) 4 version_ab history_ab tt [] =
    Some (Ok (Some 2, tt, [(peer_b, tid_n 2)])).
Proof.
  etransitivity;
    [apply (ObjectContent.get_working_version_terminates (H := toy_playback) 4 version_ab tt []
              content_ab)|vm_compute; reflexivity].
  vm_compute. lia.
Defined.

Lemma get_working_version_spec_witness :
  ∃ new w0 p, [(peer_b, tid_n 2)] = [] ++ new ∧
    ObjectContent.clean_replay (H := toy_playback) (PStart (Playback := toy_playback) w0)
      (ObjectContent.survivors version_ab [(peer_b, tid_n 2)] history_ab) p.
Proof.
  destruct (ObjectContent.get_working_version_spec (H := toy_playback) version_ab tt [] content_ab
              (Some 2) tt [(peer_b, tid_n 2)] history_ab_wf) as (new & w0 & p & H1 & _ & H2 & _);
    [vm_compute; reflexivity|eauto].
Defined.

Lemma can_use_cached_iff_witness :
  ObjectContent.CanUseCachedLiveObject_Locked
    {| SequencePointImpl.version_map_ := version_ab;
       SequencePointImpl.peer_exclusion_map_ := ∅;
       SequencePointImpl.rejected_peers_ := ∅ |} content_ab = Ok false.
Proof.
  destruct (ObjectContent.can_use_cached_iff
    {| SequencePointImpl.version_map_ := version_ab;
       SequencePointImpl.peer_exclusion_map_ := ∅;
       SequencePointImpl.rejected_peers_ := ∅ |} content_ab) as (b & Hb & _).
  - split; [apply history_ab_wf|repeat constructor].
  - apply version_ab_wf.
  - vm_compute. reflexivity.
Defined.

Definition in_a : ObjectContent.incoming :=
  {| ObjectContent.in_origin := peer_a; ObjectContent.in_id := tid_n 1;
     ObjectContent.in_events := [CommittedEvent.BeginTransaction];
     ObjectContent.in_local := false |}.
Definition in_b : ObjectContent.incoming :=
  {| ObjectContent.in_origin := peer_b; ObjectContent.in_id := tid_n 2;
     ObjectContent.in_events := [CommittedEvent.EndTransaction];
     ObjectContent.in_local := false |}.

Definition received (xs : list ObjectContent.incoming) : ObjectContent.t :=
  match foldM (ObjectContent.insert_step (H := toy_playback) id (fun w _ => w))
          (ObjectContent.New, tt, []) xs with
  | Ok (c, _, _) => c | _ => ObjectContent.New
  end.

Lemma insert_transactions_converge_witness :
  ObjectContent.committed_versions_ (received [in_a; in_b]) =
  ObjectContent.committed_versions_ (received [in_b; in_a; in_b]).
Proof.
  apply (ObjectContent.insert_transactions_converge (H := toy_playback) id (fun w _ => w)
    ObjectContent.New [in_a; in_b] [in_b; in_a; in_b] tt tt [] [] (received [in_a; in_b])
    (received [in_b; in_a; in_b]) tt tt [] []).
  - constructor.
  - apply map_Forall_empty.
  - intros x. rewrite !elem_of_cons, elem_of_nil. tauto.
  - intros x y Hx Hy. rewrite !elem_of_cons, elem_of_nil in Hx, Hy.
    intuition; subst; reflexivity || discriminate.
  - repeat constructor.
  - vm_compute. reflexivity.
  - vm_compute. reflexivity.
Defined.

Lemma get_working_version_availability_witness :
  ObjectContent.GetWorkingVersion (H := toy_playback) ∅
    {| SequencePointImpl.version_map_ := {[peer_b := tid_n 9]};
       SequencePointImpl.peer_exclusion_map_ := ∅;
       SequencePointImpl.rejected_peers_ := ∅ |} tt [] content_ab = Ok (None, tt, []).
Proof.
  apply (ObjectContent.get_working_version_availability (H := toy_playback)).
  - apply map_Forall_empty.
  - apply version_ab_wf.
  - exists peer_b, (tid_n 9). split_and!; [reflexivity|reflexivity|].
    intros [Hin _]. change (peer_b ∈ ({[peer_a]} : gset CanonicalPeer)) in Hin.
    apply elem_of_singleton in Hin. discriminate Hin.
Defined.

Lemma transfer_roundtrip_witness :
  ∃ txs eff c', ObjectContent.GetTransactions ∅ [] ∅ content_ab = Ok (txs, eff) ∧
    ObjectContent.StoreTransactions (H := toy_playback) id (fun w _ => w) peer_b txs eff tt []
      ObjectContent.New = Ok (c', tt, []) ∧
    ObjectContent.committed_versions_ c' = history_ab.
Proof.
  destruct (ObjectContent.transfer_roundtrip (H := toy_playback) id (fun w _ => w) ∅ content_ab
              peer_b tt []) as (txs & eff & c' & H1 & H2 & H3 & _).
  - split; [apply history_ab_wf|repeat constructor].
  - repeat constructor.
  - apply map_Forall_empty.
  - apply version_ab_wf.
  - repeat constructor.
  - exists txs, eff, c'. split; [exact H1|]. split; [exact H2|exact H3].
Defined.
