(* ===== verification/Dumps.v ===== *)
(** * The [Dump] methods of the engine

    [Value::Dump] ([value/value.cc]) and the [Dump] methods of [engine/]: object
    references, events, transactions, version maps, sequence points, live objects,
    the contents of shared objects and shared objects.  They are written against
    the interface [DumpContext]; a local object's own [Dump] is the interpreter's
    ([LocalObjectDump]).  The containers that C++ iterates in the order of hashes
    or addresses are iterated in the order of [map_to_list] and [elements]. *)
From S2P Require Import Prelude StdMap IntervalSet Text DumpContext Ids VersionMap SequencePoint Values Events LiveObject ObjectTable ObjectContent.
From stdpp Require Import base tactics list strings gmap.
From Stdlib Require Import ZArith Lia Ascii.
#[local] Open Scope string_scope.
#[local] Arguments TransactionIdToString : simpl never.
#[local] Arguments UuidToString : simpl never.

(** ** What the engine needs of the interpreter *)

(** [LocalObject::Dump], given the [Dump] method of references. *)
Class LocalObjectDump (LO : Type) :=
  lo_dump : ∀ {D : Type} `{DumpContext D}, (ObjectReference → D → res D) → LO → D → res D.

(** It writes one complete value, if the references the object holds do. *)
Class LocalObjectDumpLaws (LO : Type) `{LocalObjectDump LO} := {
  dumped_references : LO → list ObjectReference;
  lo_dump_writes {D} `{DumpContextLaws D} (ref_dump : ObjectReference → D → res D) lo :
    (∀ r, r ∈ dumped_references lo → ∃ n, writes (ref_dump r) [n] ∧ node_ok n = true) →
    ∃ n, writes (lo_dump ref_dump lo) [n] ∧ node_ok n = true;
}.

Section dumps.
(** The references and the live objects of the peer. *)
Context {LO : Type} `{LocalObjectDump LO}.
Context (references : list (option Uuid)) (heap : LiveObject.heap LO).

Section methods.
Context {D : Type} `{DumpContext D}.

Definition ObjectReferenceImpl_Dump (r : ObjectReference) : D → res D := fun d =>
  shared_object_ ← deref (references !! r);
  dump_map (AddString "shared_object" ;>
    match shared_object_ with
    | None => AddNull
    | Some object_id => AddString (UuidToString object_id)
    end) d.

Definition Value_Dump (v : Value) : D → res D :=
  match data v with
  | UNINITIALIZED => AddString "UNINITIALIZED"
  | EMPTY => AddString "EMPTY"
  | DOUBLE x => AddDouble x
  | FLOAT x => AddFloat x
  | INT64 x => AddInt64 x
  | UINT64 x => AddUint64 x
  | BOOL b => AddBool b
  | STRING s | BYTES s => AddString s
  | OBJECT_REFERENCE r => ObjectReferenceImpl_Dump r
  end.

(** *** Live objects *)
Definition LiveObjectNode_Dump (node : LiveObject.Node LO) : D → res D :=
  lo_dump ObjectReferenceImpl_Dump (LiveObject.local_object_ node).

Definition LiveObject_Dump (l : LiveObjectPtr) : D → res D := fun d =>
  n ← LiveObject.GetNode l heap;
  node ← LiveObject.deref_node n heap;
  LiveObjectNode_Dump node d.

(** *** Events and transactions *)
Definition DumpNewObjects (new_objects : gset ObjectReference) : D → res D :=
  dump_list (dump_all ObjectReferenceImpl_Dump (elements new_objects)).

Definition ObjectCreationCommittedEvent_Dump (live_object : LiveObjectPtr) : D → res D :=
  dump_map (AddString "type" ;> AddString "OBJECT_CREATION" ;>
    AddString "new_objects" ;> DumpNewObjects ∅ ;>
    AddString "live_object" ;> LiveObject_Dump live_object).

Definition BeginTransactionCommittedEvent_Dump : D → res D :=
  dump_map (AddString "type" ;> AddString "BEGIN_TRANSACTION" ;>
    AddString "new_objects" ;> DumpNewObjects ∅).

Definition EndTransactionCommittedEvent_Dump : D → res D :=
  dump_map (AddString "type" ;> AddString "END_TRANSACTION" ;>
    AddString "new_objects" ;> DumpNewObjects ∅).

Definition MethodCallCommittedEvent_Dump (method_name : string) (parameters : list Value) : D → res D :=
  dump_map (AddString "type" ;> AddString "METHOD_CALL" ;>
    AddString "new_objects" ;> DumpNewObjects ∅ ;>
    AddString "method_name" ;> AddString method_name ;>
    AddString "parameters" ;> dump_list (dump_all Value_Dump parameters)).

Definition MethodReturnCommittedEvent_Dump (new_objects : gset ObjectReference) (return_value : Value) : D → res D :=
  dump_map (AddString "type" ;> AddString "METHOD_RETURN" ;>
    AddString "new_objects" ;> DumpNewObjects new_objects ;>
    AddString "return_value" ;> Value_Dump return_value).

Definition SubMethodCallCommittedEvent_Dump (new_objects : gset ObjectReference) (callee : ObjectReference)
    (method_name : string) (parameters : list Value) : D → res D :=
  dump_map (AddString "type" ;> AddString "SUB_METHOD_CALL" ;>
    AddString "new_objects" ;> DumpNewObjects new_objects ;>
    AddString "callee" ;> ObjectReferenceImpl_Dump callee ;>
    AddString "method_name" ;> AddString method_name ;>
    AddString "parameters" ;> dump_list (dump_all Value_Dump parameters)).

Definition SubMethodReturnCommittedEvent_Dump (return_value : Value) : D → res D :=
  dump_map (AddString "type" ;> AddString "SUB_METHOD_RETURN" ;>
    AddString "new_objects" ;> DumpNewObjects ∅ ;>
    AddString "return_value" ;> Value_Dump return_value).

Definition SelfMethodCallCommittedEvent_Dump (new_objects : gset ObjectReference)
    (method_name : string) (parameters : list Value) : D → res D :=
  dump_map (AddString "type" ;> AddString "SELF_METHOD_CALL" ;>
    AddString "new_objects" ;> DumpNewObjects new_objects ;>
    AddString "method_name" ;> AddString method_name ;>
    AddString "parameters" ;> dump_list (dump_all Value_Dump parameters)).

Definition SelfMethodReturnCommittedEvent_Dump (new_objects : gset ObjectReference) (return_value : Value) : D → res D :=
  dump_map (AddString "type" ;> AddString "SELF_METHOD_RETURN" ;>
    AddString "new_objects" ;> DumpNewObjects new_objects ;>
    AddString "return_value" ;> Value_Dump return_value).

Definition CommittedEvent_Dump (e : CommittedEvent.t) : D → res D :=
  match e with
  | CommittedEvent.ObjectCreation l => ObjectCreationCommittedEvent_Dump l
  | CommittedEvent.BeginTransaction => BeginTransactionCommittedEvent_Dump
  | CommittedEvent.EndTransaction => EndTransactionCommittedEvent_Dump
  | CommittedEvent.MethodCall m ps => MethodCallCommittedEvent_Dump m ps
  | CommittedEvent.MethodReturn n v => MethodReturnCommittedEvent_Dump n v
  | CommittedEvent.SubMethodCall n c m ps => SubMethodCallCommittedEvent_Dump n c m ps
  | CommittedEvent.SubMethodReturn v => SubMethodReturnCommittedEvent_Dump v
  | CommittedEvent.SelfMethodCall n m ps => SelfMethodCallCommittedEvent_Dump n m ps
  | CommittedEvent.SelfMethodReturn n v => SelfMethodReturnCommittedEvent_Dump n v
  end.

(** The origin peer of a committed transaction is never null. *)
Definition SharedObjectTransaction_Dump (tx : SharedObjectTransaction.t) : D → res D :=
  dump_map (
    AddString "events" ;> dump_list (dump_all CommittedEvent_Dump (SharedObjectTransaction.events tx)) ;>
    AddString "origin_peer" ;> AddString (peer_id (SharedObjectTransaction.origin_peer tx))).

(** *** Versions *)
Definition VersionMap_Dump (m : version_map) : D → res D :=
  dump_map (dump_all (fun '(p, t) => AddString (peer_id p) ;> AddString (TransactionIdToString t)) (map_to_list m)).

(** The loop over the end points, which are taken in pairs. *)
Fixpoint dump_end_points (end_points : list TransactionId) : D → res D :=
  match end_points with
  | [] => Ok
  | [t] => BeginList ;> AddString (TransactionIdToString t) ;> (fun _ => Fatal)
  | t :: t' :: rest =>
      dump_list (AddString (TransactionIdToString t) ;> AddString (TransactionIdToString t')) ;>
      dump_end_points rest
  end.

Definition PeerExclusionMap_Dump (m : PeerExclusionMap.t) : D → res D :=
  dump_map (dump_all (fun '(p, interval_set) =>
    AddString (peer_id p) ;> dump_list (dump_end_points (GetEndPoints interval_set))) (map_to_list m)).

Definition SequencePointImpl_Dump (sp : SequencePointImpl.t) : D → res D :=
  dump_map (
    AddString "version_map" ;> VersionMap_Dump (SequencePointImpl.version_map_ sp) ;>
    AddString "peer_exclusion_map" ;> PeerExclusionMap_Dump (SequencePointImpl.peer_exclusion_map_ sp) ;>
    AddString "rejected_peers" ;>
    dump_map (dump_all (fun '(p, rejected_transactions) =>
      AddString (peer_id p) ;>
      dump_list (dump_all (fun '(t, _) => AddString (TransactionIdToString t)) rejected_transactions))
      (map_to_list (SequencePointImpl.rejected_peers_ sp)))).

(** *** Shared objects *)
Definition ObjectContent_Dump (c : ObjectContent.t) : D → res D :=
  dump_map (
    AddString "committed_versions" ;>
    dump_map (dump_all (fun '(t, tx) =>
      AddString (TransactionIdToString t) ;> SharedObjectTransaction_Dump tx) (ObjectContent.committed_versions_ c)) ;>
    AddString "version_map" ;> VersionMap_Dump (ObjectContent.version_map_ c) ;>
    AddString "up_to_date_peers" ;>
    dump_list (dump_all (fun p => AddString (peer_id p)) (elements (ObjectContent.up_to_date_peers_ c))) ;>
    AddString "cached_live_object" ;>
    match ObjectContent.cached_live_object_ c with None => AddNull | Some l => LiveObject_Dump l end ;>
    AddString "cached_sequence_point" ;> SequencePointImpl_Dump (ObjectContent.cached_sequence_point_ c)).

Definition SharedObject_Dump_Locked (object_id : Uuid) (so : ObjectTable.SharedObject ObjectContent.t)
    : D → res D :=
  dump_map (
    AddString "object_id" ;> AddString (UuidToString object_id) ;>
    AddString "interested_peers" ;>
    dump_list (dump_all (fun p => AddString (peer_id p)) (elements (ObjectTable.interested_peers_ so))) ;>
    AddString "object_references" ;>
    dump_list (dump_all AddPointer (ObjectTable.so_object_references_ so)) ;>
    AddString "object_content" ;>
    match ObjectTable.object_content_ so with None => AddNull | Some c => ObjectContent_Dump c end).

End methods.

Definition ObjectReferenceImpl_DebugString `{Printf} (r : ObjectReference) : res string :=
  shared_object_ ← deref (references !! r);
  Ok ("Object reference " ++ printf_p r ++
      match shared_object_ with
      | None => ""
      | Some object_id => " (object id: " ++ c_str (UuidToString object_id) ++ ")"
      end).
End dumps.

(** ** What is written *)
Section wrote.
Context {LO : Type} `{LocalObjectDumpLaws LO} (references : list (option Uuid)) (heap : LiveObject.heap LO).
Context {D : Type} `{DumpContextLaws D} `{Printf}.

(** References exist, and so do the live objects and what they hold. *)
Definition reference_dumpable (r : ObjectReference) : Prop := r < length references.
Definition value_dumpable (v : Value) : Prop :=
  match data v with OBJECT_REFERENCE r => reference_dumpable r | _ => True end.
Definition live_dumpable (l : LiveObjectPtr) : Prop :=
  ∃ lo, LiveObject.abs heap !! l = Some lo ∧ Forall reference_dumpable (dumped_references lo).
Definition event_dumpable (e : CommittedEvent.t) : Prop :=
  Forall value_dumpable (ObjectTable.event_values e) ∧
  Forall reference_dumpable (ObjectTable.event_callee e) ∧
  Forall reference_dumpable (elements (CommittedEvent.new_objects e)) ∧
  (∀ l, e = CommittedEvent.ObjectCreation l → live_dumpable l).

Lemma wrote_reference r :
  reference_dumpable r → wrote (D := D) (ObjectReferenceImpl_Dump references r) (fun _ => True).
Proof.
  intros [o Ho]%lookup_lt_is_Some. unfold ObjectReferenceImpl_Dump. rewrite Ho. simpl.
  destruct o; (eapply wrote_mono; [wrote_map_tac|done]).
Qed.
#[local] Hint Resolve wrote_reference : wrote.

Lemma wrote_value v : value_dumpable v → wrote (D := D) (Value_Dump references v) (fun _ => True).
Proof.
  unfold value_dumpable, Value_Dump. intros Hv. destruct (data v); (eapply wrote_mono; [|done]); eauto with wrote.
Qed.

Lemma wrote_live l : live_dumpable l → wrote (D := D) (LiveObject_Dump references heap l) (fun _ => True).
Proof.
  intros (lo & Hlo & Hrefs). rewrite LiveObject.abs_lookup in Hlo. unfold LiveObject_Dump, LiveObject.GetNode.
  destruct (LiveObject.live_objects heap !! l) as [n|]; [|done]. simpl in *. unfold LiveObject.deref_node.
  destruct (LiveObject.nodes heap !! n) as [node|]; [|done]. simpl in *. injection Hlo as <-.
  destruct (lo_dump_writes (ObjectReferenceImpl_Dump (D := D) references) (LiveObject.local_object_ node))
    as (m & Hm & Hok); [|by exists m].
  rewrite Forall_forall in Hrefs. intros r Hr. destruct (wrote_reference r (Hrefs r Hr)) as (m & ? & ? & _). eauto.
Qed.

Lemma wrote_list_of {A} (P : A → Prop) (f : A → D → res D) l :
  (∀ x, P x → wrote (f x) (fun _ => True)) → Forall P l → wrote (dump_list (dump_all f l)) (fun _ => True).
Proof.
  intros Hf HP. rewrite Forall_forall in HP. eapply wrote_mono; [|done].
  apply (wrote_items f (fun _ _ => True)). auto.
Qed.

Lemma wrote_new_objects ns :
  Forall reference_dumpable (elements ns) → wrote (D := D) (DumpNewObjects references ns) (fun _ => True).
Proof. apply wrote_list_of, wrote_reference. Qed.
Lemma wrote_values vs :
  Forall value_dumpable vs → wrote (D := D) (dump_list (dump_all (Value_Dump references) vs)) (fun _ => True).
Proof. apply wrote_list_of, wrote_value. Qed.
Lemma wrote_no_new_objects : wrote (D := D) (DumpNewObjects references ∅) (fun _ => True).
Proof. apply wrote_new_objects. by rewrite elements_empty. Qed.
#[local] Hint Resolve wrote_value wrote_live wrote_new_objects wrote_values wrote_no_new_objects : wrote.

(** An event is written with its type. *)
Lemma wrote_event e :
  event_dumpable e → wrote (D := D) (CommittedEvent_Dump references heap e) (fun j =>
    json_field "type" j = Some (JString (CommittedEvent.GetTypeString (CommittedEvent.type e)))).
Proof.
  intros (Hv & Hc & Hn & Hl).
  destruct e; simpl in *; try (apply Forall_cons in Hv as [Hv _]); try (apply Forall_cons in Hc as [Hc _]);
    (eapply wrote_mono; [wrote_map_tac|]).
  all: simpl; intros j (es & -> & j' & es' & -> & -> & _); reflexivity.
Qed.

Lemma CEscape_tid t : CEscape (TransactionIdToString t) = TransactionIdToString t.
Proof. apply CEscape_id. unfold TransactionIdToString. by rewrite !all_chars_app, !hex_pad_unescaped. Qed.
Lemma CEscape_uuid u : CEscape (UuidToString u) = UuidToString u.
Proof. apply CEscape_id. unfold UuidToString. by rewrite !all_chars_app, !hex_pad_unescaped. Qed.

(** *** What is read of a transaction, a version map and an object's content *)

(** The types of the events. *)
Definition json_event_types (j : json) : option (list json) :=
  match json_field "events" j with Some (JList es) => mapM (json_field "type") es | _ => None end.

Definition shows_transaction (tx : SharedObjectTransaction.t) (j : json) : Prop :=
  json_event_types j =
    Some ((JString ∘ CommittedEvent.GetTypeString ∘ CommittedEvent.type) <$> SharedObjectTransaction.events tx) ∧
  json_field "origin_peer" j = Some (JString (CEscape (peer_id (SharedObjectTransaction.origin_peer tx)))).

Definition shows_version_map (m : version_map) (j : json) : Prop :=
  j = JMap ((fun '(p, t) => (JString (CEscape (peer_id p)), JString (TransactionIdToString t))) <$> map_to_list m).

Definition shows_content (c : ObjectContent.t) (j : json) : Prop :=
  (∃ es, json_field "committed_versions" j = Some (JMap es) ∧
     Forall2 (fun '(t, tx) '(k, v) => k = JString (TransactionIdToString t) ∧ shows_transaction tx v)
       (ObjectContent.committed_versions_ c) es) ∧
  (∃ vm, json_field "version_map" j = Some vm ∧ shows_version_map (ObjectContent.version_map_ c) vm) ∧
  (ObjectContent.cached_live_object_ c = None → json_field "cached_live_object" j = Some (JAtom "null")).

Definition shows_shared_object (object_id : Uuid) (so : ObjectTable.SharedObject ObjectContent.t) (j : json) : Prop :=
  json_field "object_id" j = Some (JString (UuidToString object_id)) ∧
  json_field "interested_peers" j =
    Some (JList ((JString ∘ CEscape ∘ peer_id) <$> elements (ObjectTable.interested_peers_ so))) ∧
  json_field "object_references" j =
    Some (JList ((JString ∘ printf_p) <$> ObjectTable.so_object_references_ so)) ∧
  match ObjectTable.object_content_ so with
  | None => json_field "object_content" j = Some (JAtom "null")
  | Some c => ∃ jc, json_field "object_content" j = Some jc ∧ shows_content c jc
  end.

Definition content_dumpable (c : ObjectContent.t) : Prop :=
  Forall (fun '(_, tx) => Forall event_dumpable (SharedObjectTransaction.events tx)) (ObjectContent.committed_versions_ c) ∧
  (∀ l, ObjectContent.cached_live_object_ c = Some l → live_dumpable l).

Lemma wrote_transaction tx :
  Forall event_dumpable (SharedObjectTransaction.events tx) →
  wrote (D := D) (SharedObjectTransaction_Dump references heap tx) (shows_transaction tx).
Proof.
  intros He. rewrite Forall_forall in He. unfold SharedObjectTransaction_Dump. eapply wrote_mono.
  - eapply wrote_map. eapply wrote_fields_cons; [|wrote_fields_tac].
    eapply wrote_items. intros e Hin. by apply wrote_event, He.
  - intros j (es & -> & j1 & es' & -> & (js & -> & Hjs) & j2 & -> & ->). split; [|done].
    unfold json_event_types. simpl. clear He. induction Hjs as [|e j l js Hj _ IH]; simpl; [done|].
    by rewrite Hj, IH.
Qed.

Lemma Forall2_map_eq {A B} (f : A → B) l js : Forall2 (fun x j => j = f x) l js → js = f <$> l.
Proof. by induction 1 as [|x y l l' -> _ ->]. Qed.

Lemma wrote_version_map m : wrote (D := D) (VersionMap_Dump m) (shows_version_map m).
Proof.
  unfold VersionMap_Dump. eapply wrote_mono.
  - apply (wrote_entries (peer_id ∘ fst) _ (fun x => AddString (TransactionIdToString x.2))
      (fun x j => j = JString (CEscape (TransactionIdToString x.2)))); [by intros [p t]|eauto with wrote].
  - intros j (es & -> & Hes). unfold shows_version_map. f_equal. apply Forall2_map_eq.
    eapply Forall2_impl; [exact Hes|]. intros [p t] [k v] [Hk Hv]. cbn [fst snd] in *. subst. by rewrite CEscape_tid.
Qed.

Lemma wrote_end_points s :
  wrote (D := D) (dump_list (dump_end_points (GetEndPoints s))) (fun _ => True).
Proof.
  assert (∃ ns, writes (dump_end_points (D := D) (GetEndPoints s)) ns ∧ forallb node_ok ns = true) as (ns & Hns & Hok).
  { induction s as [|[a b] s (ns & Hns & Hok)]; [by exists []; split; [apply writes_nil|]|].
    exists (ListDumpNode [StringDumpNode (TransactionIdToString a); StringDumpNode (TransactionIdToString b)] :: ns).
    split; [|done]. simpl. apply (writes_seq _ _ [_] ns); [|done]. apply writes_list.
    apply (writes_seq _ _ [_] [_]); apply writes_one; intros; apply AddString_node. }
  exists (ListDumpNode ns). split_and!; [by apply writes_list|done|done].
Qed.

Lemma wrote_map_of {A} (key : A → string) (f m : A → D → res D) l :
  (∀ x, f x = (AddString (key x) ;> m x)) → (∀ x, x ∈ l → wrote (m x) (fun _ => True)) →
  wrote (dump_map (dump_all f l)) (fun _ => True).
Proof. intros Hf Hm. eapply wrote_mono; [|done]. by apply (wrote_entries key f m (fun _ _ => True)). Qed.

Lemma wrote_exclusion_map m : wrote (D := D) (PeerExclusionMap_Dump m) (fun _ => True).
Proof.
  apply (wrote_map_of (peer_id ∘ fst) _ (fun x => dump_list (dump_end_points (GetEndPoints x.2)))); [by intros [p s]|].
  intros x _. apply wrote_end_points.
Qed.

Lemma wrote_rejected (m : gmap CanonicalPeer (oset TransactionId)) :
  wrote (D := D) (dump_map (dump_all (fun '(p, rejected_transactions) =>
      AddString (peer_id p) ;>
      dump_list (dump_all (fun '(t, _) => AddString (TransactionIdToString t)) rejected_transactions))
      (map_to_list m))) (fun _ => True).
Proof.
  apply (wrote_map_of (peer_id ∘ fst) _ (fun x : CanonicalPeer * oset TransactionId =>
    dump_list (dump_all (fun '(t, _) => AddString (TransactionIdToString t)) x.2))); [by intros [p s]|].
  intros x _. apply (wrote_list_of (fun _ => True)); [|by apply Forall_true].
  intros [t []] _. eapply wrote_mono; [apply wrote_string|done].
Qed.
#[local] Hint Resolve wrote_version_map wrote_exclusion_map wrote_rejected : wrote.

Lemma wrote_sequence_point sp : wrote (D := D) (SequencePointImpl_Dump sp) (fun _ => True).
Proof. eapply wrote_mono; [unfold SequencePointImpl_Dump; wrote_map_tac|done]. Qed.
#[local] Hint Resolve wrote_sequence_point : wrote.

Lemma wrote_peers (s : gset CanonicalPeer) :
  wrote (D := D) (dump_list (dump_all (fun p => AddString (peer_id p)) (elements s)))
    (fun j => j = JList ((JString ∘ CEscape ∘ peer_id) <$> elements s)).
Proof.
  eapply wrote_mono; [apply (wrote_items _ (fun p j => j = JString (CEscape (peer_id p)))); eauto with wrote|].
  intros j (js & -> & Hjs). f_equal. by apply Forall2_map_eq.
Qed.

Lemma wrote_content c :
  content_dumpable c → wrote (D := D) (ObjectContent_Dump references heap c) (shows_content c).
Proof.
  intros [Hc Hl]. rewrite Forall_forall in Hc. unfold ObjectContent_Dump. eapply wrote_mono.
  - eapply wrote_map. eapply wrote_fields_cons; [|eapply wrote_fields_cons; [|eapply wrote_fields_cons; [|eapply wrote_fields_cons]]].
    + apply (wrote_entries (TransactionIdToString ∘ fst) _ (fun x => SharedObjectTransaction_Dump references heap x.2)
        (fun x => shows_transaction x.2)); [by intros [t tx]|].
      intros [t tx] Hin. apply wrote_transaction. apply (Hc _ Hin).
    + apply wrote_version_map.
    + apply wrote_peers.
    + instantiate (1 := fun j => ObjectContent.cached_live_object_ c = None → j = JAtom "null").
      destruct (ObjectContent.cached_live_object_ c) as [l|].
      * eapply wrote_mono; [by apply wrote_live, Hl|done].
      * eapply wrote_mono; [apply wrote_null|done].
    + wrote_fields_tac.
  - intros j (es & -> & j1 & es1 & -> & (vs & -> & Hvs) & j2 & es2 & -> & Hvm & j3 & es3 & -> & _ & j4 & es4 & -> & Hcl & _).
    split_and!.
    + exists vs. split; [done|]. eapply Forall2_impl; [exact Hvs|]. intros [t tx] [k v] [Hk Hv]. cbn [fst snd] in *. split; [|done]. unfold compose in Hk. cbn [fst] in Hk.
      by rewrite CEscape_tid in Hk.
    + by exists j2.
    + intros Hnone. specialize (Hcl Hnone). by subst j4.
Qed.

Lemma wrote_shared_object id so :
  (∀ c, ObjectTable.object_content_ so = Some c → content_dumpable c) →
  wrote (D := D) (SharedObject_Dump_Locked references heap id so) (shows_shared_object id so).
Proof.
  intros Hc. unfold SharedObject_Dump_Locked. eapply wrote_mono.
  - eapply wrote_map. eapply wrote_fields_cons; [apply wrote_string|].
    eapply wrote_fields_cons; [apply wrote_peers|]. eapply wrote_fields_cons.
    + apply (wrote_items _ (fun r j => j = JString (printf_p r))). eauto with wrote.
    + apply wrote_fields_last with (Q := fun j => match ObjectTable.object_content_ so with
        | None => j = JAtom "null" | Some c => shows_content c j end).
      destruct (ObjectTable.object_content_ so) as [c|]; [by apply wrote_content, Hc|apply wrote_null].
  - intros j (es & -> & j1 & es1 & -> & -> & j2 & es2 & -> & -> & j3 & es3 & -> & (js & -> & Hjs) & j4 & -> & Hcontent).
    unfold shows_shared_object. split_and!.
    + transitivity (Some (JString (CEscape (UuidToString id)))); [done|by rewrite CEscape_uuid].
    + done.
    + transitivity (Some (JList js)); [done|]. f_equal. f_equal. by apply Forall2_map_eq.
    + destruct (ObjectTable.object_content_ so); [by exists j4|by subst j4].
Qed.
End wrote.

(** ** The text of a shared object *)
Section shared_object.
Context {LO : Type} `{LocalObjectDumpLaws LO} `{PrintfLaws}.
Implicit Types (s : ObjectTable.t ObjectContent.t (LiveObject.heap LO)).

Definition SharedObject_Dump {D} `{DumpContext D} s (object_id : Uuid) : D → res D := fun d =>
  so ← deref (ObjectTable.shared_objects_ s !! object_id);
  SharedObject_Dump_Locked (ObjectTable.object_references_ s) (ObjectTable.live s) object_id so d.

(** The references and live objects of the object's history exist. *)
Definition shared_object_dumpable s (so : ObjectTable.SharedObject ObjectContent.t) : Prop :=
  ∀ c, ObjectTable.object_content_ so = Some c →
  content_dumpable (ObjectTable.object_references_ s) (ObjectTable.live s) c.

(** dumping a shared object whose history mentions references and
    live objects that exist never ends the process, and its text can be read: it
    shows the object's id, the interested peers, the references, and of the
    content every committed transaction in order with its id, the types of its
    events and its origin, and the version map. *)
Theorem shared_object_dump_reads s object_id so :
  ObjectTable.shared_objects_ s !! object_id = Some so → shared_object_dumpable s so →
  ∃ text j, GetJsonString (SharedObject_Dump s object_id) = Ok text ∧ read_text text = Some j ∧
    shows_shared_object object_id so j.
Proof.
  intros Hso Hc.
  destruct (wrote_shared_object (D := DumpContextImpl) (ObjectTable.object_references_ s) (ObjectTable.live s)
    object_id so Hc) as (n & Hn & Hok & Hshow).
  assert (writes (SharedObject_Dump s object_id) [n]) as Hw.
  { intros d. unfold SharedObject_Dump. rewrite Hso. apply Hn. }
  rewrite (written_text _ n Hw). destruct (AppendJson_read_text n Hok) as (t & ? & ?). eauto.
Qed.
End shared_object.
