(* ===== verification/PlaybackThread.v ===== *)
(** [engine/playback_thread.{h,cc}] and [engine/event_queue.{h,cc}]: replaying
    the events of one object against its local object.

    A method of a local object is the interpreter's code; it is a program
    that reads and writes its object and calls the [MethodContext].  The
    contract of [include/c++/method_context.h] (return at once when the
    context returns [false]) is built into the type: a continuation exists
    only for success.

    The replay thread takes events from a queue and waits when it is empty.
    Its work up to that moment is a function of the events queued so far,
    [replay] below: the result [Paused] is the state in which it waits.
    [Stop] makes the waiting call return [false] instead; the argument
    [stopping] tells the two apart. *)
From stdpp Require Import base tactics list strings gmap.
From Stdlib Require Import ZArith Lia.
From S2P Require Import Prelude Text Ids VersionMap Values Events LiveObject ObjectTable ObjectContent.
#[local] Open Scope string_scope.
#[local] Open Scope nat_scope.

(** ** Methods of local objects *)
(** How a method can fail: a [CHECK], undefined behaviour, or a loop that has
    been followed for as many iterations as its model was given. *)
Inductive failure := FatalError | UndefinedBehaviour | LoopBound.

Inductive prog (LO : Type) :=
| PReturn (return_value : Value)
| PRead (k : LO → prog LO)
| PWrite (lo : LO) (k : prog LO)
| PBeginTransaction (k : prog LO)
| PEndTransaction (k : prog LO)
| PCreateObject (initial_version : LO) (name : string) (k : ObjectReference → prog LO)
| PCallMethod (object_reference : ObjectReference) (method_name : string)
    (parameters : list Value) (k : Value → prog LO)
| PObjectsAreIdentical (a b : ObjectReference) (k : bool → prog LO)
| PPrint (text : string) (k : prog LO)
| PFail (why : failure).
Arguments PReturn {LO}.
Arguments PRead {LO}.
Arguments PWrite {LO}.
Arguments PBeginTransaction {LO}.
Arguments PEndTransaction {LO}.
Arguments PCreateObject {LO}.
Arguments PCallMethod {LO}.
Arguments PObjectsAreIdentical {LO}.
Arguments PPrint {LO}.
Arguments PFail {LO}.

(** [LocalObject::InvokeMethod]. *)
Class LocalObjectMethods (LO : Type) :=
  lo_invoke : ObjectReference → string → list Value → prog LO.

(** ** The event queue *)
Module EventQueue.

(** In the queue [None] is the null pointer that ends a sequence. *)
Record t := {
  events_ : list (option CommittedEvent.t);
  next_event_ : option CommittedEvent.t;
  end_of_sequence_ : bool;
}.

Definition New : t := {| events_ := []; next_event_ := None; end_of_sequence_ := false |}.

Definition QueueEvent (event : CommittedEvent.t) (q : t) : t :=
  {| events_ := events_ q ++ [Some event]; next_event_ := next_event_ q;
     end_of_sequence_ := end_of_sequence_ q |}.
Definition SetEndOfSequence (q : t) : t :=
  {| events_ := events_ q ++ [None]; next_event_ := next_event_ q;
     end_of_sequence_ := end_of_sequence_ q |}.

(** [None]: [Pop] waits for an element. *)
Definition FetchNext (q : t) : option t :=
  match end_of_sequence_ q, next_event_ q with
  | false, None =>
      match events_ q with
      | [] => None
      | None :: rest => Some {| events_ := rest; next_event_ := None; end_of_sequence_ := true |}
      | Some e :: rest =>
          Some {| events_ := rest; next_event_ := Some e; end_of_sequence_ := false |}
      end
  | _, _ => Some q
  end.

Definition HasNext (q : t) : option (bool * t) :=
  q ← FetchNext q; Some (bool_decide (is_Some (next_event_ q)), q).

Definition PeekNext (q : t) : option (res CommittedEvent.t * t) :=
  '(b, q) ← HasNext q; Some (CHECK b;; deref (next_event_ q), q).

Definition GetNext (q : t) : option (res CommittedEvent.t * t) :=
  '(b, q) ← HasNext q;
  Some (CHECK b;; deref (next_event_ q),
        {| events_ := events_ q; next_event_ := None; end_of_sequence_ := end_of_sequence_ q |}).

Definition MoveToNextSequence (q : t) : res t :=
  CHECK (bool_decide (next_event_ q = None));;
  CHECK (end_of_sequence_ q);;
  Ok {| events_ := events_ q; next_event_ := next_event_ q; end_of_sequence_ := false |}.

(** Take events until [HasNext] is false. *)
Fixpoint drain (fuel : nat) (q : t) : option (list CommittedEvent.t * t) :=
  match fuel with
  | O => None
  | S fuel =>
      '(b, q) ← HasNext q;
      if (b : bool) then
        '(r, q) ← GetNext q;
        match r with Ok e => '(es, q) ← drain fuel q; Some (e :: es, q) | _ => None end
      else Some ([], q)
  end.

(** A queue between two sequences that holds the sequence [evs] and then
    [rest]. *)
Definition holding (evs : list CommittedEvent.t) (rest : list (option CommittedEvent.t)) : t :=
  {| events_ := (Some <$> evs) ++ None :: rest; next_event_ := None; end_of_sequence_ := false |}.

(** The queue hands over sequences: after any events are queued
    and the sequence is ended, the consumer gets exactly these events in order,
    then [HasNext] is false, however often it is asked, until
    [MoveToNextSequence] opens the next sequence; before the sequence is ended
    the consumer waits rather than seeing an end. *)
Theorem event_queue_sequences evs rest :
  SetEndOfSequence (foldl (fun q e => QueueEvent e q) New evs) = holding evs [] ∧
  (∃ q, drain (S (length evs)) (holding evs rest) = Some (evs, q) ∧
     HasNext q = Some (false, q) ∧
     MoveToNextSequence q =
       Ok {| events_ := rest; next_event_ := None; end_of_sequence_ := false |}) ∧
  HasNext New = None.
Proof.
  split; [|split; [|done]].
  - assert (∀ q, foldl (fun q e => QueueEvent e q) q evs =
      {| events_ := events_ q ++ (Some <$> evs); next_event_ := next_event_ q;
         end_of_sequence_ := end_of_sequence_ q |}) as ->; [|done].
    induction evs as [|e evs IH]; intros q; csimpl; [rewrite app_nil_r; by destruct q|].
    rewrite IH. simpl. by rewrite <- app_assoc.
  - exists {| events_ := rest; next_event_ := None; end_of_sequence_ := true |}.
    split; [|done]. induction evs as [|e evs IH]; [done|].
    unfold holding in *. csimpl. cbn [drain length] in *. by rewrite IH.
Qed.
End EventQueue.

Module PlaybackThread.
Section playback.
Context {LO C : Type} `{LocalObjectMethods LO}.
Context (GenerateUuid : nat → Uuid) (GeneratePredictableUuid : Uuid → string → Uuid).
(** [FLAGS_treat_conflicts_as_fatal_for_debugging], and the object that is
    replayed ([shared_object_]). *)
Context (treat_conflicts_as_fatal : bool) (shared_object_ : Uuid).

Abbreviation table := (ObjectTable.t C (LiveObject.heap LO)).

Record st := {
  tables : table;
  new_object_references_ : gmap Uuid ObjectReference;
  queue : list CommittedEvent.t;
  live_object_ : option LiveObjectPtr;
  unbound_object_references_ : gset ObjectReference;
  conflict_detected_ : bool;
}.

Definition set_tables (x : table) (s : st) : st :=
  {| tables := x; new_object_references_ := new_object_references_ s; queue := queue s;
     live_object_ := live_object_ s; unbound_object_references_ := unbound_object_references_ s;
     conflict_detected_ := conflict_detected_ s |}.
Definition set_new_references (x : gmap Uuid ObjectReference) (s : st) : st :=
  {| tables := tables s; new_object_references_ := x; queue := queue s;
     live_object_ := live_object_ s; unbound_object_references_ := unbound_object_references_ s;
     conflict_detected_ := conflict_detected_ s |}.
Definition set_queue (x : list CommittedEvent.t) (s : st) : st :=
  {| tables := tables s; new_object_references_ := new_object_references_ s; queue := x;
     live_object_ := live_object_ s; unbound_object_references_ := unbound_object_references_ s;
     conflict_detected_ := conflict_detected_ s |}.
Definition set_live_object (x : option LiveObjectPtr) (s : st) : st :=
  {| tables := tables s; new_object_references_ := new_object_references_ s; queue := queue s;
     live_object_ := x; unbound_object_references_ := unbound_object_references_ s;
     conflict_detected_ := conflict_detected_ s |}.
Definition set_unbound (x : gset ObjectReference) (s : st) : st :=
  {| tables := tables s; new_object_references_ := new_object_references_ s; queue := queue s;
     live_object_ := live_object_ s; unbound_object_references_ := x;
     conflict_detected_ := conflict_detected_ s |}.
Definition set_conflict (x : bool) (s : st) : st :=
  {| tables := tables s; new_object_references_ := new_object_references_ s; queue := queue s;
     live_object_ := live_object_ s; unbound_object_references_ := unbound_object_references_ s;
     conflict_detected_ := x |}.

(** ** What the replay thread can be doing *)
Inductive out (A : Type) :=
| Val (a : A) (s : st)
| Paused (s : st)
| Aborted (undefined : bool)
| NoFuel.
Arguments Val {A}.
Arguments Paused {A}.
Arguments Aborted {A}.
Arguments NoFuel {A}.

Definition PB (A : Type) : Type := st → out A.
#[global] Instance PB_ret : MRet PB := fun A a s => Val a s.
#[global] Instance PB_bind : MBind PB := fun A B f m s =>
  match m s with
  | Val a s' => f a s'
  | Paused s' => Paused s'
  | Aborted u => Aborted u
  | NoFuel => NoFuel
  end.

Definition gets {A} (f : st → A) : PB A := fun s => Val (f s) s.
Definition modify (f : st → st) : PB unit := fun s => Val tt (f s).
Definition lift_res {A} (r : res A) : PB A := fun s =>
  match r with Ok a => Val a s | Fatal => Aborted false | Undef => Aborted true end.
Definition lift_table {A} (m : ObjectTable.M A) : PB A := fun s =>
  match m (tables s) with
  | Ok (a, t') => Val a (set_tables t' s)
  | Fatal => Aborted false
  | Undef => Aborted true
  end.
Definition lift_heap {A} (m : LiveObject.heap LO → res (A * LiveObject.heap LO)) : PB A := fun s =>
  match m (ObjectTable.live (tables s)) with
  | Ok (a, h) => Val a (set_tables (ObjectTable.set_live h (tables s)) s)
  | Fatal => Aborted false
  | Undef => Aborted true
  end.
Definition check (b : bool) : PB unit := lift_res (CHECK b).

(** ** The event queue *)

(** [HasNextEvent]: skip to the next event that is not an OBJECT_CREATION,
    creating the live object from the first one that is; events before the
    object exists are dropped. *)
Fixpoint has_next_event (stopping : bool) (evs : list CommittedEvent.t) : PB bool := fun s =>
  match evs with
  | [] => if stopping then Val false (set_queue [] s) else Paused (set_queue [] s)
  | e :: rest =>
      match e with
      | CommittedEvent.ObjectCreation new_live_object =>
          match live_object_ s with
          | None =>
              (l ← lift_heap (LiveObject.Clone new_live_object);
               _ ← modify (set_live_object (Some l));
               has_next_event stopping rest) s
          | Some _ => has_next_event stopping rest s
          end
      | _ =>
          match live_object_ s with
          | Some _ => Val true (set_queue (e :: rest) s)
          | None => has_next_event stopping rest s
          end
      end
  end.

Context (stopping : bool).

Definition HasNextEvent : PB bool := fun s => has_next_event stopping (queue s) s.

Definition PeekNextEventType : PB CommittedEvent.Type_ :=
  b ← HasNextEvent;
  _ ← check b;
  evs ← gets queue;
  e ← lift_res (deref (head evs));
  mret (CommittedEvent.type e).

Definition GetNextEvent : PB CommittedEvent.t :=
  b ← HasNextEvent;
  _ ← check b;
  evs ← gets queue;
  match evs with
  | e :: rest => _ ← modify (set_queue rest); mret e
  | [] => lift_res Undef
  end.

Definition SetConflictDetected : PB unit :=
  if treat_conflicts_as_fatal then lift_res Fatal else modify (set_conflict true).

Definition CheckNextEventType (actual_event_type : CommittedEvent.Type_) : PB bool :=
  conflict ← gets conflict_detected_;
  _ ← check (negb conflict);
  b ← HasNextEvent;
  if negb b then mret false
  else
    expected ← PeekNextEventType;
    if bool_decide (expected ≠ actual_event_type)
    then _ ← SetConflictDetected; mret false
    else mret true.

(** ** Comparing what happens with what was recorded *)
Definition GetNewSharedObjectsForEvent (e : CommittedEvent.t) : PB (gset Uuid) := fun s =>
  match foldM (fun (out : gset Uuid) r =>
      id ← check_some (ObjectTable.shared_object (tables s) r);
      CHECK (negb (bool_decide (id ∈ out)));; Ok ({[id]} ∪ out))
    ∅ (elements (CommittedEvent.new_objects e)) with
  | Ok ids => Val ids s | Fatal => Aborted false | Undef => Aborted true
  end.

Definition ObjectMatches (shared_object : option Uuid) (r : ObjectReference)
    (new_shared_objects : gset Uuid) : PB bool :=
  id ← lift_res (check_some shared_object);
  unbound ← gets unbound_object_references_;
  nor ← gets new_object_references_;
  if bool_decide (id ∈ new_shared_objects) && bool_decide (r ∈ unbound) then
    match nor !! id with
    | Some _ => mret false
    | None =>
        _ ← modify (set_new_references (<[id := r]> nor));
        _ ← modify (set_unbound (unbound ∖ {[r]}));
        mret true
    end
  else if bool_decide (nor !! id = Some r) then mret true
  else lift_table (ObjectTable.HasObjectReference id r).

Definition ValueMatches (committed_value pending_value : Value)
    (new_shared_objects : gset Uuid) : PB bool :=
  if negb (local_type committed_value =? local_type pending_value)%Z then mret false
  else match data committed_value, data pending_value with
  | EMPTY, EMPTY => mret true
  | DOUBLE a, DOUBLE b => mret (Fp.double_eqb a b)
  | FLOAT a, FLOAT b => mret (Fp.float_eqb a b)
  | INT64 a, INT64 b => mret (a =? b)%Z
  | UINT64 a, UINT64 b => mret (a =? b)%Z
  | BOOL a, BOOL b => mret (Bool.eqb a b)
  | STRING a, STRING b => mret (bool_decide (a = b))
  | BYTES a, BYTES b => mret (bool_decide (a = b))
  | OBJECT_REFERENCE a, OBJECT_REFERENCE b =>
      t ← gets tables;
      ObjectMatches (ObjectTable.shared_object t a) b new_shared_objects
  | UNINITIALIZED, UNINITIALIZED => lift_res Fatal
  | _, _ => mret false
  end.

Fixpoint values_match (expected actual : list Value) (new_shared_objects : gset Uuid) : PB bool :=
  match expected, actual with
  | [], _ | _, [] => mret true
  | e :: es, a :: as_ =>
      b ← ValueMatches e a new_shared_objects;
      if (b : bool) then values_match es as_ new_shared_objects else mret false
  end.

Definition MethodCallMatches (expected_shared_object : option Uuid) (expected_method_name : string)
    (expected_parameters : list Value) (r : ObjectReference) (method_name : string)
    (parameters : list Value) (new_shared_objects : gset Uuid) : PB bool :=
  b ← ObjectMatches expected_shared_object r new_shared_objects;
  if negb b then mret false
  else if bool_decide (expected_method_name ≠ method_name) then mret false
  else if bool_decide (length expected_parameters ≠ length parameters) then mret false
  else values_match expected_parameters parameters new_shared_objects.

(** ** Replaying calls *)

(** The end of a method call: compare the return value. *)
Definition check_return (expected : Value) (actual : Value) (e : CommittedEvent.t) : PB unit :=
  new_shared_objects ← GetNewSharedObjectsForEvent e;
  b ← ValueMatches expected actual new_shared_objects;
  if negb b then SetConflictDetected else mret tt.

Section calls.
(** [live_object_->InvokeMethod(this, r, name, parameters, &return_value)]:
    [None] when the method returned early. *)
Context (invoke : ObjectReference → string → list Value → PB (option Value)).

Definition DoMethodCall : PB unit :=
  live ← gets live_object_;
  _ ← check (bool_decide (is_Some live));
  conflict ← gets conflict_detected_;
  _ ← check (negb conflict);
  b ← CheckNextEventType CommittedEvent.METHOD_CALL;
  if negb b then mret tt else
  e ← GetNextEvent;
  call ← lift_res (CommittedEvent.GetMethodCall e);
  b ← HasNextEvent;
  if negb b then mret tt else
  r ← lift_table (ObjectTable.GetOrCreateObjectReference shared_object_);
  rv ← invoke r call.1 call.2;
  conflict ← gets conflict_detected_;
  if (conflict : bool) then mret tt else
  b ← CheckNextEventType CommittedEvent.METHOD_RETURN;
  if negb b then mret tt else
  e ← GetNextEvent;
  expected ← lift_res (CommittedEvent.GetMethodReturn e);
  check_return expected (default NewValue rv) e.

(** [return_value] is what the caller's variable holds. *)
Definition DoSelfMethodCall (r : ObjectReference) (method_name : string)
    (parameters : list Value) (return_value : Value) : PB Value :=
  live ← gets live_object_;
  _ ← check (bool_decide (is_Some live));
  conflict ← gets conflict_detected_;
  _ ← check (negb conflict);
  b ← CheckNextEventType CommittedEvent.SELF_METHOD_CALL;
  if negb b then mret return_value else
  e ← GetNextEvent;
  call ← lift_res (CommittedEvent.GetSelfMethodCall e);
  new_shared_objects ← GetNewSharedObjectsForEvent e;
  b ← MethodCallMatches (Some shared_object_) call.1 call.2 r method_name parameters
        new_shared_objects;
  if negb b then _ ← SetConflictDetected; mret return_value else
  b ← HasNextEvent;
  if negb b then mret return_value else
  rv ← invoke r method_name parameters;
  let return_value := default return_value rv in
  conflict ← gets conflict_detected_;
  if (conflict : bool) then mret return_value else
  b ← CheckNextEventType CommittedEvent.SELF_METHOD_RETURN;
  if negb b then mret return_value else
  e ← GetNextEvent;
  expected ← lift_res (CommittedEvent.GetSelfMethodReturn e);
  _ ← check_return expected return_value e;
  mret return_value.

(** The loop over the calls that other objects made on this one during a
    sub-method call; the result tells whether a conflict ended it. *)
Fixpoint nested_calls (fuel : nat) : PB bool :=
  match fuel with
  | O => fun _ => NoFuel
  | S fuel =>
      b ← HasNextEvent;
      if negb b then mret false else
      ty ← PeekNextEventType;
      if bool_decide (ty = CommittedEvent.METHOD_CALL) then
        _ ← DoMethodCall;
        conflict ← gets conflict_detected_;
        if (conflict : bool) then mret true else nested_calls fuel
      else mret false
  end.

Definition DoSubMethodCall (r : ObjectReference) (method_name : string)
    (parameters : list Value) (return_value : Value) : PB Value :=
  conflict ← gets conflict_detected_;
  _ ← check (negb conflict);
  b ← CheckNextEventType CommittedEvent.SUB_METHOD_CALL;
  if negb b then mret return_value else
  e ← GetNextEvent;
  call ← lift_res (CommittedEvent.GetSubMethodCall e);
  let '(callee, expected_method_name, expected_parameters) := call in
  t ← gets tables;
  callee_shared_object ← lift_res (check_some (ObjectTable.shared_object t callee));
  if bool_decide (callee_shared_object = shared_object_)
  then _ ← SetConflictDetected; mret return_value else
  new_shared_objects ← GetNewSharedObjectsForEvent e;
  b ← MethodCallMatches (Some callee_shared_object) expected_method_name expected_parameters
        r method_name parameters new_shared_objects;
  if negb b then _ ← SetConflictDetected; mret return_value else
  evs ← gets queue;
  conflict ← nested_calls (S (length evs));
  if (conflict : bool) then mret return_value else
  b ← CheckNextEventType CommittedEvent.SUB_METHOD_RETURN;
  if negb b then mret return_value else
  e ← GetNextEvent;
  lift_res (CommittedEvent.GetSubMethodReturn e).

(** [MethodContext::CallMethod]: [None] is [false]. *)
Definition CallMethod (r : ObjectReference) (method_name : string) (parameters : list Value)
    : PB (option Value) :=
  _ ← check (negb (bool_decide (method_name = "")));
  conflict ← gets conflict_detected_;
  if (conflict : bool) then mret None else
  b ← HasNextEvent;
  if negb b then mret None else
  self ← lift_table (ObjectTable.HasObjectReference shared_object_ r);
  v ← (if (self : bool) then DoSelfMethodCall r method_name parameters NewValue
       else DoSubMethodCall r method_name parameters NewValue);
  conflict ← gets conflict_detected_;
  if (conflict : bool) then mret None else
  b ← HasNextEvent;
  if (b : bool) then mret (Some v) else mret None.

(** [BeginTransaction] and [EndTransaction]. *)
Definition TransactionMark (type : CommittedEvent.Type_) : PB bool :=
  conflict ← gets conflict_detected_;
  if (conflict : bool) then mret false else
  b ← CheckNextEventType type;
  if negb b then mret false else
  _ ← GetNextEvent;
  HasNextEvent.

Definition CreateObject (name : string) : PB ObjectReference :=
  if bool_decide (name = "") then
    r ← lift_table ObjectTable.CreateUnboundObjectReference;
    unbound ← gets unbound_object_references_;
    _ ← check (negb (bool_decide (r ∈ unbound)));
    _ ← modify (set_unbound ({[r]} ∪ unbound));
    mret r
  else lift_table (ObjectTable.CreateBoundObjectReference GenerateUuid GeneratePredictableUuid name).

Definition ObjectsAreIdentical (a b : ObjectReference) : PB bool :=
  t ← gets tables; mret (ObjectTable.ObjectsAreIdentical t a b).

(** A method body, on the node [n]. *)
Fixpoint run_prog (n : nat) (p : prog LO) : PB (option Value) :=
  match p with
  | PReturn v => mret (Some v)
  | PRead k =>
      lo ← lift_heap (fun h => lo ← LiveObject.ReadState n h; Ok (lo, h));
      run_prog n (k lo)
  | PWrite lo k =>
      _ ← lift_heap (fun h => h ← LiveObject.WriteState n lo h; Ok (tt, h));
      run_prog n k
  | PBeginTransaction k =>
      b ← TransactionMark CommittedEvent.BEGIN_TRANSACTION;
      if (b : bool) then run_prog n k else mret None
  | PEndTransaction k =>
      b ← TransactionMark CommittedEvent.END_TRANSACTION;
      if (b : bool) then run_prog n k else mret None
  | PCreateObject _ name k => r ← CreateObject name; run_prog n (k r)
  | PCallMethod r name ps k =>
      v ← CallMethod r name ps;
      match v with Some v => run_prog n (k v) | None => mret None end
  | PObjectsAreIdentical a b k =>
      same ← ObjectsAreIdentical a b; run_prog n (k same)
  | PPrint _ k => run_prog n k
  | PFail why => fun _ => Aborted (match why with UndefinedBehaviour => true | _ => false end)
  end.
End calls.

(** [LiveObject::InvokeMethod]; the fuel bounds the nesting of calls. *)
Fixpoint invoke_method (fuel : nat) (r : ObjectReference) (method_name : string)
    (parameters : list Value) : PB (option Value) :=
  match fuel with
  | O => fun _ => NoFuel
  | S fuel =>
      live ← gets live_object_;
      l ← lift_res (deref live);
      n ← lift_heap (LiveObject.InvokeMethod_begin l);
      v ← run_prog (invoke_method fuel) n (lo_invoke r method_name parameters);
      _ ← lift_heap (fun h => h ← LiveObject.InvokeMethod_end l n h; Ok (tt, h));
      mret v
  end.

(** [ReplayEvents]: the main loop, then discarding what is left. *)
Fixpoint replay_loop (fuel : nat) (depth : nat) : PB unit :=
  match fuel with
  | O => fun _ => NoFuel
  | S fuel =>
      conflict ← gets conflict_detected_;
      if (conflict : bool) then mret tt else
      b ← CheckNextEventType CommittedEvent.METHOD_CALL;
      if negb b then mret tt else
      _ ← DoMethodCall (invoke_method depth);
      replay_loop fuel depth
  end.

Fixpoint discard_loop (fuel : nat) : PB unit :=
  match fuel with
  | O => fun _ => NoFuel
  | S fuel =>
      b ← HasNextEvent;
      if negb b then mret tt else _ ← GetNextEvent; discard_loop fuel
  end.

Definition ReplayEvents : PB unit :=
  evs ← gets queue;
  let n := S (length evs) in
  _ ← replay_loop n n;
  _ ← discard_loop n;
  modify (set_unbound ∅).

(** ** Progress: every event is consumed, whatever the methods do *)
#[local] Arguments lift_res : simpl never.
#[local] Arguments lift_table : simpl never.
#[local] Arguments lift_heap : simpl never.

(** What never goes back: the queue shrinks, a conflict stays, a live object
    once created stays, and the contents of the shared objects are left alone. *)
Definition le (s s' : st) : Prop :=
  length (queue s') ≤ length (queue s) ∧
  (conflict_detected_ s = true → conflict_detected_ s' = true) ∧
  (is_Some (live_object_ s) → is_Some (live_object_ s')) ∧
  ObjectTable.contents_kept (tables s) (tables s').

#[local] Instance le_preorder : PreOrder le.
Proof.
  split; [intros s; unfold le; by auto|].
  intros s1 s2 s3 (A1 & B1 & C1 & D1) (A2 & B2 & C2 & D2).
  split_and!; [lia|auto|auto|by etrans].
Qed.

(** The same tables, but for the heap of live objects. *)
Lemma le_intro s s' :
  length (queue s') ≤ length (queue s) →
  (conflict_detected_ s = true → conflict_detected_ s' = true) →
  (is_Some (live_object_ s) → is_Some (live_object_ s')) →
  ObjectTable.shared_objects_ (tables s') = ObjectTable.shared_objects_ (tables s) → le s s'.
Proof. intros ????. split_and!; [done..|]. by apply ObjectTable.kc_same. Qed.

(** [m], started in [s], has enough fuel; [Q] holds when it returns and [R]
    when it waits. *)
Definition wp {A} (m : PB A) (s : st) (Q : A → st → Prop) (R : st → Prop) : Prop :=
  match m s with Val a s' => Q a s' | Paused s' => R s' | Aborted _ => True | NoFuel => False end.

(** The thread waits only for the end of an empty queue. *)
Definition waits (s s' : st) : Prop := le s s' ∧ queue s' = [] ∧ stopping = false.

Definition safe {A} (n : nat) (m : PB A) : Prop :=
  ∀ s, length (queue s) < n → wp m s (fun _ => le s) (waits s).

Lemma wp_mono {A} (m : PB A) s (Q Q' : A → st → Prop) (R R' : st → Prop) :
  wp m s Q R → (∀ a s', Q a s' → Q' a s') → (∀ s', R s' → R' s') → wp m s Q' R'.
Proof. unfold wp. destruct (m s); auto. Qed.

Lemma wp_bind {A B} (m : PB A) (f : A → PB B) s Q R :
  wp m s (fun a s' => wp (f a) s' Q R) R → wp (m ≫= f) s Q R.
Proof. unfold wp, mbind, PB_bind. by destruct (m s). Qed.

Lemma wp_gets {A B} (g : st → A) (f : A → PB B) s Q R :
  wp (f (g s)) s Q R → wp (gets g ≫= f) s Q R.
Proof. done. Qed.

Lemma wp_check {B} b (f : unit → PB B) s Q R :
  (b = true → wp (f tt) s Q R) → wp (check b ≫= f) s Q R.
Proof. destruct b; [by auto|done]. Qed.

Lemma waits_le s s' s'' : le s s' → waits s' s'' → waits s s''.
Proof. intros ? (? & ? & ?). split; [by etrans|done]. Qed.

Lemma safe_at {A} n (m : PB A) s s' :
  safe n m → le s s' → length (queue s') < n → wp m s' (fun _ => le s) (waits s).
Proof.
  intros Hm Hle Hn. eapply wp_mono; [by apply Hm| |].
  - intros ? s'' ?. by etrans.
  - intros s''. by apply waits_le.
Qed.

Lemma safe_bind {A B} n (m : PB A) (f : A → PB B) :
  safe n m → (∀ a, safe n (f a)) → safe n (m ≫= f).
Proof.
  intros Hm Hf s Hn. apply wp_bind. eapply wp_mono; [by apply Hm| |done].
  intros a s' Hle. eapply safe_at; [apply Hf|done|]. destruct Hle. lia.
Qed.

Lemma safe_ret {A} n (a : A) : safe n (mret a).
Proof. intros s _. by red. Qed.

Lemma safe_gets {A} n (f : st → A) : safe n (gets f).
Proof. intros s _. by red. Qed.

Lemma safe_res {A} n (r : res A) : safe n (lift_res r).
Proof. intros s _. by destruct r. Qed.

Lemma safe_check n b : safe n (check b).
Proof. apply safe_res. Qed.

Lemma safe_table {A} n (m : ObjectTable.M A) :
  ObjectTable.keeps_contents m → safe n (lift_table m).
Proof.
  intros Hm s _. unfold wp, lift_table. destruct (m (tables s)) as [[a tb]| |] eqn:E; [|done..].
  split_and!; [done..|]. by eapply Hm.
Qed.

Lemma safe_heap {A} n (m : LiveObject.heap LO → res (A * LiveObject.heap LO)) :
  safe n (lift_heap m).
Proof.
  intros s _. unfold wp, lift_heap. destruct (m _) as [[? ?]| |]; [|done..]. by apply le_intro.
Qed.

Lemma safe_modify n f : (∀ s, le s (f s)) → safe n (modify f).
Proof. intros Hf s _. apply Hf. Qed.

Lemma safe_new_objects n e : safe n (GetNewSharedObjectsForEvent e).
Proof. intros s _. unfold wp, GetNewSharedObjectsForEvent. by destruct (foldM _ _ _). Qed.

(** [HasNextEvent] stops at an event only when the object exists. *)
Definition next_post (s : st) (b : bool) (s' : st) : Prop :=
  le s s' ∧ if b then queue s' ≠ [] ∧ is_Some (live_object_ s') else queue s' = [] ∧ stopping = true.

Lemma has_next_event_wp evs s :
  length evs ≤ length (queue s) →
  wp (has_next_event stopping evs) s (next_post s) (waits s).
Proof.
  revert s. induction evs as [|e evs IH]; intros s Hlen; simpl in *.
  { unfold wp. destruct stopping eqn:Es; (split; [apply le_intro; simpl; auto with lia|done]). }
  assert (Hskip : wp (has_next_event stopping evs) s (next_post s) (waits s)) by (apply IH; lia).
  assert (Hstay : is_Some (live_object_ s) → next_post s true (set_queue (e :: evs) s)).
  { intros ?. split; [|done]. by apply le_intro. }
  destruct e; unfold wp; simpl;
    try (destruct (live_object_ s) eqn:El; [by apply Hstay; rewrite ?El|exact Hskip]).
  destruct (live_object_ s) eqn:El; [exact Hskip|].
  unfold mbind, PB_bind, lift_heap. destruct (LiveObject.Clone _ _) as [[l h]| |]; [|done..].
  simpl. set (s1 := set_live_object _ _).
  assert (Hle : le s s1) by (apply le_intro; simpl; rewrite ?El; auto).
  fold (wp (has_next_event stopping evs) s1 (next_post s) (waits s)).
  eapply wp_mono; [apply IH; simpl; lia| |].
  - intros b s' [? ?]. split; [by etrans|done].
  - intros s'. by apply waits_le.
Qed.

Lemma HasNextEvent_wp s : wp HasNextEvent s (next_post s) (waits s).
Proof. by apply has_next_event_wp. Qed.

Lemma HasNextEvent_safe n : safe n HasNextEvent.
Proof. intros s _. eapply wp_mono; [apply HasNextEvent_wp| |done]. by intros b s' [? ?]. Qed.

(** Taking an event leaves fewer. *)
Lemma GetNextEvent_wp s :
  wp GetNextEvent s (fun _ s' => le s s' ∧ length (queue s') < length (queue s)) (waits s).
Proof.
  unfold GetNextEvent. apply wp_bind. eapply wp_mono; [apply HasNextEvent_wp| |done].
  intros b s' [Hle Hb]. destruct b; [|done]. destruct Hb as [Hq _].
  unfold wp, mbind, PB_bind. simpl. destruct (queue s') as [|e rest] eqn:E; [done|]. simpl.
  destruct Hle as (Hlen & ? & ? & ?). rewrite E in Hlen. simpl in Hlen.
  split; [|simpl; lia]. split_and!; simpl; [lia|done..].
Qed.

Lemma GetNextEvent_safe n : safe n GetNextEvent.
Proof. intros s _. eapply wp_mono; [apply GetNextEvent_wp| |done]. by intros e s' [? ?]. Qed.

Lemma safe_next {A} n (f : CommittedEvent.t → PB A) :
  (∀ e, safe n (f e)) → safe (S n) (GetNextEvent ≫= f).
Proof.
  intros Hf s Hn. apply wp_bind. eapply wp_mono; [apply GetNextEvent_wp| |done].
  intros e s' [? ?]. eapply safe_at; [apply Hf|done|lia].
Qed.


Lemma safe_no_queue {A} n (m : PB A) : (∀ s, wp m s (fun _ => le s) (waits s)) → safe n m.
Proof. intros Hm s _. apply Hm. Qed.

Create HintDb playback.
#[local] Hint Resolve safe_ret safe_gets safe_res safe_check safe_table safe_heap safe_new_objects
  HasNextEvent_safe GetNextEvent_safe : playback.
#[local] Hint Resolve ObjectTable.kc_reference ObjectTable.kc_has ObjectTable.kc_unbound
  ObjectTable.kc_bound : playback.

(** Walks through a computation, one operation at a time. *)
Ltac safely :=
  repeat first
    [ progress auto with playback
    | apply safe_bind; [|intros ?]
    | apply safe_modify; intros ?; by apply le_intro
    | case_match ].

Lemma SetConflictDetected_safe n : safe n SetConflictDetected.
Proof. unfold SetConflictDetected. safely. Qed.

Lemma PeekNextEventType_safe n : safe n PeekNextEventType.
Proof. unfold PeekNextEventType. safely. Qed.
#[local] Hint Resolve SetConflictDetected_safe PeekNextEventType_safe : playback.

Lemma CheckNextEventType_safe n ty : safe n (CheckNextEventType ty).
Proof. unfold CheckNextEventType. safely. Qed.

Lemma ObjectMatches_safe n o r news : safe n (ObjectMatches o r news).
Proof. unfold ObjectMatches. safely. Qed.
#[local] Hint Resolve CheckNextEventType_safe ObjectMatches_safe : playback.

Lemma ValueMatches_safe n v1 v2 news : safe n (ValueMatches v1 v2 news).
Proof. unfold ValueMatches. safely. Qed.
#[local] Hint Resolve ValueMatches_safe : playback.

Lemma values_match_safe n vs1 vs2 news : safe n (values_match vs1 vs2 news).
Proof. revert vs2. induction vs1; intros [|? ?]; simpl; safely. Qed.
#[local] Hint Resolve values_match_safe : playback.

Lemma MethodCallMatches_safe n o m1 ps1 r m2 ps2 news :
  safe n (MethodCallMatches o m1 ps1 r m2 ps2 news).
Proof. unfold MethodCallMatches. safely. Qed.

Lemma check_return_safe n v1 v2 e : safe n (check_return v1 v2 e).
Proof. unfold check_return. safely. Qed.

Lemma TransactionMark_safe n ty : safe n (TransactionMark ty).
Proof. unfold TransactionMark. safely. Qed.

Lemma CreateObject_safe n name : safe n (CreateObject name).
Proof. unfold CreateObject. safely. Qed.
#[local] Hint Resolve MethodCallMatches_safe check_return_safe TransactionMark_safe
  CreateObject_safe : playback.

(** After [CheckNextEventType]: either a conflict or the end of the queue, or
    an event is waiting. *)
Lemma CheckNextEventType_wp ty s :
  wp (CheckNextEventType ty) s
    (fun b s' => le s s' ∧
       if b then queue s' ≠ [] else conflict_detected_ s' = true ∨ queue s' = [] ∧ stopping = true)
    (waits s).
Proof.
  unfold CheckNextEventType. apply wp_gets, wp_check. intros Ec.
  apply wp_bind. eapply wp_mono; [apply HasNextEvent_wp| |done].
  intros [] s1 [Hle Hb]; [|split; auto]. simpl. apply wp_bind. unfold PeekNextEventType.
  apply wp_bind. eapply wp_mono; [apply HasNextEvent_wp| |intros; by eapply waits_le].
  intros [] s2 [Hle2 Hb2]; [|done]. simpl. unfold wp, mbind, PB_bind. simpl.
  destruct (queue s2) as [|e q] eqn:Eq; [by destruct Hb2|]. simpl.
  assert (le s s2) by by etrans.
  case_bool_decide; simpl.
  - unfold SetConflictDetected. destruct treat_conflicts_as_fatal; [done|]. simpl. split; [|by left].
    etrans; [done|]. by apply le_intro.
  - split; [done|]. by rewrite Eq.
Qed.

Section calls_safe.
Context (invoke : ObjectReference → string → list Value → PB (option Value)) (n : nat).
Hypothesis invoke_safe : ∀ r name ps, safe n (invoke r name ps).
#[local] Hint Resolve invoke_safe : playback.

(** One call from the queue: the queue gets shorter, unless there is a
    conflict or it was empty. *)
Lemma DoMethodCall_wp s :
  length (queue s) ≤ n →
  wp (DoMethodCall invoke) s
    (fun _ s' => le s s' ∧
       (length (queue s') < length (queue s) ∨ conflict_detected_ s' = true ∨
        queue s' = [] ∧ stopping = true)) (waits s).
Proof.
  intros Hn. unfold DoMethodCall. apply wp_gets, wp_check. intros _.
  apply wp_gets, wp_check. intros Ec. apply wp_bind.
  eapply wp_mono; [apply CheckNextEventType_wp| |done].
  intros [] s1 [Hle1 Hq1]; [|split; auto]. cbn [negb]. apply wp_bind.
  eapply wp_mono; [apply GetNextEvent_wp| |intros; by eapply waits_le].
  intros e s2 [Hle2 Hlt]. assert (Hle : le s s2) by by etrans.
  assert (Hlt2 : length (queue s2) < length (queue s)) by (destruct Hle1; lia).
  eapply (wp_mono _ _ (fun _ => le s2) _ (waits s2)).
  - apply (safe_at n); [|done|lia]. safely.
  - intros _ s3 Hle3. split; [by etrans|]. left. destruct Hle3. lia.
  - intros s3. by apply waits_le.
Qed.

Lemma DoSelfMethodCall_safe r name ps v : safe (S n) (DoSelfMethodCall invoke r name ps v).
Proof.
  unfold DoSelfMethodCall.
  do 5 (apply safe_bind; [solve [safely]|intros ?]). case_match; [safely|].
  apply safe_next. intros e. safely.
Qed.

Lemma nested_calls_wp fuel s :
  length (queue s) ≤ n → length (queue s) < fuel →
  wp (nested_calls invoke fuel) s (fun _ => le s) (waits s).
Proof.
  revert s. induction fuel as [|fuel IH]; intros s Hn Hf; [lia|]. simpl.
  apply wp_bind. eapply wp_mono; [apply HasNextEvent_wp| |done].
  intros [] s1 [Hle1 Hb]; [|done]. cbn [negb]. apply wp_bind.
  pose proof (proj1 Hle1) as Hlen1.
  eapply wp_mono; [apply (PeekNextEventType_safe (S n)); lia| |intros; by eapply waits_le].
  intros ty s2 Hle2. assert (Hle : le s s2) by by etrans.
  case_bool_decide; [|done]. apply wp_bind. pose proof (proj1 Hle) as Hlen2.
  eapply wp_mono; [apply DoMethodCall_wp; lia| |intros; by eapply waits_le].
  intros _ s3 [Hle3 Hpr]. assert (Hle' : le s s3) by by (etrans; [exact Hle|]).
  apply wp_gets. destruct (conflict_detected_ s3) eqn:Ec; [done|].
  assert (length (queue s3) < length (queue s)).
  { destruct Hpr as [?|[?|[E ?]]]; [lia|done|]. rewrite E. simpl.
    destruct Hb as [Hb _]. destruct (queue s1); [done|]. simpl in *. lia. }
  eapply wp_mono; [apply IH; lia| |intros; by eapply waits_le].
  intros ? s4 ?. by etrans.
Qed.

Lemma DoSubMethodCall_safe r name ps v : safe (S n) (DoSubMethodCall invoke r name ps v).
Proof.
  unfold DoSubMethodCall.
  do 3 (apply safe_bind; [solve [safely]|intros ?]). case_match; [safely|].
  apply safe_next. intros e. apply safe_bind; [safely|]. intros [[callee m'] ps'].
  apply safe_bind; [safely|]. intros t. apply safe_bind; [safely|]. intros id.
  case_bool_decide; [safely|]. apply safe_bind; [safely|]. intros news.
  apply safe_bind; [safely|]. intros b. case_match; [safely|].
  intros s Hs. apply wp_gets, wp_bind.
  eapply wp_mono; [apply nested_calls_wp; lia| |done].
  intros c s1 Hle1. apply (safe_at n); [safely|done|destruct Hle1; lia].
Qed.

Lemma CallMethod_safe r name ps : safe (S n) (CallMethod invoke r name ps).
Proof.
  pose proof DoSelfMethodCall_safe. pose proof DoSubMethodCall_safe.
  unfold CallMethod. safely.
Qed.

Lemma run_prog_safe node p : safe (S n) (run_prog invoke node p).
Proof. pose proof CallMethod_safe. unfold ObjectsAreIdentical. induction p; simpl; safely; intros s Hs; by destruct why. Qed.
End calls_safe.

(** The nesting of calls is bounded by the events that are left. *)
Lemma invoke_method_safe n r name ps : safe n (invoke_method n r name ps).
Proof.
  revert r name ps. induction n as [|n IH]; intros r name ps; [intros s Hs; lia|].
  simpl. pose proof run_prog_safe. safely.
Qed.


Lemma replay_loop_wp fuel n s :
  length (queue s) < fuel → length (queue s) ≤ n →
  wp (replay_loop fuel n) s (fun _ => le s) (waits s).
Proof.
  revert s. induction fuel as [|fuel IH]; intros s Hf Hn; [lia|]. simpl.
  apply wp_gets. destruct (conflict_detected_ s) eqn:Ec; [done|].
  apply wp_bind. eapply wp_mono; [apply CheckNextEventType_wp| |done].
  intros [] s1 [Hle1 Hq]; [|done]. cbn [negb]. apply wp_bind. pose proof (proj1 Hle1) as Hlen1.
  eapply wp_mono; [apply (DoMethodCall_wp _ n); [apply invoke_method_safe|lia]| |].
  2: { intros. by eapply waits_le. }
  intros _ s2 [Hle2 Hpr]. assert (Hle : le s s2) by by etrans.
  destruct fuel as [|fuel']; [destruct (queue s1); simpl in *; [done|lia]|].
  destruct (conflict_detected_ s2) eqn:Ec2.
  { simpl. apply wp_gets. by rewrite Ec2. }
  assert (length (queue s2) < length (queue s)).
  { destruct Hpr as [?|[?|[E _]]]; [lia|congruence|]. rewrite E. simpl.
    destruct (queue s1); [done|]. simpl in *. lia. }
  eapply wp_mono; [apply IH; lia| |intros; by eapply waits_le].
  intros ? s3 ?. by etrans.
Qed.

Lemma discard_loop_wp fuel s :
  length (queue s) < fuel →
  wp (discard_loop fuel) s (fun _ s' => le s s' ∧ queue s' = [] ∧ stopping = true) (waits s).
Proof.
  revert s. induction fuel as [|fuel IH]; intros s Hf; [lia|]. simpl.
  apply wp_bind. eapply wp_mono; [apply HasNextEvent_wp| |done].
  intros [] s1 [Hle1 Hb]; [|split; [done|done]]. cbn [negb]. apply wp_bind.
  eapply wp_mono; [apply GetNextEvent_wp| |intros; by eapply waits_le].
  intros _ s2 [Hle2 Hlt]. assert (Hle : le s s2) by by etrans. pose proof (proj1 Hle1).
  eapply wp_mono; [apply IH; lia| |intros; by eapply waits_le].
  intros ? s3 [? ?]. split; [by etrans|done].
Qed.

Lemma ReplayEvents_wp s :
  wp ReplayEvents s
    (fun _ s' => le s s' ∧ queue s' = [] ∧ stopping = true ∧ unbound_object_references_ s' = ∅)
    (waits s).
Proof.
  unfold ReplayEvents. apply wp_gets, wp_bind.
  eapply wp_mono; [apply replay_loop_wp; lia| |done].
  intros ? s1 Hle1. apply wp_bind. pose proof (proj1 Hle1).
  eapply wp_mono; [apply discard_loop_wp; lia| |intros ?; by apply waits_le].
  intros ? s2 (Hle2 & Hq & Hs). unfold wp. simpl. split; [|done].
  etrans; [exact Hle1|]. etrans; [exact Hle2|]. by apply le_intro.
Qed.
End playback.
Arguments Val {LO C A}.
Arguments Paused {LO C A}.
Arguments Aborted {LO C A}.
Arguments NoFuel {LO C A}.

(** ** The interface of the history *)
Section thread.
Context {LO C : Type} `{LocalObjectMethods LO}.
Context (GenerateUuid : nat → Uuid) (GeneratePredictableUuid : Uuid → string → Uuid).
Context (treat_conflicts_as_fatal : bool) (shared_object_ : Uuid).

(** What a playback thread shares with the peer: the tables, and the map that
    collects the references bound to the objects of a replayed transaction. *)
Definition world : Type := ObjectTable.t C (LiveObject.heap LO) * gmap Uuid ObjectReference.

(** [Start] with [live_object], and a queue. *)
Definition Start (w : world) (live_object : option LiveObjectPtr) (evs : list CommittedEvent.t)
    : st (LO := LO) (C := C) :=
  {| tables := w.1; new_object_references_ := w.2; queue := evs; live_object_ := live_object;
     unbound_object_references_ := ∅; conflict_detected_ := false |}.

(** A thread that waits: how it was started, the events it was given, and its
    state. *)
Record thread := {
  started : world;
  given : list CommittedEvent.t;
  now : st (LO := LO) (C := C);
}.

Definition replay (stopping : bool) (w : world) (evs : list CommittedEvent.t) :=
  ReplayEvents GenerateUuid GeneratePredictableUuid treat_conflicts_as_fatal shared_object_ stopping
    (Start w None evs).

(** [QueueEvent] on each event, then [FlushEvents]: wait for PAUSED. *)
Definition QueueEventsAndFlush (evs : list CommittedEvent.t) (p : thread) : res thread :=
  match replay false (started p) (given p ++ evs) with
  | Paused s => Ok {| started := started p; given := given p ++ evs; now := s |}
  | Aborted false => Fatal
  | _ => Undef
  end.

(** [Stop], then [live_object]. *)
Definition Stop (p : thread) : res (option LiveObjectPtr * world) :=
  match replay true (started p) (given p) with
  | Val _ s => Ok (live_object_ s, (tables s, new_object_references_ s))
  | Aborted false => Fatal
  | _ => Undef
  end.

#[global] Instance playback_thread : Playback world thread := {
  PStart w := {| started := w; given := []; now := Start w None [] |};
  PRun := QueueEventsAndFlush;
  PConflict p := conflict_detected_ (now p);
  PStop := Stop;
}.

(** A replay leaves the contents of the shared objects alone. *)
Definition world_kept (w w' : world) : Prop := ObjectTable.contents_kept w.1 w'.1.

#[global] Instance playback_thread_frame : PlaybackFrame world thread world_kept.
Proof.
  refine {| frame_inv w p := started p = w |}.
  - done.
  - intros w p evs p' <- Hr. simpl in Hr. unfold QueueEventsAndFlush in Hr.
    destruct (replay _ _ _) as [? ?| |[]|]; simplify_eq. done.
  - intros w p lo w' <- Hs. simpl in Hs. unfold Stop, replay in Hs.
    pose proof (ReplayEvents_wp GenerateUuid GeneratePredictableUuid treat_conflicts_as_fatal
      shared_object_ true (Start (started p) None (given p))) as Hwp. unfold wp in Hwp.
    destruct (ReplayEvents _ _ _ _ _ _) as [? s| |[]|]; simplify_eq.
    by destruct Hwp as ((_ & _ & _ & ?) & _).
Qed.

(** C37 (liveness). Whatever the methods of the object do and whatever events it
    is given, the replay thread neither runs forever nor gets stuck: unless a
    [CHECK] fails, after [FlushEvents] it has consumed every event and waits,
    and [Stop] lets it finish with an empty queue and no unbound references.
    (The bound on the nesting of calls is never reached.) *)
Theorem replay_consumes_events w evs :
  match replay false w evs with
  | Paused s => queue s = []
  | Aborted _ => True
  | Val _ _ | NoFuel => False
  end ∧
  match replay true w evs with
  | Val _ s => queue s = [] ∧ unbound_object_references_ s = ∅
  | Aborted _ => True
  | Paused _ | NoFuel => False
  end.
Proof.
  split; unfold replay.
  - pose proof (ReplayEvents_wp GenerateUuid GeneratePredictableUuid treat_conflicts_as_fatal
      shared_object_ false (Start w None evs)) as Hwp. unfold wp in Hwp.
    destruct (ReplayEvents _ _ _ _ _ _); try done.
    + by destruct Hwp as (_ & _ & ? & _).
    + by destruct Hwp as (_ & ? & _).
  - pose proof (ReplayEvents_wp GenerateUuid GeneratePredictableUuid treat_conflicts_as_fatal
      shared_object_ true (Start w None evs)) as Hwp. unfold wp in Hwp.
    destruct (ReplayEvents _ _ _ _ _ _); try done.
    + by destruct Hwp as (_ & ? & _ & ?).
    + by destruct Hwp as (_ & _ & ?).
Qed.
End thread.
End PlaybackThread.
