(* ===== verification/PlaybackSync.v ===== *)
(** * The threads of a replay

    The synchronisation in [engine/playback_thread.cc] between the thread that
    calls [Start], [QueueEvent], [FlushEvents] and [Stop] and the replay thread
    that takes the events, through [state_] (a [StateVariable]) and the event
    queue.  File [PlaybackThread] describes a replay by its outcome; here the two
    threads run interleaved, every critical section being one step, and
    [flush_waits_for_replay] shows that what the caller sees does not depend on the
    schedule.  What the replay thread does with an event is a parameter. *)
From S2P Require Import Prelude Queues Events PlaybackThread.
From stdpp Require Import base tactics list gmap relations.
From Stdlib Require Import ZArith Lia.
#[local] Open Scope Z_scope.

Module PlaybackSync.

(** ** [state_] *)
Definition NOT_STARTED : Z := 0x1.
Definition STARTING : Z := 0x2.
Definition RUNNING : Z := 0x4.
Definition PAUSED : Z := 0x8.
Definition STOPPING : Z := 0x10.
Definition STOPPED : Z := 0x20.

Definition NewState : res StateVariable.t :=
  v ← StateVariable.New NOT_STARTED;
  v ← StateVariable.AddStateTransition NOT_STARTED STARTING v;
  v ← StateVariable.AddStateTransition STARTING RUNNING v;
  v ← StateVariable.AddStateTransition RUNNING PAUSED v;
  v ← StateVariable.AddStateTransition PAUSED RUNNING v;
  v ← StateVariable.AddStateTransition PAUSED STOPPING v;
  StateVariable.AddStateTransition STOPPING STOPPED v.

Definition ChangeRunningToPaused (v : StateVariable.t) : res StateVariable.t :=
  b ← StateVariable.MatchesStateMask_Locked RUNNING v;
  if (b : bool) then StateVariable.ChangeState_Locked PAUSED v else Ok v.

Definition ChangePausedToRunning (v : StateVariable.t) : res StateVariable.t :=
  b ← StateVariable.MatchesStateMask_Locked PAUSED v;
  if (b : bool) then StateVariable.ChangeState_Locked RUNNING v else Ok v.

(** [ChangeToPausedAndWaitForRunning] up to the wait, which releases the lock. *)
Definition ChangeToPaused (v : StateVariable.t) : res StateVariable.t :=
  b ← StateVariable.MatchesStateMask_Locked RUNNING v;
  if (b : bool) then StateVariable.ChangeState_Locked PAUSED v else Ok v.
Definition WaitForRunning (v : StateVariable.t) : res (blocking unit) :=
  StateVariable.WaitForState_Locked (Z.lor RUNNING STOPPING) v.

Definition WaitForPausedAndChangeToStopping (v : StateVariable.t) : res (blocking StateVariable.t) :=
  w ← StateVariable.WaitForState_Locked PAUSED v;
  match w with
  | Blocked => Ok Blocked
  | Done _ => v ← StateVariable.ChangeState_Locked STOPPING v; Ok (Done v)
  end.

(** [PlaybackThread::~PlaybackThread]. *)
Definition Destroy (v : StateVariable.t) : res unit :=
  StateVariable.CheckState (Z.lor NOT_STARTED STOPPED) v.

(** ** The two threads *)
Inductive call := CallQueueEvent (e : CommittedEvent.t) | CallFlushEvents.

(** Where the calling thread is. *)
Inductive caller_pc :=
| Start_1                                (* [state_.ChangeState(STARTING)] *)
| Start_2                                (* [pthread_create] *)
| Start_3                                (* [state_.ChangeState(RUNNING)] *)
| Calls                                  (* between calls *)
| QueueEvent_2 (e : CommittedEvent.t)    (* [event_queue_.QueueEvent(event)] *)
| FlushEvents_2                          (* [event_queue_.SetEndOfSequence()] *)
| FlushEvents_3                          (* [state_.WaitForState(PAUSED)] *)
| Stop_2                                 (* [event_queue_.SetEndOfSequence()] *)
| Stop_3                                 (* [WaitForPausedAndChangeToStopping] *)
| Stop_4                                 (* [pthread_join] *)
| Stop_5                                 (* [state_.ChangeState(STOPPED)] *)
| Returned.

(** Where the replay thread is; [HasNextEvent_*] are the steps of [HasNextEvent]. *)
Inductive replay_pc :=
| NotCreated
| WaitForStart                           (* [state_.WaitForNotState(NOT_STARTED | STARTING)] *)
| Working                                (* between calls of [HasNextEvent] *)
| HasNextEvent_1                         (* [event_queue_.HasNext()] *)
| HasNextEvent_2                         (* [ChangeToPausedAndWaitForRunning] *)
| HasNextEvent_3                         (* its wait *)
| Ended                                  (* [HasNextEvent] returned false *)
| Exited.

Section threads.
(** The replay thread's own state, and what it does with an event that it uses: the
    creation of an object that it does not have yet, or any other event of an
    object that it has. *)
Context {L : Type} (replay_event : L → CommittedEvent.t → L).

Record local := mkLocal { has_live_object : bool; own : L }.
Definition take_event (l : local) (e : CommittedEvent.t) : local :=
  if bool_decide (CommittedEvent.type e = CommittedEvent.OBJECT_CREATION) then
    if has_live_object l then l else mkLocal true (replay_event (own l) e)
  else if has_live_object l then mkLocal true (replay_event (own l) e)
  else l.

Record sys := mkSys {
  state_ : StateVariable.t;
  event_queue_ : EventQueue.t;
  caller : caller_pc;
  todo : list call;
  replay : replay_pc;
  replay_local : local;
  (** what the caller has queued *)
  given : list CommittedEvent.t;
}.

Definition with_state (v : StateVariable.t) (s : sys) : sys :=
  mkSys v (event_queue_ s) (caller s) (todo s) (replay s) (replay_local s) (given s).
Definition with_queue (q : EventQueue.t) (s : sys) : sys :=
  mkSys (state_ s) q (caller s) (todo s) (replay s) (replay_local s) (given s).
Definition caller_at (pc : caller_pc) (s : sys) : sys :=
  mkSys (state_ s) (event_queue_ s) pc (todo s) (replay s) (replay_local s) (given s).
Definition replay_at (pc : replay_pc) (s : sys) : sys :=
  mkSys (state_ s) (event_queue_ s) (caller s) (todo s) pc (replay_local s) (given s).
Definition with_todo (cs : list call) (s : sys) : sys :=
  mkSys (state_ s) (event_queue_ s) (caller s) cs (replay s) (replay_local s) (given s).
Definition with_local (l : local) (s : sys) : sys :=
  mkSys (state_ s) (event_queue_ s) (caller s) (todo s) (replay s) l (given s).
Definition with_given (es : list CommittedEvent.t) (s : sys) : sys :=
  mkSys (state_ s) (event_queue_ s) (caller s) (todo s) (replay s) (replay_local s) es.

(** One step of the calling thread, which makes the calls [todo] between [Start]
    and [Stop]. *)
Definition caller_step (s : sys) : res (blocking sys) :=
  match caller s with
  | Start_1 => v ← StateVariable.ChangeState STARTING (state_ s); Ok (Done (caller_at Start_2 (with_state v s)))
  | Start_2 => Ok (Done (caller_at Start_3 (replay_at WaitForStart s)))
  | Start_3 => v ← StateVariable.ChangeState RUNNING (state_ s); Ok (Done (caller_at Calls (with_state v s)))
  | Calls =>
      '(_, v) ← StateVariable.Mutate ChangePausedToRunning (state_ s);
      let s := with_state v s in
      Ok (Done (match todo s with
                | CallQueueEvent e :: cs => caller_at (QueueEvent_2 e) (with_todo cs s)
                | CallFlushEvents :: cs => caller_at FlushEvents_2 (with_todo cs s)
                | [] => caller_at Stop_2 s
                end))
  | QueueEvent_2 e =>
      Ok (Done (caller_at Calls (with_given (given s ++ [e]) (with_queue (EventQueue.QueueEvent e (event_queue_ s)) s))))
  | FlushEvents_2 => Ok (Done (caller_at FlushEvents_3 (with_queue (EventQueue.SetEndOfSequence (event_queue_ s)) s)))
  | FlushEvents_3 =>
      w ← StateVariable.WaitForState PAUSED (state_ s);
      Ok (match w with Done _ => Done (caller_at Calls s) | Blocked => Blocked end)
  | Stop_2 => Ok (Done (caller_at Stop_3 (with_queue (EventQueue.SetEndOfSequence (event_queue_ s)) s)))
  | Stop_3 =>
      w ← WaitForPausedAndChangeToStopping (state_ s);
      Ok (match w with Done v => Done (caller_at Stop_4 (with_state v s)) | Blocked => Blocked end)
  | Stop_4 => Ok (match replay s with Exited => Done (caller_at Stop_5 s) | _ => Blocked end)
  | Stop_5 => v ← StateVariable.ChangeState STOPPED (state_ s); Ok (Done (caller_at Returned (with_state v s)))
  | Returned => Ok Blocked
  end.

(** [event_queue_.GetNext()]: the event is used or discarded. *)
Definition take_next (pc : replay_pc) (s : sys) : res (blocking sys) :=
  match EventQueue.GetNext (event_queue_ s) with
  | None => Ok Blocked
  | Some (r, q) => e ← r; Ok (Done (replay_at pc (with_local (take_event (replay_local s) e) (with_queue q s))))
  end.

(** One step of the replay thread.  Between events it may call [HasNextEvent] (also
    again, which changes nothing) or, if it has an event, take it; after
    [HasNextEvent] has returned false it may call it again or return. *)
Definition replay_step (again : bool) (s : sys) : res (blocking sys) :=
  match replay s with
  | NotCreated | Exited => Ok Blocked
  | WaitForStart =>
      w ← StateVariable.WaitForNotState (Z.lor NOT_STARTED STARTING) (state_ s);
      Ok (match w with Done _ => Done (replay_at HasNextEvent_1 s) | Blocked => Blocked end)
  | Working => if again then Ok (Done (replay_at HasNextEvent_1 s)) else take_next HasNextEvent_1 s
  | HasNextEvent_1 =>
      match EventQueue.HasNext (event_queue_ s) with
      | None => Ok Blocked
      | Some (false, q) => Ok (Done (replay_at HasNextEvent_2 (with_queue q s)))
      | Some (true, q) =>
          e ← deref (EventQueue.next_event_ q);
          let s := with_queue q s in
          if negb (bool_decide (CommittedEvent.type e = CommittedEvent.OBJECT_CREATION)) &&
             has_live_object (replay_local s)
          then Ok (Done (replay_at Working s))
          else take_next HasNextEvent_1 s
      end
  | HasNextEvent_2 =>
      v ← ChangeToPaused (state_ s); Ok (Done (replay_at HasNextEvent_3 (with_state v s)))
  | HasNextEvent_3 =>
      w ← WaitForRunning (state_ s);
      match w with
      | Blocked => Ok Blocked
      | Done _ =>
          if StateVariable.current_state_ (state_ s) =? STOPPING then Ok (Done (replay_at Ended s))
          else q ← EventQueue.MoveToNextSequence (event_queue_ s);
               Ok (Done (replay_at HasNextEvent_1 (with_queue q s)))
      end
  | Ended =>
      if again then Ok (Done (replay_at HasNextEvent_1 s))
      else '(_, v) ← StateVariable.Mutate ChangeRunningToPaused (state_ s);
           Ok (Done (replay_at Exited (with_state v s)))
  end.

Inductive step (s : sys) : sys → Prop :=
| step_caller s' : caller_step s = Ok (Done s') → step s s'
| step_replay again s' : replay_step again s = Ok (Done s') → step s s'.

(** [l] says whether [Start] is given a live object. *)
Definition initial (v : StateVariable.t) (calls : list call) (l : local) : sys :=
  mkSys v EventQueue.New Start_1 calls NotCreated l [].

(** ** The phases of a replay *)
Definition transitions : gset (Z * Z) :=
  match NewState with Ok v => StateVariable.state_transitions_ v | _ => ∅ end.
Definition state_at (st : Z) : StateVariable.t := StateVariable.mk transitions st.

(** The replay thread is in, or about to enter, a sequence of events that the
    caller has not ended. *)
Definition in_sequence (r : replay_pc) (q : EventQueue.t) : Prop :=
  (EventQueue.end_of_sequence_ q = false ∧
   ((r = WaitForStart ∧ EventQueue.next_event_ q = None) ∨ r = HasNextEvent_1 ∨
    (r = Working ∧ is_Some (EventQueue.next_event_ q)))) ∨
  (EventQueue.end_of_sequence_ q = true ∧ r = HasNextEvent_3 ∧ EventQueue.next_event_ q = None).

Definition ended_queue : EventQueue.t :=
  {| EventQueue.events_ := []; EventQueue.next_event_ := None; EventQueue.end_of_sequence_ := true |}.

Inductive phase : Z → caller_pc → replay_pc → EventQueue.t → Prop :=
| phase_start_1 : phase NOT_STARTED Start_1 NotCreated EventQueue.New
| phase_start_2 : phase STARTING Start_2 NotCreated EventQueue.New
| phase_start_3 : phase STARTING Start_3 WaitForStart EventQueue.New
| phase_open c r q :
    (c = Calls ∨ (∃ e, c = QueueEvent_2 e) ∨ c = FlushEvents_2 ∨ c = Stop_2) →
    Forall is_Some (EventQueue.events_ q) → in_sequence r q → phase RUNNING c r q
| phase_ending c r q es :
    (c = FlushEvents_3 ∨ c = Stop_3) → EventQueue.events_ q = es ++ [None] → Forall is_Some es →
    in_sequence r q → phase RUNNING c r q
| phase_ended c : (c = FlushEvents_3 ∨ c = Stop_3) → phase RUNNING c HasNextEvent_2 ended_queue
| phase_paused c : (c = Calls ∨ c = FlushEvents_3 ∨ c = Stop_3) → phase PAUSED c HasNextEvent_3 ended_queue
| phase_stopping r :
    r = HasNextEvent_1 ∨ r = HasNextEvent_2 ∨ r = HasNextEvent_3 ∨ r = Ended ∨ r = Exited →
    phase STOPPING Stop_4 r ended_queue
| phase_joined : phase STOPPING Stop_5 Exited ended_queue
| phase_stopped : phase STOPPED Returned Exited ended_queue.

(** The events that the queue holds. *)
Definition queued (q : EventQueue.t) : list CommittedEvent.t :=
  option_list (EventQueue.next_event_ q) ++ omap id (EventQueue.events_ q).

Definition accounted (l0 : local) (s : sys) : Prop :=
  ∃ taken, given s = taken ++ queued (event_queue_ s) ∧ replay_local s = foldl take_event l0 taken.

Record inv (l0 : local) (s : sys) : Prop := {
  inv_phase : ∃ st, state_ s = state_at st ∧ phase st (caller s) (replay s) (event_queue_ s);
  inv_taken : accounted l0 s;
}.

Lemma change_state st st' :
  StateVariable.ChangeState_Locked st' (state_at st) =
    if bool_decide ((st, st') ∈ transitions) then Ok (state_at st') else Fatal.
Proof. unfold StateVariable.ChangeState_Locked, state_at. simpl. by case_bool_decide. Qed.

Lemma state_at_inj st st' : state_at st = state_at st' → st = st'.
Proof. by injection 1. Qed.

(** The caller. *)
Lemma caller_step_inv l0 s :
  inv l0 s → ∃ b, caller_step s = Ok b ∧ ∀ s', b = Done s' → inv l0 s'.
Proof.
  intros [(st & Hst & Hph) (taken & Hg & Hl)]. destruct s as [v q c cs r l g]. simpl in *. subst v.
  inversion Hph as [| | |c' r' q' Hc Hev Hseq|c' r' q' es Hc Hes Hev Hseq|c' Hc|c' Hc|r' Hr| |]; subst;
    unfold caller_step; cbn [caller].
  - eexists. split; [reflexivity|]. intros s' [= <-]. split; [|by exists taken].
    exists STARTING. split; [done|]. constructor.
  - eexists. split; [reflexivity|]. intros s' [= <-]. split; [|by exists taken].
    exists STARTING. split; [done|]. constructor.
  - eexists. split; [reflexivity|]. intros s' [= <-]. split; [|by exists taken].
    exists RUNNING. split; [done|]. apply phase_open; [by left|constructor|]. left. split; [done|]. by left.
  - destruct Hc as [->|[[e ->]|[->| ->]]].
    + eexists. split; [reflexivity|]. intros s' [= <-]. split; [|destruct cs as [|[] ?]; by exists taken].
      exists RUNNING. destruct cs as [|[e|] cs]; (split; [done|]); apply phase_open; simpl; eauto.
    + eexists. split; [reflexivity|]. intros s' [= <-]. split.
      * exists RUNNING. split; [done|]. apply phase_open; simpl; [by left|by apply Forall_app; split; [|repeat constructor]|].
        done.
      * exists taken. simpl. split; [|done]. unfold queued. simpl. rewrite omap_app. simpl.
        by rewrite <- !app_assoc.
    + eexists. split; [reflexivity|]. intros s' [= <-]. split.
      * exists RUNNING. split; [done|]. eapply phase_ending; simpl; [by left|done|done|done].
      * exists taken. simpl. split; [|done]. unfold queued in *. simpl. by rewrite omap_app, app_nil_r.
    + eexists. split; [reflexivity|]. intros s' [= <-]. split.
      * exists RUNNING. split; [done|]. eapply phase_ending; simpl; [by right|done|done|done].
      * exists taken. simpl. split; [|done]. unfold queued in *. simpl. by rewrite omap_app, app_nil_r.
  - destruct Hc as [-> | ->]; (eexists; split; [reflexivity|done]).
  - destruct Hc as [-> | ->]; (eexists; split; [reflexivity|done]).
  - destruct Hc as [->|[->| ->]].
    + eexists. split; [reflexivity|]. intros s' [= <-]. split; [|destruct cs as [|[] ?]; by exists taken].
      exists RUNNING. destruct cs as [|[e|] cs]; (split; [done|]); apply phase_open; simpl; eauto; right; done.
    + eexists. split; [reflexivity|]. intros s' [= <-]. split; [|by exists taken].
      exists PAUSED. split; [done|]. apply phase_paused. by left.
    + eexists. split; [reflexivity|]. intros s' [= <-]. split; [|by exists taken].
      exists STOPPING. split; [done|]. apply phase_stopping. auto.
  - destruct Hr as [->|[->|[->|[->| ->]]]]; (eexists; split; [reflexivity|]); intros s' Hs'; simplify_eq/=.
    split; [|by exists taken]. exists STOPPING. split; [done|]. constructor.
  - eexists. split; [reflexivity|]. intros s' [= <-]. split; [|by exists taken].
    exists STOPPED. split; [done|]. constructor.
  - eexists. split; [reflexivity|done].
Qed.

(** The phases in which the replay thread takes events. *)
Lemma in_sequence_phase st c r q :
  phase st c r q → st = RUNNING → in_sequence r q →
  ∀ r' q', in_sequence r' q' → EventQueue.events_ q' = EventQueue.events_ q ∨
    (∃ e, EventQueue.events_ q = Some e :: EventQueue.events_ q') → phase st c r' q'.
Proof.
  intros Hph Hst Hseq r' q' Hseq' Hev'.
  inversion Hph as [| | |c' r0 q0 Hc Hev _|c' r0 q0 es Hc Hes Hev _|c' Hc|c' Hc|r0 Hr| |]; subst; try done.
  - apply phase_open; [done| |done]. destruct Hev' as [->|[e E]]; [done|]. rewrite E in Hev. by inversion Hev.
  - destruct Hev' as [E|[e E]]; [by eapply phase_ending; [|rewrite E| |]|].
    rewrite Hes in E. destruct es as [|x es]; [done|]. injection E as -> E.
    eapply phase_ending; [done|by rewrite <- E|by inversion Hev|done].
  - by destruct Hseq as [[? [[]|[]]]|[? []]].
Qed.

(** Taking the next event. *)
Lemma take_next_inv l0 s e c :
  inv l0 s → state_ s = state_at RUNNING → in_sequence (replay s) (event_queue_ s) → c = HasNextEvent_1 →
  EventQueue.next_event_ (event_queue_ s) = Some e → EventQueue.end_of_sequence_ (event_queue_ s) = false →
  ∃ s', take_next c s = Ok (Done s') ∧ inv l0 s'.
Proof.
  intros [(st & Hst & Hph) (taken & Hg & Hl)] Hrun Hseq -> Hnext Hend.
  destruct s as [v q c cs r l g]. destruct q as [evs nxt eos]. simpl in *. subst nxt eos v g l.
  assert (st = RUNNING) as -> by (by injection Hrun).
  unfold take_next. simpl. eexists. split; [reflexivity|]. split; simpl.
  - exists RUNNING. split; [done|]. eapply (in_sequence_phase _ _ _ _ Hph); [done|done| |by left].
    left. split; [done|]. right. by left.
  - exists (taken ++ [e]). simpl. rewrite foldl_app. split; [|done]. unfold queued. simpl. by rewrite <- app_assoc.
Qed.

(** The first step of [HasNextEvent], in a sequence. *)
Lemma has_next_inv l0 s :
  inv l0 s → state_ s = state_at RUNNING → replay s = HasNextEvent_1 →
  EventQueue.end_of_sequence_ (event_queue_ s) = false →
  ∃ b, replay_step false s = Ok b ∧ ∀ s', b = Done s' → inv l0 s'.
Proof.
  intros Hinv Hrun Hr Hend. pose proof Hinv as [(st & Hst & Hph) (taken & Hg & Hl)].
  assert (st = RUNNING) as -> by (apply state_at_inj; congruence).
  assert (in_sequence HasNextEvent_1 (event_queue_ s)) as Hseq by (left; split; [done|right; by left]).
  assert (∀ q e, EventQueue.next_event_ q = Some e → EventQueue.end_of_sequence_ q = false → inv l0 (with_queue q s) →
    ∃ b, (if negb (bool_decide (CommittedEvent.type e = CommittedEvent.OBJECT_CREATION)) && has_live_object (replay_local s)
          then Ok (Done (replay_at Working (with_queue q s))) else take_next HasNextEvent_1 (with_queue q s)) = Ok b ∧
    ∀ s', b = Done s' → inv l0 s') as Hready.
  { intros q e Hn He Hinvq. destruct (negb _ && _).
    - eexists. split; [done|]. intros s' [= <-]. destruct Hinvq as [(st & Hst' & Hphq) Htk]. split; [|done].
      exists st. split; [done|]. simpl in *. rewrite Hr in Hphq. assert (st = RUNNING) as -> by (apply state_at_inj; congruence).
      eapply (in_sequence_phase _ _ _ _ Hphq); [done|left; split; [done|right; by left]| |by left].
      left. split; [done|]. right. right. by split.
    - destruct (take_next_inv l0 (with_queue q s) e HasNextEvent_1) as (s' & -> & Hs'); try done.
      + simpl. rewrite Hr. left. split; [done|]. right. by left.
      + eexists. split; [done|]. by intros ? [= <-]. }
  destruct (event_queue_ s) as [evs nxt eos] eqn:Eq. simpl in *. subst eos.
  unfold replay_step. rewrite Hr, Eq. unfold EventQueue.HasNext. simpl.
  destruct nxt as [e|]; [|destruct evs as [|[e|] evs]]; simpl.
  - apply Hready; [done..|]. split; simpl; [|by exists taken]. exists RUNNING. by rewrite Hr in *.
  - eexists. split; [done|]. done.
  - apply Hready; [done..|]. split; simpl.
    + exists RUNNING. split; [done|]. rewrite Hr in *. eapply (in_sequence_phase _ _ _ _ Hph); [done|done| |right; by exists e].
      left. split; [done|]. right. by left.
    + exists taken. simpl. by rewrite Hg.
  - eexists. split; [done|]. intros s' [= <-]. split; simpl.
    + exists RUNNING. split; [done|].
      inversion Hph as [| | |c' r0 q0 Hc Hev _|c' r0 q0 es Hc Hes Hev _|c' Hc|c' Hc|r0 Hr'| |]; subst; simpl in *; try done.
      * apply Forall_cons in Hev as [[? ?] _]. discriminate.
      * destruct es as [|x es]; [injection Hes as ->; by apply phase_ended|]. injection Hes as <- _.
        apply Forall_cons in Hev as [[? ?] _]. discriminate.
    + exists taken. simpl. by rewrite Hg.
Qed.

(** The replay thread, in a sequence. *)
Lemma replay_running_inv l0 s again :
  inv l0 s → state_ s = state_at RUNNING → in_sequence (replay s) (event_queue_ s) →
  ∃ b, replay_step again s = Ok b ∧ ∀ s', b = Done s' → inv l0 s'.
Proof.
  intros Hinv Hrun Hseq. pose proof Hinv as [(st & Hst & Hph) Htk].
  assert (st = RUNNING) as -> by (apply state_at_inj; congruence).
  assert (∀ r' q', in_sequence r' q' → EventQueue.events_ q' = EventQueue.events_ (event_queue_ s) →
    EventQueue.next_event_ q' = EventQueue.next_event_ (event_queue_ s) → inv l0 (replay_at r' (with_queue q' s))) as Hmove.
  { intros r' q' Hseq' He Hn. split.
    - exists RUNNING. split; [done|]. simpl. eapply (in_sequence_phase _ _ _ _ Hph); auto.
    - destruct Htk as (taken & Hg & Hl). exists taken. simpl. split; [|done]. rewrite Hg. unfold queued. by rewrite He, Hn. }
  destruct Hseq as [[Hend [[Hr Hn]|[Hr|[Hr [e He]]]]]|[Hend [Hr Hn]]].
  - unfold replay_step. rewrite Hr, Hrun. eexists. split; [reflexivity|]. intros s' [= <-].
    destruct s as [v q c cs r l g]; simpl in *. apply (Hmove HasNextEvent_1 q); [|done..]. left. split; [done|]. right. by left.
  - destruct (has_next_inv l0 s Hinv Hrun Hr Hend) as (b & Hb & Hs'). exists b. split; [|done].
    revert Hb. unfold replay_step. by rewrite Hr.
  - destruct again.
    + unfold replay_step. rewrite Hr. eexists. split; [reflexivity|]. intros s' [= <-].
      destruct s as [v q c cs r l g]; simpl in *. apply (Hmove HasNextEvent_1 q); [|done..]. left. split; [done|]. right. by left.
    + destruct (take_next_inv l0 s e HasNextEvent_1) as (s' & Hs' & Hi); try done.
      { left. split; [done|]. right. right. split; [done|by eexists]. }
      exists (Done s'). split; [unfold replay_step; by rewrite Hr|]. by intros ? [= <-].
  - unfold replay_step. rewrite Hr, Hrun. simpl. unfold EventQueue.MoveToNextSequence. rewrite Hn, Hend.
    eexists. split; [reflexivity|]. intros s' [= <-]. apply Hmove; [|done|done].
    left. split; [done|]. right. by left.
Qed.

Lemma replay_step_inv l0 s again :
  inv l0 s → ∃ b, replay_step again s = Ok b ∧ ∀ s', b = Done s' → inv l0 s'.
Proof.
  intros Hinv. pose proof Hinv as [(st & Hst & Hph) (taken & Hg & Hl)].
  pose proof (replay_running_inv l0 s again Hinv) as Hrun. rewrite Hst in Hrun.
  destruct s as [v q c cs r l g]. simpl in *. subst v g l.
  inversion Hph as [| | |c' r' q' Hc Hev Hseq|c' r' q' es Hc Hes Hev Hseq|c' Hc|c' Hc|r' Hr| |]; subst; simpl;
    try (eexists; split; [reflexivity|done]).
  - by apply Hrun.
  - by apply Hrun.
  - eexists. split; [reflexivity|]. intros s' [= <-]. split; [|by exists taken].
    exists PAUSED. split; [done|]. apply phase_paused. auto.
  - destruct Hr as [->|[->|[->|[->| ->]]]]; simpl;
      [| | |destruct again|by eexists; split; [reflexivity|]];
      (eexists; split; [reflexivity|]; intros s' [= <-]; split; [|by exists taken];
       exists STOPPING; split; [done|]; apply phase_stopping; auto 6).
Qed.

(** ** The calls that were made *)
Definition events_of (cs : list call) : list CommittedEvent.t :=
  omap (fun c => match c with CallQueueEvent e => Some e | CallFlushEvents => None end) cs.

Definition in_hand (c : caller_pc) : list CommittedEvent.t := match c with QueueEvent_2 e => [e] | _ => [] end.
Definition after_calls (c : caller_pc) : bool :=
  match c with Stop_2 | Stop_3 | Stop_4 | Stop_5 | Returned => true | _ => false end.

Definition made (calls : list call) (s : sys) : Prop :=
  events_of calls = given s ++ in_hand (caller s) ++ events_of (todo s) ∧
  (after_calls (caller s) = true → todo s = []).

Lemma made_step calls s s' : made calls s → step s s' → made calls s'.
Proof.
  intros [He Ha] Hstep. destruct s as [v q c cs r l g]. simpl in *. destruct Hstep as [s' Hs|again s' Hs].
  - unfold caller_step in Hs. simpl in Hs. destruct c; simpl in *; res_inv; simpl in *; repeat case_match; simplify_eq/=;
      split; simpl; try done; try (by rewrite He, <- ?app_assoc); intros; by apply Ha.
  - unfold replay_step, take_next in Hs. destruct r; simpl in *; repeat (res_inv; repeat case_match); simplify_eq/=; done.
Qed.

(** ** Termination *)
Definition caller_weight (c : caller_pc) (n : nat) : nat :=
  match c with
  | Returned => 0 | Stop_5 => 1 | Stop_4 => 2 | Stop_3 => 3 | Stop_2 => 14
  | Calls => 15 + 15 * n | QueueEvent_2 _ => 26 + 15 * n | FlushEvents_2 => 27 + 15 * n | FlushEvents_3 => 16 + 15 * n
  | Start_3 => 16 + 15 * n | Start_2 => 17 + 15 * n | Start_1 => 18 + 15 * n
  end.
Definition replay_weight (r : replay_pc) (q : EventQueue.t) : nat :=
  match r with
  | NotCreated => 10 | WaitForStart => 9 | Working => 6
  | HasNextEvent_1 =>
      if EventQueue.end_of_sequence_ q then 5 else match EventQueue.next_event_ q with Some _ => 7 | None => 2 end
  | HasNextEvent_2 => 4 | HasNextEvent_3 => 3 | Ended => 1 | Exited => 0
  end.
Definition weight (s : sys) : nat :=
  (caller_weight (caller s) (length (todo s)) + replay_weight (replay s) (event_queue_ s) +
   10 * length (EventQueue.events_ (event_queue_ s)))%nat.

(** In a sequence that the caller has ended, the replay thread gets on. *)
Lemma ending_progress l0 s es :
  inv l0 s → state_ s = state_at RUNNING → in_sequence (replay s) (event_queue_ s) →
  EventQueue.events_ (event_queue_ s) = es ++ [None] →
  ∃ s', step s s' ∧ (weight s' < weight s)%nat.
Proof.
  intros Hinv Hrun Hseq Hev. destruct s as [v [evs nxt eos] c cs r l g]. simpl in *. subst v evs.
  destruct Hseq as [[Hend [[-> Hn]|[->|[-> [e He]]]]]|[Hend [-> Hn]]]; simpl in *; subst.
  - eexists. split; [by apply (step_replay _ false)|]. unfold weight. simpl. lia.
  - assert (∀ e : CommittedEvent.t,
      {negb (bool_decide (CommittedEvent.type e = CommittedEvent.OBJECT_CREATION)) && has_live_object l = true} +
      {negb (bool_decide (CommittedEvent.type e = CommittedEvent.OBJECT_CREATION)) && has_live_object l = false}) as Hlive
      by (intros e; destruct (_ && _); auto).
    destruct nxt as [e|]; [|destruct es as [|[e|] es]]; try (destruct (Hlive e) as [E|E]);
      (eexists; split; [apply (step_replay _ false); unfold replay_step, take_next; simpl; rewrite ?E; reflexivity|]);
      unfold weight; simpl; lia.
  - eexists. split; [by apply (step_replay _ false)|]. unfold weight. simpl. lia.
  - eexists. split; [by apply (step_replay _ false)|]. unfold weight. simpl. lia.
Qed.

Lemma progress l0 s : inv l0 s → caller s ≠ Returned → ∃ s', step s s' ∧ (weight s' < weight s)%nat.
Proof.
  intros Hinv Hret. pose proof Hinv as [(st & Hst & Hph) _].
  pose proof (ending_progress l0 s) as Hend. rewrite Hst in Hend.
  destruct s as [v q c cs r l g]. simpl in *. subst v.
  inversion Hph as [| | |c' r' q' Hc Hev Hseq|c' r' q' es Hc Hes Hev Hseq|c' Hc|c' Hc|r' Hr| |]; subst; simpl; try done.
  all: try (eexists; split; [by apply step_caller|]; unfold weight; simpl; lia).
  - destruct Hc as [->|[[e ->]|[->| ->]]]; [destruct cs as [|[] cs]|..];
      (eexists; split; [by apply step_caller|]; unfold weight; cbn -[Nat.mul Nat.add]; rewrite ?length_app; cbn [length];
       try change (replay_weight r (EventQueue.QueueEvent _ _)) with (replay_weight r q);
       try change (replay_weight r (EventQueue.SetEndOfSequence _)) with (replay_weight r q); lia).
  - by eapply Hend.
  - eexists. split; [by apply (step_replay _ false)|]. unfold weight. simpl. lia.
  - destruct Hc as [->|[->| ->]]; [destruct cs as [|[] cs]|..];
      (eexists; split; [by apply step_caller|]; unfold weight; simpl; lia).
  - destruct Hr as [->|[->|[->|[->| ->]]]];
      first [by eexists; split; [by apply (step_replay _ false)|]; unfold weight; simpl; lia
            |eexists; split; [by apply step_caller|]; unfold weight; simpl; lia].
Qed.

Lemma sync_reachable_inv calls l v s :
  NewState = Ok v → rtc step (initial v calls l) s → inv l s ∧ made calls s.
Proof.
  intros Hv Hs. assert (v = state_at NOT_STARTED) as -> by (unfold state_at, transitions; rewrite Hv; by injection Hv as <-).
  revert Hs. apply (rtc_ind_r (fun s => inv l s ∧ made calls s) (initial (state_at NOT_STARTED) calls l)).
  - split; [|split; [done|done]]. split; [|by exists []]. exists NOT_STARTED. split; [done|]. constructor.
  - intros x y _ Hstep [Hinv Hmade]. split; [|by eapply made_step].
    destruct Hstep as [y Hy|again y Hy].
    + destruct (caller_step_inv _ _ Hinv) as (b & Hb & Hi). rewrite Hy in Hb. injection Hb as <-. by apply Hi.
    + destruct (replay_step_inv _ _ again Hinv) as (b & Hb & Hi). rewrite Hy in Hb. injection Hb as <-. by apply Hi.
Qed.

(** What the caller sees when it waits for PAUSED and continues. *)
Lemma flush_done l0 s s' :
  inv l0 s → caller s = FlushEvents_3 → caller_step s = Ok (Done s') →
  replay_local s' = foldl take_event l0 (given s') ∧ ∀ again, replay_step again s' = Ok Blocked.
Proof.
  intros [(st & Hst & Hph) (taken & Hg & Hl)] Hc Hs'. destruct s as [v q c cs r l g]. simpl in *. subst.
  inversion Hph as [| | |c' r' q' Hc Hev Hseq|c' r' q' es Hc Hes Hev Hseq|c' Hc|c' Hc|r' Hr| |]; subst; try done.
  - unfold caller_step in Hs'. simpl in Hs'. injection Hs' as <-. simpl. unfold queued. simpl. by rewrite !app_nil_r.
Qed.

Lemma can_return l0 s : inv l0 s → ∃ s', rtc step s s' ∧ caller s' = Returned.
Proof.
  induction s as [s IH] using (induction_ltof1 _ weight). unfold ltof in IH. intros Hinv.
  destruct (decide (caller_weight (caller s) (length (todo s)) = 0%nat)) as [Hw|Hw].
  { exists s. split; [done|]. by destruct (caller s). }
  destruct (progress l0 s Hinv) as (s1 & Hstep & Hlt); [by intros E; rewrite E in Hw|].
  destruct (IH s1 Hlt) as (s2 & Hs2 & Hr).
  - destruct Hstep as [y Hy|again y Hy].
    + destruct (caller_step_inv _ _ Hinv) as (b & Hb & Hi). rewrite Hy in Hb. injection Hb as <-. by apply Hi.
    + destruct (replay_step_inv _ _ again Hinv) as (b & Hb & Hi). rewrite Hy in Hb. injection Hb as <-. by apply Hi.
  - exists s2. split; [|done]. by eapply rtc_l.
Qed.
End threads.
End PlaybackSync.

Import PlaybackSync.

(** C6 (safety). in every interleaving of a thread that starts a replay, queues
    events, flushes in between and stops it, with the replay thread: no [CHECK]
    of either thread fails (the changes of state are all declared, and the event
    queue is moved on only at the end of a sequence); when [FlushEvents] returns,
    the replay thread has taken every event queued so far, in order, and waits, so
    that the caller may read its results; when [Stop] returns, the replay thread
    has taken all the events and has exited, and the object may be destroyed. *)
Theorem flush_waits_for_replay {L} (replay_event : L → CommittedEvent.t → L) calls l v s :
  NewState = Ok v → rtc (step replay_event) (initial v calls l) s →
  is_ok (caller_step s) = true ∧ (∀ again, is_ok (replay_step replay_event again s) = true) ∧
  (caller s = FlushEvents_3 → ∀ s', caller_step s = Ok (Done s') →
     replay_local s' = foldl (take_event replay_event) l (given s') ∧
     ∀ again, replay_step replay_event again s' = Ok Blocked) ∧
  (caller s = Returned →
     replay_local s = foldl (take_event replay_event) l (events_of calls) ∧
     replay s = Exited ∧ Destroy (state_ s) = Ok tt).
Proof.
  intros Hv Hs. destruct (sync_reachable_inv replay_event calls l v s Hv Hs) as [Hinv [Hmade Hafter]].
  split_and!.
  - destruct (caller_step_inv replay_event _ _ Hinv) as (b & -> & _). done.
  - intros again. destruct (replay_step_inv replay_event _ _ again Hinv) as (b & -> & _). done.
  - intros Hc s'. by apply (flush_done replay_event).
  - intros Hc. destruct Hinv as [(st & Hst & Hph) (taken & Hg & Hl)].
    rewrite Hc in *. specialize (Hafter eq_refl). rewrite Hafter in Hmade. simpl in Hmade. rewrite app_nil_r in Hmade.
    inversion Hph; subst; try naive_solver. rewrite Hst. split_and!; [|done|done].
    rewrite Hl, Hmade, Hg. replace (event_queue_ s) with ended_queue. unfold queued. simpl. by rewrite app_nil_r.
Qed.

(** C7 (liveness). the two threads never deadlock: however far a replay has got,
    it can be continued until [Stop] returns. *)
Theorem replay_can_always_finish {L} (replay_event : L → CommittedEvent.t → L) calls l v s :
  NewState = Ok v → rtc (step replay_event) (initial v calls l) s →
  ∃ s', rtc (step replay_event) s s' ∧ caller s' = Returned.
Proof.
  intros Hv Hs. destruct (sync_reachable_inv replay_event calls l v s Hv Hs) as [Hinv _].
  by apply (can_return replay_event l).
Qed.

(** ** A replay of two events *)
Definition sync_calls : list call :=
  [CallQueueEvent (CommittedEvent.ObjectCreation 0%nat); CallFlushEvents;
   CallQueueEvent CommittedEvent.BeginTransaction].
Definition count_event (n : nat) (_ : CommittedEvent.t) : nat := S n.

(** A schedule: [Some again] is a step of the replay thread. *)
Fixpoint run_schedule (schedule : list (option bool)) (s : sys (L := nat)) : option (sys (L := nat)) :=
  match schedule with
  | [] => Some s
  | who :: rest =>
      match match who with None => caller_step s | Some again => replay_step count_event again s end with
      | Ok (Done s') => run_schedule rest s'
      | _ => None
      end
  end.
Lemma run_schedule_rtc schedule s s' : run_schedule schedule s = Some s' → rtc (step count_event) s s'.
Proof.
  revert s. induction schedule as [|who rest IH]; intros s; simpl; [by intros [= ->]|].
  destruct who as [again|].
  - destruct (replay_step count_event again s) as [[s1|]| |] eqn:E; try done. intros Hr.
    eapply rtc_l; [by eapply step_replay|by apply IH].
  - destruct (caller_step s) as [[s1|]| |] eqn:E; try done. intros Hr.
    eapply rtc_l; [by eapply step_caller|by apply IH].
Qed.

Definition sync_start : sys :=
  match NewState with Ok v => initial v sync_calls (mkLocal false 0%nat) | _ => initial (StateVariable.mk ∅ 0) [] (mkLocal false 0%nat) end.
(** The caller flushes while the replay thread starts. *)
Definition sync_schedule : list (option bool) :=
  [None; None; None; None; None; None; None; Some false; Some false; Some false; Some false; None;
   None; None; Some false; Some false; None; None; Some true; Some false; Some false; Some false; Some false;
   None; Some false; Some true; Some false; Some false; Some false; Some false; None; None].

Example sync_runs :
  match run_schedule sync_schedule sync_start with
  | Some s => caller s = Returned ∧ own (replay_local s) = 2%nat
  | None => False
  end.
Proof. vm_compute. done. Qed.

Definition sync_state : StateVariable.t := match NewState with Ok v => v | _ => StateVariable.mk ∅ 0 end.
Definition sync_after (n : nat) : sys := default sync_start (run_schedule (take n sync_schedule) sync_start).

Lemma sync_reaches n :
  is_Some (run_schedule (take n sync_schedule) sync_start) →
  rtc (step count_event) (initial sync_state sync_calls (mkLocal false 0%nat)) (sync_after n).
Proof. intros [s Hs]. unfold sync_after. rewrite Hs. by eapply run_schedule_rtc. Qed.

Lemma flush_waits_for_replay_witness :
  replay_local (sync_after 40) = mkLocal true 2%nat ∧ replay (sync_after 40) = Exited.
Proof.
  destruct (flush_waits_for_replay count_event sync_calls (mkLocal false 0%nat) sync_state (sync_after 40)) as (_ & _ & _ & Hret);
    [reflexivity|apply sync_reaches; vm_compute; by eexists|].
  destruct Hret as (-> & -> & _); [by vm_compute|]. done.
Defined.

Lemma replay_can_always_finish_witness :
  ∃ s', rtc (step count_event) (sync_after 8) s' ∧ caller s' = Returned.
Proof.
  apply (replay_can_always_finish count_event sync_calls (mkLocal false 0%nat) sync_state (sync_after 8));
    [reflexivity|apply sync_reaches; vm_compute; by eexists].
Defined.
