(* ===== verification/Replay.v ===== *)
(** What a replay is for: the events that a run of an object's methods left
    behind, replayed by the playback thread, reproduce the state the run ended
    in, without a conflict and without touching any other live object.

    The specification, [exec], runs a method on a state of its own, with no
    heap, queue or thread, and gives the events such a run is recorded as
    (method calls on other objects that do not call back, and transaction
    marks).  Methods that call their own object, or are called back while they
    run, are not covered: for the former see [self_call_depends_on_sharing] of
    file [LiveObject]. *)
From stdpp Require Import base tactics list strings gmap.
From Stdlib Require Import ZArith Lia.
From S2P Require Import Prelude Ids VersionMap Values Events LiveObject ObjectTable ObjectContent.
From S2P Require Import PlaybackThread.
#[local] Open Scope string_scope.
#[local] Open Scope nat_scope.
#[local] Open Scope list_scope.

Module Replay.
Import PlaybackThread.
Section replay.
Context {LO C : Type} `{LocalObjectMethods LO}.
Context (GenerateUuid : nat → Uuid) (GeneratePredictableUuid : Uuid → string → Uuid).
Context (treat_conflicts_as_fatal : bool) (self : Uuid).

Abbreviation table := (ObjectTable.t C (LiveObject.heap LO)).
Abbreviation state := (st (LO := LO) (C := C)).

(** ** Specification *)
Definition has_reference (t : table) (id : Uuid) (r : ObjectReference) : Prop :=
  ∃ so, ObjectTable.shared_objects_ t !! id = Some so ∧ r ∈ ObjectTable.so_object_references_ so.

(** A recorded value and the value a replay gets for it: equal, except that two
    references agree when they belong to the same shared object. *)
Definition value_agrees (t : table) (recorded replayed : Value) : Prop :=
  local_type recorded = local_type replayed ∧
  match data recorded, data replayed with
  | EMPTY, EMPTY => True
  | DOUBLE a, DOUBLE b => Fp.double_eqb a b = true
  | FLOAT a, FLOAT b => Fp.float_eqb a b = true
  | INT64 a, INT64 b | UINT64 a, UINT64 b => a = b
  | BOOL a, BOOL b => a = b
  | STRING a, STRING b | BYTES a, BYTES b => a = b
  | OBJECT_REFERENCE a, OBJECT_REFERENCE b =>
      ∃ id, ObjectTable.shared_object t a = Some id ∧ has_reference t id b
  | _, _ => False
  end.

(** [exec t lo p evs lo' v]: run on [lo], the method body [p] ends with the
    state [lo'] and the value [v], and is recorded as [evs].  What it gets from
    its calls is in the record. *)
Inductive exec (t : table) : LO → prog LO → list CommittedEvent.t → LO → Value → Prop :=
| exec_return lo v : exec t lo (PReturn v) [] lo v
| exec_read lo k evs lo' v : exec t lo (k lo) evs lo' v → exec t lo (PRead k) evs lo' v
| exec_write lo lo1 k evs lo' v : exec t lo1 k evs lo' v → exec t lo (PWrite lo1 k) evs lo' v
| exec_begin lo k evs lo' v :
    exec t lo k evs lo' v →
    exec t lo (PBeginTransaction k) (CommittedEvent.BeginTransaction :: evs) lo' v
| exec_end lo k evs lo' v :
    exec t lo k evs lo' v →
    exec t lo (PEndTransaction k) (CommittedEvent.EndTransaction :: evs) lo' v
| exec_call lo r name ps k callee id ps' rv evs lo' v :
    name ≠ "" → ¬ has_reference t self r →
    ObjectTable.shared_object t callee = Some id → id ≠ self → has_reference t id r →
    Forall2 (value_agrees t) ps' ps →
    exec t lo (k rv) evs lo' v →
    exec t lo (PCallMethod r name ps k)
      (CommittedEvent.SubMethodCall ∅ callee name ps' :: CommittedEvent.SubMethodReturn rv :: evs)
      lo' v
| exec_identical lo a b k evs lo' v :
    exec t lo (k (ObjectTable.ObjectsAreIdentical t a b)) evs lo' v →
    exec t lo (PObjectsAreIdentical a b k) evs lo' v
| exec_print lo text k evs lo' v : exec t lo k evs lo' v → exec t lo (PPrint text k) evs lo' v.

(** One recorded call of the object. *)
Record call := {
  c_name : string;
  c_parameters : list Value;
  c_events : list CommittedEvent.t;
  c_result : Value;
}.

Definition call_events (c : call) : list CommittedEvent.t :=
  CommittedEvent.MethodCall (c_name c) (c_parameters c) ::
    c_events c ++ [CommittedEvent.MethodReturn ∅ (c_result c)].

(** Calls, one after the other; [r] is the reference the object is called by. *)
Inductive runs (t : table) (r : ObjectReference) : LO → list call → LO → Prop :=
| runs_nil lo : runs t r lo [] lo
| runs_cons lo c cs lo1 v lo' :
    exec t lo (lo_invoke r (c_name c) (c_parameters c)) (c_events c) lo1 v →
    value_agrees t (c_result c) v → runs t r lo1 cs lo' → runs t r lo (c :: cs) lo'.

(** ** Single steps of the thread, on a state that has the next event *)
Lemma set_queue_id (s : state) q : queue s = q → set_queue q s = s.
Proof. by destruct s; simpl; intros <-. Qed.
Lemma set_tables_id (s : state) t : tables s = t → set_tables t s = s.
Proof. by destruct s; simpl; intros <-. Qed.

(** The object exists and nothing has gone wrong. *)
Definition live_ok (s : state) : Prop := is_Some (live_object_ s) ∧ conflict_detected_ s = false.

Abbreviation next e := (CommittedEvent.type e ≠ CommittedEvent.OBJECT_CREATION).

Lemma has_next_here b s e q :
  queue s = e :: q → live_ok s → next e → HasNextEvent b s = Val true s.
Proof.
  intros Hq [[l Hl] _] He. unfold HasNextEvent. rewrite Hq.
  destruct e; try done; simpl; rewrite Hl; by rewrite set_queue_id.
Qed.

Lemma get_next_here b s e q :
  queue s = e :: q → live_ok s → next e → GetNextEvent b s = Val e (set_queue q s).
Proof.
  intros Hq Hl He. unfold GetNextEvent, mbind, PB_bind. rewrite (has_next_here b s e q) by done.
  simpl. by rewrite Hq.
Qed.

Lemma peek_here b s e q :
  queue s = e :: q → live_ok s → next e → PeekNextEventType b s = Val (CommittedEvent.type e) s.
Proof.
  intros Hq Hl He. unfold PeekNextEventType, mbind, PB_bind.
  rewrite (has_next_here b s e q) by done. simpl. by rewrite Hq.
Qed.

Lemma check_here b s e q ty :
  queue s = e :: q → live_ok s → next e → CommittedEvent.type e = ty →
  CheckNextEventType treat_conflicts_as_fatal b ty s = Val true s.
Proof.
  intros Hq Hl He <-. unfold CheckNextEventType, mbind, PB_bind. simpl. rewrite (proj2 Hl). simpl.
  rewrite (has_next_here b s e q) by done. simpl. rewrite (peek_here b s e q) by done.
  by rewrite bool_decide_false by naive_solver.
Qed.

Lemma object_matches_here s id r :
  has_reference (tables s) id r → ObjectMatches (Some id) r ∅ s = Val true s.
Proof.
  intros (so & Hso & Hr). unfold ObjectMatches, mbind, PB_bind. simpl.
  rewrite bool_decide_false by set_solver. simpl.
  case_bool_decide; [done|]. unfold lift_table, ObjectTable.HasObjectReference. rewrite Hso. simpl.
  by rewrite bool_decide_true, set_tables_id.
Qed.

Lemma value_matches_here s a b :
  value_agrees (tables s) a b → ValueMatches a b ∅ s = Val true s.
Proof.
  intros [Hty Hd]. unfold ValueMatches. rewrite Hty, Z.eqb_refl. simpl.
  destruct (data a), (data b); try done; simpl;
    try (unfold mret, PB_ret; by rewrite ?Hd, ?Z.eqb_refl, ?Bool.eqb_reflx, ?bool_decide_true).
  destruct Hd as (id & Hid & Href). unfold mbind, PB_bind. simpl. rewrite Hid.
  by apply object_matches_here.
Qed.

Lemma values_match_here s ps' ps :
  Forall2 (value_agrees (tables s)) ps' ps → values_match ps' ps ∅ s = Val true s.
Proof.
  induction 1 as [|a b ps' ps Hab _ IH]; [done|]. simpl. unfold mbind, PB_bind.
  by rewrite value_matches_here.
Qed.

Lemma new_objects_here (s : state) e : CommittedEvent.new_objects e = ∅ → GetNewSharedObjectsForEvent e s = Val ∅ s.
Proof. intros He. unfold GetNewSharedObjectsForEvent. rewrite He. done. Qed.

(** ** One method body *)

(** The state after events were taken up to [q] and the heap became [h]. *)
Definition moved (s : state) (q : list CommittedEvent.t) (h : LiveObject.heap LO) : state :=
  {| tables := ObjectTable.set_live h (tables s); new_object_references_ := new_object_references_ s;
     queue := q; live_object_ := live_object_ s;
     unbound_object_references_ := unbound_object_references_ s;
     conflict_detected_ := conflict_detected_ s |}.

Lemma moved_moved s q h q' h' : moved (moved s q h) q' h' = moved s q' h'.
Proof. done. Qed.

Lemma moved_set_queue s q h q' : set_queue q' (moved s q h) = moved s q' h.
Proof. done. Qed.

Lemma moved_here s : moved s (queue s) (ObjectTable.live (tables s)) = s.
Proof. destruct s as [[] ? ? ? ? ?]. done. Qed.

Lemma set_queue_moved s q : set_queue q s = moved s q (ObjectTable.live (tables s)).
Proof. destruct s as [[] ? ? ? ? ?]. done. Qed.

(** The node a method runs on gets the state [lo]. *)
Definition put_node (n : nat) (lo : LO) (rc : Z) (h : LiveObject.heap LO) : LiveObject.heap LO :=
  LiveObject.set_nodes (<[n := LiveObject.Build_Node lo rc]> (LiveObject.nodes h)) h.

Lemma put_node_twice n lo lo' rc h : put_node n lo' rc (put_node n lo rc h) = put_node n lo' rc h.
Proof. unfold put_node, LiveObject.set_nodes. simpl. by rewrite insert_insert_eq. Qed.

Lemma put_node_same n lo rc h :
  LiveObject.nodes h !! n = Some (LiveObject.Build_Node lo rc) → put_node n lo rc h = h.
Proof.
  intros Hn. unfold put_node, LiveObject.set_nodes. rewrite insert_id by done. by destruct h.
Qed.

Abbreviation in_node n lo rc s :=
  (LiveObject.nodes (ObjectTable.live (tables s)) !! n = Some (LiveObject.Build_Node lo rc)).

(** The tables the specification speaks of, whatever the heap. *)
Definition same_tables (t : table) (s : state) : Prop :=
  ObjectTable.set_live (ObjectTable.live t) (tables s) = t.

Lemma same_tables_moved t s q h : same_tables t s → same_tables t (moved s q h).
Proof. intros <-. by destruct s. Qed.

Lemma same_tables_shared t s :
  same_tables t s → ObjectTable.shared_objects_ (tables s) = ObjectTable.shared_objects_ t ∧
    ObjectTable.object_references_ (tables s) = ObjectTable.object_references_ t.
Proof. by intros <-. Qed.

Lemma same_has_reference t s id r : same_tables t s → has_reference t id r → has_reference (tables s) id r.
Proof. intros [E _]%same_tables_shared. unfold has_reference. by rewrite E. Qed.

Lemma same_shared_object t s r :
  same_tables t s → ObjectTable.shared_object (tables s) r = ObjectTable.shared_object t r.
Proof. intros [_ E]%same_tables_shared. unfold ObjectTable.shared_object. by rewrite E. Qed.

Lemma same_value_agrees t s a b : same_tables t s → value_agrees t a b → value_agrees (tables s) a b.
Proof.
  intros Hs [Hty Hd]. split; [done|]. destruct (data a), (data b); try done.
  destruct Hd as (id & Hid & Href). exists id. rewrite (same_shared_object t s) by done.
  split; [done|]. by eapply same_has_reference.
Qed.

(** A run creates no object, so an event is always there to go on with. *)
Lemma exec_next t lo p evs lo' v e q :
  exec t lo p evs lo' v → next e → ∃ e' q', evs ++ e :: q = e' :: q' ∧ next e'.
Proof. induction 1; naive_solver. Qed.

Section body.
Context (invoke : ObjectReference → string → list Value → PB (LO := LO) (C := C) (option Value)).
Context (b : bool).

Abbreviation run := (run_prog GenerateUuid GeneratePredictableUuid treat_conflicts_as_fatal self b invoke).

Lemma mark_here s e e' q ty :
  queue s = e :: e' :: q → live_ok s → next e → next e' → CommittedEvent.type e = ty →
  TransactionMark treat_conflicts_as_fatal b ty s = Val true (set_queue (e' :: q) s).
Proof.
  intros Hq Hl He He' Hty. unfold TransactionMark, mbind, PB_bind. simpl. rewrite (proj2 Hl).
  rewrite (check_here b s e (e' :: q)) by done. simpl.
  rewrite (get_next_here b s e (e' :: q)) by done. by apply (has_next_here b _ e' q).
Qed.

(** A call of another object, answered from the record. *)
Lemma sub_call_here t s r name ps callee id ps' rv e q :
  queue s = CommittedEvent.SubMethodCall ∅ callee name ps' ::
            CommittedEvent.SubMethodReturn rv :: e :: q →
  live_ok s → next e → same_tables t s → name ≠ "" →
  is_Some (ObjectTable.shared_objects_ t !! self) → ¬ has_reference t self r →
  ObjectTable.shared_object t callee = Some id → id ≠ self → has_reference t id r →
  Forall2 (value_agrees t) ps' ps →
  CallMethod treat_conflicts_as_fatal self b invoke r name ps s = Val (Some rv) (set_queue (e :: q) s).
Proof.
  intros Hq Hl He Ht Hname [so Hso] Hself Hcallee Hid Href Hps.
  pose proof (proj2 Hl) as Hc. pose proof (same_tables_shared _ _ Ht) as [Esh _].
  set (q1 := CommittedEvent.SubMethodReturn rv :: e :: q) in *.
  assert (Hl1 : live_ok (set_queue q1 s)) by done.
  assert (Hdo : DoSubMethodCall treat_conflicts_as_fatal self b invoke r name ps NewValue s =
    Val rv (set_queue (e :: q) s)).
  { unfold DoSubMethodCall, mbind, PB_bind. simpl. rewrite Hc. simpl.
    rewrite (check_here b s _ q1) by done. simpl. rewrite (get_next_here b s _ q1) by done. simpl.
    rewrite (same_shared_object t s) by done. rewrite Hcallee. simpl.
    rewrite bool_decide_false by done. rewrite new_objects_here by done.
    unfold MethodCallMatches, mbind, PB_bind.
    rewrite object_matches_here by (by apply (same_has_reference t s)). simpl.
    rewrite bool_decide_false by naive_solver.
    rewrite bool_decide_false by (rewrite (Forall2_length _ _ _ Hps); naive_solver).
    rewrite values_match_here.
    2: { eapply Forall2_impl; [exact Hps|]. intros. by apply (same_value_agrees t s). }
    simpl. rewrite (has_next_here b (set_queue q1 s) (CommittedEvent.SubMethodReturn rv) (e :: q)) by done.
    simpl. rewrite (peek_here b (set_queue q1 s) (CommittedEvent.SubMethodReturn rv) (e :: q)) by done.
    simpl. rewrite (check_here b (set_queue q1 s) (CommittedEvent.SubMethodReturn rv) (e :: q)) by done.
    simpl. rewrite (get_next_here b (set_queue q1 s) (CommittedEvent.SubMethodReturn rv) (e :: q)) by done.
    done. }
  unfold CallMethod, mbind, PB_bind. simpl. rewrite bool_decide_false by done. simpl. rewrite Hc.
  rewrite (has_next_here b s _ q1) by done. simpl.
  unfold lift_table at 1, ObjectTable.HasObjectReference. rewrite Esh, Hso. simpl.
  rewrite bool_decide_false by (intros Hr; apply Hself; by exists so).
  rewrite set_tables_id by done. rewrite Hdo. simpl. rewrite Hc.
  by rewrite (has_next_here b (set_queue (e :: q) s) e q).
Qed.

Lemma read_here n lo rc (s : state) :
  in_node n lo rc s →
  lift_heap (fun h => lo ← LiveObject.ReadState n h; Ok (lo, h)) s = Val lo s.
Proof.
  intros Hn. unfold lift_heap, LiveObject.ReadState, LiveObject.deref_node. rewrite Hn. simpl.
  destruct s as [[] ? ? ? ? ?]. done.
Qed.

Lemma write_here n lo lo' rc (s : state) :
  in_node n lo rc s →
  lift_heap (fun h => h ← LiveObject.WriteState n lo' h; Ok (tt, h)) s =
  Val tt (moved s (queue s) (put_node n lo' rc (ObjectTable.live (tables s)))).
Proof.
  intros Hn. unfold lift_heap, LiveObject.WriteState, LiveObject.deref_node. rewrite Hn. done.
Qed.

(** The events of a run are consumed, no more and no less, and the node ends up
    with the state the run ended in. *)
Lemma run_here t n lo p evs lo' v :
  exec t lo p evs lo' v → is_Some (ObjectTable.shared_objects_ t !! self) →
  ∀ rc s e q, queue s = evs ++ e :: q → live_ok s → next e → same_tables t s → in_node n lo rc s →
  run n p s = Val (Some v) (moved s (e :: q) (put_node n lo' rc (ObjectTable.live (tables s)))).
Proof.
  intros Hex Hself. induction Hex as [lo v|lo k evs lo' v _ IH|lo lo1 k evs lo' v _ IH
    |lo k evs lo' v Hk IH|lo k evs lo' v Hk IH|lo r name ps k callee id ps' rv evs lo' v Hname Hr Hcal
      Hid Href Hps Hk IH|lo a b' k evs lo' v _ IH|lo text k evs lo' v _ IH]; intros rc s e q Hq Hl He Ht Hn; simpl.
  - unfold mret, PB_ret. rewrite put_node_same by done. simpl in Hq. rewrite <- Hq.
    by rewrite moved_here.
  - unfold mbind, PB_bind. rewrite (read_here n lo rc) by done. by apply IH.
  - unfold mbind, PB_bind. rewrite (write_here n lo lo1 rc) by done.
    rewrite (IH rc _ e q); [|done|done|done|by apply same_tables_moved|simpl; apply lookup_insert_eq].
    rewrite moved_moved. simpl. by rewrite put_node_twice.
  - destruct (exec_next _ _ _ _ _ _ e q Hk He) as (e' & q' & Eq & He').
    unfold mbind, PB_bind. simpl in Hq. rewrite Eq in Hq.
    rewrite (mark_here s _ e' q') by done. rewrite set_queue_moved.
    rewrite (IH rc _ e q); [by rewrite moved_moved|by rewrite <- Eq|done|done|by apply same_tables_moved|done].
  - destruct (exec_next _ _ _ _ _ _ e q Hk He) as (e' & q' & Eq & He').
    unfold mbind, PB_bind. simpl in Hq. rewrite Eq in Hq.
    rewrite (mark_here s _ e' q') by done. rewrite set_queue_moved.
    rewrite (IH rc _ e q); [by rewrite moved_moved|by rewrite <- Eq|done|done|by apply same_tables_moved|done].
  - destruct (exec_next _ _ _ _ _ _ e q Hk He) as (e' & q' & Eq & He').
    unfold mbind, PB_bind. simpl in Hq. rewrite Eq in Hq.
    rewrite (sub_call_here t s r name ps callee id ps' rv e' q') by done. rewrite set_queue_moved.
    rewrite (IH rc _ e q); [by rewrite moved_moved|by rewrite <- Eq|done|done|by apply same_tables_moved|done].
  - unfold ObjectsAreIdentical, mbind, PB_bind. simpl.
    assert (ObjectTable.ObjectsAreIdentical (tables s) a b' = ObjectTable.ObjectsAreIdentical t a b') as ->.
    { unfold ObjectTable.ObjectsAreIdentical. by rewrite !(same_shared_object t s). }
    by apply IH.
  - by apply IH.
Qed.
End body.

(** ** One call *)
Abbreviation heap_of s := (ObjectTable.live (tables s)).
Abbreviation invoke b := (invoke_method GenerateUuid GeneratePredictableUuid treat_conflicts_as_fatal self b).

Lemma lift_heap_ok {A} (m : LiveObject.heap LO → res (A * LiveObject.heap LO)) (s : state) a h :
  m (heap_of s) = Ok (a, h) → lift_heap m s = Val a (moved s (queue s) h).
Proof. intros Hm. unfold lift_heap. by rewrite Hm. Qed.

(** The steps of a call are those of [InvokeMethod_plain], whatever comes
    between them. *)
Lemma plain_steps (l : LiveObjectPtr) (lo lo' : LO) (h : LiveObject.heap LO) :
  LiveObject.heap_ok h → LiveObject.abs h !! l = Some lo →
  ∃ n rc h1 h2, LiveObject.InvokeMethod_begin l h = Ok (n, h1) ∧
    LiveObject.nodes h1 !! n = Some (LiveObject.Build_Node lo rc) ∧
    LiveObject.InvokeMethod_end l n (put_node n lo' rc h1) = Ok h2 ∧
    LiveObject.heap_ok h2 ∧ LiveObject.abs h2 = <[l := lo']> (LiveObject.abs h).
Proof.
  intros Hok Hl. destruct (LiveObject.invoke_plain_ok (fun _ => lo') l lo h Hok Hl)
    as (h2 & Hi & Hok2 & Habs & _).
  apply LiveObject.abs_Some in Hl as (n0 & nd0 & Hl & Hn & <-).
  unfold LiveObject.InvokeMethod_plain in Hi.
  rewrite (LiveObject.begin_spec ∅ l n0 nd0 h Hok Hl Hn) in Hi |- *. simpl in Hi.
  unfold LiveObject.ReadState, LiveObject.WriteState, LiveObject.deref_node in Hi.
  destruct (1 <? LiveObject.ref_count_ nd0)%Z; simpl in Hi.
  - rewrite lookup_insert_eq in Hi. simpl in Hi. eexists _, _, _, h2.
    split_and!; [done|apply lookup_insert_eq|exact Hi|done|done].
  - rewrite Hn in Hi. simpl in Hi. eexists _, (LiveObject.ref_count_ nd0), _, h2.
    split_and!; [done|by destruct nd0|exact Hi|done|done].
Qed.

Lemma invoke_here b d t (s : state) l r name ps lo evs lo' v e q :
  exec t lo (lo_invoke r name ps) evs lo' v → is_Some (ObjectTable.shared_objects_ t !! self) →
  queue s = evs ++ e :: q → next e → same_tables t s →
  live_object_ s = Some l → conflict_detected_ s = false →
  LiveObject.heap_ok (heap_of s) → LiveObject.abs (heap_of s) !! l = Some lo →
  ∃ h, invoke b (S d) r name ps s = Val (Some v) (moved s (e :: q) h) ∧
    LiveObject.heap_ok h ∧ LiveObject.abs h = <[l := lo']> (LiveObject.abs (heap_of s)).
Proof.
  intros Hex Hself Hq He Ht Hlive Hc Hok Hl.
  destruct (plain_steps l lo lo' _ Hok Hl) as (n & rc & h1 & h2 & Hb & Hn & Hend & Hok2 & Habs).
  exists h2. split; [|done]. cbn [invoke_method]. unfold mbind, PB_bind. unfold gets at 1.
  rewrite Hlive. simpl. rewrite (lift_heap_ok _ _ _ _ Hb).
  rewrite (run_here _ b t n lo _ evs lo' v Hex Hself rc _ e q);
    [|done|by split; [eexists|]|done|by apply same_tables_moved|exact Hn].
  rewrite moved_moved. simpl. by rewrite (lift_heap_ok _ _ tt h2) by (simpl; by rewrite Hend).
Qed.

Lemma reference_here t (s : state) so r :
  same_tables t s → ObjectTable.shared_objects_ t !! self = Some so →
  last (ObjectTable.so_object_references_ so) = Some r →
  lift_table (ObjectTable.GetOrCreateObjectReference self) s = Val r s.
Proof.
  intros [Esh _]%same_tables_shared Hso Hr. unfold lift_table, ObjectTable.GetOrCreateObjectReference.
  unfold mbind, ObjectTable.M_bind. simpl. unfold ObjectTable.lift. rewrite Esh, Hso. simpl.
  rewrite Hr. simpl. by rewrite set_tables_id.
Qed.

Lemma return_here (s : state) rv v :
  value_agrees (tables s) rv v →
  check_return treat_conflicts_as_fatal rv v (CommittedEvent.MethodReturn ∅ rv) s = Val tt s.
Proof.
  intros Hv. unfold check_return, mbind, PB_bind. rewrite new_objects_here by done.
  by rewrite value_matches_here.
Qed.

Lemma call_here b d t (s : state) l so r c q lo lo' v :
  exec t lo (lo_invoke r (c_name c) (c_parameters c)) (c_events c) lo' v →
  value_agrees t (c_result c) v →
  ObjectTable.shared_objects_ t !! self = Some so →
  last (ObjectTable.so_object_references_ so) = Some r →
  queue s = call_events c ++ q → same_tables t s →
  live_object_ s = Some l → conflict_detected_ s = false →
  LiveObject.heap_ok (heap_of s) → LiveObject.abs (heap_of s) !! l = Some lo →
  ∃ h, DoMethodCall treat_conflicts_as_fatal self b (invoke b (S d)) s = Val tt (moved s q h) ∧
    LiveObject.heap_ok h ∧ LiveObject.abs h = <[l := lo']> (LiveObject.abs (heap_of s)).
Proof.
  intros Hex Hv Hso Hr Hq Ht Hlive Hc Hok Hl.
  set (e := CommittedEvent.MethodReturn ∅ (c_result c)) in *.
  unfold call_events in Hq. simpl in Hq. rewrite <- app_assoc in Hq. simpl in Hq. fold e in Hq.
  set (s1 := set_queue (c_events c ++ e :: q) s).
  destruct (invoke_here b d t s1 l r (c_name c) (c_parameters c) lo (c_events c) lo' v e q)
    as (h & Hi & Hh); [done|by eexists|done|done| |done|done|done|done|].
  { subst s1. rewrite set_queue_moved. by apply same_tables_moved. }
  exists h. split; [|done]. set (inv := invoke b (S d)) in *. clearbody inv.
  assert (Hlok : live_ok s) by (split; [by eexists|done]).
  destruct (exec_next _ _ _ _ _ _ e q Hex) as (e' & q' & Eq & He'); [done|].
  unfold DoMethodCall, mbind, PB_bind. simpl. rewrite Hlive. simpl. rewrite Hc. simpl.
  rewrite (check_here b s _ _ _ Hq) by done. simpl.
  rewrite (get_next_here b s _ _ Hq) by done. simpl. fold s1.
  rewrite (has_next_here b s1 e' q') by done. simpl.
  rewrite (reference_here t s1 so r) by (subst s1; rewrite ?set_queue_moved; try done; by apply same_tables_moved).
  rewrite Hi. simpl. rewrite Hc.
  rewrite (check_here b (moved s1 (e :: q) h) e q) by done. simpl.
  rewrite (get_next_here b (moved s1 (e :: q) h) e q) by done. simpl.
  rewrite return_here; [done|]. apply (same_value_agrees t); [|done].
  subst s1. rewrite set_queue_moved. simpl. by apply (same_tables_moved t s q h).
Qed.

(** ** The whole replay *)
Lemma none_left b (s : state) :
  queue s = [] → HasNextEvent b s = if b then Val false s else Paused s.
Proof. intros Hq. unfold HasNextEvent. rewrite Hq. simpl. by rewrite set_queue_id. Qed.

Lemma loop_here b d t l so r lo cs lo' :
  runs t r lo cs lo' → ObjectTable.shared_objects_ t !! self = Some so →
  last (ObjectTable.so_object_references_ so) = Some r →
  ∀ fuel (s : state), length cs < fuel → queue s = concat (call_events <$> cs) → same_tables t s →
  live_object_ s = Some l → conflict_detected_ s = false →
  LiveObject.heap_ok (heap_of s) → LiveObject.abs (heap_of s) !! l = Some lo →
  ∃ h, let s' := moved s [] h in
    replay_loop GenerateUuid GeneratePredictableUuid treat_conflicts_as_fatal self b fuel (S d) s =
      (if b then Val tt s' else Paused s') ∧
    LiveObject.heap_ok h ∧ LiveObject.abs h = <[l := lo']> (LiveObject.abs (heap_of s)).
Proof.
  intros Hruns Hso Hr. induction Hruns as [lo|lo c cs lo1 v lo' Hex Hv _ IH];
    intros fuel s Hf Hq Ht Hlive Hc Hok Hl; destruct fuel as [|fuel]; [lia| |simpl in Hf; lia|].
  - exists (heap_of s). simpl. unfold mbind, PB_bind. unfold gets at 1. rewrite Hc.
    unfold CheckNextEventType, mbind, PB_bind. unfold gets at 1, check at 1. rewrite Hc. simpl.
    rewrite none_left by done. simpl in Hq. rewrite <- Hq, moved_here, insert_id by done.
    by destruct b.
  - destruct (call_here b d t s l so r c (concat (call_events <$> cs)) lo lo1 v)
      as (h1 & Hcall & Hok1 & Habs1); [done..|].
    destruct (IH fuel (moved s (concat (call_events <$> cs)) h1)) as (h & Hloop & Hok2 & Habs);
      [simpl in Hf; lia|done|by apply same_tables_moved|done|done|done|simpl; by rewrite Habs1, lookup_insert_eq|].
    exists h. split_and!; [|done|by rewrite Habs; simpl; rewrite Habs1, insert_insert_eq].
    cbn [replay_loop]. unfold mbind, PB_bind. unfold gets at 1. rewrite Hc.
    rewrite (check_here b s (CommittedEvent.MethodCall (c_name c) (c_parameters c))
      ((c_events c ++ [CommittedEvent.MethodReturn ∅ (c_result c)]) ++ concat (call_events <$> cs)))
      by (done || by split; [eexists|]).
    cbn [negb]. rewrite Hcall, Hloop. by rewrite moved_moved.
Qed.

(** The state once the first event, the creation, has been taken: the live
    object is a clone of the one in the event. *)
Definition created (w : world (LO := LO) (C := C)) (h : LiveObject.heap LO) (l : LiveObjectPtr)
    (q : list CommittedEvent.t) : state :=
  set_live_object (Some l) (moved (Start w None q) q h).

Lemma loop_creates b d w l0 l h fuel cs :
  LiveObject.Clone l0 (ObjectTable.live w.1) = Ok (l, h) →
  let q := concat (call_events <$> cs) in
  replay_loop GenerateUuid GeneratePredictableUuid treat_conflicts_as_fatal self b (S fuel) d
    (Start w None (CommittedEvent.ObjectCreation l0 :: q)) =
  replay_loop GenerateUuid GeneratePredictableUuid treat_conflicts_as_fatal self b (S fuel) d
    (created w h l q).
Proof.
  intros Hcl q. assert (HasNextEvent b (Start w None (CommittedEvent.ObjectCreation l0 :: q)) =
    HasNextEvent b (created w h l q)) as Hhas.
  { unfold HasNextEvent. simpl. unfold mbind, PB_bind.
    rewrite (lift_heap_ok _ (Start w None (CommittedEvent.ObjectCreation l0 :: q)) _ _ Hcl). by destruct cs. }
  cbn [replay_loop]. unfold CheckNextEventType, mbind, PB_bind. simpl. by rewrite Hhas.
Qed.

Lemma replay_calls stopping w l0 lo so r cs lo' :
  LiveObject.heap_ok (ObjectTable.live w.1) →
  LiveObject.abs (ObjectTable.live w.1) !! l0 = Some lo →
  ObjectTable.shared_objects_ w.1 !! self = Some so →
  last (ObjectTable.so_object_references_ so) = Some r →
  runs w.1 r lo cs lo' →
  ∃ s l,
    replay GenerateUuid GeneratePredictableUuid treat_conflicts_as_fatal self stopping w
      (CommittedEvent.ObjectCreation l0 :: concat (call_events <$> cs)) =
      (if stopping then Val tt s else Paused s) ∧
    queue s = [] ∧ conflict_detected_ s = false ∧ live_object_ s = Some l ∧
    LiveObject.heap_ok (heap_of s) ∧
    LiveObject.abs (ObjectTable.live w.1) !! l = None ∧
    LiveObject.abs (heap_of s) = <[l := lo']> (LiveObject.abs (ObjectTable.live w.1)) ∧
    ObjectTable.set_live (ObjectTable.live w.1) (tables s) = w.1.
Proof.
  intros Hok Hl0 Hso Hr Hruns.
  destruct (LiveObject.Clone_ok l0 lo _ Hok Hl0) as (h1 & Hcl & Hok1 & Habs1 & _).
  set (l := LiveObject.next_live_object (ObjectTable.live w.1)) in *.
  set (q := concat (call_events <$> cs)) in *.
  assert (length cs < S (S (length q))) as Hlen.
  { enough (length cs ≤ length q) by lia. subst q. clear. induction cs; [done|].
    csimpl. rewrite length_app. lia. }
  destruct (loop_here stopping (S (length q)) w.1 l so r lo cs lo' Hruns Hso Hr (S (S (length q)))
    (created w h1 l q)) as (h & Hloop & Hokh & Habs);
    [done|done|by destruct w as [[] ?]|done|done|done|simpl; by rewrite Habs1, lookup_insert_eq|].
  exists (moved (created w h1 l q) [] h), l. split_and!; try done.
  - unfold replay, ReplayEvents, mbind, PB_bind. unfold gets at 1. cbn [queue Start length].
    rewrite (loop_creates stopping _ w l0 l h1 _ cs Hcl). fold q. rewrite Hloop.
    destruct stopping; [|done]. cbn [discard_loop]. unfold mbind, PB_bind.
    by rewrite none_left.
  - rewrite LiveObject.abs_lookup. subst l. by rewrite (LiveObject.fresh_live_object ∅).
  - simpl. by rewrite Habs; simpl; rewrite Habs1, insert_insert_eq.
  - by destruct w as [[] ?].
Qed.

End replay.
End Replay.
