(* ===== verification/TransactionStore.v ===== *)
(** [engine/transaction_store.{h,cc}]: the state of a peer and what it does with
    local transactions and with the messages of other peers.

    The tables of references and shared objects are file [ObjectTable], the
    history of one object is [ObjectContent], the playback thread is the
    interface [Playback].  Each method is run from start to end; where the code
    waits for other threads ([GetLiveObjectAtSequencePoint], [WaitForRewind])
    the waiting is explicit. *)
From stdpp Require Import base tactics list strings gmap.
From Stdlib Require Import ZArith Lia.
From S2P Require Import Prelude StdMap IntervalSet Ids VersionMap SequencePoint Values Events.
From S2P Require Import TransactionSequencer LiveObject Serialization ObjectTable ObjectContent.
#[local] Open Scope string_scope.
#[local] Open Scope nat_scope.
#[local] Open Scope list_scope.

Module TransactionStore.

(** [TransactionStoreInternalInterface::ExecutionPhase]. *)
Inductive ExecutionPhase := NORMAL | REWIND | RESUME.

Section transaction_store.
Context {G LiveHeap P : Type} `{IdSource G} `{LiveObjectStore LiveHeap}.
Context (GenerateUuid : nat → Uuid) (GeneratePredictableUuid : Uuid → string → Uuid).
Context (clock : nat → timespec) (local_peer_ : CanonicalPeer).

Abbreviation table := (ObjectTable.t ObjectContent.t LiveHeap).

(** The new object references that a replay collects travel with the tables. *)
Abbreviation world := (table * gmap Uuid ObjectReference)%type.

(** The playback threads of a shared object. *)
Context (playback : Uuid → Playback world P).

Definition empty_references (w : world) : world := (w.1, ∅).
Definition restore_references (w w' : world) : world := (w'.1, w.2).

Record t := {
  canonical_peer_map_ : CanonicalPeerMap;
  tables : table;
  transaction_sequencer_ : Sequencer.t G;
  (** readings of the clock so far *)
  ticks : nat;
  rejected_transaction_id_ : TransactionId;
  current_sequence_point_ : SequencePointImpl.t;
  version_number_ : Z;
}.

Definition set_peers (x : CanonicalPeerMap) (s : t) : t :=
  {| canonical_peer_map_ := x; tables := tables s;
     transaction_sequencer_ := transaction_sequencer_ s; ticks := ticks s;
     rejected_transaction_id_ := rejected_transaction_id_ s;
     current_sequence_point_ := current_sequence_point_ s; version_number_ := version_number_ s |}.
Definition set_tables (x : table) (s : t) : t :=
  {| canonical_peer_map_ := canonical_peer_map_ s; tables := x;
     transaction_sequencer_ := transaction_sequencer_ s; ticks := ticks s;
     rejected_transaction_id_ := rejected_transaction_id_ s;
     current_sequence_point_ := current_sequence_point_ s; version_number_ := version_number_ s |}.
Definition set_sequencer (x : Sequencer.t G) (s : t) : t :=
  {| canonical_peer_map_ := canonical_peer_map_ s; tables := tables s;
     transaction_sequencer_ := x; ticks := ticks s;
     rejected_transaction_id_ := rejected_transaction_id_ s;
     current_sequence_point_ := current_sequence_point_ s; version_number_ := version_number_ s |}.
Definition set_ticks (x : nat) (s : t) : t :=
  {| canonical_peer_map_ := canonical_peer_map_ s; tables := tables s;
     transaction_sequencer_ := transaction_sequencer_ s; ticks := x;
     rejected_transaction_id_ := rejected_transaction_id_ s;
     current_sequence_point_ := current_sequence_point_ s; version_number_ := version_number_ s |}.
Definition set_rejected (x : TransactionId) (s : t) : t :=
  {| canonical_peer_map_ := canonical_peer_map_ s; tables := tables s;
     transaction_sequencer_ := transaction_sequencer_ s; ticks := ticks s;
     rejected_transaction_id_ := x;
     current_sequence_point_ := current_sequence_point_ s; version_number_ := version_number_ s |}.
Definition set_sequence_point (x : SequencePointImpl.t) (s : t) : t :=
  {| canonical_peer_map_ := canonical_peer_map_ s; tables := tables s;
     transaction_sequencer_ := transaction_sequencer_ s; ticks := ticks s;
     rejected_transaction_id_ := rejected_transaction_id_ s;
     current_sequence_point_ := x; version_number_ := version_number_ s |}.
Definition set_version_number (x : Z) (s : t) : t :=
  {| canonical_peer_map_ := canonical_peer_map_ s; tables := tables s;
     transaction_sequencer_ := transaction_sequencer_ s; ticks := ticks s;
     rejected_transaction_id_ := rejected_transaction_id_ s;
     current_sequence_point_ := current_sequence_point_ s; version_number_ := x |}.

(** ** A state monad over the peer *)
Definition ST (A : Type) : Type := t → res (A * t).
#[global] Instance ST_ret : MRet ST := fun A a s => Ok (a, s).
#[global] Instance ST_bind : MBind ST := fun A B f m s => '(a, s') ← m s; f a s'.
Definition gets {A} (f : t → A) : ST A := fun s => Ok (f s, s).
Definition modify (f : t → t) : ST unit := fun s => Ok (tt, f s).
Definition lift {A} (r : res A) : ST A := fun s => a ← r; Ok (a, s).
Definition lift_table {A} (m : ObjectTable.M A) : ST A := fun s =>
  '(a, tb) ← m (tables s); Ok (a, set_tables tb s).
Definition lift_sequencer {A} (m : Sequencer.t G → res (A * Sequencer.t G)) : ST A := fun s =>
  '(a, q) ← m (transaction_sequencer_ s); Ok (a, set_sequencer q s).

Fixpoint mapM_ {A B} (f : A → ST B) (l : list A) : ST (list B) :=
  match l with
  | [] => mret []
  | x :: l' => y ← f x; ys ← mapM_ f l'; mret (y :: ys)
  end.

Fixpoint foldM_ {A B} (f : B → A → ST B) (b : B) (l : list A) : ST B :=
  match l with
  | [] => mret b
  | x :: l' => b ← f b x; foldM_ f b l'
  end.

(** ** Calls on the parts *)
Definition GetCanonicalPeer_ (id : string) : ST CanonicalPeer := fun s =>
  let '(ptr, m) := GetCanonicalPeer id (canonical_peer_map_ s) in
  p ← deref (peers_heap m !! ptr); Ok (p, set_peers m s).

Definition ReserveTransaction : ST TransactionId := fun s =>
  '(tid, q) ← Sequencer.ReserveTransaction (clock (ticks s)) (transaction_sequencer_ s);
  Ok (tid, set_ticks (S (ticks s)) (set_sequencer q s)).
Definition ReleaseTransaction (transaction_id : TransactionId) : ST unit :=
  lift_sequencer (fun q => q ← Sequencer.ReleaseTransaction transaction_id q; Ok (tt, q)).
Definition SendMessageToRemotePeer (p : CanonicalPeer) (m : PeerMessage.t) (mode : SendMode)
    : ST unit :=
  lift_sequencer (fun q => q ← Sequencer.SendMessageToRemotePeer p m mode q; Ok (tt, q)).
Definition BroadcastMessage (m : PeerMessage.t) (mode : SendMode) : ST unit :=
  lift_sequencer (fun q => q ← Sequencer.BroadcastMessage m mode q; Ok (tt, q)).

(** ** [SharedObject]: the calls it passes on to its content *)
Definition GetObjectContent (id : Uuid) : ST (option ObjectContent.t) := fun s =>
  so ← deref (ObjectTable.shared_objects_ (tables s) !! id);
  Ok (ObjectTable.object_content_ so, s).

Definition GetOrCreateObjectContent (id : Uuid) : ST ObjectContent.t := fun s =>
  so ← deref (ObjectTable.shared_objects_ (tables s) !! id);
  Ok (default ObjectContent.New (ObjectTable.object_content_ so), s).

Definition set_content (id : Uuid) (c : ObjectContent.t) : ST unit := fun s =>
  so ← deref (ObjectTable.shared_objects_ (tables s) !! id);
  Ok (tt, set_tables (ObjectTable.set_shared
    (<[id := {| ObjectTable.interested_peers_ := ObjectTable.interested_peers_ so;
                ObjectTable.so_object_references_ := ObjectTable.so_object_references_ so;
                ObjectTable.object_content_ := Some c |}]>
       (ObjectTable.shared_objects_ (tables s))) (tables s)) s).

Abbreviation references := (gmap Uuid ObjectReference).

(** [None] for the live object is the null pointer. *)
Definition GetWorkingVersion (id : Uuid) (version : version_map) (sp : SequencePointImpl.t)
    (refs : references) : ST (option LiveObjectPtr * references * reject_list) :=
  c ← GetObjectContent id;
  match c with
  | None => mret (None, refs, [])
  | Some c =>
      tb ← gets tables;
      r ← lift (ObjectContent.GetWorkingVersion (H := playback id) version sp (tb, refs) [] c);
      let '(live_object, w, rejected) := r in
      _ ← modify (set_tables w.1);
      mret (live_object, w.2, rejected)
  end.

Definition GetTransactions (id : Uuid) (version : version_map)
    : ST (omap TransactionId SharedObjectTransaction.t * version_map) :=
  c ← GetObjectContent id;
  match c with
  | None => mret ([], ∅)
  | Some c => lift (ObjectContent.GetTransactions version [] ∅ c)
  end.

Definition StoreTransactions (id : Uuid) (remote_peer : CanonicalPeer)
    (transactions : omap TransactionId SharedObjectTransaction.t) (vm : version_map)
    (refs : references) (rejected : reject_list) : ST (references * reject_list) :=
  c ← GetOrCreateObjectContent id;
  tb ← gets tables;
  r ← lift (ObjectContent.StoreTransactions (H := playback id) empty_references
              restore_references remote_peer transactions vm (tb, refs) rejected c);
  let '(c, w, rejected) := r in
  _ ← modify (set_tables w.1);
  _ ← set_content id c;
  mret (w.2, rejected).

Definition InsertTransaction (id : Uuid) (origin_peer : CanonicalPeer)
    (transaction_id : TransactionId) (events : list CommittedEvent.t)
    (transaction_is_local : bool) (refs : references) (rejected : reject_list)
    : ST (references * reject_list) :=
  c ← GetOrCreateObjectContent id;
  tb ← gets tables;
  r ← lift (ObjectContent.InsertTransaction (H := playback id) empty_references
              restore_references origin_peer transaction_id events transaction_is_local
              (tb, refs) rejected c);
  let '(c, w, rejected) := r in
  _ ← modify (set_tables w.1);
  _ ← set_content id c;
  mret (w.2, rejected).

Definition SetCachedLiveObject (id : Uuid) (live_object : LiveObjectPtr)
    (sp : SequencePointImpl.t) : ST unit :=
  c ← GetObjectContent id;
  match c with
  | None => mret tt
  | Some c => set_content id (ObjectContent.SetCachedLiveObject live_object sp c)
  end.

(** ** [TransactionStore] *)

(** [g] is the generator as constructed. *)
Definition New (peers : CanonicalPeerMap) (g : G) (h : LiveHeap) : res t :=
  let '(initial_transaction_id, g) := generate (clock 0) g in
  sp ← SequencePointImpl.AddPeerTransactionId local_peer_ initial_transaction_id
         SequencePointImpl.New;
  Ok {| canonical_peer_map_ := peers; tables := ObjectTable.New h;
        transaction_sequencer_ := Sequencer.New g; ticks := 1;
        rejected_transaction_id_ := MIN_TRANSACTION_ID;
        current_sequence_point_ := sp; version_number_ := 1 |}.

Definition IncrementVersionNumber_Locked : ST unit :=
  modify (fun s => set_version_number (uint64 (version_number_ s + 1)) s).

Definition GetCurrentSequencePoint : ST SequencePointImpl.t :=
  gets (fun s => SequencePointImpl.Clone (current_sequence_point_ s)).

Definition UpdateCurrentSequencePoint (origin_peer : CanonicalPeer)
    (transaction_id : TransactionId) : ST unit :=
  sp ← gets current_sequence_point_;
  sp ← lift (SequencePointImpl.AddPeerTransactionId origin_peer transaction_id sp);
  _ ← modify (set_sequence_point sp);
  IncrementVersionNumber_Locked.

Definition GetExecutionPhase (base_transaction_id : TransactionId) : ST ExecutionPhase :=
  rejected ← gets rejected_transaction_id_;
  if tid_eqb rejected MIN_TRANSACTION_ID then mret NORMAL
  else if tid_geb base_transaction_id rejected then mret REWIND
  else _ ← modify (set_rejected MIN_TRANSACTION_ID); mret RESUME.

(** [None]: the thread waits. *)
Definition WaitForRewind (s : t) : option t :=
  if tid_eqb (rejected_transaction_id_ s) MIN_TRANSACTION_ID then None
  else Some (set_rejected MIN_TRANSACTION_ID s).

(** The loop that updates the sequence point. *)
Definition reject_in_sequence_point (new_transaction_id : TransactionId)
    (sp : SequencePointImpl.t) (r : CanonicalPeer * TransactionId) : res SequencePointImpl.t :=
  if bool_decide (r.1 = local_peer_)
  then SequencePointImpl.AddInvalidatedRange r.1 r.2 new_transaction_id sp
  else Ok (SequencePointImpl.AddRejectedPeer r.1 r.2 sp).

(** The loop that fills the message: the first local transaction, and the
    transactions of the other peers. *)
Definition reject_in_message (acc : TransactionId * list PeerMessage.RejectedPeerProto)
    (r : CanonicalPeer * TransactionId) : TransactionId * list PeerMessage.RejectedPeerProto :=
  if bool_decide (r.1 = local_peer_)
  then (if ltb r.2 acc.1 then r.2 else acc.1, acc.2)
  else (acc.1, acc.2 ++ [{| PeerMessage.rp_rejected_peer_id := peer_id r.1;
                            PeerMessage.rp_rejected_transaction_id := r.2 |}]).

Definition RejectTransactions (transactions_to_reject : reject_list)
    (new_transaction_id : TransactionId) : ST PeerMessage.RejectTransactionMessage :=
  sp ← gets current_sequence_point_;
  sp ← lift (foldM (reject_in_sequence_point new_transaction_id) sp transactions_to_reject);
  _ ← modify (set_sequence_point sp);
  _ ← IncrementVersionNumber_Locked;
  let '(invalidate_start, rejected_peers) :=
    foldl reject_in_message (MAX_TRANSACTION_ID, []) transactions_to_reject in
  _ ← (if ltb invalidate_start MAX_TRANSACTION_ID then
         _ ← modify (set_rejected invalidate_start);
         BroadcastMessage
           (PeerMessage.InvalidateTransactions
              {| PeerMessage.it_start_transaction_id := invalidate_start;
                 PeerMessage.it_end_transaction_id := new_transaction_id |}) BLOCKING_MODE
       else mret tt);
  mret {| PeerMessage.rt_rejected_peer := rejected_peers;
          PeerMessage.rt_new_transaction_id := new_transaction_id |}.

Definition RejectTransactionsAndSendMessages (transactions_to_reject : reject_list)
    (new_transaction_id : TransactionId) : ST unit :=
  m ← RejectTransactions transactions_to_reject new_transaction_id;
  if bool_decide (0 < length (PeerMessage.rt_rejected_peer m))
  then BroadcastMessage (PeerMessage.RejectTransaction m) BLOCKING_MODE
  else mret tt.

(** The four statements that end several methods. *)
Definition reject_in_new_transaction (transactions_to_reject : reject_list)
    : ST TransactionId :=
  new_transaction_id ← ReserveTransaction;
  _ ← RejectTransactionsAndSendMessages transactions_to_reject new_transaction_id;
  _ ← ReleaseTransaction new_transaction_id;
  mret new_transaction_id.

Definition CreateNewObjectReferences (refs : references) : ST unit :=
  lift_table (ObjectTable.CreateNewObjectReferences (map_to_list refs)).

Definition SendMessageToAffectedPeers (m : PeerMessage.t) (affected_objects : gset Uuid)
    : ST unit :=
  peers ← foldM_ (fun (all : gset CanonicalPeer) id =>
            ps ← lift_table (ObjectTable.GetInterestedPeers id); mret (all ∪ ps))
          ∅ (elements affected_objects);
  _ ← mapM_ (fun p => SendMessageToRemotePeer p m BLOCKING_MODE)
        (elements (peers ∖ {[local_peer_]}));
  mret tt.

Abbreviation object_transactions := (gmap Uuid SharedObjectTransaction.t).

Definition apply_to_object (transaction_id : TransactionId) (origin_peer : CanonicalPeer)
    (acc : references * reject_list) (x : Uuid * SharedObjectTransaction.t)
    : ST (references * reject_list) :=
  let '(refs, all_rejected) := acc in
  _ ← lift (CHECK (bool_decide (SharedObjectTransaction.origin_peer x.2 = origin_peer)));
  r ← InsertTransaction x.1 origin_peer transaction_id (SharedObjectTransaction.events x.2)
        (bool_decide (origin_peer = local_peer_)) refs [];
  mret (r.1, all_rejected ++ r.2).

Definition ApplyTransaction (transaction_id : TransactionId) (origin_peer : CanonicalPeer)
    (shared_object_transactions : object_transactions) : ST unit :=
  acc ← foldM_ (apply_to_object transaction_id origin_peer) (∅, [])
          (map_to_list shared_object_transactions);
  new_transaction_id ← reject_in_new_transaction acc.2;
  _ ← CreateNewObjectReferences acc.1;
  UpdateCurrentSequencePoint local_peer_ new_transaction_id.

Definition ApplyTransactionAndSendMessage (transaction_id : TransactionId)
    (shared_object_transactions : object_transactions) : ST unit :=
  ots ← mapM_ (fun x : Uuid * SharedObjectTransaction.t =>
          _ ← lift (CHECK (bool_decide (SharedObjectTransaction.origin_peer x.2 = local_peer_)));
          evs ← mapM_ (fun e => lift_table
                  (ObjectTable.ConvertCommittedEventToEventProto GenerateUuid e))
                  (SharedObjectTransaction.events x.2);
          mret {| PeerMessage.ot_object_id := x.1; PeerMessage.ot_event := evs |})
        (map_to_list shared_object_transactions);
  _ ← ApplyTransaction transaction_id local_peer_ shared_object_transactions;
  SendMessageToAffectedPeers
    (PeerMessage.ApplyTransaction {| PeerMessage.at_transaction_id := transaction_id;
                                     PeerMessage.at_object_transaction := ots |})
    (dom shared_object_transactions).

Definition CreateTransaction
    (transactions : gmap ObjectReference SharedObjectTransaction.t)
    (modified_objects : gmap ObjectReference LiveObjectPtr)
    (prev_sequence_point : SequencePointImpl.t) : ST TransactionId :=
  transaction_id ← ReserveTransaction;
  shared_object_transactions ←
    foldM_ (fun (out : object_transactions) (x : ObjectReference * SharedObjectTransaction.t) =>
        id ← lift_table (ObjectTable.GetSharedObjectForObjectReference GenerateUuid x.1);
        _ ← lift_table (ObjectTable.EnsureSharedObjectsInTransactionExist GenerateUuid x.2);
        _ ← lift (CHECK (bool_decide (out !! id = None)));
        tr ← lift (SharedObjectTransaction.Clone x.2);
        mret (<[id := tr]> out)) ∅ (map_to_list transactions);
  _ ← ApplyTransactionAndSendMessage transaction_id shared_object_transactions;
  _ ← ReleaseTransaction transaction_id;
  sp ← lift (SequencePointImpl.AddPeerTransactionId local_peer_ transaction_id
               (SequencePointImpl.CopyFrom prev_sequence_point SequencePointImpl.New));
  _ ← mapM_ (fun x : ObjectReference * LiveObjectPtr =>
        tb ← gets tables;
        match ObjectTable.shared_object tb x.1 with
        | Some id => SetCachedLiveObject id x.2 sp
        | None => mret tt
        end) (map_to_list modified_objects);
  mret transaction_id.

(** ** Fetching an object *)

(** [None]: the version number has not changed, so the thread waits. *)
Definition GetLiveObjectAtSequencePoint_Helper (id : Uuid) (sp : SequencePointImpl.t)
    (current_version_number : Z) (refs : references) (all_rejected : reject_list)
    : ST (option (option LiveObjectPtr * Z * references * reject_list)) :=
  version_number ← gets version_number_;
  if (version_number =? current_version_number)%Z then mret None else
  current ← gets current_sequence_point_;
  r ← GetWorkingVersion id (SequencePointImpl.version_map_ current) sp refs;
  let '(live_object, refs, rejected) := r in
  mret (Some (live_object, version_number, refs, all_rejected ++ rejected)).

(** The waiting loop.  [others] is what other threads do each time this one
    waits; [None] means that it still waits after them. *)
Fixpoint wait_for_object (others : list (ST unit)) (id : Uuid) (sp : SequencePointImpl.t)
    (current_version_number : Z) (refs : references) (all_rejected : reject_list)
    : ST (option (LiveObjectPtr * references * reject_list)) :=
  match others with
  | [] => mret None
  | other :: others =>
      _ ← other;
      r ← GetLiveObjectAtSequencePoint_Helper id sp current_version_number refs all_rejected;
      match r with
      | None => wait_for_object others id sp current_version_number refs all_rejected
      | Some (Some live_object, _, refs, all_rejected) =>
          mret (Some (live_object, refs, all_rejected))
      | Some (None, current_version_number, refs, all_rejected) =>
          wait_for_object others id sp current_version_number refs all_rejected
      end
  end.

Definition finish_get_live_object (live_object : option LiveObjectPtr) (refs : references)
    (all_rejected : reject_list) : ST (option (option LiveObjectPtr)) :=
  new_transaction_id ← reject_in_new_transaction all_rejected;
  _ ← UpdateCurrentSequencePoint local_peer_ new_transaction_id;
  _ ← CreateNewObjectReferences refs;
  mret (Some live_object).

Definition GetLiveObjectAtSequencePoint (r : ObjectReference) (sp : SequencePointImpl.t)
    (wait : bool) (others : list (ST unit)) : ST (option (option LiveObjectPtr)) :=
  tb ← gets tables;
  id ← lift (check_some (ObjectTable.shared_object tb r));
  first ← GetLiveObjectAtSequencePoint_Helper id sp 0 ∅ [];
  match first with
  | None => mret None
  | Some (Some live_object, _, refs, rejected) =>
      finish_get_live_object (Some live_object) refs rejected
  | Some (None, version_number, refs, rejected) =>
      _ ← BroadcastMessage (PeerMessage.GetObject {| PeerMessage.go_object_id := id |})
            BLOCKING_MODE;
      if wait then
        found ← wait_for_object others id sp version_number refs rejected;
        match found with
        | None => mret None
        | Some (live_object, refs, rejected) =>
            finish_get_live_object (Some live_object) refs rejected
        end
      else finish_get_live_object None refs rejected
  end.

(** ** Messages from other peers *)
Definition decode_events (ps : list EventProto.t) : ST (list CommittedEvent.t) :=
  mapM_ (fun p => lift_table (ObjectTable.ConvertEventProtoToCommittedEvent p)) ps.

Definition decode_object_transaction (remote_peer : CanonicalPeer)
    (out : object_transactions) (ot : PeerMessage.ObjectTransactionProto)
    : ST object_transactions :=
  tb ← gets tables;
  match ObjectTable.GetSharedObject tb (PeerMessage.ot_object_id ot) with
  | None => mret out
  | Some id =>
      events ← decode_events (PeerMessage.ot_event ot);
      tr ← lift (SharedObjectTransaction.New events remote_peer);
      _ ← lift (CHECK (bool_decide (out !! id = None)));
      mret (<[id := tr]> out)
  end.

Definition HandleApplyTransactionMessage (remote_peer : CanonicalPeer)
    (m : PeerMessage.ApplyTransactionMessage) : ST unit :=
  shared_object_transactions ←
    foldM_ (decode_object_transaction remote_peer) ∅ (PeerMessage.at_object_transaction m);
  ApplyTransaction (PeerMessage.at_transaction_id m) remote_peer shared_object_transactions.

Definition encode_transaction (x : TransactionId * SharedObjectTransaction.t)
    : ST PeerMessage.TransactionProto :=
  evs ← mapM_ (fun e => lift_table
          (ObjectTable.ConvertCommittedEventToEventProto GenerateUuid e))
          (SharedObjectTransaction.events x.2);
  mret {| PeerMessage.tp_transaction_id := x.1; PeerMessage.tp_event := evs;
          PeerMessage.tp_origin_peer_id := peer_id (SharedObjectTransaction.origin_peer x.2) |}.

Definition HandleGetObjectMessage (remote_peer : CanonicalPeer)
    (m : PeerMessage.GetObjectMessage) : ST unit :=
  tb ← gets tables;
  match ObjectTable.GetSharedObject tb (PeerMessage.go_object_id m) with
  | None =>
      SendMessageToRemotePeer remote_peer
        (PeerMessage.StoreObject
           {| PeerMessage.so_object_id := PeerMessage.go_object_id m;
              PeerMessage.so_transaction := []; PeerMessage.so_peer_version := [];
              PeerMessage.so_interested_peer_id := [] |}) NON_BLOCKING_MODE
  | Some id =>
      _ ← lift_table (ObjectTable.AddInterestedPeer id remote_peer);
      current ← gets current_sequence_point_;
      r ← GetTransactions id (SequencePointImpl.version_map_ current);
      let '(transactions, effective_version) := r in
      tps ← mapM_ encode_transaction transactions;
      interested_peers ← lift_table (ObjectTable.GetInterestedPeers id);
      SendMessageToRemotePeer remote_peer
        (PeerMessage.StoreObject
           {| PeerMessage.so_object_id := PeerMessage.go_object_id m;
              PeerMessage.so_transaction := tps;
              PeerMessage.so_peer_version :=
                (fun x : CanonicalPeer * TransactionId =>
                   {| PeerMessage.pv_peer_id := peer_id x.1;
                      PeerMessage.pv_last_transaction_id := x.2 |}) <$>
                  map_to_list effective_version;
              PeerMessage.so_interested_peer_id := peer_id <$> elements interested_peers |})
        NON_BLOCKING_MODE
  end.

Definition decode_transaction (out : omap TransactionId SharedObjectTransaction.t)
    (tp : PeerMessage.TransactionProto) : ST (omap TransactionId SharedObjectTransaction.t) :=
  events ← decode_events (PeerMessage.tp_event tp);
  origin_peer ← GetCanonicalPeer_ (PeerMessage.tp_origin_peer_id tp);
  tr ← lift (SharedObjectTransaction.New events origin_peer);
  let '(out, _, inserted) := map_emplace (PeerMessage.tp_transaction_id tp) tr out in
  _ ← lift (CHECK inserted);
  mret out.

Definition HandleStoreObjectMessage (remote_peer : CanonicalPeer)
    (m : PeerMessage.StoreObjectMessage) : ST unit :=
  id ← lift_table (ObjectTable.GetOrCreateSharedObject (PeerMessage.so_object_id m));
  transactions ← foldM_ decode_transaction [] (PeerMessage.so_transaction m);
  vm ← foldM_ (fun (vm : version_map) (pv : PeerMessage.PeerVersion) =>
         p ← GetCanonicalPeer_ (PeerMessage.pv_peer_id pv);
         lift (MaxAdd p (PeerMessage.pv_last_transaction_id pv) vm))
       ∅ (PeerMessage.so_peer_version m);
  r ← StoreTransactions id remote_peer transactions vm ∅ [];
  let '(refs, all_rejected) := r in
  _ ← mapM_ (fun peer_id =>
        p ← GetCanonicalPeer_ peer_id; lift_table (ObjectTable.AddInterestedPeer id p))
      (PeerMessage.so_interested_peer_id m);
  _ ← reject_in_new_transaction all_rejected;
  _ ← CreateNewObjectReferences refs;
  IncrementVersionNumber_Locked.

Definition HandleRejectTransactionMessage (remote_peer : CanonicalPeer)
    (m : PeerMessage.RejectTransactionMessage) : ST unit :=
  transactions_to_reject ← mapM_ (fun rp =>
      p ← GetCanonicalPeer_ (PeerMessage.rp_rejected_peer_id rp);
      mret (p, PeerMessage.rp_rejected_transaction_id rp)) (PeerMessage.rt_rejected_peer m);
  new_transaction_id ← ReserveTransaction;
  _ ← RejectTransactions transactions_to_reject new_transaction_id;
  _ ← ReleaseTransaction new_transaction_id;
  _ ← UpdateCurrentSequencePoint remote_peer (PeerMessage.rt_new_transaction_id m);
  UpdateCurrentSequencePoint local_peer_ new_transaction_id.

Definition HandleInvalidateTransactionsMessage (remote_peer : CanonicalPeer)
    (m : PeerMessage.InvalidateTransactionsMessage) : ST unit :=
  sp ← gets current_sequence_point_;
  sp ← lift (SequencePointImpl.AddInvalidatedRange remote_peer
               (PeerMessage.it_start_transaction_id m) (PeerMessage.it_end_transaction_id m) sp);
  _ ← modify (set_sequence_point sp);
  _ ← IncrementVersionNumber_Locked;
  UpdateCurrentSequencePoint remote_peer (PeerMessage.it_end_transaction_id m).

Definition HandleMessageFromRemotePeer (remote_peer : CanonicalPeer) (m : PeerMessage.t)
    : ST unit :=
  type ← lift (PeerMessage.GetPeerMessageType m);
  match type with
  | PeerMessage.APPLY_TRANSACTION =>
      x ← lift (deref (PeerMessage.apply_transaction_message m));
      HandleApplyTransactionMessage remote_peer x
  | PeerMessage.GET_OBJECT =>
      x ← lift (deref (PeerMessage.get_object_message m));
      HandleGetObjectMessage remote_peer x
  | PeerMessage.STORE_OBJECT =>
      x ← lift (deref (PeerMessage.store_object_message m));
      HandleStoreObjectMessage remote_peer x
  | PeerMessage.REJECT_TRANSACTION =>
      x ← lift (deref (PeerMessage.reject_transaction_message m));
      HandleRejectTransactionMessage remote_peer x
  | PeerMessage.INVALIDATE_TRANSACTIONS =>
      x ← lift (deref (PeerMessage.invalidate_transactions_message m));
      HandleInvalidateTransactionsMessage remote_peer x
  | _ => lift Fatal
  end.

Definition NotifyNewConnection (remote_peer : CanonicalPeer) : ST unit :=
  tb ← gets tables;
  _ ← mapM_ (fun id =>
        SendMessageToRemotePeer remote_peer
          (PeerMessage.GetObject {| PeerMessage.go_object_id := id |}) NON_BLOCKING_MODE)
      (elements (ObjectTable.named_objects_ tb));
  mret tt.

(** ** Relations that a computation respects *)
Definition preserves {A} (R : relation t) (m : ST A) : Prop :=
  ∀ s a s', m s = Ok (a, s') → R s s'.

Section preserves.
Context (R : relation t) `{!PreOrder R}.

Lemma pres_ret {A} (a : A) : preserves R (mret a).
Proof. by intros s b s' [= <- <-]. Qed.

Lemma pres_bind {A B} (m : ST A) (f : A → ST B) :
  preserves R m → (∀ a, preserves R (f a)) → preserves R (m ≫= f).
Proof.
  intros Hm Hf s b s' Hb. apply bind_Ok in Hb as ([a s1] & Ha & Hb).
  etrans; [by eapply Hm|by eapply Hf].
Qed.

Lemma pres_gets {A} (f : t → A) : preserves R (gets f).
Proof. by intros s b s' [= <- <-]. Qed.

Lemma pres_lift {A} (r : res A) : preserves R (lift r).
Proof. intros s b s' Hb. by apply bind_Ok in Hb as (a & _ & [= <- <-]). Qed.

Lemma pres_modify f : (∀ s, R s (f s)) → preserves R (modify f).
Proof. by intros Hf s b s' [= <- <-]. Qed.

Lemma pres_table {A} (m : ObjectTable.M A) :
  (∀ s tb, R s (set_tables tb s)) → preserves R (lift_table m).
Proof. intros HR s b s' Hb. by apply bind_Ok in Hb as ([a tb] & _ & [= <- <-]). Qed.

Lemma pres_mapM {A B} (f : A → ST B) l : (∀ x, preserves R (f x)) → preserves R (mapM_ f l).
Proof.
  intros Hf. induction l as [|x l IH]; simpl; [apply pres_ret|].
  apply pres_bind; [done|]. intros y. apply pres_bind; [done|]. intros ys. apply pres_ret.
Qed.

Lemma pres_foldM {A B} (f : B → A → ST B) b l :
  (∀ b x, preserves R (f b x)) → preserves R (foldM_ f b l).
Proof.
  intros Hf. revert b. induction l as [|x l IH]; intros b; simpl; [apply pres_ret|].
  by apply pres_bind.
Qed.
End preserves.

(** ** What every operation keeps *)

(** The sequencer's table has the same open transactions; the sequence point
    stays well-formed and its version only grows; canonical peers stay
    canonical. *)
Record keeps (s s' : t) : Prop := {
  keeps_calm : Sequencer.calm (transaction_sequencer_ s) →
    Sequencer.calm (transaction_sequencer_ s') ∧
    Sequencer.open_ids (Sequencer.transactions_ (transaction_sequencer_ s')) =
    Sequencer.open_ids (Sequencer.transactions_ (transaction_sequencer_ s));
  keeps_point : SequencePointImpl.wf (current_sequence_point_ s) →
    SequencePointImpl.wf (current_sequence_point_ s') ∧
    VersionMapIsLessThanOrEqual (SequencePointImpl.version_map_ (current_sequence_point_ s))
      (SequencePointImpl.version_map_ (current_sequence_point_ s')) = true;
  keeps_peers : canonical_peer_map_wf (canonical_peer_map_ s) →
    canonical_peer_map_wf (canonical_peer_map_ s') ∧
    peers_heap (canonical_peer_map_ s) `prefix_of` peers_heap (canonical_peer_map_ s');
}.

#[local] Instance keeps_preorder : PreOrder keeps.
Proof.
  split.
  - intros s. split; [done| |done]. split; [done|]. by apply less_or_equal_has.
  - intros s1 s2 s3 [A1 B1 C1] [A2 B2 C2]. split.
    + intros Hc. destruct (A1 Hc) as [Hc1 E1]. destruct (A2 Hc1) as [Hc2 E2].
      split; [done|]. by rewrite E2.
    + intros Hw. destruct (B1 Hw) as [Hw1 L1]. destruct (B2 Hw1) as [Hw2 L2].
      split; [done|]. rewrite less_or_equal_has in *. naive_solver.
    + intros Hw. destruct (C1 Hw) as [Hw1 L1]. destruct (C2 Hw1) as [Hw2 L2].
      split; [done|]. by etrans.
Qed.

(** A step that leaves these three fields alone. *)
Lemma keeps_same s s' :
  transaction_sequencer_ s' = transaction_sequencer_ s →
  current_sequence_point_ s' = current_sequence_point_ s →
  canonical_peer_map_ s' = canonical_peer_map_ s → keeps s s'.
Proof.
  intros E1 E2 E3. split; rewrite ?E1, ?E2, ?E3; [done| |done].
  split; [done|]. by apply less_or_equal_has.
Qed.

Lemma keeps_sequencer s q :
  (Sequencer.calm (transaction_sequencer_ s) → Sequencer.calm q ∧
   Sequencer.open_ids (Sequencer.transactions_ q) =
   Sequencer.open_ids (Sequencer.transactions_ (transaction_sequencer_ s))) →
  keeps s (set_sequencer q s).
Proof. intros Hq. split; [done| |done]. split; [done|]. by apply less_or_equal_has. Qed.

Lemma keeps_sequence_point s sp :
  (SequencePointImpl.wf (current_sequence_point_ s) → SequencePointImpl.wf sp ∧
   VersionMapIsLessThanOrEqual (SequencePointImpl.version_map_ (current_sequence_point_ s))
     (SequencePointImpl.version_map_ sp) = true) →
  keeps s (set_sequence_point sp s).
Proof. by split. Qed.

Lemma keeps_table {A} (m : ObjectTable.M A) : preserves keeps (lift_table m).
Proof. apply pres_table. intros s tb. by apply keeps_same. Qed.

Lemma keeps_canonical_peer id : preserves keeps (GetCanonicalPeer_ id).
Proof.
  intros s p s' Hg. unfold GetCanonicalPeer_ in Hg.
  destruct (GetCanonicalPeer id (canonical_peer_map_ s)) as [ptr m] eqn:E.
  apply bind_Ok in Hg as (p' & _ & [= <- <-]). split; [done| |].
  - split; [done|]. by apply less_or_equal_has.
  - intros Hw. by destruct (GetCanonicalPeer_spec _ _ _ _ Hw E) as (? & _ & ?).
Qed.

Lemma keeps_send p m mode : preserves keeps (SendMessageToRemotePeer p m mode).
Proof.
  intros s b s' Hb. unfold SendMessageToRemotePeer, lift_sequencer in Hb. res_inv.
  apply keeps_sequencer. intros Hc. by eapply Sequencer.queue_open.
Qed.

Lemma keeps_broadcast m mode : preserves keeps (BroadcastMessage m mode).
Proof.
  intros s b s' Hb. unfold BroadcastMessage, lift_sequencer in Hb. res_inv.
  apply keeps_sequencer. intros Hc. by eapply Sequencer.queue_open.
Qed.

Lemma keeps_increment : preserves keeps IncrementVersionNumber_Locked.
Proof. apply pres_modify. intros s. by apply keeps_same. Qed.

Lemma keeps_set_content id c : preserves keeps (set_content id c).
Proof. intros s b s' Hb. unfold set_content in Hb. res_inv. by apply keeps_same. Qed.

Lemma keeps_get_content id : preserves keeps (GetObjectContent id).
Proof. intros s b s' Hb. unfold GetObjectContent in Hb. res_inv. by apply keeps_same. Qed.

Lemma keeps_get_or_create_content id : preserves keeps (GetOrCreateObjectContent id).
Proof. intros s b s' Hb. unfold GetOrCreateObjectContent in Hb. res_inv. by apply keeps_same. Qed.

Create HintDb store.
#[local] Hint Resolve keeps_preorder keeps_table keeps_canonical_peer keeps_send keeps_broadcast
  keeps_increment keeps_set_content keeps_get_content keeps_get_or_create_content : store.
#[local] Hint Resolve pres_ret pres_gets pres_lift : store.

(** Walks through an operation, one call at a time. *)
Ltac respects :=
  repeat first
    [ progress auto with store
    | apply pres_bind; [exact _| |intros ?]
    | apply pres_mapM; [exact _|intros ?]
    | apply pres_foldM; [exact _|intros ? ?]
    | apply pres_modify; intros ?; by apply keeps_same
    | case_match ].

Lemma keeps_update p tid : preserves keeps (UpdateCurrentSequencePoint p tid).
Proof.
  intros s b s' Hb. unfold UpdateCurrentSequencePoint in Hb.
  apply bind_Ok in Hb as ([sp s1] & [= <- <-] & Hb).
  apply bind_Ok in Hb as ([sp' s1] & Hsp & Hb). unfold lift in Hsp.
  apply bind_Ok in Hsp as (sp'' & Hsp & [= <- <-]).
  apply bind_Ok in Hb as ([u s1] & [= <- <-] & Hb).
  etrans; [|by eapply keeps_increment]. apply keeps_sequence_point. intros [Hv He Hr].
  unfold SequencePointImpl.AddPeerTransactionId in Hsp.
  apply bind_Ok in Hsp as (vm & Hvm & [= <-]).
  destruct (add_Some _ _ _ _ _ Hvm) as [Hvalid _].
  destruct (add_ok GreaterThan p tid _ Hvalid Hv) as (vm' & Hvm' & Hwf).
  rewrite Hvm in Hvm'. injection Hvm' as <-. split; [by split|].
  apply less_or_equal_has. intros q u Hq. simpl. by rewrite (has_add _ _ _ _ _ _ _ Hvm), Hq.
Qed.

Lemma reject_in_sequence_point_wf tid sp rs sp' :
  foldM (reject_in_sequence_point tid) sp rs = Ok sp' → SequencePointImpl.wf sp →
  SequencePointImpl.wf sp' ∧ SequencePointImpl.version_map_ sp' = SequencePointImpl.version_map_ sp.
Proof.
  intros Hf Hw. refine (foldM_inv (fun sp' => SequencePointImpl.wf sp' ∧
    SequencePointImpl.version_map_ sp' = SequencePointImpl.version_map_ sp) _ _ _ _ _ _ Hf);
    [|done].
  intros sp1 [p r] sp2 _ [Hw1 <-] Hr. unfold reject_in_sequence_point in Hr. simpl in Hr.
  case_bool_decide; [by eapply SequencePointImpl.AddInvalidatedRange_wf|].
  injection Hr as <-. by split; [apply SequencePointImpl.AddRejectedPeer_spec|].
Qed.

Lemma keeps_reject rs tid : preserves keeps (RejectTransactions rs tid).
Proof.
  intros s b s' Hb. unfold RejectTransactions in Hb.
  apply bind_Ok in Hb as ([sp s1] & [= <- <-] & Hb).
  apply bind_Ok in Hb as ([sp' s1] & Hsp & Hb). unfold lift in Hsp.
  apply bind_Ok in Hsp as (sp'' & Hsp & [= <- <-]).
  apply bind_Ok in Hb as ([u s1] & [= <- <-] & Hb).
  etrans.
  - apply (keeps_sequence_point _ sp''). intros Hw.
    destruct (reject_in_sequence_point_wf _ _ _ _ Hsp Hw) as [? ->]. split; [done|].
    by apply less_or_equal_has.
  - revert Hb. generalize (set_sequence_point sp'' s). intros s2.
    match goal with |- ?m _ = _ → _ => change (m s2 = Ok (b, s') → keeps s2 s') end.
    revert s2 b s'. change (∀ s2 b s', ?m s2 = Ok (b, s') → keeps s2 s') with (preserves keeps m).
    respects.
Qed.
#[local] Hint Resolve keeps_update keeps_reject : store.

Lemma keeps_reject_and_send rs tid : preserves keeps (RejectTransactionsAndSendMessages rs tid).
Proof. unfold RejectTransactionsAndSendMessages. respects. Qed.

(** Work done between the reservation and the release of a transaction. *)
Lemma keeps_bracket s tid s1 s2 u s3 :
  ReserveTransaction s = Ok (tid, s1) → keeps s1 s2 → ReleaseTransaction tid s2 = Ok (u, s3) →
  keeps s s3.
Proof.
  intros Hr Hx Hrel.
  unfold ReserveTransaction in Hr. apply bind_Ok in Hr as ([tid' q1] & Hr & [= <- <-]).
  unfold ReleaseTransaction, lift_sequencer in Hrel.
  apply bind_Ok in Hrel as ([u' q3] & Hrel & [= <- <-]). apply bind_Ok in Hrel as (q3' & Hrel & [= <- <-]).
  destruct Hx as [Hc Hp Hpeers]. split; [|exact Hp|exact Hpeers].
  intros Hcalm. simpl in *. destruct (Sequencer.reserve_open _ _ _ _ Hcalm Hr) as (Hc1 & Ho1 & Hfresh).
  destruct (Hc Hc1) as [Hc2 Ho2].
  destruct (Sequencer.release_open _ _ _ Hc2 Hrel) as (Hc3 & l1 & l2 & E1 & E2).
  split; [done|]. rewrite E2. rewrite E1, Ho1 in Ho2.
  destruct l2 as [|y l2 _] using rev_ind.
  - rewrite app_nil_r. by apply app_inj_tail in Ho2 as [? _].
  - exfalso. rewrite app_comm_cons, app_assoc in Ho2. apply app_inj_tail in Ho2 as [Ho2 <-].
    apply Hfresh, Sequencer.open_ids_elem. rewrite <- Ho2. set_solver.
Qed.

Lemma keeps_reject_in_new_transaction rs : preserves keeps (reject_in_new_transaction rs).
Proof.
  intros s tid s' Hb. unfold reject_in_new_transaction in Hb.
  apply bind_Ok in Hb as ([tid' s1] & Hr & Hb). apply bind_Ok in Hb as ([u s2] & Hx & Hb).
  apply bind_Ok in Hb as ([v s3] & Hrel & [= <- <-]).
  eapply keeps_bracket; [done| |done]. by eapply keeps_reject_and_send.
Qed.

Lemma keeps_new_references refs : preserves keeps (CreateNewObjectReferences refs).
Proof. unfold CreateNewObjectReferences. respects. Qed.

Lemma keeps_insert id p tid evs b refs rs : preserves keeps (InsertTransaction id p tid evs b refs rs).
Proof. unfold InsertTransaction. respects. Qed.

Lemma keeps_store id p trs vm refs rs : preserves keeps (StoreTransactions id p trs vm refs rs).
Proof. unfold StoreTransactions. respects. Qed.

Lemma keeps_working id vm sp refs : preserves keeps (GetWorkingVersion id vm sp refs).
Proof. unfold GetWorkingVersion. respects. Qed.

Lemma keeps_transactions id vm : preserves keeps (GetTransactions id vm).
Proof. unfold GetTransactions. respects. Qed.

Lemma keeps_cached id l sp : preserves keeps (SetCachedLiveObject id l sp).
Proof. unfold SetCachedLiveObject. respects. Qed.

Lemma keeps_affected m ids : preserves keeps (SendMessageToAffectedPeers m ids).
Proof. unfold SendMessageToAffectedPeers. respects. Qed.
#[local] Hint Resolve keeps_reject_and_send keeps_reject_in_new_transaction keeps_new_references
  keeps_insert keeps_store keeps_working keeps_transactions keeps_cached keeps_affected : store.

Lemma keeps_apply tid p trs : preserves keeps (ApplyTransaction tid p trs).
Proof. unfold ApplyTransaction, apply_to_object. respects. Qed.
#[local] Hint Resolve keeps_apply : store.

Lemma keeps_apply_and_send tid trs : preserves keeps (ApplyTransactionAndSendMessage tid trs).
Proof. unfold ApplyTransactionAndSendMessage. respects. Qed.
#[local] Hint Resolve keeps_apply_and_send : store.

Lemma keeps_create_transaction trs mods sp : preserves keeps (CreateTransaction trs mods sp).
Proof.
  intros s tid s' Hb. unfold CreateTransaction in Hb.
  apply bind_Ok in Hb as ([tid' s1] & Hr & Hb). apply bind_Ok in Hb as ([sots s2] & Hfold & Hb).
  apply bind_Ok in Hb as ([u s3] & Happ & Hb). apply bind_Ok in Hb as ([v s4] & Hrel & Hb).
  apply keeps_apply_and_send in Happ.
  assert (keeps s1 s2) as H12 by (revert Hfold; apply pres_foldM; [exact _|intros; respects]).
  etrans; [eapply keeps_bracket; [done|by etrans|done]|].
  match type of Hb with ?m _ = _ => assert (preserves keeps m) as Hm by respects end.
  by eapply Hm.
Qed.

Lemma keeps_helper id sp v refs rs :
  preserves keeps (GetLiveObjectAtSequencePoint_Helper id sp v refs rs).
Proof. unfold GetLiveObjectAtSequencePoint_Helper. respects. Qed.
#[local] Hint Resolve keeps_helper : store.

Lemma keeps_wait others id sp v refs rs :
  Forall (preserves keeps) others → preserves keeps (wait_for_object others id sp v refs rs).
Proof. intros Ho. revert v refs rs. induction Ho; intros v refs rs; simpl; respects. Qed.

Lemma keeps_finish lo refs rs : preserves keeps (finish_get_live_object lo refs rs).
Proof. unfold finish_get_live_object. respects. Qed.
#[local] Hint Resolve keeps_finish keeps_wait : store.

Lemma keeps_get_live_object r sp wait others :
  Forall (preserves keeps) others → preserves keeps (GetLiveObjectAtSequencePoint r sp wait others).
Proof. intros Ho. unfold GetLiveObjectAtSequencePoint. respects. Qed.

Lemma keeps_decode ps : preserves keeps (decode_events ps).
Proof. unfold decode_events. respects. Qed.
#[local] Hint Resolve keeps_decode : store.

Lemma keeps_handle p m : preserves keeps (HandleMessageFromRemotePeer p m).
Proof.
  unfold HandleMessageFromRemotePeer.
  apply pres_bind; [exact _|auto with store|]. intros ty.
  destruct ty; try solve [auto with store];
    (apply pres_bind; [exact _|auto with store|]; intros x).
  - unfold HandleApplyTransactionMessage, decode_object_transaction. respects.
  - unfold HandleGetObjectMessage, encode_transaction. respects.
  - unfold HandleStoreObjectMessage, decode_transaction. respects.
  - intros s b s' Hb. unfold HandleRejectTransactionMessage in Hb.
    apply bind_Ok in Hb as ([rs s1] & Hrs & Hb). apply bind_Ok in Hb as ([tid s2] & Hr & Hb).
    apply bind_Ok in Hb as ([u s3] & Hx & Hb). apply bind_Ok in Hb as ([v s4] & Hrel & Hb).
    apply keeps_reject in Hx.
    assert (keeps s s1) as H1 by (revert Hrs; apply pres_mapM; [exact _|intros; respects]).
    etrans; [exact H1|]. etrans; [by eapply keeps_bracket|].
    match type of Hb with ?m _ = _ => assert (preserves keeps m) as Hm by respects end.
    by eapply Hm.
  - intros s b s' Hb. unfold HandleInvalidateTransactionsMessage in Hb.
    apply bind_Ok in Hb as ([sp s1] & [= <- <-] & Hb).
    apply bind_Ok in Hb as ([sp' s1] & Hsp & Hb). unfold lift in Hsp.
    apply bind_Ok in Hsp as (sp'' & Hsp & [= <- <-]).
    apply bind_Ok in Hb as ([u s1] & [= <- <-] & Hb).
    etrans; [apply (keeps_sequence_point _ sp'')|].
    + intros Hw. destruct (SequencePointImpl.AddInvalidatedRange_wf _ _ _ _ _ Hw Hsp) as [? ->].
      split; [done|]. by apply less_or_equal_has.
    + match type of Hb with ?m _ = _ => assert (preserves keeps m) as Hm by respects end.
      by eapply Hm.
Qed.

Lemma keeps_new_connection p : preserves keeps (NotifyNewConnection p).
Proof. unfold NotifyNewConnection. respects. Qed.

Lemma keeps_phase tid : preserves keeps (GetExecutionPhase tid).
Proof. unfold GetExecutionPhase. respects. Qed.

(** ** The life of a peer *)

(** What the threads of a peer do: the messages of other peers, new
    connections, and the calls of the recording thread.  While the recording
    thread waits for an object, messages are handled. *)
Inductive step : t → t → Prop :=
| step_message p m u s s' : HandleMessageFromRemotePeer p m s = Ok (u, s') → step s s'
| step_connection p u s s' : NotifyNewConnection p s = Ok (u, s') → step s s'
| step_create transactions modified_objects sp tid s s' :
    CreateTransaction transactions modified_objects sp s = Ok (tid, s') → step s s'
| step_get_live_object r sp wait (messages : list (CanonicalPeer * PeerMessage.t)) x s s' :
    GetLiveObjectAtSequencePoint r sp wait
      ((fun pm => HandleMessageFromRemotePeer pm.1 pm.2) <$> messages) s = Ok (x, s') →
    step s s'
| step_unbound_reference r s s' :
    lift_table ObjectTable.CreateUnboundObjectReference s = Ok (r, s') → step s s'
| step_bound_reference name r s s' :
    lift_table (ObjectTable.CreateBoundObjectReference GenerateUuid GeneratePredictableUuid name) s
      = Ok (r, s') → step s s'
| step_phase base phase s s' : GetExecutionPhase base s = Ok (phase, s') → step s s'
| step_wait_for_rewind s s' : WaitForRewind s = Some s' → step s s'.

Lemma step_keeps s s' : step s s' → keeps s s'.
Proof.
  destruct 1 as [p m u s s' E|p u s s' E|trs mods sp tid s s' E|r sp wait msgs x s s' E|r s s' E
    |name r s s' E|base ph s s' E|s s' E].
  - by eapply keeps_handle.
  - by eapply keeps_new_connection.
  - by eapply keeps_create_transaction.
  - eapply keeps_get_live_object; [|done]. apply Forall_fmap, Forall_forall.
    intros pm _. apply keeps_handle.
  - by eapply keeps_table.
  - by eapply keeps_table.
  - by eapply keeps_phase.
  - unfold WaitForRewind in E. case_match; [done|]. injection E as <-. by apply keeps_same.
Qed.

Lemma new_store_ok peers g h s :
  New peers g h = Ok s →
  Sequencer.calm (transaction_sequencer_ s) ∧
  Sequencer.open_ids (Sequencer.transactions_ (transaction_sequencer_ s)) = [] ∧
  SequencePointImpl.wf (current_sequence_point_ s) ∧ canonical_peer_map_ s = peers.
Proof.
  unfold New. destruct (generate (clock 0) g) as [tid g']. intros Hn.
  apply bind_Ok in Hn as (sp & Hsp & [= <-]). simpl.
  split_and!; [by split; [apply map_wf_nil|]|done| |done].
  unfold SequencePointImpl.AddPeerTransactionId in Hsp. apply bind_Ok in Hsp as (vm & Hvm & [= <-]).
  destruct (add_Some _ _ _ _ _ Hvm) as [Hvalid _]. destruct SequencePointImpl.wf_New as [Hv He Hr].
  destruct (add_ok GreaterThan local_peer_ tid _ Hvalid Hv) as (vm' & Hvm' & Hwf).
  rewrite Hvm in Hvm'. injection Hvm' as <-. by split.
Qed.

(** C1 (invariant). From the start of a peer, whatever messages arrive and
    whatever the recording thread does, between two operations: no outgoing
    message waits in the sequencer (every transaction that was reserved has
    been released and its messages sent), the current sequence point is
    well-formed, there is one canonical peer per id, and the version of the
    sequence point has only grown. *)
Theorem peer_invariant peers g h s0 s :
  canonical_peer_map_wf peers → New peers g h = Ok s0 → rtc step s0 s →
  Sequencer.transactions_ (transaction_sequencer_ s) = [] ∧
  SequencePointImpl.wf (current_sequence_point_ s) ∧
  canonical_peer_map_wf (canonical_peer_map_ s) ∧
  VersionMapIsLessThanOrEqual (SequencePointImpl.version_map_ (current_sequence_point_ s0))
    (SequencePointImpl.version_map_ (current_sequence_point_ s)) = true.
Proof.
  intros Hpeers Hn Hsteps. destruct (new_store_ok _ _ _ _ Hn) as (Hc & Ho & Hsp & <-).
  assert (keeps s0 s) as [K1 K2 K3].
  { clear -Hsteps. induction Hsteps as [|s0 s1 s Hs _ IH]; [reflexivity|].
    etrans; [by apply step_keeps|done]. }
  destruct (K1 Hc) as [Hc' Ho']. destruct (K2 Hsp) as [? ?]. destruct (K3 Hpeers) as [? _].
  split_and!; [|done..]. apply Sequencer.calm_closed; [done|]. by rewrite Ho'.
Qed.

(** ** Rewinding *)

(** What the frames of the recording thread are told, innermost first, when the
    transactions from [m] on have been rejected. *)
Fixpoint unwind (m : TransactionId) (bases : list TransactionId) : list ExecutionPhase :=
  match bases with
  | [] => []
  | base :: outer =>
      if ltb base m then RESUME :: ((fun _ => NORMAL) <$> outer)
      else REWIND :: unwind m outer
  end.

Lemma mapM_cons {A B} (f : A → ST B) x l s :
  mapM_ f (x :: l) s = '(y, s1) ← f x s; '(ys, s2) ← mapM_ f l s1; Ok (y :: ys, s2).
Proof. done. Qed.

Lemma phase_eq b s :
  GetExecutionPhase b s =
  Ok (if tid_eqb (rejected_transaction_id_ s) MIN_TRANSACTION_ID then (NORMAL, s)
      else if ltb b (rejected_transaction_id_ s) then (RESUME, set_rejected MIN_TRANSACTION_ID s)
      else (REWIND, s)).
Proof.
  unfold GetExecutionPhase, tid_geb, mbind, ST_bind, gets. simpl.
  destruct (tid_eqb (rejected_transaction_id_ s) MIN_TRANSACTION_ID); [done|].
  by destruct (ltb b (rejected_transaction_id_ s)).
Qed.

Lemma phases_normal bases s :
  rejected_transaction_id_ s = MIN_TRANSACTION_ID →
  mapM_ GetExecutionPhase bases s = Ok ((fun _ => NORMAL) <$> bases, s).
Proof.
  intros Hm. induction bases as [|b bases IH]; [done|].
  rewrite mapM_cons, phase_eq, Hm. cbn -[mapM_]. by rewrite IH.
Qed.

Lemma phases_unwind m bases s :
  rejected_transaction_id_ s = m → m ≠ MIN_TRANSACTION_ID →
  mapM_ GetExecutionPhase bases s =
    Ok (unwind m bases, if existsb (fun b => ltb b m) bases
                        then set_rejected MIN_TRANSACTION_ID s else s).
Proof.
  intros Hm Hne. induction bases as [|b bases IH]; [done|].
  rewrite mapM_cons, phase_eq, Hm.
  destruct (tid_eqb m MIN_TRANSACTION_ID) eqn:E; [by apply tid_eqb_eq in E|].
  simpl. destruct (ltb b m) eqn:Eb; cbn -[mapM_]; [by rewrite phases_normal|by rewrite IH].
Qed.

(** The first rejected local transaction. *)
Lemma reject_in_message_fold rs acc :
  foldl reject_in_message acc rs =
  (foldl (fun m (r : CanonicalPeer * TransactionId) => if ltb r.2 m then r.2 else m) acc.1
     (filter (fun r => r.1 = local_peer_) rs),
   acc.2 ++ ((fun r : CanonicalPeer * TransactionId =>
      {| PeerMessage.rp_rejected_peer_id := peer_id r.1;
         PeerMessage.rp_rejected_transaction_id := r.2 |}) <$>
      filter (fun r => r.1 ≠ local_peer_) rs)).
Proof.
  revert acc. induction rs as [|[p r] rs IH]; intros [m l]; simpl; [by rewrite app_nil_r|].
  rewrite IH. unfold reject_in_message. simpl. destruct (decide (p = local_peer_)) as [->|Hne].
  - rewrite bool_decide_true, filter_cons_True, filter_cons_False by naive_solver. done.
  - rewrite bool_decide_false, filter_cons_False, filter_cons_True by naive_solver. simpl.
    by rewrite <- app_assoc.
Qed.

Lemma fold_min_spec (l : reject_list) m0 :
  let m := foldl (fun m (r : CanonicalPeer * TransactionId) => if ltb r.2 m then r.2 else m) m0 l in
  m ⪯ m0 ∧ (∀ r, r ∈ l → m ⪯ r.2) ∧ (m = m0 ∨ ∃ r, r ∈ l ∧ r.2 = m).
Proof.
  revert m0. induction l as [|[p r] l IH]; intros m0; simpl.
  { split_and!; [ord|by intros r ?%elem_of_nil|by left]. }
  destruct (IH (if ltb r m0 then r else m0)) as (H1 & H2 & H3).
  destruct (ltb r m0) eqn:E; (split_and!; [ord| |]).
  - intros x [->|Hx]%elem_of_cons; [done|by apply H2].
  - right. destruct H3 as [->|(x & ? & ?)]; [exists (p, r)|exists x]; set_solver.
  - intros x [->|Hx]%elem_of_cons; [simpl; ord|by apply H2].
  - destruct H3 as [->|(x & ? & ?)]; [by left|right]. exists x. set_solver.
Qed.

(** The first of the local transactions in a list of rejections. *)
Definition first_local (rs : reject_list) (m : TransactionId) : Prop :=
  (local_peer_, m) ∈ rs ∧ ∀ r, (local_peer_, r) ∈ rs → m ⪯ r.

Definition invalidation (m tid : TransactionId) : PeerMessage.t :=
  PeerMessage.InvalidateTransactions
    {| PeerMessage.it_start_transaction_id := m; PeerMessage.it_end_transaction_id := tid |}.

(** The two outcomes of the loop that looks for the first local transaction. *)
Lemma fold_first_local rs tid :
  IsValidTransactionId tid = true → (∀ r, (local_peer_, r) ∈ rs → r ⪯ tid) →
  let m := (foldl reject_in_message (MAX_TRANSACTION_ID, []) rs).1 in
  if ltb m MAX_TRANSACTION_ID then first_local rs m else ∀ r, (local_peer_, r) ∉ rs.
Proof.
  intros Hv Hle. rewrite reject_in_message_fold. cbn [fst].
  set (l := filter _ rs). pose proof (fold_min_spec l MAX_TRANSACTION_ID) as (_ & Hmin & Hin).
  revert Hmin Hin. generalize (foldl (fun m (r : CanonicalPeer * TransactionId) =>
    if ltb r.2 m then r.2 else m) MAX_TRANSACTION_ID l). intros m Hmin Hin.
  assert (tid ≺ MAX_TRANSACTION_ID) as Hmax.
  { apply tid_ltb_iff. unfold IsValidTransactionId in Hv. apply andb_true_iff in Hv as [_ Hv].
    apply Z.ltb_lt in Hv. simpl. lia. }
  assert (∀ r, (local_peer_, r) ∈ rs → m ⪯ r) as Hall.
  { intros r Hr. apply (Hmin (local_peer_, r)). by apply list_elem_of_filter. }
  destruct (ltb m MAX_TRANSACTION_ID) eqn:E; cycle 1.
  { intros r Hr. specialize (Hall r Hr). specialize (Hle r Hr). ord. }
  split; [|done]. destruct Hin as [->|([p r] & Hr & <-)]; [by rewrite ltb_irrefl in E|].
  apply list_elem_of_filter in Hr as [? Hr]. simpl in *. by subst.
Qed.

Lemma reject_in_sequence_point_total tid rs sp :
  SequencePointImpl.wf sp → (∀ r, (local_peer_, r) ∈ rs → r ⪯ tid) →
  ∃ sp', foldM (reject_in_sequence_point tid) sp rs = Ok sp' ∧ SequencePointImpl.wf sp' ∧
    ∀ p u, p ≠ local_peer_ → SequencePointImpl.visible sp' p u =
      SequencePointImpl.visible sp p u &&
      forallb (fun x : CanonicalPeer * TransactionId =>
        negb (bool_decide (x.1 = p)) || ltb u x.2) rs.
Proof.
  revert sp. induction rs as [|[q r] rs IH]; intros sp Hw Hle; simpl.
  { exists sp. split_and!; [done..|]. intros p u _. by rewrite andb_true_r. }
  assert (∃ sp1, reject_in_sequence_point tid sp (q, r) = Ok sp1 ∧ SequencePointImpl.wf sp1 ∧
    ∀ p u, p ≠ local_peer_ → SequencePointImpl.visible sp1 p u =
      SequencePointImpl.visible sp p u && (negb (bool_decide (q = p)) || ltb u r))
    as (sp1 & -> & Hw1 & Hv1).
  { unfold reject_in_sequence_point. simpl. case_bool_decide as Hq.
    - subst q. destruct (SequencePointImpl.AddInvalidatedRange_frame sp local_peer_ r tid Hw)
        as (sp1 & E & Hw1 & _ & Hf); [apply Hle; left|]. exists sp1. split_and!; [done..|].
      intros p u Hp. rewrite Hf by done. rewrite bool_decide_false by done. simpl.
      by rewrite andb_true_r.
    - eexists. split; [done|]. destruct (SequencePointImpl.AddRejectedPeer_spec sp q r Hw) as [? Hv].
      split; [done|]. intros p u _. rewrite Hv. do 3 f_equal. by apply bool_decide_ext. }
  simpl. destruct (IH sp1 Hw1) as (sp' & -> & Hw' & Hv'); [intros x Hx; apply Hle; by right|].
  exists sp'. split_and!; [done..|]. intros p u Hp. by rewrite Hv', Hv1, andb_assoc.
Qed.

Lemma RejectTransactions_eq rs tid s sp :
  foldM (reject_in_sequence_point tid) (current_sequence_point_ s) rs = Ok sp →
  RejectTransactions rs tid s =
  let acc := foldl reject_in_message (MAX_TRANSACTION_ID, []) rs in
  let s1 := set_version_number (uint64 (version_number_ s + 1)) (set_sequence_point sp s) in
  '(_, s2) ← (if ltb acc.1 MAX_TRANSACTION_ID
              then BroadcastMessage (invalidation acc.1 tid) BLOCKING_MODE (set_rejected acc.1 s1)
              else Ok (tt, s1));
  Ok ({| PeerMessage.rt_rejected_peer := acc.2; PeerMessage.rt_new_transaction_id := tid |}, s2).
Proof.
  intros Hsp. unfold RejectTransactions, mbind at 1, ST_bind, gets. cbn [mbind res_bind].
  unfold lift, mbind at 1, ST_bind. rewrite Hsp. cbn [mbind res_bind].
  destruct (foldl reject_in_message (MAX_TRANSACTION_ID, []) rs) as [m l]. cbn -[ltb BroadcastMessage].
  by destruct (ltb m MAX_TRANSACTION_ID).
Qed.



(** ** A transaction of another peer *)
Definition contents (s : t) : gmap Uuid (ObjectTable.SharedObject ObjectContent.t) :=
  ObjectTable.shared_objects_ (tables s).
Definition current_versions (s : t) : version_map :=
  SequencePointImpl.version_map_ (current_sequence_point_ s).

(** Neither the contents of the objects nor the versions of other peers in the
    current sequence point change. *)
Record quiet (s s' : t) : Prop := {
  quiet_contents : ObjectTable.contents_kept (tables s) (tables s');
  quiet_versions q : q ≠ local_peer_ → current_versions s' !! q = current_versions s !! q;
}.

#[local] Instance quiet_preorder : PreOrder quiet.
Proof.
  split; [by split|]. intros s1 s2 s3 [A1 B1] [A2 B2]. split; [by etrans|].
  intros q Hq. by rewrite B2, B1.
Qed.

Lemma quiet_same s s' :
  tables s' = tables s → current_sequence_point_ s' = current_sequence_point_ s → quiet s s'.
Proof. intros E1 E2. split; [by rewrite E1|]. intros q _. unfold current_versions. by rewrite E2. Qed.

Lemma quiet_table {A} (m : ObjectTable.M A) :
  ObjectTable.keeps_contents m → preserves quiet (lift_table m).
Proof.
  intros Hm s b s' Hb. apply bind_Ok in Hb as ([a tb] & Hb & [= <- <-]). split; [by eapply Hm|done].
Qed.

Lemma quiet_sequencer {A} (m : Sequencer.t G → res (A * Sequencer.t G)) :
  preserves quiet (lift_sequencer m).
Proof. intros s b s' Hb. apply bind_Ok in Hb as ([a q] & _ & [= <- <-]). by apply quiet_same. Qed.

Lemma quiet_reserve : preserves quiet ReserveTransaction.
Proof. intros s b s' Hb. apply bind_Ok in Hb as ([a q] & _ & [= <- <-]). by apply quiet_same. Qed.

Lemma quiet_increment : preserves quiet IncrementVersionNumber_Locked.
Proof. apply pres_modify. intros s. by apply quiet_same. Qed.

Lemma reject_versions tid rs sp sp' :
  foldM (reject_in_sequence_point tid) sp rs = Ok sp' →
  SequencePointImpl.version_map_ sp' = SequencePointImpl.version_map_ sp.
Proof.
  intros Hf. refine (foldM_inv (fun sp' => SequencePointImpl.version_map_ sp' =
    SequencePointImpl.version_map_ sp) _ _ _ _ _ _ Hf); [|done].
  intros sp1 [p r] sp2 _ <- Hr. unfold reject_in_sequence_point in Hr. case_bool_decide.
  - unfold SequencePointImpl.AddInvalidatedRange in Hr. res_inv. done.
  - by injection Hr as <-.
Qed.

Lemma quiet_reject rs tid : preserves quiet (RejectTransactions rs tid).
Proof.
  intros s m s' Hr.
  destruct (foldM (reject_in_sequence_point tid) (current_sequence_point_ s) rs) as [sp| |] eqn:Hsp.
  2-3: unfold RejectTransactions, mbind, ST_bind, gets, lift in Hr; simpl in Hr;
    by rewrite Hsp in Hr.
  rewrite (RejectTransactions_eq _ _ _ _ Hsp) in Hr. cbn zeta in Hr.
  apply bind_Ok in Hr as ([u s1] & Hs1 & [= <- <-]). apply reject_versions in Hsp.
  destruct (ltb _ _).
  - etrans; [|eapply quiet_sequencer; exact Hs1]. split; [done|].
    intros q _. unfold current_versions. simpl. by rewrite Hsp.
  - injection Hs1 as <- <-. split; [done|]. intros q _. unfold current_versions. simpl. by rewrite Hsp.
Qed.

Lemma quiet_update tid : preserves quiet (UpdateCurrentSequencePoint local_peer_ tid).
Proof.
  intros s b s' Hb. unfold UpdateCurrentSequencePoint in Hb.
  apply bind_Ok in Hb as ([sp s1] & [= <- <-] & Hb).
  apply bind_Ok in Hb as ([sp' s1] & Hsp & Hb). unfold lift in Hsp.
  apply bind_Ok in Hsp as (sp'' & Hsp & [= <- <-]).
  apply bind_Ok in Hb as ([u s1] & [= <- <-] & Hb).
  etrans; [|by eapply quiet_increment]. split; [done|]. intros q Hq. unfold current_versions. simpl.
  unfold SequencePointImpl.AddPeerTransactionId in Hsp. apply bind_Ok in Hsp as (vm & Hvm & [= <-]).
  by apply (add_Some _ _ _ _ _ Hvm).
Qed.

Lemma quiet_reject_in_new_transaction rs : preserves quiet (reject_in_new_transaction rs).
Proof.
  pose proof quiet_preorder. unfold reject_in_new_transaction, RejectTransactionsAndSendMessages.
  repeat first
    [ apply quiet_reserve | apply quiet_reject | apply quiet_sequencer | apply (pres_ret quiet)
    | apply pres_bind; [exact _| |intros ?] | case_match ].
Qed.

Lemma quiet_decode ps : preserves quiet (decode_events ps).
Proof.
  apply pres_mapM; [exact _|]. intros p. apply quiet_table, ObjectTable.kc_decode.
Qed.

Section playback_frame.
(** A replay leaves the contents of the shared objects alone. *)
Definition world_kept (w w' : world) : Prop := ObjectTable.contents_kept w.1 w'.1.
Context (frame : ∀ id, PlaybackFrame (H := playback id) world P world_kept).

#[local] Instance world_kept_preorder : PreOrder world_kept.
Proof.
  split; [intros w; unfold world_kept; reflexivity|].
  intros w1 w2 w3 H1 H2. unfold world_kept in *. by etrans.
Qed.

(** What a history is after a transaction was inserted. *)
Definition recorded (p : CanonicalPeer) (tid : TransactionId) (evs : list CommittedEvent.t)
    (c c' : ObjectContent.t) : Prop :=
  MaxHas p tid (ObjectContent.version_map_ c') = true ∧ p ∈ ObjectContent.up_to_date_peers_ c' ∧
  map_find tid (ObjectContent.committed_versions_ c') =
    Some (default {| SharedObjectTransaction.events := evs; SharedObjectTransaction.origin_peer := p |}
            (map_find tid (ObjectContent.committed_versions_ c))) ∧
  ∀ k, k ≠ tid → map_find k (ObjectContent.committed_versions_ c') =
                 map_find k (ObjectContent.committed_versions_ c).

Definition content_of (so : ObjectTable.SharedObject ObjectContent.t) : ObjectContent.t :=
  default ObjectContent.New (ObjectTable.object_content_ so).

(** One object's history gets the transaction, the others stay as they are. *)
Lemma insert_store id p tid evs loc refs rs s r s' :
  InsertTransaction id p tid evs loc refs rs s = Ok (r, s') →
  current_sequence_point_ s' = current_sequence_point_ s ∧
  (∃ so so' c', contents s !! id = Some so ∧ contents s' !! id = Some so' ∧
     ObjectTable.object_content_ so' = Some c' ∧ recorded p tid evs (content_of so) c') ∧
  ∀ id' so, id' ≠ id → contents s !! id' = Some so →
    ∃ so', contents s' !! id' = Some so' ∧
      ObjectTable.object_content_ so' = ObjectTable.object_content_ so.
Proof.
  intros Hi. unfold InsertTransaction in Hi. apply bind_Ok in Hi as ([c s1] & Hc & Hi).
  unfold GetOrCreateObjectContent in Hc. apply bind_Ok in Hc as (so & Hso%deref_Ok & [= <- <-]).
  apply bind_Ok in Hi as ([tb s1] & [= <- <-] & Hi).
  apply bind_Ok in Hi as ([[[c' w'] rs'] s1] & Hr & Hi). unfold lift in Hr.
  apply bind_Ok in Hr as (x & Hins & [= -> <-]).
  apply bind_Ok in Hi as ([u s1] & [= <- <-] & Hi). apply bind_Ok in Hi as ([v s2] & Hset & [= <- <-]).
  unfold set_content in Hset. apply bind_Ok in Hset as (so1 & Hso1%deref_Ok & [= <- <-]).
  apply (ObjectContent.insert_recorded empty_references restore_references world_kept) in Hins
    as (HF & Hvm & Hp & Htr & Hk); [|by intros w1 w2].
  split; [done|]. split.
  - eexists so, _, c'. split; [done|]. unfold contents. simpl. rewrite lookup_insert_eq.
    split; [done|]. split; [done|]. split_and!; [done..| |done].
    destruct (map_find tid (ObjectContent.committed_versions_ (content_of so))) as [tr|] eqn:E;
      unfold content_of in E; rewrite E in Htr; [done|]. simpl.
    destruct Htr as (tr & Hnew & ->). by rewrite (SharedObjectTransaction.New_Ok _ _ _ Hnew).
  - intros id' so' Hne Hso'. destruct (HF id' so' Hso') as (so2 & Hso2 & Ec).
    exists so2. unfold contents. simpl. by rewrite lookup_insert_ne.
Qed.

Definition same_content (s s' : t) (id : Uuid) : Prop :=
  ∀ so, contents s !! id = Some so →
    ∃ so', contents s' !! id = Some so' ∧
      ObjectTable.object_content_ so' = ObjectTable.object_content_ so.

Lemma same_content_trans s1 s2 s3 id :
  same_content s1 s2 id → same_content s2 s3 id → same_content s1 s3 id.
Proof. intros H1 H2 so Hso. destruct (H1 so Hso) as (so' & Hso' & <-). by apply H2. Qed.

Lemma quiet_same_content s s' id : quiet s s' → same_content s s' id.
Proof. intros [Hq _]. exact (Hq id). Qed.

(** The history of [id] gets the transaction [tid]. *)
Definition gets_transaction (p : CanonicalPeer) (tid : TransactionId)
    (evs : list CommittedEvent.t) (id : Uuid) (s s' : t) : Prop :=
  ∃ so so' c', contents s !! id = Some so ∧ contents s' !! id = Some so' ∧
    ObjectTable.object_content_ so' = Some c' ∧ recorded p tid evs (content_of so) c'.

Lemma gets_transaction_frame p tid evs id s1 s2 s3 s4 :
  same_content s1 s2 id → is_Some (contents s1 !! id) → gets_transaction p tid evs id s2 s3 →
  same_content s3 s4 id → gets_transaction p tid evs id s1 s4.
Proof.
  intros H12 [so1 Hso1] (so2 & so3 & c' & E2 & E3 & Ec & Hrec) H34.
  destruct (H12 so1 Hso1) as (so2' & E2' & Ec1). rewrite E2 in E2'. injection E2' as <-.
  destruct (H34 so3 E3) as (so4 & E4 & Ec4). exists so1, so4, c'.
  split_and!; [done..|congruence|]. unfold content_of in *. by rewrite <- Ec1.
Qed.

Lemma apply_fold tid p l acc s acc' s' :
  NoDup l.*1 → foldM_ (apply_to_object tid p) acc l s = Ok (acc', s') →
  current_sequence_point_ s' = current_sequence_point_ s ∧
  (∀ x, x ∈ l → is_Some (contents s !! x.1) →
     gets_transaction p tid (SharedObjectTransaction.events x.2) x.1 s s') ∧
  (∀ id, id ∉ l.*1 → same_content s s' id).
Proof.
  revert acc s. induction l as [|[id tr] l IH]; intros [refs rej] s Hnd Hf.
  { injection Hf as <- <-. split_and!; [done|by intros x ?%elem_of_nil|].
    intros id _ so Hso. by exists so. }
  apply NoDup_cons in Hnd as [Hid Hnd]. apply bind_Ok in Hf as ([acc1 s1] & Ha & Hf).
  unfold apply_to_object in Ha. apply bind_Ok in Ha as ([u s0] & Hck & Ha). unfold lift in Hck.
  apply bind_Ok in Hck as (u' & _ & [= <- <-]). apply bind_Ok in Ha as ([r s0] & Hins & [= <- <-]).
  destruct (insert_store _ _ _ _ _ _ _ _ _ _ Hins) as (Esp & Hget & Hother).
  assert (Hne : ∀ x, x ∈ l → x.1 ≠ id).
  { intros x Hx <-. apply Hid, list_elem_of_fmap. by exists x. }
  assert (Hkeep : ∀ id', id' ≠ id → same_content s s0 id') by (intros id' ? so; by apply Hother).
  apply IH in Hf as (Esp' & Hgets & Hothers); [|done]. split; [congruence|]. split.
  - intros x [->|Hx]%elem_of_cons Hex.
    + eapply (gets_transaction_frame _ _ _ _ s s s0 s'); [intros so Hso; by exists so|done|done|by apply Hothers].
    + eapply (gets_transaction_frame _ _ _ _ s s0 s' s'); [by apply Hkeep, Hne|done| |].
      * apply Hgets; [done|]. destruct Hex as [so Hso].
        destruct (Hkeep x.1 (Hne x Hx) so Hso) as (so' & ? & _). by exists so'.
      * intros so Hso. by exists so.
  - intros id' [Hn Hnot]%not_elem_of_cons.
    eapply same_content_trans; [by apply Hkeep|by apply Hothers].
Qed.

Lemma decode_fold p l out s out' s' :
  foldM_ (decode_object_transaction p) out l s = Ok (out', s') →
  quiet s s' ∧ (∀ id tr, out !! id = Some tr → out' !! id = Some tr) ∧
  (∀ id, is_Some (out' !! id) → is_Some (out !! id) ∨
     (id ∈ PeerMessage.ot_object_id <$> l ∧ is_Some (contents s' !! id))) ∧
  ∀ ot, ot ∈ l → is_Some (contents s !! PeerMessage.ot_object_id ot) →
    ∃ tr s1 s2, out' !! PeerMessage.ot_object_id ot = Some tr ∧
      decode_events (PeerMessage.ot_event ot) s1 = Ok (SharedObjectTransaction.events tr, s2).
Proof.
  revert out s. induction l as [|ot l IH]; intros out s Hf.
  { injection Hf as <- <-. split_and!; [reflexivity|done|by left|by intros ot ?%elem_of_nil]. }
  apply bind_Ok in Hf as ([out1 s1] & Hot & Hf). apply IH in Hf as (Hq & Hmono & Hids & Hgets).
  unfold decode_object_transaction in Hot. apply bind_Ok in Hot as ([tb s0] & [= <- <-] & Hot).
  unfold ObjectTable.GetSharedObject in Hot. case_bool_decide as Hex; cycle 1.
  { injection Hot as <- <-. split_and!; [done|done| |].
    - intros id Hid. destruct (Hids id Hid) as [?|[? ?]]; [by left|right; csimpl; set_solver].
    - intros ot' [->|Hin]%elem_of_cons Hs; [by destruct Hex|by apply Hgets]. }
  apply bind_Ok in Hot as ([evs s2] & Hdec & Hot). pose proof (quiet_decode _ _ _ _ Hdec) as Hq1.
  apply bind_Ok in Hot as ([tr s3] & Hnew & Hot). unfold lift in Hnew.
  apply bind_Ok in Hnew as (tr' & Hnew & [= <- <-]). apply SharedObjectTransaction.New_Ok in Hnew as ->.
  apply bind_Ok in Hot as ([u s3] & Hck & [= <- <-]). unfold lift in Hck.
  apply bind_Ok in Hck as ([] & Hfresh%CHECK_Ok & [= <- <-]). apply bool_decide_eq_true in Hfresh.
  assert (Hex' : ∀ id, is_Some (contents s !! id) → is_Some (contents s' !! id)).
  { intros id [so Hso]. assert (quiet s s') as Hss by (by etrans).
    destruct (quiet_same_content _ _ id Hss so Hso) as (so' & ? & _). by exists so'. }
  split_and!; [by etrans| | |].
  - intros id tr Hid. apply Hmono. rewrite lookup_insert_ne; [done|congruence].
  - intros id Hid. destruct (Hids id Hid) as [Hid'|[? ?]]; [|right; csimpl; set_solver].
    destruct (decide (id = PeerMessage.ot_object_id ot)) as [->|Hne].
    + right. csimpl. split; [left|]. by apply Hex'.
    + rewrite lookup_insert_ne in Hid' by done. by left.
  - intros ot' [->|Hin]%elem_of_cons Hs.
    + eexists _, s, s2. split; [apply Hmono; by rewrite lookup_insert_eq|done].
    + apply Hgets; [done|]. destruct Hs as [so Hso].
      destruct (quiet_same_content _ _ _ Hq1 so Hso) as (so' & ? & _). by exists so'.
Qed.

Lemma apply_message_effect p m u s s' :
  HandleApplyTransactionMessage p m s = Ok (u, s') →
  (∀ ot, ot ∈ PeerMessage.at_object_transaction m →
     is_Some (contents s !! PeerMessage.ot_object_id ot) →
     ∃ evs s1 s2, decode_events (PeerMessage.ot_event ot) s1 = Ok (evs, s2) ∧
       gets_transaction p (PeerMessage.at_transaction_id m) evs (PeerMessage.ot_object_id ot) s s') ∧
  (∀ id, id ∉ PeerMessage.ot_object_id <$> PeerMessage.at_object_transaction m →
     same_content s s' id) ∧
  (∀ q, q ≠ local_peer_ → current_versions s' !! q = current_versions s !! q).
Proof.
  intros Hh. unfold HandleApplyTransactionMessage in Hh.
  apply bind_Ok in Hh as ([trs s1] & Hdec & Hh). apply decode_fold in Hdec as (Hq1 & _ & Hids & Hgets).
  unfold ApplyTransaction in Hh. apply bind_Ok in Hh as ([acc s2] & Hfold & Hh).
  apply apply_fold in Hfold as (Esp & Hall & Hrest); [|apply NoDup_fst_map_to_list].
  apply bind_Ok in Hh as ([tid s3] & Hr%quiet_reject_in_new_transaction & Hh).
  apply bind_Ok in Hh as ([v s4] & Hn & Hh%quiet_update).
  apply quiet_table in Hn; [|apply ObjectTable.kc_new_references].
  assert (Hq2 : quiet s2 s') by (etrans; [exact Hr|by etrans]). split_and!.
  - intros ot Hot Hs. destruct (Hgets ot Hot Hs) as (tr & t1 & t2 & Htr & Hd).
    exists (SharedObjectTransaction.events tr), t1, t2. split; [done|].
    eapply gets_transaction_frame; [by apply quiet_same_content|done| |by apply quiet_same_content].
    apply (Hall (_, tr)); [by apply elem_of_map_to_list|]. destruct Hs as [so Hso].
    destruct (quiet_same_content _ _ _ Hq1 so Hso) as (so' & ? & _). by exists so'.
  - intros id Hid. eapply same_content_trans; [by apply quiet_same_content|].
    eapply same_content_trans; [|by apply quiet_same_content]. apply Hrest.
    intros ([id' tr] & -> & Hin%elem_of_map_to_list)%list_elem_of_fmap.
    destruct (Hids id' ltac:(by eauto)) as [[? []%lookup_empty_Some]|[? _]]; done.
  - intros q Hq. rewrite (quiet_versions _ _ Hq2 q Hq). unfold current_versions at 1. rewrite Esp.
    by apply quiet_versions.
Qed.

(** C13 (functional). When the APPLY_TRANSACTION message of another peer has been
    handled, the history of every object it names and this peer knows holds the
    transaction (as it was, if it was there already; else with the decoded
    events and the sender as origin), the sender counts as up to date there, and
    every other history is unchanged.  The version of the current sequence point
    is not advanced for the sender: its transactions stay outside the sequence
    points that new local transactions start from. *)
Theorem apply_message_recorded p m u s s' :
  HandleApplyTransactionMessage p m s = Ok (u, s') →
  (∀ ot, ot ∈ PeerMessage.at_object_transaction m →
     is_Some (contents s !! PeerMessage.ot_object_id ot) →
     ∃ evs s1 s2, decode_events (PeerMessage.ot_event ot) s1 = Ok (evs, s2) ∧
       gets_transaction p (PeerMessage.at_transaction_id m) evs (PeerMessage.ot_object_id ot) s s') ∧
  (∀ id, id ∉ PeerMessage.ot_object_id <$> PeerMessage.at_object_transaction m →
     same_content s s' id) ∧
  (∀ q, q ≠ local_peer_ → current_versions s' !! q = current_versions s !! q).
Proof. apply apply_message_effect. Qed.
End playback_frame.
End transaction_store.
End TransactionStore.
