(* ===== verification/StoreFrame.v ===== *)
(** * What the peer does leaves running methods alone

    Handling messages, replaying histories and committing transactions all work on
    the heap in which a method of the program is running.  Here every operation of
    [engine/transaction_store.cc] and [engine/playback_thread.cc] is shown to keep
    the guards of file [HeapGuard]: the state of the object whose method runs is
    changed by nobody else. *)
From stdpp Require Import base tactics list strings gmap.
From Stdlib Require Import ZArith Lia.
From S2P Require Import Prelude StdMap IntervalSet Ids VersionMap SequencePoint Values Events.
From S2P Require Import TransactionSequencer LiveObject HeapGuard Serialization ObjectTable ObjectContent.
From S2P Require Import PlaybackThread TransactionStore.
#[local] Open Scope string_scope.
#[local] Open Scope nat_scope.
#[local] Open Scope list_scope.

Import HeapGuard.

(** Reading an object from the wire makes a new live object. *)
Class LiveObjectStoreFrame (LO : Type) `{LiveObjectStore (LiveObject.heap LO)} : Prop :=
  deserialize_keeps dat refs (h : LiveObject.heap LO) : keeps_guards h (DeserializeLive dat refs h).2.

#[export] Instance LiveObject_store_frame {LO} `{LocalObjectCodec LO} : LiveObjectStoreFrame LO.
Proof. intros dat refs h. apply keeps_New. Qed.

Create HintDb table_frame.

(** ** The tables *)
Module TableFrame.
Import ObjectTable.
Section tables.
Context {LO C : Type} `{LiveObjectStore (LiveObject.heap LO)} `{!LiveObjectStoreFrame LO}.
Context (GenerateUuid : nat → Uuid) (GeneratePredictableUuid : Uuid → string → Uuid).
Abbreviation table := (ObjectTable.t C (LiveObject.heap LO)).
Abbreviation TM := (ObjectTable.M (C := C) (H := LiveObject.heap LO)).

Definition keeps_heap {A} (m : TM A) : Prop :=
  ∀ s b s', m s = Ok (b, s') → keeps_guards (live s) (live s').

Lemma kh_same {A} (m : TM A) : (∀ s b s', m s = Ok (b, s') → live s' = live s) → keeps_heap m.
Proof. intros Hm s b s' E. by rewrite (Hm s b s' E). Qed.
Lemma kh_ret {A} (a : A) : keeps_heap (mret a).
Proof. apply kh_same. by intros s b s' [= <- <-]. Qed.
Lemma kh_get : keeps_heap get.
Proof. apply kh_same. by intros s b s' [= <- <-]. Qed.
Lemma kh_lift {A} (r : res A) : keeps_heap (lift r).
Proof. apply kh_same. intros s b s' Hb. unfold lift in Hb. by res_inv. Qed.
Lemma kh_modify f : (∀ s : table, live (f s) = live s) → keeps_heap (modify f).
Proof. intros Hf. apply kh_same. intros s b s' [= <- <-]. apply Hf. Qed.
Lemma kh_bind {A B} (m : TM A) (f : A → TM B) : keeps_heap m → (∀ a, keeps_heap (f a)) → keeps_heap (m ≫= f).
Proof.
  intros Hm Hf s b s' Hb. apply bind_Ok in Hb as ([a s1] & Ha & Hb). etrans; [by eapply Hm|by eapply Hf].
Qed.
Lemma kh_mapM {A B} (f : A → TM B) l : (∀ x, keeps_heap (f x)) → keeps_heap (mapM_ f l).
Proof.
  intros Hf. induction l as [|x l IH]; simpl; [apply kh_ret|].
  apply kh_bind; [done|]. intros y. apply kh_bind; [done|]. intros ys. apply kh_ret.
Qed.

(** The operations that only change the tables. *)
Ltac tables_only op := apply kh_same; intros s b s' Hb; unfold op in Hb; res_inv; repeat case_match; by simplify_eq.

Lemma kh_unbound : keeps_heap CreateUnboundObjectReference.
Proof. tables_only @CreateUnboundObjectReference. Qed.
Lemma kh_bind_reference r id : keeps_heap (SetSharedObjectIfUnset r id).
Proof. tables_only @SetSharedObjectIfUnset. Qed.
Lemma kh_has id r : keeps_heap (HasObjectReference id r).
Proof. tables_only @HasObjectReference. Qed.
Lemma kh_interested id : keeps_heap (GetInterestedPeers id).
Proof. tables_only @GetInterestedPeers. Qed.
Lemma kh_add_interested id p : keeps_heap (AddInterestedPeer id p).
Proof. tables_only @AddInterestedPeer. Qed.
Lemma kh_add_reference id r : keeps_heap (AddObjectReference id r).
Proof. tables_only @AddObjectReference. Qed.
Lemma kh_create_shared id : keeps_heap (GetOrCreateSharedObject id).
Proof. tables_only @GetOrCreateSharedObject. Qed.
Lemma kh_uuid : keeps_heap (GenerateUuidM GenerateUuid).
Proof. tables_only @GenerateUuidM. Qed.

#[local] Hint Resolve kh_ret kh_get kh_lift kh_unbound kh_bind_reference kh_has kh_interested
  kh_add_interested kh_add_reference kh_create_shared kh_uuid : table_frame.

Ltac kh :=
  repeat first
    [ progress auto with table_frame
    | apply kh_modify; done
    | apply kh_bind; [|intros ?]
    | apply kh_mapM; intros ?
    | case_match ].

Lemma kh_reference id : keeps_heap (GetOrCreateObjectReference id).
Proof. unfold GetOrCreateObjectReference. kh. Qed.
#[local] Hint Resolve kh_reference : table_frame.
Lemma kh_shared_for r : keeps_heap (GetSharedObjectForObjectReference GenerateUuid r).
Proof. unfold GetSharedObjectForObjectReference. kh. Qed.
#[local] Hint Resolve kh_shared_for : table_frame.
Lemma kh_bound name : keeps_heap (CreateBoundObjectReference GenerateUuid GeneratePredictableUuid name).
Proof. unfold CreateBoundObjectReference. kh. Qed.
Lemma kh_for_id id : keeps_heap (ReferenceForId id).
Proof. unfold ReferenceForId. kh. Qed.
#[local] Hint Resolve kh_bound kh_for_id : table_frame.
Lemma kh_value p : keeps_heap (ConvertValueProtoToValue p).
Proof. unfold ConvertValueProtoToValue. kh. Qed.
#[local] Hint Resolve kh_value : table_frame.
Lemma kh_to_proto v : keeps_heap (ValueToProto v).
Proof. unfold ValueToProto. kh. Qed.
#[local] Hint Resolve kh_to_proto : table_frame.

Lemma kh_new_references new : keeps_heap (CreateNewObjectReferences new).
Proof. unfold CreateNewObjectReferences. kh. Qed.
Lemma kh_ensure_value v : keeps_heap (EnsureSharedObjectInValueExists GenerateUuid v).
Proof. unfold EnsureSharedObjectInValueExists. kh. Qed.
#[local] Hint Resolve kh_ensure_value : table_frame.
Lemma kh_ensure tr : keeps_heap (EnsureSharedObjectsInTransactionExist GenerateUuid tr).
Proof. unfold EnsureSharedObjectsInTransactionExist, EnsureSharedObjectsInEventExist. kh. Qed.
Lemma kh_encode e : keeps_heap (ConvertCommittedEventToEventProto GenerateUuid e).
Proof. unfold ConvertCommittedEventToEventProto. kh. Qed.

(** Only the creation of an object changes the heap. *)
Lemma kh_create dat refs :
  keeps_heap (s ← get;
    let '(l, h) := DeserializeLive dat refs (live s) in
    _ ← modify (set_live h); mret (CommittedEvent.ObjectCreation l)).
Proof.
  intros s1 b s2 Hb. unfold mbind, M_bind, get in Hb. simpl in Hb.
  pose proof (deserialize_keeps dat refs (live s1)) as Hk.
  destruct (DeserializeLive dat refs (live s1)) as [l h]. simpl in *. by injection Hb as <- <-.
Qed.
#[local] Hint Resolve kh_create : table_frame.
Lemma kh_decode p : keeps_heap (ConvertEventProtoToCommittedEvent p).
Proof. unfold ConvertEventProtoToCommittedEvent, no_new_objects. kh. Qed.
End tables.
End TableFrame.
#[export] Hint Resolve TableFrame.kh_unbound TableFrame.kh_has TableFrame.kh_interested TableFrame.kh_add_interested TableFrame.kh_create_shared TableFrame.kh_reference TableFrame.kh_shared_for
  TableFrame.kh_bound TableFrame.kh_new_references TableFrame.kh_ensure TableFrame.kh_encode TableFrame.kh_decode : table_frame.

(** ** The playback thread *)
Module PlaybackGuard.
Import PlaybackThread.
Section playback.
Context {LO C : Type} `{LocalObjectMethods LO}.
Context (GenerateUuid : nat → Uuid) (GeneratePredictableUuid : Uuid → string → Uuid).
Context (treat_conflicts_as_fatal : bool) (shared_object_ : Uuid) (stopping : bool).
(** A method of [l] runs on [n] while this thread replays. *)
Context (l : LiveObjectPtr) (n : nat) (lo : LO).

Abbreviation state := (st (LO := LO) (C := C)).
Abbreviation PBA := (PB (LO := LO) (C := C)).

Definition apart (s : state) : Prop :=
  guarded l n lo (ObjectTable.live (tables s)) ∧ live_object_ s ≠ Some l.

Definition harmless {A} (m : PBA A) : Prop :=
  ∀ s, apart s → match m s with Val _ s' | Paused s' => apart s' | _ => True end.

Lemma hl_ret {A} (a : A) : harmless (mret a).
Proof. by intros s Hs. Qed.
Lemma hl_bind {A B} (m : PBA A) (f : A → PBA B) : harmless m → (∀ a, harmless (f a)) → harmless (m ≫= f).
Proof.
  intros Hm Hf s Hs. specialize (Hm s Hs). unfold mbind, PB_bind. destruct (m s) as [a s1| | |]; try done.
  by apply Hf.
Qed.
Lemma hl_gets {A} (f : state → A) : harmless (gets f).
Proof. by intros s Hs. Qed.
Lemma hl_res {A} (r : res A) : harmless (lift_res r).
Proof. intros s Hs. by destruct r. Qed.
Lemma hl_check b : harmless (check b).
Proof. apply hl_res. Qed.
Lemma hl_modify f : (∀ s : state, tables (f s) = tables s ∧ live_object_ (f s) = live_object_ s) → harmless (modify f).
Proof. intros Hf s [Hg Hl]. destruct (Hf s) as [E1 E2]. split; [by rewrite E1|by rewrite E2]. Qed.
Lemma hl_table {A} (m : ObjectTable.M A) : TableFrame.keeps_heap m → harmless (lift_table m).
Proof.
  intros Hm s [Hg Hl]. unfold lift_table. destruct (m (tables s)) as [[a t]| |] eqn:E; try done.
  split; [by eapply Hm|done].
Qed.
Lemma hl_heap {A} (m : LiveObject.heap LO → res (A * LiveObject.heap LO)) :
  (∀ h a h', guarded l n lo h → m h = Ok (a, h') → guarded l n lo h') → harmless (lift_heap m).
Proof.
  intros Hm s [Hg Hl]. unfold lift_heap. destruct (m _) as [[a h]| |] eqn:E; try done.
  split; [by eapply Hm|done].
Qed.
Lemma hl_stuck {A} u : harmless (fun _ => Aborted u : out A).
Proof. done. Qed.
Lemma hl_no_fuel {A} : harmless (fun _ => NoFuel : out A).
Proof. done. Qed.

Create HintDb playback_frame.
#[local] Hint Resolve hl_ret hl_gets hl_res hl_check hl_stuck hl_no_fuel : playback_frame.

Lemma hl_has_next_event evs : harmless (has_next_event stopping evs).
Proof.
  induction evs as [|e evs IH]; intros s Hs; simpl; [destruct stopping; exact Hs|].
  assert (Hclone : ∀ l0, match (l1 ← lift_heap (LiveObject.Clone l0); _ ← modify (set_live_object (Some l1));
    has_next_event stopping evs) s with Val _ s' | Paused s' => apart s' | _ => True end).
  { intros l0. unfold mbind, PB_bind, lift_heap. destruct Hs as [Hg Hl].
    destruct (LiveObject.Clone l0 _) as [[l1 h1]| |] eqn:E; try done.
    destruct (keeps_Clone _ _ _ _ E) as [Hk ->]. apply IH. split; [by apply Hk|]. simpl. intros [= E1].
    by destruct (guarded_fresh _ _ _ _ Hg). }
  destruct (live_object_ s) as [l1|] eqn:El; destruct e; try apply Hclone; try (by apply IH); try (rewrite <- El; exact Hs).
  all: exact Hs.
Qed.
Lemma hl_HasNextEvent : harmless (HasNextEvent stopping).
Proof. intros s. apply hl_has_next_event. Qed.
#[local] Hint Resolve hl_HasNextEvent : playback_frame.

Ltac hl :=
  repeat first
    [ progress auto with playback_frame
    | apply hl_bind; [|intros ?]
    | apply hl_modify; done
    | apply hl_table; solve [auto with table_frame]
    | case_match ].

Lemma hl_peek : harmless (PeekNextEventType stopping).
Proof. unfold PeekNextEventType. hl. Qed.
Lemma hl_get_next : harmless (GetNextEvent stopping).
Proof. unfold GetNextEvent. hl. Qed.
Lemma hl_conflict : harmless (SetConflictDetected treat_conflicts_as_fatal).
Proof. unfold SetConflictDetected. hl. Qed.
#[local] Hint Resolve hl_peek hl_get_next hl_conflict : playback_frame.
Lemma hl_check_type ty : harmless (CheckNextEventType treat_conflicts_as_fatal stopping ty).
Proof. unfold CheckNextEventType. hl. Qed.
Lemma hl_new_objects e : harmless (GetNewSharedObjectsForEvent e).
Proof. intros s Hs. unfold GetNewSharedObjectsForEvent. by destruct (foldM _ _ _). Qed.
Lemma hl_object_matches id r new : harmless (ObjectMatches id r new).
Proof. unfold ObjectMatches. hl. Qed.
#[local] Hint Resolve hl_check_type hl_new_objects hl_object_matches : playback_frame.
Lemma hl_value_matches a b new : harmless (ValueMatches a b new).
Proof. unfold ValueMatches. hl. Qed.
#[local] Hint Resolve hl_value_matches : playback_frame.
Lemma hl_values_match es vs new : harmless (values_match es vs new).
Proof. revert vs. induction es as [|e es IH]; intros [|v vs]; simpl; hl. Qed.
#[local] Hint Resolve hl_values_match : playback_frame.
Lemma hl_call_matches id name ps r name' ps' new : harmless (MethodCallMatches id name ps r name' ps' new).
Proof. unfold MethodCallMatches. hl. Qed.
Lemma hl_check_return e v ev : harmless (check_return treat_conflicts_as_fatal e v ev).
Proof. unfold check_return. hl. Qed.
#[local] Hint Resolve hl_call_matches hl_check_return : playback_frame.

Section calls.
Context (invoke : ObjectReference → string → list Value → PBA (option Value)).
Hypothesis invoke_harmless : ∀ r name ps, harmless (invoke r name ps).
#[local] Hint Resolve invoke_harmless : playback_frame.

Lemma hl_method_call : harmless (DoMethodCall treat_conflicts_as_fatal shared_object_ stopping invoke).
Proof. unfold DoMethodCall. hl. Qed.
Lemma hl_self_call r name ps rv :
  harmless (DoSelfMethodCall treat_conflicts_as_fatal shared_object_ stopping invoke r name ps rv).
Proof. unfold DoSelfMethodCall. hl. Qed.
#[local] Hint Resolve hl_method_call hl_self_call : playback_frame.
Lemma hl_nested fuel : harmless (nested_calls treat_conflicts_as_fatal shared_object_ stopping invoke fuel).
Proof. induction fuel as [|fuel IH]; simpl; hl. Qed.
#[local] Hint Resolve hl_nested : playback_frame.
Lemma hl_sub_call r name ps rv :
  harmless (DoSubMethodCall treat_conflicts_as_fatal shared_object_ stopping invoke r name ps rv).
Proof. unfold DoSubMethodCall. hl. Qed.
#[local] Hint Resolve hl_sub_call : playback_frame.
Lemma hl_call r name ps : harmless (CallMethod treat_conflicts_as_fatal shared_object_ stopping invoke r name ps).
Proof. unfold CallMethod. hl. Qed.
Lemma hl_mark ty : harmless (TransactionMark treat_conflicts_as_fatal stopping ty).
Proof. unfold TransactionMark. hl. Qed.
Lemma hl_create name : harmless (CreateObject GenerateUuid GeneratePredictableUuid name).
Proof. unfold CreateObject. hl. Qed.
#[local] Hint Resolve hl_call hl_mark hl_create : playback_frame.

(** A replayed method runs on a node of its own. *)
Lemma hl_run n' p :
  n' ≠ n →
  harmless (run_prog GenerateUuid GeneratePredictableUuid treat_conflicts_as_fatal shared_object_ stopping invoke n' p).
Proof.
  intros Hne. induction p; simpl; hl.
  - apply hl_heap. intros h a h' Hg Hr. by res_inv.
  - apply hl_heap. intros h a h' Hg Hr. res_inv. by eapply write_other.
Qed.
End calls.

Lemma hl_invoke fuel r name ps :
  harmless (invoke_method GenerateUuid GeneratePredictableUuid treat_conflicts_as_fatal shared_object_ stopping fuel r name ps).
Proof.
  revert r name ps. induction fuel as [|fuel IH]; intros r name ps; simpl; [hl|].
  intros s Hs. unfold mbind, PB_bind, gets, lift_res. destruct (live_object_ s) as [l'|] eqn:El; simpl; [|done].
  assert (l' ≠ l) as Hne by (destruct Hs; congruence).
  unfold lift_heap at 1. destruct (LiveObject.InvokeMethod_begin l' _) as [[n' h1]| |] eqn:Eb; try done.
  destruct Hs as [Hg Hl]. destruct (begin_other _ _ _ _ _ _ _ Hg Hne Eb) as [Hg1 Hn'].
  pose proof (hl_run _ IH n' (lo_invoke r name ps) Hn' (set_tables (ObjectTable.set_live h1 (tables s)) s)) as Hrun.
  specialize (Hrun (conj Hg1 Hl)). destruct (run_prog _ _ _ _ _ _ _ _ _) as [v s1|s1| |]; try done.
  destruct Hrun as [Hg2 Hl2]. unfold lift_heap. destruct (LiveObject.InvokeMethod_end l' n' _) as [h2| |] eqn:Ee; try done.
  simpl. split; [|done]. by eapply end_other.
Qed.
#[local] Hint Resolve hl_invoke hl_method_call : playback_frame.

Lemma hl_replay_loop fuel depth :
  harmless (replay_loop GenerateUuid GeneratePredictableUuid treat_conflicts_as_fatal shared_object_ stopping fuel depth).
Proof. induction fuel as [|fuel IH]; simpl; hl. Qed.
Lemma hl_discard fuel : harmless (discard_loop stopping fuel).
Proof. induction fuel as [|fuel IH]; simpl; hl. Qed.
#[local] Hint Resolve hl_replay_loop hl_discard : playback_frame.
Lemma hl_replay :
  harmless (ReplayEvents GenerateUuid GeneratePredictableUuid treat_conflicts_as_fatal shared_object_ stopping).
Proof. unfold ReplayEvents. hl. Qed.
End playback.
End PlaybackGuard.

(** A replay, in all: the relation that the history needs. *)
Definition world_guards {LO C} (w w' : PlaybackThread.world (LO := LO) (C := C)) : Prop :=
  keeps_guards (ObjectTable.live w.1) (ObjectTable.live w'.1).
#[export] Instance world_guards_preorder {LO C} : PreOrder (world_guards (LO := LO) (C := C)).
Proof. split; [by intros w l n lo|]. intros w1 w2 w3 H12 H23 l n lo Hg. by apply H23, H12. Qed.

#[export] Instance playback_thread_guards {LO C} `{LocalObjectMethods LO} GenerateUuid GeneratePredictableUuid fatal id :
  PlaybackFrame (H := PlaybackThread.playback_thread (LO := LO) (C := C) GenerateUuid GeneratePredictableUuid fatal id)
    PlaybackThread.world PlaybackThread.thread world_guards.
Proof.
  refine {| frame_inv w p := PlaybackThread.started p = w |}.
  - done.
  - intros w p evs p' <- Hr. simpl in Hr. unfold PlaybackThread.QueueEventsAndFlush in Hr.
    destruct (PlaybackThread.replay _ _ _ _ _ _ _) as [? ?| |[]|]; simplify_eq. done.
  - intros w p live_object w' <- Hs l n lo Hg. simpl in Hs. unfold PlaybackThread.Stop, PlaybackThread.replay in Hs.
    pose proof (PlaybackGuard.hl_replay GenerateUuid GeneratePredictableUuid fatal id true l n lo
      (PlaybackThread.Start (PlaybackThread.started p) None (PlaybackThread.given p))) as Hr.
    specialize (Hr ltac:(split; [exact Hg|discriminate])).
    destruct (PlaybackThread.ReplayEvents _ _ _ _ _ _) as [? s| |[]|]; simplify_eq. by destruct Hr.
Qed.

(** ** The transaction store *)
Module StoreGuard.
Import TransactionStore.
Section store.
Context {G LO P : Type} `{IdSource G} `{LiveObjectStore (LiveObject.heap LO)} `{!LiveObjectStoreFrame LO}.
Context (GenerateUuid : nat → Uuid) (GeneratePredictableUuid : Uuid → string → Uuid).
Context (clock : nat → timespec) (local_peer_ : CanonicalPeer).
Abbreviation peer_state := (TransactionStore.t (G := G) (LiveHeap := LiveObject.heap LO)).
Abbreviation world := (ObjectTable.t ObjectContent.t (LiveObject.heap LO) * gmap Uuid ObjectReference)%type.
Context (playback : Uuid → Playback world P).
Context (frame : ∀ id, PlaybackFrame (H := playback id) world P world_guards).

Abbreviation heap_of s := (ObjectTable.live (tables s)).
Definition store_guards (s s' : peer_state) : Prop := keeps_guards (heap_of s) (heap_of s').
#[local] Instance store_guards_preorder : PreOrder store_guards.
Proof. split; [by intros s l n lo|]. intros s1 s2 s3 H12 H23 l n lo Hg. by apply H23, H12. Qed.

Abbreviation pres := (preserves store_guards).

Lemma sg_same s s' : heap_of s' = heap_of s → store_guards s s'.
Proof. unfold store_guards. by intros ->. Qed.
Lemma sg_table {A} (m : ObjectTable.M A) : TableFrame.keeps_heap m → pres (lift_table m).
Proof. intros Hm s b s' Hb. apply bind_Ok in Hb as ([a tb] & Ha & [= <- <-]). by eapply Hm. Qed.
Lemma sg_peer id : pres (GetCanonicalPeer_ id).
Proof.
  intros s p s' Hg. unfold GetCanonicalPeer_ in Hg. destruct (GetCanonicalPeer _ _). res_inv. by apply sg_same.
Qed.
Lemma sg_sequencer {A} (m : Sequencer.t G → res (A * Sequencer.t G)) : pres (lift_sequencer m).
Proof. intros s b s' Hb. apply bind_Ok in Hb as ([a q] & Ha & [= <- <-]). by apply sg_same. Qed.
Lemma sg_reserve : pres (ReserveTransaction clock).
Proof. intros s b s' Hb. apply bind_Ok in Hb as ([a q] & Ha & [= <- <-]). by apply sg_same. Qed.
Lemma sg_set_content id c : pres (set_content id c).
Proof. intros s b s' Hb. unfold set_content in Hb. res_inv. by apply sg_same. Qed.
Lemma sg_get_content id : pres (GetObjectContent id).
Proof. intros s b s' Hb. unfold GetObjectContent in Hb. res_inv. by apply sg_same. Qed.
Lemma sg_get_or_create_content id : pres (GetOrCreateObjectContent id).
Proof. intros s b s' Hb. unfold GetOrCreateObjectContent in Hb. res_inv. by apply sg_same. Qed.

Create HintDb store_frame.
#[local] Hint Resolve store_guards_preorder pres_ret pres_gets pres_lift sg_peer sg_sequencer sg_reserve
  sg_set_content sg_get_content sg_get_or_create_content : store_frame.

Ltac sg :=
  repeat first
    [ progress auto with store_frame
    | apply sg_table; solve [auto with table_frame]
    | apply pres_bind; [exact _| |intros ?]
    | apply pres_mapM; [exact _|intros ?]
    | apply pres_foldM; [exact _|intros ? ?]
    | apply pres_modify; intros ?; by apply sg_same
    | case_match ].

(** The replays. *)
Lemma sg_working_version id vm sp refs : pres (GetWorkingVersion playback id vm sp refs).
Proof.
  unfold GetWorkingVersion. apply pres_bind; [exact _|sg|]. intros [c|]; [|sg].
  intros s b s' Hb. unfold mbind, ST_bind, gets, lift in Hb. simpl in Hb.
  apply bind_Ok in Hb as ([[[lo w] rej] s1] & Hr & Hb). apply bind_Ok in Hr as (y & Hy & [= -> <-]). simpl in Hb.
  injection Hb as _ <-. exact (ObjectContent.get_working_version_frame world_guards _ _ _ _ _ _ _ _ Hy).
Qed.

Lemma sg_store_transactions id p txs vm refs rej : pres (StoreTransactions playback id p txs vm refs rej).
Proof.
  unfold StoreTransactions. apply pres_bind; [exact _|sg|]. intros c.
  intros s b s' Hb. unfold mbind, ST_bind, gets, lift in Hb. simpl in Hb.
  apply bind_Ok in Hb as ([[[c' w] rej'] s1] & Hr & Hb). apply bind_Ok in Hr as (y & Hy & [= -> <-]). simpl in Hb.
  apply bind_Ok in Hb as ([u s2] & Hset & [= _ <-]). apply sg_set_content in Hset. etrans; [|exact Hset].
  by apply (ObjectContent.store_transactions_frame empty_references restore_references world_guards) in Hy.
Qed.

Lemma sg_insert id p tid evs loc refs rej : pres (InsertTransaction playback id p tid evs loc refs rej).
Proof.
  unfold InsertTransaction. apply pres_bind; [exact _|sg|]. intros c.
  intros s b s' Hb. unfold mbind, ST_bind, gets, lift in Hb. simpl in Hb.
  apply bind_Ok in Hb as ([[[c' w] rej'] s1] & Hr & Hb). apply bind_Ok in Hr as (y & Hy & [= -> <-]). simpl in Hb.
  apply bind_Ok in Hb as ([u s2] & Hset & [= _ <-]). apply sg_set_content in Hset. etrans; [|exact Hset].
  by apply (ObjectContent.insert_recorded empty_references restore_references world_guards) in Hy as [? _].
Qed.
#[local] Hint Resolve sg_working_version sg_store_transactions sg_insert : store_frame.

Lemma sg_reject txs tid : pres (RejectTransactions local_peer_ txs tid).
Proof. unfold RejectTransactions, IncrementVersionNumber_Locked, BroadcastMessage. sg. Qed.
#[local] Hint Resolve sg_reject : store_frame.
Lemma sg_reject_new txs : pres (reject_in_new_transaction clock local_peer_ txs).
Proof.
  unfold reject_in_new_transaction, RejectTransactionsAndSendMessages, BroadcastMessage, ReleaseTransaction. sg.
Qed.
Lemma sg_new_references refs : pres (CreateNewObjectReferences refs).
Proof. unfold CreateNewObjectReferences. sg. Qed.
Lemma sg_update p tid : pres (UpdateCurrentSequencePoint p tid).
Proof. unfold UpdateCurrentSequencePoint, IncrementVersionNumber_Locked. sg. Qed.
#[local] Hint Resolve sg_reject_new sg_new_references sg_update : store_frame.
Lemma sg_apply tid p txs : pres (ApplyTransaction clock local_peer_ playback tid p txs).
Proof. unfold ApplyTransaction, apply_to_object. sg. Qed.
#[local] Hint Resolve sg_apply : store_frame.

Lemma sg_create_transaction txs modified sp :
  pres (CreateTransaction GenerateUuid clock local_peer_ playback txs modified sp).
Proof.
  unfold CreateTransaction, ApplyTransactionAndSendMessage, SendMessageToAffectedPeers, SendMessageToRemotePeer,
    ReleaseTransaction, SetCachedLiveObject. sg.
Qed.

Lemma sg_helper id sp vn refs rej : pres (GetLiveObjectAtSequencePoint_Helper playback id sp vn refs rej).
Proof. unfold GetLiveObjectAtSequencePoint_Helper. sg. Qed.
Lemma sg_finish lo refs rej : pres (finish_get_live_object clock local_peer_ lo refs rej).
Proof. unfold finish_get_live_object. sg. Qed.
#[local] Hint Resolve sg_helper sg_finish : store_frame.
Lemma sg_wait others id sp vn refs rej : Forall pres others → pres (wait_for_object playback others id sp vn refs rej).
Proof.
  intros Ho. revert vn refs rej. induction Ho as [|m ms Hm _ IH]; intros vn refs rej; simpl; sg.
Qed.
#[local] Hint Resolve sg_wait : store_frame.
Lemma sg_live_object r sp wait others :
  Forall pres others → pres (GetLiveObjectAtSequencePoint clock local_peer_ playback r sp wait others).
Proof. intros Ho. unfold GetLiveObjectAtSequencePoint, BroadcastMessage. sg. Qed.

Lemma sg_decode ps : pres (decode_events ps).
Proof. unfold decode_events. sg. Qed.
Lemma sg_encode x : pres (encode_transaction GenerateUuid x).
Proof. unfold encode_transaction. sg. Qed.
#[local] Hint Resolve sg_decode sg_encode : store_frame.

Lemma sg_phase base : pres (GetExecutionPhase base).
Proof. unfold GetExecutionPhase. sg. Qed.

(** What other peers send. *)
Lemma sg_message p m : pres (HandleMessageFromRemotePeer GenerateUuid clock local_peer_ playback p m).
Proof.
  unfold HandleMessageFromRemotePeer, HandleApplyTransactionMessage, HandleGetObjectMessage, HandleStoreObjectMessage,
    HandleRejectTransactionMessage, HandleInvalidateTransactionsMessage, decode_object_transaction, decode_transaction,
    GetTransactions, SendMessageToRemotePeer, ReleaseTransaction, IncrementVersionNumber_Locked. sg.
Qed.
Lemma sg_connection p : pres (NotifyNewConnection p).
Proof. unfold NotifyNewConnection, SendMessageToRemotePeer. sg. Qed.
End store.
End StoreGuard.
