(* ===== verification/Convergence.v ===== *)
(** * Peers agree on the histories of objects

    File [ObjectContent] shows that the order of insertions does not matter for the
    history of one object, and file [TransactionStore] what one message does to the
    histories of a peer.  Here is what that means for several peers: each commits
    transactions of its own, sends them ([CreateTransaction]), and applies the ones
    that it receives ([HandleApplyTransactionMessage]), in whatever order. *)
From stdpp Require Import base tactics list strings gmap.
From Stdlib Require Import ZArith Lia.
From S2P Require Import Prelude StdMap Ids VersionMap SequencePoint Values Events.
From S2P Require Import TransactionSequencer ObjectTable ObjectContent TransactionStore.
#[local] Open Scope list_scope.

Module Convergence.
Import TransactionStore.

(** The transaction of one peer, as the message that carries it. *)
Abbreviation delivery := (CanonicalPeer * PeerMessage.ApplyTransactionMessage)%type.

Definition carries (m : PeerMessage.ApplyTransactionMessage) (id : Uuid) : Prop :=
  id ∈ PeerMessage.ot_object_id <$> PeerMessage.at_object_transaction m.

Section histories.
Context {G LiveHeap : Type}.
Abbreviation peer := (t (G := G) (LiveHeap := LiveHeap)).

Definition known (s : peer) (id : Uuid) : Prop := is_Some (contents s !! id).
(** The committed transaction of an object. *)
Definition history (s : peer) (id : Uuid) (tid : TransactionId) : option SharedObjectTransaction.t :=
  so ← contents s !! id; map_find tid (ObjectContent.committed_versions_ (content_of so)).

(** The history of [id] stays. *)
Definition keeps_object (s s' : peer) (id : Uuid) : Prop :=
  known s id → known s' id ∧ ∀ tid, history s' id tid = history s id tid.

Lemma keeps_object_trans s1 s2 s3 id : keeps_object s1 s2 id → keeps_object s2 s3 id → keeps_object s1 s3 id.
Proof. intros H1 H2 Hk. destruct (H1 Hk) as [K2 E2]. destruct (H2 K2) as [K3 E3]. split; [done|]. intros. by rewrite E3. Qed.
Lemma same_content_keeps (s s' : peer) id : same_content s s' id → keeps_object s s' id.
Proof.
  intros Hs [so Hso]. destruct (Hs so Hso) as (so' & Hso' & E). split; [by exists so'|]. intros tid. unfold history.
  rewrite Hso, Hso'. simpl. unfold content_of. by rewrite E.
Qed.

Definition histories_kept (s s' : peer) : Prop := ∀ id, keeps_object s s' id.
#[global] Instance histories_kept_preorder : PreOrder histories_kept.
Proof.
  split; [by intros s id Hk|]. intros s1 s2 s3 H1 H2 id. by eapply keeps_object_trans.
Qed.
Lemma quiet_kept local_peer_ (s s' : peer) : quiet local_peer_ s s' → histories_kept s s'.
Proof. intros Hq id. eapply same_content_keeps, quiet_same_content, Hq. Qed.

(** The history of [id] gets the transaction. *)
Definition gets (p : CanonicalPeer) (tid : TransactionId) (evs : list CommittedEvent.t) (s s' : peer) (id : Uuid) : Prop :=
  known s' id ∧
  history s' id tid = Some (default {| SharedObjectTransaction.events := evs; SharedObjectTransaction.origin_peer := p |}
                              (history s id tid)) ∧
  ∀ k, k ≠ tid → history s' id k = history s id k.

Lemma gets_transaction_gets p tid evs id (s s' : peer) : gets_transaction p tid evs id s s' → gets p tid evs s s' id.
Proof.
  intros (so & so' & c' & Hso & Hso' & Hc' & _ & _ & Htid & Hother). unfold gets, known, history. rewrite Hso, Hso'. simpl.
  unfold content_of at 1 3. rewrite Hc'. simpl. split; [by eexists|]. by split.
Qed.
Lemma gets_frame p tid evs id s1 s2 s3 s4 :
  keeps_object s1 s2 id → known s1 id → gets p tid evs s2 s3 id → keeps_object s3 s4 id → gets p tid evs s1 s4 id.
Proof.
  intros H12 Hk (K3 & E3 & O3) H34. destruct (H12 Hk) as [K2 E2]. destruct (H34 K3) as [K4 E4].
  split; [done|]. rewrite E4, E3, E2. split; [done|]. intros k Hne. by rewrite E4, O3, E2.
Qed.

(** *** What a delivery does

    [stands_for]: how the events of a transaction and their wire form belong
    together at this peer. *)
Section delivered.
Context (stands_for : list EventProto.t → list CommittedEvent.t → Prop).

Definition delivered (d : delivery) (s s' : peer) : Prop :=
  ∀ id, known s id →
    (¬ carries d.2 id → keeps_object s s' id) ∧
    (∀ ot, ot ∈ PeerMessage.at_object_transaction d.2 → PeerMessage.ot_object_id ot = id →
       ∃ evs, stands_for (PeerMessage.ot_event ot) evs ∧ gets d.1 (PeerMessage.at_transaction_id d.2) evs s s' id).

(** A peer at work: it gets and makes the transactions [ds], one after the other,
    and does other things that leave the histories alone. *)
Inductive works : list delivery → peer → peer → Prop :=
| works_nil s : works [] s s
| works_delivery d ds s s1 s' : delivered d s s1 → works ds s1 s' → works (d :: ds) s s'
| works_other ds s s1 s' : histories_kept s s1 → works ds s1 s' → works ds s s'.

Lemma delivered_known d s s' id : delivered d s s' → known s id → known s' id.
Proof.
  intros Hd Hk. destruct (Hd id Hk) as [Hkeep Hget].
  destruct (decide (id ∈ PeerMessage.ot_object_id <$> PeerMessage.at_object_transaction d.2)) as [Hin|Hnin].
  - apply list_elem_of_fmap in Hin as (ot & -> & Hot). destruct (Hget ot Hot eq_refl) as (evs & _ & ? & _). done.
  - by apply Hkeep.
Qed.

Lemma works_known ds s s' id : works ds s s' → known s id → known s' id.
Proof.
  induction 1 as [|d ds s s1 s' Hd _ IH|ds s s1 s' Hk _ IH]; [done|..]; intros Hid; apply IH.
  - by eapply delivered_known.
  - by apply Hk.
Qed.

(** Where the transaction [tr] of an object comes from. *)
Definition comes_from (ds : list delivery) (id : Uuid) (tid : TransactionId) (tr : SharedObjectTransaction.t) : Prop :=
  ∃ d ot, d ∈ ds ∧ PeerMessage.at_transaction_id d.2 = tid ∧ ot ∈ PeerMessage.at_object_transaction d.2 ∧
    PeerMessage.ot_object_id ot = id ∧ SharedObjectTransaction.origin_peer tr = d.1 ∧
    stands_for (PeerMessage.ot_event ot) (SharedObjectTransaction.events tr).

Lemma comes_from_cons d ds id tid tr : comes_from ds id tid tr → comes_from (d :: ds) id tid tr.
Proof. intros (d' & ot & ? & ?). exists d', ot. split; [by right|done]. Qed.

(** One delivery, one transaction. *)
Lemma delivered_history d s s' id tid :
  delivered d s s' → known s id →
  match history s id tid, history s' id tid with
  | Some tr, o => o = Some tr
  | None, Some tr => comes_from [d] id tid tr
  | None, None => ¬ (PeerMessage.at_transaction_id d.2 = tid ∧ carries d.2 id)
  end.
Proof.
  intros Hd Hk. destruct (Hd id Hk) as [Hkeep Hget].
  destruct (decide (id ∈ PeerMessage.ot_object_id <$> PeerMessage.at_object_transaction d.2)) as [Hin|Hnin].
  - apply list_elem_of_fmap in Hin as (ot & -> & Hot). destruct (Hget ot Hot eq_refl) as (evs & Hev & _ & Htid & Hother).
    destruct (decide (tid = PeerMessage.at_transaction_id d.2)) as [->|Hne].
    + rewrite Htid. destruct (history s _ _) as [tr|]; simpl; [done|]. exists d, ot. split_and!; try done. by left.
    + rewrite (Hother tid) by done. destruct (history s (PeerMessage.ot_object_id ot) tid); [done|]. naive_solver.
  - destruct (Hkeep Hnin Hk) as [_ E]. rewrite E. destruct (history s id tid); [done|]. naive_solver.
Qed.

Lemma works_history ds s s' id tid :
  works ds s s' → known s id →
  match history s id tid, history s' id tid with
  | Some tr, o => o = Some tr
  | None, Some tr => comes_from ds id tid tr
  | None, None => ∀ d, d ∈ ds → ¬ (PeerMessage.at_transaction_id d.2 = tid ∧ carries d.2 id)
  end.
Proof.
  intros Hw. induction Hw as [s|d ds s s1 s' Hd Hw IH|ds s s1 s' Hkept _ IH]; intros Hk.
  - destruct (history s id tid); [done|]. set_solver.
  - specialize (IH (delivered_known _ _ _ _ Hd Hk)). pose proof (delivered_history d s s1 id tid Hd Hk) as H1.
    destruct (history s id tid) as [tr|]; [by rewrite H1 in IH|].
    destruct (history s1 id tid) as [tr1|].
    + rewrite IH. destruct H1 as (d' & ot & ->%list_elem_of_singleton & Hrest). exists d, ot. split; [by left|done].
    + destruct (history s' id tid) as [tr'|]; [by apply comes_from_cons|]. intros d' [->|Hin]%elem_of_cons; auto.
  - destruct (Hkept id Hk) as [K1 E1]. specialize (IH K1). by rewrite E1 in IH.
Qed.
End delivered.
End histories.

(** ** The operations of a peer *)
Section peer.
Context {G LiveHeap P : Type} `{IdSource G} `{LiveObjectStore LiveHeap}.
Context (GenerateUuid : nat → Uuid) (GeneratePredictableUuid : Uuid → string → Uuid).
Context (clock : nat → timespec) (local_peer_ : CanonicalPeer).
Abbreviation world := (ObjectTable.t ObjectContent.t LiveHeap * gmap Uuid ObjectReference)%type.
Context (playback : Uuid → Playback world P).
Context (frame : ∀ id, PlaybackFrame (H := playback id) world P world_kept).
Abbreviation peer := (t (G := G) (LiveHeap := LiveHeap)).
Abbreviation ST := (ST (G := G) (LiveHeap := LiveHeap)).
Abbreviation pres := (preserves (histories_kept (G := G) (LiveHeap := LiveHeap))).

(** The wire form of the events of a transaction, as the peer that made it writes
    it or one that receives it reads it. *)
Definition encode_events (evs : list CommittedEvent.t) : ST (list EventProto.t) :=
  mapM_ (fun e => lift_table (ObjectTable.ConvertCommittedEventToEventProto GenerateUuid e)) evs.
Definition stands_for (protos : list EventProto.t) (evs : list CommittedEvent.t) : Prop :=
  (∃ s s' : peer, decode_events protos s = Ok (evs, s')) ∨ (∃ s s' : peer, encode_events evs s = Ok (protos, s')).

Lemma receive_delivered p m (s s' : peer) u :
  HandleApplyTransactionMessage clock local_peer_ playback p m s = Ok (u, s') → delivered stands_for (p, m) s s'.
Proof.
  intros Hh. destruct (apply_message_effect GeneratePredictableUuid _ _ _ frame _ _ _ _ _ Hh) as (Hgets & Hkeep & _).
  intros id Hk. split.
  - intros Hn. by apply same_content_keeps, Hkeep.
  - intros ot Hot <-. destruct (Hgets ot Hot Hk) as (evs & t1 & t2 & Hd & Hg). exists evs.
    split; [left; by exists t1, t2|]. by apply gets_transaction_gets.
Qed.

(** [CreateTransaction], with the message that it sends. *)
Definition object_transaction_proto (x : Uuid * SharedObjectTransaction.t) : ST PeerMessage.ObjectTransactionProto :=
  _ ← lift (CHECK (bool_decide (SharedObjectTransaction.origin_peer x.2 = local_peer_)));
  evs ← encode_events (SharedObjectTransaction.events x.2);
  mret {| PeerMessage.ot_object_id := x.1; PeerMessage.ot_event := evs |}.

Definition bind_object (out : gmap Uuid SharedObjectTransaction.t) (x : ObjectReference * SharedObjectTransaction.t) :
    ST (gmap Uuid SharedObjectTransaction.t) :=
  id ← lift_table (ObjectTable.GetSharedObjectForObjectReference GenerateUuid x.1);
  _ ← lift_table (ObjectTable.EnsureSharedObjectsInTransactionExist GenerateUuid x.2);
  _ ← lift (CHECK (bool_decide (out !! id = None)));
  tr ← lift (SharedObjectTransaction.Clone x.2);
  mret (<[id := tr]> out).

Definition cache_object (sp : SequencePointImpl.t) (x : ObjectReference * LiveObjectPtr) : ST unit :=
  tb ← TransactionStore.gets tables;
  match ObjectTable.shared_object tb x.1 with
  | Some id => SetCachedLiveObject id x.2 sp
  | None => mret tt
  end.

Definition commit (transactions : gmap ObjectReference SharedObjectTransaction.t)
    (modified_objects : gmap ObjectReference LiveObjectPtr) (prev_sequence_point : SequencePointImpl.t) :
    ST PeerMessage.ApplyTransactionMessage :=
  transaction_id ← ReserveTransaction clock;
  shared_object_transactions ← foldM_ bind_object ∅ (map_to_list transactions);
  ots ← mapM_ object_transaction_proto (map_to_list shared_object_transactions);
  let m := {| PeerMessage.at_transaction_id := transaction_id; PeerMessage.at_object_transaction := ots |} in
  _ ← ApplyTransaction clock local_peer_ playback transaction_id local_peer_ shared_object_transactions;
  _ ← SendMessageToAffectedPeers local_peer_ (PeerMessage.ApplyTransaction m) (dom shared_object_transactions);
  _ ← ReleaseTransaction transaction_id;
  sp ← lift (SequencePointImpl.AddPeerTransactionId local_peer_ transaction_id
               (SequencePointImpl.CopyFrom prev_sequence_point SequencePointImpl.New));
  _ ← mapM_ (cache_object sp) (map_to_list modified_objects);
  mret m.

(** Runs the first computation of the left-hand side. *)
Ltac first_of t := lazymatch t with mbind _ ?m => first_of m | _ => t end.
Ltac run_first :=
  lazymatch goal with |- ?t = _ => let m := first_of t in destruct m as [[? ?]| |]; cbn [mbind res_bind]; [|done|done] end.

Lemma commit_creates trs mods sp (s : peer) :
  CreateTransaction GenerateUuid clock local_peer_ playback trs mods sp s =
  (m ← commit trs mods sp; mret (PeerMessage.at_transaction_id m)) s.
Proof.
  unfold CreateTransaction, commit, ApplyTransactionAndSendMessage, bind_object, object_transaction_proto, encode_events,
    cache_object, mbind, ST_bind.
  repeat run_first. done.
Qed.

(** *** What the other parts of a commit do to the histories *)
Lemma pres_quiet {A} (m : ST A) : preserves (quiet local_peer_) m → pres m.
Proof. intros Hm s a s' E. eapply quiet_kept, Hm, E. Qed.
Lemma pres_tables {A} (m : ObjectTable.M A) : ObjectTable.keeps_contents m → pres (lift_table m).
Proof. intros Hm. apply pres_quiet. by apply quiet_table. Qed.

Create HintDb contents.
#[local] Hint Resolve ObjectTable.kc_ret ObjectTable.kc_get ObjectTable.kc_lift ObjectTable.kc_shared_for
  ObjectTable.kc_interested : contents.
Ltac solve_contents := repeat first
  [ progress auto with contents | apply ObjectTable.kc_bind; [|intros ?] | apply ObjectTable.kc_mapM; intros ? | case_match ].

Lemma kc_ensure_value v : ObjectTable.keeps_contents (ObjectTable.EnsureSharedObjectInValueExists (C := ObjectContent.t) (H := LiveHeap) GenerateUuid v).
Proof. unfold ObjectTable.EnsureSharedObjectInValueExists. solve_contents. Qed.
#[local] Hint Resolve kc_ensure_value : contents.
Lemma kc_ensure tr : ObjectTable.keeps_contents (ObjectTable.EnsureSharedObjectsInTransactionExist (C := ObjectContent.t) (H := LiveHeap) GenerateUuid tr).
Proof. unfold ObjectTable.EnsureSharedObjectsInTransactionExist, ObjectTable.EnsureSharedObjectsInEventExist. solve_contents. Qed.
Lemma kc_encode e : ObjectTable.keeps_contents (ObjectTable.ConvertCommittedEventToEventProto (C := ObjectContent.t) (H := LiveHeap) GenerateUuid e).
Proof. unfold ObjectTable.ConvertCommittedEventToEventProto, ObjectTable.ValueToProto. solve_contents. Qed.
#[local] Hint Resolve kc_ensure kc_encode : contents.

Lemma pres_bind_object out x : pres (bind_object out x).
Proof.
  unfold bind_object. repeat (apply pres_bind; [exact _| |intros ?]);
    first [apply pres_tables; auto with contents|apply pres_lift; exact _|apply pres_ret; exact _].
Qed.
Lemma pres_encode evs : pres (encode_events evs).
Proof. apply pres_mapM; [exact _|]. intros e. apply pres_tables. auto with contents. Qed.
Lemma pres_proto x : pres (object_transaction_proto x).
Proof.
  unfold object_transaction_proto. repeat (apply pres_bind; [exact _| |intros ?]);
    first [apply pres_encode|apply pres_lift; exact _|apply pres_ret; exact _].
Qed.
Lemma pres_sequencer {A} (m : Sequencer.t G → res (A * Sequencer.t G)) : pres (lift_sequencer m).
Proof. apply pres_quiet. apply quiet_sequencer. Qed.
Lemma pres_send m ids : pres (SendMessageToAffectedPeers local_peer_ m ids).
Proof.
  unfold SendMessageToAffectedPeers. apply pres_bind; [exact _| |intros ps].
  - apply pres_foldM; [exact _|]. intros all id. apply pres_bind; [exact _|apply pres_tables; auto with contents|].
    intros ?. apply pres_ret. exact _.
  - apply pres_bind; [exact _| |intros ?; apply pres_ret; exact _]. apply pres_mapM; [exact _|]. intros p. apply pres_sequencer.
Qed.

(** The cache is not part of the history. *)
Lemma pres_cache sp x : pres (cache_object sp x).
Proof.
  unfold cache_object. apply pres_bind; [exact _|apply pres_gets; exact _|]. intros tb.
  destruct (ObjectTable.shared_object tb x.1) as [id|]; [|apply pres_ret; exact _]. intros s u s' E.
  unfold SetCachedLiveObject in E. apply bind_Ok in E as ([c s1] & Hc & E). unfold GetObjectContent in Hc.
  apply bind_Ok in Hc as (so & Hso%deref_Ok & [= <- <-]).
  destruct (ObjectTable.object_content_ so) as [c|] eqn:Ec; [|injection E as <- <-; reflexivity].
  unfold set_content in E. rewrite Hso in E. simpl in E. injection E as <- <-. intros id' Hk.
  destruct (decide (id' = id)) as [->|Hne].
  - split; [unfold known, contents; simpl; by rewrite lookup_insert_eq|]. intros tid. unfold history, contents. simpl.
    rewrite lookup_insert_eq, Hso. unfold content_of. simpl. by rewrite Ec.
  - unfold keeps_object, known, history, contents in *. simpl. by rewrite !lookup_insert_ne by done.
Qed.

Lemma protos_stand_for l (s : peer) ots s' :
  mapM_ object_transaction_proto l s = Ok (ots, s') →
  Forall2 (fun x ot => PeerMessage.ot_object_id ot = x.1 ∧
    stands_for (PeerMessage.ot_event ot) (SharedObjectTransaction.events x.2)) l ots.
Proof.
  revert s ots. induction l as [|x l IH]; intros s ots E; [by injection E as <- <-|].
  apply bind_Ok in E as ([ot s1] & Hot & E). apply bind_Ok in E as ([ots' s2] & Hots & [= <- <-]).
  constructor; [|by eapply IH]. unfold object_transaction_proto in Hot.
  apply bind_Ok in Hot as ([u s0] & Hck & Hot). apply bind_Ok in Hot as ([evs s3] & Hevs & [= <- <-]). simpl.
  split; [done|]. right. by eexists _, _.
Qed.

(** [ApplyTransaction] of the transactions [l] of several objects. *)
Lemma apply_histories tid p trs (s s' : peer) u :
  ApplyTransaction clock local_peer_ playback tid p trs s = Ok (u, s') →
  ∀ id, known s id →
    (trs !! id = None → keeps_object s s' id) ∧
    (∀ tr, trs !! id = Some tr → gets p tid (SharedObjectTransaction.events tr) s s' id).
Proof.
  intros Hh id Hk. unfold ApplyTransaction in Hh. apply bind_Ok in Hh as ([acc s2] & Hfold & Hh).
  apply apply_fold in Hfold as (_ & Hall & Hrest); [|exact frame|apply NoDup_fst_map_to_list].
  assert (histories_kept s2 s') as Hq.
  { apply bind_Ok in Hh as ([t1 s3] & H1 & Hh). apply bind_Ok in Hh as ([v s4] & H2 & Hh).
    apply (pres_quiet _ (quiet_reject_in_new_transaction _ _ _)) in H1.
    apply pres_tables in H2; [|apply ObjectTable.kc_new_references].
    apply (pres_quiet _ (quiet_update _ _)) in Hh. etrans; [exact H1|by etrans]. }
  split.
  - intros Hn. eapply keeps_object_trans; [|apply Hq]. apply same_content_keeps, Hrest.
    intros ([id' tr] & -> & Hin%elem_of_map_to_list)%list_elem_of_fmap. simpl in Hn. congruence.
  - intros tr Htr. eapply gets_frame; [by intros ?|done| |apply Hq].
    apply gets_transaction_gets, (Hall (id, tr)); [by apply elem_of_map_to_list|done].
Qed.

Lemma commit_delivered trs mods sp (s s' : peer) m :
  commit trs mods sp s = Ok (m, s') → delivered stands_for (local_peer_, m) s s'.
Proof.
  intros Hc. unfold commit in Hc. apply bind_Ok in Hc as ([tid s1] & H1 & Hc).
  apply bind_Ok in Hc as ([out s2] & H2 & Hc). apply bind_Ok in Hc as ([ots s3] & H3 & Hc).
  apply bind_Ok in Hc as ([u s4] & H4 & Hc). apply bind_Ok in Hc as ([u5 s5] & H5 & Hc).
  apply bind_Ok in Hc as ([u6 s6] & H6 & Hc). apply bind_Ok in Hc as ([sp' s7] & H7 & Hc).
  apply bind_Ok in Hc as ([u8 s8] & H8 & [= <- <-]).
  assert (histories_kept s s3) as Hbefore.
  { etrans; [eapply pres_quiet; [apply quiet_reserve|exact H1]|].
    etrans; [eapply pres_foldM; [exact _|apply pres_bind_object|exact H2]|].
    eapply pres_mapM; [exact _|apply pres_proto|exact H3]. }
  assert (histories_kept s4 s8) as Hafter.
  { etrans; [eapply pres_send, H5|]. etrans; [unfold ReleaseTransaction in H6; eapply pres_sequencer, H6|].
    etrans; [eapply pres_lift; [exact _|exact H7]|]. eapply pres_mapM; [exact _|apply pres_cache|exact H8]. }
  apply protos_stand_for in H3. intros id Hk. destruct (Hbefore id Hk) as [Hk3 _].
  destruct (apply_histories _ _ _ _ _ _ H4 id Hk3) as [Hkeep Hget]. cbn [fst snd] in *. split.
  - intros Hn. eapply keeps_object_trans; [apply Hbefore|]. eapply keeps_object_trans; [|apply Hafter]. apply Hkeep.
    apply eq_None_not_Some. intros [tr Htr]. apply Hn. unfold carries. simpl.
    apply elem_of_map_to_list, list_elem_of_lookup in Htr as [j Hj].
    destruct (Forall2_lookup_l _ _ _ _ _ H3 Hj) as (ot & Hot & Eid & _). simpl in Eid.
    apply list_elem_of_fmap. exists ot. split; [done|]. by eapply list_elem_of_lookup_2.
  - intros ot [j Hot]%list_elem_of_lookup Eid. destruct (Forall2_lookup_r _ _ _ _ _ H3 Hot) as ([id' tr] & Hx & Eid' & Hst).
    simpl in *. assert (id' = id) as -> by congruence. exists (SharedObjectTransaction.events tr). split; [done|].
    eapply gets_frame; [apply Hbefore|done| |apply Hafter]. apply Hget. apply elem_of_map_to_list. by eapply list_elem_of_lookup_2.
Qed.

(** *** The messages that carry no transactions *)
Lemma kept_tables (s s' : peer) : tables s' = tables s → histories_kept s s'.
Proof. intros E id Hk. unfold known, history, contents in *. by rewrite E. Qed.
Lemma pres_peer id : pres (GetCanonicalPeer_ id).
Proof.
  intros s p s' E. unfold GetCanonicalPeer_ in E. destruct (GetCanonicalPeer id _) as [ptr m].
  apply bind_Ok in E as (p' & _ & [= <- <-]). by apply kept_tables.
Qed.
Lemma pres_modify_kept f : (∀ s : peer, tables (f s) = tables s) → pres (modify f).
Proof. intros Hf. apply pres_modify. intros s. by apply kept_tables. Qed.
Lemma pres_content id : pres (GetObjectContent id).
Proof. intros s c s' E. unfold GetObjectContent in E. apply bind_Ok in E as (so & _ & [= <- <-]). reflexivity. Qed.
Lemma pres_encode_transaction x : pres (encode_transaction GenerateUuid x).
Proof. apply pres_bind; [exact _|apply pres_encode|intros ?; apply pres_ret; exact _]. Qed.

Ltac solve_kept := repeat first
  [ apply pres_peer | apply pres_content | apply pres_encode_transaction | apply pres_sequencer
  | apply pres_quiet, quiet_reserve | apply pres_quiet, quiet_reject
  | apply pres_modify_kept; done | apply pres_tables; solve [auto with contents]
  | apply pres_ret; exact _ | apply pres_gets; exact _ | apply pres_lift; exact _
  | apply pres_mapM; [exact _|intros ?] | apply pres_bind; [exact _| |intros ?] | case_match ].
#[local] Hint Resolve ObjectTable.kc_add_interested : contents.

Lemma pres_update p tid : pres (UpdateCurrentSequencePoint p tid).
Proof. unfold UpdateCurrentSequencePoint, IncrementVersionNumber_Locked. solve_kept. Qed.
Lemma pres_get_object p m : pres (HandleGetObjectMessage GenerateUuid p m).
Proof. unfold HandleGetObjectMessage, GetTransactions, SendMessageToRemotePeer. solve_kept. Qed.
Lemma pres_reject_message p m : pres (HandleRejectTransactionMessage clock local_peer_ p m).
Proof. unfold HandleRejectTransactionMessage, ReleaseTransaction. repeat first [apply pres_update|progress solve_kept]. Qed.
Lemma pres_invalidate p m : pres (HandleInvalidateTransactionsMessage p m).
Proof.
  unfold HandleInvalidateTransactionsMessage, IncrementVersionNumber_Locked. repeat first [apply pres_update|progress solve_kept].
Qed.

(** The types of messages that do not change histories. *)
Definition no_transactions (m : PeerMessage.t) : Prop :=
  PeerMessage.GetPeerMessageType m ≠ Ok PeerMessage.APPLY_TRANSACTION ∧
  PeerMessage.GetPeerMessageType m ≠ Ok PeerMessage.STORE_OBJECT.
Lemma pres_message p m : no_transactions m →
  pres (HandleMessageFromRemotePeer GenerateUuid clock local_peer_ playback p m).
Proof.
  intros [Ha Hs] s u s' E. unfold HandleMessageFromRemotePeer in E. apply bind_Ok in E as ([ty s1] & E1 & E).
  unfold lift in E1. apply bind_Ok in E1 as (ty' & Ety & [= <- <-]).
  destruct ty'; try done; apply bind_Ok in E as ([x s2] & E2 & E); unfold lift in E2;
    apply bind_Ok in E2 as (x' & _ & [= <- <-]).
  - by eapply pres_get_object.
  - by eapply pres_reject_message.
  - by eapply pres_invalidate.
Qed.

(** The peer at work: it commits transactions of its own and applies those of other
    peers; other operations come between. *)
Inductive runs : list delivery → peer → peer → Prop :=
| runs_nil s : runs [] s s
| runs_receive p m ds s s1 s' :
    HandleApplyTransactionMessage clock local_peer_ playback p m s = Ok (tt, s1) → runs ds s1 s' → runs ((p, m) :: ds) s s'
| runs_commit trs mods sp m ds s s1 s' :
    commit trs mods sp s = Ok (m, s1) → runs ds s1 s' → runs ((local_peer_, m) :: ds) s s'
| runs_message p m ds s s1 s' :
    no_transactions m → HandleMessageFromRemotePeer GenerateUuid clock local_peer_ playback p m s = Ok (tt, s1) →
    runs ds s1 s' → runs ds s s'
| runs_other ds s s1 s' : histories_kept s s1 → runs ds s1 s' → runs ds s s'.

Lemma runs_works ds s s' : runs ds s s' → works stands_for ds s s'.
Proof.
  induction 1; [constructor|..].
  - eapply works_delivery; [by eapply receive_delivered|done].
  - eapply works_delivery; [by eapply commit_delivered|done].
  - eapply works_other; [by eapply pres_message|done].
  - by eapply works_other.
Qed.
End peer.

(** ** Two peers *)
Section two_peers.
Context {G LiveHeap P : Type} `{IdSource G} `{LiveObjectStore LiveHeap}.
Abbreviation peer := (t (G := G) (LiveHeap := LiveHeap)).
Abbreviation world := (ObjectTable.t ObjectContent.t LiveHeap * gmap Uuid ObjectReference)%type.

(** One transaction at two peers: from the same peer, and with events that have a
    common wire form. *)
Definition agree (sf1 sf2 : list EventProto.t → list CommittedEvent.t → Prop) (tr1 tr2 : SharedObjectTransaction.t) : Prop :=
  SharedObjectTransaction.origin_peer tr1 = SharedObjectTransaction.origin_peer tr2 ∧
  ∃ protos, sf1 protos (SharedObjectTransaction.events tr1) ∧ sf2 protos (SharedObjectTransaction.events tr2).

Definition agree_on (GenerateUuid1 GenerateUuid2 : nat → Uuid) : SharedObjectTransaction.t → SharedObjectTransaction.t → Prop :=
  agree (stands_for (G := G) (LiveHeap := LiveHeap) GenerateUuid1) (stands_for (G := G) (LiveHeap := LiveHeap) GenerateUuid2).

(** A transaction is sent in one message, which names an object once. *)
Definition one_message (ds : list delivery) : Prop :=
  (∀ d d', d ∈ ds → d' ∈ ds → PeerMessage.at_transaction_id d.2 = PeerMessage.at_transaction_id d'.2 → d = d') ∧
  ∀ d, d ∈ ds → NoDup (PeerMessage.ot_object_id <$> PeerMessage.at_object_transaction d.2).

Lemma one_message_proto ds d d' ot ot' :
  one_message ds → d ∈ ds → d' ∈ ds → PeerMessage.at_transaction_id d.2 = PeerMessage.at_transaction_id d'.2 →
  ot ∈ PeerMessage.at_object_transaction d.2 → ot' ∈ PeerMessage.at_object_transaction d'.2 →
  PeerMessage.ot_object_id ot = PeerMessage.ot_object_id ot' → d = d' ∧ ot = ot'.
Proof.
  intros [H1 Hnd] Hd Hd' Etid Hot Hot' Eid. specialize (H1 d d' Hd Hd' Etid) as <-. split; [done|].
  specialize (Hnd d Hd). apply list_elem_of_lookup in Hot as [i Hi], Hot' as [j Hj].
  assert (i = j) as <-; [|congruence]. apply (NoDup_lookup _ _ _ (PeerMessage.ot_object_id ot) Hnd).
  - by rewrite list_lookup_fmap, Hi.
  - rewrite list_lookup_fmap, Hj, Eid. done.
Qed.

Lemma works_converge sf1 sf2 ds1 ds2 (s1 s1' s2 s2' : peer) id :
  works sf1 ds1 s1 s1' → works sf2 ds2 s2 s2' → (∀ d, d ∈ ds1 ↔ d ∈ ds2) → one_message ds1 →
  known s1 id → known s2 id →
  (∀ tid, option_Forall2 (agree sf1 sf2) (history s1 id tid) (history s2 id tid)) →
  ∀ tid, option_Forall2 (agree sf1 sf2) (history s1' id tid) (history s2' id tid).
Proof.
  intros Hw1 Hw2 Hds Hone Hk1 Hk2 Hstart tid. pose proof (works_history _ _ _ _ id tid Hw1 Hk1) as H1.
  pose proof (works_history _ _ _ _ id tid Hw2 Hk2) as H2. specialize (Hstart tid).
  destruct Hstart as [tr1 tr2 Hag|]; [rewrite H1, H2; by constructor|].
  destruct (history s1' id tid) as [tr1|], (history s2' id tid) as [tr2|].
  - constructor. destruct H1 as (d1 & ot1 & Hd1 & Et1 & Ho1 & Ei1 & Hp1 & Hs1), H2 as (d2 & ot2 & Hd2 & Et2 & Ho2 & Ei2 & Hp2 & Hs2).
    destruct (one_message_proto ds1 d1 d2 ot1 ot2 Hone Hd1) as [-> ->]; [by apply Hds|congruence|done|done|congruence|].
    split; [congruence|]. by exists (PeerMessage.ot_event ot2).
  - destruct H1 as (d1 & ot1 & Hd1 & Et1 & Ho1 & Ei1 & _). destruct (H2 d1); [by apply Hds|].
    split; [done|]. apply list_elem_of_fmap. by exists ot1.
  - destruct H2 as (d2 & ot2 & Hd2 & Et2 & Ho2 & Ei2 & _). destruct (H1 d2); [by apply Hds|].
    split; [done|]. apply list_elem_of_fmap. by exists ot2.
  - constructor.
Qed.

End two_peers.
End Convergence.
