(* ===== verification/RecordingThread.v ===== *)
(** [engine/recording_thread.{h,cc}], [engine/pending_transaction.{h,cc}] and
    [engine/recording_method_context.cc]: running the program, recording its
    events and committing them in transactions.

    The transaction store is the interface of
    [engine/transaction_store_internal_interface.h], as a type class; the file
    ends with its implementation by [TransactionStore], in which the handlers
    of other threads run between the calls of this one.

    The thread runs the interpreter's methods, which may not terminate and may
    be started again after a rewind; the functions have fuel for the nesting of
    calls and for the attempts, and [NoFuel] means that the run goes on.  A
    [shared_ptr] is an index in the heap; that its target is destroyed with
    the last pointer is not modelled, so the heap keeps live objects that
    nothing points to. *)
From stdpp Require Import base tactics list strings gmap.
From Stdlib Require Import ZArith Lia.
From S2P Require Import Prelude StdMap Ids VersionMap SequencePoint Values Events.
From S2P Require Import TransactionSequencer LiveObject ObjectTable ObjectContent PlaybackThread.
From S2P Require Import Replay TransactionStore.
#[local] Open Scope string_scope.
#[local] Open Scope nat_scope.
#[local] Open Scope list_scope.

(** ** What the recording thread needs of a transaction store *)

(** In [GetLiveObjectAtSequencePoint], [None] is a wait that has not ended and
    [Some None] the null pointer. *)
Class TransactionStoreInternalInterface (S LO : Type) := {
  ts_local_peer : CanonicalPeer;
  ts_current_sequence_point : S → res (SequencePointImpl.t * S);
  ts_live_object : ObjectReference → SequencePointImpl.t → bool → S →
    res (option (option LiveObjectPtr) * S);
  ts_create_unbound : S → res (ObjectReference * S);
  ts_create_bound : string → S → res (ObjectReference * S);
  ts_create_transaction :
    gmap ObjectReference SharedObjectTransaction.t → gmap ObjectReference LiveObjectPtr →
    SequencePointImpl.t → S → res (TransactionId * S);
  ts_identical : ObjectReference → ObjectReference → S → bool;
  ts_execution_phase : TransactionId → S → res (TransactionStore.ExecutionPhase * S);
  ts_wait_for_rewind : S → res (option unit * S);
  ts_heap : S → LiveObject.heap LO;
  ts_set_heap : LiveObject.heap LO → S → S;
}.

(** ** [PendingTransaction] *)
Module PendingTransaction.
Record t := {
  base_transaction_id_ : TransactionId;
  sequence_point_ : SequencePointImpl.t;
  object_transactions_ : gmap ObjectReference SharedObjectTransaction.t;
  modified_objects_ : gmap ObjectReference LiveObjectPtr;
  new_objects_ : gset ObjectReference;
  transaction_level_ : Z;
}.

Definition New (base_transaction_id : TransactionId) (sequence_point : SequencePointImpl.t) : t :=
  {| base_transaction_id_ := base_transaction_id; sequence_point_ := sequence_point;
     object_transactions_ := ∅; modified_objects_ := ∅; new_objects_ := ∅;
     transaction_level_ := 0 |}.

Definition IsEmpty (p : t) : bool := bool_decide (object_transactions_ p = ∅).

Definition set_transactions (x : gmap ObjectReference SharedObjectTransaction.t) (p : t) : t :=
  {| base_transaction_id_ := base_transaction_id_ p; sequence_point_ := sequence_point_ p;
     object_transactions_ := x; modified_objects_ := modified_objects_ p;
     new_objects_ := new_objects_ p; transaction_level_ := transaction_level_ p |}.
Definition set_modified (x : gmap ObjectReference LiveObjectPtr) (p : t) : t :=
  {| base_transaction_id_ := base_transaction_id_ p; sequence_point_ := sequence_point_ p;
     object_transactions_ := object_transactions_ p; modified_objects_ := x;
     new_objects_ := new_objects_ p; transaction_level_ := transaction_level_ p |}.
Definition set_new (x : gset ObjectReference) (p : t) : t :=
  {| base_transaction_id_ := base_transaction_id_ p; sequence_point_ := sequence_point_ p;
     object_transactions_ := object_transactions_ p; modified_objects_ := modified_objects_ p;
     new_objects_ := x; transaction_level_ := transaction_level_ p |}.
Definition set_level (x : Z) (p : t) : t :=
  {| base_transaction_id_ := base_transaction_id_ p; sequence_point_ := sequence_point_ p;
     object_transactions_ := object_transactions_ p; modified_objects_ := modified_objects_ p;
     new_objects_ := new_objects_ p; transaction_level_ := x |}.

Definition AddEvent (local_peer : CanonicalPeer) (r : ObjectReference) (e : CommittedEvent.t)
    (p : t) : t :=
  let tr := default (SharedObjectTransaction.NewEmpty local_peer) (object_transactions_ p !! r) in
  set_transactions (<[r := SharedObjectTransaction.AddEvent e tr]> (object_transactions_ p)) p.

(** [emplace] does not replace an entry. *)
Definition UpdateLiveObject (r : ObjectReference) (live_object : LiveObjectPtr) (p : t) : res t :=
  match modified_objects_ p !! r with
  | None => Ok (set_modified (<[r := live_object]> (modified_objects_ p)) p)
  | Some l => CHECK (bool_decide (l = live_object));; Ok p
  end.

(** The level is an [int]. *)
Definition IncrementTransactionLevel (p : t) : res t :=
  CHECK (0 <=? transaction_level_ p)%Z;;
  if (transaction_level_ p =? 2147483647)%Z then Undef
  else Ok (set_level (transaction_level_ p + 1) p).

Definition DecrementTransactionLevel (p : t) : res (bool * t) :=
  CHECK (0 <? transaction_level_ p)%Z;;
  let level := (transaction_level_ p - 1)%Z in
  Ok ((level =? 0)%Z, set_level level p).
End PendingTransaction.

Module RecordingThread.
Section recording.
Context {S LO : Type} `{TransactionStoreInternalInterface S LO} `{LocalObjectMethods LO}.

Record NewObject := { live_object : LiveObjectPtr; object_is_named : bool }.

(** [created] is the list of what was passed to [CreateTransaction] so far. *)
Record st := {
  store : S;
  pending_transaction_ : PendingTransaction.t;
  new_objects_ : gmap ObjectReference NewObject;
  created : list (gmap ObjectReference SharedObjectTransaction.t);
}.

Definition set_store (x : S) (s : st) : st :=
  {| store := x; pending_transaction_ := pending_transaction_ s;
     new_objects_ := new_objects_ s; created := created s |}.
Definition set_pending (x : PendingTransaction.t) (s : st) : st :=
  {| store := store s; pending_transaction_ := x;
     new_objects_ := new_objects_ s; created := created s |}.
Definition set_new_objects (x : gmap ObjectReference NewObject) (s : st) : st :=
  {| store := store s; pending_transaction_ := pending_transaction_ s;
     new_objects_ := x; created := created s |}.
Definition log_transaction (x : gmap ObjectReference SharedObjectTransaction.t) (s : st) : st :=
  {| store := store s; pending_transaction_ := pending_transaction_ s;
     new_objects_ := new_objects_ s; created := created s ++ [x] |}.

(** ** What the thread can be doing *)
Inductive out (A : Type) :=
| Val (a : A) (s : st)
| Waiting (s : st)
| Aborted (undefined : bool)
| NoFuel.
Arguments Val {A}.
Arguments Waiting {A}.
Arguments Aborted {A}.
Arguments NoFuel {A}.

Definition RT (A : Type) : Type := st → out A.
#[global] Instance RT_ret : MRet RT := fun A a s => Val a s.
#[global] Instance RT_bind : MBind RT := fun A B f m s =>
  match m s with
  | Val a s' => f a s'
  | Waiting s' => Waiting s'
  | Aborted u => Aborted u
  | NoFuel => NoFuel
  end.

Definition gets {A} (f : st → A) : RT A := fun s => Val (f s) s.
Definition modify (f : st → st) : RT unit := fun s => Val tt (f s).
Definition lift_res {A} (r : res A) : RT A := fun s =>
  match r with Ok a => Val a s | Fatal => Aborted false | Undef => Aborted true end.
Definition check (b : bool) : RT unit := lift_res (CHECK b).
Definition lift_store {A} (m : S → res (A * S)) : RT A := fun s =>
  match m (store s) with
  | Ok (a, x) => Val a (set_store x s)
  | Fatal => Aborted false
  | Undef => Aborted true
  end.
Definition lift_wait {A} (m : S → res (option A * S)) : RT A := fun s =>
  match m (store s) with
  | Ok (Some a, x) => Val a (set_store x s)
  | Ok (None, x) => Waiting (set_store x s)
  | Fatal => Aborted false
  | Undef => Aborted true
  end.
Definition lift_heap {A} (m : LiveObject.heap LO → res (A * LiveObject.heap LO)) : RT A :=
  lift_store (fun x => '(a, h) ← m (ts_heap x); Ok (a, ts_set_heap h x)).
Definition lift_pending (m : PendingTransaction.t → res PendingTransaction.t) : RT unit :=
  p ← gets pending_transaction_;
  p ← lift_res (m p);
  modify (set_pending p).

Fixpoint foldM_ {A B} (f : B → A → RT B) (b : B) (l : list A) : RT B :=
  match l with
  | [] => mret b
  | x :: l' => b ← f b x; foldM_ f b l'
  end.

(** ** [PendingTransaction], the methods that call the store *)
Definition GetLiveObject (r : ObjectReference) : RT LiveObjectPtr :=
  p ← gets pending_transaction_;
  match PendingTransaction.modified_objects_ p !! r with
  | Some l => mret l
  | None =>
      existing ← lift_wait (ts_live_object r (PendingTransaction.sequence_point_ p) true);
      existing ← lift_res (deref existing);
      l ← lift_heap (LiveObject.Clone existing);
      _ ← modify (fun s => set_pending (PendingTransaction.set_modified
            (<[r := l]> (PendingTransaction.modified_objects_ (pending_transaction_ s)))
            (pending_transaction_ s)) s);
      mret l
  end.

Definition IsObjectKnown (r : ObjectReference) : RT bool :=
  p ← gets pending_transaction_;
  existing ← lift_wait (ts_live_object r (PendingTransaction.sequence_point_ p) false);
  mret (bool_decide (is_Some existing)).

Definition AddNewObject (r : ObjectReference) (l : LiveObjectPtr) : RT bool :=
  p ← gets pending_transaction_;
  if bool_decide (r ∈ PendingTransaction.new_objects_ p) then mret false else
  modified_object ← lift_heap (LiveObject.Clone l);
  _ ← check (bool_decide (PendingTransaction.modified_objects_ p !! r = None));
  _ ← modify (set_pending
        (PendingTransaction.set_modified
           (<[r := modified_object]> (PendingTransaction.modified_objects_ p))
           (PendingTransaction.set_new ({[r]} ∪ PendingTransaction.new_objects_ p) p)));
  mret true.

(** The loop of [Commit]; an iteration hands the pending events over and
    empties them. *)
Fixpoint commit_loop (fuel : nat) (committed_transaction_id : TransactionId) : RT TransactionId :=
  match fuel with
  | O => fun _ => NoFuel
  | Datatypes.S fuel =>
      p ← gets pending_transaction_;
      if PendingTransaction.IsEmpty p then mret committed_transaction_id else
      let transactions := PendingTransaction.object_transactions_ p in
      _ ← modify (set_pending (PendingTransaction.set_modified ∅
            (PendingTransaction.set_transactions ∅ p)));
      tid ← lift_store (ts_create_transaction transactions
              (PendingTransaction.modified_objects_ p) (PendingTransaction.sequence_point_ p));
      _ ← modify (log_transaction transactions);
      commit_loop fuel tid
  end.

(** A default-constructed [TransactionId] is all zeros. *)
Definition Commit : RT (TransactionId * gset ObjectReference) :=
  tid ← commit_loop 2 (MakeTransactionId 0 0 0);
  p ← gets pending_transaction_;
  _ ← modify (set_pending (PendingTransaction.set_new ∅ p));
  mret (tid, PendingTransaction.new_objects_ p).

(** ** [RecordingThread] *)

(** [new PendingTransaction(transaction_store_, base, GetCurrentSequencePoint())]. *)
Definition reset_pending (base_transaction_id : TransactionId) : RT unit :=
  sp ← lift_store ts_current_sequence_point;
  modify (set_pending (PendingTransaction.New base_transaction_id sp)).

Definition CommitTransaction : RT unit :=
  r ← Commit;
  let '(transaction_id, transaction_new_objects) := r in
  _ ← foldM_ (fun (_ : unit) r =>
        no ← gets new_objects_;
        _ ← check (bool_decide (is_Some (no !! r)));
        modify (set_new_objects (delete r no))) tt (elements transaction_new_objects);
  reset_pending transaction_id.

Abbreviation events_map := (gmap ObjectReference (list CommittedEvent.t)).

Definition AddEventToMap (r : ObjectReference) (e : CommittedEvent.t) (m : events_map)
    : events_map :=
  <[r := default [] (m !! r) ++ [e]]> m.

Definition AddObjectCreationEventsToMap (live_objects : gmap ObjectReference LiveObjectPtr)
    (m : events_map) : events_map :=
  foldl (fun m x => AddEventToMap x.1 (CommittedEvent.ObjectCreation x.2) m) m
    (map_to_list live_objects).

(** The references of the parameters are null when there is no caller. *)
Definition AddTransactionEvents (object_events : events_map)
    (prev_object_reference next_object_reference : option ObjectReference)
    (prev_live_object : option LiveObjectPtr) : RT unit :=
  _ ← check (negb (bool_decide (object_events = ∅)));
  first_event ← gets (fun s => PendingTransaction.IsEmpty (pending_transaction_ s));
  _ ← match prev_object_reference with
      | Some r =>
          l ← lift_res (check_some prev_live_object);
          lift_pending (PendingTransaction.UpdateLiveObject r l)
      | None => mret tt
      end;
  _ ← modify (fun s => set_pending
        (foldl (fun p x => foldl (fun p e => PendingTransaction.AddEvent ts_local_peer x.1 e p) p x.2)
           (pending_transaction_ s) (map_to_list object_events)) s);
  level ← gets (fun s => PendingTransaction.transaction_level_ (pending_transaction_ s));
  if (level =? 0)%Z && negb (first_event && bool_decide (prev_object_reference = None))
  then CommitTransaction else mret tt.

Definition AddTransactionEvent (r : ObjectReference) (e : CommittedEvent.t)
    (prev_object_reference next_object_reference : option ObjectReference)
    (prev_live_object : option LiveObjectPtr) : RT unit :=
  AddTransactionEvents (AddEventToMap r e ∅) prev_object_reference next_object_reference
    prev_live_object.

Definition Rewinding : RT bool :=
  p ← gets pending_transaction_;
  phase ← lift_store (ts_execution_phase (PendingTransaction.base_transaction_id_ p));
  mret match phase with TransactionStore.NORMAL => false | _ => true end.

(** The caller of [BeginTransaction] and [EndTransaction] is a method context,
    which may have no object. *)
Definition BeginTransaction (caller : option ObjectReference) (caller_live : option LiveObjectPtr)
    : RT bool :=
  rewinding ← Rewinding;
  if (rewinding : bool) then mret false else
  _ ← match caller with
      | Some r => AddTransactionEvent r CommittedEvent.BeginTransaction caller caller caller_live
      | None => mret tt
      end;
  _ ← lift_pending PendingTransaction.IncrementTransactionLevel;
  mret true.

Definition EndTransaction (caller : option ObjectReference) (caller_live : option LiveObjectPtr)
    : RT bool :=
  rewinding ← Rewinding;
  if (rewinding : bool) then mret false else
  _ ← match caller with
      | Some r => AddTransactionEvent r CommittedEvent.EndTransaction caller caller caller_live
      | None => mret tt
      end;
  p ← gets pending_transaction_;
  r ← lift_res (PendingTransaction.DecrementTransactionLevel p);
  let '(outermost, p) := r in
  _ ← modify (set_pending p);
  _ ← (if (outermost : bool) then CommitTransaction else mret tt);
  mret true.

Definition CreateObject (initial_version : LO) (name : string) : RT ObjectReference :=
  l ← lift_heap (fun h => Ok (LiveObject.New initial_version h));
  if bool_decide (name = "") then
    r ← lift_store ts_create_unbound;
    no ← gets new_objects_;
    _ ← check (bool_decide (no !! r = None));
    _ ← modify (set_new_objects (<[r := {| live_object := l; object_is_named := false |}]> no));
    mret r
  else
    r ← lift_store (ts_create_bound name);
    no ← gets new_objects_;
    match no !! r with
    | Some _ => mret r
    | None =>
        _ ← modify (set_new_objects (<[r := {| live_object := l; object_is_named := true |}]> no));
        known ← IsObjectKnown r;
        _ ← (if (known : bool)
             then modify (fun s => set_new_objects (delete r (new_objects_ s)) s)
             else mret tt);
        mret r
    end.

(** [live_objects] and [new_object_references]. *)
Abbreviation found := (gmap ObjectReference LiveObjectPtr * gset ObjectReference)%type.

Definition CheckIfObjectIsNew (f : found) (r : option ObjectReference) : RT found :=
  match r with
  | None => mret f
  | Some r =>
      no ← gets new_objects_;
      match no !! r with
      | None => mret f
      | Some new_object =>
          added ← AddNewObject r (live_object new_object);
          mret (if (added : bool) then
                  (match f.1 !! r with
                   | Some _ => f.1 | None => <[r := live_object new_object]> f.1
                   end,
                   if object_is_named new_object then f.2 else {[r]} ∪ f.2)
                else f)
      end
  end.

Definition CheckIfValueIsNew (f : found) (v : Value) : RT found :=
  match data v with
  | OBJECT_REFERENCE r => CheckIfObjectIsNew f (Some r)
  | _ => mret f
  end.

(** ** Calls *)
Section calls.
(** [CallMethod] of the calls a method makes: caller, its live object, callee,
    name, parameters and the value the result variable holds. *)
Context (call : option ObjectReference → option LiveObjectPtr → ObjectReference → string →
  list Value → Value → RT (option Value)).

(** A method body, on the node [n] of the object [r], whose live object is [l];
    the calls are those of [RecordingMethodContext].  [None]: it returned
    early. *)
Fixpoint run_prog (r : ObjectReference) (l : LiveObjectPtr) (n : nat) (p : prog LO)
    : RT (option Value) :=
  match p with
  | PReturn v => mret (Some v)
  | PRead k =>
      lo ← lift_heap (fun h => lo ← LiveObject.ReadState n h; Ok (lo, h));
      run_prog r l n (k lo)
  | PWrite lo k =>
      _ ← lift_heap (fun h => h ← LiveObject.WriteState n lo h; Ok (tt, h));
      run_prog r l n k
  | PBeginTransaction k =>
      b ← BeginTransaction (Some r) (Some l);
      if (b : bool) then run_prog r l n k else mret None
  | PEndTransaction k =>
      b ← EndTransaction (Some r) (Some l);
      if (b : bool) then run_prog r l n k else mret None
  | PCreateObject initial_version name k =>
      r' ← CreateObject initial_version name; run_prog r l n (k r')
  | PCallMethod callee name ps k =>
      v ← call (Some r) (Some l) callee name ps NewValue;
      match v with Some v => run_prog r l n (k v) | None => mret None end
  | PObjectsAreIdentical a b k =>
      x ← gets store; run_prog r l n (k (ts_identical a b x))
  | PPrint _ k => run_prog r l n k
  | PFail why => fun _ => Aborted (match why with UndefinedBehaviour => true | _ => false end)
  end.

(** [live_object->InvokeMethod(&method_context, ...)]. *)
Definition InvokeMethod (r : ObjectReference) (l : LiveObjectPtr) (name : string)
    (ps : list Value) : RT (option Value) :=
  n ← lift_heap (LiveObject.InvokeMethod_begin l);
  v ← run_prog r l n (lo_invoke r name ps);
  _ ← lift_heap (fun h => h ← LiveObject.InvokeMethod_end l n h; Ok (tt, h));
  mret v.

(** The loop of [CallMethodHelper].  The result is [None] when the call is being
    rewound, else what the result variable holds and the callee's live object. *)
Fixpoint call_method_loop (fuel : nat) (method_base_transaction_id : TransactionId)
    (callee : ObjectReference) (name : string) (ps : list Value) (return_value : Value)
    : RT (option (Value * LiveObjectPtr)) :=
  match fuel with
  | O => fun _ => NoFuel
  | Datatypes.S fuel =>
      l ← GetLiveObject callee;
      v ← InvokeMethod callee l name ps;
      let return_value := default return_value v in
      phase ← lift_store (ts_execution_phase method_base_transaction_id);
      match phase with
      | TransactionStore.NORMAL => mret (Some (return_value, l))
      | TransactionStore.REWIND => mret None
      | TransactionStore.RESUME =>
          _ ← reset_pending method_base_transaction_id;
          call_method_loop fuel method_base_transaction_id callee name ps return_value
      end
  end.

Definition CallMethodHelper (fuel : nat) (callee : ObjectReference) (name : string)
    (ps : list Value) (return_value : Value) : RT (option (Value * LiveObjectPtr)) :=
  p ← gets pending_transaction_;
  call_method_loop fuel (PendingTransaction.base_transaction_id_ p) callee name ps return_value.

(** The METHOD_CALL event and those that go with it. *)
Definition record_call (caller : option ObjectReference) (caller_live : option LiveObjectPtr)
    (callee : ObjectReference) (name : string) (ps : list Value) : RT unit :=
  f ← CheckIfObjectIsNew (∅, ∅) caller;
  f ← CheckIfObjectIsNew f (Some callee);
  f ← foldM_ CheckIfValueIsNew f ps;
  let object_events := AddObjectCreationEventsToMap f.1 ∅ in
  object_events ←
    (if bool_decide (caller = Some callee) then
       e ← lift_res (CommittedEvent.NewSelfMethodCall f.2 name ps);
       mret (AddEventToMap callee e object_events)
     else
       object_events ←
         match caller with
         | Some r =>
             e ← lift_res (CommittedEvent.NewSubMethodCall f.2 callee name ps);
             mret (AddEventToMap r e object_events)
         | None => mret object_events
         end;
       e ← lift_res (CommittedEvent.NewMethodCall name ps);
       mret (AddEventToMap callee e object_events));
  AddTransactionEvents object_events caller (Some callee) caller_live.

(** The METHOD_RETURN event and those that go with it. *)
Definition record_return (caller : option ObjectReference) (callee : ObjectReference)
    (callee_live : LiveObjectPtr) (return_value : Value) : RT unit :=
  f ← CheckIfValueIsNew (∅, ∅) return_value;
  let object_events := AddObjectCreationEventsToMap f.1 ∅ in
  let object_events :=
    if bool_decide (caller = Some callee) then
      AddEventToMap callee (CommittedEvent.SelfMethodReturn f.2 return_value) object_events
    else
      AddEventToMap callee (CommittedEvent.MethodReturn f.2 return_value)
        match caller with
        | Some r => AddEventToMap r (CommittedEvent.SubMethodReturn return_value) object_events
        | None => object_events
        end in
  AddTransactionEvents object_events (Some callee) caller (Some callee_live).

(** The result is [None] when the call is being rewound. *)
Definition CallMethod (fuel : nat) (caller : option ObjectReference)
    (caller_live : option LiveObjectPtr) (callee : ObjectReference) (name : string)
    (ps : list Value) (return_value : Value) : RT (option Value) :=
  _ ← check (negb (bool_decide (name = "")));
  rewinding ← Rewinding;
  if (rewinding : bool) then mret None else
  _ ← record_call caller caller_live callee name ps;
  r ← CallMethodHelper fuel callee name ps return_value;
  match r with
  | None => mret None
  | Some (return_value, callee_live) =>
      _ ← record_return caller callee callee_live return_value;
      mret (Some return_value)
  end.
End calls.

(** The fuel bounds the nesting of calls, and the attempts of each. *)
Fixpoint call_method (fuel : nat) (caller : option ObjectReference)
    (caller_live : option LiveObjectPtr) (callee : ObjectReference) (name : string)
    (ps : list Value) (return_value : Value) : RT (option Value) :=
  match fuel with
  | O => fun _ => NoFuel
  | Datatypes.S fuel =>
      CallMethod (call_method fuel) (Datatypes.S fuel) caller caller_live callee name ps
        return_value
  end.

(** [RunProgram]: the endless loop.  A program that lingers never returns. *)
Fixpoint run_loop (attempts depth : nat) (r : ObjectReference) (method_name : string)
    (linger : bool) : RT Value :=
  match attempts with
  | O => fun _ => NoFuel
  | Datatypes.S attempts =>
      v ← call_method depth None None r method_name [] NewValue;
      match v with
      | Some return_value =>
          if linger then
            _ ← lift_wait ts_wait_for_rewind;
            run_loop attempts depth r method_name linger
          else mret return_value
      | None => run_loop attempts depth r method_name linger
      end
  end.

Definition RunProgram (attempts depth : nat) (local_object : LO) (method_name : string)
    (linger : bool) : RT Value :=
  r ← CreateObject local_object "";
  run_loop attempts depth r method_name linger.

(** A program that lingers never returns, however often it is rewound. *)
Lemma lingering_never_returns attempts depth local_object method_name s v s' :
  RunProgram attempts depth local_object method_name true s ≠ Val v s'.
Proof.
  assert (∀ r s, run_loop attempts depth r method_name true s ≠ Val v s') as Hloop.
  { intros r. induction attempts as [|attempts IH]; intros s1; simpl; [done|].
    unfold mbind, RT_bind. destruct (call_method _ _ _ _ _ _ _ s1) as [[x|] s2| | |]; try done.
    destruct (lift_wait ts_wait_for_rewind s2); try done. }
  unfold RunProgram, mbind, RT_bind. by destruct (CreateObject local_object "" s).
Qed.

(** The constructor. *)
Definition New (x : S) : res st :=
  '(sp, x) ← ts_current_sequence_point x;
  Ok {| store := x; pending_transaction_ := PendingTransaction.New MIN_TRANSACTION_ID sp;
        new_objects_ := ∅; created := [] |}.

(** [TransactionStore::RunProgram]: the thread is noted in [recording_thread_] while
    it runs; [true] stands for a thread.  The second result is what is noted there
    afterwards. *)
Definition StoreRunProgram (attempts depth : nat) (local_object : LO) (method_name : string) (linger : bool)
    (recording_thread_ : bool) (x : S) : out Value * bool :=
  match New x with
  | Ok thread =>
      if recording_thread_ then (Aborted false, recording_thread_)
      else match RunProgram attempts depth local_object method_name linger thread with
           | Val return_value s => (Val return_value s, false)
           | o => (o, true)
           end
  | Fatal => (Aborted false, recording_thread_)
  | Undef => (Aborted true, recording_thread_)
  end.

(** One program at a time: while one runs, another one ends the process. *)
Lemma one_program_at_a_time attempts depth lo name linger attempts' depth' lo' name' linger' x thread o s :
  StoreRunProgram attempts depth lo name linger false x = (o, true) → o = Waiting s → New (store s) = Ok thread →
  StoreRunProgram attempts' depth' lo' name' linger' true (store s) = (Aborted false, true).
Proof. intros _ _ Hnew. unfold StoreRunProgram. by rewrite Hnew. Qed.

(** ** Specification: the record *)
Abbreviation pending s := (PendingTransaction.object_transactions_ (pending_transaction_ s)).
Abbreviation level s := (PendingTransaction.transaction_level_ (pending_transaction_ s)).

Definition events_in (r : ObjectReference) (m : gmap ObjectReference SharedObjectTransaction.t)
    : list CommittedEvent.t :=
  default [] (SharedObjectTransaction.events <$> m !! r).

(** All the events recorded for an object: those that were committed, and those
    of the pending transaction. *)
Definition recorded (s : st) (r : ObjectReference) : list CommittedEvent.t :=
  concat (events_in r <$> created s) ++ events_in r (pending s).

Definition post {A} (m : RT A) (s : st) (Q : A → st → Prop) : Prop :=
  ∀ a s', m s = Val a s' → Q a s'.

Lemma post_ret {A} (a : A) s (Q : A → st → Prop) : Q a s → post (mret a) s Q.
Proof. by intros HQ b s' [= <- <-]. Qed.

Lemma post_bind {A B} (m : RT A) (f : A → RT B) s Q :
  post m s (fun a s1 => post (f a) s1 Q) → post (m ≫= f) s Q.
Proof.
  intros Hm b s' Hb. unfold mbind, RT_bind in Hb.
  destruct (m s) as [a s1| | |] eqn:E; try done. by eapply Hm.
Qed.

Lemma post_mono {A} (m : RT A) s (Q Q' : A → st → Prop) :
  post m s Q → (∀ a s', Q a s' → Q' a s') → post m s Q'.
Proof. intros Hm HQ a s' Ha. by apply HQ, Hm. Qed.

(** Steps that record nothing. *)
Definition still (s s' : st) : Prop :=
  created s' = created s ∧ pending s' = pending s ∧ level s' = level s.

#[local] Instance still_preorder : PreOrder still.
Proof.
  split; [by intros s|]. intros a b c (A1 & A2 & A3) (B1 & B2 & B3).
  unfold still. rewrite B1, B2, B3. done.
Qed.

Definition silent {A} (m : RT A) : Prop := ∀ s, post m s (fun _ => still s).

Lemma silent_ret {A} (a : A) : silent (mret a).
Proof. intros s. by apply post_ret. Qed.
Lemma silent_bind {A B} (m : RT A) (f : A → RT B) :
  silent m → (∀ a, silent (f a)) → silent (m ≫= f).
Proof.
  intros Hm Hf s. apply post_bind. eapply post_mono; [apply Hm|]. intros a s1 H1.
  eapply post_mono; [apply Hf|]. intros b s2 H2. by transitivity s1.
Qed.
Lemma silent_gets {A} (f : st → A) : silent (gets f).
Proof. by intros s a s' [= <- <-]. Qed.
Lemma silent_modify f : (∀ s, still s (f s)) → silent (modify f).
Proof. by intros Hf s a s' [= <- <-]. Qed.
Lemma silent_res {A} (r : res A) : silent (lift_res r).
Proof. intros s a s'. unfold lift_res. by destruct r; intros [= <- <-]. Qed.
Lemma silent_check b : silent (check b).
Proof. apply silent_res. Qed.
Lemma silent_store {A} (m : S → res (A * S)) : silent (lift_store m).
Proof. intros s a s'. unfold lift_store. destruct (m _) as [[? ?]| |]; by intros [= <- <-]. Qed.
Lemma silent_wait {A} (m : S → res (option A * S)) : silent (lift_wait m).
Proof. intros s a s'. unfold lift_wait. destruct (m _) as [[[?|] ?]| |]; by intros [= <- <-]. Qed.
Lemma silent_heap {A} (m : LiveObject.heap LO → res (A * LiveObject.heap LO)) : silent (lift_heap m).
Proof. apply silent_store. Qed.
Lemma silent_foldM {A B} (f : B → A → RT B) b l : (∀ b x, silent (f b x)) → silent (foldM_ f b l).
Proof.
  intros Hf. revert b. induction l as [|x l IH]; intros b; simpl; [apply silent_ret|].
  by apply silent_bind.
Qed.

Create HintDb recording.
#[local] Hint Resolve silent_ret silent_gets silent_res silent_check silent_store silent_wait
  silent_heap : recording.

(** Goes through the binds and branches of a computation that records nothing. *)
Ltac silently :=
  repeat first
    [ progress intros
    | solve [auto with recording]
    | apply silent_bind
    | apply silent_modify; intros ?; done
    | case_match ].

Lemma GetLiveObject_silent r : silent (GetLiveObject r).
Proof. unfold GetLiveObject. silently. Qed.
Lemma IsObjectKnown_silent r : silent (IsObjectKnown r).
Proof. unfold IsObjectKnown. silently. Qed.

(** These replace the pending transaction by a value read before; it has the
    same events. *)
Lemma AddNewObject_silent r l : silent (AddNewObject r l).
Proof.
  intros s. unfold AddNewObject. apply post_bind. intros p s1 [= <- <-].
  case_bool_decide; [by apply post_ret|].
  apply post_bind. eapply post_mono; [apply silent_heap|]. intros l1 s1 (A1 & A2 & A3).
  apply post_bind. eapply post_mono; [apply silent_check|]. intros ? s2 (B1 & B2 & B3).
  apply post_bind. intros ? s3 [= <- <-]. apply post_ret.
  split; [simpl; congruence|done].
Qed.

Lemma CheckIfObjectIsNew_silent f r : silent (CheckIfObjectIsNew f r).
Proof.
  destruct r; [|apply silent_ret]. apply silent_bind; [silently|]. intros no.
  case_match; [|apply silent_ret]. apply silent_bind; [apply AddNewObject_silent|]. silently.
Qed.
Lemma CheckIfValueIsNew_silent f v : silent (CheckIfValueIsNew f v).
Proof. unfold CheckIfValueIsNew. case_match; try apply silent_ret. apply CheckIfObjectIsNew_silent. Qed.
Lemma CreateObject_silent lo name : silent (CreateObject lo name).
Proof.
  unfold CreateObject. apply silent_bind; [silently|]. intros l. case_bool_decide; [silently|].
  apply silent_bind; [silently|]. intros r. apply silent_bind; [silently|]. intros no.
  case_match; [silently|]. apply silent_bind; [silently|]. intros _.
  apply silent_bind; [apply IsObjectKnown_silent|]. silently.
Qed.

Lemma lift_pending_post (m : PendingTransaction.t → res PendingTransaction.t) s :
  post (lift_pending m) s (fun _ s' => created s' = created s ∧
    m (pending_transaction_ s) = Ok (pending_transaction_ s')).
Proof.
  unfold lift_pending. apply post_bind. intros p s1 [= <- <-]. apply post_bind.
  intros p s1. unfold lift_res. destruct (m _) eqn:E; try done. intros [= -> <-].
  by intros ? s2 [= <- <-].
Qed.

(** ** Adding events and committing them *)
Lemma events_in_insert r r0 tr m :
  events_in r (<[r0 := tr]> m) =
  if decide (r0 = r) then SharedObjectTransaction.events tr else events_in r m.
Proof.
  unfold events_in. case_decide as E; [subst; by rewrite lookup_insert_eq|].
  by rewrite lookup_insert_ne.
Qed.

Lemma events_in_empty r : events_in r ∅ = [].
Proof. unfold events_in. by rewrite lookup_empty. Qed.

Lemma AddEvent_events peer r r0 e p :
  events_in r (PendingTransaction.object_transactions_ (PendingTransaction.AddEvent peer r0 e p)) =
  events_in r (PendingTransaction.object_transactions_ p) ++ if decide (r0 = r) then [e] else [].
Proof.
  simpl. rewrite events_in_insert. case_decide as E; [subst|by rewrite app_nil_r].
  unfold events_in. by destruct (PendingTransaction.object_transactions_ p !! r).
Qed.

Lemma AddEvents_events peer r r0 es p :
  let p' := foldl (fun p e => PendingTransaction.AddEvent peer r0 e p) p es in
  events_in r (PendingTransaction.object_transactions_ p') =
    events_in r (PendingTransaction.object_transactions_ p) ++ (if decide (r0 = r) then es else []) ∧
  PendingTransaction.transaction_level_ p' = PendingTransaction.transaction_level_ p.
Proof.
  revert p. induction es as [|e es IH]; intros p; simpl; [case_decide; by rewrite app_nil_r|].
  destruct (IH (PendingTransaction.AddEvent peer r0 e p)) as [-> ->].
  rewrite AddEvent_events, <- app_assoc. split; [|done]. by case_decide.
Qed.

Lemma AddEventMap_events peer r (l : list (ObjectReference * list CommittedEvent.t)) p :
  NoDup l.*1 →
  let p' := foldl (fun p x => foldl (fun p e => PendingTransaction.AddEvent peer x.1 e p) p x.2) p l in
  events_in r (PendingTransaction.object_transactions_ p') =
    events_in r (PendingTransaction.object_transactions_ p) ++
    default [] ((list_to_map l : events_map) !! r) ∧
  PendingTransaction.transaction_level_ p' = PendingTransaction.transaction_level_ p.
Proof.
  revert p. induction l as [|[r0 es] l IH]; intros p Hnd; simpl; [by rewrite app_nil_r|].
  apply NoDup_cons in Hnd as [Hn Hnd].
  destruct (IH (foldl (fun p e => PendingTransaction.AddEvent peer r0 e p) p es) Hnd) as [-> ->].
  destruct (AddEvents_events peer r r0 es p) as [-> ->]. split; [|done].
  rewrite <- app_assoc. f_equal. case_decide as E.
  - subst. rewrite lookup_insert_eq, (not_elem_of_list_to_map_1 _ _ Hn). by rewrite app_nil_r.
  - by rewrite lookup_insert_ne.
Qed.

(** The pending events become one transaction, or none if there are no events:
    the loop of [Commit] runs at most once. *)
Lemma commit_loop_eq tid s :
  commit_loop 2 tid s =
  (if PendingTransaction.IsEmpty (pending_transaction_ s) then Val tid s
   else match ts_create_transaction (pending s)
                (PendingTransaction.modified_objects_ (pending_transaction_ s))
                (PendingTransaction.sequence_point_ (pending_transaction_ s)) (store s) with
        | Ok (tid, x) => Val tid (log_transaction (pending s) (set_store x (set_pending
            (PendingTransaction.set_modified ∅
               (PendingTransaction.set_transactions ∅ (pending_transaction_ s))) s)))
        | Fatal => Aborted false
        | Undef => Aborted true
        end).
Proof.
  cbn [commit_loop]. unfold mbind, RT_bind. simpl.
  destruct (PendingTransaction.IsEmpty (pending_transaction_ s)); [done|].
  unfold lift_store. simpl. by destruct (ts_create_transaction _ _ _ _) as [[? ?]| |].
Qed.

Definition committed_now (s : st) : list (gmap ObjectReference SharedObjectTransaction.t) :=
  if PendingTransaction.IsEmpty (pending_transaction_ s) then [] else [pending s].

Lemma committed_now_events s r : concat (events_in r <$> committed_now s) = events_in r (pending s).
Proof.
  unfold committed_now, PendingTransaction.IsEmpty. case_bool_decide as E; simpl.
  - by rewrite E.
  - by rewrite app_nil_r.
Qed.

Lemma CommitTransaction_post s :
  post CommitTransaction s (fun _ s' => created s' = created s ++ committed_now s ∧
    pending s' = ∅ ∧ level s' = 0%Z).
Proof.
  unfold CommitTransaction, Commit. apply post_bind, post_bind. intros tid s1. rewrite commit_loop_eq.
  intros Hloop. assert (created s1 = created s ++ committed_now s) as E1.
  { unfold committed_now. destruct (PendingTransaction.IsEmpty _); [injection Hloop as _ <-; by rewrite app_nil_r|].
    by destruct (ts_create_transaction _ _ _ _) as [[? ?]| |]; simplify_eq. }
  clear Hloop. apply post_bind. intros p s2 [= <- <-]. apply post_bind. intros ? s2 [= <- <-].
  apply post_ret. apply post_bind. eapply post_mono.
  { apply silent_foldM. intros ? r. silently. }
  intros ? s2 (B1 & _). simpl in B1. unfold reset_pending. apply post_bind.
  eapply post_mono; [apply silent_store|]. intros sp s3 (C1 & _). intros ? s4 [= <- <-]. simpl.
  split; [congruence|done].
Qed.

(** [adds m s s']: the events [m] were recorded; inside an explicit transaction
    none was committed. *)
Definition adds (m : ObjectReference → list CommittedEvent.t) (s s' : st) : Prop :=
  (∀ r, recorded s' r = recorded s r ++ m r) ∧ level s' = level s ∧
  (level s ≠ 0%Z → created s' = created s).

Lemma adds_still m s1 s2 s3 : still s1 s2 → adds m s2 s3 → adds m s1 s3.
Proof.
  intros (A1 & A2 & A3) (B1 & B2 & B3). split_and!.
  - intros r. rewrite B1. unfold recorded. by rewrite A1, A2.
  - congruence.
  - rewrite <- A1, <- A3. done.
Qed.

Lemma post_still {A} (m : RT A) f s s0 :
  still s s0 → post m s0 (fun _ => adds f s0) → post m s0 (fun _ => adds f s).
Proof. intros Hs Hm. eapply post_mono; [exact Hm|]. intros ? s'. by apply adds_still. Qed.

Lemma UpdateLiveObject_frame r l p p' :
  PendingTransaction.UpdateLiveObject r l p = Ok p' →
  PendingTransaction.object_transactions_ p' = PendingTransaction.object_transactions_ p ∧
  PendingTransaction.transaction_level_ p' = PendingTransaction.transaction_level_ p.
Proof.
  unfold PendingTransaction.UpdateLiveObject. intros Hu. case_match; res_inv; by simplify_eq.
Qed.

Lemma AddTransactionEvents_post (m : events_map) prev next pl s :
  post (AddTransactionEvents m prev next pl) s (fun _ => adds (fun r => default [] (m !! r)) s).
Proof.
  unfold AddTransactionEvents. apply post_bind. eapply post_mono; [apply silent_check|].
  intros ? s0 Hs. apply (post_still _ _ _ _ Hs). clear Hs s.
  apply post_bind. intros first s1 [= <- <-]. apply post_bind.
  eapply (post_mono _ _ (fun _ => still s0)).
  { destruct prev as [r|]; [|by apply post_ret]. apply post_bind.
    eapply post_mono; [apply silent_res|]. intros l s1 (A1 & A2 & A3).
    eapply post_mono; [apply lift_pending_post|]. intros ? s2 (B1 & [B2 B3]%UpdateLiveObject_frame).
    split_and!; congruence. }
  intros ? s1 Hs. apply (post_still _ _ _ _ Hs). clear Hs.
  apply post_bind. intros ? s2 [= <- <-]. apply post_bind. intros lv s2 [= <- <-]. simpl.
  set (p2 := foldl _ (pending_transaction_ s1) (map_to_list m)).
  assert (Hp2 : ∀ r, events_in r (PendingTransaction.object_transactions_ p2) =
      events_in r (pending s1) ++ default [] (m !! r)) by (intros r; subst p2;
    destruct (AddEventMap_events ts_local_peer r (map_to_list m) (pending_transaction_ s1))
      as [-> _]; [apply NoDup_fst_map_to_list|by rewrite list_to_map_to_list]).
  assert (Hl2 : PendingTransaction.transaction_level_ p2 = level s1) by (subst p2;
    apply (AddEventMap_events ts_local_peer 0 (map_to_list m)), NoDup_fst_map_to_list).
  destruct ((PendingTransaction.transaction_level_ p2 =? 0)%Z && _) eqn:Ec.
  - apply andb_true_iff in Ec as [Ec%Z.eqb_eq _].
    eapply post_mono; [apply CommitTransaction_post|]. simpl. intros ? s3 (C1 & C2 & C3).
    split_and!; [|congruence|congruence]. intros r. unfold recorded.
    rewrite C1, C2, fmap_app, concat_app, committed_now_events. simpl. rewrite Hp2.
    by rewrite events_in_empty, app_nil_r, app_assoc.
  - apply post_ret. split_and!; [|done|done]. intros r. unfold recorded. simpl.
    by rewrite Hp2, app_assoc.
Qed.

(** ** The events of a call *)
Definition creation (e : CommittedEvent.t) : Prop :=
  CommittedEvent.type e = CommittedEvent.OBJECT_CREATION.

(** What the beginning and the end of a call add to the record of [q], apart
    from the creations of objects that are used for the first time. *)
Definition call_part (caller : option ObjectReference) (callee : ObjectReference)
    (news : gset ObjectReference) (name : string) (ps : list Value) (q : ObjectReference)
    : list CommittedEvent.t :=
  if decide (caller = Some callee) then
    if decide (callee = q) then [CommittedEvent.SelfMethodCall news name ps] else []
  else
    (if decide (caller = Some q) then [CommittedEvent.SubMethodCall news callee name ps] else []) ++
    (if decide (callee = q) then [CommittedEvent.MethodCall name ps] else []).

Definition return_part (caller : option ObjectReference) (callee : ObjectReference)
    (news : gset ObjectReference) (v : Value) (q : ObjectReference) : list CommittedEvent.t :=
  if decide (caller = Some callee) then
    if decide (callee = q) then [CommittedEvent.SelfMethodReturn news v] else []
  else
    (if decide (caller = Some q) then [CommittedEvent.SubMethodReturn v] else []) ++
    (if decide (callee = q) then [CommittedEvent.MethodReturn news v] else []).

Lemma AddEventToMap_lookup r e m q :
  default [] (AddEventToMap r e m !! q) = default [] (m !! q) ++ if decide (r = q) then [e] else [].
Proof.
  unfold AddEventToMap. case_decide as E; [subst; by rewrite lookup_insert_eq|].
  rewrite lookup_insert_ne by done. by rewrite app_nil_r.
Qed.

Lemma creations_only live q :
  Forall creation (default [] (AddObjectCreationEventsToMap live ∅ !! q)).
Proof.
  unfold AddObjectCreationEventsToMap. assert (Forall creation (default [] ((∅ : events_map) !! q))) as Hm.
  { by rewrite lookup_empty. }
  revert Hm. generalize (∅ : events_map). induction (map_to_list live) as [|x l IH]; intros m Hm; [done|].
  apply IH. rewrite AddEventToMap_lookup, Forall_app. split; [done|]. case_decide; [|done].
  by constructor.
Qed.

(** [pre] are the creations. *)
Definition adds_with (part : ObjectReference → list CommittedEvent.t) (s s' : st) : Prop :=
  ∃ pre, (∀ q, Forall creation (pre q)) ∧ adds (fun q => pre q ++ part q) s s'.

Lemma adds_with_intro live (m : events_map) (part : ObjectReference → list CommittedEvent.t) s s' :
  (∀ q, default [] (m !! q) =
        default [] (AddObjectCreationEventsToMap live ∅ !! q) ++ part q) →
  adds (fun q => default [] (m !! q)) s s' → adds_with part s s'.
Proof.
  intros Hm (A1 & A2). exists (fun q => default [] (AddObjectCreationEventsToMap live ∅ !! q)).
  split; [intros; apply creations_only|]. split; [|done]. intros r. by rewrite A1, Hm.
Qed.

Lemma record_call_post caller caller_live callee name ps s :
  post (record_call caller caller_live callee name ps) s
    (fun _ s' => ∃ news, adds_with (call_part caller callee news name ps) s s').
Proof.
  unfold record_call. apply post_bind. eapply post_mono; [apply CheckIfObjectIsNew_silent|].
  intros f1 s1 H1. apply post_bind. eapply post_mono; [apply CheckIfObjectIsNew_silent|].
  intros f2 s2 H2. apply post_bind.
  eapply post_mono; [apply silent_foldM; intros; apply CheckIfValueIsNew_silent|].
  intros f s3 H3. apply post_bind.
  eapply (post_mono _ _ (fun m s4 => still s3 s4 ∧ ∀ q, default [] (m !! q) =
    default [] (AddObjectCreationEventsToMap f.1 ∅ !! q) ++ call_part caller callee f.2 name ps q)).
  { unfold call_part. case_bool_decide as Hself.
    - apply post_bind. intros e s4 He. unfold lift_res, CommittedEvent.NewSelfMethodCall in He.
      destruct (CHECK _) as [[]| |]; simplify_eq/=. apply post_ret. split; [done|]. intros q.
      rewrite AddEventToMap_lookup. by rewrite (decide_True (P := Some callee = Some callee)).
    - apply post_bind.
      eapply (post_mono _ _ (fun m s4 => still s3 s4 ∧ ∀ q, default [] (m !! q) =
        default [] (AddObjectCreationEventsToMap f.1 ∅ !! q) ++
        if decide (caller = Some q) then [CommittedEvent.SubMethodCall f.2 callee name ps] else [])).
      + destruct caller as [r|]; [|apply post_ret; split; [done|]; intros q; by rewrite app_nil_r].
        apply post_bind. intros e s4 He. unfold lift_res, CommittedEvent.NewSubMethodCall in He.
        destruct (CHECK _) as [[]| |]; simplify_eq/=. apply post_ret. split; [done|]. intros q.
        rewrite AddEventToMap_lookup. f_equal. repeat case_decide; naive_solver.
      + intros m s4 [H4 Hm]. apply post_bind. intros e s5 He.
        unfold lift_res, CommittedEvent.NewMethodCall in He.
        destruct (CHECK _) as [[]| |]; simplify_eq/=. apply post_ret. split; [done|]. intros q.
        rewrite AddEventToMap_lookup, Hm, (decide_False (P := caller = Some callee)) by done.
        by rewrite app_assoc. }
  intros m s4 [H4 Hm]. eapply post_mono; [apply AddTransactionEvents_post|]. intros ? s5 H5.
  exists f.2. eapply adds_with_intro; [exact Hm|]. eapply adds_still; [|exact H5].
  transitivity s3; [|done]. transitivity s2; [|done]. by transitivity s1.
Qed.

Lemma record_return_post caller callee callee_live v s :
  post (record_return caller callee callee_live v) s
    (fun _ s' => ∃ news, adds_with (return_part caller callee news v) s s').
Proof.
  unfold record_return. apply post_bind. eapply post_mono; [apply CheckIfValueIsNew_silent|].
  intros f s1 H1. eapply post_mono; [apply AddTransactionEvents_post|]. intros ? s2 H2.
  exists f.2. eapply adds_with_intro; [|eapply adds_still; [exact H1|exact H2]].
  intros q. unfold return_part.
  case_bool_decide as Hself;
    [rewrite (decide_True (P := caller = Some callee)) by done
    |rewrite (decide_False (P := caller = Some callee)) by done];
    rewrite AddEventToMap_lookup; [done|]. rewrite app_assoc. f_equal.
  destruct caller as [r|]; [rewrite AddEventToMap_lookup; f_equal; repeat case_decide; naive_solver|].
  by rewrite app_nil_r.
Qed.

(** ** Runs without a rewind *)
Section quiet.
(** No transaction of this peer is rejected meanwhile. *)
Hypothesis quiet : ∀ base x phase x',
  ts_execution_phase base x = Ok (phase, x') → phase = TransactionStore.NORMAL.

Lemma phase_post base s :
  post (lift_store (ts_execution_phase base)) s
    (fun phase s' => phase = TransactionStore.NORMAL ∧ still s s').
Proof.
  intros ph s'. unfold lift_store. destruct (ts_execution_phase base (store s)) as [[ph' x']| |] eqn:E;
    intros [= -> <-]. by apply quiet in E.
Qed.

Lemma Rewinding_post s : post Rewinding s (fun b s' => b = false ∧ still s s').
Proof.
  unfold Rewinding. apply post_bind. intros p s1 [= <- <-]. apply post_bind.
  eapply post_mono; [apply phase_post|]. intros ? s1 [-> Hs]. by apply post_ret.
Qed.

(** The marks of an explicit transaction. *)
Lemma BeginTransaction_post r l s :
  (0 ≤ level s)%Z →
  post (BeginTransaction (Some r) (Some l)) s (fun b s' => b = true ∧
    (∀ q, recorded s' q = recorded s q ++
       if decide (r = q) then [CommittedEvent.BeginTransaction] else []) ∧
    level s' = (level s + 1)%Z ∧ ((0 < level s)%Z → created s' = created s)).
Proof.
  intros Hlv. unfold BeginTransaction. apply post_bind. eapply post_mono; [apply Rewinding_post|].
  intros ? s1 [-> (A1 & A2 & A3)]. apply post_bind.
  eapply post_mono; [apply AddTransactionEvents_post|]. intros ? s2 (B1 & B2 & B3).
  apply post_bind. eapply post_mono; [apply lift_pending_post|]. intros ? s3 (C1 & C2).
  unfold PendingTransaction.IncrementTransactionLevel in C2. res_inv.
  destruct (_ =? 2147483647)%Z; [done|]. injection C2 as C2. apply post_ret. split_and!; [done| | |].
  - intros q. unfold recorded. rewrite <- C2, C1. simpl. fold (recorded s2 q). rewrite B1.
    unfold recorded. rewrite A1, A2, AddEventToMap_lookup, lookup_empty. done.
  - rewrite <- C2. simpl. congruence.
  - intros. rewrite C1, B3, A1; [done|lia].
Qed.

Lemma EndTransaction_post r l s :
  post (EndTransaction (Some r) (Some l)) s (fun b s' => b = true ∧
    (∀ q, recorded s' q = recorded s q ++
       if decide (r = q) then [CommittedEvent.EndTransaction] else []) ∧
    (0 < level s)%Z ∧ level s' = (level s - 1)%Z ∧
    ((1 < level s)%Z → created s' = created s) ∧
    (level s = 1%Z → pending s' = ∅ ∧ ∃ T, created s' = created s ++ [T])).
Proof.
  unfold EndTransaction. apply post_bind. eapply post_mono; [apply Rewinding_post|].
  intros ? s1 [-> (A1 & A2 & A3)]. apply post_bind.
  eapply post_mono; [apply AddTransactionEvents_post|]. intros ? s2 (B1 & B2 & B3).
  apply post_bind. intros p s2' [= <- <-]. apply post_bind. intros [outer p] s3 Hd.
  unfold lift_res, PendingTransaction.DecrementTransactionLevel in Hd.
  destruct (0 <? level s2)%Z eqn:Hpos; [|done]. apply Z.ltb_lt in Hpos. simpl in Hd.
  injection Hd as <- <- <-. apply post_bind. intros ? s3 [= <- <-]. apply post_bind.
  assert (Hrec : ∀ q, recorded s2 q = recorded s q ++
    if decide (r = q) then [CommittedEvent.EndTransaction] else []).
  { intros q. rewrite B1. unfold recorded. by rewrite A1, A2, AddEventToMap_lookup, lookup_empty. }
  assert (Hcr : created s2 = created s) by (rewrite B3, A1; [done|lia]).
  destruct (level s2 - 1 =? 0)%Z eqn:Ez.
  - apply Z.eqb_eq in Ez. eapply post_mono; [apply CommitTransaction_post|].
    simpl. intros ? s4 (C1 & C2 & C3). apply post_ret. split_and!; [done| |lia|lia|lia|].
    + intros q. unfold recorded. rewrite C1, C2, fmap_app, concat_app, committed_now_events.
      rewrite events_in_empty, app_nil_r. simpl. apply Hrec.
    + intros _. split; [done|]. exists (pending s2). rewrite C1, Hcr. f_equal.
      unfold committed_now, PendingTransaction.IsEmpty. simpl. rewrite bool_decide_false; [done|].
      intros E0. specialize (Hrec r). rewrite decide_True in Hrec by done. unfold recorded in Hrec.
      rewrite Hcr, E0, events_in_empty, app_nil_r, <- app_assoc in Hrec.
      apply (f_equal length) in Hrec. rewrite !length_app in Hrec. simpl in Hrec. lia.
  - apply Z.eqb_neq in Ez. apply post_ret. intros ? s4 [= <- <-]. simpl.
    split_and!; [done|exact Hrec|lia|lia|done|lia].
Qed.

(** The record only grows. *)
Definition grows (s s' : st) : Prop := ∀ q, recorded s q `prefix_of` recorded s' q.

#[global] Instance grows_preorder : PreOrder grows.
Proof. split; [by intros s q|]. intros a b c A B q. transitivity (recorded b q); [apply A|apply B]. Qed.

Lemma still_grows s s' : still s s' → grows s s'.
Proof. intros (A1 & A2 & _) q. unfold recorded. by rewrite A1, A2. Qed.
Lemma recorded_grows f s s' : (∀ q, recorded s' q = recorded s q ++ f q) → grows s s'.
Proof. intros Hf q. rewrite Hf. by eexists. Qed.
Lemma adds_with_grows f s s' : adds_with f s s' → grows s s'.
Proof. intros (pre & _ & Ha & _). eapply recorded_grows. exact Ha. Qed.

(** A method is balanced when it ends the transactions that it begins, and no
    others; [d] counts those it has begun. *)
Fixpoint balanced (d : nat) (p : prog LO) : Prop :=
  match p with
  | PReturn _ => d = 0
  | PRead k => ∀ lo, balanced d (k lo)
  | PWrite _ k => balanced d k
  | PBeginTransaction k => balanced (Datatypes.S d) k
  | PEndTransaction k => match d with O => False | Datatypes.S d => balanced d k end
  | PCreateObject _ _ k => ∀ r, balanced d (k r)
  | PCallMethod _ _ _ k => ∀ v, balanced d (k v)
  | PObjectsAreIdentical _ _ k => ∀ b, balanced d (k b)
  | PPrint _ k => balanced d k
  | PFail _ => True
  end.

(** What a call does to the record, to the level and to what is committed:
    [k] is the level outside the transactions that the caller has begun. *)
Definition completed (k : Z) (s s' : st) : Prop :=
  grows s s' ∧ level s' = k ∧ ((0 < k)%Z → created s' = created s).

Lemma completed_after k s1 s2 s3 : still s1 s2 → completed k s2 s3 → completed k s1 s3.
Proof.
  intros Hs (B1 & B2 & B3). destruct (Hs) as (A1 & _ & _). split_and!; [|done|].
  - transitivity s2; [by apply still_grows|done].
  - intros Hk. rewrite B3 by done. done.
Qed.

Section body.
Context (call : option ObjectReference → option LiveObjectPtr → ObjectReference → string →
  list Value → Value → RT (option Value)).
Hypothesis call_ok : ∀ caller caller_live callee name ps rv s, (0 ≤ level s)%Z →
  post (call caller caller_live callee name ps rv) s
    (fun v s' => is_Some v ∧ completed (level s) s s').

Lemma run_prog_post r l n p d k s :
  balanced d p → (0 ≤ k)%Z → level s = (k + Z.of_nat d)%Z →
  post (run_prog call r l n p) s (fun v s' => is_Some v ∧ completed k s s').
Proof.
  revert d s. induction p as [v|kk IH|lo kk IH|kk IH|kk IH|init name kk IH|r' name ps kk IH|a b kk IH|text kk IH|why];
    intros d s Hb Hk Hlv; simpl in Hb; simpl.
  - apply post_ret. subst d. split; [by eexists|]. split_and!; [done|lia|done].
  - apply post_bind. eapply post_mono; [apply silent_heap|]. intros lo s1 Hs.
    eapply post_mono; [apply (IH lo d s1); [done|done|]; destruct Hs as (_ & _ & ->); done|].
    intros v s2 [? Hc]. split; [done|]. exact (completed_after _ _ _ _ Hs Hc).
  - apply post_bind. eapply post_mono; [apply silent_heap|]. intros u s1 Hs.
    eapply post_mono; [apply (IH d s1); [done|done|]; destruct Hs as (_ & _ & ->); done|].
    intros v s2 [? Hc]. split; [done|]. exact (completed_after _ _ _ _ Hs Hc).
  - apply post_bind. eapply post_mono; [apply BeginTransaction_post; lia|].
    intros ? s1 (-> & Hrec & Hl & Hcr).
    eapply post_mono; [apply (IH (Datatypes.S d) s1); [done|done|lia]|].
    intros v s2 (? & B1 & B2 & B3). split; [done|]. split_and!; [|done|].
    + transitivity s1; [eapply recorded_grows; exact Hrec|done].
    + intros. rewrite B3 by done. apply Hcr. lia.
  - destruct d as [|d]; [done|]. apply post_bind. eapply post_mono; [apply EndTransaction_post|].
    intros ? s1 (-> & Hrec & _ & Hl & Hcr & _).
    eapply post_mono; [apply (IH d s1); [done|done|lia]|].
    intros v s2 (? & B1 & B2 & B3). split; [done|]. split_and!; [|done|].
    + transitivity s1; [eapply recorded_grows; exact Hrec|done].
    + intros. rewrite B3 by done. apply Hcr. lia.
  - apply post_bind. eapply post_mono; [apply CreateObject_silent|]. intros r' s1 Hs.
    eapply post_mono; [apply (IH r' d s1); [done|done|]; destruct Hs as (_ & _ & ->); done|].
    intros v s2 [? Hc]. split; [done|]. exact (completed_after _ _ _ _ Hs Hc).
  - apply post_bind. eapply post_mono; [apply call_ok; lia|].
    intros ? s1 ([v ->] & A1 & A2 & A3).
    eapply post_mono; [apply (IH v d s1); [done|done|lia]|].
    intros v' s2 (? & B1 & B2 & B3). split; [done|]. split_and!; [|done|].
    + by transitivity s1.
    + intros. rewrite B3 by done. apply A3. lia.
  - apply post_bind. intros x s1 [= <- <-]. by apply (IH _ d).
  - by apply (IH d).
  - intros v s' [=].
Qed.

Hypothesis methods_balanced : ∀ r name ps, balanced 0 (lo_invoke r name ps).

Lemma InvokeMethod_post r l name ps s :
  (0 ≤ level s)%Z →
  post (InvokeMethod call r l name ps) s (fun v s' => is_Some v ∧ completed (level s) s s').
Proof.
  intros Hlv. unfold InvokeMethod. apply post_bind. eapply post_mono; [apply silent_heap|].
  intros n s1 Hs. apply post_bind. destruct (Hs) as (_ & _ & E).
  eapply post_mono; [apply (run_prog_post _ _ _ _ 0 (level s)); [done|done|lia]|].
  intros v s2 [Hv Hc]. apply post_bind. eapply post_mono; [apply silent_heap|].
  intros ? s3 (C1 & C2 & C3). apply post_ret. split; [done|].
  eapply completed_after; [exact Hs|]. destruct Hc as (B1 & B2 & B3). split_and!.
  - transitivity s2; [done|]. by apply still_grows.
  - congruence.
  - rewrite C1. done.
Qed.

Lemma CallMethodHelper_post fuel callee name ps rv s :
  (0 ≤ level s)%Z →
  post (CallMethodHelper call fuel callee name ps rv) s
    (fun v s' => is_Some v ∧ completed (level s) s s').
Proof.
  intros Hlv. unfold CallMethodHelper. apply post_bind. intros p s1 [= <- <-].
  destruct fuel as [|fuel]; [done|]. cbn [call_method_loop]. apply post_bind.
  eapply post_mono; [apply GetLiveObject_silent|]. intros l s1 Hs.
  apply post_bind. destruct (Hs) as (_ & _ & E).
  eapply post_mono; [apply InvokeMethod_post; lia|]. rewrite E. intros v s2 [Hv Hc].
  apply post_bind. eapply post_mono; [apply phase_post|]. intros ? s3 [-> (C1 & C2 & C3)].
  apply post_ret. split; [by eexists|]. eapply completed_after; [exact Hs|].
  destruct Hc as (B1 & B2 & B3). split_and!.
  - transitivity s2; [done|]. by apply still_grows.
  - congruence.
  - rewrite C1. done.
Qed.

(** The record of one call. *)
Definition bracketed (caller : option ObjectReference) (callee : ObjectReference)
    (name : string) (ps : list Value) (v : Value) (s s' : st) : Prop :=
  ∃ news news', ∀ q, ∃ pre mid pre', Forall creation pre ∧ Forall creation pre' ∧
    recorded s' q = recorded s q ++ pre ++ call_part caller callee news name ps q ++
      mid ++ pre' ++ return_part caller callee news' v q.

Lemma CallMethod_post fuel caller caller_live callee name ps rv s :
  (0 ≤ level s)%Z →
  post (CallMethod call fuel caller caller_live callee name ps rv) s
    (fun v s' => ∃ x, v = Some x ∧ completed (level s) s s' ∧
       bracketed caller callee name ps x s s').
Proof.
  intros Hlv. unfold CallMethod. apply post_bind. eapply post_mono; [apply silent_check|].
  intros ? s0 Hs0. apply post_bind. eapply post_mono; [apply Rewinding_post|].
  intros ? s1 [-> Hs1]. apply post_bind. eapply post_mono; [apply record_call_post|].
  intros ? s2 (news & Hcall). apply post_bind.
  assert (Hs : still s s1) by (by transitivity s0). destruct (Hs) as (_ & _ & E).
  destruct (Hcall) as (pre & Hpre & A1 & A2 & A3).
  eapply post_mono; [apply CallMethodHelper_post; lia|]. intros ? s3 ([[v l] ->] & B1 & B2 & B3).
  apply post_bind. eapply post_mono; [apply record_return_post|].
  intros ? s4 (news' & Hret). destruct (Hret) as (pre' & Hpre' & C1 & C2 & C3).
  apply post_ret. exists v. split; [done|]. split.
  - eapply completed_after; [exact Hs|]. split_and!; [|lia|].
    + transitivity s2; [by eapply adds_with_grows|]. transitivity s3; [done|by eapply adds_with_grows].
    + intros. rewrite C3, B3, A3; [done|lia..].
  - exists news, news'. intros q. destruct (B1 q) as [mid Hmid]. exists (pre q), mid, (pre' q).
    split_and!; [done|done|]. rewrite C1, Hmid, A1. rewrite <- !app_assoc. f_equal.
    destruct Hs as (D1 & D2 & _). unfold recorded. by rewrite D1, D2.
Qed.
End body.

Hypothesis methods_balanced : ∀ r name ps, balanced 0 (lo_invoke r name ps).

Lemma call_method_post fuel caller caller_live callee name ps rv s :
  (0 ≤ level s)%Z →
  post (call_method fuel caller caller_live callee name ps rv) s
    (fun v s' => ∃ x, v = Some x ∧ completed (level s) s s' ∧
       bracketed caller callee name ps x s s').
Proof.
  revert caller caller_live callee name ps rv s.
  induction fuel as [|fuel IH]; intros caller caller_live callee name ps rv s Hlv; [done|].
  cbn [call_method]. apply CallMethod_post; [|done|done]. clear -IH.
  intros caller caller_live callee name ps rv s Hlv. eapply post_mono; [by apply IH|].
  intros v s' (x & -> & Hc & _). split; [by eexists|done].
Qed.

(** C4 (functional). What a call leaves in the record, when no transaction of
    this peer is rejected meanwhile and methods end the transactions that they
    begin: the call returns a value; the record of the callee gets the method
    call, whatever happens during the call, and the return with that value,
    the record of the caller gets the sub-method call and its return around
    what it records meanwhile (a call of the own object gets one pair of self
    calls), each preceded only by the creations of objects first used there;
    nothing that any object recorded before is lost or reordered, however many
    transactions were committed. *)
Theorem calls_are_bracketed fuel caller caller_live callee name ps rv s v s' :
  (0 ≤ level s)%Z →
  call_method fuel caller caller_live callee name ps rv s = Val v s' →
  ∃ x, v = Some x ∧ bracketed caller callee name ps x s s'.
Proof.
  intros Hlv Hcall. destruct (call_method_post fuel caller caller_live callee name ps rv s Hlv v s' Hcall)
    as (x & ? & _ & ?). by exists x.
Qed.

(** C5 (safety). Explicit transactions are atomic.  Between the beginning of an
    outermost transaction and its end, whatever the method of object [r] does
    (calls, nested transactions, new objects), nothing is committed; ending the
    transaction commits exactly one, which has all the events that all objects
    recorded since, in order, closing with the end mark of [r].  (No
    transaction is rejected meanwhile and methods end the transactions that
    they begin.) *)
Theorem transactions_are_atomic fuel r l n body s v s1 b s2 :
  balanced 0 body → level s = 1%Z →
  run_prog (call_method fuel) r l n body s = Val v s1 →
  EndTransaction (Some r) (Some l) s1 = Val b s2 →
  created s1 = created s ∧ b = true ∧ level s2 = 0%Z ∧ pending s2 = ∅ ∧
  ∃ T, created s2 = created s ++ [T] ∧
    (∀ q, events_in q (pending s) `prefix_of` events_in q T) ∧
    (∀ q, events_in q T = events_in q (pending s1) ++
       if decide (r = q) then [CommittedEvent.EndTransaction] else []).
Proof.
  intros Hb Hlv Hrun Hend.
  assert (Hcall : ∀ caller caller_live callee name ps rv s, (0 ≤ level s)%Z →
    post (call_method fuel caller caller_live callee name ps rv) s
      (fun v s' => is_Some v ∧ completed (level s) s s')).
  { intros. eapply post_mono; [by apply call_method_post|].
    intros ? ? (x & -> & Hc & _). split; [by eexists|done]. }
  destruct (run_prog_post _ Hcall r l n body 0 1 s Hb ltac:(lia) ltac:(lia) v s1 Hrun)
    as (_ & Hgrow & Hl1 & Hc1). specialize (Hc1 ltac:(lia)).
  destruct (EndTransaction_post r l s1 b s2 Hend) as (-> & Hrec & _ & Hl2 & _ & Hout).
  destruct (Hout Hl1) as (Hp2 & T & HT).
  assert (HTq : ∀ q, events_in q T = events_in q (pending s1) ++
    if decide (r = q) then [CommittedEvent.EndTransaction] else []).
  { intros q. specialize (Hrec q). unfold recorded in Hrec.
    rewrite HT, Hp2, events_in_empty, fmap_app, concat_app, app_nil_r in Hrec. simpl in Hrec.
    rewrite app_nil_r, <- app_assoc in Hrec. by simplify_list_eq. }
  split_and!; [done|done|lia|done|]. exists T. split_and!; [congruence| |done].
  intros q. rewrite HTq. destruct (Hgrow q) as [k Hk]. unfold recorded in Hk. rewrite Hc1 in Hk.
  rewrite <- app_assoc in Hk. simplify_list_eq. rewrite Hk, <- app_assoc. by eexists.
Qed.
End quiet.
End recording.
Arguments NewObject : clear implicits.
Arguments st : clear implicits.
Arguments Val {S A}.
Arguments Waiting {S A}.
Arguments Aborted {S A}.
Arguments NoFuel {S A}.
End RecordingThread.

(** ** [TransactionStore] implements the interface *)
Module ScheduledStore.
Section store.
Context {G LO P : Type} `{IdSource G} `{LiveObjectStore (LiveObject.heap LO)}.
Context (GenerateUuid : nat → Uuid) (GeneratePredictableUuid : Uuid → string → Uuid).
Context (clock : nat → timespec) (local_peer_ : CanonicalPeer).

Abbreviation peer_state := (TransactionStore.t (G := G) (LiveHeap := LiveObject.heap LO)).
Abbreviation ST := (TransactionStore.ST (G := G) (LiveHeap := LiveObject.heap LO)).

Context (playback : Uuid →
  Playback (ObjectTable.t ObjectContent.t (LiveObject.heap LO) * gmap Uuid ObjectReference) P).

(** [turns]: what the other threads do before each call that the recording
    thread makes, and while it waits. *)
Record t := { peer : peer_state; turns : list (list (ST unit)) }.

Definition next_turn (s : t) : list (ST unit) * t :=
  match turns s with
  | [] => ([], s)
  | now :: later => (now, {| peer := peer s; turns := later |})
  end.

Definition run_peer {A} (m : ST A) (s : t) : res (A * t) :=
  '(a, p) ← m (peer s); Ok (a, {| peer := p; turns := turns s |}).

Definition others (steps : list (ST unit)) : ST unit :=
  TransactionStore.foldM_ (fun _ m => m) tt steps.

(** A call, after the turn of the others. *)
Definition in_turn {A} (m : ST A) (s : t) : res (A * t) :=
  let '(steps, s) := next_turn s in
  '(_, s) ← run_peer (others steps) s;
  run_peer m s.

Definition live_object (r : ObjectReference) (sp : SequencePointImpl.t) (wait : bool) (s : t)
    : res (option (option LiveObjectPtr) * t) :=
  let '(steps, s) := next_turn s in
  '(_, s) ← run_peer (others steps) s;
  let '(steps, s) := next_turn s in
  run_peer (TransactionStore.GetLiveObjectAtSequencePoint clock local_peer_ playback r sp wait steps) s.

Definition wait_for_rewind (s : t) : res (option unit * t) :=
  let '(steps, s) := next_turn s in
  '(_, s) ← run_peer (others steps) s;
  match TransactionStore.WaitForRewind (peer s) with
  | None => Ok (None, s)
  | Some p => Ok (Some tt, {| peer := p; turns := turns s |})
  end.

Definition set_heap (h : LiveObject.heap LO) (s : t) : t :=
  {| peer := TransactionStore.set_tables
       (ObjectTable.set_live h (TransactionStore.tables (peer s))) (peer s);
     turns := turns s |}.

#[global] Instance scheduled_store : TransactionStoreInternalInterface t LO := {
  ts_local_peer := local_peer_;
  ts_current_sequence_point := in_turn TransactionStore.GetCurrentSequencePoint;
  ts_live_object := live_object;
  ts_create_unbound := in_turn (TransactionStore.lift_table ObjectTable.CreateUnboundObjectReference);
  ts_create_bound name := in_turn (TransactionStore.lift_table
    (ObjectTable.CreateBoundObjectReference GenerateUuid GeneratePredictableUuid name));
  ts_create_transaction transactions modified_objects sp :=
    in_turn (TransactionStore.CreateTransaction GenerateUuid clock local_peer_ playback
      transactions modified_objects sp);
  ts_identical a b s := ObjectTable.ObjectsAreIdentical (TransactionStore.tables (peer s)) a b;
  ts_execution_phase base := in_turn (TransactionStore.GetExecutionPhase base);
  ts_wait_for_rewind := wait_for_rewind;
  ts_heap s := ObjectTable.live (TransactionStore.tables (peer s));
  ts_set_heap := set_heap;
}.

(** ** A rejection that comes late *)
Context `{LocalObjectMethods LO}.

Abbreviation rejected s := (TransactionStore.rejected_transaction_id_ (peer (RecordingThread.store s))).

Lemma phase_alone base (s : RecordingThread.st t) :
  turns (RecordingThread.store s) = [] →
  ∃ s', RecordingThread.lift_store (ts_execution_phase base) s =
    RecordingThread.Val
      (if tid_eqb (rejected s) MIN_TRANSACTION_ID then TransactionStore.NORMAL
       else if tid_geb base (rejected s) then TransactionStore.REWIND else TransactionStore.RESUME) s' ∧
    turns (RecordingThread.store s') = [] ∧
    (tid_eqb (rejected s) MIN_TRANSACTION_ID = true → s' = s) ∧
    (tid_eqb (rejected s) MIN_TRANSACTION_ID = false → tid_geb base (rejected s) = false →
     rejected s' = MIN_TRANSACTION_ID) ∧
    ts_heap (RecordingThread.store s') = ts_heap (RecordingThread.store s) ∧
    RecordingThread.pending_transaction_ s' = RecordingThread.pending_transaction_ s ∧
    RecordingThread.created s' = RecordingThread.created s.
Proof.
  intros Ht. destruct s as [[p ts] pd no cr]. simpl in *. subst ts.
  unfold RecordingThread.lift_store, ts_execution_phase. simpl. unfold in_turn. simpl.
  unfold run_peer, TransactionStore.GetExecutionPhase, mbind, TransactionStore.ST_bind. simpl.
  destruct (tid_eqb _ _) eqn:E1; simpl; [by eexists|].
  destruct (tid_geb _ _) eqn:E2; simpl; by eexists.
Qed.

Lemma lift_heap_alone {A} (m : LiveObject.heap LO → res (A * LiveObject.heap LO))
    (s : RecordingThread.st t) a h :
  m (ts_heap (RecordingThread.store s)) = Ok (a, h) →
  RecordingThread.lift_heap m s =
    RecordingThread.Val a (RecordingThread.set_store (set_heap h (RecordingThread.store s)) s).
Proof.
  intros Hm. unfold RecordingThread.lift_heap, RecordingThread.lift_store.
  simpl in *. by rewrite Hm.
Qed.

(** C40 (error). A rejection that arrives after the thread has gone back is
    mistaken for the end of a method.  Let a transaction later than the one the
    pending transaction is based on be marked as rejected (it has been rewound
    already, and a second peer rejects it too).  Then a method that begins a
    transaction is told to return at once, that clears the mark, and so the
    check after the method finds nothing to rewind: whatever the rest of the
    method ([k]) would have done, the call counts as complete, with the value
    that the result variable happened to hold, nothing recorded and no change
    to the object. *)
Theorem late_rejection_skips_method call fuel callee name ps k rv l lo (s : RecordingThread.st t) :
  turns (RecordingThread.store s) = [] →
  rejected s ≠ MIN_TRANSACTION_ID →
  PendingTransaction.base_transaction_id_ (RecordingThread.pending_transaction_ s) ≺ rejected s →
  PendingTransaction.modified_objects_ (RecordingThread.pending_transaction_ s) !! callee = Some l →
  LiveObject.heap_ok (ts_heap (RecordingThread.store s)) →
  LiveObject.abs (ts_heap (RecordingThread.store s)) !! l = Some lo →
  lo_invoke callee name ps = PBeginTransaction k →
  ∃ s', RecordingThread.CallMethodHelper call (S fuel) callee name ps rv s =
      RecordingThread.Val (Some (rv, l)) s' ∧
    rejected s' = MIN_TRANSACTION_ID ∧
    RecordingThread.created s' = RecordingThread.created s ∧
    RecordingThread.pending_transaction_ s' = RecordingThread.pending_transaction_ s ∧
    LiveObject.abs (ts_heap (RecordingThread.store s')) =
      LiveObject.abs (ts_heap (RecordingThread.store s)).
Proof.
  intros Ht Hr Hbase Hl Hok Hlo Hk.
  assert (E1 : tid_eqb (rejected s) MIN_TRANSACTION_ID = false).
  { apply not_true_iff_false. by intros ?%tid_eqb_eq. }
  destruct (Replay.plain_steps l lo lo _ Hok Hlo) as (n & rc & h1 & h2 & Hb & Hn & Hend & _ & Habs).
  rewrite Replay.put_node_same in Hend by done.
  unfold RecordingThread.CallMethodHelper, mbind, RecordingThread.RT_bind.
  unfold RecordingThread.gets at 1. cbn [RecordingThread.call_method_loop].
  unfold mbind, RecordingThread.RT_bind. unfold RecordingThread.GetLiveObject, mbind, RecordingThread.RT_bind.
  unfold RecordingThread.gets at 1. rewrite Hl. unfold mret, RecordingThread.RT_ret.
  unfold RecordingThread.InvokeMethod, mbind, RecordingThread.RT_bind.
  rewrite (lift_heap_alone _ s _ _ Hb), Hk. cbn [RecordingThread.run_prog].
  set (s1 := RecordingThread.set_store _ s).
  unfold RecordingThread.BeginTransaction, RecordingThread.Rewinding, mbind, RecordingThread.RT_bind.
  unfold RecordingThread.gets at 1.
  destruct (phase_alone (PendingTransaction.base_transaction_id_
    (RecordingThread.pending_transaction_ s1)) s1 Ht) as (s2 & -> & Ht2 & _ & Hr2 & Hh2 & Hp2 & Hc2).
  change (rejected s1) with (rejected s) in *.
  assert (E2 : tid_geb (PendingTransaction.base_transaction_id_
    (RecordingThread.pending_transaction_ s1)) (rejected s) = false).
  { change (RecordingThread.pending_transaction_ s1) with (RecordingThread.pending_transaction_ s).
    unfold tid_geb. by rewrite Hbase. }
  rewrite E1, E2. unfold mret, RecordingThread.RT_ret.
  rewrite (lift_heap_alone _ s2 tt h2) by (rewrite Hh2; simpl; by rewrite Hend).
  set (s3 := RecordingThread.set_store _ s2).
  destruct (phase_alone (PendingTransaction.base_transaction_id_
    (RecordingThread.pending_transaction_ s)) s3 Ht2) as (s4 & -> & _ & Hs4 & _).
  assert (E3 : rejected s3 = MIN_TRANSACTION_ID) by exact (Hr2 E1 E2).
  rewrite E3 in *. specialize (Hs4 eq_refl). subst s4. simpl.
  exists s3. split_and!; [done|done|done|done|]. simpl. rewrite Habs. by apply insert_id.
Qed.
End store.
End ScheduledStore.
