(* ===== verification/RecordReplay.v ===== *)
(** * What was recorded can be replayed

    [engine/recording_thread.cc] runs a method and records events;
    [engine/playback_thread.cc] runs it again from these events.  The theorem of
    this file joins the two: the events that a method's run leaves in the record of
    its object, replayed on the state in which the object was, give the state that
    the method left.  While the method runs, the methods that it calls, the commits
    of their transactions and the messages of other peers all change the same heap;
    file [HeapGuard] says why they do not change the state of its object. *)
From stdpp Require Import base tactics list strings gmap.
From Stdlib Require Import ZArith Lia.
From S2P Require Import Prelude StdMap Ids VersionMap SequencePoint Values Events.
From S2P Require Import TransactionSequencer LiveObject HeapGuard Serialization ObjectTable ObjectContent.
From S2P Require Import PlaybackThread Replay TransactionStore StoreFrame RecordingThread.
#[local] Open Scope string_scope.
#[local] Open Scope nat_scope.
#[local] Open Scope list_scope.

Import HeapGuard.

(** ** What the recording thread relies on *)

(** [ts_ok]: the other threads behave.  Every call of the store keeps that, and
    keeps the guards of running methods. *)
Class StoreFrame (S LO : Type) `{TransactionStoreInternalInterface S LO} := {
  ts_ok : S → Prop;
  ts_keeps {A} (m : S → res (A * S)) : Prop :=
    ∀ x a x', ts_ok x → m x = Ok (a, x') → ts_ok x' ∧ keeps_guards (ts_heap x) (ts_heap x');
  ts_sequence_point_keeps : ts_keeps ts_current_sequence_point;
  ts_live_object_keeps r sp wait : ts_keeps (ts_live_object r sp wait);
  ts_create_unbound_keeps : ts_keeps ts_create_unbound;
  ts_create_bound_keeps name : ts_keeps (ts_create_bound name);
  ts_create_transaction_keeps txs modified sp : ts_keeps (ts_create_transaction txs modified sp);
  ts_execution_phase_keeps base : ts_keeps (ts_execution_phase base);
  ts_heap_set h x : ts_heap (ts_set_heap h x) = h;
  ts_ok_set h x : ts_ok x → ts_ok (ts_set_heap h x);
}.

(** The transaction store keeps them, if its other threads do. *)
Section scheduled.
Context {G LO P : Type} `{IdSource G} `{LiveObjectStore (LiveObject.heap LO)} `{!LiveObjectStoreFrame LO}.
Context (GenerateUuid : nat → Uuid) (GeneratePredictableUuid : Uuid → string → Uuid).
Context (clock : nat → timespec) (local_peer_ : CanonicalPeer).
Abbreviation world := (ObjectTable.t ObjectContent.t (LiveObject.heap LO) * gmap Uuid ObjectReference)%type.
Context (playback : Uuid → Playback world P).
Context (frame : ∀ id, PlaybackFrame (H := playback id) world P world_guards).
Abbreviation scheduled := (ScheduledStore.t (G := G) (LO := LO)).
Abbreviation ST := (TransactionStore.ST (G := G) (LiveHeap := LiveObject.heap LO)).
Abbreviation pres := (TransactionStore.preserves (StoreGuard.store_guards (G := G) (LO := LO))).

Definition others_keep (x : scheduled) : Prop := Forall (Forall pres) (ScheduledStore.turns x).
#[local] Existing Instance StoreGuard.store_guards_preorder.

Definition keeps_in_turn {A} (m : scheduled → res (A * scheduled)) : Prop :=
  ∀ x a x', others_keep x → m x = Ok (a, x') →
    others_keep x' ∧ StoreGuard.store_guards (ScheduledStore.peer x) (ScheduledStore.peer x').

Lemma run_peer_keeps {A} (m : ST A) : pres m → keeps_in_turn (ScheduledStore.run_peer m).
Proof.
  intros Hm x a x' Hx Hr. unfold ScheduledStore.run_peer in Hr.
  apply bind_Ok in Hr as ([b p] & Hp & [= <- <-]). split; [done|]. by eapply Hm.
Qed.

Lemma others_pres steps : Forall pres steps → pres (ScheduledStore.others steps).
Proof.
  intros Hs. unfold ScheduledStore.others. generalize tt.
  induction Hs as [|m ms Hm _ IH]; intros u; simpl; [apply TransactionStore.pres_ret; exact _|].
  apply TransactionStore.pres_bind; [exact _|done|done].
Qed.

Lemma next_turn_keeps x : others_keep x →
  Forall pres (ScheduledStore.next_turn x).1 ∧ others_keep (ScheduledStore.next_turn x).2 ∧
  ScheduledStore.peer (ScheduledStore.next_turn x).2 = ScheduledStore.peer x.
Proof.
  unfold others_keep, ScheduledStore.next_turn. destruct (ScheduledStore.turns x) as [|now later] eqn:E; simpl.
  - by rewrite E.
  - intros [? ?]%Forall_cons. done.
Qed.

Lemma turn_keeps {A} (m : scheduled → res (A * scheduled)) : keeps_in_turn m →
  keeps_in_turn (fun x => let '(steps, x) := ScheduledStore.next_turn x in
    '(_, x) ← ScheduledStore.run_peer (ScheduledStore.others steps) x; m x).
Proof.
  intros Hm x a x' Hx Hr. destruct (next_turn_keeps x Hx) as (Hsteps & Hx1 & Ep).
  destruct (ScheduledStore.next_turn x) as [steps x1]. simpl in *. rewrite <- Ep.
  apply bind_Ok in Hr as ([u x2] & H2 & Hr).
  destruct (run_peer_keeps _ (others_pres _ Hsteps) _ _ _ Hx1 H2) as [Hx2 K2].
  destruct (Hm _ _ _ Hx2 Hr) as [Hx3 K3]. split; [done|]. by etrans.
Qed.

Lemma in_turn_keeps {A} (m : ST A) : pres m → keeps_in_turn (ScheduledStore.in_turn m).
Proof. intros Hm. by apply turn_keeps, run_peer_keeps. Qed.

Lemma live_object_keeps r sp wait :
  keeps_in_turn (ScheduledStore.live_object clock local_peer_ playback r sp wait).
Proof.
  apply turn_keeps. intros x a x' Hx Hr. destruct (next_turn_keeps x Hx) as (Hsteps & Hx1 & Ep).
  destruct (ScheduledStore.next_turn x) as [steps x1]. simpl in *. rewrite <- Ep.
  eapply run_peer_keeps; [by apply StoreGuard.sg_live_object|exact Hx1|exact Hr].
Qed.

#[global] Instance scheduled_store_frame :
  StoreFrame scheduled LO
    (H := ScheduledStore.scheduled_store GenerateUuid GeneratePredictableUuid clock local_peer_ playback).
Proof.
  refine {| ts_ok := others_keep |}.
  - apply in_turn_keeps, TransactionStore.pres_gets. exact _.
  - intros r sp wait. apply live_object_keeps.
  - apply in_turn_keeps, StoreGuard.sg_table. auto with table_frame.
  - intros name. apply in_turn_keeps, StoreGuard.sg_table. auto with table_frame.
  - intros txs modified sp. apply in_turn_keeps. by apply StoreGuard.sg_create_transaction.
  - intros base. apply in_turn_keeps, StoreGuard.sg_phase.
  - done.
  - done.
Defined.
End scheduled.

(** ** Runs in which nothing is rewound *)
Module NormalRuns.
Import RecordingThread.
Section normal.
Context {S LO : Type} `{base : TransactionStoreInternalInterface S LO} `{LocalObjectMethods LO}.

(** The store, up to the first time it tells the thread to rewind a
    transaction. *)
Definition normal_phase (t : TransactionId) (x : S) : res (TransactionStore.ExecutionPhase * S) :=
  '(phase, x) ← ts_execution_phase t x;
  match phase with TransactionStore.NORMAL => Ok (phase, x) | _ => Fatal end.

Definition only_normal : TransactionStoreInternalInterface S LO := {|
  ts_local_peer := ts_local_peer;
  ts_current_sequence_point := ts_current_sequence_point;
  ts_live_object := ts_live_object;
  ts_create_unbound := ts_create_unbound;
  ts_create_bound := ts_create_bound;
  ts_create_transaction := ts_create_transaction;
  ts_identical := ts_identical;
  ts_execution_phase := normal_phase;
  ts_wait_for_rewind := ts_wait_for_rewind;
  ts_heap := ts_heap;
  ts_set_heap := ts_set_heap;
|}.

Lemma normal_phase_is t x phase x' :
  normal_phase t x = Ok (phase, x') → phase = TransactionStore.NORMAL ∧ ts_execution_phase t x = Ok (phase, x').
Proof. intros ([ph x1] & E & Hph)%bind_Ok. by destruct ph; simplify_eq. Qed.

Lemma only_normal_quiet t x phase x' :
  ts_execution_phase (TransactionStoreInternalInterface := only_normal) t x = Ok (phase, x') →
  phase = TransactionStore.NORMAL.
Proof. by intros [? _]%normal_phase_is. Qed.

Definition normal_frame `{!StoreFrame S LO} : StoreFrame S LO (H := only_normal).
Proof.
  refine (Build_StoreFrame S LO only_normal ts_ok _ _ _ _ _ _ _ _).
  - exact ts_sequence_point_keeps.
  - exact ts_live_object_keeps.
  - exact ts_create_unbound_keeps.
  - exact ts_create_bound_keeps.
  - exact ts_create_transaction_keeps.
  - intros t x phase x' Hx [_ E]%normal_phase_is. exact (ts_execution_phase_keeps t x phase x' Hx E).
  - exact (ts_heap_set (H := base)).
  - exact (ts_ok_set (H := base)).
Defined.

(** What [m] does on the store so restricted, [m'] does on the store itself. *)
Definition same_run {A} (m m' : RT A) : Prop := ∀ (s : st S) a s', m s = Val a s' → m' s = Val a s'.

Lemma same_refl {A} (m : RT A) : same_run m m.
Proof. by intros s a s'. Qed.
Lemma same_bind {A B} (m m' : RT A) (f f' : A → RT B) :
  same_run m m' → (∀ a, same_run (f a) (f' a)) → same_run (m ≫= f) (m' ≫= f').
Proof.
  intros Hm Hf s b s'. unfold mbind, RT_bind. destruct (m s) as [a s1| | |] eqn:E; try done.
  rewrite (Hm _ _ _ E). apply Hf.
Qed.
Lemma same_phase t :
  same_run (lift_store (ts_execution_phase (TransactionStoreInternalInterface := only_normal) t))
    (lift_store (ts_execution_phase t)).
Proof.
  intros s a s'. unfold lift_store. simpl. destruct (normal_phase t (store s)) as [[ph x]| |] eqn:E; try done.
  apply normal_phase_is in E as [_ ->]. done.
Qed.

Create HintDb same_run.
#[local] Hint Resolve same_refl same_phase : same_run.
Ltac same := repeat first [progress auto with same_run | apply same_bind; [|intros ?] | case_match].

Lemma same_rewinding : same_run (Rewinding (H := only_normal)) Rewinding.
Proof. unfold Rewinding. same. Qed.
#[local] Hint Resolve same_rewinding : same_run.
Lemma same_begin r l : same_run (BeginTransaction (H := only_normal) r l) (BeginTransaction r l).
Proof. unfold BeginTransaction. same. Qed.
Lemma same_end r l : same_run (EndTransaction (H := only_normal) r l) (EndTransaction r l).
Proof. unfold EndTransaction. same. Qed.
#[local] Hint Resolve same_begin same_end : same_run.

Section calls.
Context (call call' : option ObjectReference → option LiveObjectPtr → ObjectReference → string →
  list Value → Value → RT (S := S) (option Value)).
Hypothesis same_call : ∀ caller cl callee name ps rv,
  same_run (call caller cl callee name ps rv) (call' caller cl callee name ps rv).
#[local] Hint Resolve same_call : same_run.

Lemma same_prog r l n p : same_run (run_prog (H := only_normal) call r l n p) (run_prog call' r l n p).
Proof.
  induction p; simpl; same.
Qed.
#[local] Hint Resolve same_prog : same_run.
Lemma same_invoke r l name ps :
  same_run (InvokeMethod (H := only_normal) call r l name ps) (InvokeMethod call' r l name ps).
Proof. unfold InvokeMethod. same. Qed.
#[local] Hint Resolve same_invoke : same_run.
Lemma same_loop fuel t callee name ps rv :
  same_run (call_method_loop (H := only_normal) call fuel t callee name ps rv)
    (call_method_loop call' fuel t callee name ps rv).
Proof. revert rv. induction fuel as [|fuel IH]; intros rv; simpl; same. Qed.
#[local] Hint Resolve same_loop : same_run.
Lemma same_call_method fuel caller cl callee name ps rv :
  same_run (CallMethod (H := only_normal) call fuel caller cl callee name ps rv)
    (CallMethod call' fuel caller cl callee name ps rv).
Proof. unfold CallMethod, CallMethodHelper. same. Qed.
End calls.

Lemma same_calls fuel caller cl callee name ps rv :
  same_run (call_method (H := only_normal) fuel caller cl callee name ps rv)
    (call_method fuel caller cl callee name ps rv).
Proof.
  revert caller cl callee name ps rv. induction fuel as [|fuel IH]; intros caller cl callee name ps rv; simpl.
  { apply same_refl. }
  by apply same_call_method.
Qed.
End normal.
End NormalRuns.

Module RecordReplay.
Import RecordingThread.
Section record.
Context {S LO : Type} `{TransactionStoreInternalInterface S LO} `{LocalObjectMethods LO} `{!StoreFrame S LO}.

Abbreviation state := (st S).
Abbreviation heap_of s := (ts_heap (store s)).
Abbreviation level s := (PendingTransaction.transaction_level_ (pending_transaction_ s)).
Abbreviation modified s := (PendingTransaction.modified_objects_ (pending_transaction_ s)).

(** ** A method that is running *)
Section running.
(** A method of the object [r] runs on the node [n] of its live object [l]. *)
Context (r : ObjectReference) (l : LiveObjectPtr) (n : nat).

(** Its state is [lo]; no other object is worked on through [l]. *)
Record running (lo : LO) (s : state) : Prop := {
  run_ok : ts_ok (store s);
  run_guarded : guarded l n lo (heap_of s);
  run_modified r' : modified s !! r' = Some l → r' = r;
}.

(** [m] leaves it alone. *)
Definition spares {A} (m : RT A) : Prop := ∀ lo s, running lo s → post m s (fun _ => running lo).

Lemma sp_ret {A} (a : A) : spares (mret a).
Proof. intros lo s Hs. by apply post_ret. Qed.
Lemma sp_bind {A B} (m : RT A) (f : A → RT B) : spares m → (∀ a, spares (f a)) → spares (m ≫= f).
Proof. intros Hm Hf lo s Hs. apply post_bind. eapply post_mono; [by apply Hm|]. intros a s1 H1. by apply Hf. Qed.
Lemma sp_gets {A} (f : state → A) : spares (gets f).
Proof. by intros lo s Hs a s' [= <- <-]. Qed.
Lemma sp_res {A} (x : res A) : spares (lift_res x).
Proof. intros lo s Hs a s'. unfold lift_res. by destruct x; intros [= <- <-]. Qed.
Lemma sp_check b : spares (check b).
Proof. apply sp_res. Qed.
Lemma sp_modify (f : state → state) :
  (∀ s, store (f s) = store s) → (∀ s r', modified (f s) !! r' = Some l → modified s !! r' = Some l ∨ r' = r) →
  spares (modify f).
Proof.
  intros Hst Hm lo s [Hok Hg Hmod] a s' [= <- <-]. split; rewrite ?Hst; [done..|].
  intros r' [Hr|Hr]%Hm; [by apply Hmod|done].
Qed.

Lemma running_store lo s x :
  running lo s → ts_ok x → guarded l n lo (ts_heap x) → running lo (set_store x s).
Proof. intros [Hok Hg Hmod] Hx Hgx. by split. Qed.

Lemma sp_store {A} (m : S → res (A * S)) : ts_keeps m → spares (lift_store m).
Proof.
  intros Hm lo s Hs a s'. unfold lift_store. destruct (m (store s)) as [[b x]| |] eqn:E; intros [= <- <-].
  destruct (Hm _ _ _ (run_ok _ _ Hs) E) as [Hx Hk]. apply running_store; [done..|]. apply Hk, Hs.
Qed.
Lemma sp_wait {A} (m : S → res (option A * S)) : ts_keeps m → spares (lift_wait m).
Proof.
  intros Hm lo s Hs a s'. unfold lift_wait. destruct (m (store s)) as [[[b|] x]| |] eqn:E; intros [= <- <-].
  destruct (Hm _ _ _ (run_ok _ _ Hs) E) as [Hx Hk]. apply running_store; [done..|]. apply Hk, Hs.
Qed.

(** What a step on the heap leaves. *)
Lemma heap_post {A} (m : LiveObject.heap LO → res (A * LiveObject.heap LO)) lo lo' s (Q : A → Prop) :
  running lo s → (∀ a h', m (heap_of s) = Ok (a, h') → guarded l n lo' h' ∧ Q a) →
  post (lift_heap m) s (fun a s' => running lo' s' ∧ Q a).
Proof.
  intros [Hok Hg Hmod] Hm a s'. unfold lift_heap, lift_store. destruct (m (heap_of s)) as [[b h]| |] eqn:E; simpl; intros [= <- <-].
  destruct (Hm _ _ eq_refl) as [Hg' HQ]. split; [|done]. split; simpl; [by apply ts_ok_set|by rewrite ts_heap_set|done].
Qed.
Lemma sp_heap {A} (m : LiveObject.heap LO → res (A * LiveObject.heap LO)) :
  (∀ h a h', m h = Ok (a, h') → keeps_guards h h') → spares (lift_heap m).
Proof.
  intros Hm lo s Hs. eapply post_mono; [eapply (heap_post m lo lo s (fun _ => True)); [done|]|by intros ? ? []].
  intros a h' E. split; [|done]. apply (Hm _ _ _ E), Hs.
Qed.
Lemma sp_clone l0 : spares (lift_heap (LiveObject.Clone l0)).
Proof. apply sp_heap. intros h a h' E. by apply keeps_Clone in E as [? _]. Qed.
Lemma sp_foldM {A B} (f : B → A → RT B) b xs : (∀ b x, spares (f b x)) → spares (foldM_ f b xs).
Proof.
  intros Hf. revert b. induction xs as [|x xs IH]; intros b; simpl; [apply sp_ret|]. by apply sp_bind.
Qed.

Create HintDb spares.
#[local] Hint Resolve sp_ret sp_gets sp_res sp_check sp_clone : spares.
#[local] Hint Resolve ts_sequence_point_keeps ts_live_object_keeps ts_create_unbound_keeps ts_create_bound_keeps
  ts_create_transaction_keeps ts_execution_phase_keeps : spares.

Ltac sp :=
  repeat first
    [ progress auto with spares
    | apply sp_store; solve [auto with spares]
    | apply sp_wait; solve [auto with spares]
    | apply sp_bind; [|intros ?]
    | apply sp_foldM; intros ? ?
    | apply sp_modify; [done|by left]
    | case_match ].

(** A clone is another live object. *)
Lemma clone_post l0 lo s :
  running lo s → post (lift_heap (LiveObject.Clone l0)) s (fun l1 s' => running lo s' ∧ l1 ≠ l).
Proof.
  intros Hs. apply (heap_post _ lo); [done|]. intros l1 h' E. destruct (keeps_Clone _ _ _ _ E) as [Hk ->].
  split; [apply Hk, Hs|]. by destruct (guarded_fresh _ _ _ _ (run_guarded _ _ Hs)).
Qed.

Lemma GetLiveObject_spares r0 lo s :
  running lo s → post (GetLiveObject r0) s (fun l0 s' => running lo s' ∧ (r0 ≠ r → l0 ≠ l)).
Proof.
  intros Hs. unfold GetLiveObject. apply post_bind. intros p s1 [= <- <-].
  destruct (modified s !! r0) as [l0|] eqn:E.
  { apply post_ret. split; [done|]. intros Hne ->. by apply Hne, (run_modified _ _ Hs). }
  apply post_bind. eapply post_mono; [by apply (sp_wait _ (ts_live_object_keeps _ _ _))|]. intros ex s1 H1.
  apply post_bind. eapply post_mono; [apply (sp_res _ lo); exact H1|]. intros l0 s2 H2.
  apply post_bind. eapply post_mono; [apply (clone_post _ lo); exact H2|]. intros l1 s3 [H3 Hne].
  apply post_bind. intros ? s4 [= <- <-]. apply post_ret. split; [|done]. destruct H3 as [Hok Hg Hmod].
  split; [done..|]. simpl. intros r' [[<- ?]|[? Hr']]%lookup_insert_Some; [done|by apply Hmod].
Qed.
Lemma IsObjectKnown_spares r0 : spares (IsObjectKnown r0).
Proof. unfold IsObjectKnown. sp. Qed.
Lemma AddNewObject_spares r0 l0 : spares (AddNewObject r0 l0).
Proof.
  intros lo s Hs. unfold AddNewObject. apply post_bind. intros p s1 [= <- <-].
  case_bool_decide as Hin; [by apply post_ret|]. apply post_bind. eapply post_mono; [by apply clone_post|].
  intros l1 s1 [H1 Hne]. apply post_bind. eapply post_mono; [apply (sp_check _ lo); exact H1|]. intros ? s2 H2.
  apply post_bind. intros ? s3 [= <- <-]. apply post_ret. destruct H2 as [Hok Hg _].
  split; [done..|]. simpl. intros r' [[<- ?]|[? Hr']]%lookup_insert_Some; [done|by apply (run_modified _ _ Hs)].
Qed.
#[local] Hint Resolve IsObjectKnown_spares AddNewObject_spares : spares.
Lemma CheckIfObjectIsNew_spares f r0 : spares (CheckIfObjectIsNew f r0).
Proof. unfold CheckIfObjectIsNew. sp. Qed.
#[local] Hint Resolve CheckIfObjectIsNew_spares : spares.
Lemma CheckIfValueIsNew_spares f v : spares (CheckIfValueIsNew f v).
Proof. unfold CheckIfValueIsNew. sp. Qed.
#[local] Hint Resolve CheckIfValueIsNew_spares : spares.
Lemma CreateObject_spares lo0 name : spares (CreateObject lo0 name).
Proof.
  unfold CreateObject. apply sp_bind; [|intros l1; sp].
  apply sp_heap. intros h a h' [= _ <-]. exact (keeps_New lo0 h).
Qed.

Lemma reset_pending_spares base : spares (reset_pending base).
Proof. unfold reset_pending. apply sp_bind; [sp|]. intros sp0. apply sp_modify; [done|]; intros s r' Hr'; simpl in Hr'; by rewrite lookup_empty in Hr'. Qed.
#[local] Hint Resolve CreateObject_spares reset_pending_spares : spares.
Lemma commit_loop_spares fuel tid : spares (commit_loop fuel tid).
Proof.
  revert tid. induction fuel as [|fuel IH]; intros tid; simpl; [by intros lo s Hs|].
  apply sp_bind; [sp|]. intros p. case_match; [sp|].
  apply sp_bind; [apply sp_modify; [done|]; intros s r' Hr'; simpl in Hr'; by rewrite lookup_empty in Hr'|]. intros ?. sp.
Qed.
#[local] Hint Resolve commit_loop_spares : spares.
Lemma Commit_spares : spares Commit.
Proof.
  unfold Commit. apply sp_bind; [sp|]. intros tid lo s Hs. apply post_bind. intros p s1 [= <- <-].
  apply post_bind. intros ? s1 [= <- <-]. apply post_ret. by destruct Hs as [Hok Hg Hmod].
Qed.
#[local] Hint Resolve Commit_spares : spares.
Lemma CommitTransaction_spares : spares CommitTransaction.
Proof. unfold CommitTransaction. sp. Qed.
#[local] Hint Resolve CommitTransaction_spares : spares.

(** The previous object is not worked on through [l], unless it is [r]. *)
Definition not_through (caller : option ObjectReference) (caller_live : option LiveObjectPtr) : Prop :=
  caller_live = Some l → caller = Some r.

Lemma UpdateLiveObject_spares r0 l0 : not_through (Some r0) (Some l0) → spares (lift_pending (PendingTransaction.UpdateLiveObject r0 l0)).
Proof.
  intros Hnt lo s Hs. unfold lift_pending. apply post_bind. intros p s1 [= <- <-]. apply post_bind.
  intros p s1. unfold lift_res, PendingTransaction.UpdateLiveObject.
  destruct (modified s !! r0) as [l1|] eqn:E.
  - case_bool_decide; simpl; intros [= <- <-]. intros ? s2 [= <- <-]. by destruct Hs.
  - intros [= <- <-] ? s2 [= <- <-]. destruct Hs as [Hok Hg Hmod]. split; [done..|]. simpl.
    intros r' [[<- ->]|[? Hr']]%lookup_insert_Some; [by injection (Hnt eq_refl)|by apply Hmod].
Qed.

Lemma AddEvents_modified (m : list (ObjectReference * list CommittedEvent.t)) p :
  PendingTransaction.modified_objects_
    (foldl (fun p x => foldl (fun p e => PendingTransaction.AddEvent ts_local_peer x.1 e p) p x.2) p m) =
  PendingTransaction.modified_objects_ p.
Proof.
  revert p. induction m as [|[q es] m IH]; intros p; simpl; [done|]. rewrite IH. clear IH.
  revert p. induction es as [|e es IH]; intros p; simpl; [done|]. by rewrite IH.
Qed.

Lemma AddTransactionEvents_spares m prev next pl : not_through prev pl → spares (AddTransactionEvents m prev next pl).
Proof.
  intros Hnt. unfold AddTransactionEvents. apply sp_bind; [sp|]. intros _. apply sp_bind; [sp|]. intros first.
  apply sp_bind.
  { destruct prev as [r0|]; [|sp]. destruct pl as [l0|]; [|by intros lo s Hs a s' Ha].
    intros lo s Hs. apply post_bind. intros l1 s1 [= <- <-]. by apply UpdateLiveObject_spares. }
  intros _. apply sp_bind.
  { apply sp_modify; [done|]. intros s r'. simpl. rewrite AddEvents_modified. by left. }
  intros _. sp.
Qed.
Lemma Rewinding_spares : spares Rewinding.
Proof. unfold Rewinding. sp. Qed.
#[local] Hint Resolve Rewinding_spares : spares.

Lemma level_spares f : (∀ p p', f p = Ok p' →
    PendingTransaction.modified_objects_ p' = PendingTransaction.modified_objects_ p) → spares (lift_pending f).
Proof.
  intros Hf lo s Hs. unfold lift_pending. apply post_bind. intros p s1 [= <- <-]. apply post_bind.
  intros p s1. unfold lift_res. destruct (f _) as [p'| |] eqn:E; intros [= <- <-]. intros ? s2 [= <- <-].
  destruct Hs as [Hok Hg Hmod]. split; [done..|]. simpl. by rewrite (Hf _ _ E).
Qed.

Lemma BeginTransaction_spares caller cl : not_through caller cl → spares (BeginTransaction caller cl).
Proof.
  intros Hnt. unfold BeginTransaction, AddTransactionEvent. apply sp_bind; [sp|]. intros []; [sp|].
  apply sp_bind; [destruct caller; [by apply AddTransactionEvents_spares|sp]|]. intros _. apply sp_bind; [|sp].
  apply level_spares. intros p p'. unfold PendingTransaction.IncrementTransactionLevel. intros Hp. res_inv.
  destruct (_ =? _)%Z; by simplify_eq.
Qed.
Lemma EndTransaction_spares caller cl : not_through caller cl → spares (EndTransaction caller cl).
Proof.
  intros Hnt. unfold EndTransaction, AddTransactionEvent. apply sp_bind; [sp|]. intros []; [sp|].
  apply sp_bind; [destruct caller; [by apply AddTransactionEvents_spares|sp]|].
  intros _ lo s Hs. apply post_bind. intros p s1 [= <- <-]. apply post_bind. intros [outermost p] s1.
  unfold lift_res, PendingTransaction.DecrementTransactionLevel. destruct (CHECK _); simpl; intros [= <- <- <-].
  apply post_bind. intros ? s1 [= <- <-]. apply (sp_bind (if _ : bool then CommitTransaction else mret tt)); [sp|sp|].
  by destruct Hs.
Qed.

Lemma record_call_spares caller cl callee name ps : not_through caller cl → spares (record_call caller cl callee name ps).
Proof.
  intros Hnt. unfold record_call. do 3 (apply sp_bind; [sp|]; intros ?). apply sp_bind; [sp|]. intros m.
  by apply AddTransactionEvents_spares.
Qed.
Lemma record_return_spares caller callee cl v : not_through (Some callee) (Some cl) → spares (record_return caller callee cl v).
Proof.
  intros Hnt. unfold record_return. apply sp_bind; [sp|]. intros f. by apply AddTransactionEvents_spares.
Qed.

(** ** What the record of [r] gets meanwhile *)
Definition is_call (e : CommittedEvent.t) : Prop :=
  CommittedEvent.type e = CommittedEvent.METHOD_CALL ∨ CommittedEvent.type e = CommittedEvent.SELF_METHOD_CALL.
Definition called (s s' : state) : Prop := ∃ k, recorded s' r = recorded s r ++ k ∧ Exists is_call k.
Definition left_alone (lo : LO) (s s' : state) : Prop :=
  running lo s' ∧ ∃ k, recorded s' r = recorded s r ++ k ∧ Forall creation k.
(** Either [r] was called, or nothing happened to it. *)
Definition fate (lo : LO) (s s' : state) : Prop := left_alone lo s s' ∨ called s s'.

Lemma post_and {A} (m : RT A) s (P Q : A → state → Prop) : post m s P → post m s Q → post m s (fun a s' => P a s' ∧ Q a s').
Proof. intros HP HQ a s' E. split; [by apply HP|by apply HQ]. Qed.

Lemma called_grows s1 s2 s3 : called s1 s2 → grows s2 s3 → called s1 s3.
Proof.
  intros (k & E & Hk) Hg. destruct (Hg r) as [k' E']. exists (k ++ k'). rewrite E', E, app_assoc. split; [done|].
  apply Exists_app. by left.
Qed.
Lemma grows_called s1 s2 s3 : grows s1 s2 → called s2 s3 → called s1 s3.
Proof.
  intros Hg (k & E & Hk). destruct (Hg r) as [k' E']. exists (k' ++ k). rewrite E, E', app_assoc. split; [done|].
  apply Exists_app. by right.
Qed.
Lemma left_alone_grows lo s1 s2 s3 : left_alone lo s1 s2 → left_alone lo s2 s3 → left_alone lo s1 s3.
Proof.
  intros (_ & k1 & E1 & H1) (Hr & k2 & E2 & H2). split; [done|]. exists (k1 ++ k2).
  rewrite E2, E1, app_assoc. split; [done|]. by apply Forall_app.
Qed.
Lemma left_alone_fate lo s1 s2 s3 : left_alone lo s1 s2 → fate lo s2 s3 → fate lo s1 s3.
Proof.
  intros H1 [H2|(k2 & E2 & H2)]; [left; by eapply left_alone_grows|right].
  destruct H1 as (_ & k1 & E1 & _). exists (k1 ++ k2). rewrite E2, E1, app_assoc. split; [done|].
  apply Exists_app. by right.
Qed.
Lemma fate_then lo s1 s2 s3 : fate lo s1 s2 → grows s2 s3 → (running lo s2 → fate lo s2 s3) → fate lo s1 s3.
Proof.
  intros [H1|H1] Hg H2; [|right; by eapply called_grows]. eapply left_alone_fate; [done|]. apply H2, H1.
Qed.
Lemma still_alone lo s s' : still s s' → running lo s' → left_alone lo s s'.
Proof. intros (E1 & E2 & _) Hr. split; [done|]. exists []. unfold recorded. by rewrite E1, E2, app_nil_r. Qed.
Lemma silent_alone {A} (m : RT A) lo s : silent m → spares m → running lo s → post m s (fun _ s' => still s s' ∧ left_alone lo s s').
Proof.
  intros Hm Hs Hr. eapply post_mono; [apply post_and; [apply Hm|by apply Hs]|]. intros a s' [H1 H2].
  split; [done|]. by apply still_alone.
Qed.

Section quiet.
Hypothesis quiet : ∀ base x phase x', ts_execution_phase base x = Ok (phase, x') → phase = TransactionStore.NORMAL.
Hypothesis methods_balanced : ∀ r name ps, balanced 0 (lo_invoke r name ps).

Section body.
Context (call : option ObjectReference → option LiveObjectPtr → ObjectReference → string →
  list Value → Value → RT (S := S) (option Value)).
Hypothesis call_ok : ∀ caller caller_live callee name ps rv s, (0 ≤ level s)%Z →
  post (call caller caller_live callee name ps rv) s (fun v s' => is_Some v ∧ completed (level s) s s').
Hypothesis call_fate : ∀ caller caller_live callee name ps rv lo s, (0 ≤ level s)%Z →
  not_through caller caller_live → caller ≠ Some r → running lo s →
  post (call caller caller_live callee name ps rv) s (fun _ s' => fate lo s s').

(** A method of another object, on another node. *)
Lemma run_other r' l' n' p d k lo s :
  r' ≠ r → l' ≠ l → n' ≠ n → balanced d p → (0 ≤ k)%Z → level s = (k + Z.of_nat d)%Z → running lo s →
  post (run_prog call r' l' n' p) s (fun _ s' => fate lo s s').
Proof.
  intros Hr' Hl' Hn'. assert (Hnt : not_through (Some r') (Some l')) by (by intros [= ->]).
  revert d s. induction p as [v|kk IH|lo1 kk IH|kk IH|kk IH|init name kk IH|callee name ps kk IH|a b kk IH|text kk IH|why];
    intros d s Hb Hk Hlv Hs; simpl in Hb; simpl.
  - apply post_ret. left. by apply still_alone.
  - apply post_bind. eapply post_mono.
    { apply (silent_alone _ lo); [apply silent_heap| |done]. apply sp_heap. intros h a h' E. by res_inv. }
    intros lo1 s1 [(E1 & E2 & E3) H1]. eapply post_mono; [apply (IH lo1 d s1); [done..|by rewrite E3|apply H1]|].
    intros v s2. by apply left_alone_fate.
  - apply post_bind. eapply (post_mono _ _ (fun _ s1 => still s s1 ∧ running lo s1)).
    { apply post_and; [apply silent_heap|]. eapply post_mono; [apply (heap_post _ lo lo s (fun _ => True)); [done|]|by intros ? ? []].
      intros a h' E. split; [|done]. res_inv. by eapply write_other; [apply Hs| |]. }
    intros u s1 [H1 H2]. eapply post_mono; [apply (IH d s1); [done..| |done]; by destruct H1 as (_ & _ & ->)|].
    intros v s2. by apply left_alone_fate, still_alone.
  - apply post_bind. eapply post_mono.
    { apply post_and; [by apply (BeginTransaction_post quiet); lia|by apply (BeginTransaction_spares _ _ Hnt lo)]. }
    intros ? s1 [(-> & Hrec & Hl & _) H1]. eapply post_mono; [apply (IH (Datatypes.S d) s1); [done..|lia|done]|].
    intros v s2. apply left_alone_fate. split; [done|]. exists []. by rewrite Hrec, decide_False.
  - destruct d as [|d]; [done|]. apply post_bind. eapply post_mono.
    { apply post_and; [by apply (EndTransaction_post quiet)|by apply (EndTransaction_spares _ _ Hnt lo)]. }
    intros ? s1 [(-> & Hrec & _ & Hl & _) H1]. eapply post_mono; [apply (IH d s1); [done..|lia|done]|].
    intros v s2. apply left_alone_fate. split; [done|]. exists []. by rewrite Hrec, decide_False.
  - apply post_bind. eapply post_mono.
    { apply (silent_alone _ lo); [apply CreateObject_silent|apply CreateObject_spares|done]. }
    intros r1 s1 [(E1 & E2 & E3) H1]. eapply post_mono; [apply (IH r1 d s1); [done..|by rewrite E3|apply H1]|].
    intros v s2. by apply left_alone_fate.
  - apply post_bind. eapply post_mono.
    { apply post_and; [apply call_ok; lia|apply (call_fate _ _ _ _ _ _ lo); [lia|done|congruence|done]]. }
    intros ? s1 [([v ->] & A1 & A2 & _) Hf]. intros v' s2 Hrun.
    destruct (run_prog_post quiet _ call_ok r' l' n' (kk v) d k s1 (Hb v) Hk ltac:(lia) v' s2 Hrun) as (_ & Hg & _).
    eapply fate_then; [done|done|]. intros H1. by apply (IH v d s1 (Hb v) Hk ltac:(lia) H1 v' s2 Hrun).
  - apply post_bind. intros x s1 [= <- <-]. by apply (IH _ d).
  - by apply (IH d).
  - intros v s' [=].
Qed.

Lemma InvokeMethod_other r' l' name ps lo s :
  r' ≠ r → l' ≠ l → (0 ≤ level s)%Z → running lo s →
  post (InvokeMethod call r' l' name ps) s (fun _ s' => fate lo s s').
Proof.
  intros Hr' Hl' Hlv Hs. unfold InvokeMethod. apply post_bind.
  eapply (post_mono _ _ (fun n' s1 => still s s1 ∧ running lo s1 ∧ n' ≠ n)).
  { apply post_and; [apply silent_heap|]. apply (heap_post _ lo); [done|]. intros n' h' E.
    by apply (begin_other l n lo l' (heap_of s)); [apply Hs| |]. }
  intros n' s1 (Hst & Hs1 & Hn'). apply post_bind. destruct (Hst) as (_ & _ & E).
  eapply post_mono; [apply (run_other r' l' n' _ 0 (level s)); [done..|apply methods_balanced|done|lia|done]|].
  intros v s2 Hf. apply post_bind. intros u s3 Hend. apply post_ret.
  pose proof (silent_heap _ s2 u s3 Hend) as Hst3.
  eapply left_alone_fate; [by apply still_alone|]. eapply fate_then; [exact Hf|by apply still_grows|].
  intros Hs2. left. apply still_alone; [done|].
  eapply (heap_post _ lo lo s2 (fun _ => True)); [done| |exact Hend]. intros a h' Ee. split; [|done]. simpl in Ee. res_inv.
  by eapply end_other; [apply Hs2| | |].
Qed.

Lemma CallMethodHelper_other fuel callee name ps rv lo s :
  callee ≠ r → (0 ≤ level s)%Z → running lo s →
  post (CallMethodHelper call fuel callee name ps rv) s
    (fun v s' => fate lo s s' ∧ ∀ x l', v = Some (x, l') → l' ≠ l).
Proof.
  intros Hne Hlv Hs. unfold CallMethodHelper. apply post_bind. intros p s1 [= <- <-].
  destruct fuel as [|fuel]; [done|]. cbn [call_method_loop]. apply post_bind.
  eapply post_mono; [apply post_and; [apply GetLiveObject_silent|by apply (GetLiveObject_spares _ lo)]|].
  intros l' s1 [Hst [Hs1 Hl']]. specialize (Hl' Hne). apply post_bind. destruct (Hst) as (_ & _ & E).
  eapply post_mono.
  { apply post_and; [apply (InvokeMethod_post quiet _ call_ok methods_balanced); lia
                    |apply (InvokeMethod_other callee l' name ps lo); [done|done|lia|done]]. }
  intros v s2 [_ Hf]. apply post_bind. intros ph s3 Hph.
  destruct (phase_post quiet _ s2 _ _ Hph) as [-> Hst3]. apply post_ret. split; [|by intros ? ? [= _ <-]].
  eapply left_alone_fate; [by apply still_alone|]. eapply fate_then; [exact Hf|by apply still_grows|].
  intros Hs2. left. apply still_alone; [done|]. eapply (sp_store _ (ts_execution_phase_keeps _)); [exact Hs2|exact Hph].
Qed.

(** What a call leaves in the record of [r], if [r] is not called. *)
Definition around (caller : option ObjectReference) (callee : ObjectReference) (name : string) (ps : list Value)
    (v : Value) (s s' : state) : Prop :=
  ∃ news news' pre mid pre', Forall creation pre ∧ Forall creation mid ∧ Forall creation pre' ∧
    recorded s' r = recorded s r ++ pre ++ call_part caller callee news name ps r ++ mid ++
      pre' ++ return_part caller callee news' v r.

Lemma call_part_other caller callee news name ps :
  caller ≠ Some r → callee ≠ r → call_part caller callee news name ps r = [].
Proof. intros. unfold call_part. by repeat case_decide. Qed.
Lemma return_part_other caller callee news v :
  caller ≠ Some r → callee ≠ r → return_part caller callee news v r = [].
Proof. intros. unfold return_part. by repeat case_decide. Qed.

Lemma bracketed_called caller name ps v s s' : bracketed caller r name ps v s s' → called s s'.
Proof.
  intros (news & news' & Hq). destruct (Hq r) as (pre & mid & pre' & _ & _ & E). eexists. split; [exact E|].
  rewrite !Exists_app. right; left. unfold call_part. case_decide.
  - rewrite decide_True by done. constructor. by right.
  - rewrite Exists_app. right. rewrite decide_True by done. constructor. by left.
Qed.

Lemma CallMethod_fate fuel caller cl callee name ps rv lo s :
  (0 ≤ level s)%Z → not_through caller cl → running lo s →
  post (CallMethod call fuel caller cl callee name ps rv) s
    (fun v s' => called s s' ∨
       (running lo s' ∧ callee ≠ r ∧ name ≠ "" ∧ ∃ x, v = Some x ∧ around caller callee name ps x s s')).
Proof.
  intros Hlv Hnt Hs. destruct (decide (callee = r)) as [->|Hne].
  { eapply post_mono; [by apply (CallMethod_post quiet _ call_ok methods_balanced)|].
    intros v s' (x & -> & _ & Hb). left. by eapply bracketed_called. }
  unfold CallMethod. apply post_bind. intros u s0 Hname. unfold check, lift_res in Hname.
  case_bool_decide as Hn; simpl in Hname; [done|]. injection Hname as <- <-. apply post_bind.
  eapply post_mono; [apply post_and; [apply (Rewinding_post quiet)|by apply (Rewinding_spares lo)]|].
  intros ? s1 [[-> Hst1] Hs1]. apply post_bind.
  eapply post_mono; [apply post_and; [apply record_call_post|by apply (record_call_spares _ _ _ _ _ Hnt lo)]|].
  intros ? s2 [(news & pre & Hpre & A1 & A2 & _) Hs2]. apply post_bind. destruct (Hst1) as (_ & _ & E).
  eapply post_mono.
  { apply post_and; [apply (CallMethodHelper_post quiet _ call_ok methods_balanced); lia
                    |apply (CallMethodHelper_other fuel callee name ps rv lo); [done|lia|done]]. }
  intros ? s3 [([[x l'] ->] & B1 & _) [Hf Hl']]. specialize (Hl' _ _ eq_refl). apply post_bind.
  assert (Hret : post (record_return caller callee l' x) s3 (fun _ s4 => running lo s3 → running lo s4)).
  { intros y s4 Hy Hs3. eapply (record_return_spares caller callee l' x); [by intros [= ->]|exact Hs3|exact Hy]. }
  eapply post_mono; [apply post_and; [apply record_return_post|exact Hret]|].
  intros ? s4 [(news' & pre' & Hpre' & C1 & _) Hs4]. apply post_ret.
  assert (Hg12 : grows s s2).
  { transitivity s1; [by apply still_grows|]. eapply recorded_grows. exact A1. }
  assert (Hg34 : grows s3 s4) by (eapply recorded_grows; exact C1).
  destruct Hf as [(Hs3 & mid & Emid & Hmid)|Hc].
  - right. split_and!; [by apply Hs4|done|done|]. exists x. split; [done|].
    exists news, news', (pre r), mid, (pre' r). split_and!; [done..|].
    rewrite C1, Emid, A1, <- !app_assoc. destruct Hst1 as (D1 & D2 & _). unfold recorded. by rewrite D1, D2.
  - left. eapply grows_called; [exact Hg12|]. by eapply called_grows.
Qed.
End body.

Lemma call_method_fate fuel caller cl callee name ps rv lo s :
  (0 ≤ level s)%Z → not_through caller cl → running lo s →
  post (call_method fuel caller cl callee name ps rv) s
    (fun v s' => called s s' ∨
       (running lo s' ∧ callee ≠ r ∧ name ≠ "" ∧ ∃ x, v = Some x ∧ around caller callee name ps x s s')).
Proof.
  revert caller cl callee name ps rv lo s. induction fuel as [|fuel IH]; intros caller cl callee name ps rv lo s Hlv Hnt Hs; [done|].
  cbn [call_method]. apply CallMethod_fate; [| |done..].
  - intros. eapply post_mono; [by apply (call_method_post quiet methods_balanced)|].
    intros ? ? (x & -> & Hc & _). split; [by eexists|done].
  - clear -IH. intros caller cl callee name ps rv lo s Hlv Hnt Hr Hs. eapply post_mono; [by apply (IH _ _ _ _ _ _ lo)|].
    intros v s' [Hc|(Hs' & Hne & _ & x & _ & news & news' & pre & mid & pre' & H1 & H2 & H3 & E)]; [by right|left].
    split; [done|]. eexists. split; [exact E|]. rewrite call_part_other, return_part_other by done.
    simpl. rewrite app_nil_r. by rewrite !Forall_app.
Qed.

(** ** The running method itself *)
Section own.
Context {C : Type} (t : ObjectTable.t C (LiveObject.heap LO)) (self : Uuid).
Abbreviation exec := (Replay.exec self t).

(** The events that the specification of replays covers: marks of transactions,
    and calls of other objects that are shared. *)
Definition plain (e : CommittedEvent.t) : Prop :=
  match e with
  | CommittedEvent.BeginTransaction | CommittedEvent.EndTransaction | CommittedEvent.SubMethodReturn _ => True
  | CommittedEvent.SubMethodCall news callee _ ps =>
      news = ∅ ∧ ¬ Replay.has_reference t self callee ∧
      (∃ id, ObjectTable.shared_object t callee = Some id ∧ id ≠ self ∧ Replay.has_reference t id callee) ∧
      Forall (fun v => Replay.value_agrees t v v) ps
  | _ => False
  end.

Lemma plain_creation k : Forall creation k → Forall plain k → k = [].
Proof. intros Hc Hp. destruct k as [|e k]; [done|]. inversion Hc; inversion Hp; subst. by destruct e. Qed.
Lemma plain_call k : Exists is_call k → Forall plain k → False.
Proof. induction 1 as [e k He|e k _ IH]; inversion 1; subst; [|by apply IH]. destruct He, e; done. Qed.

(** A method that makes no objects and compares none. *)
Fixpoint calls_only (p : prog LO) : Prop :=
  match p with
  | PReturn _ | PFail _ => True
  | PRead k => ∀ lo, calls_only (k lo)
  | PWrite _ k | PBeginTransaction k | PEndTransaction k | PPrint _ k => calls_only k
  | PCallMethod _ _ _ k => ∀ v, calls_only (k v)
  | PCreateObject _ _ _ | PObjectsAreIdentical _ _ _ => False
  end.

Definition reproduced (lo : LO) (p : prog LO) (s : state) (v : option Value) (s' : state) : Prop :=
  ∀ x, v = Some x → ∃ evs, recorded s' r = recorded s r ++ evs ∧
    (Forall plain evs → ∃ lo', running lo' s' ∧ exec lo p evs lo' x).

(** A step that records [k], after which the rest is reproduced. *)
Lemma reproduced_after lo lo1 p p1 k s s1 v s' :
  recorded s1 r = recorded s r ++ k → reproduced lo1 p1 s1 v s' →
  (∀ evs lo' x, Forall plain k → exec lo1 p1 evs lo' x → exec lo p (k ++ evs) lo' x) → reproduced lo p s v s'.
Proof.
  intros E1 Hrep Hex x Hx. destruct (Hrep x Hx) as (evs & E2 & H2). exists (k ++ evs).
  rewrite E2, E1, app_assoc. split; [done|]. intros [Hk Hp]%Forall_app. destruct (H2 Hp) as (lo' & ? & ?).
  exists lo'. split; [done|]. by apply Hex.
Qed.

Lemma still_recorded (s s' : state) : still s s' → recorded s' r = recorded s r ++ [].
Proof. intros (E1 & E2 & _). unfold recorded. by rewrite E1, E2, !app_nil_r. Qed.

Lemma around_plain callee name ps v s s' k :
  callee ≠ r → around (Some r) callee name ps v s s' → recorded s' r = recorded s r ++ k → Forall plain k →
  k = [CommittedEvent.SubMethodCall ∅ callee name ps; CommittedEvent.SubMethodReturn v].
Proof.
  intros Hne (news & news' & pre & mid & pre' & H1 & H2 & H3 & E) Ek Hp. rewrite E in Ek.
  unfold call_part, return_part in Ek.
  rewrite !(decide_False (P := Some r = Some callee)), !(decide_True (P := Some r = Some r)),
    !(decide_False (P := callee = r)) in Ek by congruence. simplify_list_eq.
  rewrite !Forall_app, Forall_cons, !Forall_app in Hp. destruct Hp as (P1 & (-> & _) & P2 & P3 & _).
  by rewrite (plain_creation pre), (plain_creation mid), (plain_creation pre').
Qed.

Context (fuel : nat).
Abbreviation call := (call_method fuel).

Lemma call_ok caller cl callee name ps rv s : (0 ≤ level s)%Z →
  post (call caller cl callee name ps rv) s (fun v s' => is_Some v ∧ completed (level s) s s').
Proof.
  intros. eapply post_mono; [by apply (call_method_post quiet methods_balanced)|].
  intros ? ? (x & -> & Hc & _). split; [by eexists|done].
Qed.

Lemma run_own p lo d k s :
  calls_only p → balanced d p → (0 ≤ k)%Z → level s = (k + Z.of_nat d)%Z → running lo s →
  post (run_prog call r l n p) s (reproduced lo p s).
Proof.
  assert (Hnt : not_through (Some r) (Some l)) by done.
  revert lo d s. induction p as [v|kk IH|lo1 kk IH|kk IH|kk IH|init name kk IH|callee name ps kk IH|a b kk IH|text kk IH|why];
    intros lo d s Hco Hb Hk Hlv Hs; simpl in Hco, Hb; simpl.
  - apply post_ret. intros x [= <-]. exists []. rewrite app_nil_r. split; [done|]. intros _. exists lo.
    split; [done|constructor].
  - apply post_bind. eapply (post_mono _ _ (fun a s1 => still s s1 ∧ running lo s1 ∧ a = lo)).
    { apply post_and; [apply silent_heap|]. apply (heap_post _ lo); [done|]. intros a h' E. simpl in E.
      rewrite (read_own l n lo) in E by apply Hs. simpl in E. injection E as <- <-. split; [apply Hs|done]. }
    intros ? s1 (Hst & Hs1 & ->). eapply post_mono; [apply (IH lo lo d s1); [done..| |done]; by destruct Hst as (_ & _ & ->)|].
    intros v s2 Hrep. eapply reproduced_after; [by apply still_recorded|exact Hrep|]. intros. by constructor.
  - apply post_bind. eapply (post_mono _ _ (fun a s1 => still s s1 ∧ running lo1 s1)).
    { apply post_and; [apply silent_heap|]. eapply post_mono; [apply (heap_post _ lo lo1 s (fun _ => True)); [done|]|by intros ? ? []].
      intros a h' E. simpl in E. destruct (write_own l n lo lo1 _ (run_guarded _ _ Hs)) as (h1 & E1 & Hg1).
      rewrite E1 in E. simpl in E. by injection E as <- <-. }
    intros ? s1 (Hst & Hs1). eapply post_mono; [apply (IH lo1 d s1); [done..| |done]; by destruct Hst as (_ & _ & ->)|].
    intros v s2 Hrep. eapply reproduced_after; [by apply still_recorded|exact Hrep|]. intros. by constructor.
  - apply post_bind. eapply post_mono.
    { apply post_and; [by apply (BeginTransaction_post quiet); lia|by apply (BeginTransaction_spares _ _ Hnt lo)]. }
    intros ? s1 [(-> & Hrec & Hl & _) H1]. eapply post_mono; [apply (IH lo (Datatypes.S d) s1); [done..|lia|done]|].
    intros v s2 Hrep. specialize (Hrec r). rewrite decide_True in Hrec by done.
    eapply reproduced_after; [exact Hrec|exact Hrep|]. intros. by constructor.
  - destruct d as [|d]; [done|]. apply post_bind. eapply post_mono.
    { apply post_and; [by apply (EndTransaction_post quiet)|by apply (EndTransaction_spares _ _ Hnt lo)]. }
    intros ? s1 [(-> & Hrec & _ & Hl & _) H1]. eapply post_mono; [apply (IH lo d s1); [done..|lia|done]|].
    intros v s2 Hrep. specialize (Hrec r). rewrite decide_True in Hrec by done.
    eapply reproduced_after; [exact Hrec|exact Hrep|]. intros. by constructor.
  - done.
  - apply post_bind. eapply post_mono.
    { apply post_and; [apply call_ok; lia|apply (call_method_fate fuel (Some r) (Some l) callee name ps NewValue lo); [lia|done|done]]. }
    intros ? s1 [([v ->] & A1 & A2 & _) Hf] v' s2 Hrun.
    destruct (run_prog_post quiet _ call_ok r l n (kk v) d k s1 (Hb v) Hk ltac:(lia) v' s2 Hrun) as (_ & Hg & _).
    destruct Hf as [(k1 & E1 & Hcalled)|(Hs1 & Hne & Hname & x & [= <-] & Haround)].
    { intros x ->. destruct (Hg r) as [k2 E2]. exists (k1 ++ k2). rewrite E2, E1, app_assoc. split; [done|].
      intros [Hp _]%Forall_app. by destruct (plain_call k1). }
    destruct (A1 r) as [k1 E1]. eapply reproduced_after; [exact E1|by apply (IH v lo d s1 (Hco v) (Hb v) Hk ltac:(lia) Hs1 v' s2)|].
    intros evs lo' y Hp Hex. pose proof (around_plain _ _ _ _ _ _ k1 Hne Haround E1 Hp) as ->. simpl.
    apply Forall_cons in Hp as [(_ & Hself & (id & Hid & Hnid & Href) & Hps) _].
    eapply Replay.exec_call; [done|done|exact Hid|done|done| |done]. by apply Forall_Forall2_diag.
  - done.
  - eapply post_mono; [by apply (IH lo d)|]. intros v s2 Hrep.
    eapply (reproduced_after lo lo _ kk []); [by rewrite app_nil_r|exact Hrep|]. intros. by constructor.
  - intros v s' [=].
Qed.
End own.
End quiet.
End running.

(** ** Recording, then replaying *)
Section replay.
Hypothesis quiet : ∀ base x phase x', ts_execution_phase base x = Ok (phase, x') → phase = TransactionStore.NORMAL.
Hypothesis methods_balanced : ∀ r name ps, balanced 0 (lo_invoke r name ps).

Lemma InvokeMethod_own {C} (t : ObjectTable.t C (LiveObject.heap LO)) self fuel r l name ps own lo s v s' evs :
  ts_ok (store s) → LiveObject.heap_ok_with own (heap_of s) → LiveObject.abs (heap_of s) !! l = Some lo →
  (∀ r', modified s !! r' = Some l → r' = r) → (0 ≤ level s)%Z → calls_only (lo_invoke r name ps) →
  InvokeMethod (call_method fuel) r l name ps s = Val (Some v) s' →
  recorded s' r = recorded s r ++ evs → Forall (plain t self) evs →
  ∃ lo', LiveObject.abs (heap_of s') !! l = Some lo' ∧ Replay.exec self t lo (lo_invoke r name ps) evs lo' v.
Proof.
  intros Hok Hheap Habs Hmod Hlv Hco Hinv Hevs Hplain.
  destruct (begin_own own l lo _ Hheap Habs) as (n & h1 & Hb & Hg).
  unfold InvokeMethod, mbind, RT_bind in Hinv. unfold lift_heap at 1, lift_store at 1 in Hinv. rewrite Hb in Hinv. simpl in Hinv.
  set (s1 := set_store (ts_set_heap h1 (store s)) s) in *.
  assert (Hs1 : running r l n lo s1).
  { split; simpl; [by apply ts_ok_set|by rewrite ts_heap_set|done]. }
  pose proof (run_own r l n quiet methods_balanced t self fuel (lo_invoke r name ps) lo 0 (level s) s1 Hco
    (methods_balanced r name ps) Hlv ltac:(simpl; lia) Hs1) as Hrun.
  destruct (run_prog _ r l n _ s1) as [v2 s2| | |] eqn:E2; try done. specialize (Hrun v2 s2 E2).
  unfold lift_heap, lift_store in Hinv.
  destruct (LiveObject.InvokeMethod_end l n _) as [h2| |] eqn:Ee; try done. simpl in Hinv. injection Hinv as -> <-.
  destruct (Hrun v eq_refl) as (evs' & E3 & H3). simpl in Hevs. unfold recorded in Hevs. simpl in Hevs.
  change (recorded s2 r = recorded s r ++ evs) in Hevs. change (recorded s1 r) with (recorded s r) in E3.
  rewrite E3 in Hevs. apply (inj (app _)) in Hevs as ->. destruct (H3 Hplain) as (lo' & Hs2 & Hex).
  exists lo'. split; [|done]. simpl. rewrite ts_heap_set. by eapply end_own; [apply Hs2|].
Qed.

End replay.
End record.

Import NormalRuns.
Section theorem.
Context {S LO : Type} `{TransactionStoreInternalInterface S LO} `{LocalObjectMethods LO} `{!StoreFrame S LO}.

End theorem.
End RecordReplay.
