(* ===== verification/Peer.v ===== *)
(** A concrete peer: the transaction store with the real parts plugged in
    (transaction id generator, copy-on-write heap, playback thread) around a
    small interpreter whose objects are strings that can be appended to. *)
From stdpp Require Import base tactics list strings gmap relations.
From Stdlib Require Import ZArith Lia.
From S2P Require Import Prelude StdMap IntervalSet Ids VersionMap SequencePoint Values Events.
From S2P Require Import TransactionSequencer LiveObject Serialization ObjectTable ObjectContent.
From S2P Require Import PlaybackThread Replay TransactionStore StoreFrame Convergence RecordingThread RecordReplay.
#[local] Open Scope string_scope.
#[local] Open Scope list_scope.

(** ** The interpreter *)

(** "append" takes a string and returns the new contents; "get" returns the
    contents; "pull" takes another object and appends what it answers to "get";
    any other method returns nothing. *)
Definition append_to_blob (s : string) : prog blob :=
  PRead (fun b => PWrite ((b.1 +:+ s)%string, b.2) (PReturn (set_string_value 0 (b.1 +:+ s)))).

#[export] Instance blob_methods : LocalObjectMethods blob := fun _ name parameters =>
  match bool_decide (name = "append"), bool_decide (name = "pull"), parameters with
  | true, _, [{| data := STRING s |}] => append_to_blob s
  | _, true, [{| data := OBJECT_REFERENCE r |}] =>
      PCallMethod r "get" [] (fun v =>
        match data v with STRING s => append_to_blob s | _ => PReturn (set_empty 0) end)
  | _, _, _ =>
      if bool_decide (name = "get") then PRead (fun b => PReturn (set_string_value 0 b.1))
      else PReturn (set_empty 0)
  end.

(** ** The peer *)
Definition clock_at (n : nat) : timespec := {| tv_sec := 1000 + Z.of_nat n; tv_nsec := 0 |}.
Definition me : CanonicalPeer := {| peer_id := "ip/10.0.0.1/1025" |}.
Definition you : CanonicalPeer := {| peer_id := "ip/10.0.0.2/1025" |}.

Definition threads (id : Uuid) :
    Playback (PlaybackThread.world (LO := blob) (C := ObjectContent.t)) PlaybackThread.thread :=
  PlaybackThread.playback_thread uuid_at name_uuid false id.

Abbreviation peer := (TransactionStore.t (G := TransactionIdGenerator)
  (LiveHeap := LiveObject.heap blob)).

Definition start : res peer :=
  TransactionStore.New clock_at me NewCanonicalPeerMap
    (NewTransactionIdGenerator {| high_word := 7; low_word := 9 |}) LiveObject.empty_heap.

(** ** Messages of another peer *)
Definition object_x : Uuid := {| high_word := 77; low_word := 1 |}.
Definition you_id (n : Z) : TransactionId := MakeTransactionId n 8 8.

Definition string_proto (s : string) : ValueProto.t := ValueProto.set_string_value s (ValueProto.Init 0).
Definition creation_event (s : string) : EventProto.t :=
  EventProto.Build_t
    (Some {| EventProto.oc_data := s; EventProto.oc_referenced_object_id := [] |})
    None None None None None None None None [].
Definition call_event (name s : string) : EventProto.t :=
  EventProto.Build_t None None None
    (Some {| EventProto.mc_method_name := name; EventProto.mc_parameter := [string_proto s] |})
    None None None None None [].
Definition return_event (s : string) : EventProto.t :=
  EventProto.Build_t None None None None (Some (string_proto s)) None None None None [].

(** The other peer sends an object whose content is "ab" ... *)
Definition store_message : PeerMessage.StoreObjectMessage :=
  {| PeerMessage.so_object_id := object_x;
     PeerMessage.so_transaction :=
       [{| PeerMessage.tp_transaction_id := you_id 10;
           PeerMessage.tp_event := [creation_event "ab"];
           PeerMessage.tp_origin_peer_id := peer_id you |}];
     PeerMessage.so_peer_version :=
       [{| PeerMessage.pv_peer_id := peer_id you; PeerMessage.pv_last_transaction_id := you_id 10 |}];
     PeerMessage.so_interested_peer_id := [peer_id you] |}.

(** ... and then a transaction that appends "c" to it. *)
Definition apply_message : PeerMessage.ApplyTransactionMessage :=
  {| PeerMessage.at_transaction_id := you_id 20;
     PeerMessage.at_object_transaction :=
       [{| PeerMessage.ot_object_id := object_x;
           PeerMessage.ot_event := [call_event "append" "c"; return_event "abc"] |}] |}.

Definition handle (m : PeerMessage.t) (s : peer) : res (unit * peer) :=
  TransactionStore.HandleMessageFromRemotePeer uuid_at clock_at me threads you m s.

Definition after {A} (r : res (A * peer)) (s : peer) : peer :=
  match r with Ok (_, s') => s' | _ => s end.

Lemma after_ok (r : res (unit * peer)) s : is_ok r = true → r = Ok (tt, after r s).
Proof. by destruct r as [[[] s']| |]. Qed.

Definition no_peer : peer :=
  {| TransactionStore.canonical_peer_map_ := NewCanonicalPeerMap;
     TransactionStore.tables := ObjectTable.New LiveObject.empty_heap;
     TransactionStore.transaction_sequencer_ :=
       Sequencer.New (NewTransactionIdGenerator {| high_word := 7; low_word := 9 |});
     TransactionStore.ticks := 0;
     TransactionStore.rejected_transaction_id_ := MIN_TRANSACTION_ID;
     TransactionStore.current_sequence_point_ := SequencePointImpl.New;
     TransactionStore.version_number_ := 0 |}.

(** The peer as it starts, with the object, and with the transaction. *)
Definition peer0 : peer := match start with Ok s => s | _ => no_peer end.
Definition peer1 : peer := after (handle (PeerMessage.StoreObject store_message) peer0) peer0.
Definition peer2 : peer := after (handle (PeerMessage.ApplyTransaction apply_message) peer1) peer1.

Lemma start_ok : start = Ok peer0.
Proof. vm_compute. reflexivity. Qed.
Lemma handle_store : handle (PeerMessage.StoreObject store_message) peer0 = Ok (tt, peer1).
Proof. apply after_ok. vm_compute. reflexivity. Qed.
Lemma handle_apply : handle (PeerMessage.ApplyTransaction apply_message) peer1 = Ok (tt, peer2).
Proof. apply after_ok. vm_compute. reflexivity. Qed.

(** The whole path at work: the other peer's creation and call are decoded,
    stored, and replayed through the playback thread, and the local object ends
    up with the other peer's contents. *)
Example replayed_contents :
  match TransactionStore.GetWorkingVersion threads object_x ∅
          {| SequencePointImpl.version_map_ := {[ you := you_id 20 ]};
             SequencePointImpl.peer_exclusion_map_ := ∅;
             SequencePointImpl.rejected_peers_ := ∅ |} ∅ peer2 with
  | Ok (Some l, _, rejected, s) =>
      LiveObject.local_object l (ObjectTable.live (TransactionStore.tables s)) = Ok ("abc", []) ∧
      rejected = []
  | _ => False
  end.
Proof. vm_compute. split; reflexivity. Qed.

Lemma peer_invariant_witness :
  Sequencer.transactions_ (TransactionStore.transaction_sequencer_ peer2) = [] ∧
  SequencePointImpl.wf (TransactionStore.current_sequence_point_ peer2) ∧
  canonical_peer_map_wf (TransactionStore.canonical_peer_map_ peer2) ∧
  VersionMapIsLessThanOrEqual
    (SequencePointImpl.version_map_ (TransactionStore.current_sequence_point_ peer0))
    (SequencePointImpl.version_map_ (TransactionStore.current_sequence_point_ peer2)) = true.
Proof.
  apply (TransactionStore.peer_invariant uuid_at name_uuid clock_at me threads NewCanonicalPeerMap
    (NewTransactionIdGenerator {| high_word := 7; low_word := 9 |}) LiveObject.empty_heap);
    [apply canonical_peer_map_wf_new|exact start_ok|].
  apply (rtc_l _ _ peer1); [|apply rtc_once].
  - exact (TransactionStore.step_message _ _ _ _ _ _ _ _ _ _ handle_store).
  - exact (TransactionStore.step_message _ _ _ _ _ _ _ _ _ _ handle_apply).
Defined.

Lemma apply_message_recorded_witness :
  TransactionStore.same_content peer1 peer2 (uuid_at 3) ∧
  TransactionStore.current_versions peer2 !! you = TransactionStore.current_versions peer1 !! you.
Proof.
  destruct (TransactionStore.apply_message_recorded name_uuid clock_at me threads
    (PlaybackThread.playback_thread_frame uuid_at name_uuid false) you apply_message tt peer1 peer2)
    as (_ & H1 & H2); [exact handle_apply|].
  split; [apply H1|apply H2; discriminate].
  vm_compute. intros Hin. inversion Hin as [|? ? ? Hin']. inversion Hin'.
Defined.

(** ** Rejections *)
Definition reserved : peer := after (TransactionStore.ReserveTransaction clock_at peer0) peer0.
Definition new_id : TransactionId := MakeTransactionId 1001000000000 7 9.
Definition my_id (n : Z) : TransactionId := MakeTransactionId n 7 9.
Definition rejections : reject_list := [(you, you_id 20); (me, my_id 40); (me, my_id 30)].

Lemma reserved_inv : Sequencer.inv (TransactionStore.transaction_sequencer_ reserved).
Proof.
  destruct (Sequencer.reserve_spec (clock_at 1) (TransactionStore.transaction_sequencer_ peer0))
    as (k & st & Hr & Hi & _).
  - apply Sequencer.inv_new.
  - vm_compute. split; [discriminate|reflexivity].
  - unfold reserved, after, TransactionStore.ReserveTransaction. change (TransactionStore.ticks peer0) with 1%nat.
    rewrite Hr. exact Hi.
Qed.

Lemma rejections_below r : (me, r) ∈ rejections → r ⪯ new_id ∧ r ≠ MIN_TRANSACTION_ID.
Proof.
  unfold rejections. rewrite !elem_of_cons, elem_of_nil.
  intros [[=]|[[= ->]|[[= ->]|[]]]]; split; vm_compute; congruence.
Qed.


Lemma reject_ok : ∃ m s',
  TransactionStore.RejectTransactions me rejections new_id reserved = Ok (m, s').
Proof.
  assert (is_ok (TransactionStore.RejectTransactions me rejections new_id reserved) = true) as E
    by (vm_compute; reflexivity).
  destruct (TransactionStore.RejectTransactions me rejections new_id reserved) as [[m s']| |];
    [by exists m, s'|discriminate..].
Qed.


(** ** A replay: two objects, and a run that asks the other one *)
Definition object_y : Uuid := {| high_word := 77; low_word := 2 |}.

Definition two_objects : PlaybackThread.world (LO := blob) (C := ObjectContent.t) :=
  ({| ObjectTable.object_references_ := [Some object_x; Some object_y];
      ObjectTable.shared_objects_ :=
        {[ object_x := {| ObjectTable.interested_peers_ := ∅;
                          ObjectTable.so_object_references_ := [0];
                          ObjectTable.object_content_ := None |};
           object_y := {| ObjectTable.interested_peers_ := ∅;
                          ObjectTable.so_object_references_ := [1];
                          ObjectTable.object_content_ := None |} ]};
      ObjectTable.named_objects_ := ∅; ObjectTable.uuid_count := 0;
      ObjectTable.live := (LiveObject.New ("ab", []) LiveObject.empty_heap).2 |}, ∅).

Definition pull_call : Replay.call :=
  {| Replay.c_name := "pull";
     Replay.c_parameters := [set_object_reference 0 1];
     Replay.c_events := [CommittedEvent.SubMethodCall ∅ 1 "get" [];
                         CommittedEvent.SubMethodReturn (set_string_value 0 "cd")];
     Replay.c_result := set_string_value 0 "abcd" |}.
Definition get_call : Replay.call :=
  {| Replay.c_name := "get"; Replay.c_parameters := []; Replay.c_events := [];
     Replay.c_result := set_string_value 0 "abcd" |}.


(** ** The recording thread *)

(** The program of the test CallMethodInNestedTransactions in
    [engine/recording_thread_test.cc]; the other methods are those of blobs. *)
Definition text (s : string) : Value := set_string_value 0 s.
Definition nested_transactions : prog blob :=
  PCreateObject ("a", []) "" (fun r =>
    PBeginTransaction (PCallMethod r "append" [text "b"] (fun _ =>
    PBeginTransaction (PCallMethod r "append" [text "c"] (fun _ =>
    PEndTransaction (PCallMethod r "append" [text "d"] (fun _ =>
    PEndTransaction (PReturn (set_empty 0))))))))).
Definition program_methods : LocalObjectMethods blob := fun r name parameters =>
  if bool_decide (name = "run") then nested_transactions
  else if bool_decide (name = "begin") then
    PBeginTransaction (PEndTransaction (PReturn (set_empty 0)))
  else blob_methods r name parameters.

Lemma program_methods_balanced r name ps :
  RecordingThread.balanced 0 (program_methods r name ps).
Proof.
  unfold program_methods, blob_methods, append_to_blob.
  repeat first [done | case_match | progress intros | progress simpl].
Qed.

(** The program on the concrete peer; [turns] is what the other threads do
    before each of its calls of the transaction store. *)
Definition program_threads (id : Uuid) :
    Playback (PlaybackThread.world (LO := blob) (C := ObjectContent.t)) PlaybackThread.thread :=
  PlaybackThread.playback_thread (H := program_methods) uuid_at name_uuid false id.

Abbreviation scheduled := (ScheduledStore.t (G := TransactionIdGenerator) (LO := blob)).
#[local] Instance peer_store : TransactionStoreInternalInterface scheduled blob :=
  ScheduledStore.scheduled_store uuid_at name_uuid clock_at me program_threads.

Definition run_program (turns : list (list (TransactionStore.ST unit))) (method_name : string)
    : option (RecordingThread.out Value) :=
  match RecordingThread.New {| ScheduledStore.peer := peer0; ScheduledStore.turns := turns |} with
  | Ok s => Some (RecordingThread.RunProgram (H0 := program_methods) 3 5 ("", []) method_name false s)
  | _ => None
  end.

Definition event_types (m : gmap ObjectReference SharedObjectTransaction.t)
    : list (ObjectReference * list CommittedEvent.Type_) :=
  map_to_list ((fun t => CommittedEvent.type <$> SharedObjectTransaction.events t) <$> m).

(** The transactions of the whole run are those the test expects. *)
Example nested_transactions_as_tested :
  match run_program [] "run" with
  | Some (RecordingThread.Val _ s) =>
      event_types <$> RecordingThread.created s =
      [ [(0, [CommittedEvent.OBJECT_CREATION; CommittedEvent.METHOD_CALL;
              CommittedEvent.BEGIN_TRANSACTION])];
        [(1, [CommittedEvent.OBJECT_CREATION; CommittedEvent.METHOD_CALL;
              CommittedEvent.METHOD_RETURN; CommittedEvent.METHOD_CALL;
              CommittedEvent.METHOD_RETURN; CommittedEvent.METHOD_CALL;
              CommittedEvent.METHOD_RETURN]);
         (0, [CommittedEvent.SUB_METHOD_CALL; CommittedEvent.SUB_METHOD_RETURN;
              CommittedEvent.BEGIN_TRANSACTION; CommittedEvent.SUB_METHOD_CALL;
              CommittedEvent.SUB_METHOD_RETURN; CommittedEvent.END_TRANSACTION;
              CommittedEvent.SUB_METHOD_CALL; CommittedEvent.SUB_METHOD_RETURN;
              CommittedEvent.END_TRANSACTION])];
        [(0, [CommittedEvent.METHOD_RETURN])] ]
  | _ => False
  end.
Proof. vm_compute. reflexivity. Qed.

(** Two peers reject the transaction with which the program began its
    transaction: the first message makes the thread start the method again, the
    second one arrives then.  The method counts as complete, its return value
    is not initialised, and sending it ends the process. *)
Definition reject_message (t : TransactionId) : TransactionStore.ST unit :=
  TransactionStore.HandleMessageFromRemotePeer uuid_at clock_at me program_threads you
    (PeerMessage.RejectTransaction
       {| PeerMessage.rt_rejected_peer :=
            [{| PeerMessage.rp_rejected_peer_id := peer_id me;
                PeerMessage.rp_rejected_transaction_id := t |}];
          PeerMessage.rt_new_transaction_id := you_id 30 |}).
Definition store_reply : TransactionStore.ST unit :=
  TransactionStore.HandleMessageFromRemotePeer uuid_at clock_at me program_threads you
    (PeerMessage.StoreObject
       {| PeerMessage.so_object_id := uuid_at 0; PeerMessage.so_transaction := [];
          PeerMessage.so_peer_version :=
            [{| PeerMessage.pv_peer_id := peer_id you; PeerMessage.pv_last_transaction_id := you_id 30 |}];
          PeerMessage.so_interested_peer_id := [] |}).
Definition first_transaction : TransactionId := MakeTransactionId 1001000000000 7 9.

Definition one_rejection : list (list (TransactionStore.ST unit)) :=
  [[]; []; []; []; []; []; [reject_message first_transaction; store_reply]].

Example one_rejection_restarts :
  match run_program one_rejection "run" with
  | Some (RecordingThread.Val v s) => v = set_empty 0 ∧ length (RecordingThread.created s) = 4
  | _ => False
  end.
Proof. vm_compute. split; reflexivity. Qed.

Example second_rejection_ends_process :
  match run_program (one_rejection ++ [[]; []; [reject_message first_transaction]]) "run" with
  | Some (RecordingThread.Aborted undefined) => undefined = false
  | _ => False
  end.
Proof. vm_compute. reflexivity. Qed.

(** The same on a state made up for it. *)
Definition late_state : RecordingThread.st scheduled :=
  {| RecordingThread.store :=
       {| ScheduledStore.peer := TransactionStore.set_rejected first_transaction
            (TransactionStore.set_tables (ObjectTable.set_live
               (LiveObject.New ("ab", []) LiveObject.empty_heap).2 (TransactionStore.tables peer0)) peer0);
          ScheduledStore.turns := [] |};
     RecordingThread.pending_transaction_ :=
       PendingTransaction.set_modified {[ 0 := 0 ]}
         (PendingTransaction.New MIN_TRANSACTION_ID SequencePointImpl.New);
     RecordingThread.new_objects_ := ∅;
     RecordingThread.created := [] |}.

Lemma late_rejection_skips_method_witness :
  ∃ s', RecordingThread.CallMethodHelper (H0 := program_methods)
      (RecordingThread.call_method (H0 := program_methods) 3) 3 0 "begin" [] NewValue late_state =
      RecordingThread.Val (Some (NewValue, 0)) s' ∧
    RecordingThread.created s' = [].
Proof.
  edestruct (ScheduledStore.late_rejection_skips_method uuid_at name_uuid clock_at me program_threads
    (H1 := program_methods) (RecordingThread.call_method (H0 := program_methods) 3) 2 0 "begin" []
    (PEndTransaction (PReturn (set_empty 0))) NewValue 0 ("ab", []) late_state)
    as (s' & Hs' & _ & Hc & _).
  - reflexivity.
  - vm_compute. discriminate.
  - vm_compute. reflexivity.
  - reflexivity.
  - by apply LiveObject.New_ok, LiveObject.empty_heap_ok.
  - vm_compute. reflexivity.
  - reflexivity.
  - exists s'. split; [exact Hs'|]. rewrite Hc. reflexivity.
Defined.

(** ** Recording a run, then replaying it *)

(** The invariant of heaps, decided. *)
Lemma heap_ok_decided own (h : LiveObject.heap blob) :
  bool_decide (map_Forall (fun n nd =>
      LiveObject.ref_count_ nd = Z.of_nat (LiveObject.owners (LiveObject.live_objects h) own n) ∧
      (0 < LiveObject.owners (LiveObject.live_objects h) own n)%nat ∧
      (n < LiveObject.next_node h)%nat) (LiveObject.nodes h) ∧
    map_Forall (fun l n => is_Some (LiveObject.nodes h !! n) ∧ (l < LiveObject.next_live_object h)%nat)
      (LiveObject.live_objects h) ∧
    set_Forall (fun n => is_Some (LiveObject.nodes h !! n)) own) = true →
  LiveObject.heap_ok_with own h.
Proof.
  intros (Hn & Hl & Ho)%bool_decide_eq_true. split.
  - intros n nd E. by destruct (Hn n nd E) as (? & ? & _).
  - intros l n E. by destruct (Hl l n E).
  - exact Ho.
  - intros n [nd E]. by destruct (Hn n nd E) as (_ & _ & ?).
  - intros l [n E]. by destruct (Hl l n E).
Qed.

(** The peer has two objects, with the contents "ab" and "cd", and has committed
    their creation; it is about to run "pull" on the first. *)
Definition two_shared : RecordingThread.RT (S := scheduled) LiveObjectPtr :=
  a ← RecordingThread.CreateObject ("ab", []) "";
  b ← RecordingThread.CreateObject ("cd", []) "";
  _ ← RecordingThread.call_method (H0 := program_methods) 3 None None a "get" [] NewValue;
  _ ← RecordingThread.call_method (H0 := program_methods) 3 None None b "get" [] NewValue;
  RecordingThread.GetLiveObject a.

(** While it runs, the other peer sends an object and a transaction on it. *)
Definition message (m : PeerMessage.t) : TransactionStore.ST unit :=
  TransactionStore.HandleMessageFromRemotePeer uuid_at clock_at me program_threads you m.
Definition meanwhile : list (list (TransactionStore.ST unit)) :=
  [[]; [message (PeerMessage.StoreObject store_message)]; [message (PeerMessage.ApplyTransaction apply_message)]].
Definition with_turns (turns : list (list (TransactionStore.ST unit))) (s : RecordingThread.st scheduled) :=
  RecordingThread.set_store
    {| ScheduledStore.peer := ScheduledStore.peer (RecordingThread.store s); ScheduledStore.turns := turns |} s.
Definition pull_state : RecordingThread.st scheduled :=
  with_turns meanwhile
    match RecordingThread.New {| ScheduledStore.peer := peer0; ScheduledStore.turns := [] |} with
    | Ok s => match two_shared s with RecordingThread.Val _ s => s | _ => late_state end
    | _ => late_state
    end.
#[local] Instance scheduled_frame : StoreFrame scheduled blob :=
  scheduled_store_frame uuid_at name_uuid clock_at me program_threads (fun id => _).
Definition pull_live : LiveObjectPtr := 4.
Definition pull_run : RecordingThread.out (option Value) :=
  RecordingThread.InvokeMethod (H := NormalRuns.only_normal) (H0 := program_methods)
    (RecordingThread.call_method (H := NormalRuns.only_normal) (H0 := program_methods) 3)
    0 pull_live "pull" [set_object_reference 0 1] pull_state.
Definition pulled_state : RecordingThread.st scheduled :=
  match pull_run with RecordingThread.Val _ s => s | _ => late_state end.
Definition pull_events : list CommittedEvent.t :=
  [CommittedEvent.SubMethodCall ∅ 1 "get" []; CommittedEvent.SubMethodReturn (text "cd")].

Lemma message_keeps_guards m : TransactionStore.preserves StoreGuard.store_guards (message m).
Proof. apply StoreGuard.sg_message. intros id. exact _. Qed.
Lemma pull_others_keep : others_keep (RecordingThread.store pull_state).
Proof.
  change (Forall (Forall (TransactionStore.preserves StoreGuard.store_guards)) meanwhile). unfold meanwhile.
  rewrite !Forall_cons, !Forall_nil. split_and!; try done; apply message_keeps_guards.
Qed.
Lemma pull_only_first r : 
  PendingTransaction.modified_objects_ (RecordingThread.pending_transaction_ pull_state) !! r = Some pull_live → r = 0.
Proof.
  assert (PendingTransaction.modified_objects_ (RecordingThread.pending_transaction_ pull_state) = {[ 0 := pull_live ]})
    as -> by (vm_compute; reflexivity).
  by intros [<- _]%lookup_singleton_Some.
Qed.
Lemma pull_events_plain : Forall (RecordReplay.plain two_objects.1 object_x) pull_events.
Proof.
  repeat constructor.
  - intros (so & Hso & Hr). vm_compute in Hso. simplify_eq. set_solver.
  - exists object_y. split_and!; [done|done|]. eexists. split; [done|set_solver].
Qed.


(** ** Two peers

    Both know an object.  One of them makes the object's first transaction and then
    hears of a call that a third peer made; the other one hears of the call first. *)
Definition third : CanonicalPeer := {| peer_id := "ip/10.0.0.3/1025" |}.
Definition new_live : LiveObjectPtr * LiveObject.heap blob := LiveObject.New ("ab", []) LiveObject.empty_heap.
Definition knows_x (p : CanonicalPeer) (low : Z) (h : LiveObject.heap blob) : peer :=
  match TransactionStore.New clock_at p NewCanonicalPeerMap
          (NewTransactionIdGenerator {| high_word := 7; low_word := low |}) h with
  | Ok s => after (TransactionStore.lift_table (ObjectTable.ReferenceForId object_x) s) s
  | _ => no_peer
  end.
Definition my_peer0 : peer := knows_x me 9 new_live.2.
Definition your_peer0 : peer := knows_x you 8 LiveObject.empty_heap.

Definition creation : gmap ObjectReference SharedObjectTransaction.t :=
  {[ 0%nat := {| SharedObjectTransaction.events := [CommittedEvent.ObjectCreation new_live.1];
                 SharedObjectTransaction.origin_peer := me |} ]}.
Definition my_commit : res (PeerMessage.ApplyTransactionMessage * peer) :=
  Convergence.commit uuid_at clock_at me threads creation ∅ SequencePointImpl.New my_peer0.
Definition my_message : PeerMessage.ApplyTransactionMessage :=
  match my_commit with Ok (m, _) => m | _ => apply_message end.
Definition hears (local p : CanonicalPeer) (m : PeerMessage.ApplyTransactionMessage) (s : peer) : res (unit * peer) :=
  TransactionStore.HandleApplyTransactionMessage clock_at local threads p m s.
Definition my_peer1 : peer := after my_commit my_peer0.
Definition my_peer2 : peer := after (hears me third apply_message my_peer1) my_peer1.
Definition your_peer1 : peer := after (hears you third apply_message your_peer0) your_peer0.
Definition your_peer2 : peer := after (hears you me my_message your_peer1) your_peer1.

(** The messages, and what both peers know in the end. *)
Example both_histories :
  (SharedObjectTransaction.origin_peer <$> Convergence.history my_peer2 object_x new_id,
   SharedObjectTransaction.origin_peer <$> Convergence.history your_peer2 object_x (you_id 20),
   PeerMessage.at_transaction_id my_message) = (Some me, Some third, new_id).
Proof. vm_compute. reflexivity. Qed.


(** ** A store that never rejects, as in the engine's tests *)
Record mock := {
  mock_heap : LiveObject.heap blob;
  mock_references : nat;
  mock_time : Z;
  mock_objects : gmap ObjectReference LiveObjectPtr;
}.

Definition new_reference (x : mock) : res (ObjectReference * mock) :=
  Ok (mock_references x,
      {| mock_heap := mock_heap x; mock_references := S (mock_references x);
         mock_time := mock_time x; mock_objects := mock_objects x |}).

#[local] Instance mock_store : TransactionStoreInternalInterface mock blob := {
  ts_local_peer := me;
  ts_current_sequence_point x := Ok (SequencePointImpl.New, x);
  ts_live_object r _ wait x :=
    Ok (match mock_objects x !! r with
        | Some l => Some (Some l)
        | None => if wait then None else Some None
        end, x);
  ts_create_unbound := new_reference;
  ts_create_bound _ := new_reference;
  ts_create_transaction _ modified_objects _ x :=
    Ok (MakeTransactionId (mock_time x) 1 1,
        {| mock_heap := mock_heap x; mock_references := mock_references x;
           mock_time := mock_time x + 1; mock_objects := modified_objects ∪ mock_objects x |});
  ts_identical a b _ := bool_decide (a = b);
  ts_execution_phase _ x := Ok (TransactionStore.NORMAL, x);
  ts_wait_for_rewind x := Ok (None, x);
  ts_heap := mock_heap;
  ts_set_heap h x :=
    {| mock_heap := h; mock_references := mock_references x; mock_time := mock_time x;
       mock_objects := mock_objects x |};
}.

Lemma mock_quiet base (x : mock) phase x' :
  ts_execution_phase base x = Ok (phase, x') → phase = TransactionStore.NORMAL.
Proof. by intros [= <- _]. Qed.

(** The thread with its program object, and in the middle of a transaction. *)
Definition program_state : RecordingThread.st mock :=
  {| RecordingThread.store :=
       {| mock_heap := (LiveObject.New ("", []) LiveObject.empty_heap).2; mock_references := 1;
          mock_time := 5; mock_objects := ∅ |};
     RecordingThread.pending_transaction_ := PendingTransaction.New MIN_TRANSACTION_ID SequencePointImpl.New;
     RecordingThread.new_objects_ :=
       {[ 0 := {| RecordingThread.live_object := 0; RecordingThread.object_is_named := false |} ]};
     RecordingThread.created := [] |}.

Definition out_state {A} (o : RecordingThread.out A) (s : RecordingThread.st mock) :=
  match o with RecordingThread.Val _ s' => s' | _ => s end.
Definition out_value (o : RecordingThread.out (S := mock) (option Value)) : option Value :=
  match o with RecordingThread.Val v _ => v | _ => None end.

Definition program_run := RecordingThread.call_method (H0 := program_methods) 3 None None 0 "run" []
  NewValue program_state.

Lemma calls_are_bracketed_witness :
  RecordingThread.bracketed None 0 "run" [] (set_empty 0) program_state
    (out_state program_run program_state).
Proof.
  edestruct (RecordingThread.calls_are_bracketed (H0 := program_methods) mock_quiet
    program_methods_balanced 3 None None 0 "run" [] NewValue program_state (out_value program_run)
    (out_state program_run program_state)) as (x & Hx & Hb).
  - vm_compute. discriminate.
  - vm_compute. reflexivity.
  - vm_compute in Hx. injection Hx as <-. exact Hb.
Defined.

Definition inside_state : RecordingThread.st mock :=
  {| RecordingThread.store := RecordingThread.store program_state;
     RecordingThread.pending_transaction_ :=
       PendingTransaction.set_level 1 (PendingTransaction.set_modified {[ 0 := 0 ]}
         (PendingTransaction.New MIN_TRANSACTION_ID SequencePointImpl.New));
     RecordingThread.new_objects_ := ∅;
     RecordingThread.created := [] |}.
Definition inside_body : prog blob :=
  PCreateObject ("a", []) "" (fun r =>
    PCallMethod r "append" [text "b"] (fun _ => PReturn (set_empty 0))).
Definition body_run :=
  RecordingThread.run_prog (RecordingThread.call_method (H0 := program_methods) 3) 0 0 0 inside_body
    inside_state.
Definition end_run :=
  RecordingThread.EndTransaction (Some 0) (Some 0) (out_state body_run inside_state).

Lemma transactions_are_atomic_witness :
  RecordingThread.created (out_state body_run inside_state) = [] ∧
  ∃ T, RecordingThread.created (out_state end_run inside_state) = [T] ∧
    CommittedEvent.type <$> RecordingThread.events_in 0 T =
      [CommittedEvent.SUB_METHOD_CALL; CommittedEvent.SUB_METHOD_RETURN;
       CommittedEvent.END_TRANSACTION].
Proof.
  edestruct (RecordingThread.transactions_are_atomic (H0 := program_methods) mock_quiet
    program_methods_balanced 3 0 0 0 inside_body inside_state (out_value body_run)
    (out_state body_run inside_state) true (out_state end_run inside_state))
    as (H1 & _ & _ & _ & T & H2 & _ & H3).
  - intros r v. reflexivity.
  - reflexivity.
  - vm_compute. reflexivity.
  - vm_compute. reflexivity.
  - split; [rewrite H1; reflexivity|]. exists T. split; [rewrite H2; reflexivity|].
    rewrite H3. vm_compute. reflexivity.
Defined.

(** ** Rejected transactions and replays *)

(** A sequence point that rejects the second transaction of the other peer. *)
Definition rejecting_point : SequencePointImpl.t :=
  {| SequencePointImpl.version_map_ := {[ you := you_id 20 ]};
     SequencePointImpl.peer_exclusion_map_ := ∅;
     SequencePointImpl.rejected_peers_ := {[ you := [(you_id 20, tt)] ]} |}.

(** Rejecting a transaction does not take it out of later
    versions.  The peer has handled a STORE_OBJECT message (an object with the
    contents "ab") and an APPLY_TRANSACTION message (which appends "c"); the
    second transaction is then rejected.  The sequence point says that the
    transaction is not part of the version, and the version that is computed
    for the sequence point has its effect all the same: replaying looks at the
    version map only. *)
Example rejected_transaction_still_replayed :
  SequencePointImpl.HasPeerTransactionId you (you_id 20) rejecting_point = Ok false ∧
  match TransactionStore.GetWorkingVersion threads object_x ∅ rejecting_point ∅ peer2 with
  | Ok (Some l, _, _, s) =>
      LiveObject.local_object l (ObjectTable.live (TransactionStore.tables s)) = Ok ("abc", [])
  | _ => False
  end.
Proof. vm_compute. split; reflexivity. Qed.
