(* ===== verification/ToyLexer.v ===== *)
(** * The toy language: tokens and the lexer

    [toy_lang/token.cc], [toy_lang/lexer.cc].  The lexer is a state machine over
    the characters of a file that fetches as many characters as it needs to have a
    token at hand.  The file is the string of the characters not yet read; that
    [fgetc] fails with an error, which ends the process, is not modelled. *)
From S2P Require Import Prelude Text.
From stdpp Require Import base tactics list strings.
From Stdlib Require Import ZArith Lia Ascii.
#[local] Open Scope string_scope.
#[local] Open Scope Z_scope.
#[local] Arguments String.append !_ _ / : simpl nomatch.

(** ** Tokens *)
Module Token.

Inductive Type_ :=
| UNINITIALIZED | FOR_KEYWORD | SET_KEYWORD | WHILE_KEYWORD
| INT_LITERAL | STRING_LITERAL | IDENTIFIER
| BEGIN_EXPRESSION | END_EXPRESSION | BEGIN_BLOCK | END_BLOCK | BEGIN_LIST | END_LIST.

#[global] Instance Type_eq_dec : EqDecision Type_.
Proof. solve_decision. Defined.

(** The type and the member of the union it selects. *)
Record t := mk {
  type_ : Type_;
  int_attribute_ : Z;
  string_attribute_ : string;
}.

#[global] Instance t_eq_dec : EqDecision t.
Proof. solve_decision. Defined.

Definition IsIntAttributeType (ty : Type_) : bool := bool_decide (ty = INT_LITERAL).
Definition IsStringAttributeType (ty : Type_) : bool :=
  bool_decide (ty = STRING_LITERAL) || bool_decide (ty = IDENTIFIER).

Definition int_literal (k : t) : res Z :=
  _ ← CHECK (bool_decide (type_ k = INT_LITERAL)); Ok (int_attribute_ k).
Definition string_literal (k : t) : res string :=
  _ ← CHECK (bool_decide (type_ k = STRING_LITERAL)); Ok (string_attribute_ k).
Definition identifier (k : t) : res string :=
  _ ← CHECK (bool_decide (type_ k = IDENTIFIER)); Ok (string_attribute_ k).

(** A token without attribute; a member of the union that is not selected is
    never read, and has a fixed value here. *)
Definition CreateOther (ty : Type_) : t := mk ty 0 "".
Definition CreateForKeyword : t := CreateOther FOR_KEYWORD.
Definition CreateSetKeyword : t := CreateOther SET_KEYWORD.
Definition CreateWhileKeyword : t := CreateOther WHILE_KEYWORD.
Definition CreateIntLiteral (n : Z) : t := mk INT_LITERAL n "".
Definition CreateStringLiteral (s : string) : t := mk STRING_LITERAL 0 s.
Definition CreateIdentifier (s : string) : t := mk IDENTIFIER 0 s.
Definition CreateBeginExpression : t := CreateOther BEGIN_EXPRESSION.
Definition CreateEndExpression : t := CreateOther END_EXPRESSION.
Definition CreateBeginBlock : t := CreateOther BEGIN_BLOCK.
Definition CreateEndBlock : t := CreateOther END_BLOCK.
Definition CreateBeginList : t := CreateOther BEGIN_LIST.
Definition CreateEndList : t := CreateOther END_LIST.

(** [operator==]. *)
Definition eqb (lhs rhs : t) : bool :=
  bool_decide (type_ lhs = type_ rhs) &&
  (if IsIntAttributeType (type_ lhs) then int_attribute_ lhs =? int_attribute_ rhs else true) &&
  (if IsStringAttributeType (type_ lhs)
   then bool_decide (string_attribute_ lhs = string_attribute_ rhs) else true).

End Token.

(** [strtoll(s, &endptr, 10)] on a string that starts with no white space: the
    value, whether [errno] is [ERANGE], and what [endptr] points to. *)
Fixpoint strtoll_digits (acc : Z) (s : string) : Z * string :=
  match s with
  | "" => (acc, "")
  | String c s' => if isdigit c then strtoll_digits (acc * 10 + (byte_of c - 48)) s' else (acc, s)
  end.

Definition LLONG_MIN : Z := - 2 ^ 63.
Definition LLONG_MAX : Z := 2 ^ 63 - 1.

Definition strtoll (s : string) : Z * bool * string :=
  let '(negative, digits) :=
    match s with
    | String c s' =>
        if bool_decide (c = "-"%char) then (true, s')
        else if bool_decide (c = "+"%char) then (false, s') else (false, s)
    | "" => (false, "")
    end in
  let starts_with_digit := match digits with String c _ => isdigit c | "" => false end in
  if negb starts_with_digit then (0, false, s)
  else
    let '(magnitude, rest) := strtoll_digits 0 digits in
    let n := if (negative : bool) then - magnitude else magnitude in
    if n <? LLONG_MIN then (LLONG_MIN, true, rest)
    else if LLONG_MAX <? n then (LLONG_MAX, true, rest)
    else (n, false, rest).

(** ** The lexer *)
Module Lexer.

Inductive State :=
| START | COMMENT | INT_LITERAL | STRING_LITERAL | IDENTIFIER | END_OF_EXPRESSION | END_OF_FILE.

#[global] Instance State_eq_dec : EqDecision State.
Proof. solve_decision. Defined.

Record t := mk {
  fp_ : string;
  tokens_ : list Token.t;
  state_ : State;
  attribute_ : string;
  line_number_ : Z;
}.

Definition set_fp x l := mk x (tokens_ l) (state_ l) (attribute_ l) (line_number_ l).
Definition set_tokens x l := mk (fp_ l) x (state_ l) (attribute_ l) (line_number_ l).
Definition set_attribute x l := mk (fp_ l) (tokens_ l) (state_ l) x (line_number_ l).
Definition set_line_number x l := mk (fp_ l) (tokens_ l) (state_ l) (attribute_ l) x.

Definition New (fp : string) : t := mk fp [] START "" 1.

Definition kForKeyword : string := "for".
Definition kSetKeyword : string := "set".
Definition kWhileKeyword : string := "while".

Definition IsIdentifierChar (c : ascii) : bool :=
  isalpha c || bool_decide (c = "."%char) || bool_decide (c = "_"%char).

Definition ChangeState (new_state : State) (l : t) : t :=
  if bool_decide (state_ l = new_state) then l
  else mk (fp_ l) (tokens_ l) new_state "" (line_number_ l).

Definition Yield (k : Token.t) (new_state : State) (l : t) : t :=
  ChangeState new_state (set_tokens (tokens_ l ++ [k]) l).

Definition YieldIntLiteral (new_state : State) (l : t) : res t :=
  _ ← CHECK (negb (bool_decide (attribute_ l = "")));
  let '(n, erange, endptr) := strtoll (attribute_ l) in
  if (n =? LLONG_MIN) && erange then Fatal
  else if (n =? LLONG_MAX) && erange then Fatal
  else if negb (bool_decide (endptr = "")) then Fatal
  else Ok (Yield (Token.CreateIntLiteral n) new_state l).

Definition YieldStringLiteral (new_state : State) (l : t) : t :=
  Yield (Token.CreateStringLiteral (attribute_ l)) new_state l.

Definition YieldIdentifier (new_state : State) (l : t) : t :=
  let a := attribute_ l in
  Yield (if bool_decide (a = kForKeyword) then Token.CreateForKeyword
         else if bool_decide (a = kSetKeyword) then Token.CreateSetKeyword
         else if bool_decide (a = kWhileKeyword) then Token.CreateWhileKeyword
         else Token.CreateIdentifier a) new_state l.

Definition YieldBeginExpression := Yield Token.CreateBeginExpression.
Definition YieldEndExpression := Yield Token.CreateEndExpression.
Definition YieldBeginBlock := Yield Token.CreateBeginBlock.
Definition YieldEndBlock := Yield Token.CreateEndBlock.
Definition YieldBeginList := Yield Token.CreateBeginList.
Definition YieldEndList := Yield Token.CreateEndList.

Definition append_attribute (c : ascii) (l : t) : t := set_attribute (attribute_ l ++ str1 c) l.

Definition newline : ascii := char_of 10.
Definition quote : ascii := char_of 34.

(** A character that ends what is before it and is a token itself. *)
Definition YieldEnd (c : ascii) : option (State → t → t) :=
  if bool_decide (c = ")"%char) then Some YieldEndExpression
  else if bool_decide (c = "]"%char) then Some YieldEndList
  else if bool_decide (c = "}"%char) then Some YieldEndBlock
  else None.

(** The cases INT_LITERAL and IDENTIFIER of the switch have the same shape; they
    differ in what they yield and in the characters that continue the token. *)
Definition lex_word (yield : State → t → res t) (continues : ascii → bool) (c : option ascii)
    (l : t) : res t :=
  match c with
  | None => yield END_OF_FILE l
  | Some c =>
      if bool_decide (c = "#"%char) then yield COMMENT l
      else match YieldEnd c with
           | Some end_ => l' ← yield END_OF_EXPRESSION l; Ok (end_ END_OF_EXPRESSION l')
           | None =>
               if isspace c then yield START l
               else if continues c then Ok (append_attribute c l)
               else Fatal
           end
  end.

(** The switch of [FetchTokens]; [None] is EOF. *)
Definition lex_switch (c : option ascii) (l : t) : res t :=
  match state_ l, c with
  | START, None => Ok (ChangeState END_OF_FILE l)
  | START, Some c =>
      if bool_decide (c = quote) then Ok (ChangeState STRING_LITERAL l)
      else if bool_decide (c = "#"%char) then Ok (ChangeState COMMENT l)
      else if bool_decide (c = "("%char) then Ok (YieldBeginExpression START l)
      else if bool_decide (c = ")"%char) then Ok (YieldEndExpression END_OF_EXPRESSION l)
      else if bool_decide (c = "["%char) then Ok (YieldBeginList START l)
      else if bool_decide (c = "]"%char) then Ok (YieldEndList END_OF_EXPRESSION l)
      else if bool_decide (c = "{"%char) then Ok (YieldBeginBlock START l)
      else if bool_decide (c = "}"%char) then Ok (YieldEndBlock END_OF_EXPRESSION l)
      else if isspace c then Ok l
      else if bool_decide (c = "+"%char) || bool_decide (c = "-"%char) || isdigit c then
        Ok (append_attribute c (ChangeState INT_LITERAL l))
      else if IsIdentifierChar c then
        Ok (append_attribute c (ChangeState IDENTIFIER l))
      else Fatal
  | COMMENT, None => Ok (ChangeState END_OF_FILE l)
  | COMMENT, Some c => if bool_decide (c = newline) then Ok (ChangeState START l) else Ok l
  | INT_LITERAL, c => lex_word YieldIntLiteral isdigit c l
  | STRING_LITERAL, None => Fatal
  | STRING_LITERAL, Some c =>
      if bool_decide (c = quote) then Ok (YieldStringLiteral END_OF_EXPRESSION l)
      else Ok (append_attribute c l)
  | IDENTIFIER, c => lex_word (fun s l => Ok (YieldIdentifier s l)) IsIdentifierChar c l
  | END_OF_EXPRESSION, None => Ok (ChangeState END_OF_FILE l)
  | END_OF_EXPRESSION, Some c =>
      if bool_decide (c = "#"%char) then Ok (ChangeState COMMENT l)
      else match YieldEnd c with
           | Some end_ => Ok (end_ END_OF_EXPRESSION l)
           | None => if isspace c then Ok (ChangeState START l) else Fatal
           end
  | END_OF_FILE, _ => Fatal
  end.

(** One iteration of [FetchTokens] with the character that was read. *)
Definition lex_char (c : option ascii) (l : t) : res t :=
  lex_switch c (if bool_decide (c = Some newline) then set_line_number (line_number_ l + 1) l else l).

(** The loop of [FetchTokens]; [fp] is what is left of the file.  At the end of
    the file the state becomes END_OF_FILE ([lex_char_eof]), which ends the loop. *)
Fixpoint fetch_loop (fp : string) (l : t) : res t :=
  if bool_decide (state_ l = END_OF_FILE) || negb (bool_decide (tokens_ l = []))
  then Ok (set_fp fp l)
  else match fp with
       | "" => l' ← lex_char None l; Ok (set_fp "" l')
       | String c fp' => l' ← lex_char (Some c) l; fetch_loop fp' l'
       end.

Definition FetchTokens (l : t) : res t := fetch_loop (fp_ l) l.

Definition HasNextToken (l : t) : res (bool * t) :=
  l ← FetchTokens l; Ok (negb (bool_decide (tokens_ l = [])), l).

Definition GetNextToken (l : t) : res (Token.t * t) :=
  l ← FetchTokens l;
  match tokens_ l with
  | [] => Fatal
  | k :: ks => Ok (k, set_tokens ks l)
  end.

Definition PeekNextTokenType (l : t) : res (Token.Type_ * t) :=
  l ← FetchTokens l;
  match tokens_ l with
  | [] => Fatal
  | k :: _ => Ok (Token.type_ k, l)
  end.

Definition GetNextTokenType (l : t) : res (Token.Type_ * t) :=
  l ← FetchTokens l;
  match tokens_ l with
  | [] => Fatal
  | k :: ks => Ok (Token.type_ k, set_tokens ks l)
  end.

(** The checks of the destructor. *)
Definition Destroy (l : t) : res unit :=
  l ← FetchTokens l;
  _ ← CHECK (bool_decide (tokens_ l = []));
  CHECK (bool_decide (state_ l = END_OF_FILE)).

End Lexer.

(** ** What the lexer reads, as a list of tokens *)
Section tokens.
Import Lexer.

(** All characters of a string, one after the other, without stopping at tokens. *)
Fixpoint scan (s : string) (l : t) : res t :=
  match s with
  | "" => Ok l
  | String c s' => l' ← lex_char (Some c) l; scan s' l'
  end.

(** What the lexer will still yield. *)
Definition remaining_from (fp : string) (l : t) : res (list Token.t) :=
  if bool_decide (state_ l = END_OF_FILE) then Ok (tokens_ l)
  else
    l' ← scan fp l;
    l' ← lex_char None l';
    Ok (tokens_ l').

Definition remaining (l : t) : res (list Token.t) := remaining_from (fp_ l) l.

(** The tokens of a file. *)
Definition tokens_of (file : string) : res (list Token.t) := remaining (New file).

Implicit Types fp : string.

(** The same state of the machine with tokens [ks] before the others, at [fp]. *)
Definition push (fp : string) (ks : list Token.t) (l : t) : t :=
  mk fp (ks ++ tokens_ l) (state_ l) (attribute_ l) (line_number_ l).
Definition map_res {A B} (f : A → B) (r : res A) : res B := a ← r; Ok (f a).

Lemma Yield_push fp ks k s l : Yield k s (push fp ks l) = push fp ks (Yield k s l).
Proof.
  unfold Yield, ChangeState, push. simpl. case_bool_decide; simpl; by rewrite app_assoc.
Qed.

Lemma ChangeState_push fp ks s l : ChangeState s (push fp ks l) = push fp ks (ChangeState s l).
Proof. unfold ChangeState, push. simpl. by case_bool_decide. Qed.

Lemma YieldEnd_push c fp ks e s l : YieldEnd c = Some e → e s (push fp ks l) = push fp ks (e s l).
Proof. unfold YieldEnd. intros. repeat case_bool_decide; simplify_eq; apply Yield_push. Qed.

Lemma YieldInt_push fp ks s l :
  YieldIntLiteral s (push fp ks l) = map_res (push fp ks) (YieldIntLiteral s l).
Proof.
  unfold YieldIntLiteral. simpl. case_bool_decide; simpl; [done|].
  destruct (strtoll (attribute_ l)) as [[n er] e].
  repeat case_match; try done. unfold map_res. simpl. f_equal. apply Yield_push.
Qed.

Lemma lex_word_push yield cont c fp ks l :
  (∀ s l, yield s (push fp ks l) = map_res (push fp ks) (yield s l)) →
  lex_word yield cont c (push fp ks l) = map_res (push fp ks) (lex_word yield cont c l).
Proof.
  intros Hy. destruct c as [c|]; simpl; [|apply Hy].
  case_bool_decide; [apply Hy|]. destruct (YieldEnd c) as [e|] eqn:E.
  - rewrite Hy. destruct (yield END_OF_EXPRESSION l); simpl; try done.
    unfold map_res; simpl. f_equal. by eapply YieldEnd_push.
  - case_match; [apply Hy|]. by case_match.
Qed.

(** The tokens that are waiting do not change what is read. *)
Lemma lex_char_push c fp ks l : lex_char c (push fp ks l) = map_res (push fp ks) (lex_char c l).
Proof.
  unfold lex_char.
  replace (if bool_decide (c = Some newline) then set_line_number (line_number_ (push fp ks l) + 1) (push fp ks l)
           else push fp ks l)
    with (push fp ks (if bool_decide (c = Some newline) then set_line_number (line_number_ l + 1) l else l))
    by by case_bool_decide.
  generalize (if bool_decide (c = Some newline) then set_line_number (line_number_ l + 1) l else l).
  clear l. intros l. unfold lex_switch. simpl state_.
  destruct (state_ l) eqn:El;
    [destruct c as [c|]|destruct c as [c|]| |destruct c as [c|]| |destruct c as [c|]|]; try done;
    try (apply lex_word_push; intros; first [apply YieldInt_push|unfold YieldIdentifier, map_res; simpl; f_equal; apply Yield_push]);
    repeat case_bool_decide; repeat case_match; unfold map_res; simpl; try done;
    try (f_equal; first [apply Yield_push|apply ChangeState_push|by eapply YieldEnd_push|
      unfold append_attribute; rewrite ChangeState_push; done]).
Qed.

Lemma scan_push s fp ks l : scan s (push fp ks l) = map_res (push fp ks) (scan s l).
Proof.
  revert l. induction s as [|c s IH]; intros l; simpl; [done|].
  rewrite lex_char_push. destruct (lex_char (Some c) l); simpl; auto.
Qed.

Lemma scan_app s1 s2 l : scan (s1 ++ s2) l = (l' ← scan s1 l; scan s2 l').
Proof.
  revert l. induction s1 as [|c s1 IH]; intros l; simpl; [done|].
  destruct (lex_char (Some c) l); simpl; auto.
Qed.

Lemma state_ChangeState s l : state_ (ChangeState s l) = s.
Proof. unfold ChangeState. by case_bool_decide. Qed.
Lemma state_Yield k s l : state_ (Yield k s l) = s.
Proof. apply state_ChangeState. Qed.
Lemma state_YieldInt s l l' : YieldIntLiteral s l = Ok l' → state_ l' = s.
Proof.
  unfold YieldIntLiteral. intros H. res_inv. destruct (strtoll (attribute_ l)) as [[n er] e].
  repeat case_match; res_inv. apply state_Yield.
Qed.
Lemma state_YieldEnd c e s l : YieldEnd c = Some e → state_ (e s l) = s.
Proof. unfold YieldEnd. intros. repeat case_bool_decide; simplify_eq; apply state_Yield. Qed.

(** Nothing but END_OF_FILE follows the end of the file. *)
Lemma lex_char_eof l l' : lex_char None l = Ok l' → state_ l' = END_OF_FILE.
Proof.
  unfold lex_char. rewrite bool_decide_false by done. unfold lex_switch, lex_word.
  destruct (state_ l); intros H; try discriminate H; try (injection H as <-; first [apply state_ChangeState|apply state_Yield]).
  by apply state_YieldInt in H.
Qed.

(** END_OF_FILE is not reached before. *)
Lemma lex_char_some c l l' : lex_char (Some c) l = Ok l' → state_ l' ≠ END_OF_FILE.
Proof.
  unfold lex_char. generalize (if bool_decide (Some c = Some newline) then set_line_number (line_number_ l + 1) l else l).
  clear l. intros l H E. unfold lex_switch, lex_word in H.
  destruct (state_ l) eqn:El; repeat case_bool_decide; repeat case_match; res_inv;
    repeat match goal with
    | H : context [state_ (append_attribute _ ?x)] |- _ => change (state_ x = END_OF_FILE) in H
    | H : YieldEnd _ = Some ?e, E : context [state_ (?e _ _)] |- _ => rewrite (state_YieldEnd _ _ _ _ H) in E
    | H : YieldIntLiteral _ _ = Ok ?x |- _ => apply state_YieldInt in H
    end;
    unfold YieldBeginExpression, YieldEndExpression, YieldBeginList, YieldEndList, YieldBeginBlock,
      YieldEndBlock, YieldStringLiteral, YieldIdentifier in E;
    rewrite ?state_Yield, ?state_ChangeState in E; congruence.
Qed.

Lemma set_fp_push fp l : set_fp fp l = push fp [] l.
Proof. done. Qed.

Lemma remaining_push fp' fp ks l :
  remaining_from fp' (push fp ks l) = map_res (app ks) (remaining_from fp' l).
Proof.
  unfold remaining_from. simpl. case_bool_decide; [done|]. rewrite scan_push.
  destruct (scan fp' l) as [l'| |]; simpl; try done. rewrite lex_char_push.
  by destruct (lex_char None l').
Qed.

Lemma map_res_nil (r : res (list Token.t)) : map_res (app []) r = r.
Proof. by destruct r. Qed.

Lemma remaining_step c fp l :
  state_ l ≠ END_OF_FILE →
  remaining_from (String c fp) l = (l' ← lex_char (Some c) l; remaining_from fp l').
Proof.
  intros He. unfold remaining_from. rewrite bool_decide_false by done. simpl.
  destruct (lex_char (Some c) l) as [l'| |] eqn:E; simpl; try done.
  rewrite bool_decide_false; [done|]. by eapply lex_char_some.
Qed.

#[local] Arguments remaining_from : simpl never.

(** [FetchTokens] changes nothing in what is left, and leaves a token in the
    queue unless there is none; it fails only when what is left does not scan. *)
Lemma fetch_loop_remaining fp l :
  match fetch_loop fp l with
  | Ok l' => remaining l' = remaining_from fp l ∧ (tokens_ l' = [] → state_ l' = END_OF_FILE)
  | e => remaining_from fp l = map_res tokens_ e
  end.
Proof.
  revert l. induction fp as [|c fp IH]; intros l; cbn [fetch_loop];
    (destruct (bool_decide_reflect (state_ l = END_OF_FILE)) as [He|He]; simpl;
     [unfold remaining; simpl fp_; rewrite set_fp_push, remaining_push, map_res_nil; naive_solver|]);
    (destruct (bool_decide_reflect (tokens_ l = [])) as [Ht|Ht]; simpl;
     [|unfold remaining; simpl fp_; rewrite set_fp_push, remaining_push, map_res_nil; naive_solver]).
  - assert (remaining_from "" l = map_res tokens_ (lex_char None l)) as ->.
    { unfold remaining_from. by rewrite bool_decide_false. }
    destruct (lex_char None l) as [l'| |] eqn:E; simpl; [|done|done].
    unfold remaining, remaining_from. simpl. rewrite (lex_char_eof _ _ E). auto.
  - rewrite remaining_step by done. destruct (lex_char (Some c) l) as [l'| |]; simpl; [|done|done].
    apply IH.
Qed.

Lemma FetchTokens_Ok l ks :
  remaining l = Ok ks → ∃ l', FetchTokens l = Ok l' ∧ remaining l' = Ok ks ∧
    (ks = [] ↔ tokens_ l' = []) ∧ (∃ more, ks = (tokens_ l' ++ more)%list).
Proof.
  intros Hr. unfold FetchTokens. pose proof (fetch_loop_remaining (fp_ l) l) as H.
  fold (remaining l) in H. rewrite Hr in H.
  destruct (fetch_loop (fp_ l) l) as [l'| |]; [|done|done]. destruct H as [H1 H2].
  exists l'. do 2 (split; [done|]).
  assert (∃ more, ks = (tokens_ l' ++ more)%list) as [more Hm].
  { unfold remaining in H1. replace l' with (push (fp_ l') (tokens_ l') (set_tokens [] l')) in H1 at 2
      by (destruct l'; unfold push; simpl; by rewrite app_nil_r).
    rewrite remaining_push in H1.
    destruct (remaining_from _ _) as [m| |]; simplify_eq/=. by exists m. }
  split; [|by exists more]. split; intros E.
  - subst ks. by destruct (tokens_ l').
  - specialize (H2 E). unfold remaining, remaining_from in H1. rewrite H2 in H1. simpl in H1.
    congruence.
Qed.

(** The tokens that have been read are a prefix of what is left. *)
Lemma remaining_tokens l : remaining l = map_res (app (tokens_ l)) (remaining (set_tokens [] l)).
Proof.
  unfold remaining. simpl. rewrite <- (remaining_push _ (fp_ l)).
  f_equal. destruct l; unfold push; simpl. by rewrite app_nil_r.
Qed.

End tokens.

(** ** The interface of the lexer for the parser

    The parser only uses these calls.  They are the lexer's, or those on the
    list of all tokens. *)
Class TokenSource (L : Type) := {
  ts_has_next : L → res (bool * L);
  ts_get_next : L → res (Token.t * L);
  ts_peek_type : L → res (Token.Type_ * L);
  ts_get_next_type : L → res (Token.Type_ * L);
}.

#[export] Instance lexer_source : TokenSource Lexer.t := {|
  ts_has_next := Lexer.HasNextToken;
  ts_get_next := Lexer.GetNextToken;
  ts_peek_type := Lexer.PeekNextTokenType;
  ts_get_next_type := Lexer.GetNextTokenType;
|}.

Definition list_head {A} (f : Token.t → list Token.t → A) (ks : list Token.t) : res A :=
  match ks with [] => Fatal | k :: ks' => Ok (f k ks') end.

#[export] Instance list_source : TokenSource (list Token.t) := {|
  ts_has_next := fun ks => Ok (negb (bool_decide (ks = [])), ks);
  ts_get_next := list_head pair;
  ts_peek_type := fun ks => list_head (fun k _ => (Token.type_ k, ks)) ks;
  ts_get_next_type := list_head (fun k ks => (Token.type_ k, ks));
|}.

(** Two outcomes that agree, with related states left. *)
Inductive same_outcome {L1 L2 A : Type} (R : L1 → L2 → Prop) : res (A * L1) → res (A * L2) → Prop :=
| same_ok a l1 l2 : R l1 l2 → same_outcome R (Ok (a, l1)) (Ok (a, l2))
| same_fatal : same_outcome R Fatal Fatal
| same_undef : same_outcome R Undef Undef.

(** A simulation between two token sources. *)
Class TokenSim {L1 L2} `{TokenSource L1} `{TokenSource L2} (R : L1 → L2 → Prop) : Prop := {
  sim_has_next l1 l2 : R l1 l2 → same_outcome R (ts_has_next l1) (ts_has_next l2);
  sim_get_next l1 l2 : R l1 l2 → same_outcome R (ts_get_next l1) (ts_get_next l2);
  sim_peek_type l1 l2 : R l1 l2 → same_outcome R (ts_peek_type l1) (ts_peek_type l2);
  sim_get_next_type l1 l2 : R l1 l2 → same_outcome R (ts_get_next_type l1) (ts_get_next_type l2);
}.

Definition lexes (l : Lexer.t) (ks : list Token.t) : Prop := remaining l = Ok ks.

Lemma lexes_cons l ks k ks' :
  lexes l ks → Lexer.tokens_ l = k :: ks' → ∃ ks'', ks = k :: ks'' ∧ lexes (Lexer.set_tokens ks' l) ks''.
Proof.
  unfold lexes. intros Hl Ht. rewrite remaining_tokens, Ht in Hl.
  destruct (remaining (Lexer.set_tokens [] l)) as [m| |] eqn:E; simplify_eq/=.
  exists (ks' ++ m)%list. split; [done|]. rewrite remaining_tokens. simpl.
  unfold Lexer.set_tokens in *. simpl in *. by rewrite E.
Qed.

(** The lexer that reads a file as it is needed is the list of its tokens. *)
#[export] Instance lexer_sim : TokenSim lexes.
Proof.
  assert (∀ l ks, lexes l ks → ∃ l', Lexer.FetchTokens l = Ok l' ∧ lexes l' ks ∧
    (ks = [] ↔ Lexer.tokens_ l' = [])) as HF.
  { intros l ks H. destruct (FetchTokens_Ok l ks H) as (l' & ? & ? & ? & _). eauto. }
  split; intros l ks H; destruct (HF l ks H) as (l' & E & Hl & Hn); simpl;
    unfold Lexer.HasNextToken, Lexer.GetNextToken, Lexer.PeekNextTokenType, Lexer.GetNextTokenType;
    rewrite E; simpl.
  { rewrite (bool_decide_ext _ _ Hn). by constructor. }
  all: destruct (Lexer.tokens_ l') as [|k ks'] eqn:Et; [rewrite (proj2 Hn) by done; constructor|];
    destruct (lexes_cons _ _ _ _ Hl Et) as (ks'' & -> & ?); by constructor.
Qed.

(** A source that never gets to its end. *)
Class TokenEndless {L} `{TokenSource L} (I : L → Prop) : Prop := {
  endless_has_next l b l' : I l → ts_has_next l = Ok (b, l') → b = true ∧ I l';
  endless_get_next l k l' : I l → ts_get_next l = Ok (k, l') → I l';
  endless_peek_type l ty l' : I l → ts_peek_type l = Ok (ty, l') → I l';
  endless_get_next_type l ty l' : I l → ts_get_next_type l = Ok (ty, l') → I l';
}.

(** A file with a lexical error. *)
Definition lex_error (l : Lexer.t) : Prop := ∀ ks, remaining l ≠ Ok ks.

Lemma lex_error_fetch l l' :
  lex_error l → Lexer.FetchTokens l = Ok l' → lex_error l' ∧ Lexer.tokens_ l' ≠ [].
Proof.
  intros He Hf. pose proof (fetch_loop_remaining (Lexer.fp_ l) l) as H.
  unfold Lexer.FetchTokens in Hf. rewrite Hf in H. destruct H as [H1 H2].
  assert (lex_error l') as He' by (intros ks; rewrite H1; apply He).
  split; [done|]. intros Ht. apply (He' []).
  unfold remaining, remaining_from. rewrite (H2 Ht), bool_decide_true, Ht by done. done.
Qed.

Lemma lex_error_tokens l ks : lex_error l → lex_error (Lexer.set_tokens ks l).
Proof.
  intros He ks' H. rewrite remaining_tokens in H. simpl in H.
  destruct (remaining (Lexer.set_tokens [] (Lexer.set_tokens ks l))) as [m| |] eqn:E; [|done|done].
  apply (He (Lexer.tokens_ l ++ m)%list). rewrite remaining_tokens.
  unfold Lexer.set_tokens in *. simpl in *. by rewrite E.
Qed.

#[export] Instance lexer_endless : TokenEndless lex_error.
Proof.
  split; intros l b l' Hl; simpl;
    unfold Lexer.HasNextToken, Lexer.GetNextToken, Lexer.PeekNextTokenType, Lexer.GetNextTokenType;
    intros H; res_inv; destruct (lex_error_fetch _ _ Hl ltac:(eassumption)) as [He Ht].
  - simplify_eq. by rewrite bool_decide_false.
  - destruct (Lexer.tokens_ a); simplify_eq/=. by apply lex_error_tokens.
  - by destruct (Lexer.tokens_ a); simplify_eq/=.
  - destruct (Lexer.tokens_ a); simplify_eq/=. by apply lex_error_tokens.
Qed.

(** ** Writing tokens and reading them back *)
Section print.
Import Lexer.

Definition print_token (k : Token.t) : string :=
  match Token.type_ k with
  | Token.UNINITIALIZED => ""
  | Token.FOR_KEYWORD => "for"
  | Token.SET_KEYWORD => "set"
  | Token.WHILE_KEYWORD => "while"
  | Token.INT_LITERAL => printf_d (Token.int_attribute_ k)
  | Token.STRING_LITERAL => str1 quote ++ Token.string_attribute_ k ++ str1 quote
  | Token.IDENTIFIER => Token.string_attribute_ k
  | Token.BEGIN_EXPRESSION => "("
  | Token.END_EXPRESSION => ")"
  | Token.BEGIN_BLOCK => "{"
  | Token.END_BLOCK => "}"
  | Token.BEGIN_LIST => "["
  | Token.END_LIST => "]"
  end.

Fixpoint print_tokens (ks : list Token.t) : string :=
  match ks with
  | [] => ""
  | k :: ks' => print_token k ++ " " ++ print_tokens ks'
  end.

Definition is_keyword (s : string) : bool :=
  bool_decide (s = kForKeyword) || bool_decide (s = kSetKeyword) || bool_decide (s = kWhileKeyword).

(** The tokens the lexer yields. *)
Definition token_ok (k : Token.t) : bool :=
  match Token.type_ k with
  | Token.UNINITIALIZED => false
  | Token.INT_LITERAL =>
      (LLONG_MIN <=? Token.int_attribute_ k) && (Token.int_attribute_ k <=? LLONG_MAX) &&
      bool_decide (Token.string_attribute_ k = "")
  | Token.STRING_LITERAL =>
      all_chars (fun c => negb (bool_decide (c = quote))) (Token.string_attribute_ k) &&
      (Token.int_attribute_ k =? 0)
  | Token.IDENTIFIER =>
      negb (bool_decide (Token.string_attribute_ k = "")) &&
      all_chars IsIdentifierChar (Token.string_attribute_ k) &&
      negb (is_keyword (Token.string_attribute_ k)) && (Token.int_attribute_ k =? 0)
  | _ => (Token.int_attribute_ k =? 0) && bool_decide (Token.string_attribute_ k = "")
  end.

Ltac ascii_cases c := destruct c as [[] [] [] [] [] [] [] []].

(** Characters that continue a word do nothing else. *)
Definition plain (c : ascii) : Prop :=
  c ≠ newline ∧ c ≠ quote ∧ c ≠ "#"%char ∧ YieldEnd c = None ∧ isspace c = false.

Lemma isdigit_plain c : isdigit c = true → plain c.
Proof. ascii_cases c; first [discriminate|intros _; repeat split; done]. Qed.
Lemma identifier_plain c : IsIdentifierChar c = true → plain c.
Proof. ascii_cases c; first [discriminate|intros _; repeat split; done]. Qed.

Lemma lex_plain c fp ks st a ln :
  plain c →
  lex_char (Some c) (mk fp ks st a ln) = lex_switch (Some c) (mk fp ks st a ln).
Proof. intros [? _]. unfold lex_char. rewrite bool_decide_false by congruence. done. Qed.

Lemma scan_word st cont s fp ks a ln :
  (st = INT_LITERAL ∧ cont = isdigit) ∨ (st = IDENTIFIER ∧ cont = IsIdentifierChar) →
  all_chars cont s = true →
  scan s (mk fp ks st a ln) = Ok (mk fp ks st (a ++ s) ln).
Proof.
  intros Hst. revert a. induction s as [|c s IH]; intros a Hs; simpl in Hs.
  { simpl. by rewrite str_app_nil_r. }
  apply andb_true_iff in Hs as [Hc Hs].
  assert (plain c) as Hp.
  { destruct Hst as [[_ ->]|[_ ->]]; [by apply isdigit_plain|by apply identifier_plain]. }
  cbn [scan]. rewrite lex_plain by done. destruct Hp as (? & ? & ? & HE & Hsp).
  assert (lex_switch (Some c) (mk fp ks st a ln) = Ok (mk fp ks st (a ++ str1 c) ln)) as ->.
  { destruct Hst as [[-> ->]|[-> ->]]; unfold lex_switch, lex_word; simpl;
      rewrite bool_decide_false by done; by rewrite HE, Hsp, Hc. }
  simpl. rewrite IH by done. by rewrite str_app_assoc.
Qed.

Lemma scan_string s fp ks a ln :
  all_chars (fun c => negb (bool_decide (c = quote))) s = true →
  ∃ ln', scan s (mk fp ks STRING_LITERAL a ln) = Ok (mk fp ks STRING_LITERAL (a ++ s) ln').
Proof.
  revert a ln. induction s as [|c s IH]; intros a ln Hs; simpl in Hs.
  { exists ln. simpl. by rewrite str_app_nil_r. }
  apply andb_true_iff in Hs as [Hc Hs]. cbn [scan].
  assert (∃ ln', lex_char (Some c) (mk fp ks STRING_LITERAL a ln) =
                 Ok (mk fp ks STRING_LITERAL (a ++ str1 c) ln')) as [ln' ->].
  { unfold lex_char, lex_switch. destruct (bool_decide (c = quote)); [done|].
    case_bool_decide; simpl; eexists; done. }
  simpl. destruct (IH (a ++ str1 c) ln' Hs) as [ln'' ->]. exists ln''. by rewrite str_app_assoc.
Qed.

Lemma strtoll_dec f z rest :
  0 ≤ z < 10 ^ Z.of_nat f →
  strtoll_digits 0 (dec_digits f z ++ rest) = strtoll_digits z rest.
Proof.
  revert z rest. induction f as [|f IH]; intros z rest Hf.
  { change (10 ^ Z.of_nat 0) with 1 in Hf. by replace z with 0 by lia. }
  rewrite Nat2Z.inj_succ, Z.pow_succ_r in Hf by lia.
  pose proof (Z.mod_pos_bound z 10). pose proof (Z.div_mod z 10).
  cbn [dec_digits]. rewrite str_app_assoc.
  change (str1 (char_of (48 + z mod 10)) ++ rest) with (String (char_of (48 + z mod 10)) rest).
  destruct (digit_char (z mod 10)) as [H1 H2]; [lia|].
  destruct (Z.ltb_spec z 10).
  - cbn [String.append strtoll_digits]. rewrite H1, H2. f_equal.
    rewrite Z.mod_small by lia. lia.
  - rewrite IH by (split; [apply Z.div_pos|apply Z.div_lt_upper_bound]; lia).
    cbn [strtoll_digits]. rewrite H1, H2. f_equal. lia.
Qed.

(** The digits of a number, as one digit and the rest. *)
Lemma dec_digits_split z :
  0 ≤ z → ∃ c s, dec_digits 20 z = String c s ∧ isdigit c = true ∧ all_chars isdigit s = true.
Proof.
  intros Hz. destruct (dec_digits_head 19 z "" Hz) as (d & s & Hd & E).
  rewrite str_app_nil_r in E. exists (char_of (48 + d)), s. split; [done|].
  pose proof (dec_digits_digits 20 z) as Ha. rewrite E in Ha. cbn [all_chars] in Ha.
  by apply andb_true_iff in Ha.
Qed.

Lemma digit_not_sign c : isdigit c = true → c ≠ "-"%char ∧ c ≠ "+"%char.
Proof. ascii_cases c; first [discriminate|done]. Qed.

Lemma strtoll_printf n : LLONG_MIN ≤ n ≤ LLONG_MAX → strtoll (printf_d n) = (n, false, "").
Proof.
  intros Hn. unfold LLONG_MIN, LLONG_MAX in Hn. unfold strtoll, printf_d.
  assert (∀ z, 0 ≤ z < 10 ^ 20 → strtoll_digits 0 (dec_digits 20 z) = (z, "")) as Hd.
  { intros z Hz. rewrite <- (str_app_nil_r (dec_digits 20 z)), strtoll_dec by (simpl; lia). done. }
  assert ((n <? LLONG_MIN) = false ∧ (LLONG_MAX <? n) = false) as [Hlo Hhi]
    by (unfold LLONG_MIN, LLONG_MAX; lia).
  destruct (Z.ltb_spec n 0).
  - change ("-" ++ dec_digits 20 (- n)) with (String "-"%char (dec_digits 20 (- n))).
    cbn beta iota. rewrite bool_decide_true by done. cbn beta iota.
    rewrite Hd by lia. destruct (dec_digits_split (- n)) as (c & s & -> & -> & _); [lia|].
    cbn [negb]. cbn iota beta. by rewrite Z.opp_involutive, Hlo, Hhi.
  - specialize (Hd n ltac:(lia)). destruct (dec_digits_split n) as (c & s & E & Hc & _); [lia|].
    rewrite E in *. destruct (digit_not_sign c Hc).
    rewrite bool_decide_false, bool_decide_false by done. cbn beta iota.
    rewrite Hc, Hd. cbn [negb]. cbn iota beta. by rewrite Hlo, Hhi.
Qed.

(** An integer literal, from its first character to the space after it. *)
Lemma scan_int n fp ks ln :
  LLONG_MIN ≤ n ≤ LLONG_MAX →
  scan (printf_d n ++ " ") (mk fp ks START "" ln) =
  Ok (mk fp (ks ++ [Token.CreateIntLiteral n]) START "" ln).
Proof.
  intros Hn.
  assert (∃ c s, printf_d n = String c s ∧ all_chars isdigit s = true ∧
    scan (String c s) (mk fp ks START "" ln) = Ok (mk fp ks INT_LITERAL (String c s) ln))
    as (c & s & E & Hs & Hscan).
  { assert (∀ c s, (c = "-"%char ∨ isdigit c = true) → all_chars isdigit s = true →
      scan (String c s) (mk fp ks START "" ln) = Ok (mk fp ks INT_LITERAL (String c s) ln)) as Hgo.
    { intros c s Hc Hs. cbn [scan].
      assert (lex_char (Some c) (mk fp ks START "" ln) = Ok (mk fp ks INT_LITERAL (str1 c) ln)) as ->.
      { clear Hs. destruct Hc as [->|Hc]; [done|]. ascii_cases c; first [discriminate Hc|done]. }
      cbn [mbind res_bind]. by rewrite (scan_word INT_LITERAL isdigit) by auto. }
    unfold printf_d. destruct (Z.ltb_spec n 0).
    - exists "-"%char, (dec_digits 20 (- n)). split; [done|].
      pose proof (dec_digits_digits 20 (- n)). split; [done|]. apply Hgo; auto.
    - destruct (dec_digits_split n) as (c & s & E & Hc & Hs); [done|].
      exists c, s. split; [done|]. split; [done|]. apply Hgo; auto. }
  rewrite scan_app, E, Hscan. cbn [mbind res_bind scan].
  unfold lex_char. rewrite bool_decide_false by done.
  unfold lex_switch, lex_word. cbn [state_].
  change (bool_decide (" "%char = "#"%char)) with false.
  change (YieldEnd " "%char) with (@None (State → t → t)). change (isspace " "%char) with true.
  cbn iota. unfold YieldIntLiteral. cbn [attribute_]. rewrite bool_decide_false by done. cbn [negb].
  cbn [CHECK mbind res_bind].
  rewrite <- E, strtoll_printf by done. simpl. by rewrite !andb_false_r.
Qed.

(** An identifier or a keyword. *)
Lemma scan_identifier s fp ks ln :
  s ≠ "" → all_chars IsIdentifierChar s = true →
  scan (s ++ " ") (mk fp ks START "" ln) = Ok (YieldIdentifier START (mk fp ks IDENTIFIER s ln)).
Proof.
  intros Hne Hs. destruct s as [|c s]; [done|]. cbn [all_chars] in Hs.
  apply andb_true_iff in Hs as [Hc Hs]. cbn [String.append scan].
  assert (lex_char (Some c) (mk fp ks START "" ln) = Ok (mk fp ks IDENTIFIER (str1 c) ln)) as ->.
  { clear Hs Hne. ascii_cases c; first [discriminate Hc|done]. }
  cbn [mbind res_bind]. by rewrite scan_app, (scan_word IDENTIFIER IsIdentifierChar) by auto.
Qed.

Lemma scan_token k fp ks ln :
  token_ok k = true →
  ∃ ln', scan (print_token k ++ " ") (mk fp ks START "" ln) = Ok (mk fp (ks ++ [k]) START "" ln').
Proof.
  destruct k as [ty n s]. unfold token_ok, print_token. cbn [Token.type_ Token.int_attribute_ Token.string_attribute_].
  intros Hk. destruct ty; try discriminate Hk; try (exists ln; apply andb_true_iff in Hk as [->%Z.eqb_eq ->%bool_decide_eq_true]; done).
  - apply andb_true_iff in Hk as [Hn ->%bool_decide_eq_true]. exists ln. apply scan_int. lia.
  - apply andb_true_iff in Hk as [Hs ->%Z.eqb_eq]. rewrite !str_app_assoc. cbn [str1 String.append scan].
    change (lex_char (Some quote) (mk fp ks START "" ln)) with (Ok (mk fp ks STRING_LITERAL "" ln)).
    cbn [mbind res_bind]. rewrite scan_app.
    destruct (scan_string s fp ks "" ln Hs) as [ln' ->]. exists ln'. done.
  - apply andb_true_iff in Hk as [[[Hne Hs]%andb_true_iff Hkw]%andb_true_iff ->%Z.eqb_eq].
    exists ln. apply negb_true_iff, bool_decide_eq_false in Hne. rewrite scan_identifier by done.
    unfold is_keyword in Hkw. unfold YieldIdentifier. cbn [attribute_].
    do 3 (destruct (bool_decide (s = _)); [done|]). done.
Qed.

Lemma tokens_of_print ks : Forall (fun k => token_ok k = true) ks → tokens_of (print_tokens ks) = Ok ks.
Proof.
  intros Hks. unfold tokens_of, remaining, New. cbn [fp_].
  unfold remaining_from. rewrite bool_decide_false by done.
  assert (∀ fp pre ln, ∃ ln', scan (print_tokens ks) (mk fp pre START "" ln) =
    Ok (mk fp (pre ++ ks) START "" ln')) as Hgo.
  { clear -Hks. induction Hks as [|k ks Hk _ IH]; intros fp pre ln.
    - exists ln. simpl. by rewrite app_nil_r.
    - cbn [print_tokens]. rewrite <- str_app_assoc, scan_app.
      destruct (scan_token k fp pre ln Hk) as [ln' ->]. cbn [mbind res_bind].
      destruct (IH fp (pre ++ [k])%list ln') as [ln'' ->]. exists ln''.
      by rewrite <- app_assoc. }
  destruct (Hgo (print_tokens ks) [] 1) as [ln' ->]. done.
Qed.

(** ** The tokens the lexer yields are well formed *)
Definition attribute_ok (st : State) (a : string) : Prop :=
  match st with
  | STRING_LITERAL => all_chars (fun c => negb (bool_decide (c = quote))) a = true
  | IDENTIFIER => a ≠ "" ∧ all_chars IsIdentifierChar a = true
  | _ => True
  end.

Record lexer_ok (l : t) : Prop := {
  ok_tokens : Forall (fun k => token_ok k = true) (tokens_ l);
  ok_attribute : attribute_ok (state_ l) (attribute_ l);
}.

Lemma strtoll_range s n er e : strtoll s = (n, er, e) → LLONG_MIN ≤ n ≤ LLONG_MAX.
Proof.
  unfold strtoll. repeat case_match; intros; simplify_eq; unfold LLONG_MIN, LLONG_MAX in *; lia.
Qed.

(** The states in which an attribute is being read are entered by reading its
    first character. *)
Definition no_attribute (s : State) : Prop := s ≠ STRING_LITERAL ∧ s ≠ IDENTIFIER.

Lemma ChangeState_ok s l : no_attribute s → lexer_ok l → lexer_ok (ChangeState s l).
Proof.
  intros [? ?] [Ht Ha]. split; unfold ChangeState; case_bool_decide; simplify_eq/=; try done.
  by destruct s.
Qed.

Lemma Yield_ok k s l : token_ok k = true → no_attribute s → lexer_ok l → lexer_ok (Yield k s l).
Proof.
  intros Hk Hs [Ht Ha]. apply ChangeState_ok; [done|]. split; [|done]. simpl.
  rewrite Forall_app. by repeat constructor.
Qed.

Lemma YieldInt_ok s l l' :
  no_attribute s → lexer_ok l → YieldIntLiteral s l = Ok l' → lexer_ok l'.
Proof.
  unfold YieldIntLiteral. intros Hs Hl H. res_inv.
  destruct (strtoll (attribute_ l)) as [[n er] e] eqn:E. apply strtoll_range in E.
  repeat case_match; res_inv. apply Yield_ok; [|done|done].
  unfold token_ok. simpl. lia.
Qed.

Lemma YieldEnd_ok c e s l : YieldEnd c = Some e → no_attribute s → lexer_ok l → lexer_ok (e s l).
Proof. unfold YieldEnd. intros. repeat case_bool_decide; simplify_eq; by apply Yield_ok. Qed.

Lemma YieldIdentifier_ok s l :
  no_attribute s → state_ l = IDENTIFIER → lexer_ok l → lexer_ok (YieldIdentifier s l).
Proof.
  intros Hs Hst Hl. apply Yield_ok; [|done|done].
  destruct Hl as [_ Ha]. rewrite Hst in Ha. destruct Ha as [Hne Ha].
  repeat case_bool_decide; try done. unfold token_ok, is_keyword. simpl.
  rewrite !bool_decide_false by done. by rewrite Ha.
Qed.

Create HintDb lexer.
#[local] Hint Resolve ChangeState_ok Yield_ok YieldInt_ok YieldEnd_ok YieldIdentifier_ok : lexer.
#[local] Hint Extern 1 (no_attribute _) => done : lexer.

Lemma lex_word_ok yield cont c l l' :
  (∀ s l', no_attribute s → yield s l = Ok l' → lexer_ok l') →
  (∀ c, cont c = true → attribute_ok (state_ l) (attribute_ l ++ str1 c)) →
  lexer_ok l → lex_word yield cont c l = Ok l' → lexer_ok l'.
Proof.
  intros Hy Hc Hl. unfold lex_word.
  destruct c as [c|]; [|by apply Hy]. case_bool_decide; [by apply Hy|].
  destruct (YieldEnd c) as [e|] eqn:E.
  - intros Hr. res_inv. eapply YieldEnd_ok; [done|done|]. by apply (Hy END_OF_EXPRESSION).
  - destruct (isspace c); [by apply Hy|]. destruct (cont c) eqn:Ec; [|done].
    intros [= <-]. destruct Hl. split; [done|]. by apply Hc.
Qed.

Lemma lex_char_ok c l l' : lexer_ok l → lex_char c l = Ok l' → lexer_ok l'.
Proof.
  unfold lex_char. intros Hl.
  assert (lexer_ok (if bool_decide (c = Some newline) then set_line_number (line_number_ l + 1) l else l))
    as Hl' by (case_bool_decide; [destruct Hl; split; done|done]).
  revert Hl'. generalize (if bool_decide (c = Some newline) then set_line_number (line_number_ l + 1) l else l).
  clear l Hl. intros l Hl. unfold lex_switch.
  destruct (state_ l) eqn:El; [destruct c as [c|]|destruct c as [c|]| |destruct c as [c|]| |destruct c as [c|]|];
    try done; try (intros [= <-]; by auto with lexer).
  - repeat case_bool_decide; repeat case_match; intros [= <-]; try (by apply Yield_ok); try (by apply ChangeState_ok);
      try done; split; try apply Hl; unfold ChangeState; rewrite El; simpl; try done; try apply Hl.
    split; [done|]. by rewrite andb_true_r.
  - case_bool_decide; intros [= <-]; auto with lexer.
  - apply lex_word_ok; [eauto with lexer|by rewrite El|done].
  - destruct Hl as [Ht Ha]. rewrite El in Ha. case_bool_decide; intros [= <-].
    + apply Yield_ok; [|done|split; [done|by rewrite El]]. unfold token_ok. simpl. simpl in Ha. by rewrite Ha.
    + split; [done|]. simpl. rewrite El. simpl. rewrite all_chars_snoc, Ha.
      by rewrite bool_decide_false.
  - apply lex_word_ok; [intros s l'' Hs [= <-]; auto with lexer| |done].
    intros d Hd. destruct Hl as [_ Ha]. rewrite El in *. destruct Ha as [? Ha].
    split; [by destruct (attribute_ l)|]. by rewrite all_chars_snoc, Ha, Hd.
  - repeat case_bool_decide; repeat case_match; intros [= <-]; eauto with lexer.
Qed.

Lemma scan_ok s l l' : lexer_ok l → scan s l = Ok l' → lexer_ok l'.
Proof.
  revert l. induction s as [|c s IH]; intros l Hl; simpl; [by intros [= <-]|].
  intros H. res_inv. eapply IH; [|done]. by eapply lex_char_ok.
Qed.

Lemma tokens_of_ok file ks : tokens_of file = Ok ks → Forall (fun k => token_ok k = true) ks.
Proof.
  unfold tokens_of, remaining, remaining_from, New. rewrite bool_decide_false by done.
  intros H. res_inv. apply ok_tokens. eapply lex_char_ok; [|done]. eapply scan_ok; [|done].
  by split.
Qed.

(** C34 (roundtrip). Reading a file gives well-formed tokens: integers that fit [int64], identifiers
    that are not keywords, strings without quotation mark; and writing these tokens
    separated by spaces gives a file that is read as the same tokens. *)
Theorem lexer_roundtrip file ks :
  tokens_of file = Ok ks →
  Forall (fun k => token_ok k = true) ks ∧ tokens_of (print_tokens ks) = Ok ks.
Proof. intros H. pose proof (tokens_of_ok _ _ H). split; [done|]. by apply tokens_of_print. Qed.

End print.

Lemma lexer_roundtrip_witness :
  let ks := [Token.CreateBeginExpression; Token.CreateSetKeyword; Token.CreateIdentifier "a.b";
             Token.CreateIntLiteral (-5); Token.CreateEndExpression] in
  Forall (fun k => token_ok k = true) ks ∧ tokens_of "( set a.b -5 ) " = Ok ks.
Proof.
  apply (lexer_roundtrip "# assign
(set a.b -5) #end"). vm_compute. reflexivity.
Defined.
