(* ===== verification/TokenStorage.v ===== *)
(** * The storage of tokens

    [toy_lang/token.cc] again: a [Token] is a tagged union, one member of which is a
    pointer to a string that the token owns.  The lexer and the parser use the plain
    tokens of file [ToyLexer]; [token_storage_refines] shows that the constructors,
    assignment, destructor and getters implement them, without leaks, double deletes
    or reads of a member that was not the last one written. *)
From S2P Require Import Prelude ToyLexer.
From stdpp Require Import base tactics list strings gmap fin_maps fin_map_dom.
From Stdlib Require Import ZArith Lia.

Module TokenStorage.
Import Token.

(** The member of the union that was written last. *)
Inductive member := M_none | M_int (int_attribute_ : Z) | M_string (string_attribute_ : nat).
Record cell := mkCell { type_ : Type_; union_ : member }.

(** The tokens that exist and the strings on the heap. *)
Record state := mkState { tokens : gmap nat cell; strings : gmap nat string; next_string : nat }.
Definition empty_state : state := mkState ∅ ∅ 0.

Definition put_cell (v : nat) (c : cell) (s : state) : state :=
  mkState (<[v := c]> (tokens s)) (strings s) (next_string s).

(** [new string(x)], [delete p] and [*p = x]. *)
Definition new_string (x : string) (s : state) : nat * state :=
  (next_string s, mkState (tokens s) (<[next_string s := x]> (strings s)) (S (next_string s))).
Definition delete_string (p : nat) (s : state) : res state :=
  _ ← deref (strings s !! p); Ok (mkState (tokens s) (delete p (strings s)) (next_string s)).
Definition assign_string (p : nat) (x : string) (s : state) : res state :=
  _ ← deref (strings s !! p); Ok (mkState (tokens s) (<[p := x]> (strings s)) (next_string s)).

Definition get_int (c : cell) : res Z := match union_ c with M_int n => Ok n | _ => Undef end.
Definition get_string (c : cell) : res nat := match union_ c with M_string p => Ok p | _ => Undef end.
Definition text (c : cell) (s : state) : res string := p ← get_string c; deref (strings s !! p).

(** [Token::Token()]. *)
Definition New (v : nat) (s : state) : res state := Ok (put_cell v (mkCell UNINITIALIZED M_none) s).

(** [Token::Token(const Token&)]. *)
Definition Copy (v other : nat) (s : state) : res state :=
  o ← deref (tokens s !! other);
  if IsIntAttributeType (type_ o) then
    n ← get_int o; Ok (put_cell v (mkCell (type_ o) (M_int n)) s)
  else if IsStringAttributeType (type_ o) then
    x ← text o s;
    let '(p, s) := new_string x s in Ok (put_cell v (mkCell (type_ o) (M_string p)) s)
  else Ok (put_cell v (mkCell (type_ o) M_none) s).

Definition FreeMemory (v : nat) (s : state) : res state :=
  c ← deref (tokens s !! v);
  if IsStringAttributeType (type_ c) then p ← get_string c; delete_string p s else Ok s.

(** [Token::~Token()]. *)
Definition Destroy (v : nat) (s : state) : res state :=
  s ← FreeMemory v s; Ok (mkState (delete v (tokens s)) (strings s) (next_string s)).

(** The first statement of [Token::operator=]. *)
Definition change_storage (v : nat) (ty : Type_) (s : state) : res state :=
  c ← deref (tokens s !! v);
  if IsStringAttributeType (type_ c) then
    if negb (IsStringAttributeType ty) then p ← get_string c; delete_string p s else Ok s
  else if IsStringAttributeType ty then
    let '(p, s) := new_string "" s in Ok (put_cell v (mkCell (type_ c) (M_string p)) s)
  else Ok s.

(** [Token::operator=]; [other] may be the token itself. *)
Definition Assign (v other : nat) (s : state) : res state :=
  o ← deref (tokens s !! other);
  let ty := type_ o in
  s ← change_storage v ty s;
  c ← deref (tokens s !! v);
  let s := put_cell v (mkCell ty (union_ c)) s in
  o ← deref (tokens s !! other);
  if IsIntAttributeType ty then n ← get_int o; Ok (put_cell v (mkCell ty (M_int n)) s)
  else if IsStringAttributeType ty then
    x ← text o s; c ← deref (tokens s !! v); p ← get_string c; assign_string p x s
  else Ok s.

(** [CreateForKeyword] and the others without an attribute. *)
Definition CreateOther (v : nat) (ty : Type_) (s : state) : res state :=
  s ← FreeMemory v s; c ← deref (tokens s !! v); Ok (put_cell v (mkCell ty (union_ c)) s).
Definition CreateIntLiteral (v : nat) (int_literal : Z) (s : state) : res state :=
  s ← FreeMemory v s; Ok (put_cell v (mkCell INT_LITERAL (M_int int_literal)) s).

(** A [const string&] argument: a string elsewhere, or the one that a token owns,
    which is read when it is copied. *)
Inductive string_ref := Elsewhere (x : string) | OwnedBy (w : nat).
Definition read_ref (r : string_ref) (s : state) : res string :=
  match r with Elsewhere x => Ok x | OwnedBy w => c ← deref (tokens s !! w); text c s end.

Definition create_text (ty : Type_) (v : nat) (r : string_ref) (s : state) : res state :=
  s ← FreeMemory v s;
  x ← read_ref r s;
  let '(p, s) := new_string x s in Ok (put_cell v (mkCell ty (M_string p)) s).
Definition CreateStringLiteral := create_text STRING_LITERAL.
Definition CreateIdentifier := create_text IDENTIFIER.

(** The getters and [operator==]. *)
Definition int_literal (v : nat) (s : state) : res Z :=
  c ← deref (tokens s !! v); _ ← CHECK (bool_decide (type_ c = INT_LITERAL)); get_int c.
Definition string_literal (v : nat) (s : state) : res string :=
  c ← deref (tokens s !! v); _ ← CHECK (bool_decide (type_ c = STRING_LITERAL)); text c s.
Definition identifier (v : nat) (s : state) : res string :=
  c ← deref (tokens s !! v); _ ← CHECK (bool_decide (type_ c = IDENTIFIER)); text c s.

Definition equal (lhs rhs : nat) (s : state) : res bool :=
  l ← deref (tokens s !! lhs);
  r ← deref (tokens s !! rhs);
  if negb (bool_decide (type_ l = type_ r)) then Ok false
  else if IsIntAttributeType (type_ l) then m ← get_int l; n ← get_int r; Ok (bool_decide (m = n))
  else if IsStringAttributeType (type_ l) then x ← text l s; y ← text r s; Ok (bool_decide (x = y))
  else Ok true.

(** ** What the storage stands for *)
Definition own (c : cell) : option nat :=
  if IsStringAttributeType (type_ c) then match union_ c with M_string p => Some p | _ => None end else None.

Definition shows (strs : gmap nat string) (c : cell) (k : Token.t) : Prop :=
  type_ c = Token.type_ k ∧
  (IsIntAttributeType (type_ c) = true → union_ c = M_int (int_attribute_ k)) ∧
  (IsStringAttributeType (type_ c) = true → ∃ p, union_ c = M_string p ∧ strs !! p = Some (string_attribute_ k)).

(** The tokens [a] are stored, and each string belongs to one of them. *)
Record stores (s : state) (a : gmap nat Token.t) : Prop := {
  st_shows v : option_Forall2 (shows (strings s)) (tokens s !! v) (a !! v);
  st_unique v1 v2 c1 c2 p : tokens s !! v1 = Some c1 → tokens s !! v2 = Some c2 →
    own c1 = Some p → own c2 = Some p → v1 = v2;
  st_no_leak p : is_Some (strings s !! p) → ∃ v c, tokens s !! v = Some c ∧ own c = Some p;
  st_fresh p : is_Some (strings s !! p) → p < next_string s;
}.

Lemma shows_own strs c k p : shows strs c k → own c = Some p → union_ c = M_string p ∧ strs !! p = Some (string_attribute_ k).
Proof.
  intros (_ & _ & Hs). unfold own. destruct (IsStringAttributeType (type_ c)) eqn:E; [|done].
  destruct (Hs eq_refl) as (q & -> & ?). by intros [= <-].
Qed.
Lemma shows_text strs c k :
  shows strs c k → IsStringAttributeType (type_ c) = true →
  ∃ p, own c = Some p ∧ union_ c = M_string p ∧ strs !! p = Some (string_attribute_ k).
Proof. intros (_ & _ & Hs) E. destruct (Hs E) as (p & Hu & ?). exists p. unfold own. by rewrite E, Hu. Qed.
Lemma token_shows_frame strs strs' c k :
  shows strs c k → (∀ p, own c = Some p → strs' !! p = strs !! p) → shows strs' c k.
Proof.
  intros Hk Hf.
  split; [apply Hk|]. split; [apply Hk|]. intros E. destruct (shows_text _ _ _ Hk E) as (p & Hp & ? & ?).
  exists p. by rewrite Hf.
Qed.

Lemma token_stores_cell s a v k : stores s a → a !! v = Some k → ∃ c, tokens s !! v = Some c ∧ shows (strings s) c k.
Proof. intros Hs Ha. pose proof (st_shows _ _ Hs v) as Hv. rewrite Ha in Hv. inversion Hv; eauto. Qed.
Lemma stores_lookup s a v c : stores s a → tokens s !! v = Some c → ∃ k, a !! v = Some k ∧ shows (strings s) c k.
Proof. intros Hs Hc. pose proof (st_shows _ _ Hs v) as Hv. rewrite Hc in Hv. inversion Hv; eauto. Qed.

(** The string that [v] owns. *)
Definition old (v : nat) (s : state) : option nat := tokens s !! v ≫= own.

(** What may change for the other tokens: nothing. *)
Lemma other_strings s a v w c p :
  stores s a → w ≠ v → tokens s !! w = Some c → own c = Some p → old v s ≠ Some p ∧ is_Some (strings s !! p).
Proof.
  intros Hs Hw Hc Hp. destruct (stores_lookup _ _ _ _ Hs Hc) as (k & _ & Hk).
  destruct (shows_own _ _ _ _ Hk Hp) as [_ E]. split; [|by eexists].
  intros (d & Hd & Hdp)%bind_Some. apply Hw. by eapply st_unique.
Qed.

(** [v] gets the cell [c'], which has no string, the string it had, or a new one. *)
Lemma stores_put s a v c' k strs' next' :
  stores s a →
  (∀ p, old v s ≠ Some p → own c' ≠ Some p → strs' !! p = strings s !! p) →
  (∀ p, old v s = Some p → own c' ≠ Some p → strs' !! p = None) →
  (∀ p, own c' = Some p → old v s = Some p ∨ strings s !! p = None) →
  (∀ p, is_Some (strs' !! p) → p < next') →
  shows strs' c' k →
  stores (mkState (<[v := c']> (tokens s)) strs' next') (<[v := k]> a).
Proof.
  intros Hs Hsame Hold Hnew Hnext Hk.
  assert (∀ w c p, w ≠ v → tokens s !! w = Some c → own c = Some p →
    own c' ≠ Some p ∧ strs' !! p = strings s !! p) as Hother.
  { intros w c p Hw Hc Hp. destruct (other_strings _ _ v _ _ _ Hs Hw Hc Hp) as [Ho [x Hx]].
    assert (own c' ≠ Some p) by (intros [?|?]%Hnew; congruence). auto. }
  split; simpl; [..|done].
  - intros w. destruct (decide (w = v)) as [->|Hw]; [rewrite !lookup_insert_eq; by constructor|].
    rewrite !lookup_insert_ne by done. pose proof (st_shows _ _ Hs w) as Hsh. inversion Hsh as [c x Hc E1 E2|]; constructor.
    eapply token_shows_frame; [done|]. intros p. by apply (Hother w).
  - intros w1 w2 d1 d2 p [[<- <-]|[? H1]]%lookup_insert_Some [[<- <-]|[? H2]]%lookup_insert_Some O1 O2; try done.
    + by destruct (Hother w2 d2 p).
    + by destruct (Hother w1 d1 p).
    + by eapply st_unique.
  - intros p Hp. destruct (decide (own c' = Some p)) as [?|Hc']; [exists v, c'; by rewrite lookup_insert_eq|].
    destruct (decide (old v s = Some p)) as [Ho|Ho]; [rewrite Hold in Hp by done; by destruct Hp|].
    rewrite Hsame in Hp by done. destruct (st_no_leak _ _ Hs p Hp) as (w & c & Hw & Hc). exists w, c. split; [|done].
    rewrite lookup_insert_ne; [done|]. intros <-. apply Ho. unfold old. by rewrite Hw.
Qed.

Lemma next_unused s a : stores s a → strings s !! next_string s = None.
Proof. intros Hs. apply eq_None_not_Some. intros Hp%(st_fresh _ _ Hs). lia. Qed.

(** The string of [v] is deleted, if it has one. *)
Definition freed (v : nat) (s s1 : state) : Prop :=
  tokens s1 = tokens s ∧ next_string s1 = next_string s ∧
  ∀ p, strings s1 !! p = if decide (old v s = Some p) then None else strings s !! p.

Lemma FreeMemory_stores s a v k :
  stores s a → a !! v = Some k → ∃ s1, FreeMemory v s = Ok s1 ∧ freed v s s1.
Proof.
  intros Hs Hv. destruct (token_stores_cell _ _ _ _ Hs Hv) as (c & Hc & Hk). unfold FreeMemory, freed, old. rewrite Hc. simpl.
  destruct (IsStringAttributeType (type_ c)) eqn:E.
  - destruct (shows_text _ _ _ Hk E) as (p & Hp & Hu & Hx). unfold get_string, delete_string. rewrite Hu. simpl.
    rewrite Hx. simpl. eexists. split_and!; [done..|]. intros q. simpl. rewrite Hp. case_decide as Hq.
    + injection Hq as <-. apply lookup_delete_eq.
    + apply lookup_delete_ne. congruence.
  - exists s. split_and!; [done..|]. intros q. rewrite decide_False; [done|]. unfold own. by rewrite E.
Qed.

(** After that the token gets no string, or a new one. *)
Lemma freed_put s a v s1 c' k :
  stores s a → freed v s s1 → own c' = None → shows (strings s1) c' k → stores (put_cell v c' s1) (<[v := k]> a).
Proof.
  intros Hs (Ht & Hn & Hstr) Ho Hk. unfold put_cell. rewrite Ht, Hn. apply stores_put; [done|..|done].
  - intros p Hp _. by rewrite Hstr, decide_False.
  - intros p Hp _. by rewrite Hstr, decide_True.
  - congruence.
  - intros p. rewrite Hstr. case_decide; [by intros []|]. by apply (st_fresh _ _ Hs).
Qed.
Lemma freed_put_new s a v s1 ty x k :
  stores s a → freed v s s1 → IsStringAttributeType ty = true → Token.type_ k = ty → string_attribute_ k = x →
  stores (put_cell v (mkCell ty (M_string (next_string s1))) (new_string x s1).2) (<[v := k]> a).
Proof.
  intros Hs (Ht & Hn & Hstr) Hty <- <-. unfold put_cell. simpl. rewrite Ht, Hn. set (c' := mkCell _ _).
  assert (own c' = Some (next_string s)) as Ho by (unfold own, c'; simpl; by rewrite Hty).
  pose proof (next_unused _ _ Hs) as Hfresh. apply stores_put; [done|..].
  - intros p Hp Hp'. rewrite lookup_insert_ne by congruence. by rewrite Hstr, decide_False.
  - intros p Hp Hp'. rewrite lookup_insert_ne by congruence. by rewrite Hstr, decide_True.
  - intros p Hp. right. congruence.
  - intros p [y [[<- _]|[_ Hy]]%lookup_insert_Some]; [lia|]. rewrite Hstr in Hy. case_decide; [done|].
    pose proof (st_fresh _ _ Hs p ltac:(by eexists)). lia.
  - split; [done|]. split.
    + unfold c'. simpl. by destruct (Token.type_ k).
    + intros _. eexists. split; [done|]. apply lookup_insert_eq.
Qed.

(** A token that does not exist has nothing to free. *)
Lemma freed_none s v : tokens s !! v = None → freed v s s.
Proof. intros Hv. split_and!; [done..|]. intros p. rewrite decide_False; [done|]. unfold old. by rewrite Hv. Qed.
Lemma not_stored s a v : stores s a → a !! v = None → tokens s !! v = None.
Proof. intros Hs Ha. pose proof (st_shows _ _ Hs v) as Hv. rewrite Ha in Hv. by inversion Hv. Qed.

(** A type that selects no member. *)
Definition plain (ty : Type_) : bool := negb (IsIntAttributeType ty) && negb (IsStringAttributeType ty).
Lemma freed_put_plain s a v s1 ty u k :
  stores s a → freed v s s1 → plain ty = true → Token.type_ k = ty → stores (put_cell v (mkCell ty u) s1) (<[v := k]> a).
Proof.
  unfold plain. intros Hst Hf [Hi Hs]%andb_prop <-. apply negb_true_iff in Hi, Hs.
  apply (freed_put s); [done|done|..]; unfold own, shows; simpl; rewrite ?Hi, ?Hs; naive_solver.
Qed.
Lemma freed_put_int s a v s1 ty n k :
  stores s a → freed v s s1 → IsIntAttributeType ty = true → Token.type_ k = ty → int_attribute_ k = n →
  stores (put_cell v (mkCell ty (M_int n)) s1) (<[v := k]> a).
Proof.
  intros Hst Hf Hi <- <-. assert (IsStringAttributeType (Token.type_ k) = false) as Hs by by destruct (Token.type_ k).
  apply (freed_put s); [done|done|..]; unfold own, shows; simpl; rewrite ?Hs; naive_solver.
Qed.

(** *** The operations *)
Lemma token_New_stores s a v :
  stores s a → a !! v = None → ∃ s', New v s = Ok s' ∧ stores s' (<[v := Token.CreateOther UNINITIALIZED]> a).
Proof.
  intros Hs Hv. eexists. split; [done|]. apply (freed_put_plain s); [done| |done..]. by eapply freed_none, not_stored.
Qed.

Lemma text_shows s c k : shows (strings s) c k → IsStringAttributeType (type_ c) = true → text c s = Ok (string_attribute_ k).
Proof. intros Hk E. destruct (shows_text _ _ _ Hk E) as (p & _ & Hu & Hx). unfold text, get_string. rewrite Hu. simpl. by rewrite Hx. Qed.
Lemma get_int_shows strs c k : shows strs c k → IsIntAttributeType (type_ c) = true → get_int c = Ok (int_attribute_ k).
Proof. intros (_ & Hi & _) E. unfold get_int. by rewrite (Hi E). Qed.

Lemma token_Copy_stores s a v other k :
  stores s a → a !! v = None → a !! other = Some k → ∃ s', Copy v other s = Ok s' ∧ stores s' (<[v := k]> a).
Proof.
  intros Hs Hv Hk. destruct (token_stores_cell _ _ _ _ Hs Hk) as (o & Ho & Hsh). unfold Copy. rewrite Ho. simpl.
  pose proof (freed_none _ _ (not_stored _ _ _ Hs Hv)) as Hfree. pose proof Hsh as (Ety & _ & _).
  destruct (IsIntAttributeType (type_ o)) eqn:Ei; [|destruct (IsStringAttributeType (type_ o)) eqn:Es].
  - rewrite (get_int_shows _ _ _ Hsh Ei). simpl. eexists. split; [done|]. by apply (freed_put_int s).
  - rewrite (text_shows _ _ _ Hsh Es). simpl. eexists. split; [done|]. by apply (freed_put_new s).
  - eexists. split; [done|]. assert (plain (type_ o) = true) as Hp by (unfold plain; by rewrite Ei, Es).
    by apply (freed_put_plain s).
Qed.

Lemma CreateOther_stores s a v ty :
  stores s a → is_Some (a !! v) → plain ty = true →
  ∃ s', CreateOther v ty s = Ok s' ∧ stores s' (<[v := Token.CreateOther ty]> a).
Proof.
  intros Hs [k Hv] Hty. destruct (FreeMemory_stores _ _ _ _ Hs Hv) as (s1 & E1 & Hf). unfold CreateOther. rewrite E1. simpl.
  destruct (token_stores_cell _ _ _ _ Hs Hv) as (c & Hc & _). rewrite (proj1 Hf), Hc. simpl. eexists. split; [done|].
  by apply (freed_put_plain s).
Qed.
Lemma CreateIntLiteral_stores s a v n :
  stores s a → is_Some (a !! v) →
  ∃ s', CreateIntLiteral v n s = Ok s' ∧ stores s' (<[v := Token.CreateIntLiteral n]> a).
Proof.
  intros Hs [k Hv]. destruct (FreeMemory_stores _ _ _ _ Hs Hv) as (s1 & E1 & Hf). unfold CreateIntLiteral. rewrite E1. simpl.
  eexists. split; [done|]. by apply (freed_put_int s).
Qed.

(** The text that an argument stands for; the argument is not the string of [v]. *)
Definition ref_text (v : nat) (r : string_ref) (a : gmap nat Token.t) : option string :=
  match r with
  | Elsewhere x => Some x
  | OwnedBy w =>
      k ← a !! w;
      if bool_decide (w = v) then None
      else if IsStringAttributeType (Token.type_ k) then Some (string_attribute_ k) else None
  end.

Lemma read_ref_freed s a v s1 r x :
  stores s a → freed v s s1 → ref_text v r a = Some x → read_ref r s1 = Ok x.
Proof.
  intros Hs (Ht & _ & Hstr) Hr. destruct r as [y|w]; simpl in *; [by injection Hr as ->|].
  apply bind_Some in Hr as (k & Hk & Hr). case_bool_decide as Hw; [done|].
  destruct (IsStringAttributeType _) eqn:E; [|done]. injection Hr as <-.
  destruct (token_stores_cell _ _ _ _ Hs Hk) as (c & Hc & Hsh). rewrite Ht, Hc. simpl. pose proof Hsh as (Ety & _ & _).
  apply text_shows; [|by rewrite Ety]. eapply token_shows_frame; [done|]. intros p Hp.
  rewrite Hstr, decide_False; [done|]. by apply (other_strings s a v w c p).
Qed.

Lemma create_text_stores s a v ty r x k :
  stores s a → is_Some (a !! v) → ref_text v r a = Some x →
  IsStringAttributeType ty = true → Token.type_ k = ty → string_attribute_ k = x →
  ∃ s', create_text ty v r s = Ok s' ∧ stores s' (<[v := k]> a).
Proof.
  intros Hs [k0 Hv] Hr Hty Ek Ex. destruct (FreeMemory_stores _ _ _ _ Hs Hv) as (s1 & E1 & Hf). unfold create_text.
  rewrite E1. simpl. rewrite (read_ref_freed _ _ _ _ _ _ Hs Hf Hr). simpl. eexists. split; [done|].
  by apply (freed_put_new s).
Qed.

Lemma put_put v c c' s : put_cell v c (put_cell v c' s) = put_cell v c s.
Proof. unfold put_cell. simpl. by rewrite insert_insert_eq. Qed.

(** The rest of [operator=] when the token has no string to fill. *)
Lemma assign_plain s a v other k s1 c o u :
  stores s a → freed v s s1 → a !! other = Some k → tokens s !! other = Some o → IsStringAttributeType (type_ o) = false →
  tokens s1 !! v = Some c → u = (if decide (other = v) then union_ o else u) → union_ c = u →
  ∃ s', (let s2 := put_cell v (mkCell (type_ o) (union_ c)) s1 in
         o' ← deref (<[v := mkCell (type_ o) (union_ c)]> (tokens s) !! other);
         if IsIntAttributeType (type_ o) then n ← get_int o'; Ok (put_cell v (mkCell (type_ o) (M_int n)) s2)
         else Ok s2) = Ok s' ∧ stores s' (<[v := k]> a).
Proof.
  intros Hs Hf Hk Ho Es Hc Hu Eu. destruct (token_stores_cell _ _ _ _ Hs Hk) as (o1 & Ho1 & Hsh). simplify_eq.
  pose proof Hsh as (Ety & _ & _). cbn zeta.
  assert (∃ o', <[v := mkCell (type_ o) (union_ c)]> (tokens s) !! other = Some o' ∧ union_ o' = union_ o) as (o' & -> & Eo).
  { destruct (decide (other = v)) as [->|Hne].
    - rewrite lookup_insert_eq. eexists. split; [done|]. done.
    - rewrite lookup_insert_ne by done. by exists o. }
  simpl. destruct (IsIntAttributeType (type_ o)) eqn:Ei.
  - assert (get_int o' = Ok (int_attribute_ k)) as -> by (unfold get_int; rewrite Eo; by eapply get_int_shows).
    simpl. rewrite put_put. eexists. split; [done|]. by apply (freed_put_int s).
  - eexists. split; [done|]. apply (freed_put_plain s); [done|done| |done]. unfold plain. by rewrite Ei, Es.
Qed.

(** Filling the string [p] of the token with [x]. *)
Lemma fill_stores s a v c ty p x k :
  stores s a → tokens s !! v = Some c → IsStringAttributeType ty = true → Token.type_ k = ty → string_attribute_ k = x →
  old v s = Some p ∨ (old v s = None ∧ strings s !! p = None) →
  stores (mkState (<[v := mkCell ty (M_string p)]> (tokens s)) (<[p := x]> (strings s)) (Nat.max (S p) (next_string s))) (<[v := k]> a).
Proof.
  intros Hs Hc Hty <- <- Hp. set (c' := mkCell _ _).
  assert (own c' = Some p) as Ho by (unfold own, c'; simpl; by rewrite Hty). apply stores_put; [done|..].
  - intros q _ Hq. rewrite lookup_insert_ne; [done|]. congruence.
  - intros q Hq Hq'. destruct Hp as [Hp|[Hp _]]; congruence.
  - intros q Hq. destruct Hp as [Hp|[_ Hp]]; [left|right]; congruence.
  - intros q [y [[<- _]|[_ Hy]]%lookup_insert_Some]; [lia|]. pose proof (st_fresh _ _ Hs q ltac:(by eexists)). lia.
  - split; [done|]. split; [unfold c'; simpl; by destruct (Token.type_ k)|].
    intros _. exists p. split; [done|]. apply lookup_insert_eq.
Qed.

Lemma token_Assign_stores s a v other k :
  stores s a → is_Some (a !! v) → a !! other = Some k →
  ∃ s', Assign v other s = Ok s' ∧ stores s' (<[v := k]> a).
Proof.
  intros Hs [kv Hv] Hk. destruct (token_stores_cell _ _ _ _ Hs Hk) as (o & Ho & Hsh).
  destruct (token_stores_cell _ _ _ _ Hs Hv) as (c & Hc & Hshv). pose proof Hsh as (Ety & _ & _).
  unfold Assign, change_storage. rewrite Ho. simpl. rewrite Hc. simpl.
  destruct (IsStringAttributeType (type_ c)) eqn:Ec, (IsStringAttributeType (type_ o)) eqn:Eo; simpl.
  - (* the string is kept *)
    destruct (shows_text _ _ _ Hshv Ec) as (p & Hp & Hu & Hx). rewrite Hc. simpl.
    assert (∃ o', <[v := mkCell (type_ o) (union_ c)]> (tokens s) !! other = Some o' ∧ union_ o' = union_ o) as (o' & -> & Eu).
    { destruct (decide (other = v)) as [->|Hne]; [rewrite lookup_insert_eq; eexists; split; [done|]; simpl; congruence|].
      rewrite lookup_insert_ne by done. by exists o. }
    simpl. destruct (IsIntAttributeType (type_ o)) eqn:Ei; [by destruct (type_ o)|].
    assert (text o' (put_cell v (mkCell (type_ o) (union_ c)) s) = Ok (string_attribute_ k)) as ->.
    { unfold text, get_string. rewrite Eu. by apply (text_shows s). }
    simpl. rewrite lookup_insert_eq. simpl. unfold get_string. simpl. rewrite Hu. simpl. unfold assign_string. simpl.
    rewrite Hx. simpl. eexists. split; [done|].
    pose proof (fill_stores s a v c (type_ o) p _ k Hs Hc Eo (eq_sym Ety) eq_refl) as Hfill.
    rewrite Nat.max_r in Hfill by (apply (st_fresh _ _ Hs); by eexists). apply Hfill. left. unfold old. by rewrite Hc.
  - (* the string is deleted *)
    destruct (FreeMemory_stores _ _ _ _ Hs Hv) as (s1 & E1 & Hf). unfold FreeMemory in E1. rewrite Hc in E1. simpl in E1.
    rewrite Ec in E1. rewrite E1. simpl. rewrite (proj1 Hf), Hc. simpl.
    eapply (assign_plain s a v other k s1 c o (union_ c)); try done; [by rewrite (proj1 Hf)|].
    rewrite decide_False; [done|]. intros ->. congruence.
  - (* a new string *)
    destruct (IsIntAttributeType (type_ o)) eqn:Ei; [by destruct (type_ o)|].
    assert (other ≠ v) as Hne by (intros ->; congruence). pose proof (next_unused _ _ Hs) as Hfresh.
    rewrite lookup_insert_eq. simpl. rewrite !insert_insert_eq, (lookup_insert_ne _ v other), Ho by done. simpl.
    set (s2 := put_cell v _ _). assert (text o s2 = Ok (string_attribute_ k)) as ->.
    { apply text_shows; [|done]. eapply token_shows_frame; [done|]. intros q Hq. simpl. apply lookup_insert_ne. intros <-.
      destruct (shows_own _ _ _ _ Hsh Hq). congruence. }
    simpl. rewrite lookup_insert_eq. simpl. unfold assign_string. simpl. rewrite lookup_insert_eq. simpl.
    eexists. split; [done|]. rewrite !insert_insert_eq.
    pose proof (fill_stores s a v c (type_ o) (next_string s) _ k Hs Hc Eo (eq_sym Ety) eq_refl) as Hfill.
    rewrite Nat.max_l in Hfill by lia. apply Hfill. right. split; [|done]. unfold old. rewrite Hc. simpl. unfold own. by rewrite Ec.
  - (* no strings *)
    rewrite Hc. simpl. eapply (assign_plain s a v other k s c o (union_ c)); try done.
    + split_and!; [done..|]. intros p. rewrite decide_False; [done|]. unfold old. rewrite Hc. simpl. unfold own. by rewrite Ec.
    + case_decide as E; [|done]. subst. congruence.
Qed.

Lemma token_Destroy_stores s a v :
  stores s a → is_Some (a !! v) → ∃ s', Destroy v s = Ok s' ∧ stores s' (delete v a).
Proof.
  intros Hs [k Hv]. destruct (FreeMemory_stores _ _ _ _ Hs Hv) as (s1 & E1 & Ht & Hn & Hstr). unfold Destroy. rewrite E1. simpl.
  eexists. split; [done|]. rewrite Ht, Hn.
  assert (∀ w c p, w ≠ v → tokens s !! w = Some c → own c = Some p → strings s1 !! p = strings s !! p) as Hother.
  { intros w c p Hw Hc Hp. rewrite Hstr, decide_False; [done|]. by apply (other_strings s a v w c). }
  split; simpl.
  - intros w. destruct (decide (w = v)) as [->|Hw]; [rewrite !lookup_delete_eq; constructor|].
    rewrite !lookup_delete_ne by done. pose proof (st_shows _ _ Hs w) as Hsh. inversion Hsh as [c x Hc E2 E3|]; constructor.
    eapply token_shows_frame; [done|]. intros p. by apply (Hother w).
  - intros w1 w2 d1 d2 p [? H1]%lookup_delete_Some [? H2]%lookup_delete_Some. by eapply st_unique.
  - intros p. rewrite Hstr. case_decide as Ho; [by intros []|]. intros Hp.
    destruct (st_no_leak _ _ Hs p Hp) as (w & c & Hw & Hc). exists w, c. split; [|done].
    rewrite lookup_delete_ne; [done|]. intros <-. apply Ho. unfold old. by rewrite Hw.
  - intros p. rewrite Hstr. case_decide; [by intros []|]. by apply (st_fresh _ _ Hs).
Qed.

(** ** Sequences of operations *)
Inductive op :=
| ONew (v : nat)
| OCopy (v other : nat)
| OAssign (v other : nat)
| OOther (v : nat) (ty : Type_)
| OInt (v : nat) (n : Z)
| OString (v : nat) (r : string_ref)
| OIdentifier (v : nat) (r : string_ref)
| ODestroy (v : nat).

Definition step (s : state) (o : op) : res state :=
  match o with
  | ONew v => New v s
  | OCopy v other => Copy v other s
  | OAssign v other => Assign v other s
  | OOther v ty => CreateOther v ty s
  | OInt v n => CreateIntLiteral v n s
  | OString v r => CreateStringLiteral v r s
  | OIdentifier v r => CreateIdentifier v r s
  | ODestroy v => Destroy v s
  end.

(** The same on plain tokens; [None] if the operation is not on tokens that exist,
    constructs one that does, or has the token's own string as its argument. *)
Definition spec_step (a : gmap nat Token.t) (o : op) : option (gmap nat Token.t) :=
  match o with
  | ONew v => match a !! v with None => Some (<[v := Token.CreateOther UNINITIALIZED]> a) | Some _ => None end
  | OCopy v other => match a !! v with None => k ← a !! other; Some (<[v := k]> a) | Some _ => None end
  | OAssign v other => k ← a !! other; set_existing v k a
  | OOther v ty => if plain ty then set_existing v (Token.CreateOther ty) a else None
  | OInt v n => set_existing v (Token.CreateIntLiteral n) a
  | OString v r => x ← ref_text v r a; set_existing v (Token.CreateStringLiteral x) a
  | OIdentifier v r => x ← ref_text v r a; set_existing v (Token.CreateIdentifier x) a
  | ODestroy v => _ ← a !! v; Some (delete v a)
  end.

Fixpoint spec_run (a : gmap nat Token.t) (ops : list op) : option (gmap nat Token.t) :=
  match ops with [] => Some a | o :: ops => a ← spec_step a o; spec_run a ops end.


Lemma token_step_stores s a o a' :
  stores s a → spec_step a o = Some a' → ∃ s', step s o = Ok s' ∧ stores s' a'.
Proof.
  intros Hs. destruct o; simpl.
  - destruct (a !! v) eqn:E; [done|]. intros [= <-]. by apply token_New_stores.
  - destruct (a !! v) eqn:E; [done|]. intros (k & Hk & [= <-])%bind_Some. by apply token_Copy_stores.
  - intros (k & Hk & [Hv ->]%set_existing_Some)%bind_Some. by apply token_Assign_stores.
  - destruct (plain ty) eqn:E; [|done]. intros [Hv ->]%set_existing_Some. by apply CreateOther_stores.
  - intros [Hv ->]%set_existing_Some. by apply CreateIntLiteral_stores.
  - intros (x & Hx & [Hv ->]%set_existing_Some)%bind_Some. by apply (create_text_stores s a v STRING_LITERAL r x).
  - intros (x & Hx & [Hv ->]%set_existing_Some)%bind_Some. by apply (create_text_stores s a v IDENTIFIER r x).
  - intros (k & Hk & [= <-])%bind_Some. by apply token_Destroy_stores.
Qed.

Lemma token_run_stores s a ops a' :
  stores s a → spec_run a ops = Some a' → ∃ s', foldM step s ops = Ok s' ∧ stores s' a'.
Proof.
  revert s a. induction ops as [|o ops IH]; intros s a Hs; simpl; [intros [= <-]; eauto|].
  intros (a1 & H1 & H2)%bind_Some. destruct (token_step_stores s a o a1 Hs H1) as (s1 & -> & Hs1). simpl. eauto.
Qed.

Lemma token_stores_empty : stores empty_state ∅.
Proof. split; simpl; intros *; rewrite ?lookup_empty; try (by intros []); try done. constructor. Qed.

Lemma token_getters_stores s a v k :
  stores s a → a !! v = Some k →
  int_literal v s = Token.int_literal k ∧ string_literal v s = Token.string_literal k ∧ identifier v s = Token.identifier k.
Proof.
  intros Hs Hk. destruct (token_stores_cell _ _ _ _ Hs Hk) as (c & Hc & Hsh). pose proof Hsh as (Ety & _ & _).
  unfold int_literal, string_literal, identifier, Token.int_literal, Token.string_literal, Token.identifier.
  rewrite Hc. simpl. rewrite <- Ety. split_and!; case_bool_decide as E; try done; simpl.
  - eapply get_int_shows; [done|]. by rewrite E.
  - eapply text_shows; [done|]. by rewrite E.
  - eapply text_shows; [done|]. by rewrite E.
Qed.

Lemma equal_stores s a v w k l :
  stores s a → a !! v = Some k → a !! w = Some l → equal v w s = Ok (Token.eqb k l).
Proof.
  intros Hs Hk Hl. destruct (token_stores_cell _ _ _ _ Hs Hk) as (c & Hc & Hshc). destruct (token_stores_cell _ _ _ _ Hs Hl) as (d & Hd & Hshd).
  pose proof Hshc as (Ec & _ & _). pose proof Hshd as (Ed & _ & _). unfold equal, Token.eqb. rewrite Hc, Hd. simpl.
  rewrite Ec, Ed. case_bool_decide as E; [|done]. simpl. rewrite <- Ec in *. rewrite <- Ed in E.
  destruct (IsIntAttributeType (type_ c)) eqn:Ei; [|destruct (IsStringAttributeType (type_ c)) eqn:Es; [|done]].
  - rewrite (get_int_shows _ _ _ Hshc Ei), (get_int_shows _ _ _ Hshd) by (by rewrite <- E). simpl.
    destruct (IsStringAttributeType (type_ c)) eqn:Es; [by destruct (type_ c)|]. rewrite andb_true_r. f_equal.
    destruct (Z.eqb_spec (int_attribute_ k) (int_attribute_ l)); [by apply bool_decide_eq_true_2|by apply bool_decide_eq_false_2].
  - rewrite (text_shows _ _ _ Hshc Es), (text_shows _ _ _ Hshd) by (by rewrite <- E). done.
Qed.

Lemma token_no_leak s a : stores s a → a = ∅ → strings s = ∅.
Proof.
  intros Hs ->. apply map_empty. intros p. apply eq_None_not_Some. intros Hp.
  destruct (st_no_leak _ _ Hs p Hp) as (v & c & Hv & _). destruct (stores_lookup _ _ _ _ Hs Hv) as (k & Hk & _). done.
Qed.
End TokenStorage.

(** Any sequence of constructions, copies, assignments (also of a token to itself),
    [Create...] calls and destructions of tokens that exist has defined behaviour on
    the storage; the getters and [operator==] then return what they return on plain
    tokens; and when every token has been destroyed every string has been deleted. *)
Theorem token_storage_refines (ops : list TokenStorage.op) (a : gmap nat Token.t) :
  TokenStorage.spec_run ∅ ops = Some a →
  ∃ s, foldM TokenStorage.step TokenStorage.empty_state ops = Ok s ∧
    (∀ v k, a !! v = Some k →
       TokenStorage.int_literal v s = Token.int_literal k ∧ TokenStorage.string_literal v s = Token.string_literal k ∧
       TokenStorage.identifier v s = Token.identifier k) ∧
    (∀ v w k l, a !! v = Some k → a !! w = Some l → TokenStorage.equal v w s = Ok (Token.eqb k l)) ∧
    (a = ∅ → TokenStorage.strings s = ∅).
Proof.
  intros Hrun. destruct (TokenStorage.token_run_stores _ _ _ _ TokenStorage.token_stores_empty Hrun) as (s & Hs & Hst).
  exists s. split_and!; [done|by intros; eapply TokenStorage.token_getters_stores|by intros; eapply TokenStorage.equal_stores|].
  by apply TokenStorage.token_no_leak.
Qed.

Definition sample_token_ops : list TokenStorage.op :=
  [TokenStorage.ONew 0; TokenStorage.OIdentifier 0 (TokenStorage.Elsewhere "ab"); TokenStorage.OCopy 1 0;
   TokenStorage.OInt 1 7; TokenStorage.OAssign 1 0; TokenStorage.OAssign 1 1; TokenStorage.OOther 0 Token.END_LIST;
   TokenStorage.OString 0 (TokenStorage.OwnedBy 1)].

Lemma token_storage_refines_witness :
  ∃ s, foldM TokenStorage.step TokenStorage.empty_state sample_token_ops = Ok s ∧
    TokenStorage.identifier 1 s = Ok "ab"%string ∧ TokenStorage.equal 0 1 s = Ok false.
Proof.
  destruct (token_storage_refines sample_token_ops
    {[0 := Token.CreateStringLiteral "ab"; 1 := Token.CreateIdentifier "ab"]}) as (s & Hs & Hget & Heq & _); [by vm_compute|].
  exists s. split_and!; [done|by apply (Hget 1 (Token.CreateIdentifier "ab"))|].
  by apply (Heq 0 1 (Token.CreateStringLiteral "ab") (Token.CreateIdentifier "ab")).
Defined.

(** The argument must not be the token's own string: it is freed before it is
    copied.  (A [Value] keeps its string, so there the same call is defined.) *)
Example own_string_is_freed_first :
  foldM TokenStorage.step TokenStorage.empty_state
    [TokenStorage.ONew 0; TokenStorage.OIdentifier 0 (TokenStorage.Elsewhere "ab");
     TokenStorage.OString 0 (TokenStorage.OwnedBy 0)] = Undef.
Proof. reflexivity. Qed.
