(* ===== verification/ToyParser.v ===== *)
(** * The toy language: expressions, symbols and the parser

    [toy_lang/expression.cc] (all but the evaluation), [toy_lang/symbol_table.cc],
    [toy_lang/parser.cc], [toy_lang/get_serialized_expression_type.cc] and the
    symbols that [toy_lang/run_toy_lang_program.cc] declares.

    The parser is written over the interface [TokenSource] of the lexer.  Its
    recursion has fuel; [parse_file_terminates] says how much is enough. *)
From S2P Require Import Prelude Text Values ToyLexer.
From stdpp Require Import base tactics list strings gmap.
From Stdlib Require Import ZArith Lia Ascii.
#[local] Open Scope string_scope.
#[local] Open Scope Z_scope.

(** ** Expressions *)
#[local] Unset Elimination Schemes.
Inductive Expression :=
| IntExpression (n_ : Z)
| StringExpression (s_ : string)
| SymbolExpression (symbol_id_ : Z)
| BlockExpression (expression_ : Expression) (parameter_symbol_ids_ local_symbol_ids_ : list Z)
| FunctionCallExpression (function_ : Expression) (parameters_ : list Expression)
| ListExpression (list_items_ : list Expression).

(** The constructor of SymbolExpression. *)
Definition NewSymbolExpression (symbol_id : Z) : res Expression :=
  _ ← CHECK (0 <=? symbol_id); Ok (SymbolExpression symbol_id).

Section expression_ind.
Context (P : Expression → Prop).
Context (HInt : ∀ n, P (IntExpression n)) (HString : ∀ s, P (StringExpression s)).
Context (HSymbol : ∀ i, P (SymbolExpression i)).
Context (HBlock : ∀ e ps ls, P e → P (BlockExpression e ps ls)).
Context (HCall : ∀ f ps, P f → Forall P ps → P (FunctionCallExpression f ps)).
Context (HList : ∀ es, Forall P es → P (ListExpression es)).

(** Induction with the expressions in lists. *)
Fixpoint Expression_ind' (e : Expression) : P e :=
  let go := fix go (es : list Expression) : Forall P es :=
    match es with
    | [] => Forall_nil_2 P
    | x :: es' => Forall_cons_2 P x es' (Expression_ind' x) (go es')
    end in
  match e with
  | IntExpression n => HInt n
  | StringExpression s => HString s
  | SymbolExpression i => HSymbol i
  | BlockExpression x ps ls => HBlock x ps ls (Expression_ind' x)
  | FunctionCallExpression f ps => HCall f ps (Expression_ind' f) (go ps)
  | ListExpression es => HList es (go es)
  end.
End expression_ind.

(** ** Their wire form: a message of which exactly one field must be set *)
Inductive ExpressionProto := mkExpressionProto {
  int_expression : option Z;
  string_expression : option string;
  symbol_expression : option Z;
  block_expression : option (ExpressionProto * list Z * list Z);
  function_call_expression : option (ExpressionProto * list ExpressionProto);
  list_expression : option (list ExpressionProto);
}.

#[local] Set Elimination Schemes.

Module ExpressionType.
Inductive t := UNKNOWN | INT | STRING | SYMBOL | BLOCK | FUNCTION_CALL | LIST.
#[global] Instance t_eq_dec : EqDecision t.
Proof. solve_decision. Defined.
End ExpressionType.

Definition GetSerializedExpressionType (p : ExpressionProto) : res ExpressionType.t :=
  GetFieldType ExpressionType.UNKNOWN
    [(bool_decide (is_Some (int_expression p)), ExpressionType.INT);
     (bool_decide (is_Some (string_expression p)), ExpressionType.STRING);
     (bool_decide (is_Some (symbol_expression p)), ExpressionType.SYMBOL);
     (bool_decide (is_Some (block_expression p)), ExpressionType.BLOCK);
     (bool_decide (is_Some (function_call_expression p)), ExpressionType.FUNCTION_CALL);
     (bool_decide (is_Some (list_expression p)), ExpressionType.LIST)].

(** [PopulateExpressionProto] of each class, given the messages of the expressions
    it contains. *)
Definition IntExpression_PopulateExpressionProto (n : Z) : ExpressionProto :=
  mkExpressionProto (Some n) None None None None None.
Definition StringExpression_PopulateExpressionProto (s : string) : ExpressionProto :=
  mkExpressionProto None (Some s) None None None None.
Definition SymbolExpression_PopulateExpressionProto (symbol_id : Z) : ExpressionProto :=
  mkExpressionProto None None (Some symbol_id) None None None.
Definition BlockExpression_PopulateExpressionProto (expression : ExpressionProto)
    (parameter_symbol_ids local_symbol_ids : list Z) : ExpressionProto :=
  mkExpressionProto None None None (Some (expression, parameter_symbol_ids, local_symbol_ids)) None None.
Definition FunctionCallExpression_PopulateExpressionProto (function : ExpressionProto)
    (parameters : list ExpressionProto) : ExpressionProto :=
  mkExpressionProto None None None None (Some (function, parameters)) None.
Definition ListExpression_PopulateExpressionProto (list_items : list ExpressionProto) : ExpressionProto :=
  mkExpressionProto None None None None None (Some list_items).

(** The virtual call. *)
Fixpoint PopulateExpressionProto (e : Expression) : ExpressionProto :=
  match e with
  | IntExpression n => IntExpression_PopulateExpressionProto n
  | StringExpression s => StringExpression_PopulateExpressionProto s
  | SymbolExpression i => SymbolExpression_PopulateExpressionProto i
  | BlockExpression x ps ls => BlockExpression_PopulateExpressionProto (PopulateExpressionProto x) ps ls
  | FunctionCallExpression f ps =>
      FunctionCallExpression_PopulateExpressionProto (PopulateExpressionProto f) (map PopulateExpressionProto ps)
  | ListExpression es => ListExpression_PopulateExpressionProto (map PopulateExpressionProto es)
  end.

(** The parsers of the classes, given the outcome for the expressions contained.
    The ids are [int64] on the wire and become [int]s. *)
Definition ParseIntExpressionProto (n : option Z) : res Expression := Ok (IntExpression (default 0 n)).
Definition ParseStringExpressionProto (s : option string) : res Expression :=
  Ok (StringExpression (default "" s)).
Definition ParseSymbolExpressionProto (symbol_id : option Z) : res Expression :=
  NewSymbolExpression (int32_of (default 0 symbol_id)).
Definition ParseBlockExpressionProto (expression : res Expression)
    (parameter_symbol_ids local_symbol_ids : list Z) : res Expression :=
  e ← expression;
  Ok (BlockExpression e (int32_of <$> parameter_symbol_ids) (int32_of <$> local_symbol_ids)).
Definition ParseFunctionCallExpressionProto (function : res Expression)
    (parameters : list (res Expression)) : res Expression :=
  e ← function; es ← mapR id parameters; Ok (FunctionCallExpression e es).
Definition ParseListExpressionProto (list_items : list (res Expression)) : res Expression :=
  es ← mapR id list_items; Ok (ListExpression es).

Fixpoint ParseExpressionProto (p : ExpressionProto) : res Expression :=
  ty ← GetSerializedExpressionType p;
  let 'mkExpressionProto i s y b f l := p in
  match ty with
  | ExpressionType.INT => ParseIntExpressionProto i
  | ExpressionType.STRING => ParseStringExpressionProto s
  | ExpressionType.SYMBOL => ParseSymbolExpressionProto y
  | ExpressionType.BLOCK =>
      match b with
      | Some (x, ps, ls) => ParseBlockExpressionProto (ParseExpressionProto x) ps ls
      | None => Fatal
      end
  | ExpressionType.FUNCTION_CALL =>
      match f with
      | Some (x, ps) => ParseFunctionCallExpressionProto (ParseExpressionProto x) (map ParseExpressionProto ps)
      | None => Fatal
      end
  | ExpressionType.LIST =>
      match l with
      | Some es => ParseListExpressionProto (map ParseExpressionProto es)
      | None => Fatal
      end
  | ExpressionType.UNKNOWN => Fatal
  end.

(** [DebugString] of each class; [%s] of a C string. *)
Definition FunctionCallExpression_DebugString (function : string) (parameters : list string) : string :=
  "(" ++ c_str function ++ String.concat "" (map (fun p => " " ++ c_str p) parameters) ++ ")".
Definition ListExpression_DebugString (list_items : list string) : string :=
  "[" ++ String.concat " " (map c_str list_items) ++ "]".

Fixpoint DebugString (e : Expression) : string :=
  match e with
  | IntExpression n => printf_d n
  | StringExpression s => str1 Lexer.quote ++ c_str (CEscape s) ++ str1 Lexer.quote
  | SymbolExpression i => "@" ++ printf_d i
  | BlockExpression x _ _ => "{" ++ c_str (DebugString x) ++ "}"
  | FunctionCallExpression f ps => FunctionCallExpression_DebugString (DebugString f) (map DebugString ps)
  | ListExpression es => ListExpression_DebugString (map DebugString es)
  end.

(** ** Symbols *)
Module SymbolTable.

Record Scope := mkScope {
  symbol_map : gmap string Z;
  parameter_symbol_ids : list Z;
  local_symbol_ids : list Z;
}.

Record ExternalSymbol := mkExternal { symbol_id : Z; visible : bool }.

(** The innermost scope, [scopes_.back()], is the head of the list. *)
Record t := mk {
  scopes_ : list Scope;
  external_symbol_map_ : gmap string ExternalSymbol;
  next_symbol_id_ : Z;
}.

Definition New : t := mk [] ∅ 1.

Definition set_scopes x s := mk x (external_symbol_map_ s) (next_symbol_id_ s).

Definition GetNextSymbolId (s : t) : res (Z * t) :=
  next ← add32 (next_symbol_id_ s) 1;
  Ok (next_symbol_id_ s, mk (scopes_ s) (external_symbol_map_ s) next).

Definition CreateSymbol (symbol_name : string) (s : t) : res (Z * t) :=
  match scopes_ s with
  | [] => Fatal
  | _ =>
      _ ← CHECK (negb (bool_decide (symbol_name = "")));
      '(symbol_id, s) ← GetNextSymbolId s;
      match scopes_ s with
      | [] => Fatal
      | sc :: rest =>
          _ ← CHECK (bool_decide (symbol_map sc !! symbol_name = None));
          Ok (symbol_id, set_scopes (mkScope (<[symbol_name := symbol_id]> (symbol_map sc))
                           (parameter_symbol_ids sc) (local_symbol_ids sc) :: rest) s)
      end
  end.

(** The vectors of the innermost scope. *)
Definition push_parameter (symbol_id : Z) (s : t) : t :=
  match scopes_ s with
  | [] => s
  | sc :: rest =>
      set_scopes (mkScope (symbol_map sc) (parameter_symbol_ids sc ++ [symbol_id])
                    (local_symbol_ids sc) :: rest) s
  end.
Definition push_local (symbol_id : Z) (s : t) : t :=
  match scopes_ s with
  | [] => s
  | sc :: rest =>
      set_scopes (mkScope (symbol_map sc) (parameter_symbol_ids sc)
                    (local_symbol_ids sc ++ [symbol_id]) :: rest) s
  end.

Definition EnterScope (parameter_names : list string) (s : t) : res t :=
  foldM (fun s parameter_name =>
           '(symbol_id, s) ← CreateSymbol parameter_name s; Ok (push_parameter symbol_id s))
    (set_scopes (mkScope ∅ [] [] :: scopes_ s) s) parameter_names.

(** The parameters and the local variables of the scope. *)
Definition LeaveScope (s : t) : res (list Z * list Z * t) :=
  match scopes_ s with
  | [] => Fatal
  | sc :: rest => Ok (parameter_symbol_ids sc, local_symbol_ids sc, set_scopes rest s)
  end.

(** The loop over the scopes, from the innermost one. *)
Fixpoint find_in_scopes (scopes : list Scope) (symbol_name : string) : option Z :=
  match scopes with
  | [] => None
  | sc :: rest =>
      match symbol_map sc !! symbol_name with
      | Some id => Some id
      | None => find_in_scopes rest symbol_name
      end
  end.

Definition find_external (symbol_name : string) (visible_ : bool) (s : t) : option Z :=
  match external_symbol_map_ s !! symbol_name with
  | Some x => if Bool.eqb (visible x) visible_ then Some (symbol_id x) else None
  | None => None
  end.

Definition PrivateGetSymbolId (symbol_name : string) (visible_ : bool) (s : t) : option Z :=
  match (if visible_ then find_in_scopes (scopes_ s) symbol_name else None) with
  | Some id => Some id
  | None => find_external symbol_name visible_ s
  end.

Definition GetSymbolId (symbol_name : string) (visible_ : bool) (s : t) : res Z :=
  check_some (PrivateGetSymbolId symbol_name visible_ s).

Definition GetLocalVariable (symbol_name : string) (s : t) : res (Z * t) :=
  match PrivateGetSymbolId symbol_name true s with
  | Some id => Ok (id, s)
  | None => '(id, s) ← CreateSymbol symbol_name s; Ok (id, push_local id s)
  end.

Definition AddExternalSymbol (symbol_name : string) (visible_ : bool) (s : t) : res (Z * t) :=
  _ ← CHECK (negb (bool_decide (symbol_name = "")));
  '(id, s) ← GetNextSymbolId s;
  _ ← CHECK (bool_decide (external_symbol_map_ s !! symbol_name = None));
  Ok (id, mk (scopes_ s) (<[symbol_name := mkExternal id visible_]> (external_symbol_map_ s))
            (next_symbol_id_ s)).

Definition GetExternalSymbolIds (s : t) : gmap string Z := symbol_id <$> external_symbol_map_ s.

End SymbolTable.

(** ** The parser *)
Module Parser.
Section parser.
Context {L : Type} `{TokenSource L}.

(** The state of a parse: the token source and the symbol table.  [None] means
    that the fuel has run out. *)
Definition state : Type := L * SymbolTable.t.
Definition PS (A : Type) : Type := state → option (res (A * state)).

#[global] Instance PS_ret : MRet PS := fun A a s => Some (Ok (a, s)).
#[global] Instance PS_bind : MBind PS := fun A B f m s =>
  match m s with
  | Some (Ok (a, s')) => f a s'
  | Some Fatal => Some Fatal
  | Some Undef => Some Undef
  | None => None
  end.

Definition lexer {A} (f : L → res (A * L)) : PS A := fun s =>
  Some ('(a, l) ← f s.1; Ok (a, (l, s.2))).
Definition symbol_table {A} (f : SymbolTable.t → res (A * SymbolTable.t)) : PS A := fun s =>
  Some ('(a, t) ← f s.2; Ok (a, (s.1, t))).
Definition lift {A} (r : res A) : PS A := fun s => Some (a ← r; Ok (a, s)).
Definition no_fuel {A} : PS A := fun _ => None.

Definition GetSymbolId (name : string) (visible : bool) : PS Z :=
  symbol_table (fun t => id ← SymbolTable.GetSymbolId name visible t; Ok (id, t)).

(** [CHECK_EQ(lexer_->GetNextTokenType(), ty)]. *)
Definition expect (ty : Token.Type_) : PS unit :=
  ty' ← lexer ts_get_next_type; lift (CHECK (bool_decide (ty' = ty))).

(** [new SymbolExpression(symbol_table_->GetSymbolId(name, visible))]. *)
Definition symbol_expression (name : string) (visible : bool) : PS Expression :=
  id ← GetSymbolId name visible; lift (NewSymbolExpression id).

Definition ParseIntLiteral : PS Expression :=
  token ← lexer ts_get_next; n ← lift (Token.int_literal token); mret (IntExpression n).

Definition ParseStringLiteral : PS Expression :=
  token ← lexer ts_get_next; s ← lift (Token.string_literal token); mret (StringExpression s).

Definition ParseIdentifier : PS Expression :=
  token ← lexer ts_get_next;
  function_expression ← symbol_expression "get" false;
  name ← lift (Token.identifier token);
  variable_expression ← symbol_expression name true;
  mret (FunctionCallExpression function_expression [variable_expression]).

Definition EnterScope (parameter_names : list string) : PS unit :=
  symbol_table (fun t => t ← SymbolTable.EnterScope parameter_names t; Ok (tt, t)).

Definition LeaveScope (expression : Expression) : PS Expression :=
  '(ps, ls) ← symbol_table (fun t => '(ps, ls, t) ← SymbolTable.LeaveScope t; Ok ((ps, ls), t));
  mret (BlockExpression expression ps ls).

(** The functions that call [ParseExpression], given here as [parse]; [fuel]
    bounds the number of iterations of a loop. *)
Section recursion.
Context (parse : PS Expression).

Fixpoint ParseExpressionList (fuel : nat) (end_token_type : Token.Type_) : PS (list Expression) :=
  match fuel with
  | O => no_fuel
  | S fuel =>
      ty ← lexer ts_peek_type;
      if bool_decide (ty = end_token_type) then mret []
      else
        e ← parse;
        es ← ParseExpressionList fuel end_token_type;
        mret (e :: es)
  end.

Definition ParseFunctionCall (fuel : nat) : PS Expression :=
  function ← parse;
  parameters ← ParseExpressionList fuel Token.END_EXPRESSION;
  mret (FunctionCallExpression function parameters).

Definition ParseBlock (fuel : nat) (parameter_names : list string) : PS Expression :=
  _ ← expect Token.BEGIN_BLOCK;
  _ ← EnterScope parameter_names;
  expressions ← ParseExpressionList fuel Token.END_BLOCK;
  block_expression ← LeaveScope (ListExpression expressions);
  _ ← expect Token.END_BLOCK;
  mret block_expression.

Definition ParseList (fuel : nat) : PS Expression :=
  _ ← expect Token.BEGIN_LIST;
  list_items ← ParseExpressionList fuel Token.END_LIST;
  _ ← expect Token.END_LIST;
  mret (ListExpression list_items).

Definition ParseForStatement (fuel : nat) : PS Expression :=
  _ ← expect Token.FOR_KEYWORD;
  identifier_token ← lexer ts_get_next;
  identifier ← lift (Token.identifier identifier_token);
  range_expression ← parse;
  block_expression ← ParseBlock fuel [identifier];
  function_expression ← symbol_expression "for" false;
  mret (FunctionCallExpression function_expression [range_expression; block_expression]).

Definition ParseSetStatement : PS Expression :=
  _ ← expect Token.SET_KEYWORD;
  identifier_token ← lexer ts_get_next;
  identifier ← lift (Token.identifier identifier_token);
  rhs_expression ← parse;
  symbol_id ← symbol_table (SymbolTable.GetLocalVariable identifier);
  variable_expression ← lift (NewSymbolExpression symbol_id);
  function_expression ← symbol_expression "set" false;
  mret (FunctionCallExpression function_expression [variable_expression; rhs_expression]).

Definition ParseWhileStatement (fuel : nat) : PS Expression :=
  _ ← expect Token.WHILE_KEYWORD;
  _ ← EnterScope [];
  condition_expression ← parse;
  condition_block_expression ← LeaveScope condition_expression;
  code_block_expression ← ParseBlock fuel [];
  function_expression ← symbol_expression "while" false;
  mret (FunctionCallExpression function_expression [condition_block_expression; code_block_expression]).

Definition ParseStatement (fuel : nat) : PS Expression :=
  _ ← expect Token.BEGIN_EXPRESSION;
  ty ← lexer ts_peek_type;
  expression ←
    match ty with
    | Token.FOR_KEYWORD => ParseForStatement fuel
    | Token.SET_KEYWORD => ParseSetStatement
    | Token.WHILE_KEYWORD => ParseWhileStatement fuel
    | _ => ParseFunctionCall fuel
    end;
  _ ← expect Token.END_EXPRESSION;
  mret expression.

End recursion.

Fixpoint ParseExpression (fuel : nat) : PS Expression :=
  match fuel with
  | O => no_fuel
  | S fuel =>
      token_type ← lexer ts_peek_type;
      match token_type with
      | Token.INT_LITERAL => ParseIntLiteral
      | Token.STRING_LITERAL => ParseStringLiteral
      | Token.IDENTIFIER => ParseIdentifier
      | Token.BEGIN_EXPRESSION => ParseStatement (ParseExpression fuel) fuel
      | Token.BEGIN_BLOCK => ParseBlock (ParseExpression fuel) fuel []
      | Token.BEGIN_LIST => ParseList (ParseExpression fuel) fuel
      | _ => lift Fatal
      end
  end.

(** The loop of [ParseFile]. *)
Fixpoint parse_items (fuel : nat) : PS (list Expression) :=
  match fuel with
  | O => no_fuel
  | S fuel =>
      b ← lexer ts_has_next;
      if (b : bool) then
        e ← ParseExpression fuel;
        es ← parse_items fuel;
        mret (e :: es)
      else mret []
  end.

Definition ParseFile (fuel : nat) : PS Expression :=
  _ ← EnterScope [];
  list_items ← parse_items fuel;
  LeaveScope (ListExpression list_items).

End parser.
Arguments state : clear implicits.
Arguments PS : clear implicits.
End Parser.

(** ** The symbols of a program ([RunToyLangFile]) *)
Definition external_symbols : list (string * bool) :=
  [("get", false); ("set", false); ("for", false); ("while", false);
   ("false", true); ("true", true); ("list", true); ("range", true); ("print", true);
   ("add", true); ("begin_tran", true); ("end_tran", true); ("if", true); ("not", true);
   ("lt", true); ("len", true); ("list.append", true); ("list.get", true);
   ("map.is_set", true); ("map.get", true); ("map.set", true); ("shared", true)].

Definition program_symbol_table : res SymbolTable.t :=
  foldM (fun s x => '(_, s) ← SymbolTable.AddExternalSymbol x.1 x.2 s; Ok s)
    SymbolTable.New external_symbols.

(** Enough fuel for a file: every character ends at most two tokens. *)
Definition file_fuel (file : string) : nat := 2 * String.length file + 3.

(** From the text to the expression and the external symbols of the program. *)
Definition parse_program (file : string) : option (res (Expression * gmap string Z)) :=
  match program_symbol_table with
  | Ok t =>
      match Parser.ParseFile (file_fuel file) (Lexer.New file, t) with
      | Some (Ok (e, (_, t))) => Some (Ok (e, SymbolTable.GetExternalSymbolIds t))
      | Some Fatal => Some Fatal
      | Some Undef => Some Undef
      | None => None
      end
  | Fatal => Some Fatal
  | Undef => Some Undef
  end.

Example parse_example :
  match parse_program "(set x 5) (print x { [ true ] })" with
  | Some (Ok (e, _)) => Some e
  | _ => None
  end =
  Some (BlockExpression (ListExpression
    [FunctionCallExpression (SymbolExpression 2) [SymbolExpression 23; IntExpression 5];
     FunctionCallExpression (FunctionCallExpression (SymbolExpression 1) [SymbolExpression 9])
       [FunctionCallExpression (SymbolExpression 1) [SymbolExpression 23];
        BlockExpression (ListExpression [ListExpression
          [FunctionCallExpression (SymbolExpression 1) [SymbolExpression 6]]]) [] []]]) [] [23]).
Proof. vm_compute. reflexivity. Qed.

(** ** Expressions survive the wire *)
Fixpoint expression_ok (e : Expression) : Prop :=
  match e with
  | IntExpression _ | StringExpression _ => True
  | SymbolExpression i => 0 ≤ i < 2 ^ 31
  | BlockExpression x ps ls => expression_ok x ∧ Forall is_int32 ps ∧ Forall is_int32 ls
  | FunctionCallExpression f ps => expression_ok f ∧ foldr (fun x P => expression_ok x ∧ P) True ps
  | ListExpression es => foldr (fun x P => expression_ok x ∧ P) True es
  end.

Lemma int32_list l : Forall is_int32 l → int32_of <$> l = l.
Proof. induction 1; csimpl; [done|]. by rewrite int32_of_id, IHForall. Qed.

(** An expression is parsed back from its wire form, when its symbols are what an
    [int] can hold, which those of the parser are. *)
Lemma expression_proto_roundtrip e :
  expression_ok e → ParseExpressionProto (PopulateExpressionProto e) = Ok e.
Proof.
  assert (∀ es, Forall (fun e => expression_ok e → ParseExpressionProto (PopulateExpressionProto e) = Ok e) es →
    foldr (fun x P => expression_ok x ∧ P) True es →
    mapR id (map ParseExpressionProto (map PopulateExpressionProto es)) = Ok es) as Hlist.
  { intros es HF. induction HF as [|x es Hx _ IH]; simpl; [done|]. intros [H1 H2].
    rewrite Hx, IH by done. done. }
  induction e as [n|s|i|x ps ls IHx|f ps IHf IHps|es IHes] using Expression_ind'; simpl; try done.
  - intros Hi. unfold ParseSymbolExpressionProto. simpl.
    rewrite int32_of_id by (unfold is_int32; lia). unfold NewSymbolExpression.
    by rewrite (proj2 (Z.leb_le 0 i)) by lia.
  - intros (Hx & Hp & Hl). unfold ParseBlockExpressionProto. rewrite IHx by done. simpl. by rewrite !int32_list.
  - intros [Hf Hp]. unfold ParseFunctionCallExpressionProto. rewrite IHf by done. simpl. by rewrite Hlist.
  - intros He. unfold ParseListExpressionProto. by rewrite Hlist.
Qed.

(** ** Reasoning about parsers *)
Section wp.
Context {L : Type} `{TokenSource L}.
Import Parser.

(** If [m] returns then [Q] holds of the result, and if [total] it does not run
    out of fuel. *)
Definition wp (total : bool) {A} (m : PS L A) (Q : A → state L → Prop) (s : state L) : Prop :=
  match m s with
  | Some (Ok (a, s')) => Q a s'
  | Some _ => True
  | None => total = false
  end.

Lemma ps_wp_bind total {A B} (m : PS L A) (f : A → PS L B) Q s :
  wp total m (fun a => wp total (f a) Q) s → wp total (m ≫= f) Q s.
Proof. unfold wp, mbind, PS_bind. destruct (m s) as [[[a s']| |]|]; done. Qed.

Lemma ps_wp_mono total {A} (m : PS L A) (Q Q' : A → state L → Prop) s :
  wp total m Q s → (∀ a s', Q a s' → Q' a s') → wp total m Q' s.
Proof. unfold wp. destruct (m s) as [[[a s']| |]|]; auto. Qed.

Lemma wp_ret total {A} (a : A) (Q : A → state L → Prop) s : Q a s → wp total (mret a) Q s.
Proof. done. Qed.

Lemma wp_lift total {A} (r : res A) (Q : A → state L → Prop) s :
  (∀ a, r = Ok a → Q a s) → wp total (lift r) Q s.
Proof. unfold wp, lift. destruct r; simpl; auto. Qed.

Lemma wp_lexer total {A} (f : L → res (A * L)) (Q : A → state L → Prop) s :
  (∀ a l, f s.1 = Ok (a, l) → Q a (l, s.2)) → wp total (lexer f) Q s.
Proof. unfold wp, lexer. destruct (f s.1) as [[a l]| |]; simpl; auto. Qed.

Lemma wp_symbol_table total {A} (f : SymbolTable.t → res (A * SymbolTable.t)) (Q : A → state L → Prop) s :
  (∀ a t, f s.2 = Ok (a, t) → Q a (s.1, t)) → wp total (symbol_table f) Q s.
Proof. unfold wp, symbol_table. destruct (f s.2) as [[a t]| |]; simpl; auto. Qed.

Lemma wp_Some {A} (m : PS L A) (Q : A → state L → Prop) s a s' :
  wp false m Q s → m s = Some (Ok (a, s')) → Q a s'.
Proof. unfold wp. intros Hw E. by rewrite E in Hw. Qed.

End wp.

(** A proof of [wp] step by step: the goal is reduced to what the last step
    must establish. *)
Ltac wp_step :=
  match goal with
  | |- wp _ (_ ≫= _) _ _ => apply ps_wp_bind
  | |- wp _ (mret _) _ _ => apply wp_ret
  | |- wp _ (Parser.lift _) _ _ => apply wp_lift; intros ??
  | |- wp _ (Parser.lexer _) _ _ => apply wp_lexer; intros ???
  | |- wp _ (Parser.symbol_table _) _ _ => apply wp_symbol_table; intros ???
  | |- wp _ (match ?x with _ => _ end) _ _ => destruct x
  end; cbn [fst snd] in *.
Ltac wp_steps := repeat wp_step.

(** ** The parser ends *)
Class TokenSize (L : Type) `{TokenSource L} := {
  ts_size : L → nat;
  size_has_next l b l' : ts_has_next l = Ok (b, l') → (ts_size l' ≤ ts_size l)%nat;
  size_get_next l k l' : ts_get_next l = Ok (k, l') → (ts_size l' < ts_size l)%nat;
  size_peek_type l ty l' : ts_peek_type l = Ok (ty, l') → (ts_size l' ≤ ts_size l)%nat;
  size_get_next_type l ty l' : ts_get_next_type l = Ok (ty, l') → (ts_size l' < ts_size l)%nat;
}.

Section termination.
Context {L : Type} `{TokenSize L}.
Import Parser.
#[local] Open Scope nat_scope.

(** Started with at most [k] tokens left, [m] does not run out of fuel and takes
    at least [d] tokens. *)
Definition ends {A} (k d : nat) (m : PS L A) : Prop :=
  ∀ s, ts_size s.1 ≤ k → wp true m (fun _ s' => ts_size s'.1 + d ≤ ts_size s.1) s.

Create HintDb ends.

Ltac ends_facts :=
  repeat match goal with
  | H : ts_get_next _ = Ok _ |- _ => apply size_get_next in H
  | H : ts_get_next_type _ = Ok _ |- _ => apply size_get_next_type in H
  | H : ts_peek_type _ = Ok _ |- _ => apply size_peek_type in H
  | H : ts_has_next _ = Ok _ |- _ => apply size_has_next in H
  end.

(** Using [ends] of a part. *)
Lemma ends_wp {A} k d (m : PS L A) (Q : A → state L → Prop) s :
  ends k d m → ts_size s.1 ≤ k →
  (∀ a s', ts_size s'.1 + d ≤ ts_size s.1 → Q a s') → wp true m Q s.
Proof. intros Hm Hs HQ. eapply ps_wp_mono; [by apply Hm|]. intros a s'. apply HQ. Qed.

Lemma expect_ends k ty : ends k 1 (expect ty).
Proof. intros s Hs. unfold expect. wp_steps. ends_facts. lia. Qed.

Lemma symbol_expression_ends k name v : ends k 0 (symbol_expression (L := L) name v).
Proof. intros s Hs. unfold symbol_expression, GetSymbolId. wp_steps. lia. Qed.

Lemma EnterScope_ends k ps : ends k 0 (EnterScope (L := L) ps).
Proof. intros s Hs. unfold EnterScope. wp_steps. lia. Qed.

Lemma LeaveScope_ends k e : ends k 0 (LeaveScope (L := L) e).
Proof. intros s Hs. unfold LeaveScope. wp_steps. lia. Qed.

Ltac ends_part lem :=
  eapply ends_wp; [eapply lem|first [apply le_n|cbn [fst snd] in *; lia]|
    intros; cbn [fst snd] in *].
Ltac ends_step :=
  match goal with
  | |- wp _ (expect _) _ _ => ends_part expect_ends
  | |- wp _ (symbol_expression _ _) _ _ => ends_part symbol_expression_ends
  | |- wp _ (EnterScope _) _ _ => ends_part EnterScope_ends
  | |- wp _ (LeaveScope _) _ _ => ends_part LeaveScope_ends
  | IH : ends _ _ ?m |- wp _ ?m _ _ => ends_part IH
  | IH : ∀ x, ends _ _ (?m x) |- wp _ (?m _) _ _ => ends_part IH
  | _ => wp_step; ends_facts
  end.
Ltac ends_steps := repeat ends_step; try lia.

Section recursion.
Context (parse : PS L Expression) (k : nat) (Hparse : ends k 1 parse).

Lemma ParseExpressionList_ends n fuel ty :
  n ≤ k → n < fuel → ends n 0 (ParseExpressionList parse fuel ty).
Proof.
  revert n. induction fuel as [|fuel IH]; intros n Hk Hn s Hs; [lia|]. cbn [ParseExpressionList].
  wp_step. wp_step. ends_facts. case_bool_decide; [wp_steps; lia|].
  wp_step. ends_step. wp_step. eapply ends_wp; [apply (IH (n - 1)); lia|cbn [fst snd] in *; lia|].
  intros. wp_steps. lia.
Qed.

Context (fuel : nat) (Hfuel : k < fuel).

Lemma list_ends ty : ends k 0 (ParseExpressionList parse fuel ty).
Proof. by apply ParseExpressionList_ends. Qed.

Lemma ParseBlock_ends ps : ends (S k) 1 (ParseBlock parse fuel ps).
Proof. pose proof list_ends. intros s Hs. unfold ParseBlock. ends_steps. Qed.

Lemma ParseList_ends : ends (S k) 1 (ParseList parse fuel).
Proof. pose proof list_ends. intros s Hs. unfold ParseList. ends_steps. Qed.

Lemma ParseStatement_ends : ends (S k) 1 (ParseStatement parse fuel).
Proof.
  pose proof list_ends. pose proof ParseBlock_ends. intros s Hs.
  unfold ParseStatement, ParseForStatement, ParseSetStatement, ParseWhileStatement, ParseFunctionCall.
  ends_steps.
Qed.
End recursion.

(** Without tokens there is no first one. *)
Lemma ends_0 {A} (m : unit → PS L A) ty : ends 0 1 (expect ty ≫= m).
Proof. intros s Hs. wp_step. ends_part expect_ends. lia. Qed.

Lemma ParseExpression_ends fuel k : k < fuel → ends k 1 (ParseExpression (L := L) fuel).
Proof.
  revert k. induction fuel as [|fuel IH]; intros k Hk s Hs; [lia|]. cbn [ParseExpression].
  wp_step. wp_step. ends_facts.
  assert (ends (ts_size s.1) 1 (ParseStatement (ParseExpression (L := L) fuel) fuel) ∧
    ends (ts_size s.1) 1 (ParseBlock (ParseExpression (L := L) fuel) fuel []) ∧
    ends (ts_size s.1) 1 (ParseList (ParseExpression (L := L) fuel) fuel)) as Hrec.
  { destruct (ts_size s.1) as [|j] eqn:E.
    - repeat split; intros s' Hs'; by apply ends_0.
    - specialize (IH j ltac:(lia)). repeat split;
        [apply ParseStatement_ends|apply ParseBlock_ends|apply ParseList_ends]; (done || lia). }
  destruct Hrec as (Hr1 & Hr2 & Hr3).
  destruct a; try (wp_steps; lia);
    try (eapply ends_wp; [eassumption|done|]; cbn [fst snd]; intros; lia);
    unfold ParseIntLiteral, ParseStringLiteral, ParseIdentifier; ends_steps; discriminate.
Qed.

Lemma parse_items_ends fuel k : S k < fuel → ends k 0 (parse_items (L := L) fuel).
Proof.
  revert k. induction fuel as [|fuel IH]; intros k Hk s Hs; [lia|]. cbn [parse_items].
  wp_step. wp_step. ends_facts. destruct a; [|wp_steps; lia].
  wp_step. eapply ends_wp; [apply (ParseExpression_ends fuel k); lia|cbn [fst snd]; lia|].
  intros e s' Hs'. wp_step. destruct k as [|k]; [cbn [fst snd] in *; lia|].
  eapply ends_wp; [apply (IH k); lia|cbn [fst snd] in *; lia|]. intros. wp_steps. lia.
Qed.

(** The parser ends, when the fuel is more than the tokens there can be. *)
Lemma ParseFile_ends fuel s :
  S (ts_size s.1) < fuel → ∃ r, ParseFile (L := L) fuel s = Some r.
Proof.
  intros Hs. assert (wp true (ParseFile fuel) (fun _ _ => True) s) as Hw.
  { unfold ParseFile. wp_step. ends_part EnterScope_ends. wp_step.
    eapply ends_wp; [apply parse_items_ends; exact Hs|lia|]. intros. ends_steps. }
  unfold wp in Hw. destruct (ParseFile fuel s); [eauto|done].
Qed.
End termination.

#[export] Program Instance list_size : TokenSize (list Token.t) := {| ts_size := length |}.
Next Obligation. intros l b l' [= <- <-]. done. Qed.
Next Obligation. intros [|k l] ?? [= <- <-]. simpl. lia. Qed.
Next Obligation. intros [|k l] ?? [= <- <-]. done. Qed.
Next Obligation. intros [|k l] ?? [= <- <-]. simpl. lia. Qed.

(** The tokens a lexer can still yield: those in the queue, two for each character
    and one at the end of the file. *)
Section lexer_size.
Import Lexer.
#[local] Open Scope nat_scope.

Definition lexer_size_from (fp : string) (l : t) : nat :=
  length (tokens_ l) + (if bool_decide (state_ l = END_OF_FILE) then 0 else 2 * String.length fp + 1).

Lemma Yield_tokens k s l : length (tokens_ (Yield k s l)) = S (length (tokens_ l)).
Proof.
  unfold Yield, ChangeState. case_bool_decide; simpl; rewrite length_app; simpl; lia.
Qed.

Lemma ChangeState_tokens s l : tokens_ (ChangeState s l) = tokens_ l.
Proof. unfold ChangeState. by case_bool_decide. Qed.

Lemma YieldInt_tokens s l l' : YieldIntLiteral s l = Ok l' → length (tokens_ l') = S (length (tokens_ l)).
Proof.
  unfold YieldIntLiteral. intros H. res_inv. destruct (strtoll (attribute_ l)) as [[n er] e].
  repeat case_match; res_inv. apply Yield_tokens.
Qed.

Lemma YieldEnd_tokens c e s l : YieldEnd c = Some e → length (tokens_ (e s l)) = S (length (tokens_ l)).
Proof. unfold YieldEnd. intros. repeat case_bool_decide; simplify_eq; apply Yield_tokens. Qed.

Lemma lex_word_tokens yield cont c l l' :
  (∀ s l', yield s l = Ok l' → length (tokens_ l') = S (length (tokens_ l))) →
  lex_word yield cont c l = Ok l' →
  length (tokens_ l') ≤ length (tokens_ l) + (match c with Some _ => 2 | None => 1 end).
Proof.
  intros Hy. unfold lex_word. destruct c as [c|]; [|intros ->%Hy; lia].
  case_bool_decide; [intros ->%Hy; lia|]. destruct (YieldEnd c) as [e|] eqn:E.
  - intros Hr. res_inv. rewrite (YieldEnd_tokens _ _ _ _ E). erewrite Hy by done. lia.
  - destruct (isspace c); [intros ->%Hy; lia|]. destruct (cont c); [|done].
    intros [= <-]. simpl. lia.
Qed.

Lemma lex_char_tokens c l l' :
  lex_char c l = Ok l' →
  length (tokens_ l') ≤ length (tokens_ l) + (match c with Some _ => 2 | None => 1 end).
Proof.
  unfold lex_char. intros H.
  assert (length (tokens_ l) = length (tokens_ (if bool_decide (c = Some newline)
    then set_line_number (line_number_ l + 1) l else l))) as -> by by case_bool_decide.
  revert H. generalize (if bool_decide (c = Some newline) then set_line_number (line_number_ l + 1) l else l).
  clear l. intros l. unfold lex_switch.
  destruct (state_ l); [destruct c as [c|]|destruct c as [c|]| |destruct c as [c|]| |destruct c as [c|]|];
    try (apply lex_word_tokens; [intros s l'' Hy; first [by eapply YieldInt_tokens|
      injection Hy as <-; apply Yield_tokens]]);
    repeat case_bool_decide; repeat case_match; intros Hr; res_inv; try (simpl; lia);
    unfold YieldBeginExpression, YieldEndExpression, YieldBeginList, YieldEndList, YieldBeginBlock,
      YieldEndBlock, YieldStringLiteral; simpl;
    rewrite ?Yield_tokens, ?ChangeState_tokens; try lia.
  erewrite YieldEnd_tokens by done. lia.
Qed.

Lemma fetch_loop_size fp l l' :
  fetch_loop fp l = Ok l' → lexer_size_from (fp_ l') l' ≤ lexer_size_from fp l.
Proof.
  revert l. induction fp as [|c fp IH]; intros l; cbn [fetch_loop];
    (destruct (bool_decide_reflect (state_ l = END_OF_FILE)) as [He|He]; simpl; [intros [= <-]; apply le_n|]);
    (destruct (bool_decide_reflect (tokens_ l = [])) as [Ht|Ht]; simpl; [|intros [= <-]; apply le_n]);
    intros H; res_inv.
  - pose proof (lex_char_eof _ _ H0) as E. apply lex_char_tokens in H0. unfold lexer_size_from.
    simpl. rewrite E, bool_decide_true, bool_decide_false by done. lia.
  - specialize (IH _ H). pose proof (lex_char_some _ _ _ H0) as E. apply lex_char_tokens in H0.
    unfold lexer_size_from in *. cbn [String.length].
    rewrite (bool_decide_false (state_ a = END_OF_FILE)) in IH by done.
    rewrite (bool_decide_false (state_ l = END_OF_FILE)) by done. lia.
Qed.

End lexer_size.

#[export] Program Instance lexer_size : TokenSize Lexer.t := {|
  ts_size := fun l => lexer_size_from (Lexer.fp_ l) l
|}.
Next Obligation.
  intros l b l'. simpl. unfold Lexer.HasNextToken. intros H. res_inv. simplify_eq.
  by apply fetch_loop_size.
Qed.
Next Obligation.
  intros l k l'. simpl. unfold Lexer.GetNextToken. intros H. res_inv.
  apply fetch_loop_size in H0. unfold lexer_size_from in *.
  destruct (Lexer.tokens_ a); simplify_eq/=. lia.
Qed.
Next Obligation.
  intros l ty l'. simpl. unfold Lexer.PeekNextTokenType. intros H. res_inv.
  apply fetch_loop_size in H0. by destruct (Lexer.tokens_ a); simplify_eq/=.
Qed.
Next Obligation.
  intros l ty l'. simpl. unfold Lexer.GetNextTokenType. intros H. res_inv.
  apply fetch_loop_size in H0. unfold lexer_size_from in *.
  destruct (Lexer.tokens_ a); simplify_eq/=. lia.
Qed.

(** C35 (termination). The parser ends on every file: it returns an expression or stops at an error,
    with [file_fuel] enough for the depth of nesting and the length of lists. *)
Theorem parse_file_terminates file t :
  ∃ r, Parser.ParseFile (file_fuel file) (Lexer.New file, t) = Some r.
Proof.
  apply ParseFile_ends. simpl. unfold lexer_size_from, file_fuel, Lexer.New. simpl. lia.
Qed.

(** ** Parsing a file is parsing the list of its tokens *)
Section simulation.
Context {L1 L2 : Type} `{TokenSource L1} `{TokenSource L2} (R : L1 → L2 → Prop) `{!TokenSim R}.
Import Parser.

Definition state_sim (s1 : state L1) (s2 : state L2) : Prop := R s1.1 s2.1 ∧ s1.2 = s2.2.

Definition psim {A} (m1 : PS L1 A) (m2 : PS L2 A) : Prop :=
  ∀ s1 s2, state_sim s1 s2 →
    match m1 s1, m2 s2 with
    | Some o1, Some o2 => same_outcome state_sim o1 o2
    | None, None => True
    | _, _ => False
    end.

Create HintDb psim.

Lemma psim_ret {A} (a : A) : psim (mret a) (mret a).
Proof. intros s1 s2 Hs. by constructor. Qed.

Lemma psim_bind {A B} (m1 : PS L1 A) (m2 : PS L2 A) (f1 : A → PS L1 B) (f2 : A → PS L2 B) :
  psim m1 m2 → (∀ a, psim (f1 a) (f2 a)) → psim (m1 ≫= f1) (m2 ≫= f2).
Proof.
  intros Hm Hf s1 s2 Hs. specialize (Hm s1 s2 Hs). unfold mbind, PS_bind.
  destruct (m1 s1) as [o1|], (m2 s2) as [o2|]; try done.
  destruct Hm as [a s1' s2' Hs'| |]; [by apply Hf|constructor|constructor].
Qed.

Lemma psim_lexer {A} (f1 : L1 → res (A * L1)) (f2 : L2 → res (A * L2)) :
  (∀ l1 l2, R l1 l2 → same_outcome R (f1 l1) (f2 l2)) → psim (lexer f1) (lexer f2).
Proof.
  intros Hf s1 s2 [Hl Ht]. unfold lexer. destruct (Hf _ _ Hl); simpl; by constructor.
Qed.

Lemma psim_symbol_table {A} (f : SymbolTable.t → res (A * SymbolTable.t)) :
  psim (symbol_table f) (symbol_table f).
Proof.
  intros s1 s2 [Hl Ht]. unfold symbol_table. rewrite Ht.
  destruct (f s2.2) as [[a t]| |]; simpl; by constructor.
Qed.

Lemma psim_lift {A} (r : res A) : psim (lift r) (lift r).
Proof. intros s1 s2 Hs. unfold lift. destruct r; by constructor. Qed.

Lemma psim_no_fuel {A} : psim (no_fuel (A := A)) no_fuel.
Proof. by intros ???. Qed.

#[local] Hint Resolve psim_ret psim_symbol_table psim_lift psim_no_fuel : psim.
Ltac psim_step :=
  match goal with
  | |- psim (_ ≫= _) (_ ≫= _) => apply psim_bind; [|intros]
  | |- psim (lexer _) (lexer _) =>
      apply psim_lexer; first [apply sim_has_next|apply sim_get_next|apply sim_peek_type|apply sim_get_next_type]
  | |- psim (match ?x with _ => _ end) _ => destruct x
  | |- psim (if ?b then _ else _) _ => destruct b
  | _ => solve [eauto with psim]
  end.
Ltac psim_steps := repeat psim_step.

Section recursion.
Context (p1 : PS L1 Expression) (p2 : PS L2 Expression) (Hp : psim p1 p2).
#[local] Hint Resolve Hp : psim.

Lemma list_sim fuel ty : psim (ParseExpressionList p1 fuel ty) (ParseExpressionList p2 fuel ty).
Proof. induction fuel; simpl; psim_steps. Qed.
#[local] Hint Resolve list_sim : psim.

Lemma block_sim fuel ps : psim (ParseBlock p1 fuel ps) (ParseBlock p2 fuel ps).
Proof. unfold ParseBlock, expect, EnterScope, LeaveScope. psim_steps. Qed.
#[local] Hint Resolve block_sim : psim.

Lemma parse_list_sim fuel : psim (ParseList p1 fuel) (ParseList p2 fuel).
Proof. unfold ParseList, expect. psim_steps. Qed.

Lemma statement_sim fuel : psim (ParseStatement p1 fuel) (ParseStatement p2 fuel).
Proof.
  unfold ParseStatement, ParseForStatement, ParseSetStatement, ParseWhileStatement, ParseFunctionCall,
    expect, EnterScope, LeaveScope, symbol_expression, GetSymbolId. psim_steps.
Qed.
End recursion.

Lemma expression_sim fuel : psim (ParseExpression (L := L1) fuel) (ParseExpression (L := L2) fuel).
Proof.
  induction fuel as [|fuel IH]; cbn [ParseExpression]; [apply psim_no_fuel|].
  apply psim_bind; [psim_step|]. intros ty.
  destruct ty; try (by apply psim_lift); try by (unfold ParseIntLiteral, ParseStringLiteral,
    ParseIdentifier, symbol_expression, GetSymbolId; psim_steps).
  - by apply statement_sim.
  - by apply block_sim.
  - by apply parse_list_sim.
Qed.
#[local] Hint Resolve expression_sim : psim.

Lemma ParseFile_sim fuel : psim (ParseFile (L := L1) fuel) (ParseFile (L := L2) fuel).
Proof.
  assert (psim (parse_items (L := L1) fuel) (parse_items (L := L2) fuel)).
  { induction fuel; simpl; psim_steps. }
  unfold ParseFile, EnterScope, LeaveScope. psim_steps.
Qed.
End simulation.

Section endless.
Context {L : Type} `{TokenSource L} (I : L → Prop) `{!TokenEndless I}.
Import Parser.

Definition stays {A} (m : PS L A) : Prop := ∀ s, I s.1 → wp false m (fun _ s' => I s'.1) s.

Lemma stays_wp {A} (m : PS L A) (Q : A → state L → Prop) s :
  stays m → I s.1 → (∀ a s', I s'.1 → Q a s') → wp false m Q s.
Proof. intros Hm Hs HQ. eapply ps_wp_mono; [by apply Hm|]. intros a s'. apply HQ. Qed.

Ltac stays_facts :=
  repeat match goal with
  | HI : I ?l, H : ts_get_next ?l = Ok _ |- _ => apply (endless_get_next _ _ _ HI) in H
  | HI : I ?l, H : ts_get_next_type ?l = Ok _ |- _ => apply (endless_get_next_type _ _ _ HI) in H
  | HI : I ?l, H : ts_peek_type ?l = Ok _ |- _ => apply (endless_peek_type _ _ _ HI) in H
  end.
Ltac stays_step :=
  match goal with
  | IH : stays ?m |- wp _ ?m _ _ => eapply stays_wp; [exact IH|done|intros]
  | IH : ∀ x, stays (?m x) |- wp _ (?m _) _ _ => eapply stays_wp; [apply IH|done|intros]
  | IH : ∀ x y, stays (?m x y) |- wp _ (?m _ _) _ _ => eapply stays_wp; [apply IH|done|intros]
  | _ => wp_step; stays_facts
  end.
Ltac stays_steps := repeat stays_step; try done.

Section recursion.
Context (parse : PS L Expression) (Hparse : stays parse).

Lemma list_stays fuel ty : stays (ParseExpressionList parse fuel ty).
Proof. induction fuel as [|fuel IH]; intros s Hs; simpl; [done|]. stays_steps. Qed.

Lemma block_stays fuel ps : stays (ParseBlock parse fuel ps).
Proof.
  pose proof list_stays. intros s Hs. unfold ParseBlock, expect, EnterScope, LeaveScope. stays_steps.
Qed.

Lemma parse_list_stays fuel : stays (ParseList parse fuel).
Proof. pose proof list_stays. intros s Hs. unfold ParseList, expect. stays_steps. Qed.

Lemma statement_stays fuel : stays (ParseStatement parse fuel).
Proof.
  pose proof list_stays. pose proof block_stays. intros s Hs.
  unfold ParseStatement, ParseForStatement, ParseSetStatement, ParseWhileStatement, ParseFunctionCall,
    expect, EnterScope, LeaveScope, symbol_expression, GetSymbolId. stays_steps.
Qed.
End recursion.

Lemma expression_stays fuel : stays (ParseExpression (L := L) fuel).
Proof.
  induction fuel as [|fuel IH]; intros s Hs; cbn [ParseExpression]; [done|].
  pose proof (statement_stays _ IH fuel). pose proof (block_stays _ IH fuel []).
  pose proof (parse_list_stays _ IH fuel).
  unfold ParseIntLiteral, ParseStringLiteral, ParseIdentifier, symbol_expression, GetSymbolId.
  stays_steps.
Qed.

(** The loop of [ParseFile] does not return. *)
Lemma ParseFile_endless fuel s : I s.1 → wp false (ParseFile (L := L) fuel) (fun _ _ => False) s.
Proof.
  assert (∀ s, I s.1 → wp false (parse_items (L := L) fuel) (fun _ _ => False) s) as Hitems.
  { clear s. induction fuel as [|fuel IH]; intros s Hs; cbn [parse_items]; [done|].
    wp_step. wp_step. apply (endless_has_next _ _ _ Hs) in H0 as [-> Hl]. wp_step.
    eapply stays_wp; [apply expression_stays|done|]. intros e s' Hs'. wp_step.
    by eapply ps_wp_mono; [apply IH|]. }
  intros Hs. unfold ParseFile, EnterScope. wp_step. wp_step. wp_step.
  by eapply ps_wp_mono; [apply Hitems|].
Qed.
End endless.

(** What the parser returns from the tokens of a file it returns from the file. *)
Lemma parse_tokens_file fuel file t ks e rest t' :
  tokens_of file = Ok ks → Parser.ParseFile fuel (ks, t) = Some (Ok (e, (rest, t'))) →
  ∃ l, Parser.ParseFile fuel (Lexer.New file, t) = Some (Ok (e, (l, t'))).
Proof.
  intros E Hl. assert (state_sim lexes (Lexer.New file, t) (ks, t)) as Hsim by done.
  pose proof (ParseFile_sim lexes fuel _ _ Hsim) as Hs. rewrite Hl in Hs.
  destruct (Parser.ParseFile fuel (Lexer.New file, t)) as [o|]; [|done].
  inversion Hs as [a s1 s2 [HR Ht]| |]; subst. destruct s1 as [l t1]. simpl in *. subst. eauto.
Qed.

(** C32 (equivalence). The parser, which reads a file as far as it needs to, returns an expression
    exactly when the file has no lexical error and the parser returns this
    expression, with the same symbols, from the list of the file's tokens. *)
Theorem parser_reads_tokens file t e t' :
  (∃ l, Parser.ParseFile (file_fuel file) (Lexer.New file, t) = Some (Ok (e, (l, t')))) ↔
  (∃ ks rest, tokens_of file = Ok ks ∧
    Parser.ParseFile (file_fuel file) (ks, t) = Some (Ok (e, (rest, t')))).
Proof.
  assert (∀ ks, tokens_of file = Ok ks → state_sim lexes (Lexer.New file, t) (ks, t)) as Hsim by done.
  split.
  - intros [l Hl].
    assert (∃ ks, tokens_of file = Ok ks) as [ks E].
    { destruct (tokens_of file) as [ks| |] eqn:E; [eauto|exfalso..];
        (assert (lex_error (Lexer.New file)) as He by (intros ks Hks; unfold tokens_of in E; by rewrite Hks in E);
         exact (wp_Some _ _ _ _ _ (ParseFile_endless lex_error (file_fuel file) (Lexer.New file, t) He) Hl)). }
    exists ks. pose proof (ParseFile_sim lexes (file_fuel file) _ _ (Hsim ks E)) as Hs.
    rewrite Hl in Hs. destruct (Parser.ParseFile (file_fuel file) (ks, t)) as [o|]; [|done].
    inversion Hs as [a s1 s2 [HR Ht]| |]; subst. destruct s2 as [rest t2]. simpl in *. subst. eauto.
  - intros (ks & rest & E & Hl). by eapply parse_tokens_file.
Qed.

(** ** Every symbol of a parsed program is bound

    [CodeBlock::Evaluate] adds the parameters and the local variables of a block to
    the symbols that were bound where the block was made, and checks that none of
    them is there already; [SymbolExpression::Evaluate] checks that its symbol is
    bound.  The parser produces only expressions for which these checks hold. *)
Fixpoint well_scoped (D : gset Z) (e : Expression) : Prop :=
  match e with
  | IntExpression _ | StringExpression _ => True
  | SymbolExpression i => i ∈ D
  | BlockExpression x ps ls =>
      NoDup (ps ++ ls) ∧ Forall (fun i => i ∉ D) (ps ++ ls) ∧
      well_scoped (D ∪ list_to_set (ps ++ ls)) x
  | FunctionCallExpression f ps => well_scoped D f ∧ foldr (fun x P => well_scoped D x ∧ P) True ps
  | ListExpression es => foldr (fun x P => well_scoped D x ∧ P) True es
  end.

(** The symbols an expression binds. *)
Fixpoint binders (e : Expression) : list Z :=
  match e with
  | IntExpression _ | StringExpression _ | SymbolExpression _ => []
  | BlockExpression x ps ls => ps ++ ls ++ binders x
  | FunctionCallExpression f ps => binders f ++ flat_map binders ps
  | ListExpression es => flat_map binders es
  end.

Section scoping.
Import SymbolTable.
Implicit Types D : gset Z.
#[local] Open Scope list_scope.

(** A block binds symbols that are not bound around it. *)
Lemma well_scoped_binders D e : well_scoped D e → Forall (fun b => b ∉ D) (binders e).
Proof.
  assert (∀ es D, Forall (fun e => ∀ D, well_scoped D e → Forall (fun b => b ∉ D) (binders e)) es →
    foldr (fun x P => well_scoped D x ∧ P) True es → Forall (fun b => b ∉ D) (flat_map binders es)) as Hlist.
  { intros es D1 HF. induction HF as [|x es Hx _ IH]; simpl; [constructor|]. intros [H1 H2].
    rewrite Forall_app. auto. }
  revert D. induction e as [n|s|i|x ps ls IHx|f ps IHf IHps|es IHes] using Expression_ind';
    intros D; simpl; intros Hw; try by constructor.
  - destruct Hw as (_ & Hf & Hx%IHx). rewrite app_assoc, Forall_app. split; [done|].
    eapply Forall_impl; [done|]. set_solver.
  - destruct Hw. rewrite Forall_app. auto.
  - auto.
Qed.

Lemma well_scoped_mono D D' e :
  well_scoped D e → D ⊆ D' → Forall (fun b => b ∉ D') (binders e) → well_scoped D' e.
Proof.
  assert (∀ es D D', Forall (fun e => ∀ D D', well_scoped D e → D ⊆ D' →
      Forall (fun b => b ∉ D') (binders e) → well_scoped D' e) es →
    foldr (fun x P => well_scoped D x ∧ P) True es → D ⊆ D' →
    Forall (fun b => b ∉ D') (flat_map binders es) →
    foldr (fun x P => well_scoped D' x ∧ P) True es) as Hlist.
  { intros es D1 D2 HF. induction HF as [|x es Hx _ IH]; simpl; [done|]. intros [H1 H2] HD.
    rewrite Forall_app. intros [? ?]. eauto. }
  revert D D'. induction e as [n|s|i|x ps ls IHx|f ps IHf IHps|es IHes] using Expression_ind';
    intros D D'; simpl; intros Hw HD Hb; try done.
  - set_solver.
  - destruct Hw as (Hnd & Hf & Hx). rewrite app_assoc, Forall_app in Hb. destruct Hb as [Hb1 Hb2].
    do 2 (split; [done|]). eapply IHx; [done|set_solver|].
    pose proof (well_scoped_binders _ _ Hx) as Hb3. rewrite Forall_forall in *. set_solver.
  - rewrite Forall_app in Hb. destruct Hw, Hb. eauto.
  - eauto.
Qed.

(** The symbols that are bound where the parser is. *)
Definition scope_ids (sc : Scope) : list Z := parameter_symbol_ids sc ++ local_symbol_ids sc.
Definition external_ids (s : t) : gset Z :=
  list_to_set ((fun x => symbol_id x.2) <$> map_to_list (external_symbol_map_ s)).
Fixpoint scopes_ids (scopes : list Scope) : gset Z :=
  match scopes with
  | [] => ∅
  | sc :: rest => list_to_set (scope_ids sc) ∪ scopes_ids rest
  end.
Definition bound (s : t) : gset Z := external_ids s ∪ scopes_ids (scopes_ s).

(** Names are those of parameters and local variables, and no symbol is bound twice. *)
Fixpoint scopes_ok (D : gset Z) (scopes : list Scope) : Prop :=
  match scopes with
  | [] => True
  | sc :: rest =>
      NoDup (scope_ids sc) ∧ Forall (fun i => i ∉ D ∪ scopes_ids rest) (scope_ids sc) ∧
      (∀ name i, symbol_map sc !! name = Some i → i ∈ scope_ids sc) ∧ scopes_ok D rest
  end.

Record table_ok (s : t) : Prop := {
  table_next : 1 ≤ next_symbol_id_ s < 2 ^ 31;
  table_bound i : i ∈ bound s → 1 ≤ i < next_symbol_id_ s;
  table_scopes : scopes_ok (external_ids s) (scopes_ s);
}.

(** What parsing an expression does to the table: new local variables in the
    innermost scope. *)
Inductive grows (s s' : t) : Prop :=
| grows_intro sc sc' rest new :
    scopes_ s = sc :: rest → scopes_ s' = sc' :: rest →
    parameter_symbol_ids sc' = parameter_symbol_ids sc →
    local_symbol_ids sc' = local_symbol_ids sc ++ new →
    Forall (fun i => next_symbol_id_ s ≤ i < next_symbol_id_ s') new →
    external_symbol_map_ s' = external_symbol_map_ s →
    next_symbol_id_ s ≤ next_symbol_id_ s' →
    grows s s'.

(** What parsing an expression achieves. *)
Record parsed (s : t) (e : Expression) (s' : t) : Prop := {
  parsed_table : table_ok s';
  parsed_grows : grows s s';
  parsed_scoped : well_scoped (bound s') e;
  parsed_binders : Forall (fun b => next_symbol_id_ s ≤ b < next_symbol_id_ s') (binders e);
}.

Lemma grows_refl s sc rest : scopes_ s = sc :: rest → grows s s.
Proof. intros E. eapply (grows_intro _ _ _ _ _ []); eauto; [by rewrite app_nil_r|lia]. Qed.

Lemma grows_trans s1 s2 s3 : grows s1 s2 → grows s2 s3 → grows s1 s3.
Proof.
  intros [sc1 sc2 r n E1 E2 P1 L1 F1 X1 N1] [sc2' sc3 r' n' E2' E3 P2 L2 F2 X2 N2].
  rewrite E2 in E2'. simplify_eq. eapply (grows_intro _ _ _ _ _ (n ++ n')); try done.
  - congruence.
  - by rewrite L2, L1, app_assoc.
  - rewrite Forall_app. split; (eapply Forall_impl; [done|]); simpl; lia.
  - congruence.
  - lia.
Qed.

(** The symbols that are bound after: those before, and new ones. *)
Lemma grows_bound s s' i :
  grows s s' → i ∈ bound s' ↔ i ∈ bound s ∨ (i ∈ bound s' ∧ next_symbol_id_ s ≤ i).
Proof.
  intros [sc sc' r n E E' P L F X N].
  assert (bound s' = bound s ∪ list_to_set n) as Hb.
  { unfold bound, external_ids. rewrite X, E, E'. simpl. unfold scope_ids. rewrite P, L.
    rewrite !list_to_set_app_L. set_solver. }
  rewrite Forall_forall in F. split; [|set_solver].
  rewrite Hb. rewrite elem_of_union, elem_of_list_to_set. intros [?|Hn]; [tauto|].
  right. split; [tauto|]. apply (F _ Hn).
Qed.

Lemma grows_subset s s' : grows s s' → bound s ⊆ bound s'.
Proof. intros Hg i Hi. apply (grows_bound _ _ _ Hg). auto. Qed.

(** Symbols that are no longer bound stay so. *)
Lemma grows_unbound s s' b :
  grows s s' → b ∉ bound s → b < next_symbol_id_ s → b ∉ bound s'.
Proof. intros Hg Hb Hn [?|[_ ?]]%(grows_bound _ _ _ Hg); [done|lia]. Qed.

(** What has been parsed is as good after parsing more. *)
Lemma parsed_later s e s1 s2 : parsed s e s1 → table_ok s2 → grows s1 s2 → parsed s e s2.
Proof.
  intros [Ht Hg Hw Hb] Ht2 Hg2. split; [done|by eapply grows_trans| |].
  - eapply well_scoped_mono; [done|by apply grows_subset|].
    pose proof (well_scoped_binders _ _ Hw) as Hnb. rewrite Forall_forall in *.
    intros b Hbb. eapply grows_unbound; [done|by apply Hnb|]. apply Hb in Hbb. lia.
  - eapply Forall_impl; [done|]. simpl. destruct Hg2. lia.
Qed.

Lemma parsed_leaf s e sc rest :
  table_ok s → scopes_ s = sc :: rest → well_scoped (bound s) e → binders e = [] → parsed s e s.
Proof. intros Ht Es Hw Hb. split; [done|by eapply grows_refl|done|]. by rewrite Hb. Qed.

Lemma parsed_call s f s1 ps s2 :
  parsed s f s1 → parsed s1 (ListExpression ps) s2 → parsed s (FunctionCallExpression f ps) s2.
Proof.
  intros Hf [Ht Hg Hw Hb]. pose proof (parsed_later _ _ _ _ Hf Ht Hg) as [_ Hg2 Hw2 Hb2].
  split; [done..|]. simpl. rewrite Forall_app. split; [done|].
  destruct Hf as [_ [] _ _]. eapply Forall_impl; [done|]. simpl. lia.
Qed.

Lemma parsed_cons s e s1 es s2 :
  parsed s e s1 → parsed s1 (ListExpression es) s2 → parsed s (ListExpression (e :: es)) s2.
Proof. intros He Hes. destruct (parsed_call _ _ _ _ _ He Hes). by split. Qed.

Lemma parsed_grows_scopes s e s' : parsed s e s' → ∃ sc rest, scopes_ s' = sc :: rest.
Proof. intros [_ [] _ _]. eauto. Qed.

(** ** The operations of the table *)
Lemma find_in_scopes_bound D scopes name i :
  scopes_ok D scopes → find_in_scopes scopes name = Some i → i ∈ scopes_ids scopes.
Proof.
  induction scopes as [|sc rest IH]; simpl; [done|]. intros (_ & _ & Hm & Hr).
  destruct (symbol_map sc !! name) as [j|] eqn:E.
  - intros [= ->]. apply Hm in E. set_solver.
  - intros Hf. apply elem_of_union. eauto.
Qed.

Lemma PrivateGetSymbolId_bound s name v i :
  table_ok s → PrivateGetSymbolId name v s = Some i → i ∈ bound s.
Proof.
  intros Ht. unfold PrivateGetSymbolId, find_external, bound.
  destruct (if v then find_in_scopes (scopes_ s) name else None) as [j|] eqn:E.
  - intros [= ->]. destruct v; [|done]. apply (find_in_scopes_bound _ _ _ _ (table_scopes _ Ht)) in E.
    set_solver.
  - destruct (external_symbol_map_ s !! name) as [x|] eqn:Ex; [|done].
    destruct (Bool.eqb _ _); [|done]. intros [= <-]. apply elem_of_union_l.
    unfold external_ids. apply elem_of_list_to_set, list_elem_of_fmap.
    exists (name, x). split; [done|]. by apply elem_of_map_to_list.
Qed.

Lemma CreateSymbol_spec s name id s' sc rest :
  scopes_ s = sc :: rest → CreateSymbol name s = Ok (id, s') →
  id = next_symbol_id_ s ∧ next_symbol_id_ s + 1 < 2 ^ 31 ∧
  s' = mk (mkScope (<[name := id]> (symbol_map sc)) (parameter_symbol_ids sc) (local_symbol_ids sc) :: rest)
         (external_symbol_map_ s) (next_symbol_id_ s + 1).
Proof.
  intros Es Hc. unfold CreateSymbol, GetNextSymbolId, add32 in Hc. rewrite Es in Hc.
  res_inv. case_match; res_inv. simpl in *. simplify_eq. split_and!; [done|lia|done].
Qed.

(** A new symbol in the innermost scope, as a parameter or as a local variable. *)
Lemma new_symbol_ok s name sc rest ps ls :
  table_ok s → scopes_ s = sc :: rest → next_symbol_id_ s + 1 < 2 ^ 31 →
  ps ++ ls = [next_symbol_id_ s] →
  table_ok (mk (mkScope (<[name := next_symbol_id_ s]> (symbol_map sc)) (parameter_symbol_ids sc ++ ps)
              (local_symbol_ids sc ++ ls) :: rest) (external_symbol_map_ s) (next_symbol_id_ s + 1)).
Proof.
  intros [Hn Hb Hs] Es Hlt Hpl. rewrite Es in Hs. simpl in Hs. destruct Hs as (Hnd & Hf & Hm & Hr).
  set (id := next_symbol_id_ s) in *.
  assert (id ∉ bound s) as Hid by (intros ?%Hb; lia).
  assert ((id ∉ external_ids s ∪ scopes_ids rest) ∧ id ∉ scope_ids sc) as [Hid1 Hid2].
  { unfold bound in Hid. rewrite Es in Hid. simpl in Hid. set_solver. }
  assert (∀ m, scope_ids (mkScope m (parameter_symbol_ids sc ++ ps) (local_symbol_ids sc ++ ls)) ≡ₚ
    (id :: scope_ids sc)) as Hp.
  { intros m. unfold scope_ids. simpl. rewrite <- app_assoc, (Permutation_app_comm ps), <- app_assoc.
    rewrite (Permutation_app_comm ls), Hpl, app_assoc. by rewrite <- Permutation_cons_append. }
  split; simpl; [lia| |].
  - intros i. unfold bound, external_ids. simpl. rewrite Hp. intros Hi.
    destruct (decide (i = id)); [subst; lia|].
    assert (i ∈ bound s) as ?%Hb; [|lia]. unfold bound, external_ids. rewrite Es. simpl. set_solver.
  - split_and!; [| | |done].
    + rewrite Hp. by constructor.
    + rewrite Hp. by constructor.
    + intros name' i. rewrite Hp. rewrite lookup_insert_Some. intros [[_ <-]|[_ ?%Hm]]; set_solver.
Qed.

Lemma GetLocalVariable_ok s name i s' sc rest :
  table_ok s → scopes_ s = sc :: rest → GetLocalVariable name s = Ok (i, s') →
  table_ok s' ∧ grows s s' ∧ i ∈ bound s'.
Proof.
  intros Ht Es. unfold GetLocalVariable. destruct (PrivateGetSymbolId name true s) as [j|] eqn:E.
  - intros [= -> ->]. split; [done|]. split; [by eapply grows_refl|].
    by eapply PrivateGetSymbolId_bound.
  - intros H. apply bind_Ok in H as ([j s1] & Hc & [= <- <-]).
    destruct (CreateSymbol_spec _ _ _ _ _ _ Es Hc) as (-> & Hlt & ->). unfold push_local. simpl.
    pose proof (new_symbol_ok s name sc rest [] [next_symbol_id_ s] Ht Es Hlt eq_refl) as Hok.
    rewrite app_nil_r in Hok. unfold set_scopes. simpl. split; [done|]. split.
    + eapply (grows_intro _ _ _ _ _ [next_symbol_id_ s]); simpl; try done; [|lia].
      repeat constructor; simpl; lia.
    + unfold bound. simpl. unfold scope_ids. simpl. set_solver.
Qed.

(** Entering a scope. *)
Record entered (s s1 : t) : Prop := {
  entered_table : table_ok s1;
  entered_external : external_symbol_map_ s1 = external_symbol_map_ s;
  entered_next : next_symbol_id_ s ≤ next_symbol_id_ s1;
  entered_scope : ∃ sc, scopes_ s1 = sc :: scopes_ s ∧ local_symbol_ids sc = [] ∧
    Forall (fun i => next_symbol_id_ s ≤ i < next_symbol_id_ s1) (parameter_symbol_ids sc);
}.

Lemma EnterScope_ok s names s1 : table_ok s → EnterScope names s = Ok s1 → entered s s1.
Proof.
  intros Ht. unfold EnterScope. apply (foldM_inv (entered s)).
  - intros s2 name s3 _ [Ht2 Hx Hn (sc & Es & El & Hp)] H.
    apply bind_Ok in H as ([j s4] & Hc & [= <-]).
    destruct (CreateSymbol_spec _ _ _ _ _ _ Es Hc) as (-> & Hlt & ->).
    pose proof (new_symbol_ok s2 name sc _ [next_symbol_id_ s2] [] Ht2 Es Hlt eq_refl) as Hok.
    rewrite app_nil_r in Hok. unfold push_parameter, set_scopes. simpl. split; simpl; [done|done|lia|].
    eexists. split; [done|]. simpl. split; [done|]. rewrite Forall_app. split.
    + eapply Forall_impl; [done|]. simpl. lia.
    + repeat constructor; lia.
  - split; simpl; [|done|lia|].
    + destruct Ht as [Hn Hb Hs]. split; simpl; [done| |].
      * intros i Hi. apply Hb. unfold bound, external_ids in *. simpl in *. set_solver.
      * split_and!; try done; try constructor.
    + eexists. split; [done|]. simpl. split; [done|]. constructor.
Qed.

(** A block: what is parsed between entering and leaving a scope. *)
Lemma block_ok s s1 e s2 ps ls s3 :
  table_ok s → entered s s1 → parsed s1 e s2 → LeaveScope s2 = Ok (ps, ls, s3) →
  table_ok s3 ∧ scopes_ s3 = scopes_ s ∧ external_symbol_map_ s3 = external_symbol_map_ s ∧
  next_symbol_id_ s ≤ next_symbol_id_ s3 ∧
  well_scoped (bound s3) (BlockExpression e ps ls) ∧
  Forall (fun b => next_symbol_id_ s ≤ b < next_symbol_id_ s3) (binders (BlockExpression e ps ls)).
Proof.
  intros Ht [_ Hx Hn (sc & Es & El & Hps)] [Ht2 [sc1 sc2 r new E1 E2 Hp Hl Hnew Hx2 Hn2] Hw Hb] HL.
  rewrite Es in E1. simplify_eq. unfold LeaveScope in HL. rewrite E2 in HL. simplify_eq.
  unfold set_scopes. simpl.
  assert (∀ i, i ∈ bound (mk (scopes_ s) (external_symbol_map_ s2) (next_symbol_id_ s2)) → i ∈ bound s) as Hbs.
  { intros i. unfold bound, external_ids. simpl. rewrite Hx2, Hx. done. }
  destruct Ht2 as [Hn3 Hb3 Hs3]. rewrite E2 in Hs3. simpl in Hs3. destruct Hs3 as (Hnd & Hf & _ & Hr).
  split_and!; simpl; try lia; try congruence.
  - split; simpl; [lia| |done]. intros i Hi%Hbs%(table_bound _ Ht). lia.
  - done.
  - done.
  - replace (_ ∪ _) with (bound s2); [done|].
    unfold bound, external_ids, scope_ids. rewrite E2. simpl. apply set_eq. set_solver.
  - rewrite Hp, Hl, El. simpl. rewrite !Forall_app. split_and!; (eapply Forall_impl; [done|]); simpl; lia.
Qed.

Lemma parsed_block s s1 e s2 ps ls s3 sc rest :
  table_ok s → scopes_ s = sc :: rest → entered s s1 → parsed s1 e s2 →
  LeaveScope s2 = Ok (ps, ls, s3) → parsed s (BlockExpression e ps ls) s3.
Proof.
  intros Ht Es He Hp HL. destruct (block_ok _ _ _ _ _ _ _ Ht He Hp HL) as (Ht3 & Es3 & Hx & Hn & Hw & Hb).
  split; [done| |done|done].
  eapply (grows_intro _ _ sc sc rest []); [done|congruence|done|by rewrite app_nil_r|constructor|done|lia].
Qed.
End scoping.

Section parser_scoping.
Context {L : Type} `{TokenSource L}.
Import Parser.

(** The state of the table while a file is being parsed. *)
Definition inside (t : SymbolTable.t) : Prop := table_ok t ∧ ∃ sc rest, SymbolTable.scopes_ t = sc :: rest.

Definition parses (m : PS L Expression) : Prop :=
  ∀ s, inside s.2 → wp false m (fun e s' => parsed s.2 e s'.2) s.

Lemma parsed_inside t e t' : parsed t e t' → inside t'.
Proof. intros Hp. split; [by destruct Hp|by eapply parsed_grows_scopes]. Qed.

Lemma parses_wp (m : PS L Expression) (Q : Expression → state L → Prop) s :
  parses m → inside s.2 → (∀ e s', parsed s.2 e s'.2 → inside s'.2 → Q e s') → wp false m Q s.
Proof.
  intros Hm Hs HQ. eapply ps_wp_mono; [by apply Hm|]. intros e s' Hp. apply HQ; [done|].
  exact (parsed_inside _ _ _ Hp).
Qed.

Lemma inside_leaf t e : inside t → well_scoped (bound t) e → binders e = [] → parsed t e t.
Proof. intros [Ht (sc & rest & Es)]. by eapply parsed_leaf. Qed.

Lemma expect_scope ty (Q : unit → state L → Prop) s :
  (∀ l, Q tt (l, s.2)) → wp false (expect ty) Q s.
Proof. intros HQ. unfold expect. wp_steps. destruct a0. apply HQ. Qed.

Lemma symbol_expression_parses name v : parses (symbol_expression name v).
Proof.
  intros s Hs. unfold symbol_expression, GetSymbolId, SymbolTable.GetSymbolId, NewSymbolExpression.
  wp_steps. res_inv. simplify_eq/=. apply inside_leaf; [done| |done].
  eapply PrivateGetSymbolId_bound; [apply Hs|done].
Qed.

(** Entering a scope, parsing [m] and leaving the scope; [k] is the rest. *)
Lemma scope_parses {A B} names (m : PS L A) (mk : A → Expression) (k : Expression → PS L B)
    (Q : B → state L → Prop) s :
  (∀ s, inside s.2 → wp false m (fun a s' => parsed s.2 (mk a) s'.2) s) → inside s.2 →
  (∀ e s', parsed s.2 e s'.2 → inside s'.2 → wp false (k e) Q s') →
  wp false (EnterScope names ≫= fun _ => m ≫= fun a => LeaveScope (mk a) ≫= k) Q s.
Proof.
  intros Hm [Ht (sc & rest & Es)] HQ. unfold EnterScope, LeaveScope. wp_step. wp_step.
  apply bind_Ok in H0 as (t1 & HE & Ht1). simplify_eq. apply (EnterScope_ok _ _ _ Ht) in HE as He.
  wp_step. eapply ps_wp_mono; [apply Hm|].
  { split; [apply He|]. destruct (entered_scope _ _ He) as (sc' & ? & _). eauto. }
  intros a1 s' Hp. wp_step. wp_step. wp_step.
  apply bind_Ok in H0 as ([[ps ls] t3] & HL & Ht3). simplify_eq. wp_step. cbn [snd] in *.
  pose proof (parsed_block _ _ _ _ _ _ _ _ _ Ht Es He Hp HL) as HB.
  apply HQ; [done|]. by eapply parsed_inside.
Qed.

Ltac scope_step :=
  match goal with
  | |- wp _ (expect _) _ _ => apply expect_scope; intros; cbn [fst snd] in *
  | IH : parses ?m |- wp _ ?m _ _ => eapply parses_wp; [exact IH|done|intros; cbn [fst snd] in *]
  | |- wp _ (symbol_expression _ _) _ _ =>
      eapply parses_wp; [apply symbol_expression_parses|done|intros; cbn [fst snd] in *]
  | _ => wp_step
  end.

Section recursion.
Context (parse : PS L Expression) (Hparse : parses parse).

Lemma list_parses fuel ty s :
  inside s.2 →
  wp false (ParseExpressionList parse fuel ty) (fun es s' => parsed s.2 (ListExpression es) s'.2) s.
Proof.
  revert s. induction fuel as [|fuel IH]; intros s Hs; cbn [ParseExpressionList]; [done|].
  wp_step. wp_step. case_bool_decide.
  { wp_step. by apply inside_leaf. }
  wp_step. scope_step. wp_step. eapply ps_wp_mono; [by apply IH|]. intros es s2 Hes. wp_step.
  by eapply parsed_cons.
Qed.

Lemma ParseBlock_parses fuel names : parses (ParseBlock parse fuel names).
Proof.
  intros s Hs. unfold ParseBlock. wp_step. scope_step.
  apply (scope_parses _ _ ListExpression); [apply list_parses|done|].
  intros e s' Hp Hi. wp_step. scope_step. by wp_step.
Qed.

Lemma ParseList_parses fuel : parses (ParseList parse fuel).
Proof.
  intros s Hs. unfold ParseList. wp_step. scope_step. wp_step.
  eapply ps_wp_mono; [by apply list_parses|]. intros es s' Hp. wp_step. scope_step. by wp_step.
Qed.

(** A call whose parameters have been parsed before the function. *)
Lemma parsed_call_rev t ps t1 f t2 :
  parsed t (ListExpression ps) t1 → parsed t1 f t2 → parsed t (FunctionCallExpression f ps) t2.
Proof.
  intros Hps [Ht Hg Hw Hb]. pose proof (parsed_later _ _ _ _ Hps Ht Hg) as [_ Hg2 Hw2 Hb2].
  split; [done..|]. simpl. rewrite Forall_app. split; [|done].
  destruct Hps as [_ [] _ _]. eapply Forall_impl; [done|]. simpl. lia.
Qed.

Lemma parsed_two t e1 t1 e2 t2 :
  parsed t e1 t1 → parsed t1 e2 t2 → parsed t (ListExpression [e1; e2]) t2.
Proof.
  intros H1 H2. eapply parsed_cons; [done|]. eapply parsed_cons; [done|].
  apply inside_leaf; [by eapply parsed_inside|done|done].
Qed.

Lemma ParseForStatement_parses fuel : parses (ParseForStatement parse fuel).
Proof.
  intros s Hs. unfold ParseForStatement. pose proof (fun n => ParseBlock_parses fuel n) as HB.
  do 9 scope_step. eapply parses_wp; [apply HB|done|]. intros. do 3 scope_step.
  eapply parsed_call_rev; [|done]. by eapply parsed_two.
Qed.

Lemma ParseWhileStatement_parses fuel : parses (ParseWhileStatement parse fuel).
Proof.
  intros s Hs. unfold ParseWhileStatement. do 2 scope_step.
  apply (scope_parses _ _ (fun e => e)); [done|done|]. cbn [snd]. intros e s' Hp Hi. wp_step.
  eapply parses_wp; [apply ParseBlock_parses|done|]. intros. do 3 scope_step.
  eapply parsed_call_rev; [|done]. by eapply parsed_two.
Qed.

Lemma parsed_symbol_cons t e t' i :
  parsed t e t' → i ∈ bound t' → parsed t (ListExpression [SymbolExpression i; e]) t'.
Proof. intros [Ht Hg Hw Hb] Hi. split; simpl; [done..|]. by rewrite app_nil_r. Qed.

(** The variable is looked up, or made, after its value has been parsed. *)
Lemma ParseSetStatement_parses : parses (ParseSetStatement parse).
Proof.
  intros s Hs. unfold ParseSetStatement. do 8 scope_step. wp_step. wp_step.
  destruct H3 as [Ht (sc & rest & Es)].
  destruct (GetLocalVariable_ok _ _ _ _ _ _ Ht Es H4) as (Ht2 & Hg & Hb).
  assert (inside t) as Hi by (split; [done|destruct Hg; eauto]).
  pose proof (parsed_later _ _ _ _ H2 Ht2 Hg) as Hp.
  do 2 wp_step. unfold NewSymbolExpression in *. res_inv.
  do 3 scope_step. eapply parsed_call_rev; [|done]. by apply parsed_symbol_cons.
Qed.

Lemma ParseFunctionCall_parses fuel : parses (ParseFunctionCall parse fuel).
Proof.
  intros s Hs. unfold ParseFunctionCall. do 3 scope_step.
  eapply ps_wp_mono; [by apply list_parses|]. intros es s2 Hes. wp_step. by eapply parsed_call.
Qed.

Lemma ParseStatement_parses fuel : parses (ParseStatement parse fuel).
Proof.
  intros s Hs. unfold ParseStatement. do 5 scope_step. fold Parser.PS.
  assert (parses (match a with
    | Token.FOR_KEYWORD => ParseForStatement parse fuel
    | Token.SET_KEYWORD => ParseSetStatement parse
    | Token.WHILE_KEYWORD => ParseWhileStatement parse fuel
    | _ => ParseFunctionCall parse fuel end)) as Hm.
  { destruct a; first [apply ParseForStatement_parses|apply ParseSetStatement_parses|
      apply ParseWhileStatement_parses|apply ParseFunctionCall_parses]. }
  eapply parses_wp; [exact Hm|done|]. cbn [snd]. intros e s' Hp Hi. wp_step. scope_step. by wp_step.
Qed.

End recursion.

Lemma ParseExpression_parses fuel : parses (ParseExpression (L := L) fuel).
Proof.
  induction fuel as [|fuel IH]; intros s Hs; cbn [ParseExpression]; [done|]. wp_step. wp_step.
  destruct a; try (by apply wp_lift); try (by apply inside_leaf);
    try (eapply parses_wp; [first [apply ParseStatement_parses|apply ParseBlock_parses|
      apply ParseList_parses]; exact IH|done|by intros]).
  - unfold ParseIntLiteral. do 5 scope_step. by apply inside_leaf.
  - unfold ParseStringLiteral. do 5 scope_step. by apply inside_leaf.
  - unfold ParseIdentifier. do 8 scope_step. eapply parsed_call; [done|].
    eapply parsed_cons; [done|]. apply inside_leaf; [by eapply parsed_inside|done|done].
Qed.

Lemma parse_items_parses fuel s :
  inside s.2 → wp false (parse_items (L := L) fuel) (fun es s' => parsed s.2 (ListExpression es) s'.2) s.
Proof.
  revert s. induction fuel as [|fuel IH]; intros s Hs; cbn [parse_items]; [done|].
  wp_step. wp_step. destruct a; [|wp_step; by apply inside_leaf].
  wp_step. eapply parses_wp; [apply ParseExpression_parses|done|]. intros e s' Hp Hi.
  wp_step. eapply ps_wp_mono; [by apply IH|]. intros es s2 Hes. wp_step. by eapply parsed_cons.
Qed.

(** What [ParseFile] returns: a block without parameters. *)
Record file_parsed (t : SymbolTable.t) (e : Expression) (t' : SymbolTable.t) : Prop := {
  file_block : ∃ x ls, e = BlockExpression x [] ls;
  file_table : table_ok t';
  file_external : SymbolTable.external_symbol_map_ t' = SymbolTable.external_symbol_map_ t;
  file_scopes : SymbolTable.scopes_ t' = SymbolTable.scopes_ t;
  file_scoped : well_scoped (bound t) e;
  file_binders : Forall (fun b => 1 ≤ b < 2 ^ 31) (binders e);
}.

Lemma ParseFile_scoped fuel s :
  table_ok s.2 → wp false (ParseFile (L := L) fuel) (fun e s' => file_parsed s.2 e s'.2) s.
Proof.
  intros Ht. unfold ParseFile, EnterScope, LeaveScope. wp_step. wp_step.
  apply bind_Ok in H0 as (t1 & HE & Ht1). simplify_eq.
  apply (EnterScope_ok _ _ _ Ht) in HE as He. injection HE as Et1.
  wp_step. eapply ps_wp_mono; [apply parse_items_parses|].
  { split; [apply He|]. rewrite <- Et1. simpl. eauto. }
  intros es s2 Hp. wp_step. wp_step. apply bind_Ok in H0 as ([[ps ls] t3] & HL & [= <- <-]).
  wp_steps. cbn [snd] in *.
  destruct (block_ok _ _ _ _ _ _ _ Ht He Hp HL) as (Ht3 & Es3 & Hx & Hn & Hw & Hb).
  assert (ps = []) as ->.
  { destruct Hp as [_ [sc1 sc2 r new E1 E2 Hps _ _ _ _] _ _]. simpl in E1.
    unfold SymbolTable.LeaveScope in HL. rewrite E2 in HL. by simplify_eq/=. }
  split; try done; [eauto| |].
  - replace (bound s.2) with (bound t3); [done|]. unfold bound, external_ids. by rewrite Es3, Hx.
  - eapply Forall_impl; [done|]. simpl. destruct Ht, Ht3. lia.
Qed.
End parser_scoping.

(** The symbols of [RunToyLangFile] make a good table. *)
Lemma AddExternalSymbol_ok name v s i s' :
  SymbolTable.scopes_ s = [] → table_ok s → SymbolTable.AddExternalSymbol name v s = Ok (i, s') →
  SymbolTable.scopes_ s' = [] ∧ table_ok s'.
Proof.
  intros Es [Hn Hb Hs] H. unfold SymbolTable.AddExternalSymbol, SymbolTable.GetNextSymbolId, add32 in H.
  res_inv. case_match; res_inv. simplify_eq/=. split; [done|]. split; simpl; [lia| |by rewrite Es].
  intros i. unfold bound, external_ids. simpl. rewrite Es. simpl. rewrite union_empty_r_L.
  rewrite elem_of_list_to_set, list_elem_of_fmap. intros ([n x] & -> & Hx). simpl.
  apply elem_of_map_to_list, lookup_insert_Some in Hx as [[_ <-]|[_ Hx]]; [simpl; lia|].
  assert (SymbolTable.symbol_id x ∈ bound s) as ?%Hb; [|lia].
  unfold bound, external_ids. apply elem_of_union_l, elem_of_list_to_set, list_elem_of_fmap.
  exists (n, x). split; [done|]. by apply elem_of_map_to_list.
Qed.

Lemma program_symbol_table_ok t : program_symbol_table = Ok t → SymbolTable.scopes_ t = [] ∧ table_ok t.
Proof.
  unfold program_symbol_table. apply (foldM_inv (fun t => SymbolTable.scopes_ t = [] ∧ table_ok t)).
  - intros s x s' _ [Es Ht] H. apply bind_Ok in H as ([i s1] & Ha & [= <-]).
    by eapply AddExternalSymbol_ok.
  - split; [done|]. split; simpl; [lia| |done]. intros i. unfold bound, external_ids. simpl.
    set_solver.
Qed.

(** An expression with bound symbols is one whose ids the wire can hold. *)
Lemma well_scoped_ok D e :
  (∀ i, i ∈ D → 0 ≤ i < 2 ^ 31) → well_scoped D e → Forall (fun b => 1 ≤ b < 2 ^ 31) (binders e) →
  expression_ok e.
Proof.
  assert (∀ es D, Forall (fun e => ∀ D, (∀ i, i ∈ D → 0 ≤ i < 2 ^ 31) → well_scoped D e →
      Forall (fun b => 1 ≤ b < 2 ^ 31) (binders e) → expression_ok e) es →
    (∀ i, i ∈ D → 0 ≤ i < 2 ^ 31) →
    foldr (fun x P => well_scoped D x ∧ P) True es → Forall (fun b => 1 ≤ b < 2 ^ 31) (flat_map binders es) →
    foldr (fun x P => expression_ok x ∧ P) True es) as Hlist.
  { intros es D1 HF HD. induction HF as [|x es Hx _ IH]; simpl; [done|]. intros [? ?].
    rewrite Forall_app. intros [? ?]. eauto. }
  revert D. induction e as [n|s|i|x ps ls IHx|f ps IHf IHps|es IHes] using Expression_ind';
    intros D HD; simpl; intros Hw Hb; try done.
  - by apply HD.
  - destruct Hw as (_ & _ & Hw). rewrite app_assoc, Forall_app in Hb. destruct Hb as [Hids Hb].
    split.
    + eapply IHx; [|done|done]. intros i [?|Hi]%elem_of_union; [auto|].
      rewrite elem_of_list_to_set in Hi. rewrite Forall_forall in Hids. apply Hids in Hi. lia.
    + rewrite Forall_app in Hids. destruct Hids. unfold is_int32.
      split; (eapply Forall_impl; [done|]); simpl; lia.
  - rewrite Forall_app in Hb. destruct Hw, Hb. eauto.
  - eauto.
Qed.

Lemma parse_program_file_parsed file e ids :
  parse_program file = Some (Ok (e, ids)) →
  ∃ t t', program_symbol_table = Ok t ∧ SymbolTable.scopes_ t = [] ∧ table_ok t ∧ file_parsed t e t' ∧
    ids = SymbolTable.GetExternalSymbolIds t.
Proof.
  unfold parse_program. destruct program_symbol_table as [t| |] eqn:Et; [|done|done].
  apply program_symbol_table_ok in Et as [Es Ht].
  destruct (Parser.ParseFile (file_fuel file) (Lexer.New file, t)) as [[[e' [l t']]| |]|] eqn:E; try done.
  intros [= -> <-]. apply (wp_Some _ _ _ _ _ (ParseFile_scoped (file_fuel file) (Lexer.New file, t) Ht)) in E.
  cbn [snd] in E. exists t, t'. split_and!; try done.
  unfold SymbolTable.GetExternalSymbolIds. by rewrite (file_external _ _ _ E).
Qed.

Lemma parse_program_scoped file e ids :
  parse_program file = Some (Ok (e, ids)) → well_scoped (list_to_set (snd <$> map_to_list ids)) e.
Proof.
  intros (t & t' & _ & Es & Ht & Hf & ->)%parse_program_file_parsed.
  replace (list_to_set (snd <$> map_to_list (SymbolTable.GetExternalSymbolIds t))) with (bound t);
    [apply Hf|].
  unfold bound, external_ids, SymbolTable.GetExternalSymbolIds. rewrite Es. simpl.
  by rewrite union_empty_r_L, map_to_list_fmap, <- list_fmap_compose.
Qed.

(** C30 (type). What the parser makes of a file: a block without parameters in which every
    symbol is an external one or a parameter or local variable of a block around
    it, no block binds a symbol that is bound already, and which survives the wire. *)
Theorem parsed_program_well_scoped file e ids :
  parse_program file = Some (Ok (e, ids)) →
  (∃ x ls, e = BlockExpression x [] ls) ∧
  well_scoped (list_to_set (snd <$> map_to_list ids)) e ∧
  ParseExpressionProto (PopulateExpressionProto e) = Ok e.
Proof.
  intros H. pose proof (parse_program_scoped _ _ _ H) as Hw.
  apply parse_program_file_parsed in H as (t & t' & _ & Es & Ht & Hf & _).
  split_and!; [apply Hf|done|]. apply expression_proto_roundtrip.
  eapply well_scoped_ok; [|apply Hf|apply Hf].
  intros i Hi%(table_bound _ Ht). destruct (table_next _ Ht). lia.
Qed.

Definition parses_to_program (file : string) : bool :=
  match parse_program file with Some (Ok _) => true | _ => false end.

Lemma parses_to_program_ok file :
  parses_to_program file = true → ∃ e ids, parse_program file = Some (Ok (e, ids)).
Proof. unfold parses_to_program. destruct (parse_program file) as [[[e ids]| |]|]; eauto; done. Qed.

Lemma parsed_program_well_scoped_witness :
  ∃ e ids, parse_program "(set f { (for i (range 3) { (set x i) (print x) }) }) (print f)" = Some (Ok (e, ids)) ∧
    (∃ x ls, e = BlockExpression x [] ls) ∧
    well_scoped (list_to_set (snd <$> map_to_list ids)) e ∧
    ParseExpressionProto (PopulateExpressionProto e) = Ok e.
Proof.
  destruct (parses_to_program_ok "(set f { (for i (range 3) { (set x i) (print x) }) }) (print f)")
    as (e & ids & E); [vm_compute; reflexivity|].
  exists e, ids. split; [exact E|]. exact (parsed_program_well_scoped _ e ids E).
Defined.
