(* ===== verification/FakeEngine.v ===== *)
(** * The stand-alone engine

    [fake_engine/fake_peer.cc], [fake_method_context.cc] and
    [fake_object_reference.cc]: a peer that runs a program by itself, every object
    being one local object that is never copied.  And what an engine may rely on:
    [behaves] says what a method does with the objects and references it gets.

    A reference is the position of its object in [object_references_].  The
    functions have fuel for the depth of calls; what is printed on the standard
    output is part of the state. *)
From S2P Require Import Prelude Values PlaybackThread.
From stdpp Require Import base tactics list strings.
From Stdlib Require Import ZArith Lia.
#[local] Open Scope string_scope.
#[local] Open Scope Z_scope.

(** ** Worlds: the references that exist *)
Definition world : Type := ObjectReference → Prop.
Definition extends (K K' : world) : Prop := ∀ r, K r → K' r.
#[export] Instance extends_preorder : PreOrder extends.
Proof. split; [by intros K r|]. intros K1 K2 K3 H12 H23 r Hr. by apply H23, H12. Qed.

Definition known_value (K : world) (v : Value) : Prop :=
  match data v with OBJECT_REFERENCE r => K r | _ => True end.

Lemma known_value_mono K K' v : extends K K' → known_value K v → known_value K' v.
Proof. unfold known_value. intros HK. destruct (data v); auto. Qed.

(** ** What a method makes of its objects

    [behaves P answers fails K p]: in the world [K], whatever the objects are that
    [p] reads, if they satisfy [P], and whatever its calls return that is among the
    [answers] of the method called, [p] creates and writes only objects that
    satisfy [P], uses only references that exist, and does not fail unless [fails]. *)
Section behaviour.
Context {LO : Type} (P : world → LO → Prop) (answers : string → Value → Prop) (fails : bool).

Fixpoint behaves (K : world) (p : prog LO) : Prop :=
  match p with
  | PReturn v => known_value K v
  | PRead k => ∀ lo, P K lo → behaves K (k lo)
  | PWrite lo k => P K lo ∧ behaves K k
  | PBeginTransaction k | PEndTransaction k | PPrint _ k => behaves K k
  | PCreateObject lo _ k => P K lo ∧ ∀ K' r, extends K K' → K' r → behaves K' (k r)
  | PCallMethod r name ps k =>
      K r ∧ name ≠ "" ∧ Forall (known_value K) ps ∧
      ∀ K' v, extends K K' → known_value K' v → answers name v → behaves K' (k v)
  | PObjectsAreIdentical a b k => K a ∧ K b ∧ ∀ c, behaves K (k c)
  | PFail _ => fails = true
  end.
End behaviour.

(** What an interpreter promises of the methods of its objects. *)
Class WellBehaved (LO : Type) `{LocalObjectMethods LO} (P : world → LO → Prop) : Prop := {
  object_mono K K' lo : extends K K' → P K lo → P K' lo;
  method_behaves K self name ps :
    K self → Forall (known_value K) ps → behaves P (fun _ _ => True) true K (lo_invoke self name ps);
}.

(** ** The engine *)
Record FakeMethodContext (LO : Type) := mkContext {
  object_references_ : list LO;
  transaction_depth_ : Z;
  stdout : list string;
}.
Arguments mkContext {LO}.
Arguments object_references_ {LO}.
Arguments transaction_depth_ {LO}.
Arguments stdout {LO}.

(** [Dangling] is the use of a reference to no object. *)
Inductive outcome (LO A : Type) :=
| Done (a : A) (s : FakeMethodContext LO)
| Failed (why : failure)
| Dangling.
Arguments Done {LO A}.
Arguments Failed {LO A}.
Arguments Dangling {LO A}.

Section engine.
Context {LO : Type} `{LocalObjectMethods LO}.

Definition FM (A : Type) : Type := FakeMethodContext LO → outcome LO A.
#[local] Instance FM_ret : MRet FM := fun A a s => Done a s.
#[local] Instance FM_bind : MBind FM := fun A B f m s =>
  match m s with
  | Done a s' => f a s'
  | Failed why => Failed why
  | Dangling => Dangling
  end.

Definition NewFakeMethodContext : FakeMethodContext LO := mkContext [] 0 [].

Definition fm_check (b : bool) : FM unit := fun s => if b then Done tt s else Failed FatalError.

Definition set_depth (depth : Z) (s : FakeMethodContext LO) : FakeMethodContext LO :=
  mkContext (object_references_ s) depth (stdout s).

(** [++transaction_depth_] of an [int], and its check. *)
Definition FakeBeginTransaction : FM unit := fun s =>
  let depth := transaction_depth_ s + 1 in
  if 2 ^ 31 <=? depth then Failed UndefinedBehaviour
  else if 0 <? depth then Done tt (set_depth depth s) else Failed FatalError.

Definition FakeEndTransaction : FM unit := fun s =>
  if 0 <? transaction_depth_ s then Done tt (set_depth (transaction_depth_ s - 1) s) else Failed FatalError.

(** The name is ignored. *)
Definition FakeCreateObject (initial_version : LO) (name : string) : FM ObjectReference := fun s =>
  Done (length (object_references_ s))
    (mkContext (object_references_ s ++ [initial_version]) (transaction_depth_ s) (stdout s)).

(** [FakeObjectReference::local_object] of a reference, read and written. *)
Definition local_object (r : ObjectReference) : FM LO := fun s =>
  match object_references_ s !! r with Some lo => Done lo s | None => Dangling end.
Definition set_local_object (r : ObjectReference) (lo : LO) : FM unit := fun s =>
  match object_references_ s !! r with
  | Some _ => Done tt (mkContext (<[r := lo]> (object_references_ s)) (transaction_depth_ s) (stdout s))
  | None => Dangling
  end.

Definition FakeObjectsAreIdentical (a b : ObjectReference) : bool := bool_decide (a = b).

Definition print (text : string) : FM unit := fun s =>
  Done tt (mkContext (object_references_ s) (transaction_depth_ s) (stdout s ++ [text])).

(** A method body on the object of [self]. *)
Section run.
Context (call_method : ObjectReference → string → list Value → FM Value).
Fixpoint fake_run_prog (self : ObjectReference) (p : prog LO) : FM Value :=
  match p with
  | PReturn v => mret v
  | PRead k => lo ← local_object self; fake_run_prog self (k lo)
  | PWrite lo k => _ ← set_local_object self lo; fake_run_prog self k
  | PBeginTransaction k => _ ← FakeBeginTransaction; fake_run_prog self k
  | PEndTransaction k => _ ← FakeEndTransaction; fake_run_prog self k
  | PCreateObject lo name k => r ← FakeCreateObject lo name; fake_run_prog self (k r)
  | PCallMethod r name ps k => v ← call_method r name ps; fake_run_prog self (k v)
  | PObjectsAreIdentical a b k => fake_run_prog self (k (FakeObjectsAreIdentical a b))
  | PPrint text k => _ ← print text; fake_run_prog self k
  | PFail why => fun _ => Failed why
  end.
End run.

(** [FakeMethodContext::CallMethod]; [fuel] bounds the depth of calls. *)
Fixpoint FakeCallMethod (fuel : nat) (object_reference : ObjectReference) (method_name : string)
    (parameters : list Value) : FM Value :=
  match fuel with
  | O => fun _ => Failed LoopBound
  | S fuel =>
      _ ← fm_check (negb (bool_decide (method_name = "")));
      fake_run_prog (FakeCallMethod fuel) object_reference
        (lo_invoke object_reference method_name parameters)
  end.

(** [FakePeer::RunProgram]. *)
Definition FakeRunProgram (fuel : nat) (local_object : LO) (method_name : string) (linger : bool) : FM Value :=
  _ ← fm_check (negb linger);
  object_reference ← FakeCreateObject local_object "";
  fake_run_prog (FakeCallMethod fuel) object_reference (lo_invoke object_reference method_name []).

(** ** More fuel changes nothing but the bound *)
Definition more_fuel {A} (o o' : outcome LO A) : Prop := o = Failed LoopBound ∨ o = o'.

Lemma more_fuel_bind {A B} (m m' : FM A) (f f' : A → FM B) s :
  more_fuel (m s) (m' s) → (∀ a s, more_fuel (f a s) (f' a s)) → more_fuel ((m ≫= f) s) ((m' ≫= f') s).
Proof.
  unfold mbind, FM_bind. intros [->| ->] Hf; [by left|]. destruct (m' s); [apply Hf|by right..].
Qed.

Lemma fake_run_prog_fuel call call' self p s :
  (∀ r name ps s, more_fuel (call r name ps s) (call' r name ps s)) →
  more_fuel (fake_run_prog call self p s) (fake_run_prog call' self p s).
Proof.
  intros Hc. revert s. induction p; intros s; simpl; eauto;
    try (apply more_fuel_bind; [|by eauto]); try by right.
  apply Hc.
Qed.

Lemma FakeCallMethod_fuel n n' r name ps s :
  (n ≤ n')%nat → more_fuel (FakeCallMethod n r name ps s) (FakeCallMethod n' r name ps s).
Proof.
  revert n' r name ps s. induction n as [|n IH]; intros n' r name ps s Hn; [by left|].
  destruct n' as [|n']; [lia|].
  simpl. apply more_fuel_bind; [by right|]. intros _ s1. apply fake_run_prog_fuel.
  intros. apply IH. lia.
Qed.

(** ** The engine keeps the promises of the interpreter *)
Definition exists_in (s : FakeMethodContext LO) : world := fun r => (r < length (object_references_ s))%nat.

Context (P : world → LO → Prop) `{!WellBehaved LO P}.

Record context_ok (s : FakeMethodContext LO) : Prop := {
  objects_ok : Forall (P (exists_in s)) (object_references_ s);
  depth_ok : 0 ≤ transaction_depth_ s < 2 ^ 31;
}.

(** A step from [s] neither forgets an object nor follows a dangling reference. *)
Definition keeps_objects {A} (known : world → A → Prop) (s : FakeMethodContext LO) (o : outcome LO A) : Prop :=
  match o with
  | Done a s' => context_ok s' ∧ extends (exists_in s) (exists_in s') ∧ known (exists_in s') a
  | Failed _ => True
  | Dangling => False
  end.

Lemma keeps_objects_bind {A B} known (known' : world → B → Prop) (m : FM A) (f : A → FM B) s :
  keeps_objects known s (m s) →
  (∀ a s', context_ok s' → extends (exists_in s) (exists_in s') → known (exists_in s') a →
     keeps_objects known' s' (f a s')) →
  keeps_objects known' s ((m ≫= f) s).
Proof.
  unfold mbind, FM_bind. intros Hm Hf. destruct (m s) as [a s'| |]; simpl in *; [|done..].
  destruct Hm as (H1 & H2 & H3). specialize (Hf a s' H1 H2 H3). destruct (f a s'); simpl in *; [|done..].
  destruct Hf as (? & ? & ?). split_and!; [done| |done]. by etrans.
Qed.

Lemma fake_keeps_check b s : context_ok s → keeps_objects (fun K _ => K = exists_in s ∧ b = true) s (fm_check b s).
Proof. intros Hs. unfold fm_check. destruct b; simpl; [|done]. by split_and!. Qed.

Lemma keeps_begin s : context_ok s → keeps_objects (fun K _ => K = exists_in s) s (FakeBeginTransaction s).
Proof.
  intros [Ho Hd]. unfold FakeBeginTransaction. destruct (Z.leb_spec (2 ^ 31) (transaction_depth_ s + 1)); [done|].
  rewrite (proj2 (Z.ltb_lt _ _)) by lia. simpl. split_and!; [split; simpl; [done|lia]|done|done].
Qed.

Lemma keeps_end s : context_ok s → keeps_objects (fun K _ => K = exists_in s) s (FakeEndTransaction s).
Proof.
  intros [Ho Hd]. unfold FakeEndTransaction. destruct (Z.ltb_spec 0 (transaction_depth_ s)); [|done].
  simpl. split_and!; [split; simpl; [done|lia]|done|done].
Qed.

Lemma keeps_create lo name s :
  context_ok s → P (exists_in s) lo → keeps_objects (fun K r => K r) s (FakeCreateObject lo name s).
Proof.
  intros [Ho Hd] Hlo. simpl.
  assert (extends (exists_in s) (exists_in
    (mkContext (object_references_ s ++ [lo]) (transaction_depth_ s) (stdout s)))) as He.
  { intros r Hr. unfold exists_in in *. simpl. rewrite length_app. lia. }
  split_and!; [split; simpl; [|done]|done|].
  - apply Forall_app. split; [|apply Forall_singleton; by eapply object_mono].
    eapply Forall_impl; [exact Ho|]. intros x Hx. by eapply object_mono.
  - unfold exists_in. simpl. rewrite length_app. simpl. lia.
Qed.

Lemma keeps_read r s :
  context_ok s → exists_in s r →
  keeps_objects (fun K lo => K = exists_in s ∧ P K lo) s (local_object r s).
Proof.
  intros Hs Hr. unfold local_object. destruct (lookup_lt_is_Some_2 _ _ Hr) as [lo E]. rewrite E.
  split_and!; [done..|]. eapply Forall_lookup_1; [apply Hs|done].
Qed.

Lemma keeps_write r lo s :
  context_ok s → exists_in s r → P (exists_in s) lo →
  keeps_objects (fun K _ => K = exists_in s) s (set_local_object r lo s).
Proof.
  intros [Ho Hd] Hr Hlo. unfold set_local_object.
  destruct (lookup_lt_is_Some_2 _ _ Hr) as [lo' E]. rewrite E. simpl.
  assert (exists_in (mkContext (<[r := lo]> (object_references_ s)) (transaction_depth_ s) (stdout s)) =
    exists_in s) as HK by (unfold exists_in; simpl; by rewrite length_insert).
  rewrite HK. split_and!; [split; simpl; [|done]|done|done]. rewrite HK. by apply Forall_insert.
Qed.

Lemma keeps_print text s : context_ok s → keeps_objects (fun K _ => K = exists_in s) s (print text s).
Proof. intros [Ho Hd]. simpl. by split_and!. Qed.

Lemma fake_run_prog_keeps call self p s :
  (∀ r name ps s, context_ok s → exists_in s r → Forall (known_value (exists_in s)) ps →
     keeps_objects known_value s (call r name ps s)) →
  context_ok s → exists_in s self → behaves P (fun _ _ => True) true (exists_in s) p →
  keeps_objects known_value s (fake_run_prog call self p s).
Proof.
  intros Hc. revert s.
  induction p as [v|k IH|lo k IH|k IH|k IH|lo name k IH|r name ps k IH|a b k IH|text k IH|why];
    intros s Hs Hself Hp; simpl in *.
  - by split_and!.
  - eapply keeps_objects_bind; [by apply keeps_read|]. intros lo s' ?? [HK Hlo].
    rewrite HK in Hlo. apply IH; rewrite ?HK; auto.
  - destruct Hp. eapply keeps_objects_bind; [by apply keeps_write|]. intros [] s' ?? HK.
    apply IH; rewrite ?HK; auto.
  - eapply keeps_objects_bind; [by apply keeps_begin|]. intros [] s' ?? HK. apply IH; rewrite ?HK; auto.
  - eapply keeps_objects_bind; [by apply keeps_end|]. intros [] s' ?? HK. apply IH; rewrite ?HK; auto.
  - destruct Hp. eapply keeps_objects_bind; [by apply keeps_create|]. intros r s' ???. apply IH; auto.
  - destruct Hp as (? & _ & ? & ?). eapply keeps_objects_bind; [by apply Hc|]. intros v s' ???. apply IH; auto.
  - destruct Hp as (? & ? & ?). apply IH; auto.
  - eapply keeps_objects_bind; [by apply keeps_print|]. intros [] s' ?? HK. apply IH; rewrite ?HK; auto.
  - done.
Qed.

Lemma FakeCallMethod_keeps n r name ps s :
  context_ok s → exists_in s r → Forall (known_value (exists_in s)) ps →
  keeps_objects known_value s (FakeCallMethod n r name ps s).
Proof.
  revert r name ps s. induction n as [|n IH]; intros r name ps s Hs Hr Hps; [done|]. simpl.
  eapply keeps_objects_bind; [by apply fake_keeps_check|]. intros [] s' ?? [HK _].
  apply fake_run_prog_keeps; [done|done|by rewrite HK|]. rewrite HK. by apply method_behaves.
Qed.

(** A program whose methods are well behaved, run by the stand-alone peer, never
    follows a reference to no object, and every object it leaves is well formed. *)
Lemma FakeRunProgram_keeps n lo name linger :
  P (fun _ => False) lo →
  keeps_objects known_value NewFakeMethodContext (FakeRunProgram n lo name linger NewFakeMethodContext).
Proof.
  intros Hlo. assert (context_ok NewFakeMethodContext) as H0 by (split; simpl; [done|lia]).
  unfold FakeRunProgram. eapply keeps_objects_bind; [by apply fake_keeps_check|]. intros _ s Hs He _.
  eapply keeps_objects_bind; [apply keeps_create; [done|]|].
  { eapply object_mono; [|exact Hlo]. by intros ? []. }
  intros r s' Hs' He' Hr. apply fake_run_prog_keeps; [|done|done|by apply method_behaves].
  intros. by apply FakeCallMethod_keeps.
Qed.

End engine.
