(* ===== verification/FakeInterpreter.v ===== *)
(** The interpreter of the engine's tests: [fake_interpreter/fake_local_object.cc] and
    [fake_interpreter/fake_interpreter.cc].  An object is a string that can be
    appended to, cleared and read; it holds no references and calls no methods. *)
From S2P Require Import Prelude Text DumpContext Values Serialization ObjectTable Dumps PlaybackThread RecordingThread RecordReplay FakeEngine.
From stdpp Require Import base tactics list strings.
From Stdlib Require Import ZArith Lia.
#[local] Open Scope string_scope.

Definition kVoidLocalType : Z := 0.
Definition kStringLocalType : Z := 1.
Definition kObjectLocalType : Z := 2.
Definition kSerializationPrefix : string := "FakeLocalObject:".

Record FakeLocalObject := { s_ : string }.

Definition FakeLocalObject_Clone (o : FakeLocalObject) : FakeLocalObject := {| s_ := s_ o |}.

Definition FakeLocalObject_Serialize (o : FakeLocalObject) : ser_prog := SDone (kSerializationPrefix +:+ s_ o).

(** A failed [CHECK], or [LOG(FATAL)]. *)
Definition fatal : prog FakeLocalObject := PFail FatalError.

#[export] Instance FakeLocalObject_InvokeMethod : LocalObjectMethods FakeLocalObject := fun _ method_name parameters =>
  if bool_decide (method_name = "append") then
    match parameters with
    | [{| data := STRING text |}] =>
        PRead (fun o => PWrite {| s_ := s_ o +:+ text |} (PReturn (set_empty kVoidLocalType)))
    | _ => fatal
    end
  else if bool_decide (method_name = "clear") then
    match parameters with [] => PWrite {| s_ := "" |} (PReturn (set_empty kVoidLocalType)) | _ => fatal end
  else if bool_decide (method_name = "get") then
    match parameters with [] => PRead (fun o => PReturn (set_string_value kStringLocalType (s_ o))) | _ => fatal end
  else fatal.

#[export] Instance FakeLocalObject_Dump : LocalObjectDump FakeLocalObject := fun D _ _ o => AddString (s_ o).

(** [FakeInterpreter::DeserializeObject]. *)
Definition DeserializeObject (buffer : string) : res FakeLocalObject :=
  let prefix_length := String.length kSerializationPrefix in
  _ ← CHECK (bool_decide (prefix_length ≤ String.length buffer)%nat);
  _ ← CHECK (bool_decide (String.substring 0 prefix_length buffer = kSerializationPrefix));
  Ok {| s_ := String.substring prefix_length (String.length buffer - prefix_length) buffer |}.

(** ** What the objects promise to the engine *)
#[export] Instance fake_dump_laws : LocalObjectDumpLaws FakeLocalObject.
Proof.
  refine {| dumped_references _ := [] |}. intros D HD HL ref_dump o _.
  exists (StringDumpNode (s_ o)). split; [|done]. apply writes_one. intros d. apply AddString_node.
Qed.

Lemma substring_split n (text : string) :
  (n ≤ String.length text)%nat → String.substring 0 n text +:+ String.substring n (String.length text - n) text = text.
Proof.
  revert n. induction text as [|c text IH]; intros [|n] Hn; simpl in *; [done|lia| |].
  - change (String c (String.substring 0 (String.length text) text) = String c text). by rewrite substring_all.
  - change (String c (String.substring 0 n text +:+ String.substring n (String.length text - n) text) = String c text).
    by rewrite IH by lia.
Qed.

(** An object that is written to a string, with whatever buffers, and read back is
    the object that was written; nothing else than the form with its prefix is
    accepted. *)
Theorem fake_object_roundtrip static_buffer new_buffer o :
  (∀ n, String.length (new_buffer n) = n) →
  (x ← SerializeLocalObjectToString static_buffer new_buffer (FakeLocalObject_Serialize o); DeserializeObject x.1) = Ok o ∧
  ∀ buffer, DeserializeObject buffer = Ok o ↔ buffer = kSerializationPrefix +:+ s_ o.
Proof.
  intros Hnew. assert (Hread : DeserializeObject (kSerializationPrefix +:+ s_ o) = Ok o).
  { unfold DeserializeObject. destruct o as [text]. unfold s_. rewrite substring_app_l, str_app_length.
    rewrite !bool_decide_true by (done || lia). rewrite Nat.add_comm, Nat.add_sub, substring_app_r. done. }
  split; [by rewrite serialize_to_string_eq|].
  intros buffer. split; [|by intros ->]. unfold DeserializeObject. intros H.
  apply bind_Ok in H as (? & Hlen%CHECK_Ok%bool_decide_eq_true & H). apply bind_Ok in H as (? & Hpre%CHECK_Ok%bool_decide_eq_true & [= <-]).
  simpl. rewrite <- Hpre at 1. by rewrite substring_split.
Qed.

(** The objects keep what the engines ask of an interpreter: references are not
    made up, transactions are ended, and what is recorded can be replayed
    ([RecordReplay.recorded_method_replays]). *)
#[export] Instance fake_well_behaved : WellBehaved FakeLocalObject (fun _ _ => True).
Proof.
  split; [done|]. intros K self name ps _ _. unfold lo_invoke, FakeLocalObject_InvokeMethod, fatal.
  repeat case_match; simpl; by repeat split.
Qed.
Lemma fake_methods_recorded self name ps :
  RecordingThread.balanced 0 (FakeLocalObject_InvokeMethod self name ps) ∧
  RecordReplay.calls_only (FakeLocalObject_InvokeMethod self name ps).
Proof. unfold FakeLocalObject_InvokeMethod, fatal. repeat case_match; simpl; by repeat split. Qed.
