(* ===== verification/Engines.v ===== *)
(** Call backs on the two engines: a method whose object is called back while it
    runs, on the engine of a peer and on the stand-alone engine. *)
From stdpp Require Import base tactics list strings gmap.
From Stdlib Require Import ZArith.
From S2P Require Import Prelude Ids Values Events TransactionSequencer LiveObject Serialization ObjectTable ObjectContent.
From S2P Require Import PlaybackThread TransactionStore RecordingThread Peer FakeEngine.
#[local] Open Scope string_scope.
#[local] Open Scope list_scope.

(** "read_back" changes its object and has another object read it; "write_back"
    has another object change it, and reads it afterwards. *)
Definition another_object (self : ObjectReference) (name : string) (k : Value → prog blob) : prog blob :=
  PCreateObject ("", []) "" (fun b => PCallMethod b name [set_object_reference 0 self] k).

Definition callback_methods : LocalObjectMethods blob := fun self name ps =>
  match name, ps with
  | "read_back", _ => PWrite ("new", []) (another_object self "read" (fun v => PReturn v))
  | "write_back", _ => another_object self "write" (fun _ => PRead (fun lo => PReturn (text lo.1)))
  | "read", [{| data := OBJECT_REFERENCE a |}] => PCallMethod a "get" [] (fun v => PReturn v)
  | "write", [{| data := OBJECT_REFERENCE a |}] => PCallMethod a "set" [] (fun v => PReturn v)
  | "get", _ => PRead (fun lo => PReturn (text lo.1))
  | "set", _ => PWrite ("set", []) (PReturn (set_empty 0))
  | _, _ => PReturn (set_empty 0)
  end.

Definition callback_threads (id : Uuid) :
    Playback (PlaybackThread.world (LO := blob) (C := ObjectContent.t)) PlaybackThread.thread :=
  PlaybackThread.playback_thread (H := callback_methods) uuid_at name_uuid false id.
#[local] Instance callback_store : TransactionStoreInternalInterface scheduled blob :=
  ScheduledStore.scheduled_store uuid_at name_uuid clock_at me callback_threads.

Definition on_peer (method_name : string) : option Value :=
  match RecordingThread.New {| ScheduledStore.peer := peer0; ScheduledStore.turns := [] |} with
  | Ok s =>
      match RecordingThread.RunProgram (H0 := callback_methods) 3 5 ("", []) method_name false s with
      | RecordingThread.Val v _ => Some v
      | _ => None
      end
  | _ => None
  end.
Definition alone (method_name : string) : option Value :=
  match FakeRunProgram (H := callback_methods) 5 ("", []) method_name false NewFakeMethodContext with
  | Done v _ => Some v
  | _ => None
  end.

(** On a peer, the call back finds the object as it was before the method that is
    running: a method runs on a node of its own, and the live object gets the node
    when the method ends.  On the stand-alone engine the call back finds what the
    method has written. *)
Example read_back_differs : on_peer "read_back" = Some (text "") ∧ alone "read_back" = Some (text "new").
Proof. vm_compute. split; reflexivity. Qed.

(** On a peer, what the call back writes is lost when the method ends. *)
Example write_back_differs : on_peer "write_back" = Some (text "") ∧ alone "write_back" = Some (text "set").
Proof. vm_compute. split; reflexivity. Qed.
