(* ===== verification/ToyObjects.v ===== *)
(** * The toy language: evaluation and the built-in objects

    The evaluation of expressions ([toy_lang/expression.cc]), [toy_lang/code_block.cc],
    [toy_lang/wrap.cc], [toy_lang/program_object.cc] and the objects of
    [toy_lang/zoo].

    A method is a [prog] of the engine: it reads and writes its own object and
    calls the [MethodContext].  The code tests the result of every call of the
    context and returns at once when it is [false]; these tests are in [prog].  A
    method is written here with the rest of the method as continuation. *)
From S2P Require Import Prelude Text Values Serialization PlaybackThread FakeEngine ToyLexer ToyParser.
From stdpp Require Import base tactics list strings gmap.
From Stdlib Require Import ZArith Lia.
#[local] Open Scope string_scope.
#[local] Open Scope Z_scope.

(** ** Objects *)
Record CodeBlock := mkCodeBlock {
  expression_ : Expression;
  external_symbols_ : gmap Z ObjectReference;
  parameter_symbol_ids_ : list Z;
  local_symbol_ids_ : list Z;
}.

(** The subclasses of [Function]. *)
Inductive FunctionKind :=
| ListFunction | GetVariableFunction | SetVariableFunction | ForFunction | RangeFunction
| PrintFunction | AddFunction | BeginTranFunction | EndTranFunction | IfFunction | NotFunction
| WhileFunction | LessThanFunction | LenFunction | ListAppendFunction | ListGetFunction
| MapIsSetFunction | MapGetFunction | MapSetFunction.

#[export] Instance FunctionKind_eq_dec : EqDecision FunctionKind.
Proof. solve_decision. Defined.

(** [None] is the null pointer of a variable that is not set. *)
Inductive LocalObjectImpl :=
| NoneObject
| BoolObject (b_ : bool)
| IntObject (n_ : Z)
| StringObject (s_ : string)
| VariableObject (object_reference_ : option ObjectReference)
| CodeBlockObject (code_block_ : CodeBlock)
| ListObject (items_ : list ObjectReference)
| MapObject (map_ : gmap string ObjectReference)
| RangeIteratorObject (limit_ i_ : Z)
| FunctionObject (f : FunctionKind)
| ProgramObject (external_symbols_ : gmap string Z) (expression_ : Expression).

(** The constructor of RangeIteratorObject. *)
Definition NewRangeIteratorObject (limit start : Z) : res LocalObjectImpl :=
  _ ← CHECK (start <=? limit); Ok (RangeIteratorObject limit start).

(** ** Methods with a continuation *)
Definition PM (A : Type) : Type := (A → prog LocalObjectImpl) → prog LocalObjectImpl.
#[export] Instance PM_ret : MRet PM := fun A a k => k a.
#[export] Instance PM_bind : MBind PM := fun A B f m k => m (fun a => f a k).

Definition CallMethod (r : ObjectReference) (method_name : string) (parameters : list Value) : PM Value :=
  fun k => PCallMethod r method_name parameters k.
Definition CreateObject (initial_version : LocalObjectImpl) (name : string) : PM ObjectReference :=
  fun k => PCreateObject initial_version name k.
Definition BeginTransaction : PM unit := fun k => PBeginTransaction (k tt).
Definition EndTransaction : PM unit := fun k => PEndTransaction (k tt).
Definition printf (text : string) : PM unit := fun k => PPrint text (k tt).
Definition write_object (lo : LocalObjectImpl) : PM unit := fun k => PWrite lo (k tt).
Definition loop_bound {A} : PM A := fun _ => PFail LoopBound.
Definition lift {A} (r : res A) : PM A := fun k =>
  match r with Ok a => k a | Fatal => PFail FatalError | Undef => PFail UndefinedBehaviour end.

(** Signed 64-bit addition. *)
Definition add64 (x y : Z) : res Z :=
  if (- 2 ^ 63 <=? x + y) && (x + y <? 2 ^ 63) then Ok (x + y) else Undef.

(** [for (T x : l)]. *)
Fixpoint for_each {A B} (f : B → A → PM B) (b : B) (l : list A) : PM B :=
  match l with
  | [] => mret b
  | x :: l' => b' ← f b x; for_each f b' l'
  end.

(** ** [wrap.cc] *)
Definition MakeNoneObject : PM ObjectReference := CreateObject NoneObject "".
Definition WrapBool (b : bool) : PM ObjectReference := CreateObject (BoolObject b) "".
Definition WrapInt (n : Z) : PM ObjectReference := CreateObject (IntObject n) "".
Definition WrapString (s : string) : PM ObjectReference := CreateObject (StringObject s) "".

Definition UnwrapBool (r : ObjectReference) : PM bool :=
  value ← CallMethod r "get_bool" []; lift (bool_value value).
Definition UnwrapInt (r : ObjectReference) : PM Z :=
  value ← CallMethod r "get_int" []; lift (int64_value value).
Definition UnwrapString (r : ObjectReference) : PM string :=
  value ← CallMethod r "get_string" []; lift (string_value value).

(** ** Evaluation *)
(** [EvaluateExpressionList] and the [Evaluate] of each class, given the evaluation
    of the expressions contained. *)
Fixpoint evaluate_all (expressions : list (PM ObjectReference)) : PM (list ObjectReference) :=
  match expressions with
  | [] => mret []
  | x :: xs => r ← x; rs ← evaluate_all xs; mret (r :: rs)
  end.
Definition EvaluateExpressionList (expressions : list (PM ObjectReference)) : PM ObjectReference :=
  object_references ← evaluate_all expressions;
  CreateObject (ListObject object_references) "".

Definition SymbolExpression_Evaluate (symbol_id : Z) (symbol_bindings : gmap Z ObjectReference) :
    PM ObjectReference :=
  lift (check_some (symbol_bindings !! symbol_id)).

Definition BlockExpression_Evaluate (expression : Expression) (parameter_symbol_ids local_symbol_ids : list Z)
    (symbol_bindings : gmap Z ObjectReference) : PM ObjectReference :=
  CreateObject (CodeBlockObject
    (mkCodeBlock expression symbol_bindings parameter_symbol_ids local_symbol_ids)) "".

Definition FunctionCallExpression_Evaluate (function : PM ObjectReference)
    (parameters : list (PM ObjectReference)) : PM ObjectReference :=
  function_object ← function;
  parameter_list_object ← EvaluateExpressionList parameters;
  return_value ← CallMethod function_object "call" [set_object_reference 0 parameter_list_object];
  lift (object_reference return_value).

Fixpoint Evaluate (e : Expression) (symbol_bindings : gmap Z ObjectReference) : PM ObjectReference :=
  match e with
  | IntExpression n => WrapInt n
  | StringExpression s => WrapString s
  | SymbolExpression symbol_id => SymbolExpression_Evaluate symbol_id symbol_bindings
  | BlockExpression x ps ls => BlockExpression_Evaluate x ps ls symbol_bindings
  | FunctionCallExpression function parameters =>
      FunctionCallExpression_Evaluate (Evaluate function symbol_bindings)
        (map (fun p => Evaluate p symbol_bindings) parameters)
  | ListExpression list_items => EvaluateExpressionList (map (fun x => Evaluate x symbol_bindings) list_items)
  end.

(** [CHECK(symbol_bindings.emplace(symbol_id, object_reference).second)]. *)
Definition emplace_symbol (bindings : gmap Z ObjectReference) (symbol_id : Z) (r : ObjectReference) :
    res (gmap Z ObjectReference) :=
  _ ← CHECK (bool_decide (bindings !! symbol_id = None)); Ok (<[symbol_id := r]> bindings).

Definition EvaluateCodeBlock (c : CodeBlock) (parameters : list ObjectReference) : PM ObjectReference :=
  _ ← lift (CHECK (bool_decide (length parameters = length (parameter_symbol_ids_ c))));
  bindings ← lift (foldM (fun b x => emplace_symbol b x.1 x.2) (external_symbols_ c)
                     (zip (parameter_symbol_ids_ c) parameters));
  bindings ← for_each (fun b symbol_id =>
                r ← CreateObject (VariableObject None) ""; lift (emplace_symbol b symbol_id r))
              bindings (local_symbol_ids_ c);
  Evaluate (expression_ c) bindings.

(** ** The functions of the language *)

(** The loop of [Function::InvokeMethod] and [CodeBlockObject::InvokeMethod] over
    the parameter list; a vector of negative size ends the process. *)
Fixpoint get_items (parameter_list_object : ObjectReference) (count : nat) (i : Z) : PM (list ObjectReference) :=
  match count with
  | O => mret []
  | S count =>
      list_item_value ← CallMethod parameter_list_object "get_at" [set_int64_value 0 i];
      r ← lift (object_reference list_item_value);
      rs ← get_items parameter_list_object count (i + 1);
      mret (r :: rs)
  end.

Definition get_parameters (parameters : list Value) : PM (list ObjectReference) :=
  match parameters with
  | [p] =>
      parameter_list_object ← lift (object_reference p);
      length_value ← CallMethod parameter_list_object "length" [];
      parameter_count ← lift (int64_value length_value);
      _ ← lift (CHECK (0 <=? parameter_count));
      get_items parameter_list_object (Z.to_nat parameter_count) 0
  | _ => lift Fatal
  end.

(** The bodies of the loops of [for] and [while]; [fuel] bounds the iterations. *)
Fixpoint for_loop (fuel : nat) (iter code_block : ObjectReference) : PM unit :=
  match fuel with
  | O => loop_bound
  | S fuel =>
      has_next ← CallMethod iter "has_next" [];
      b ← lift (bool_value has_next);
      if negb b then mret tt
      else
        iter_value ← CallMethod iter "get_next" [];
        r ← lift (object_reference iter_value);
        iter_variable ← CreateObject (VariableObject (Some r)) "";
        l ← CreateObject (ListObject [iter_variable]) "";
        _ ← CallMethod code_block "eval" [set_object_reference 0 l];
        for_loop fuel iter code_block
  end.

Fixpoint while_loop (fuel : nat) (condition_block code_block l : ObjectReference) : PM unit :=
  match fuel with
  | O => loop_bound
  | S fuel =>
      condition_object ← CallMethod condition_block "eval" [set_object_reference 0 l];
      r ← lift (object_reference condition_object);
      condition ← UnwrapBool r;
      if negb condition then mret tt
      else
        _ ← CallMethod code_block "eval" [set_object_reference 0 l];
        while_loop fuel condition_block code_block l
  end.

(** The loop of [PrintFunction::Call]; [%s] of a C string. *)
Fixpoint print_loop (first : bool) (parameters : list ObjectReference) : PM unit :=
  match parameters with
  | [] => mret tt
  | r :: rest =>
      _ ← (if first then mret tt else printf " ");
      str ← UnwrapString r;
      _ ← printf (c_str str);
      print_loop false rest
  end.

(** ** [Function::Call] of each subclass *)
Definition ListFunction_Call (parameters : list ObjectReference) : PM ObjectReference :=
  CreateObject (ListObject parameters) "".

Definition GetVariableFunction_Call (parameters : list ObjectReference) : PM ObjectReference :=
  match parameters with
  | [variable] => value ← CallMethod variable "get" []; lift (object_reference value)
  | _ => lift Fatal
  end.

Definition SetVariableFunction_Call (parameters : list ObjectReference) : PM ObjectReference :=
  match parameters with
  | [variable; object] =>
      _ ← CallMethod variable "set" [set_object_reference 0 object]; MakeNoneObject
  | _ => lift Fatal
  end.

Definition ForFunction_Call (fuel : nat) (parameters : list ObjectReference) : PM ObjectReference :=
  match parameters with
  | [iter; code_block] => _ ← for_loop fuel iter code_block; MakeNoneObject
  | _ => lift Fatal
  end.

Definition RangeFunction_Call (parameters : list ObjectReference) : PM ObjectReference :=
  match parameters with
  | [p] =>
      limit ← UnwrapInt p;
      o ← lift (NewRangeIteratorObject limit 0);
      CreateObject o ""
  | _ => lift Fatal
  end.

Definition PrintFunction_Call (parameters : list ObjectReference) : PM ObjectReference :=
  _ ← print_loop true parameters;
  _ ← printf (str1 Lexer.newline);
  MakeNoneObject.

Definition AddFunction_Call (parameters : list ObjectReference) : PM ObjectReference :=
  sum ← for_each (fun sum r => number ← UnwrapInt r; lift (add64 sum number)) 0 parameters;
  WrapInt sum.

Definition BeginTranFunction_Call (parameters : list ObjectReference) : PM ObjectReference :=
  match parameters with
  | [] => _ ← BeginTransaction; MakeNoneObject
  | _ => lift Fatal
  end.

Definition EndTranFunction_Call (parameters : list ObjectReference) : PM ObjectReference :=
  match parameters with
  | [] => _ ← EndTransaction; MakeNoneObject
  | _ => lift Fatal
  end.

Definition IfFunction_Call (parameters : list ObjectReference) : PM ObjectReference :=
  match parameters with
  | condition_object :: code_block1 :: rest =>
      _ ← lift (CHECK (bool_decide (length rest ≤ 1)%nat));
      condition ← UnwrapBool condition_object;
      match (if (condition : bool) then Some code_block1 else head rest) with
      | None => MakeNoneObject
      | Some code_block =>
          l ← CreateObject (ListObject []) "";
          result ← CallMethod code_block "eval" [set_object_reference 0 l];
          lift (object_reference result)
      end
  | _ => lift Fatal
  end.

Definition NotFunction_Call (parameters : list ObjectReference) : PM ObjectReference :=
  match parameters with
  | [p] => condition ← UnwrapBool p; WrapBool (negb condition)
  | _ => lift Fatal
  end.

Definition WhileFunction_Call (fuel : nat) (parameters : list ObjectReference) : PM ObjectReference :=
  match parameters with
  | [condition_block; code_block] =>
      l ← CreateObject (ListObject []) "";
      _ ← while_loop fuel condition_block code_block l;
      MakeNoneObject
  | _ => lift Fatal
  end.

Definition LessThanFunction_Call (parameters : list ObjectReference) : PM ObjectReference :=
  match parameters with
  | [p; q] => x ← UnwrapInt p; y ← UnwrapInt q; WrapBool (x <? y)
  | _ => lift Fatal
  end.

Definition LenFunction_Call (parameters : list ObjectReference) : PM ObjectReference :=
  match parameters with
  | [p] => length ← CallMethod p "length" []; n ← lift (int64_value length); WrapInt n
  | _ => lift Fatal
  end.

Definition ListAppendFunction_Call (parameters : list ObjectReference) : PM ObjectReference :=
  match parameters with
  | [the_list; object] =>
      _ ← CallMethod the_list "append" [set_object_reference 0 object]; MakeNoneObject
  | _ => lift Fatal
  end.

Definition ListGetFunction_Call (parameters : list ObjectReference) : PM ObjectReference :=
  match parameters with
  | [the_list; p] =>
      index ← UnwrapInt p;
      item ← CallMethod the_list "get_at" [set_int64_value 0 index];
      lift (object_reference item)
  | _ => lift Fatal
  end.

Definition MapIsSetFunction_Call (parameters : list ObjectReference) : PM ObjectReference :=
  match parameters with
  | [the_map; p] =>
      key ← UnwrapString p;
      result ← CallMethod the_map "is_set" [set_string_value 0 key];
      b ← lift (bool_value result);
      WrapBool b
  | _ => lift Fatal
  end.

Definition MapGetFunction_Call (parameters : list ObjectReference) : PM ObjectReference :=
  match parameters with
  | [the_map; p] =>
      key ← UnwrapString p;
      result ← CallMethod the_map "get" [set_string_value 0 key];
      lift (object_reference result)
  | _ => lift Fatal
  end.

Definition MapSetFunction_Call (parameters : list ObjectReference) : PM ObjectReference :=
  match parameters with
  | [the_map; p; object] =>
      key ← UnwrapString p;
      _ ← CallMethod the_map "set" [set_string_value 0 key; set_object_reference 0 object];
      MakeNoneObject
  | _ => lift Fatal
  end.

(** The virtual call. *)
Definition Call (fuel : nat) (f : FunctionKind) : list ObjectReference → PM ObjectReference :=
  match f with
  | ListFunction => ListFunction_Call
  | GetVariableFunction => GetVariableFunction_Call
  | SetVariableFunction => SetVariableFunction_Call
  | ForFunction => ForFunction_Call fuel
  | RangeFunction => RangeFunction_Call
  | PrintFunction => PrintFunction_Call
  | AddFunction => AddFunction_Call
  | BeginTranFunction => BeginTranFunction_Call
  | EndTranFunction => EndTranFunction_Call
  | IfFunction => IfFunction_Call
  | NotFunction => NotFunction_Call
  | WhileFunction => WhileFunction_Call fuel
  | LessThanFunction => LessThanFunction_Call
  | LenFunction => LenFunction_Call
  | ListAppendFunction => ListAppendFunction_Call
  | ListGetFunction => ListGetFunction_Call
  | MapIsSetFunction => MapIsSetFunction_Call
  | MapGetFunction => MapGetFunction_Call
  | MapSetFunction => MapSetFunction_Call
  end.

(** ** [LocalObject::InvokeMethod] *)
Definition TrueMod (a b : Z) : res Z :=
  _ ← CHECK (negb (b =? 0)); Ok (Z.rem (Z.rem a b + b) b).

Definition return_ (v : Value) : PM Value := mret v.

Section methods.
Context (fuel : nat).

Definition InvokeFunction (f : FunctionKind) (method_name : string) (parameters : list Value) : PM Value :=
  if bool_decide (method_name = "call") then
    param_objects ← get_parameters parameters;
    return_object ← Call fuel f param_objects;
    return_ (set_object_reference 0 return_object)
  else lift Fatal.

Definition InvokeBool (b : bool) (method_name : string) (parameters : list Value) : PM Value :=
  if bool_decide (method_name = "get_bool") then
    _ ← lift (CHECK (bool_decide (length parameters = 0%nat)));
    return_ (set_bool_value 0 b)
  else if bool_decide (method_name = "get_string") then
    _ ← lift (CHECK (bool_decide (length parameters = 0%nat)));
    return_ (set_string_value 0 (if b then "true" else "false"))
  else lift Fatal.

Definition InvokeInt (n : Z) (method_name : string) (parameters : list Value) : PM Value :=
  if bool_decide (method_name = "get_int") then
    _ ← lift (CHECK (bool_decide (length parameters = 0%nat)));
    return_ (set_int64_value 0 n)
  else if bool_decide (method_name = "get_string") then
    _ ← lift (CHECK (bool_decide (length parameters = 0%nat)));
    return_ (set_string_value 0 (printf_d n))
  else lift Fatal.

Definition InvokeString (s : string) (method_name : string) (parameters : list Value) : PM Value :=
  if bool_decide (method_name = "get_string") then
    _ ← lift (CHECK (bool_decide (length parameters = 0%nat)));
    return_ (set_string_value 0 s)
  else lift Fatal.

Definition InvokeVariable (r : option ObjectReference) (method_name : string) (parameters : list Value) : PM Value :=
  if bool_decide (method_name = "get") then
    _ ← lift (CHECK (bool_decide (length parameters = 0%nat)));
    object_reference ← lift (check_some r);
    return_ (set_object_reference 0 object_reference)
  else if bool_decide (method_name = "set") then
    match parameters with
    | [p] =>
        object_reference ← lift (object_reference p);
        _ ← write_object (VariableObject (Some object_reference));
        return_ (set_empty 0)
    | _ => lift Fatal
    end
  else lift Fatal.

Definition InvokeCodeBlock (c : CodeBlock) (method_name : string) (parameters : list Value) : PM Value :=
  if bool_decide (method_name = "eval") then
    parameter_object_references ← get_parameters parameters;
    object_reference ← EvaluateCodeBlock c parameter_object_references;
    return_ (set_object_reference 0 object_reference)
  else lift Fatal.

(** The loop of [get_string]. *)
Fixpoint items_string (first : bool) (items : list ObjectReference) : PM string :=
  match items with
  | [] => mret ""
  | r :: rest =>
      item_str ← UnwrapString r;
      s ← items_string false rest;
      mret ((if first then "" else " ") ++ item_str ++ s)
  end.

Definition InvokeList (items : list ObjectReference) (method_name : string) (parameters : list Value) : PM Value :=
  if bool_decide (method_name = "length") then
    _ ← lift (CHECK (bool_decide (length parameters = 0%nat)));
    return_ (set_int64_value 0 (Z.of_nat (length items)))
  else if bool_decide (method_name = "get_at") then
    match parameters with
    | [p] =>
        index ← lift (int64_value p);
        _ ← lift (CHECK (negb (bool_decide (items = []))));
        i ← lift (TrueMod index (Z.of_nat (length items)));
        r ← lift (deref (items !! Z.to_nat i));
        return_ (set_object_reference 0 r)
    | _ => lift Fatal
    end
  else if bool_decide (method_name = "append") then
    match parameters with
    | [p] =>
        r ← lift (object_reference p);
        _ ← write_object (ListObject (items ++ [r])%list);
        return_ (set_empty 0)
    | _ => lift Fatal
    end
  else if bool_decide (method_name = "get_string") then
    _ ← lift (CHECK (bool_decide (length parameters = 0%nat)));
    s ← items_string true items;
    return_ (set_string_value 0 ("[" ++ s ++ "]"))
  else lift Fatal.

Definition InvokeMap (map_ : gmap string ObjectReference) (method_name : string) (parameters : list Value) : PM Value :=
  if bool_decide (method_name = "is_set") then
    match parameters with
    | [p] =>
        key ← lift (string_value p);
        return_ (set_bool_value 0 (bool_decide (is_Some (map_ !! key))))
    | _ => lift Fatal
    end
  else if bool_decide (method_name = "get") then
    match parameters with
    | [p] =>
        key ← lift (string_value p);
        r ← lift (check_some (map_ !! key));
        return_ (set_object_reference 0 r)
    | _ => lift Fatal
    end
  else if bool_decide (method_name = "set") then
    match parameters with
    | [p; q] =>
        key ← lift (string_value p);
        r ← lift (object_reference q);
        _ ← write_object (MapObject (<[key := r]> map_));
        return_ (set_empty 0)
    | _ => lift Fatal
    end
  else lift Fatal.

Definition InvokeRangeIterator (limit i : Z) (method_name : string) (parameters : list Value) : PM Value :=
  if bool_decide (method_name = "has_next") then
    _ ← lift (CHECK (bool_decide (length parameters = 0%nat)));
    _ ← lift (CHECK (i <=? limit));
    return_ (set_bool_value 0 (i <? limit))
  else if bool_decide (method_name = "get_next") then
    _ ← lift (CHECK (bool_decide (length parameters = 0%nat)));
    _ ← lift (CHECK (i <? limit));
    r ← WrapInt i;
    i' ← lift (add64 i 1);
    _ ← write_object (RangeIteratorObject limit i');
    return_ (set_object_reference 0 r)
  else lift Fatal.

(** [ProgramObject::ResolveExternalSymbol]. *)
Definition ResolveExternalSymbol (external_symbols : gmap string Z) (bindings : gmap Z ObjectReference)
    (x : string * bool * LocalObjectImpl) : PM (gmap Z ObjectReference) :=
  let '(symbol_name, visible, local_object) := x in
  symbol_id ← lift (check_some (external_symbols !! symbol_name));
  built_in_object ← CreateObject local_object symbol_name;
  object_reference ← (if (visible : bool) then CreateObject (VariableObject (Some built_in_object)) ""
                      else mret built_in_object);
  lift (emplace_symbol bindings symbol_id object_reference).

(** The symbols that [ProgramObject::InvokeMethod] resolves. *)
Definition built_ins : list (string * bool * LocalObjectImpl) :=
  [("get", false, FunctionObject GetVariableFunction); ("set", false, FunctionObject SetVariableFunction);
   ("for", false, FunctionObject ForFunction); ("while", false, FunctionObject WhileFunction);
   ("false", true, BoolObject false); ("true", true, BoolObject true);
   ("list", true, FunctionObject ListFunction); ("range", true, FunctionObject RangeFunction);
   ("print", true, FunctionObject PrintFunction); ("add", true, FunctionObject AddFunction);
   ("begin_tran", true, FunctionObject BeginTranFunction); ("end_tran", true, FunctionObject EndTranFunction);
   ("if", true, FunctionObject IfFunction); ("not", true, FunctionObject NotFunction);
   ("lt", true, FunctionObject LessThanFunction); ("len", true, FunctionObject LenFunction);
   ("list.append", true, FunctionObject ListAppendFunction); ("list.get", true, FunctionObject ListGetFunction);
   ("map.is_set", true, FunctionObject MapIsSetFunction); ("map.get", true, FunctionObject MapGetFunction);
   ("map.set", true, FunctionObject MapSetFunction); ("shared", true, MapObject ∅)].

Definition InvokeProgram (external_symbols : gmap string Z) (expression : Expression)
    (method_name : string) (parameters : list Value) : PM Value :=
  _ ← lift (CHECK (bool_decide (method_name = "run")));
  _ ← BeginTransaction;
  symbol_bindings ← for_each (ResolveExternalSymbol external_symbols) ∅ built_ins;
  _ ← EndTransaction;
  code_block_object ← Evaluate expression symbol_bindings;
  list_object ← CreateObject (ListObject []) "";
  _ ← CallMethod code_block_object "eval" [set_object_reference 0 list_object];
  return_ (set_empty 0).

Definition InvokeMethod (lo : LocalObjectImpl) (method_name : string) (parameters : list Value) : PM Value :=
  match lo with
  | NoneObject => lift Fatal
  | BoolObject b => InvokeBool b method_name parameters
  | IntObject n => InvokeInt n method_name parameters
  | StringObject s => InvokeString s method_name parameters
  | VariableObject r => InvokeVariable r method_name parameters
  | CodeBlockObject c => InvokeCodeBlock c method_name parameters
  | ListObject items => InvokeList items method_name parameters
  | MapObject m => InvokeMap m method_name parameters
  | RangeIteratorObject limit i => InvokeRangeIterator limit i method_name parameters
  | FunctionObject f => InvokeFunction f method_name parameters
  | ProgramObject ids e => InvokeProgram ids e method_name parameters
  end.

(** The interpreter as the engine sees it. *)
Definition toy_invoke (self_object_reference : ObjectReference) (method_name : string)
    (parameters : list Value) : prog LocalObjectImpl :=
  PRead (fun lo => InvokeMethod lo method_name parameters PReturn).
#[local] Instance toy_methods : LocalObjectMethods LocalObjectImpl := toy_invoke.

End methods.

(** ** Well-formed objects

    An object is well formed in a world [K] if the references it holds exist, if a
    code block is well scoped in what it has captured and if an iterator has not
    passed its limit. *)
Definition code_block_ok (c : CodeBlock) : Prop :=
  let D := dom (external_symbols_ c) in
  let ids := (parameter_symbol_ids_ c ++ local_symbol_ids_ c)%list in
  NoDup ids ∧ Forall (fun i => i ∉ D) ids ∧ well_scoped (D ∪ list_to_set ids) (expression_ c).

(** The symbols of a program. *)
Definition ids_of (ids : gmap string Z) (l : list (string * bool * LocalObjectImpl)) : list Z :=
  omap (fun x => ids !! x.1.1) l.
Definition ids_ok (ids : gmap string Z) (l : list (string * bool * LocalObjectImpl)) : Prop :=
  Forall (fun x => is_Some (ids !! x.1.1)) l ∧ NoDup (ids_of ids l).

Definition known_map `{Countable A} (K : world) (m : gmap A ObjectReference) : Prop :=
  map_Forall (fun _ => K) m.

Definition object_ok (K : world) (lo : LocalObjectImpl) : Prop :=
  match lo with
  | VariableObject (Some r) => K r
  | CodeBlockObject c => code_block_ok c ∧ known_map K (external_symbols_ c)
  | ListObject items => Forall K items
  | MapObject m => known_map K m
  | RangeIteratorObject limit i => i ≤ limit
  | ProgramObject ids e => well_scoped (list_to_set (ids_of ids built_ins)) e
  | _ => True
  end.

Lemma known_map_mono `{Countable A} K K' (m : gmap A ObjectReference) :
  extends K K' → known_map K m → known_map K' m.
Proof. intros He Hm i r Hi. by apply He, (Hm i). Qed.
Lemma known_list_mono K K' rs : extends K K' → Forall K rs → Forall K' rs.
Proof. intros He Hr. eapply Forall_impl; [exact Hr|]. exact He. Qed.
Lemma known_values_mono K K' vs :
  extends K K' → Forall (known_value K) vs → Forall (known_value K') vs.
Proof. intros He Hr. eapply Forall_impl; [exact Hr|]. intros v. by apply known_value_mono. Qed.
Lemma object_ok_mono K K' lo : extends K K' → object_ok K lo → object_ok K' lo.
Proof.
  intros He. destruct lo as [| | | |[r|]|c|items|m| | |]; cbn [object_ok]; try exact id; [apply He|..].
  - intros [? ?]. split; [done|]. by eapply known_map_mono.
  - by apply known_list_mono.
  - by apply known_map_mono.
Qed.

(** Moves what is known in a world to a later one. *)
Ltac upgrade He :=
  cbv beta in *;
  lazymatch type of He with
  | extends ?K ?K' =>
      repeat match goal with
      | H : K _ |- _ => apply He in H
      | H : Forall K _ |- _ => apply (known_list_mono _ _ _ He) in H
      | H : known_map K _ |- _ => apply (known_map_mono _ _ _ He) in H
      | H : known_value K _ |- _ => apply (known_value_mono _ _ _ He) in H
      | H : Forall (known_value K) _ |- _ => apply (known_values_mono _ _ _ He) in H
      end; clear He
  end.

(** ** Parts of a method *)
Section behaviour.
Context (answers : string → Value → Prop) (fails : bool).

(** In the world [K] the part [m] behaves, and its result satisfies [Q] in the
    world it ends in. *)
Definition makes (K : world) {A} (m : PM A) (Q : world → A → Prop) : Prop :=
  ∀ k, (∀ K' a, extends K K' → Q K' a → behaves object_ok answers fails K' (k a)) →
  behaves object_ok answers fails K (m k).

Lemma makes_ret K {A} (a : A) (Q : world → A → Prop) : Q K a → makes K (mret a) Q.
Proof. intros Ha k Hk. by apply Hk. Qed.

Lemma makes_bind K {A B} (m : PM A) (f : A → PM B) (Q : world → A → Prop) (R : world → B → Prop) :
  makes K m Q → (∀ K' a, extends K K' → Q K' a → makes K' (f a) R) → makes K (m ≫= f) R.
Proof.
  intros Hm Hf k Hk. apply Hm. intros K' a He Ha. apply (Hf K' a He Ha).
  intros K'' b He'. apply Hk. by etrans.
Qed.

Lemma makes_mono K {A} (m : PM A) (Q R : world → A → Prop) :
  makes K m Q → (∀ K' a, extends K K' → Q K' a → R K' a) → makes K m R.
Proof. intros Hm HQ k Hk. apply Hm. auto. Qed.

Lemma makes_call K r name ps :
  K r → name ≠ "" → Forall (known_value K) ps →
  makes K (CallMethod r name ps) (fun K' v => known_value K' v ∧ answers name v).
Proof. intros Hr Hn Hps k Hk. split_and!; [done..|]. intros K' v He Hv Ha. by apply Hk. Qed.

Lemma makes_create K lo name : object_ok K lo → makes K (CreateObject lo name) (fun K' r => K' r).
Proof. intros Hlo k Hk. split; [done|]. intros K' r He Hr. by apply Hk. Qed.

Lemma makes_write K lo : object_ok K lo → makes K (write_object lo) (fun _ _ => True).
Proof. intros Hlo k Hk. split; [done|]. by apply Hk. Qed.

Lemma makes_begin K : makes K BeginTransaction (fun _ _ => True).
Proof. intros k Hk. by apply Hk. Qed.
Lemma makes_end K : makes K EndTransaction (fun _ _ => True).
Proof. intros k Hk. by apply Hk. Qed.
Lemma makes_printf K text : makes K (printf text) (fun _ _ => True).
Proof. intros k Hk. by apply Hk. Qed.

Lemma makes_lift K {A} (r : res A) :
  (fails = true ∨ is_ok r = true) → makes K (lift r) (fun _ a => r = Ok a).
Proof.
  intros Hr k Hk. unfold lift. destruct r; simpl in *; [by apply Hk|..]; destruct Hr; done.
Qed.

Lemma makes_object_reference K v :
  (fails = true ∨ is_ok (object_reference v) = true) → known_value K v →
  makes K (lift (object_reference v)) (fun K' r => K' r).
Proof.
  intros Hr Hv. eapply makes_mono; [by apply makes_lift|]. intros K' r He E. upgrade He.
  unfold object_reference, known_value in *. by destruct (data v); simplify_eq.
Qed.

Lemma makes_for_each K {A B} (f : B → A → PM B) (I : world → B → list A → Prop) b l :
  (∀ K b x l, I K b (x :: l) → makes K (f b x) (fun K' b' => I K' b' l)) → I K b l →
  makes K (for_each f b l) (fun K' b' => I K' b' []).
Proof.
  intros Hf. revert K b. induction l as [|x l IH]; intros K b Hb; simpl; [by apply makes_ret|].
  eapply makes_bind; [by apply Hf|]. intros K' b' _. apply IH.
Qed.

(** ** Evaluation of well-scoped expressions *)
Context (H_call : ∀ v, answers "call" v → fails = true ∨ is_ok (object_reference v) = true).

Lemma evaluate_all_makes K (l : list (PM ObjectReference)) :
  Forall (fun m => ∀ K', extends K K' → makes K' m (fun K r => K r)) l →
  makes K (evaluate_all l) (fun K' rs => Forall K' rs).
Proof.
  revert K. induction l as [|m l IH]; intros K HF; [by apply makes_ret|].
  apply Forall_cons in HF as [Hm HF]. simpl.
  eapply makes_bind; [by apply Hm|]. intros K1 r He1 Hr.
  eapply makes_bind.
  { apply IH. eapply Forall_impl; [exact HF|]. intros m' Hm' K' He'. apply Hm'. by etrans. }
  intros K2 rs He2 Hrs. upgrade He2. apply makes_ret. by constructor.
Qed.

Lemma Evaluate_makes K e b :
  well_scoped (dom b) e → known_map K b → makes K (Evaluate e b) (fun K' r => K' r).
Proof.
  revert K.
  assert (∀ es, Forall (fun e => ∀ K, well_scoped (dom b) e → known_map K b →
      makes K (Evaluate e b) (fun K' r => K' r)) es →
    foldr (fun x P => well_scoped (dom b) x ∧ P) True es → ∀ K, known_map K b →
    makes K (EvaluateExpressionList (map (fun x => Evaluate x b) es)) (fun K' r => K' r)) as Hlist.
  { intros es HF Hes K Hb. eapply makes_bind; [apply evaluate_all_makes|intros K' rs ? Hrs; by apply makes_create].
    induction HF as [|x es Hx _ IH]; simpl in *; constructor; destruct Hes as [? Hes].
    - intros K' He. upgrade He. by apply Hx.
    - by apply IH. }
  induction e as [n|s|i|x ps ls _|f ps IHf IHps|es IHes] using Expression_ind'; intros K Hw Hb; simpl in Hw.
  - by apply makes_create.
  - by apply makes_create.
  - eapply makes_mono; [apply makes_lift|].
    + right. apply elem_of_dom in Hw as [r ->]. done.
    + intros K' r He Hr%check_some_Ok. upgrade He. by apply (Hb i).
  - apply makes_create. by split.
  - destruct Hw as [Hf Hps]. eapply makes_bind; [by apply IHf|]. intros K1 fo He Hfo. upgrade He.
    eapply makes_bind; [by apply Hlist|]. intros K2 po He Hpo. upgrade He.
    eapply makes_bind; [apply makes_call; [done|done|by constructor]|]. intros K3 v He [Hv Ha]. upgrade He.
    apply makes_object_reference; auto.
  - by apply Hlist.
Qed.

(** Adding bindings succeeds for distinct symbols that are not bound. *)
Lemma emplace_symbol_ok b i r :
  i ∉ dom b → emplace_symbol b i r = Ok (<[i := r]> b).
Proof.
  intros Hi. unfold emplace_symbol. rewrite bool_decide_true; [done|]. by apply not_elem_of_dom.
Qed.

Lemma known_map_insert `{Countable A} K i r (b : gmap A ObjectReference) :
  K r → known_map K b → known_map K (<[i := r]> b).
Proof. intros Hr Hb. by apply map_Forall_insert_2. Qed.

Lemma emplace_parameters K ids rs b :
  length rs = length ids → NoDup ids → Forall (fun i => i ∉ dom b) ids → Forall K rs → known_map K b →
  ∃ b', foldM (fun b x => emplace_symbol b x.1 x.2) b (zip ids rs) = Ok b' ∧
    dom b' = dom b ∪ list_to_set ids ∧ known_map K b'.
Proof.
  revert rs b. induction ids as [|i ids IH]; intros [|r rs] b Hl Hnd Hf Hr Hb; try done.
  - exists b. split_and!; [done|simpl; set_solver|done].
  - apply NoDup_cons in Hnd as [Hi Hnd]. apply Forall_cons in Hf as [Hib Hf], Hr as [Hr Hrs]. simpl.
    rewrite emplace_symbol_ok by done. simpl.
    destruct (IH rs (<[i := r]> b)) as (b' & -> & Hd & Hb'); [simpl in Hl; lia|done| |done| |].
    { rewrite Forall_forall in *. set_solver. }
    { by apply known_map_insert. }
    exists b'. split_and!; [done| |done]. rewrite Hd, dom_insert_L. simpl. apply set_eq. set_solver.
Qed.

Lemma emplace_local_makes K b i r l D :
  K r → known_map K b → NoDup (i :: l) → Forall (fun i => i ∉ dom b) (i :: l) →
  dom b ∪ list_to_set (i :: l) = D →
  makes K (lift (emplace_symbol b i r)) (fun K' b' => NoDup l ∧ Forall (fun i => i ∉ dom b') l ∧
    dom b' ∪ list_to_set l = D ∧ known_map K' b').
Proof.
  intros Hr Hb [Hil Hn]%NoDup_cons [Hib Hi]%Forall_cons Hd. rewrite emplace_symbol_ok by done.
  eapply makes_mono; [apply makes_lift; by right|]. intros K' b' He [= <-]. upgrade He. split_and!; [done| | |].
  - rewrite Forall_forall in *. set_solver.
  - rewrite <- Hd, dom_insert_L. simpl. apply set_eq. set_solver.
  - by apply known_map_insert.
Qed.

Lemma EvaluateCodeBlock_makes K c rs :
  code_block_ok c → known_map K (external_symbols_ c) → Forall K rs →
  (fails = true ∨ length rs = length (parameter_symbol_ids_ c)) →
  makes K (EvaluateCodeBlock c rs) (fun K' r => K' r).
Proof.
  intros (Hnd & Hf & Hw) Hext Hrs Hl. unfold EvaluateCodeBlock.
  eapply makes_bind; [apply makes_lift|].
  { destruct Hl as [|Hl]; [by left|right]. by rewrite bool_decide_true. }
  intros K1 u He Hu. upgrade He. apply CHECK_Ok, bool_decide_eq_true in Hu.
  apply NoDup_app in Hnd as (Hnd1 & Hdis & Hnd2). apply Forall_app in Hf as [Hf1 Hf2].
  destruct (emplace_parameters K1 _ rs _ Hu Hnd1 Hf1) as (b1 & E1 & Hd1 & Hb1); [done..|].
  eapply makes_bind; [apply makes_lift; rewrite E1; by right|]. intros K2 b He Hb. rewrite E1 in Hb.
  injection Hb as <-. upgrade He.
  eapply makes_bind.
  { apply (makes_for_each _ _ (fun K b l => NoDup l ∧ Forall (fun i => i ∉ dom b) l ∧
      dom b ∪ list_to_set l = dom (external_symbols_ c) ∪
        list_to_set (parameter_symbol_ids_ c ++ local_symbol_ids_ c)%list ∧ known_map K b)).
    - intros K0 b i l (Hn & Hi & Hd & Hb).
      eapply makes_bind; [by apply makes_create|]. intros K' r He Hr. upgrade He. by apply emplace_local_makes.
    - split_and!; [done| | |done].
      + rewrite Hd1. rewrite Forall_forall in *. set_solver.
      + rewrite Hd1. apply set_eq. set_solver. }
  intros K3 b He (_ & _ & Hd & Hb). apply Evaluate_makes; [|done].
  simpl in Hd. rewrite union_empty_r_L in Hd. by rewrite Hd.
Qed.

Lemma resolve_makes K ids l0 :
  Forall (fun x => ∀ K, object_ok K x.2) l0 → (fails = true ∨ ids_ok ids l0) →
  makes K (for_each (ResolveExternalSymbol ids) ∅ l0)
    (fun K' b => dom b = list_to_set (ids_of ids l0) ∧ known_map K' b).
Proof.
  intros HP0 Hids. eapply makes_mono.
  - apply (makes_for_each _ _ (fun K b l => Forall (fun x => ∀ K, object_ok K x.2) l ∧
      dom b ∪ list_to_set (ids_of ids l) = list_to_set (ids_of ids l0) ∧
      (fails = true ∨ Forall (fun x => is_Some (ids !! x.1.1)) l ∧ NoDup (ids_of ids l) ∧
         Forall (fun i => i ∉ dom b) (ids_of ids l)) ∧ known_map K b)).
    + intros K1 b [[name v] o] l (HF & Hd & Hok & Hb). apply Forall_cons in HF as [Ho HF].
      unfold ids_of in *. csimpl in *.
      eapply makes_bind; [apply makes_lift|].
      { destruct Hok as [|(Hs & _)]; [by left|right]. apply Forall_cons in Hs as [[i E] _].
        simpl in E. by rewrite E. }
      intros K2 i He Hi. upgrade He. apply check_some_Ok in Hi. rewrite Hi in *.
      eapply makes_bind; [by apply makes_create|]. intros K3 r He Hr. upgrade He.
      eapply (makes_bind _ _ _ (fun K r => K r)); [destruct v; [by apply makes_create|by apply makes_ret]|].
      intros K4 r' He Hr'. upgrade He. eapply makes_mono; [apply makes_lift|].
      { destruct Hok as [|(_ & _ & Hn)]; [by left|right]. apply Forall_cons in Hn as [Hn _].
        by rewrite emplace_symbol_ok. }
      intros K5 b' He Hb'. upgrade He. unfold emplace_symbol in Hb'. res_inv. split_and!; [done| | |].
      * rewrite <- Hd, dom_insert_L. simpl. apply set_eq. set_solver.
      * destruct Hok as [|(Hs & Hnd & Hn)]; [by left|right]. apply Forall_cons in Hs as [_ Hs].
        apply NoDup_cons in Hnd as [Hi' Hnd]. apply Forall_cons in Hn as [_ Hn].
        split_and!; [done..|]. rewrite dom_insert_L. rewrite Forall_forall in *. set_solver.
      * by apply known_map_insert.
    + split_and!; [done|by rewrite dom_empty_L, union_empty_l_L| |apply map_Forall_empty].
      destruct Hids as [|[Hs Hnd]]; [by left|right]. split_and!; [done..|].
      apply Forall_forall. intros i _. rewrite dom_empty_L. apply not_elem_of_empty.
  - simpl. intros K' b _ (_ & Hd & _ & Hb). rewrite union_empty_r_L in Hd. done.
Qed.

Lemma built_ins_ok : Forall (fun x => ∀ K, object_ok K x.2) built_ins.
Proof. repeat constructor; intros K; try exact I. apply map_Forall_empty. Qed.

Lemma InvokeProgram_makes K ids e name ps :
  (fails = true ∨ ids_ok ids built_ins ∧ name = "run") → well_scoped (list_to_set (ids_of ids built_ins)) e →
  makes K (InvokeProgram ids e name ps) known_value.
Proof.
  intros Hok Hw. unfold InvokeProgram.
  eapply makes_bind; [apply makes_lift|].
  { destruct Hok as [|[_ ->]]; [by left|by right]. }
  intros K1 _ _ _. eapply makes_bind; [apply makes_begin|]. intros K2 _ _ _.
  eapply makes_bind; [apply resolve_makes; [apply built_ins_ok|]; destruct Hok as [|[? _]]; [by left|by right]|].
  intros K3 b _ [Hd Hb]. eapply makes_bind; [apply makes_end|]. intros K4 _ He _. upgrade He.
  eapply makes_bind; [apply Evaluate_makes; [by rewrite Hd|done]|]. intros K5 r He Hr. upgrade He.
  eapply makes_bind; [apply makes_create; constructor|]. intros K6 l He Hl. upgrade He.
  eapply makes_bind; [apply makes_call; [done|done|by constructor]|]. intros K7 v _ _. by apply makes_ret.
Qed.

End behaviour.

(** ** Every method of every object *)
Section preservation.
Abbreviation makes_ok := (makes (fun _ _ => True) true).

Create HintDb makes.
Create HintDb toy_call.
Lemma ok_call K r name ps :
  K r → name ≠ "" → Forall (known_value K) ps → makes_ok K (CallMethod r name ps) known_value.
Proof. intros. eapply makes_mono; [by apply makes_call|]. by intros K' v _ [? _]. Qed.
Lemma ok_lift K {A} (r : res A) : makes_ok K (lift r) (fun _ a => r = Ok a).
Proof. apply makes_lift. by left. Qed.
Lemma ok_reference K v : known_value K v → makes_ok K (lift (object_reference v)) (fun K' r => K' r).
Proof. apply makes_object_reference. by left. Qed.
Lemma ok_fatal K {A} (Q : world → A → Prop) : makes_ok K (lift Fatal) Q.
Proof. eapply makes_mono; [apply ok_lift|done]. Qed.
Lemma ok_bound K {A} (Q : world → A → Prop) : makes_ok K (loop_bound (A := A)) Q.
Proof. by intros k Hk. Qed.
#[local] Hint Resolve makes_begin makes_end makes_printf : makes.
#[local] Hint Resolve ok_lift | 2 : makes.
#[local] Hint Extern 0 (makes _ _ _ (lift (object_reference _)) _) => apply ok_reference; assumption : makes.
#[local] Hint Extern 1 (makes _ _ _ (CallMethod _ _ _) _) =>
  apply ok_call; [assumption|discriminate|repeat constructor; assumption] : makes.
#[local] Hint Extern 2 (makes _ _ _ (CreateObject _ _) _) =>
  apply makes_create; cbn [object_ok]; repeat constructor; assumption : makes.
#[local] Hint Extern 2 (makes _ _ _ (WrapInt _) _) => apply makes_create; exact I : makes.
#[local] Hint Extern 2 (makes _ _ _ (WrapBool _) _) => apply makes_create; exact I : makes.
#[local] Hint Extern 2 (makes _ _ _ MakeNoneObject _) => apply makes_create; exact I : makes.

Ltac makes_step :=
  match goal with
  | H : Forall _ (_ :: _) |- _ => apply Forall_cons in H as [? ?]
  | |- makes _ _ _ (lift Fatal) _ => apply ok_fatal
  | |- makes _ _ _ loop_bound _ => apply ok_bound
  | |- makes _ _ _ (match (if ?c then _ else _) with _ => _ end) _ => destruct c
  | |- makes _ _ _ (match head ?l with _ => _ end) _ => destruct l; cbn [head]
  | |- makes _ _ _ (match ?x with _ => _ end) _ => destruct x
  | |- makes _ _ _ (if ?x then _ else _) _ => destruct x
  | |- makes _ _ _ (return_ _) _ => apply makes_ret; try exact I; try assumption
  | |- makes _ _ _ (mret _) _ => apply makes_ret; repeat constructor; try assumption
  | |- makes _ _ _ (write_object _ ≫= _) _ =>
      eapply makes_bind; [apply makes_write; cbn [object_ok]|let He := fresh in intros ?? He ?; upgrade He]
  | |- makes _ _ _ (_ ≫= _) _ =>
      eapply makes_bind; [solve [eauto with makes]|let He := fresh in intros ?? He ?; upgrade He]
  | |- _ => solve [eauto with makes]
  | |- makes _ _ _ (lift _) (fun _ _ => True) => eapply makes_mono; [apply ok_lift|intros ????; exact I]
  end.
Ltac makes_steps := repeat makes_step.

Lemma get_items_ok K l n i : K l → makes_ok K (get_items l n i) (fun K' rs => Forall K' rs).
Proof. revert K i. induction n as [|n IH]; intros K i Hl; cbn [get_items]; makes_steps. Qed.
#[local] Hint Resolve get_items_ok : makes.
Lemma get_parameters_ok K ps :
  Forall (known_value K) ps → makes_ok K (get_parameters ps) (fun K' rs => Forall K' rs).
Proof. intros Hps. unfold get_parameters. makes_steps. Qed.
#[local] Hint Resolve get_parameters_ok : makes.
Lemma UnwrapBool_ok K r : K r → makes_ok K (UnwrapBool r) (fun _ _ => True).
Proof. intros Hr. unfold UnwrapBool. makes_steps. Qed.
Lemma UnwrapInt_ok K r : K r → makes_ok K (UnwrapInt r) (fun _ _ => True).
Proof. intros Hr. unfold UnwrapInt. makes_steps. Qed.
Lemma UnwrapString_ok K r : K r → makes_ok K (UnwrapString r) (fun _ _ => True).
Proof. intros Hr. unfold UnwrapString. makes_steps. Qed.
#[local] Hint Resolve UnwrapBool_ok UnwrapInt_ok UnwrapString_ok : makes.
Lemma for_loop_ok K n iter c : K iter → K c → makes_ok K (for_loop n iter c) (fun _ _ => True).
Proof. revert K. induction n; intros K Hi Hc; cbn [for_loop]; makes_steps. Qed.
Lemma while_loop_ok K n c d l : K c → K d → K l → makes_ok K (while_loop n c d l) (fun _ _ => True).
Proof. revert K. induction n; intros K Hc Hd Hl; cbn [while_loop]; makes_steps. Qed.
Lemma print_loop_ok K b rs : Forall K rs → makes_ok K (print_loop b rs) (fun _ _ => True).
Proof.
  revert K b. induction rs; intros K b Hr; cbn [print_loop]; makes_steps.
  eapply (makes_bind _ _ _ _ _ (fun _ _ => True)); [destruct b; makes_steps|].
  intros K' ? He _. upgrade He. makes_steps.
Qed.
Lemma add_loop_ok K rs n : Forall K rs →
  makes_ok K (for_each (fun sum r => number ← UnwrapInt r; lift (add64 sum number)) n rs) (fun _ _ => True).
Proof.
  intros Hr. eapply makes_mono; [apply (makes_for_each _ _ _ _ (fun K _ rs => Forall K rs))|done]; [|done].
  intros K1 b x l Hx. makes_steps. eapply makes_mono; [apply ok_lift|]. intros K2 ? He _. by upgrade He.
Qed.
#[local] Hint Resolve for_loop_ok while_loop_ok print_loop_ok add_loop_ok : makes.

#[local] Hint Unfold ListFunction_Call GetVariableFunction_Call SetVariableFunction_Call ForFunction_Call
  RangeFunction_Call PrintFunction_Call AddFunction_Call BeginTranFunction_Call EndTranFunction_Call
  IfFunction_Call NotFunction_Call WhileFunction_Call LessThanFunction_Call LenFunction_Call
  ListAppendFunction_Call ListGetFunction_Call MapIsSetFunction_Call MapGetFunction_Call
  MapSetFunction_Call : toy_call.
Lemma Call_ok K n f rs : Forall K rs → makes_ok K (Call n f rs) (fun K' r => K' r).
Proof.
  intros Hr. destruct f; cbn [Call]; autounfold with toy_call; makes_steps.
  apply makes_create. unfold NewRangeIteratorObject in *. res_inv. simpl. lia.
Qed.
Lemma items_string_ok K b rs : Forall K rs → makes_ok K (items_string b rs) (fun _ _ => True).
Proof. revert K b. induction rs; intros K b Hr; cbn [items_string]; makes_steps. Qed.
Lemma EvaluateCodeBlock_ok K c rs :
  code_block_ok c → known_map K (external_symbols_ c) → Forall K rs →
  makes_ok K (EvaluateCodeBlock c rs) (fun K' r => K' r).
Proof. intros. apply EvaluateCodeBlock_makes; try done; by left. Qed.
#[local] Hint Resolve Call_ok items_string_ok EvaluateCodeBlock_ok : makes.

Lemma InvokeMethod_ok K n lo name ps :
  object_ok K lo → Forall (known_value K) ps → makes_ok K (InvokeMethod n lo name ps) known_value.
Proof.
  intros Hlo Hps. destruct lo; cbn [InvokeMethod object_ok] in *; [by makes_steps|..].
  - unfold InvokeBool. makes_steps.
  - unfold InvokeInt. makes_steps.
  - unfold InvokeString. makes_steps.
  - unfold InvokeVariable. destruct object_reference_; makes_steps; res_inv; simplify_eq; assumption.
  - destruct Hlo. unfold InvokeCodeBlock. case_bool_decide; makes_steps.
  - unfold InvokeList. makes_steps; res_inv; [by eapply (Forall_lookup_1 K'2)|]. by apply Forall_app_2, Forall_singleton.
  - unfold InvokeMap. makes_steps; res_inv; [exact (Hlo _ _ H3)|by apply known_map_insert].
  - unfold InvokeRangeIterator, WrapInt. makes_steps. simpl. unfold add64 in *. case_match; res_inv. lia.
  - unfold InvokeFunction. makes_steps.
  - apply InvokeProgram_makes; try done; by left.
Qed.
End preservation.

#[export] Instance toy_well_behaved fuel : WellBehaved LocalObjectImpl (H := toy_invoke fuel) object_ok.
Proof.
  split; [apply object_ok_mono|]. intros K self name ps _ Hps lo Hlo. by apply InvokeMethod_ok.
Qed.

(** C31 (type). In a world of references, a method of a well-formed object called with existing
    references, whatever the methods it calls return, uses no other references than
    those it was given, read or created, and creates and leaves only well-formed
    objects: code blocks whose expressions are well scoped in what they have
    captured, iterators that have not passed their limit, and references to objects
    that exist. *)
Theorem toy_methods_preserve_objects fuel K self name ps :
  Forall (known_value K) ps →
  behaves object_ok (fun _ _ => True) true K (toy_invoke fuel self name ps).
Proof. intros Hps lo Hlo. by apply InvokeMethod_ok. Qed.

(** The functions that are called return objects, as the functions of the language do. *)
Definition calls_return_objects (method_name : string) (v : Value) : Prop :=
  method_name = "call" → is_ok (object_reference v) = true.

(** Evaluating a well-formed code block with as many parameters as it has does not
    fail at a symbol: if the functions it calls return objects, it runs to the end,
    and every code block it makes is well formed again. *)
Theorem code_block_evaluation_succeeds K c rs :
  code_block_ok c → known_map K (external_symbols_ c) → Forall K rs →
  length rs = length (parameter_symbol_ids_ c) →
  behaves object_ok calls_return_objects false K
    (EvaluateCodeBlock c rs (fun r => PReturn (set_object_reference 0 r))).
Proof.
  intros Hc Hext Hrs Hl. apply (EvaluateCodeBlock_makes _ false); try done; [|by right].
  intros v Hv. right. by apply Hv.
Qed.

(** The external symbols of every program. *)
Definition program_ids : gmap string Z :=
  match program_symbol_table with Ok t => SymbolTable.GetExternalSymbolIds t | _ => ∅ end.

Lemma parse_program_ids file e ids : parse_program file = Some (Ok (e, ids)) → ids = program_ids.
Proof.
  intros (t & t' & Et & _ & _ & _ & ->)%parse_program_file_parsed. unfold program_ids. by rewrite Et.
Qed.

Lemma program_ids_ok : ids_ok program_ids built_ins.
Proof.
  split.
  - apply (bool_decide_eq_true_1 (Forall _ _)). vm_compute. reflexivity.
  - apply (bool_decide_eq_true_1 (NoDup _)). vm_compute. reflexivity.
Qed.

Lemma program_ids_built_ins :
  list_to_set (ids_of program_ids built_ins) = (list_to_set (snd <$> map_to_list program_ids) : gset Z).
Proof. apply (bool_decide_eq_true_1 (_ = _)). vm_compute. reflexivity. Qed.

(** From the text of a program to its start: if the file can be parsed, the method
    that runs it binds every built-in object, none twice, and makes a well-formed
    code block of the file, which it evaluates; none of its checks fails. *)
Theorem parsed_program_starts file e ids fuel K :
  parse_program file = Some (Ok (e, ids)) →
  behaves object_ok calls_return_objects false K (InvokeMethod fuel (ProgramObject ids e) "run" [] PReturn).
Proof.
  intros Hp. pose proof (parse_program_scoped _ _ _ Hp) as Hw.
  pose proof (parse_program_ids _ _ _ Hp) as ->. rewrite <- program_ids_built_ins in Hw.
  refine (InvokeProgram_makes calls_return_objects false _ K program_ids e "run" [] _ Hw PReturn
    (fun _ _ _ Hv => Hv)).
  - intros v Hv. right. by apply Hv.
  - right. exact (conj program_ids_ok eq_refl).
Qed.

Definition sample_block : CodeBlock :=
  mkCodeBlock (ListExpression [SymbolExpression 7; SymbolExpression 8;
    BlockExpression (SymbolExpression 9) [10] []]) {[ 7 := 0%nat ]} [8] [9].

Lemma code_block_evaluation_succeeds_witness :
  behaves object_ok calls_return_objects false (fun r => (r < 4)%nat)
    (EvaluateCodeBlock sample_block [3%nat] (fun r => PReturn (set_object_reference 0 r))).
Proof.
  apply code_block_evaluation_succeeds; [|apply map_Forall_singleton; lia|repeat constructor|reflexivity].
  split; [|split]; simpl.
  - repeat constructor; set_solver.
  - repeat constructor; apply (bool_decide_eq_true_1 (_ ∉ _)); vm_compute; reflexivity.
  - repeat constructor; try (apply (bool_decide_eq_true_1 (_ ∈ _)); vm_compute; reflexivity);
      try (apply (bool_decide_eq_true_1 (_ ∉ _)); vm_compute; reflexivity); set_solver.
Defined.

Lemma parsed_program_starts_witness :
  ∃ e ids, parse_program "(print (add 1 2))" = Some (Ok (e, ids)) ∧
    behaves object_ok calls_return_objects false (fun _ => False) (InvokeMethod 0 (ProgramObject ids e) "run" [] PReturn).
Proof.
  destruct (parses_to_program_ok "(print (add 1 2))") as (e & ids & E); [vm_compute; reflexivity|].
  exists e, ids. split; [exact E|]. exact (parsed_program_starts _ e ids 0 _ E).
Defined.

(** A call of [append] on a list in a world of two references. *)
Lemma toy_methods_preserve_objects_witness :
  behaves object_ok (fun _ _ => True) true (fun r => (r < 2)%nat)
    (toy_invoke 1 0%nat "append" [set_object_reference 0 1%nat]).
Proof.
  apply (toy_methods_preserve_objects 1 (fun r => (r < 2)%nat)).
  constructor; [|constructor]. unfold known_value. simpl. lia.
Defined.
