(* ===== verification/ToyRun.v ===== *)
(** * Toy programs on the stand-alone engine

    [RunToyLangFile] of [toy_lang/run_toy_lang_program.cc] with a [FakePeer]: from
    the text of a program to what it prints. *)
From S2P Require Import Prelude Text Values Serialization PlaybackThread FakeEngine ToyLexer ToyParser ToyObjects.
From stdpp Require Import base tactics list strings gmap.
From Stdlib Require Import ZArith Lia.
#[local] Open Scope string_scope.
#[local] Open Scope Z_scope.

#[local] Existing Instance FM_ret.
#[local] Existing Instance FM_bind.

(** [fuel] bounds the iterations of each loop and the depth of calls. *)
Definition RunToyLangFile (fuel : nat) (file : string) (linger : bool) : FM (LO := LocalObjectImpl) unit :=
  let _ : LocalObjectMethods LocalObjectImpl := toy_invoke fuel in
  match parse_program file with
  | Some (Ok (expression, external_symbol_ids)) =>
      return_value ← FakeRunProgram fuel (ProgramObject external_symbol_ids expression) "run" linger;
      fm_check (bool_decide (data return_value = EMPTY))
  | Some Fatal => fun _ => Failed FatalError
  | Some Undef => fun _ => Failed UndefinedBehaviour
  | None => fun _ => Failed LoopBound
  end.

(** What a program prints. *)
Definition output_of (o : outcome LocalObjectImpl unit) : option string :=
  match o with Done _ s => Some (String.concat "" (stdout s)) | _ => None end.
Definition nl : string := str1 Lexer.newline.

Definition lines_of (l : list string) : string := String.concat "" (map (fun x => x ++ nl) l).

(** The sample programs of [toy_lang/testdata]. *)
Example hello_world :
  output_of (RunToyLangFile 10 ("(print " ++ str1 Lexer.quote ++ "Hello world!" ++ str1 Lexer.quote ++ ")")
    false NewFakeMethodContext) = Some (lines_of ["Hello world!"]).
Proof. vm_compute. reflexivity. Qed.

Example fibonacci :
  output_of (RunToyLangFile 30 ("# Fibonacci sequence" ++ nl ++
    "(set a 0) (set b 1) (for i (range 20) { (print a) (set temp a) (set a b) (set b (add b temp)) })")
    false NewFakeMethodContext) =
  Some (lines_of ["0"; "1"; "1"; "2"; "3"; "5"; "8"; "13"; "21"; "34"; "55"; "89"; "144"; "233"; "377";
    "610"; "987"; "1597"; "2584"; "4181"]).
Proof. vm_compute. reflexivity. Qed.

Example fib_list :
  let lst := str1 Lexer.quote ++ "lst" ++ str1 Lexer.quote in
  output_of (RunToyLangFile 30 ("(set lst []) (begin_tran) (if (map.is_set shared " ++ lst ++
    ") { (set lst (map.get shared " ++ lst ++ ")) } { (set lst [0 1]) (map.set shared " ++ lst ++
    " lst) }) (end_tran) (while (lt (len lst) 5) { (begin_tran) " ++
    "(list.append lst (add (list.get lst -2) (list.get lst -1))) (end_tran) (begin_tran) (print lst) (end_tran) })")
    false NewFakeMethodContext) =
  Some (lines_of ["[0 1 1]"; "[0 1 1 2]"; "[0 1 1 2 3]"]).
Proof. vm_compute. reflexivity. Qed.

(** ** No dangling references *)

(** C29 (safety). Whatever the text of the program is, running it on the stand-alone engine never
    follows a reference to an object that does not exist; if it ends, every object
    it leaves is well formed and the transaction depth is that of an [int]. *)
Theorem toy_programs_never_dangle fuel file linger :
  keeps_objects object_ok (fun _ _ => True) NewFakeMethodContext
    (RunToyLangFile fuel file linger NewFakeMethodContext).
Proof.
  unfold RunToyLangFile. destruct (parse_program file) as [[[e ids]| |]|] eqn:Hp; try exact I.
  eapply (keeps_objects_bind object_ok).
  - apply FakeRunProgram_keeps; [apply _|]. cbn [object_ok].
    rewrite (parse_program_ids _ _ _ Hp), program_ids_built_ins, <- (parse_program_ids _ _ _ Hp).
    by apply (parse_program_scoped file).
  - intros v s' Hs' _ _. unfold fm_check. destruct (bool_decide _); [|exact I].
    exact (conj Hs' (conj (fun _ Hr => Hr) I)).
Qed.

(** ** What a method computes

    Total correctness on the stand-alone engine, for parts of methods that only add
    objects and print. *)
Abbreviation context := (FakeMethodContext LocalObjectImpl).
Abbreviation heap := (object_references_ (LO := LocalObjectImpl)).

Record adds (s : context) (out : list string) (s' : context) : Prop := {
  adds_objects : heap s `prefix_of` heap s';
  adds_depth : transaction_depth_ s' = transaction_depth_ s;
  adds_output : stdout s' = (stdout s ++ out)%list;
}.

Lemma adds_refl s : adds s [] s.
Proof. split; [done|done|by rewrite app_nil_r]. Qed.
Lemma adds_trans s1 o1 s2 o2 s3 : adds s1 o1 s2 → adds s2 o2 s3 → adds s1 (o1 ++ o2) s3.
Proof.
  intros [H1 D1 S1] [H2 D2 S2]. split; [by etrans|congruence|]. by rewrite S2, S1, app_assoc.
Qed.
Lemma adds_lookup s out s' r lo : adds s out s' → heap s !! r = Some lo → heap s' !! r = Some lo.
Proof. intros [Hp _ _] Hr. by eapply prefix_lookup_Some. Qed.

(** Moves what is known of the objects to a later state. *)
Ltac later Ha :=
  cbv beta in *;
  lazymatch type of Ha with
  | adds ?s _ ?s' => repeat match goal with
      | H : heap s !! _ = Some _ |- _ => apply (adds_lookup _ _ _ _ _ Ha) in H
      end; clear Ha
  end.

Section computing.
Context (fuel : nat).
#[local] Instance methods : LocalObjectMethods LocalObjectImpl := toy_invoke fuel.

(** [m], run with calls of depth [d], gives a result that satisfies [Q]. *)
Definition gives (d : nat) {A} (m : PM A) (s : context) (out : list string)
    (Q : A → list LocalObjectImpl → Prop) : Prop :=
  ∃ a s', (∀ self k, fake_run_prog (FakeCallMethod d) self (m k) s =
                     fake_run_prog (FakeCallMethod d) self (k a) s') ∧
    adds s out s' ∧ Q a (heap s').

Definition returns (d : nat) (r : ObjectReference) (name : string) (ps : list Value) (s : context)
    (out : list string) (Q : Value → list LocalObjectImpl → Prop) : Prop :=
  ∃ v s', FakeCallMethod d r name ps s = Done v s' ∧ adds s out s' ∧ Q v (heap s').

Lemma gives_ret d {A} (a : A) s Q : Q a (heap s) → gives d (mret a) s [] Q.
Proof. intros Ha. exists a, s. split_and!; [done|apply adds_refl|done]. Qed.

Lemma gives_bind d {A B} (m : PM A) (f : A → PM B) s o1 o2 Q R :
  gives d m s o1 Q → (∀ a s', adds s o1 s' → Q a (heap s') → gives d (f a) s' o2 R) →
  gives d (m ≫= f) s (o1 ++ o2) R.
Proof.
  intros (a & s1 & E1 & A1 & Ha) Hf. destruct (Hf a s1 A1 Ha) as (b & s2 & E2 & A2 & Hb).
  exists b, s2. split_and!; [|by eapply adds_trans|done]. intros self k.
  exact (eq_trans (E1 self (fun a => f a k)) (E2 self k)).
Qed.

Lemma gives_silent d {A B} (m : PM A) (f : A → PM B) s out Q R :
  gives d m s [] Q → (∀ a s', adds s [] s' → Q a (heap s') → gives d (f a) s' out R) →
  gives d (m ≫= f) s out R.
Proof. apply (gives_bind d m f s [] out). Qed.

Lemma gives_create d lo name s : gives d (CreateObject lo name) s [] (fun r h => h !! r = Some lo).
Proof.
  eexists _, _. split_and!; [done| |].
  - split; simpl; [by eexists|done|by rewrite app_nil_r].
  - simpl. apply list_lookup_middle. done.
Qed.

Lemma gives_lift d {A B} (r : res A) a (f : A → PM B) s out R :
  r = Ok a → gives d (f a) s out R → gives d (lift r ≫= f) s out R.
Proof. by intros ->. Qed.

Lemma gives_lift_end d {A} (r : res A) a s : r = Ok a → gives d (lift r) s [] (fun b _ => b = a).
Proof. intros ->. by apply gives_ret. Qed.

Lemma gives_printf d text s : gives d (printf text) s [text] (fun _ _ => True).
Proof. eexists _, _. split_and!; [done| |done]. by split. Qed.

Lemma gives_call d r name ps s out Q : returns d r name ps s out Q → gives d (CallMethod r name ps) s out Q.
Proof.
  intros (v & s' & E & Ha & HQ). exists v, s'. split_and!; [|done|done]. intros self k. simpl.
  unfold mbind, FM_bind. by rewrite E.
Qed.

Lemma returns_method d r lo name ps s out Q :
  heap s !! r = Some lo → name ≠ "" → gives d (InvokeMethod fuel lo name ps) s out Q →
  returns (S d) r name ps s out Q.
Proof.
  intros Hr Hn (v & s' & E & Ha & HQ). exists v, s'. split_and!; [|done|done].
  simpl. unfold mbind, FM_bind, fm_check. rewrite bool_decide_false by done. simpl.
  unfold local_object. rewrite Hr. by rewrite E.
Qed.

Lemma gives_mono d {A} (m : PM A) s out (Q R : A → list LocalObjectImpl → Prop) :
  gives d m s out Q → (∀ a h, Q a h → R a h) → gives d m s out R.
Proof. intros (a & s' & ? & ? & ?) HR. exists a, s'. split_and!; [done|done|auto]. Qed.

Lemma gives_frame d {A} (m : PM A) s out Q r lo :
  heap s !! r = Some lo → gives d m s out Q → gives d m s out (fun a h => Q a h ∧ h !! r = Some lo).
Proof.
  intros Hr (a & s' & ? & ? & ?). exists a, s'. split_and!; [done..|by eapply adds_lookup].
Qed.

(** *** Simple methods *)
Ltac invoke := eapply returns_method; [eassumption|discriminate|]; apply gives_ret; reflexivity.

Lemma list_length d l rs s :
  heap s !! l = Some (ListObject rs) →
  returns (S d) l "length" [] s [] (fun v _ => v = set_int64_value 0 (Z.of_nat (length rs))).
Proof. intros Hl. invoke. Qed.

Lemma TrueMod_small i n : 0 ≤ i < n → TrueMod i n = Ok i.
Proof.
  intros Hi. unfold TrueMod. rewrite (proj2 (Z.eqb_neq n 0)) by lia. simpl. f_equal.
  rewrite (Z.rem_small i n), Z.rem_mod_nonneg by lia.
  replace (i + n) with (i + 1 * n) by lia. rewrite Z.mod_add by lia. by apply Z.mod_small.
Qed.

Lemma list_get_at d l rs i r s :
  heap s !! l = Some (ListObject rs) → rs !! i = Some r →
  returns (S d) l "get_at" [set_int64_value 0 (Z.of_nat i)] s [] (fun v _ => v = set_object_reference 0 r).
Proof.
  intros Hl Hr. eapply returns_method; [eassumption|discriminate|]. simpl. unfold InvokeList. simpl.
  apply lookup_lt_Some in Hr as Hlt.
  eapply gives_lift; [done|].
  eapply gives_lift; [by rewrite bool_decide_false by (intros ->; simpl in *; lia)|].
  eapply gives_lift; [apply TrueMod_small; lia|].
  eapply gives_lift; [by rewrite Nat2Z.id, Hr|]. by apply gives_ret.
Qed.

Lemma variable_get d v r s :
  heap s !! v = Some (VariableObject (Some r)) →
  returns (S d) v "get" [] s [] (fun x _ => x = set_object_reference 0 r).
Proof. intros Hv. invoke. Qed.

Lemma int_get d r n s :
  heap s !! r = Some (IntObject n) → gives (S d) (UnwrapInt r) s [] (fun a _ => a = n).
Proof.
  intros Hr. eapply gives_silent; [apply gives_call; eapply returns_method; [eassumption|discriminate|];
    apply (gives_ret _ _ _ (fun v _ => v = set_int64_value 0 n)); reflexivity|].
  intros v s' _ ->. by apply gives_lift_end.
Qed.

Lemma int_get_string d r n s :
  heap s !! r = Some (IntObject n) → gives (S d) (UnwrapString r) s [] (fun a _ => a = printf_d n).
Proof.
  intros Hr. eapply gives_silent; [apply gives_call; eapply returns_method; [eassumption|discriminate|];
    apply (gives_ret _ _ _ (fun v _ => v = set_string_value 0 (printf_d n))); reflexivity|].
  intros v s' _ ->. by apply gives_lift_end.
Qed.

(** The parameters of a call are read back from the list that holds them. *)
Lemma get_items_gives d l rs s n i :
  heap s !! l = Some (ListObject rs) → (i + n = length rs)%nat →
  gives (S d) (get_items l n (Z.of_nat i)) s [] (fun xs _ => xs = drop i rs).
Proof.
  revert i s. induction n as [|n IH]; intros i s Hl Hn; cbn [get_items].
  - apply gives_ret. by rewrite drop_ge by lia.
  - destruct (lookup_lt_is_Some_2 rs i) as [r Hr]; [lia|].
    eapply gives_silent; [apply gives_call; by eapply list_get_at|]. intros v s1 Ha ->. later Ha.
    eapply gives_lift; [done|].
    eapply gives_silent.
    { replace (Z.of_nat i + 1) with (Z.of_nat (S i)) by lia. apply IH; [done|lia]. }
    intros xs s3 Ha ->. apply gives_ret. by rewrite (drop_S _ _ _ Hr).
Qed.

Lemma get_parameters_gives d l rs s :
  heap s !! l = Some (ListObject rs) →
  gives (S d) (get_parameters [set_object_reference 0 l]) s [] (fun xs _ => xs = rs).
Proof.
  intros Hl. unfold get_parameters.
  eapply gives_lift; [done|].
  eapply gives_silent; [apply gives_call; by eapply list_length|]. intros ? s2 Ha ->. later Ha.
  eapply gives_lift; [done|].
  eapply gives_lift; [by rewrite (proj2 (Z.leb_le 0 _)) by lia|].
  rewrite Nat2Z.id. eapply gives_mono; [by apply (get_items_gives _ l rs _ _ 0)|]. done.
Qed.

(** A call of a function of the language. *)
Lemma function_call d f g l rs s out Q :
  heap s !! g = Some (FunctionObject f) → heap s !! l = Some (ListObject rs) →
  (∀ s', adds s [] s' → gives (S d) (Call fuel f rs) s' out Q) →
  returns (S (S d)) g "call" [set_object_reference 0 l] s out
    (fun v h => ∃ r, v = set_object_reference 0 r ∧ Q r h).
Proof.
  intros Hg Hl HQ. eapply returns_method; [eassumption|discriminate|].
  change (InvokeMethod fuel (FunctionObject f) "call" ?ps) with
    (param_objects ← get_parameters ps; return_object ← Call fuel f param_objects;
     return_ (set_object_reference 0 return_object)).
  eapply gives_silent; [by eapply get_parameters_gives|]. intros ? s1 Ha ->.
  rewrite <- (app_nil_r out). eapply gives_bind; [by apply HQ|]. intros r s2 _ Hr.
  apply gives_ret. eauto.
Qed.

(** The value of a variable, as the parser reads it: a call of [get]. *)
Definition read_variable (get x : Z) : Expression :=
  FunctionCallExpression (SymbolExpression get) [SymbolExpression x].

Lemma read_variable_gives d get x b g v r s :
  b !! get = Some g → heap s !! g = Some (FunctionObject GetVariableFunction) →
  b !! x = Some v → heap s !! v = Some (VariableObject (Some r)) →
  gives (S (S d)) (Evaluate (read_variable get x) b) s [] (fun a _ => a = r).
Proof.
  intros Hget Hg Hx Hv.
  change (gives (S (S d)) (FunctionCallExpression_Evaluate (SymbolExpression_Evaluate get b)
    [SymbolExpression_Evaluate x b]) s [] (fun a _ => a = r)).
  eapply gives_lift; [by rewrite Hget|].
  eapply gives_silent.
  { eapply gives_lift; [by rewrite Hx|]. apply gives_create. }
  intros l s1 Ha Hl. later Ha.
  eapply gives_silent.
  { apply gives_call. eapply function_call; [done|done|]. intros s2 Ha. later Ha.
    eapply gives_silent; [apply gives_call; by eapply variable_get|]. intros ? s3 _ ->.
    by eapply gives_lift_end. }
  intros ? s4 _ (r' & -> & ->). by apply gives_lift_end.
Qed.

(** [(print x)] for a variable with a number. *)
Definition print_variable (get print x : Z) : Expression :=
  FunctionCallExpression (read_variable get print) [read_variable get x].

Lemma print_number d l r n s :
  heap s !! l = Some (ListObject [r]) → heap s !! r = Some (IntObject n) →
  ∀ pf, heap s !! pf = Some (FunctionObject PrintFunction) →
  returns (S (S d)) pf "call" [set_object_reference 0 l] s [printf_d n; nl]
    (fun v _ => ∃ r, v = set_object_reference 0 r ∧ True).
Proof.
  intros Hl Hr pf Hpf. eapply function_call; [done|done|]. intros s1 Ha. later Ha.
  change (Call fuel PrintFunction [r]) with
    (_ ← print_loop true [r]; _ ← printf (str1 Lexer.newline); MakeNoneObject).
  eapply (gives_bind _ _ _ _ [printf_d n] [nl]).
  { eapply gives_silent; [by apply (gives_ret _ _ _ (fun _ _ => True))|]. intros _ s2 Ha _. later Ha.
    eapply gives_silent; [by eapply int_get_string|]. intros ? s3 _ ->.
    eapply (gives_bind _ _ _ _ [printf_d n] []); [rewrite printf_d_c_str; apply gives_printf|].
    intros _ s4 _ _. by apply (gives_ret _ _ _ (fun _ _ => True)). }
  intros _ s5 _ _. eapply (gives_bind _ _ _ _ [nl] []); [apply gives_printf|]. intros _ s6 _ _.
  eapply gives_mono; [apply gives_create|done].
Qed.

Lemma print_variable_gives d get print x b g pv pf v r n s :
  b !! get = Some g → heap s !! g = Some (FunctionObject GetVariableFunction) →
  b !! print = Some pv → heap s !! pv = Some (VariableObject (Some pf)) →
  heap s !! pf = Some (FunctionObject PrintFunction) →
  b !! x = Some v → heap s !! v = Some (VariableObject (Some r)) → heap s !! r = Some (IntObject n) →
  gives (S (S d)) (Evaluate (print_variable get print x) b) s [printf_d n; nl] (fun _ _ => True).
Proof.
  intros Hget Hg Hprint Hpv Hpf Hx Hv Hr.
  change (gives (S (S d)) (FunctionCallExpression_Evaluate (Evaluate (read_variable get print) b)
    [Evaluate (read_variable get x) b]) s [printf_d n; nl] (fun _ _ => True)).
  eapply gives_silent; [by eapply read_variable_gives|]. intros ? s1 Ha ->. later Ha.
  eapply gives_silent.
  { eapply (gives_silent _ _ _ _ _ (fun rs _ => rs = [r])); [|intros ? s2 _ ->; apply gives_create].
    eapply gives_silent; [by eapply read_variable_gives|]. intros ? s2 Ha ->.
    eapply gives_silent; [by apply (gives_ret _ _ _ (fun rs _ => rs = []))|]. intros ? s3 _ ->.
    by apply gives_ret. }
  intros l s2 Ha Hl. later Ha.
  rewrite <- (app_nil_r [printf_d n; nl]).
  eapply gives_bind; [apply gives_call; by eapply print_number|]. intros ? s3 _ (r' & -> & _).
  eapply gives_mono; [by apply gives_lift_end|done].
Qed.

(** The block [{ (print x) }] with the variable [x] as its parameter. *)
Definition print_block (get print x : Z) (b : gmap Z ObjectReference) : CodeBlock :=
  mkCodeBlock (ListExpression [print_variable get print x]) b [x] [].

Lemma print_block_eval d get print x b g pv pf cb l v r n s :
  heap s !! cb = Some (CodeBlockObject (print_block get print x b)) →
  b !! get = Some g → heap s !! g = Some (FunctionObject GetVariableFunction) →
  b !! print = Some pv → heap s !! pv = Some (VariableObject (Some pf)) →
  heap s !! pf = Some (FunctionObject PrintFunction) →
  b !! x = None → heap s !! l = Some (ListObject [v]) →
  heap s !! v = Some (VariableObject (Some r)) → heap s !! r = Some (IntObject n) →
  returns (S (S (S d))) cb "eval" [set_object_reference 0 l] s [printf_d n; nl] (fun _ _ => True).
Proof.
  intros Hcb Hget Hg Hprint Hpv Hpf Hx Hl Hv Hr.
  assert (get ≠ x ∧ print ≠ x) as [? ?] by (split; congruence).
  eapply returns_method; [eassumption|discriminate|].
  change (InvokeMethod fuel (CodeBlockObject ?c) "eval" ?ps) with
    (rs ← get_parameters ps; object_reference ← EvaluateCodeBlock c rs;
     return_ (set_object_reference 0 object_reference)).
  eapply gives_silent; [by eapply get_parameters_gives|]. intros ? s1 Ha ->. later Ha.
  rewrite <- (app_nil_r [printf_d n; nl]).
  eapply (gives_bind _ _ _ _ _ [] (fun _ _ => True)); [|intros ? s2 _ _; by apply gives_ret].
  eapply gives_lift; [done|]. eapply gives_lift.
  { simpl. unfold emplace_symbol. by rewrite bool_decide_true. }
  eapply gives_silent; [by apply (gives_ret _ _ _ (fun b' _ => b' = <[x := v]> b))|]. intros ? s2 Ha ->. later Ha.
  change (Evaluate (expression_ (print_block get print x b)) ?bs) with
    (rs ← evaluate_all [Evaluate (print_variable get print x) bs]; CreateObject (ListObject rs) "").
  rewrite <- (app_nil_r [printf_d n; nl]).
  eapply (gives_bind _ _ _ _ _ [] (fun _ _ => True)); [|intros; eapply gives_mono; [apply gives_create|done]].
  rewrite <- (app_nil_r [printf_d n; nl]).
  eapply gives_bind.
  { apply (print_variable_gives d get print x _ g pv pf v r n); try assumption;
      [rewrite lookup_insert_ne by congruence; exact Hget|rewrite lookup_insert_ne by congruence; exact Hprint|
       by rewrite lookup_insert_eq]. }
  intros ? s3 _ _. eapply gives_silent; [by apply (gives_ret _ _ _ (fun _ _ => True))|]. intros. by apply gives_ret.
Qed.

(** *** Loops *)

(** [m] takes the state [s] to [s'] with the result [a]. *)
Definition steps (d : nat) {A} (m : PM A) (s : context) (a : A) (s' : context) : Prop :=
  ∀ self k, fake_run_prog (FakeCallMethod d) self (m k) s = fake_run_prog (FakeCallMethod d) self (k a) s'.

Lemma steps_ret d {A} (a : A) s : steps d (mret a) s a s.
Proof. done. Qed.
Lemma steps_bind d {A B} (m : PM A) (f : A → PM B) s a s1 b s2 :
  steps d m s a s1 → steps d (f a) s1 b s2 → steps d (m ≫= f) s b s2.
Proof. intros E1 E2 self k. exact (eq_trans (E1 self (fun a => f a k)) (E2 self k)). Qed.
Lemma steps_lift d {A B} (a : A) (f : A → PM B) s b s' :
  steps d (f a) s b s' → steps d (lift (Ok a) ≫= f) s b s'.
Proof. done. Qed.
Lemma steps_create d lo name s :
  steps d (CreateObject lo name) s (length (heap s))
    (mkContext (heap s ++ [lo])%list (transaction_depth_ s) (stdout s)).
Proof. done. Qed.
Lemma steps_call d r name ps s v s' :
  FakeCallMethod d r name ps s = Done v s' → steps d (CallMethod r name ps) s v s'.
Proof. intros E self k. simpl. unfold mbind, FM_bind. by rewrite E. Qed.

Lemma steps_method d r lo name ps s v s' :
  heap s !! r = Some lo → name ≠ "" → steps d (InvokeMethod fuel lo name ps) s v s' →
  FakeCallMethod (S d) r name ps s = Done v s'.
Proof.
  intros Hr Hn E. simpl. unfold mbind, FM_bind, fm_check. rewrite bool_decide_false by done. simpl.
  unfold local_object. rewrite Hr. by rewrite E.
Qed.

Lemma range_has_next d iter limit i s :
  heap s !! iter = Some (RangeIteratorObject limit i) → i ≤ limit →
  FakeCallMethod (S d) iter "has_next" [] s = Done (set_bool_value 0 (i <? limit)) s.
Proof.
  intros Hi Hle. eapply steps_method; [exact Hi|discriminate|].
  simpl. unfold InvokeRangeIterator. simpl. rewrite (proj2 (Z.leb_le _ _) Hle). done.
Qed.

Lemma range_get_next d iter limit i s :
  heap s !! iter = Some (RangeIteratorObject limit i) → i < limit → - 2 ^ 63 ≤ i → limit < 2 ^ 63 →
  FakeCallMethod (S d) iter "get_next" [] s =
    Done (set_object_reference 0 (length (heap s)))
      (mkContext (<[iter := RangeIteratorObject limit (i + 1)]> (heap s ++ [IntObject i])%list)
         (transaction_depth_ s) (stdout s)).
Proof.
  intros Hi Hlt H1 H2. simpl. unfold mbind, FM_bind, local_object. simpl. rewrite Hi. simpl.
  unfold InvokeRangeIterator. simpl. rewrite (proj2 (Z.ltb_lt _ _) Hlt). simpl.
  unfold add64. rewrite (proj2 (Z.leb_le _ _)), (proj2 (Z.ltb_lt _ _)) by lia. simpl.
  unfold mbind, FM_bind, set_local_object. simpl. by rewrite (lookup_app_l_Some _ _ _ _ Hi).
Qed.

(** What [get_next] leaves, and the variable and the list that [for] makes of it. *)
Definition next_context (iter : ObjectReference) (limit i : Z) (s : context) : context :=
  mkContext ((<[iter := RangeIteratorObject limit (i + 1)]> (heap s ++ [IntObject i])
             ++ [VariableObject (Some (length (heap s)))]) ++ [ListObject [S (length (heap s))]])%list
    (transaction_depth_ s) (stdout s).

(** [for] over a range: if evaluating the block takes an invariant from each number
    to the next, the loop ends, with the invariant for the limit. *)
Lemma for_range_steps d iter cb limit (Inv : Z → context → Prop) :
  (∀ i s, Inv i s → heap s !! iter = Some (RangeIteratorObject limit i)) →
  (∀ i s, i < limit → Inv i s →
     ∃ v s', FakeCallMethod (S d) cb "eval" [set_object_reference 0 (S (S (length (heap s))))]
               (next_context iter limit i s) = Done v s' ∧ Inv (i + 1) s') →
  ∀ n i s, Inv i s → - 2 ^ 63 ≤ i ≤ limit → limit < 2 ^ 63 → (Z.to_nat (limit - i) < n)%nat →
  ∃ s', steps (S d) (for_loop n iter cb) s tt s' ∧ Inv limit s'.
Proof.
  intros Hiter Hbody. induction n as [|n IH]; intros i s Hs Hi Hl Hn; [lia|]. cbn [for_loop].
  destruct (Z.ltb_spec i limit) as [Hlt|].
  - destruct (Hbody i s Hlt Hs) as (v & s1 & E & Hs1).
    destruct (IH (i + 1) s1 Hs1) as (s' & Hrest & Hs'); [lia..|]. exists s'. split; [|done].
    eapply steps_bind; [apply steps_call, (range_has_next d _ limit i); [by apply Hiter|lia]|].
    apply steps_lift. rewrite (proj2 (Z.ltb_lt _ _) Hlt).
    eapply steps_bind; [apply steps_call, (range_get_next d _ limit i); [by apply Hiter|lia..]|].
    apply steps_lift.
    eapply steps_bind; [apply steps_create|]. eapply steps_bind; [apply steps_create|].
    eapply steps_bind; [apply steps_call|exact Hrest].
    cbn [object_references_ transaction_depth_ stdout].
    rewrite !length_app, length_insert, length_app, !Nat.add_1_r. exact E.
  - exists s. replace limit with i in * by lia. split; [|done].
    eapply steps_bind; [apply steps_call, (range_has_next d _ i i); [by apply Hiter|lia]|].
    apply steps_lift. rewrite Z.ltb_irrefl. apply steps_ret.
Qed.

Lemma next_context_old iter limit i s r lo :
  heap s !! r = Some lo → r ≠ iter → heap (next_context iter limit i s) !! r = Some lo.
Proof.
  intros Hr Hne. simpl. do 2 apply lookup_app_l_Some. rewrite list_lookup_insert_ne by done.
  by apply lookup_app_l_Some.
Qed.

Lemma next_context_new iter limit i s :
  (iter < length (heap s))%nat →
  let h := heap (next_context iter limit i s) in
  h !! iter = Some (RangeIteratorObject limit (i + 1)) ∧
  h !! length (heap s) = Some (IntObject i) ∧
  h !! S (length (heap s)) = Some (VariableObject (Some (length (heap s)))) ∧
  h !! S (S (length (heap s))) = Some (ListObject [S (length (heap s))]).
Proof.
  intros Hlt. simpl. split_and!.
  - do 2 apply lookup_app_l_Some. apply list_lookup_insert_eq. rewrite length_app. lia.
  - do 2 apply lookup_app_l_Some. rewrite list_lookup_insert_ne by lia. by apply list_lookup_middle.
  - apply lookup_app_l_Some. apply list_lookup_middle. rewrite length_insert, length_app. simpl. lia.
  - apply list_lookup_middle. rewrite length_app, length_insert, length_app. simpl. lia.
Qed.

(** ** Counting *)
Definition numbers (n : Z) : list string := flat_map (fun i => [printf_d i; nl]) (seqZ 0 n).

Lemma numbers_succ i : 0 ≤ i → numbers (i + 1) = (numbers i ++ [printf_d i; nl])%list.
Proof.
  intros Hi. unfold numbers. rewrite seqZ_app by lia. by rewrite flat_map_app.
Qed.

(** The objects that the loop [for x (range n) { (print x) }] uses, with the bindings [b]. *)
Record printing (get print x : Z) (b : gmap Z ObjectReference) (g pv pf cb : ObjectReference) (s : context) : Prop := {
  p_get : b !! get = Some g;
  p_get_object : heap s !! g = Some (FunctionObject GetVariableFunction);
  p_print : b !! print = Some pv;
  p_print_variable : heap s !! pv = Some (VariableObject (Some pf));
  p_print_object : heap s !! pf = Some (FunctionObject PrintFunction);
  p_unbound : b !! x = None;
  p_block : heap s !! cb = Some (CodeBlockObject (print_block get print x b));
}.

Lemma printing_later get print x b g pv pf cb s s' :
  (∀ r lo, heap s !! r = Some lo → (∀ limit i, lo ≠ RangeIteratorObject limit i) → heap s' !! r = Some lo) →
  printing get print x b g pv pf cb s → printing get print x b g pv pf cb s'.
Proof. intros Hs []. split; try done; by apply Hs. Qed.

Lemma counting_steps d get print x b g pv pf cb iter limit n out s :
  printing get print x b g pv pf cb s → heap s !! iter = Some (RangeIteratorObject limit 0) →
  stdout s = out → 0 ≤ limit < 2 ^ 63 → (Z.to_nat limit < n)%nat →
  ∃ s', steps (S (S (S d))) (for_loop n iter cb) s tt s' ∧ stdout s' = (out ++ numbers limit)%list.
Proof.
  intros Hp Hi Hout Hl Hn.
  set (Inv i s := 0 ≤ i ∧ heap s !! iter = Some (RangeIteratorObject limit i) ∧
    printing get print x b g pv pf cb s ∧ stdout s = (out ++ numbers i)%list).
  destruct (for_range_steps (S (S d)) iter cb limit Inv) with (n := n) (i := 0) (s := s)
    as (s' & Hs & _ & _ & _ & Hs'); [by intros i s1 (_ & ? & _)| |..|lia|lia|by rewrite Z.sub_0_r|by exists s'].
  - intros i s1 Hlt (H0 & Hi1 & Hp1 & Hout1).
    apply lookup_lt_Some in Hi1 as Hlen.
    destruct (next_context_new iter limit i s1 Hlen) as (N1 & N2 & N3 & N4).
    assert (printing get print x b g pv pf cb (next_context iter limit i s1)) as Hp2.
    { eapply printing_later; [|exact Hp1]. intros r lo Hr Hlo. apply next_context_old; [done|].
      intros ->. rewrite Hi1 in Hr. by injection Hr as <-; eapply Hlo. }
    destruct Hp2 as [Q1 Q2 Q3 Q4 Q5 Q6 Q7].
    destruct (print_block_eval d get print x b g pv pf cb (S (S (length (heap s1)))) (S (length (heap s1)))
      (length (heap s1)) i (next_context iter limit i s1)) as (v & s2 & E & Ha & _); [done..|].
    exists v, s2. split; [done|]. split_and!; [lia|by eapply adds_lookup| |].
    + eapply printing_later; [|by split]. intros r lo Hr _. by eapply adds_lookup.
    + rewrite (adds_output _ _ _ Ha). simpl. rewrite Hout1, numbers_succ by done. by rewrite app_assoc.
  - split_and!; [lia|done|done|]. rewrite Hout. by rewrite app_nil_r.
Qed.

(** The call of [for] with an iterator at the start and the block. *)
Lemma counting_call d get print x b g pv pf cb iter limit f l s :
  heap s !! f = Some (FunctionObject ForFunction) → heap s !! l = Some (ListObject [iter; cb]) →
  printing get print x b g pv pf cb s → heap s !! iter = Some (RangeIteratorObject limit 0) →
  0 ≤ limit < 2 ^ 63 → (Z.to_nat limit < fuel)%nat →
  ∃ r s', FakeCallMethod (S (S (S (S d)))) f "call" [set_object_reference 0 l] s =
            Done (set_object_reference 0 r) s' ∧ stdout s' = (stdout s ++ numbers limit)%list.
Proof.
  intros Hf Hl Hp Hi Hlimit Hfuel.
  destruct (get_parameters_gives (S (S d)) l [iter; cb] s Hl) as (rs & s1 & E1 & A1 & ->).
  destruct (counting_steps d get print x b g pv pf cb iter limit fuel (stdout s) s1) as (s2 & E2 & H2); [| | |done|done|].
  { eapply printing_later; [|exact Hp]. intros r lo Hr _. by eapply adds_lookup. }
  { by eapply adds_lookup. }
  { rewrite (adds_output _ _ _ A1). apply app_nil_r. }
  eexists _, (mkContext _ _ (stdout s2)). split; [|exact H2]. eapply steps_method; [exact Hf|discriminate|].
  change (InvokeMethod fuel (FunctionObject ForFunction) "call" ?ps) with
    (rs ← get_parameters ps;
     return_object ← ForFunction_Call fuel rs;
     return_ (set_object_reference 0 return_object)).
  eapply steps_bind; [exact E1|]. eapply steps_bind; [|apply steps_ret].
  eapply steps_bind; [exact E2|]. apply steps_create.
Qed.

(** [(range n)]. *)
Definition range_literal (get range n : Z) : Expression :=
  FunctionCallExpression (read_variable get range) [IntExpression n].

Lemma range_literal_gives d get range b g rv rf n s :
  b !! get = Some g → heap s !! g = Some (FunctionObject GetVariableFunction) →
  b !! range = Some rv → heap s !! rv = Some (VariableObject (Some rf)) →
  heap s !! rf = Some (FunctionObject RangeFunction) → 0 ≤ n →
  gives (S (S d)) (Evaluate (range_literal get range n) b) s []
    (fun r h => h !! r = Some (RangeIteratorObject n 0)).
Proof.
  intros Hget Hg Hrange Hrv Hrf Hn.
  change (gives (S (S d)) (FunctionCallExpression_Evaluate (Evaluate (read_variable get range) b)
    [WrapInt n]) s [] (fun r h => h !! r = Some (RangeIteratorObject n 0))).
  eapply gives_silent; [by eapply read_variable_gives|]. intros ? s1 Ha ->. later Ha.
  eapply (gives_silent _ _ _ _ _ (fun l h => ∃ r, h !! l = Some (ListObject [r]) ∧ h !! r = Some (IntObject n))).
  { eapply (gives_silent _ _ _ _ _ (fun rs h => ∃ r, rs = [r] ∧ h !! r = Some (IntObject n))).
    - eapply gives_silent; [apply gives_create|]. intros r s2 _ Hr.
      eapply gives_silent; [by apply (gives_ret _ _ _ (fun rs h => rs = [] ∧ h !! r = Some (IntObject n)))|].
      intros ? s3 _ [-> ?]. apply gives_ret. eauto.
    - intros ? s2 _ (r & -> & Hr).
      eapply gives_mono; [eapply (gives_frame _ _ _ _ _ _ _ Hr); apply gives_create|]. intros l h [? ?]. eauto. }
  intros l s2 Ha (r & Hl & Hr). later Ha.
  eapply (gives_silent _ _ _ _ _ (fun v h => ∃ i, v = set_object_reference 0 i ∧
    h !! i = Some (RangeIteratorObject n 0))).
  { apply gives_call. eapply (function_call _ _ _ _ _ _ _ (fun i h => h !! i = _)); [done|done|]. intros s3 Ha. later Ha.
    eapply gives_silent; [by eapply int_get|]. intros ? s4 _ ->.
    eapply gives_lift; [unfold NewRangeIteratorObject; by rewrite (proj2 (Z.leb_le 0 n) Hn)|].
    apply gives_create. }
  intros ? s4 _ (i & -> & Hi).
  eapply gives_mono; [eapply (gives_frame _ _ _ _ _ _ _ Hi); by apply gives_lift_end|].
  by intros ? h [-> ?].
Qed.

(** The statement [(for x (range n) { (print x) })], as the parser reads it. *)
Definition count_statement (get for_ range print x n : Z) : Expression :=
  FunctionCallExpression (SymbolExpression for_)
    [range_literal get range n; BlockExpression (ListExpression [print_variable get print x]) [x] []].

Record counting (get for_ range print x : Z) (b : gmap Z ObjectReference)
    (g f rv rf pv pf : ObjectReference) (s : context) : Prop := {
  c_get : b !! get = Some g;
  c_get_object : heap s !! g = Some (FunctionObject GetVariableFunction);
  c_for : b !! for_ = Some f;
  c_for_object : heap s !! f = Some (FunctionObject ForFunction);
  c_range : b !! range = Some rv;
  c_range_variable : heap s !! rv = Some (VariableObject (Some rf));
  c_range_object : heap s !! rf = Some (FunctionObject RangeFunction);
  c_print : b !! print = Some pv;
  c_print_variable : heap s !! pv = Some (VariableObject (Some pf));
  c_print_object : heap s !! pf = Some (FunctionObject PrintFunction);
  c_unbound : b !! x = None;
}.

Lemma count_statement_steps d get for_ range print x b g f rv rf pv pf n s :
  counting get for_ range print x b g f rv rf pv pf s → 0 ≤ n < 2 ^ 63 → (Z.to_nat n < fuel)%nat →
  ∃ r s', steps (S (S (S (S d)))) (Evaluate (count_statement get for_ range print x n) b) s r s' ∧
    stdout s' = (stdout s ++ numbers n)%list.
Proof.
  intros [C1 C2 C3 C4 C5 C6 C7 C8 C9 C10 C11] Hn Hfuel.
  destruct (range_literal_gives (S (S d)) get range b g rv rf n s) as (iter & s1 & E1 & A1 & Hi); [done..|lia|].
  set (cb := length (heap s1)).
  set (s2 := mkContext (heap s1 ++ [CodeBlockObject (print_block get print x b)])%list
    (transaction_depth_ s1) (stdout s1)).
  set (l := length (heap s2)).
  set (s3 := mkContext (heap s2 ++ [ListObject [iter; cb]])%list (transaction_depth_ s2) (stdout s2)).
  assert (adds s1 [] s3) as A3.
  { split; simpl; [|done|by rewrite app_nil_r]. etrans; by apply prefix_app_r. }
  assert (adds s [] s3) as A by (by apply (adds_trans _ [] _ [] _ A1)).
  destruct (counting_call d get print x b g pv pf cb iter n f l s3) as (r & s4 & E4 & H4); try done.
  - by apply (adds_lookup _ _ _ _ _ A).
  - by apply list_lookup_middle.
  - split; try done; try by apply (adds_lookup _ _ _ _ _ A).
    simpl. apply lookup_app_l_Some. by apply list_lookup_middle.
  - by apply (adds_lookup _ _ _ _ _ A3).
  - exists r, s4. split; [|rewrite H4, (adds_output _ _ _ A); by rewrite app_nil_r].
    change (steps (S (S (S (S d)))) (FunctionCallExpression_Evaluate (SymbolExpression_Evaluate for_ b)
      [Evaluate (range_literal get range n) b;
       BlockExpression_Evaluate (ListExpression [print_variable get print x]) [x] [] b]) s r s4).
    eapply steps_bind; [unfold SymbolExpression_Evaluate; rewrite C3; apply steps_ret|].
    eapply (steps_bind _ _ _ _ _ s3).
    + eapply steps_bind; [|apply steps_create]. eapply steps_bind; [exact E1|].
      eapply steps_bind; [|apply steps_ret]. eapply steps_bind; [apply steps_create|]. apply steps_ret.
    + eapply steps_bind; [apply steps_call; exact E4|]. apply steps_ret.
Qed.

(** *** The built-in objects *)

(** The symbol [id] is bound to [lo], directly or through a variable. *)
Definition resolved (b : gmap Z ObjectReference) (h : list LocalObjectImpl) (id : Z) (visible : bool)
    (lo : LocalObjectImpl) : Prop :=
  ∃ r, b !! id = Some r ∧
    if visible then ∃ r', h !! r = Some (VariableObject (Some r')) ∧ h !! r' = Some lo
    else h !! r = Some lo.

Lemma resolved_later b h b' h' id v lo :
  h `prefix_of` h' → b' !! id = b !! id → resolved b h id v lo → resolved b' h' id v lo.
Proof.
  intros Hh Hb (r & Hr & Hv). exists r. rewrite Hb. split; [done|]. destruct v.
  - destruct Hv as (r' & ? & ?). exists r'. split; by eapply prefix_lookup_Some.
  - by eapply prefix_lookup_Some.
Qed.

Lemma resolve_one d ids b name v lo id s :
  ids !! name = Some id → b !! id = None →
  gives d (ResolveExternalSymbol ids b (name, v, lo)) s []
    (fun b' h => ∃ r, b' = <[id := r]> b ∧ resolved b' h id v lo).
Proof.
  intros Hid Hb. unfold ResolveExternalSymbol.
  eapply gives_lift; [by rewrite Hid|].
  eapply gives_silent; [apply gives_create|]. intros r s1 _ Hr.
  eapply (gives_silent _ _ _ _ _ (fun r' h =>
    if v then ∃ x, h !! r' = Some (VariableObject (Some x)) ∧ h !! x = Some lo else h !! r' = Some lo)).
  { destruct v; [|by apply gives_ret].
    eapply gives_mono; [eapply (gives_frame _ _ _ _ _ _ _ Hr); apply gives_create|]. intros r' h [? ?]. eauto. }
  intros r' s2 _ Hr'. unfold emplace_symbol. rewrite bool_decide_true by done.
  apply (gives_ret _ (<[id := r']> b)). exists r'. split; [done|]. exists r'. by rewrite lookup_insert_eq.
Qed.

Lemma resolve_gives d ids l b s :
  ids_ok ids l → Forall (fun i => b !! i = None) (ids_of ids l) →
  gives d (for_each (ResolveExternalSymbol ids) b l) s []
    (fun b' h =>
       (∀ id, id ∉ ids_of ids l → b' !! id = b !! id) ∧
       ∀ name v lo id, (name, v, lo) ∈ l → ids !! name = Some id → resolved b' h id v lo).
Proof.
  unfold ids_ok, ids_of. revert b s. induction l as [|[[name v] lo] l IH]; intros b s [Hs Hnd] Hf;
    cbn [for_each]; csimpl in Hnd; csimpl in Hf.
  { apply gives_ret. split; [done|]. by intros ???? ?%elem_of_nil. }
  apply Forall_cons in Hs as [[id Hid] Hs]. simpl in Hid. rewrite Hid in Hnd, Hf.
  apply NoDup_cons in Hnd as [Hni Hnd]. apply Forall_cons in Hf as [Hb Hf].
  eapply gives_silent; [by apply resolve_one|]. intros ? s1 _ (r & -> & Hres).
  edestruct (IH (<[id := r]> b) s1) as (b' & s2 & E & A & H1 & H2); [done| |].
  { rewrite Forall_forall in *. intros i Hi. rewrite lookup_insert_ne; [by apply Hf|]. by intros ->. }
  exists b', s2. split_and!; [done|done| |].
  - intros i Hi. csimpl in Hi. rewrite Hid in Hi. apply not_elem_of_cons in Hi as [? ?]. rewrite H1 by done. by rewrite lookup_insert_ne.
  - intros name' v' lo' id' [[= -> -> ->]|Hin]%elem_of_cons Hid'; [|by eapply H2].
    assert (id' = id) as -> by congruence.
    eapply resolved_later; [apply A|by apply H1|done].
Qed.

(** *** The program *)
Lemma steps_begin d s :
  0 ≤ transaction_depth_ s < 2 ^ 31 - 1 →
  steps d BeginTransaction s tt (set_depth (transaction_depth_ s + 1) s).
Proof.
  intros Hd self k. simpl. unfold mbind, FM_bind, FakeBeginTransaction.
  rewrite (proj2 (Z.leb_gt _ _)), (proj2 (Z.ltb_lt _ _)) by lia. done.
Qed.
Lemma steps_end d s :
  0 < transaction_depth_ s → steps d EndTransaction s tt (set_depth (transaction_depth_ s - 1) s).
Proof.
  intros Hd self k. simpl. unfold mbind, FM_bind, FakeEndTransaction.
  rewrite (proj2 (Z.ltb_lt _ _)) by lia. done.
Qed.

(** The evaluation of a block with one statement. *)
Lemma eval_block d cb l e b s out :
  heap s !! cb = Some (CodeBlockObject (mkCodeBlock (ListExpression [e]) b [] [])) →
  heap s !! l = Some (ListObject []) →
  (∀ s1, adds s [] s1 → ∃ r s2, steps (S d) (Evaluate e b) s1 r s2 ∧ stdout s2 = (stdout s1 ++ out)%list) →
  ∃ v s', FakeCallMethod (S (S d)) cb "eval" [set_object_reference 0 l] s = Done v s' ∧
    stdout s' = (stdout s ++ out)%list.
Proof.
  intros Hcb Hl He.
  destruct (get_parameters_gives d l [] s Hl) as (rs & s1 & E1 & A1 & ->).
  destruct (He s1 A1) as (r & s2 & E2 & H2).
  eexists _, (mkContext _ _ (stdout s2)). split.
  - eapply steps_method; [exact Hcb|discriminate|].
    change (InvokeMethod fuel (CodeBlockObject ?c) "eval" ?ps) with
      (rs ← get_parameters ps; object_reference ← EvaluateCodeBlock c rs;
       return_ (set_object_reference 0 object_reference)).
    eapply steps_bind; [exact E1|]. eapply steps_bind; [|apply steps_ret].
    change (EvaluateCodeBlock ?c []) with
      (rs ← evaluate_all [Evaluate e b]; CreateObject (ListObject rs) "").
    eapply steps_bind; [|apply steps_create]. eapply steps_bind; [exact E2|]. apply steps_ret.
  - simpl. by rewrite H2, (adds_output _ _ _ A1), app_nil_r.
Qed.

(** The program [(for x (range n) { (print x) })]. *)
Definition count_program (n : Z) : Expression :=
  BlockExpression (ListExpression [count_statement 1 3 8 9 23 n]) [] [].

Lemma program_counting b s :
  b !! 23 = None →
  (∀ name v lo id, (name, v, lo) ∈ built_ins → program_ids !! name = Some id → resolved b (heap s) id v lo) →
  ∃ g f rv rf pv pf, counting 1 3 8 9 23 b g f rv rf pv pf s.
Proof.
  intros Hb Hr.
  destruct (Hr "get" false (FunctionObject GetVariableFunction) 1) as (g & ? & ?);
    [by apply (list_elem_of_lookup_2 _ 0)|vm_compute; reflexivity|].
  destruct (Hr "for" false (FunctionObject ForFunction) 3) as (f & ? & ?);
    [by apply (list_elem_of_lookup_2 _ 2)|vm_compute; reflexivity|].
  destruct (Hr "range" true (FunctionObject RangeFunction) 8) as (rv & ? & rf & ? & ?);
    [by apply (list_elem_of_lookup_2 _ 7)|vm_compute; reflexivity|].
  destruct (Hr "print" true (FunctionObject PrintFunction) 9) as (pv & ? & pf & ? & ?);
    [by apply (list_elem_of_lookup_2 _ 8)|vm_compute; reflexivity|].
  exists g, f, rv, rf, pv, pf. by split.
Qed.

Lemma counting_later get for_ range print x b g f rv rf pv pf s s' :
  heap s `prefix_of` heap s' →
  counting get for_ range print x b g f rv rf pv pf s → counting get for_ range print x b g f rv rf pv pf s'.
Proof. intros Hp []. split; try done; by eapply prefix_lookup_Some. Qed.

Lemma count_program_runs d n :
  0 ≤ n < 2 ^ 63 → (Z.to_nat n < fuel)%nat →
  ∃ s', FakeRunProgram (S (S (S (S (S d))))) (ProgramObject program_ids (count_program n)) "run" false
          NewFakeMethodContext = Done (set_empty 0) s' ∧ stdout s' = numbers n.
Proof.
  intros Hn Hfuel.
  set (s0 := mkContext [ProgramObject program_ids (count_program n)] 1 []).
  destruct (resolve_gives (S (S (S (S (S d))))) program_ids built_ins ∅ s0) as (b & s1 & E1 & A1 & Hb & Hres).
  { apply program_ids_ok. }
  { apply Forall_forall. intros i _. apply lookup_empty. }
  destruct (program_counting b s1) as (g & f & rv & rf & pv & pf & Hc); [|exact Hres|].
  { rewrite Hb; [apply lookup_empty|]. apply (bool_decide_eq_true_1 (_ ∉ _)). vm_compute. reflexivity. }
  set (cb := length (heap s1)).
  set (s2 := mkContext (heap s1 ++ [CodeBlockObject (mkCodeBlock (ListExpression [count_statement 1 3 8 9 23 n]) b [] [])])%list
    0 (stdout s1)).
  set (l := length (heap s2)).
  set (s3 := mkContext (heap s2 ++ [ListObject []])%list 0 (stdout s2)).
  destruct (eval_block (S (S (S d))) cb l (count_statement 1 3 8 9 23 n) b s3 (numbers n)) as (v & s4 & E4 & H4).
  { simpl. apply lookup_app_l_Some. by apply list_lookup_middle. }
  { by apply list_lookup_middle. }
  { intros s' A. eapply count_statement_steps; [|done|done]. eapply counting_later; [|exact Hc].
    etrans; [|exact (adds_objects _ _ _ A)]. simpl. by do 2 apply prefix_app_r. }
  exists s4. split; [|by rewrite H4; simpl; rewrite (adds_output _ _ _ A1)].
  assert (steps (S (S (S (S (S d))))) (InvokeProgram program_ids (count_program n) "run" [])
    (mkContext [ProgramObject program_ids (count_program n)] 0 []) (set_empty 0) s4) as Hrun.
  { apply steps_lift.
    eapply (steps_bind _ _ _ _ _ s0); [apply steps_begin; simpl; lia|].
    eapply steps_bind; [exact E1|].
    eapply (steps_bind _ _ _ _ _ (set_depth 0 s1)).
    { replace 0 with (transaction_depth_ s1 - 1) by by rewrite (adds_depth _ _ _ A1).
      apply steps_end. by rewrite (adds_depth _ _ _ A1). }
    eapply (steps_bind _ _ _ _ _ s2); [apply steps_create|].
    eapply (steps_bind _ _ _ _ _ s3); [apply steps_create|].
    eapply steps_bind; [apply steps_call; exact E4|]. apply steps_ret. }
  exact (Hrun 0%nat PReturn).
Qed.

End computing.

(** *** From the text *)
Definition count_text (n : Z) : string := "( for x ( range " ++ printf_d n ++ " ) { ( print x ) } ) ".

Definition count_tokens (n : Z) : list Token.t :=
  [Token.CreateBeginExpression; Token.CreateForKeyword; Token.CreateIdentifier "x";
   Token.CreateBeginExpression; Token.CreateIdentifier "range"; Token.CreateIntLiteral n;
   Token.CreateEndExpression; Token.CreateBeginBlock; Token.CreateBeginExpression;
   Token.CreateIdentifier "print"; Token.CreateIdentifier "x"; Token.CreateEndExpression;
   Token.CreateEndBlock; Token.CreateEndExpression].

Lemma count_text_tokens n : 0 ≤ n < 2 ^ 63 → tokens_of (count_text n) = Ok (count_tokens n).
Proof.
  intros Hn. change (count_text n) with (print_tokens (count_tokens n)). apply tokens_of_print.
  repeat constructor. unfold token_ok, LLONG_MIN, LLONG_MAX. simpl Token.type_. cbn [Token.int_attribute_ Token.CreateIntLiteral].
  rewrite (proj2 (Z.leb_le _ _)), (proj2 (Z.leb_le _ _)) by lia. done.
Qed.

Lemma count_tokens_parse m n :
  match program_symbol_table with
  | Ok t =>
      match Parser.ParseFile (20 + m) (count_tokens n, t) with
      | Some (Ok (e, (_, t'))) => Some (e, SymbolTable.GetExternalSymbolIds t')
      | _ => None
      end
  | _ => None
  end = Some (count_program n, program_ids).
Proof. vm_cast_no_check (eq_refl (Some (count_program n, program_ids))). Qed.

Lemma count_text_parse n : 0 ≤ n < 2 ^ 63 → parse_program (count_text n) = Some (Ok (count_program n, program_ids)).
Proof.
  intros Hn. unfold parse_program.
  assert (∃ m, file_fuel (count_text n) = 20 + m)%nat as [m Hm].
  { exists (file_fuel (count_text n) - 20)%nat. unfold file_fuel, count_text. rewrite !str_app_length. simpl. lia. }
  rewrite Hm. pose proof (count_tokens_parse m n) as H.
  destruct program_symbol_table as [t| |]; [|discriminate H..].
  destruct (Parser.ParseFile (20 + m) (count_tokens n, t)) as [[[e [rest t']]| |]|] eqn:E;
    [|discriminate H..].
  destruct (parse_tokens_file _ _ _ _ _ _ _ (count_text_tokens n Hn) E) as [l ->].
  apply (inj Some), pair_equal_spec in H as [-> ->]. reflexivity.
Qed.

Lemma concat_cons x l : String.concat "" (x :: l) = x ++ String.concat "" l.
Proof. destruct l; simpl; [by rewrite str_app_nil_r|done]. Qed.

Lemma concat_numbers n : String.concat "" (numbers n) = lines_of (printf_d <$> seqZ 0 n).
Proof.
  unfold numbers, lines_of. induction (seqZ 0 n) as [|i l IH]; [done|].
  cbn [flat_map fmap list_fmap map app]. rewrite !concat_cons, IH. by rewrite str_app_assoc.
Qed.


