(* ===== verification/ToySerialization.v ===== *)
(** * The toy language: serialization of its objects

    [PopulateObjectProto] of the objects of [toy_lang/zoo] and of
    [toy_lang/code_block.cc] and [toy_lang/program_object.cc],
    [toy_lang/get_serialized_object_type.cc], [toy_lang/zoo/local_object_impl.cc] and
    [toy_lang/interpreter_impl.cc].

    The generated classes of [toy_lang/proto/serialization.proto] are records of
    optional fields; the bytes of a message are those of the protocol buffer
    library, a parameter.  An [unordered_map] is iterated in an order that is a
    parameter too. *)
From S2P Require Import Prelude Text Values Serialization PlaybackThread ToyLexer ToyParser ToyObjects.
From stdpp Require Import base tactics list strings gmap finite.
From Stdlib Require Import ZArith Lia Ascii.
#[local] Open Scope string_scope.
#[local] Open Scope Z_scope.

(** ** Messages *)
Definition function_kinds : list FunctionKind :=
  [ListFunction; GetVariableFunction; SetVariableFunction; ForFunction; RangeFunction;
   PrintFunction; AddFunction; BeginTranFunction; EndTranFunction; IfFunction; NotFunction;
   WhileFunction; LessThanFunction; LenFunction; ListAppendFunction; ListGetFunction;
   MapIsSetFunction; MapGetFunction; MapSetFunction].

#[export] Program Instance FunctionKind_finite : Finite FunctionKind := {| enum := function_kinds |}.
Next Obligation. apply (bool_decide_eq_true_1 (NoDup _)). vm_compute. reflexivity. Qed.
Next Obligation. intros []; apply (bool_decide_eq_true_1 (_ ∈ _)); vm_compute; reflexivity. Qed.
#[export] Instance FunctionKind_countable : Countable FunctionKind := finite_countable.

Record CodeBlockProto := mkCodeBlockProto {
  cb_expression : ExpressionProto;
  cb_external_symbol : list (Z * Z);
  cb_parameter_symbol_id : list Z;
  cb_local_symbol_id : list Z;
}.

Record ProgramProto := mkProgramProto {
  program_external_symbol : list (string * Z);
  program_expression : ExpressionProto;
}.

(** The fields for the subclasses of [Function] that are set are [functions]. *)
Record ObjectProto := mkObjectProto {
  none_object : bool;
  bool_object : option bool;
  int_object : option Z;
  string_object : option string;
  variable_object : option (option Z);
  code_block_object : option CodeBlockProto;
  list_object : option (list Z);
  map_object : option (list (string * Z));
  range_iterator_object : option (Z * Z);
  functions : gset FunctionKind;
  program_object : option ProgramProto;
}.

Module ObjectType.
Inductive t :=
| UNKNOWN | NONE | BOOL | INT | STRING | VARIABLE | CODE_BLOCK | LIST | MAP | RANGE_ITERATOR
| FUNCTION (f : FunctionKind) | PROGRAM.
#[global] Instance t_eq_dec : EqDecision t.
Proof. solve_decision. Defined.
End ObjectType.

(** There is no line for [program_object]. *)
Definition GetSerializedObjectType (p : ObjectProto) : res ObjectType.t :=
  GetFieldType ObjectType.UNKNOWN
    ([(none_object p, ObjectType.NONE);
      (bool_decide (is_Some (bool_object p)), ObjectType.BOOL);
      (bool_decide (is_Some (int_object p)), ObjectType.INT);
      (bool_decide (is_Some (string_object p)), ObjectType.STRING);
      (bool_decide (is_Some (variable_object p)), ObjectType.VARIABLE);
      (bool_decide (is_Some (code_block_object p)), ObjectType.CODE_BLOCK);
      (bool_decide (is_Some (list_object p)), ObjectType.LIST);
      (bool_decide (is_Some (map_object p)), ObjectType.MAP);
      (bool_decide (is_Some (range_iterator_object p)), ObjectType.RANGE_ITERATOR)] ++
     map (fun f => (bool_decide (f ∈ functions p), ObjectType.FUNCTION f)) function_kinds)%list.

(** ** Writing an object, with the context's indexes *)
Class Wire := {
  encode : ObjectProto → string;
  decode : string → option ObjectProto;
  order_symbols : gmap Z ObjectReference → list (Z * ObjectReference);
  order_entries : gmap string ObjectReference → list (string * ObjectReference);
  order_ids : gmap string Z → list (string * Z);
}.

(** What the library and the containers promise. *)
Class WireLaws `{Wire} : Prop := {
  decode_encode p : decode (encode p) = Some p;
  order_symbols_perm m : order_symbols m ≡ₚ map_to_list m;
  order_entries_perm m : order_entries m ≡ₚ map_to_list m;
}.

Section wire.
Context `{Wire}.

(** Indexes for a list of references, one after the other. *)
Fixpoint indexes_for (rs : list ObjectReference) (k : list Z → ser_prog) : ser_prog :=
  match rs with
  | [] => k []
  | r :: rs' => SIndex r (fun i => indexes_for rs' (fun ixs => k (i :: ixs)))
  end.

Definition PopulateCodeBlockProto (c : CodeBlock) (k : CodeBlockProto → ser_prog) : ser_prog :=
  let symbols := order_symbols (external_symbols_ c) in
  indexes_for symbols.*2 (fun ixs =>
    k (mkCodeBlockProto (PopulateExpressionProto (expression_ c)) (zip symbols.*1 ixs)
         (parameter_symbol_ids_ c) (local_symbol_ids_ c))).

(** An [ObjectProto] with one field set by [mutable_...]. *)
Definition BoolObject_PopulateObjectProto (b : bool) : ObjectProto :=
  mkObjectProto false (Some b) None None None None None None None ∅ None.
Definition IntObject_PopulateObjectProto (n : Z) : ObjectProto :=
  mkObjectProto false None (Some n) None None None None None None ∅ None.
Definition StringObject_PopulateObjectProto (s : string) : ObjectProto :=
  mkObjectProto false None None (Some s) None None None None None ∅ None.
Definition NoneObject_PopulateObjectProto : ObjectProto :=
  mkObjectProto true None None None None None None None None ∅ None.
Definition RangeIteratorObject_PopulateObjectProto (limit i : Z) : ObjectProto :=
  mkObjectProto false None None None None None None None (Some (limit, i)) ∅ None.
Definition Function_PopulateObjectProto (f : FunctionKind) : ObjectProto :=
  mkObjectProto false None None None None None None None None {[ f ]} None.
Definition ProgramObject_PopulateObjectProto (ids : gmap string Z) (e : Expression) : ObjectProto :=
  mkObjectProto false None None None None None None None None ∅
    (Some (mkProgramProto (order_ids ids) (PopulateExpressionProto e))).

Definition VariableObject_PopulateObjectProto (r : option ObjectReference) (k : ObjectProto → ser_prog) : ser_prog :=
  match r with
  | Some r => SIndex r (fun i =>
      k (mkObjectProto false None None None (Some (Some i)) None None None None ∅ None))
  | None => k (mkObjectProto false None None None (Some None) None None None None ∅ None)
  end.

Definition CodeBlockObject_PopulateObjectProto (c : CodeBlock) (k : ObjectProto → ser_prog) : ser_prog :=
  PopulateCodeBlockProto c (fun cb =>
    k (mkObjectProto false None None None None (Some cb) None None None ∅ None)).

Definition ListObject_PopulateObjectProto (items : list ObjectReference) (k : ObjectProto → ser_prog) : ser_prog :=
  indexes_for items (fun ixs =>
    k (mkObjectProto false None None None None None (Some ixs) None None ∅ None)).

Definition MapObject_PopulateObjectProto (m : gmap string ObjectReference) (k : ObjectProto → ser_prog) : ser_prog :=
  let entries := order_entries m in
  indexes_for entries.*2 (fun ixs =>
    k (mkObjectProto false None None None None None None (Some (zip entries.*1 ixs)) None ∅ None)).

(** The virtual call. *)
Definition PopulateObjectProto (lo : LocalObjectImpl) (k : ObjectProto → ser_prog) : ser_prog :=
  match lo with
  | NoneObject => k NoneObject_PopulateObjectProto
  | BoolObject b => k (BoolObject_PopulateObjectProto b)
  | IntObject n => k (IntObject_PopulateObjectProto n)
  | StringObject s => k (StringObject_PopulateObjectProto s)
  | VariableObject r => VariableObject_PopulateObjectProto r k
  | CodeBlockObject c => CodeBlockObject_PopulateObjectProto c k
  | ListObject items => ListObject_PopulateObjectProto items k
  | MapObject m => MapObject_PopulateObjectProto m k
  | RangeIteratorObject limit i => k (RangeIteratorObject_PopulateObjectProto limit i)
  | FunctionObject f => k (Function_PopulateObjectProto f)
  | ProgramObject ids e => k (ProgramObject_PopulateObjectProto ids e)
  end.

(** [LocalObjectImpl::Serialize], as the program that [ser_run] and the engine's
    [Serialize] run. *)
Definition SerializeObject (lo : LocalObjectImpl) : ser_prog :=
  PopulateObjectProto lo (fun p => SDone (encode p)).

(** ** Reading an object *)
Section parse.
Context (refs : list ObjectReference).

(** An [int64] field passed as an [int]. *)
Definition reference_at (index : Z) : res ObjectReference :=
  GetObjectReferenceByIndex refs (int32_of index).

Definition ParseCodeBlockProto (p : CodeBlockProto) : res CodeBlock :=
  e ← ParseExpressionProto (cb_expression p);
  external_symbols ← foldM (fun m x =>
      r ← reference_at x.2;
      _ ← CHECK (bool_decide (m !! int32_of x.1 = None));
      Ok (<[int32_of x.1 := r]> m)) ∅ (cb_external_symbol p);
  Ok (mkCodeBlock e external_symbols (int32_of <$> cb_parameter_symbol_id p)
        (int32_of <$> cb_local_symbol_id p)).

Definition ParseVariableProto (index : option Z) : res LocalObjectImpl :=
  match index with
  | Some i => r ← reference_at i; Ok (VariableObject (Some r))
  | None => Ok (VariableObject None)
  end.

Definition ParseListProto (indexes : list Z) : res LocalObjectImpl :=
  items ← mapR reference_at indexes; Ok (ListObject items).

Definition ParseMapProto (entries : list (string * Z)) : res LocalObjectImpl :=
  m ← foldM (fun m x =>
      r ← reference_at x.2;
      _ ← CHECK (bool_decide (m !! x.1 = None));
      Ok (<[x.1 := r]> m)) ∅ entries;
  Ok (MapObject m).

(** [ProgramObject::ParseProgramProto], which nothing calls. *)
Definition ParseProgramProto (p : ProgramProto) : res LocalObjectImpl :=
  ids ← foldM (fun m x =>
      _ ← CHECK (bool_decide (m !! x.1 = None));
      Ok (<[x.1 := int32_of x.2]> m)) ∅ (program_external_symbol p);
  e ← ParseExpressionProto (program_expression p);
  Ok (ProgramObject ids e).

(** The switch of [LocalObjectImpl::Deserialize]. *)
Definition parse_object (p : ObjectProto) : res LocalObjectImpl :=
  ty ← GetSerializedObjectType p;
  match ty with
  | ObjectType.NONE => Ok NoneObject
  | ObjectType.BOOL => Ok (BoolObject (default false (bool_object p)))
  | ObjectType.INT => Ok (IntObject (default 0 (int_object p)))
  | ObjectType.STRING => Ok (StringObject (default "" (string_object p)))
  | ObjectType.VARIABLE => ParseVariableProto (default None (variable_object p))
  | ObjectType.CODE_BLOCK =>
      cb ← check_some (code_block_object p); c ← ParseCodeBlockProto cb; Ok (CodeBlockObject c)
  | ObjectType.LIST => ParseListProto (default [] (list_object p))
  | ObjectType.MAP => ParseMapProto (default [] (map_object p))
  | ObjectType.RANGE_ITERATOR =>
      let '(limit, i) := default (0, 0) (range_iterator_object p) in NewRangeIteratorObject limit i
  | ObjectType.FUNCTION f => Ok (FunctionObject f)
  | ObjectType.UNKNOWN | ObjectType.PROGRAM => Fatal
  end.

(** [InterpreterImpl::DeserializeObject]. *)
Definition Deserialize (buffer : string) : res LocalObjectImpl :=
  p ← check_some (decode buffer); parse_object p.

End parse.

(** ** Objects survive the wire *)
Context `{!WireLaws}.

Lemma indexes_for_run rs k ctx :
  ∃ ixs ctx', length ixs = length rs ∧
    ser_run (indexes_for rs k) ctx = ser_run (k ixs) ctx' ∧
    ∀ r i, (r, i) ∈ zip rs ixs → (r, i) ∈ ser_trace (indexes_for rs k) ctx.
Proof.
  revert k ctx. induction rs as [|r rs IH]; intros k ctx; simpl.
  - exists [], ctx. split_and!; [done|done|]. by intros r i ?%elem_of_nil.
  - destruct (GetIndexForObjectReference r ctx) as [i ctx1].
    destruct (IH (fun ixs => k (i :: ixs)) ctx1) as (ixs & ctx' & Hl & Hr & Ht).
    exists (i :: ixs), ctx'. split_and!; [simpl; lia|done|].
    intros r' i' [[= -> ->]|Hin]%elem_of_cons; [by left|]. right. by apply Ht.
Qed.

(** The references a serialized object comes with give back those it had. *)
Lemma reference_at_ok p data ctx r i :
  ser_run p NewSerializationContext = (data, ctx) →
  Z.of_nat (length (object_references_ ctx)) < 2 ^ 31 →
  (r, i) ∈ ser_trace p NewSerializationContext →
  reference_at (object_references_ ctx) i = Ok r.
Proof.
  intros Hr Hl Hin. destruct (serialization_index_roundtrip p data ctx Hr Hl) as [_ Hix].
  specialize (Hix r i Hin). unfold reference_at. rewrite int32_of_id; [done|].
  unfold GetObjectReferenceByIndex in Hix. res_inv. unfold is_int32. lia.
Qed.

(** The indexes written for [rs] are read back as [rs]. *)
Lemma indexes_for_read rs f data ctx :
  ser_run (indexes_for rs (fun ixs => SDone (encode (f ixs)))) NewSerializationContext = (data, ctx) →
  Z.of_nat (length (object_references_ ctx)) < 2 ^ 31 →
  ∃ ixs, decode data = Some (f ixs) ∧
    Forall2 (fun r i => reference_at (object_references_ ctx) i = Ok r) rs ixs.
Proof.
  intros Hr Hl.
  destruct (indexes_for_run rs (fun ixs => SDone (encode (f ixs))) NewSerializationContext)
    as (ixs & ctx' & Hlen & Hrun & Ht).
  exists ixs. split.
  - rewrite Hrun in Hr. injection Hr as <- _. apply decode_encode.
  - apply Forall2_same_length_lookup_2; [done|]. intros j r i Hj1 Hj2.
    eapply reference_at_ok; [done|done|]. apply Ht, (list_elem_of_lookup_2 _ j).
    by rewrite lookup_zip_with, Hj1, Hj2.
Qed.

Lemma parse_items refs rs ixs :
  Forall2 (fun r i => reference_at refs i = Ok r) rs ixs → mapR (reference_at refs) ixs = Ok rs.
Proof. induction 1 as [|r i rs ixs Hr _ IH]; simpl; [done|]. by rewrite Hr, IH. Qed.

Lemma parse_entries {K} `{Countable K} (conv : K → K) refs (l : list (K * ObjectReference)) ixs
    (m : gmap K ObjectReference) :
  Forall2 (fun r i => reference_at refs i = Ok r) l.*2 ixs → NoDup l.*1 →
  Forall (fun k => conv k = k ∧ m !! k = None) l.*1 →
  foldM (fun m x =>
      r ← reference_at refs x.2;
      _ ← CHECK (bool_decide (m !! conv x.1 = None));
      Ok (<[conv x.1 := r]> m)) m (zip l.*1 ixs) = Ok (list_to_map l ∪ m).
Proof.
  revert ixs m. induction l as [|[k r] l IH]; intros ixs m HF Hnd Hk; csimpl in *.
  { inversion HF; subst. simpl. by rewrite (left_id_L ∅ (∪)). }
  inversion HF as [|? i ? ixs' Hi HF' E1 E2]; subst. apply NoDup_cons in Hnd as [Hkl Hnd].
  apply Forall_cons in Hk as [[Hc Hm] Hk]. simpl. rewrite Hi, Hc. simpl.
  rewrite bool_decide_true by done. simpl. rewrite IH; [|done|done|].
  - f_equal. rewrite <- insert_union_r by (apply not_elem_of_list_to_map_1; done).
    by rewrite insert_union_l.
  - rewrite Forall_forall in *. intros k' Hk'. destruct (Hk k' Hk'). split; [done|].
    rewrite lookup_insert_ne; [done|]. intros ->. done.
Qed.

Lemma list_to_map_order {K} `{Countable K} (m : gmap K ObjectReference) l :
  l ≡ₚ map_to_list m → NoDup l.*1 ∧ list_to_map l = m ∧ Forall (fun k => k ∈ dom m) l.*1.
Proof.
  intros Hp. assert (NoDup l.*1) as Hnd by (rewrite Hp; apply NoDup_fst_map_to_list).
  split_and!; [done| |].
  - rewrite (list_to_map_proper _ _ Hnd Hp). apply list_to_map_to_list.
  - rewrite Hp. apply Forall_forall. intros k ([k' r] & -> & Hk)%list_elem_of_fmap.
    apply elem_of_map_to_list in Hk. by apply elem_of_dom_2 in Hk.
Qed.

#[local] Arguments reference_at : simpl never.
#[local] Arguments int32_of : simpl never.

(** The objects whose members the fields of their message can hold; a program is
    not among them. *)
Definition wire_ok (lo : LocalObjectImpl) : Prop :=
  match lo with
  | CodeBlockObject c =>
      expression_ok (expression_ c) ∧ Forall is_int32 (parameter_symbol_ids_ c) ∧
      Forall is_int32 (local_symbol_ids_ c) ∧ (∀ i, i ∈ dom (external_symbols_ c) → is_int32 i)
  | RangeIteratorObject limit i => i ≤ limit
  | ProgramObject _ _ => False
  | _ => True
  end.

Ltac of_type ty :=
  cbn [check_some mbind res_bind]; unfold parse_object;
  change (GetSerializedObjectType _) with (Ok ty); simpl.

(** C33 (roundtrip). Any object of the language but a program is read back as it was from its bytes
    and the references the serialization context collected, in whatever order the
    hash maps are iterated. *)
Theorem toy_object_roundtrip lo data ctx :
  wire_ok lo → ser_run (SerializeObject lo) NewSerializationContext = (data, ctx) →
  Z.of_nat (length (object_references_ ctx)) < 2 ^ 31 →
  Deserialize (object_references_ ctx) data = Ok lo.
Proof.
  intros Hok Hr Hl. unfold Deserialize, SerializeObject in *.
  destruct lo as [|b|n|s|[r|]|c|items|m|limit i|f|ids e];
   cbn [PopulateObjectProto VariableObject_PopulateObjectProto] in Hr.
  all: try (simpl in Hr; injection Hr as <- <-; rewrite decode_encode; done).
  - apply (indexes_for_read [r] (fun ixs => mkObjectProto false None None None (Some (head ixs)) None None
      None None ∅ None)) in Hr as (ixs & -> & HF); [|done].
    inversion HF as [|? i ? ? Hi]; subst. of_type ObjectType.VARIABLE. by rewrite Hi.
  - unfold CodeBlockObject_PopulateObjectProto, PopulateCodeBlockProto in Hr.
    apply (indexes_for_read _ (fun ixs => mkObjectProto false None None None None (Some (mkCodeBlockProto _ _ _ _))
      None None None ∅ None)) in Hr as (ixs & -> & HF); [|done].
    destruct Hok as (He & Hps & Hls & Hids).
    destruct (list_to_map_order _ _ (order_symbols_perm (external_symbols_ c))) as (Hnd & Hm & Hd).
    of_type ObjectType.CODE_BLOCK. unfold ParseCodeBlockProto. simpl. rewrite expression_proto_roundtrip by done. simpl.
    rewrite (parse_entries int32_of); [|done|done|eapply Forall_impl; [exact Hd|];
      intros k Hk; split; [by apply int32_of_id, Hids|apply lookup_empty]].
    simpl. rewrite Hm, (right_id_L ∅ (∪)), !int32_list by done. by destruct c.
  - apply (indexes_for_read _ (fun ixs => mkObjectProto false None None None None None (Some ixs) None None
      ∅ None)) in Hr as (ixs & -> & HF); [|done].
    of_type ObjectType.LIST. unfold ParseListProto. by rewrite (parse_items _ _ _ HF).
  - apply (indexes_for_read _ (fun ixs => mkObjectProto false None None None None None None (Some (zip _ ixs)) None
      ∅ None)) in Hr as (ixs & -> & HF); [|done].
    destruct (list_to_map_order _ _ (order_entries_perm m)) as (Hnd & Hm & Hd).
    of_type ObjectType.MAP. unfold ParseMapProto.
    rewrite (parse_entries (fun k => k)); [|done|done|eapply Forall_impl; [exact Hd|];
      intros k Hk; split; [done|apply lookup_empty]].
    simpl. by rewrite Hm, (right_id_L ∅ (∪)).
  - simpl in Hr. injection Hr as <- <-. rewrite decode_encode. of_type ObjectType.RANGE_ITERATOR.
    unfold NewRangeIteratorObject. simpl in Hok. by rewrite (proj2 (Z.leb_le i limit)).
  - simpl in Hr. injection Hr as <- <-. rewrite decode_encode. by destruct f.
Qed.

(** A program object has a serialized form, but no peer can read it:
    [GetSerializedObjectType] does not know its field. *)
Theorem program_object_unreadable ids e refs :
  Deserialize refs (ser_run (SerializeObject (ProgramObject ids e)) NewSerializationContext).1 = Fatal.
Proof. unfold Deserialize. simpl. by rewrite decode_encode. Qed.
End wire.

(** ** A wire format that keeps the laws *)
Section concrete.

(** Expression messages as trees. *)
Abbreviation tree := (gen_tree (Z + string)).
Definition opt_tree {A} (f : A → tree) (o : option A) : tree :=
  match o with Some a => GenNode 1 [f a] | None => GenNode 0 [] end.
Definition tree_opt {A} (f : tree → option A) (x : tree) : option (option A) :=
  match x with
  | GenNode 0 [] => Some None
  | GenNode _ [y] => a ← f y; Some (Some a)
  | _ => None
  end.
Definition Z_tree (z : Z) : tree := GenLeaf (inl z).
Definition tree_Z (x : tree) : option Z := match x with GenLeaf (inl z) => Some z | _ => None end.
Definition s_tree (s : string) : tree := GenLeaf (inr s).
Definition tree_s (x : tree) : option string := match x with GenLeaf (inr s) => Some s | _ => None end.

Fixpoint expr_tree (p : ExpressionProto) : tree :=
  let 'mkExpressionProto i s y b f l := p in
  GenNode 0 [opt_tree Z_tree i; opt_tree s_tree s; opt_tree Z_tree y;
    match b with
    | Some (x, ps, ls) => GenNode 1 [expr_tree x; GenNode 0 (Z_tree <$> ps); GenNode 0 (Z_tree <$> ls)]
    | None => GenNode 0 []
    end;
    match f with Some (x, xs) => GenNode 1 [expr_tree x; GenNode 0 (map expr_tree xs)] | None => GenNode 0 [] end;
    match l with Some xs => GenNode 1 (map expr_tree xs) | None => GenNode 0 [] end].

Fixpoint tree_expr (x : tree) : option ExpressionProto :=
  let go := fix go (l : list tree) : option (list ExpressionProto) :=
    match l with [] => Some [] | y :: l' => e ← tree_expr y; es ← go l'; Some (e :: es) end in
  match x with
  | GenNode _ [i; s; y; b; f; l] =>
      i ← tree_opt tree_Z i; s ← tree_opt tree_s s; y ← tree_opt tree_Z y;
      b ← match b with
          | GenNode _ [e; GenNode _ ps; GenNode _ ls] =>
              e ← tree_expr e; ps ← mapM tree_Z ps; ls ← mapM tree_Z ls; Some (Some (e, ps, ls))
          | _ => Some None
          end;
      f ← match f with
          | GenNode _ [e; GenNode _ es] => e ← tree_expr e; es ← go es; Some (Some (e, es))
          | _ => Some None
          end;
      l ← match l with GenNode 1 es => es ← go es; Some (Some es) | _ => Some None end;
      Some (mkExpressionProto i s y b f l)
  | _ => None
  end.

Lemma tree_Zs l : mapM tree_Z (Z_tree <$> l) = Some l.
Proof. apply mapM_fmap_Some. done. Qed.

Lemma tree_expr_tree p : tree_expr (expr_tree p) = Some p.
Proof.
  revert p. fix IH 1. intros [i s y b f l].
  assert (∀ es, (fix go (l : list tree) : option (list ExpressionProto) :=
    match l with [] => Some [] | y :: l' => e ← tree_expr y; es ← go l'; Some (e :: es) end)
      (map expr_tree es) = Some es) as Hgo.
  { induction es as [|e es IHes]; [done|]. simpl. rewrite IH. simpl. by rewrite IHes. }
  assert (∀ {A} (g : A → tree) h o, (∀ a, h (g a) = Some a) → tree_opt h (opt_tree g o) = Some o) as Hopt.
  { intros A g h [a|] Ha; simpl; [by rewrite Ha|done]. }
  cbn [expr_tree tree_expr]. rewrite !Hopt by done. cbn [mbind option_bind].
  destruct b as [[[x ps] ls]|]; [rewrite IH, !tree_Zs|]; cbn [mbind option_bind];
    (destruct f as [[x' xs]|]; [rewrite IH, Hgo|]; cbn [mbind option_bind]);
    (destruct l as [xs'|]; [rewrite Hgo|]; done).
Qed.

End concrete.

#[local] Instance ExpressionProto_eq_dec : EqDecision ExpressionProto.
Proof.
  intros x y. destruct (decide (expr_tree x = expr_tree y)) as [E|E].
  - left. apply (inj Some). by rewrite <- (tree_expr_tree x), <- (tree_expr_tree y), E.
  - right. by intros ->.
Defined.
#[local] Instance ExpressionProto_countable : Countable ExpressionProto :=
  inj_countable expr_tree tree_expr tree_expr_tree.

Definition cb_tuple (c : CodeBlockProto) :=
  (cb_expression c, cb_external_symbol c, cb_parameter_symbol_id c, cb_local_symbol_id c).
Definition program_tuple (p : ProgramProto) := (program_external_symbol p, program_expression p).
Definition object_tuple (p : ObjectProto) :=
  (none_object p, bool_object p, int_object p, string_object p, variable_object p,
   cb_tuple <$> code_block_object p, list_object p, map_object p, range_iterator_object p,
   functions p, program_tuple <$> program_object p).
Definition tuple_object (x : _) : ObjectProto :=
  let '(n, b, i, s, v, c, l, m, r, f, p) := x in
  mkObjectProto n b i s v
    ((fun '(e, xs, ps, ls) => mkCodeBlockProto e xs ps ls) <$> c) l m r f
    ((fun '(xs, e) => mkProgramProto xs e) <$> p).

Lemma tuple_object_tuple p : tuple_object (object_tuple p) = p.
Proof. destruct p as [????? [[]|] ???? [[]|]]; done. Qed.

(** Numbers as strings of bits. *)
Fixpoint pos_string (p : positive) : string :=
  match p with
  | xH => ""
  | xO p => String "0"%char (pos_string p)
  | xI p => String "1"%char (pos_string p)
  end.
Fixpoint string_pos (s : string) : positive :=
  match s with
  | "" => xH
  | String c s => if bool_decide (c = "0"%char) then xO (string_pos s) else xI (string_pos s)
  end.
Lemma string_pos_string p : string_pos (pos_string p) = p.
Proof. induction p as [p IH|p IH|]; simpl; [by rewrite IH..|done]. Qed.

#[local] Instance bits_wire : Wire := {|
  encode p := pos_string (countable.encode (object_tuple p));
  decode s := tuple_object <$> countable.decode (string_pos s);
  order_symbols := map_to_list;
  order_entries m := reverse (map_to_list m);
  order_ids := map_to_list;
|}.

#[local] Instance bits_wire_laws : WireLaws.
Proof.
  split.
  - intros p. simpl. rewrite string_pos_string, countable.decode_encode.
    exact (f_equal Some (tuple_object_tuple p)).
  - done.
  - intros m. simpl. by rewrite reverse_Permutation.
Qed.

(** A map with two entries that share a value. *)
Lemma toy_object_roundtrip_witness :
  let lo := MapObject (<["b" := 5%nat]> {[ "a" := 5%nat ]}) in
  let run := ser_run (SerializeObject lo) NewSerializationContext in
  object_references_ run.2 = [5%nat] ∧ Deserialize (object_references_ run.2) run.1 = Ok lo.
Proof.
  split; [reflexivity|].
  apply (toy_object_roundtrip (MapObject (<["b" := 5%nat]> {[ "a" := 5%nat ]}))); [exact I|reflexivity|].
  vm_compute. reflexivity.
Defined.

Lemma program_object_unreadable_witness :
  Deserialize [] (ser_run (SerializeObject (ProgramObject ∅ (IntExpression 1))) NewSerializationContext).1 = Fatal.
Proof. apply program_object_unreadable. Defined.
