(* ===== verification/ToyDump.v ===== *)
(** * The toy language: copying and dumping objects

    [Clone] and [Dump] of the objects of [toy_lang/zoo], of
    [toy_lang/program_object.cc] and of [toy_lang/code_block.cc], and
    [FakeObjectReference::Dump] of [fake_engine/].  The objects are what the engine
    needs to dump its live objects ([LocalObjectDumpLaws]). *)
From S2P Require Import Prelude Text DumpContext Ids VersionMap SequencePoint Values Events LiveObject ObjectTable ObjectContent Dumps PlaybackThread FakeEngine ToyParser ToyObjects.
From stdpp Require Import base tactics list strings gmap.
From Stdlib Require Import ZArith Lia.
#[local] Open Scope string_scope.
#[local] Open Scope Z_scope.

(** ** [Clone] *)
Definition CodeBlock_Clone (c : CodeBlock) : CodeBlock :=
  mkCodeBlock (expression_ c) (external_symbols_ c) (parameter_symbol_ids_ c) (local_symbol_ids_ c).
Definition CodeBlockObject_Clone (c : CodeBlock) : LocalObjectImpl := CodeBlockObject (CodeBlock_Clone c).
Definition RangeIteratorObject_Clone (limit i : Z) : res LocalObjectImpl := NewRangeIteratorObject limit i.

(** [LocalObject::Clone]; the other classes pass their fields to the constructor. *)
Definition Clone (lo : LocalObjectImpl) : res LocalObjectImpl :=
  match lo with
  | CodeBlockObject c => Ok (CodeBlockObject_Clone c)
  | RangeIteratorObject limit i => RangeIteratorObject_Clone limit i
  | _ => Ok lo
  end.

(** A copy has the state of the original, as the engine's live objects assume. *)
Lemma clone_same K lo : object_ok K lo → Clone lo = Ok lo.
Proof.
  destruct lo; try done; intros Hok; simpl in *.
  - unfold CodeBlockObject_Clone, CodeBlock_Clone. by destruct code_block_.
  - unfold RangeIteratorObject_Clone, NewRangeIteratorObject. by replace (i_ <=? limit_) with true by lia.
Qed.

(** ** [Dump] *)
Section dump.
Context {D : Type} `{DumpContext D}.
(** [ObjectReference::Dump]. *)
Context (ref_dump : ObjectReference → D → res D).

Definition NoneObject_Dump : D → res D := dump_map (AddString "type" ;> AddString "NoneObject").
Definition BoolObject_Dump (b : bool) : D → res D :=
  dump_map (AddString "type" ;> AddString "BoolObject" ;> AddString "b" ;> AddBool b).
Definition IntObject_Dump (n : Z) : D → res D :=
  dump_map (AddString "type" ;> AddString "IntObject" ;> AddString "n" ;> AddInt64 n).
Definition StringObject_Dump (s : string) : D → res D :=
  dump_map (AddString "type" ;> AddString "StringObject" ;> AddString "s" ;> AddString s).
Definition VariableObject_Dump (object_reference : option ObjectReference) : D → res D :=
  dump_map (AddString "type" ;> AddString "VariableObject" ;>
    AddString "object_reference" ;> match object_reference with None => AddNull | Some r => ref_dump r end).
Definition CodeBlock_DebugString (c : CodeBlock) : string := "{" ++ c_str (DebugString (expression_ c)) ++ "}".
Definition CodeBlockObject_Dump (c : CodeBlock) : D → res D :=
  dump_map (AddString "type" ;> AddString "CodeBlockObject" ;>
    AddString "code_block" ;> AddString (CodeBlock_DebugString c)).
Definition ListObject_Dump (items : list ObjectReference) : D → res D :=
  dump_map (AddString "type" ;> AddString "ListObject" ;>
    AddString "items" ;> dump_list (dump_all ref_dump items)).
Definition MapObject_Dump (map_ : gmap string ObjectReference) : D → res D :=
  dump_map (AddString "type" ;> AddString "MapObject" ;>
    AddString "map" ;> dump_map (dump_all (fun '(k, r) => AddString k ;> ref_dump r) (map_to_list map_))).
Definition RangeIteratorObject_Dump (limit i : Z) : D → res D :=
  dump_map (AddString "type" ;> AddString "RangeIteratorObject" ;>
    AddString "limit" ;> AddInt64 limit ;> AddString "i" ;> AddInt64 i).
Definition ProgramObject_Dump (expression : Expression) : D → res D :=
  dump_map (AddString "type" ;> AddString "ProgramObject" ;>
    AddString "expression" ;> AddString (DebugString expression)).

(** The functions of the language. *)
Definition ListFunction_Dump : D → res D := dump_map (AddString "type" ;> AddString "ListFunction").
Definition GetVariableFunction_Dump : D → res D := dump_map (AddString "type" ;> AddString "GetVariableFunction").
Definition SetVariableFunction_Dump : D → res D := dump_map (AddString "type" ;> AddString "SetVariableFunction").
Definition ForFunction_Dump : D → res D := dump_map (AddString "type" ;> AddString "ForFunction").
Definition RangeFunction_Dump : D → res D := dump_map (AddString "type" ;> AddString "RangeFunction").
Definition PrintFunction_Dump : D → res D := dump_map (AddString "type" ;> AddString "PrintFunction").
Definition AddFunction_Dump : D → res D := dump_map (AddString "type" ;> AddString "AddFunction").
Definition BeginTranFunction_Dump : D → res D := dump_map (AddString "type" ;> AddString "BeginTranFunction").
Definition EndTranFunction_Dump : D → res D := dump_map (AddString "type" ;> AddString "EndTranFunction").
Definition IfFunction_Dump : D → res D := dump_map (AddString "type" ;> AddString "IfFunction").
Definition NotFunction_Dump : D → res D := dump_map (AddString "type" ;> AddString "NotFunction").
Definition WhileFunction_Dump : D → res D := dump_map (AddString "type" ;> AddString "WhileFunction").
Definition LessThanFunction_Dump : D → res D := dump_map (AddString "type" ;> AddString "LessThanFunction").
Definition LenFunction_Dump : D → res D := dump_map (AddString "type" ;> AddString "LenFunction").
Definition ListAppendFunction_Dump : D → res D := dump_map (AddString "type" ;> AddString "ListAppendFunction").
Definition ListGetFunction_Dump : D → res D := dump_map (AddString "type" ;> AddString "ListGetFunction").
Definition MapIsSetFunction_Dump : D → res D := dump_map (AddString "type" ;> AddString "MapIsSetFunction").
Definition MapGetFunction_Dump : D → res D := dump_map (AddString "type" ;> AddString "MapGetFunction").
Definition MapSetFunction_Dump : D → res D := dump_map (AddString "type" ;> AddString "MapSetFunction").

Definition Function_Dump (f : FunctionKind) : D → res D :=
  match f with
  | ListFunction => ListFunction_Dump
  | GetVariableFunction => GetVariableFunction_Dump
  | SetVariableFunction => SetVariableFunction_Dump
  | ForFunction => ForFunction_Dump
  | RangeFunction => RangeFunction_Dump
  | PrintFunction => PrintFunction_Dump
  | AddFunction => AddFunction_Dump
  | BeginTranFunction => BeginTranFunction_Dump
  | EndTranFunction => EndTranFunction_Dump
  | IfFunction => IfFunction_Dump
  | NotFunction => NotFunction_Dump
  | WhileFunction => WhileFunction_Dump
  | LessThanFunction => LessThanFunction_Dump
  | LenFunction => LenFunction_Dump
  | ListAppendFunction => ListAppendFunction_Dump
  | ListGetFunction => ListGetFunction_Dump
  | MapIsSetFunction => MapIsSetFunction_Dump
  | MapGetFunction => MapGetFunction_Dump
  | MapSetFunction => MapSetFunction_Dump
  end.

Definition toy_dump (lo : LocalObjectImpl) : D → res D :=
  match lo with
  | NoneObject => NoneObject_Dump
  | BoolObject b => BoolObject_Dump b
  | IntObject n => IntObject_Dump n
  | StringObject s => StringObject_Dump s
  | VariableObject r => VariableObject_Dump r
  | CodeBlockObject c => CodeBlockObject_Dump c
  | ListObject items => ListObject_Dump items
  | MapObject m => MapObject_Dump m
  | RangeIteratorObject limit i => RangeIteratorObject_Dump limit i
  | FunctionObject f => Function_Dump f
  | ProgramObject _ e => ProgramObject_Dump e
  end.

(** [FakeObjectReference::Dump]: a reference owns its local object, whose address
    stands for the reference's. *)
Definition FakeObjectReference_Dump (r : ObjectReference) : D → res D :=
  dump_map (AddString "local_object" ;> AddPointer r).
End dump.

#[export] Instance toy_object_dump : LocalObjectDump LocalObjectImpl := fun D HD => toy_dump.

(** The references that [Dump] follows: a code block's symbols are not dumped. *)
Definition toy_dumped_references (lo : LocalObjectImpl) : list ObjectReference :=
  match lo with
  | VariableObject (Some r) => [r]
  | ListObject items => items
  | MapObject m => (map_to_list m).*2
  | _ => []
  end.

Section toy_writes.
Context {D : Type} `{DumpContextLaws D} `{Printf} (ref_dump : ObjectReference → D → res D).

(** The type an object is dumped with. *)
Definition function_name (f : FunctionKind) : string :=
  match f with
  | ListFunction => "ListFunction" | GetVariableFunction => "GetVariableFunction"
  | SetVariableFunction => "SetVariableFunction" | ForFunction => "ForFunction"
  | RangeFunction => "RangeFunction" | PrintFunction => "PrintFunction" | AddFunction => "AddFunction"
  | BeginTranFunction => "BeginTranFunction" | EndTranFunction => "EndTranFunction"
  | IfFunction => "IfFunction" | NotFunction => "NotFunction" | WhileFunction => "WhileFunction"
  | LessThanFunction => "LessThanFunction" | LenFunction => "LenFunction"
  | ListAppendFunction => "ListAppendFunction" | ListGetFunction => "ListGetFunction"
  | MapIsSetFunction => "MapIsSetFunction" | MapGetFunction => "MapGetFunction" | MapSetFunction => "MapSetFunction"
  end.

(** What is read of an object. *)
Definition shows_object (lo : LocalObjectImpl) (j : json) : Prop :=
  match lo with
  | NoneObject => j = JMap [(JString "type", JString "NoneObject")]
  | BoolObject b =>
      j = JMap [(JString "type", JString "BoolObject"); (JString "b", JAtom (if b then "true" else "false"))]
  | IntObject n => j = JMap [(JString "type", JString "IntObject"); (JString "n", JAtom (printf_d n))]
  | StringObject s => j = JMap [(JString "type", JString "StringObject"); (JString "s", JString (CEscape s))]
  | VariableObject None =>
      j = JMap [(JString "type", JString "VariableObject"); (JString "object_reference", JAtom "null")]
  | VariableObject (Some r) => json_field "type" j = Some (JString "VariableObject")
  | CodeBlockObject c =>
      j = JMap [(JString "type", JString "CodeBlockObject");
                (JString "code_block", JString (CEscape (CodeBlock_DebugString c)))]
  | ListObject items =>
      ∃ js, json_field "items" j = Some (JList js) ∧ length js = length items
  | MapObject m =>
      ∃ es, json_field "map" j = Some (JMap es) ∧ es.*1 = JString ∘ CEscape <$> (map_to_list m).*1
  | RangeIteratorObject limit i =>
      j = JMap [(JString "type", JString "RangeIteratorObject"); (JString "limit", JAtom (printf_d limit));
                (JString "i", JAtom (printf_d i))]
  | FunctionObject f => j = JMap [(JString "type", JString (function_name f))]
  | ProgramObject _ e =>
      j = JMap [(JString "type", JString "ProgramObject"); (JString "expression", JString (CEscape (DebugString e)))]
  end.

(** Facts about the fields of a map that was written, as equations. *)
Ltac read_fields :=
  intros j Hj; cbv beta in *;
  repeat match goal with H : ∃ _, _ |- _ => destruct H | H : _ ∧ _ |- _ => destruct H end; subst.

Lemma entry_keys {A} (l : list (string * A)) (es : list (json * json)) :
  Forall2 (fun x e => e.1 = JString (CEscape x.1) ∧ True) l es → es.*1 = JString ∘ CEscape <$> l.*1.
Proof.
  induction 1 as [|[k a] [e1 e2] l es [He _] _ IH]; [done|]. simpl in He. subst e1.
  change (JString (CEscape k) :: es.*1 = JString (CEscape k) :: (JString ∘ CEscape <$> l.*1)). by rewrite IH.
Qed.

Lemma wrote_toy lo :
  (∀ r, r ∈ toy_dumped_references lo → wrote (ref_dump r) (fun _ => True)) →
  wrote (toy_dump ref_dump lo) (shows_object lo).
Proof.
  intros Hr. destruct lo as [|b|n|s|[r|]|c|items|m|limit i|f|ids e]; cbn [toy_dump shows_object].
  - eapply wrote_mono; [unfold NoneObject_Dump; wrote_map_tac|read_fields; done].
  - eapply wrote_mono; [unfold BoolObject_Dump; wrote_map_tac|read_fields; done].
  - eapply wrote_mono; [unfold IntObject_Dump; wrote_map_tac|read_fields; done].
  - eapply wrote_mono; [unfold StringObject_Dump; wrote_map_tac|read_fields; done].
  - specialize (Hr r ltac:(by left)). eapply wrote_mono; [unfold VariableObject_Dump; wrote_map_tac|read_fields; done].
  - eapply wrote_mono; [unfold VariableObject_Dump; wrote_map_tac|read_fields; done].
  - eapply wrote_mono; [unfold CodeBlockObject_Dump; wrote_map_tac|read_fields; done].
  - pose proof (wrote_items ref_dump (fun _ _ => True) items Hr).
    eapply wrote_mono; [unfold ListObject_Dump; wrote_map_tac|read_fields].
    eexists. split; [reflexivity|]. symmetry. by eapply Forall2_length.
  - pose proof (wrote_entries fst (fun '(k, r) => AddString k ;> ref_dump r) (fun x => ref_dump x.2) (fun _ _ => True)
      (map_to_list m)) as Hm. ospecialize (Hm ltac:(by intros []) _).
    { intros [k r] Hin. apply Hr. simpl. apply list_elem_of_fmap. by exists (k, r). }
    eapply wrote_mono; [unfold MapObject_Dump; wrote_map_tac|read_fields].
    eexists. split; [reflexivity|]. by apply entry_keys.
  - eapply wrote_mono; [unfold RangeIteratorObject_Dump; wrote_map_tac|read_fields; done].
  - destruct f; (eapply wrote_mono; [cbn [Function_Dump]; wrote_map_tac|read_fields; done]).
  - eapply wrote_mono; [unfold ProgramObject_Dump; wrote_map_tac|read_fields; done].
Qed.
End toy_writes.

#[export] Instance toy_object_dump_laws : LocalObjectDumpLaws LocalObjectImpl.
Proof.
  refine {| dumped_references := toy_dumped_references |}.
  intros D HD HL ref_dump lo Hr. pose proof (Printf := {| printf_f := fun _ => ""; printf_p := fun _ => "" |} : Printf).
  destruct (wrote_toy ref_dump lo) as (n & Hn & Hok & _); [|by exists n].
  intros r Hin. destruct (Hr r Hin) as (n & ? & ?). by exists n.
Defined.

(** The text of an object on the stand-alone engine. *)
Lemma toy_object_dump_reads `{PrintfLaws} (lo : LocalObjectImpl) :
  ∃ text j, GetJsonString (toy_dump FakeObjectReference_Dump lo) = Ok text ∧
    read_text text = Some j ∧ shows_object lo j.
Proof.
  destruct (wrote_toy (D := DumpContextImpl) FakeObjectReference_Dump lo) as (n & Hn & Hok & Hs).
  { intros r _. eapply wrote_mono; [unfold FakeObjectReference_Dump; wrote_map_tac|done]. }
  rewrite (written_text _ n Hn). destruct (AppendJson_read_text n Hok) as (t & ? & ?). eauto.
Qed.

(** ** A shared list, dumped *)
#[local] Existing Instance simple_printf.
#[local] Existing Instance simple_printf_laws.

Definition list_id : Uuid := {| high_word := 1; low_word := 2 |}.
Definition list_peer : CanonicalPeer := {| peer_id := "ip/a.com/1025" |}.
Definition first_tid : TransactionId := {| tid_a := 10; tid_b := 0; tid_c := 7 |}.
Definition list_content : ObjectContent.t := {|
  ObjectContent.committed_versions_ := [(first_tid,
    {| SharedObjectTransaction.events :=
         [CommittedEvent.ObjectCreation 0%nat;
          CommittedEvent.MethodCall "get_at" [set_int64_value 0 0];
          CommittedEvent.MethodReturn {[1%nat]} (set_object_reference 0 1%nat)];
       SharedObjectTransaction.origin_peer := list_peer |})];
  ObjectContent.version_map_ := {[list_peer := first_tid]};
  ObjectContent.up_to_date_peers_ := {[list_peer]};
  ObjectContent.max_requested_transaction_id_ := first_tid;
  ObjectContent.cached_live_object_ := Some 0%nat;
  ObjectContent.cached_sequence_point_ := SequencePointImpl.New;
|}.
Definition list_shared : ObjectTable.SharedObject ObjectContent.t := {|
  ObjectTable.interested_peers_ := {[list_peer]};
  ObjectTable.so_object_references_ := [0%nat];
  ObjectTable.object_content_ := Some list_content;
|}.
Definition list_tables : ObjectTable.t ObjectContent.t (LiveObject.heap LocalObjectImpl) := {|
  ObjectTable.object_references_ := [Some list_id; None];
  ObjectTable.shared_objects_ := {[list_id := list_shared]};
  ObjectTable.named_objects_ := ∅;
  ObjectTable.uuid_count := 1;
  ObjectTable.live := (LiveObject.New (ListObject [1%nat; 1%nat]) LiveObject.empty_heap).2;
|}.

Lemma shared_object_dump_reads_witness :
  ∃ text j, GetJsonString (SharedObject_Dump list_tables list_id) = Ok text ∧ read_text text = Some j ∧
    shows_shared_object list_id list_shared j.
Proof.
  apply (shared_object_dump_reads list_tables list_id list_shared); [reflexivity|].
  intros c Hc. injection Hc as <-.
  assert (live_dumpable [Some list_id; None] (ObjectTable.live list_tables) 0%nat) as Hlive.
  { exists (ListObject [1%nat; 1%nat]). split; [reflexivity|].
    change (dumped_references _) with [1%nat; 1%nat].
    repeat apply Forall_cons_2; try apply Forall_nil_2; unfold reference_dumpable; simpl; lia. }
  split; [|by intros l [= <-]].
  assert (∀ e, CommittedEvent.new_objects e ⊆ {[1%nat]} →
    Forall (reference_dumpable [Some list_id; None]) (elements (CommittedEvent.new_objects e))) as Hnew.
  { intros e He. apply Forall_forall. intros r Hr. apply elem_of_elements, He, elem_of_singleton in Hr as ->.
    unfold reference_dumpable. simpl. lia. }
  apply Forall_singleton. unfold event_dumpable. cbn.
  repeat apply Forall_cons_2; try apply Forall_nil_2; (split_and!; [..|by intros l [= <-]]); try apply Hnew;
    repeat apply Forall_cons_2; try apply Forall_nil_2; unfold value_dumpable, reference_dumpable; simpl;
    first [done|lia|set_solver].
Defined.

Example list_text :
  GetJsonString (toy_dump FakeObjectReference_Dump (RangeIteratorObject 5 (-2))) =
  Ok ("{ " ++ quote ++ "type" ++ quote ++ ": " ++ quote ++ "RangeIteratorObject" ++ quote ++ ", " ++
      quote ++ "limit" ++ quote ++ ": 5, " ++ quote ++ "i" ++ quote ++ ": -2 }").
Proof. reflexivity. Qed.
