(* ===== verification/Binaries.v ===== *)
(** * The programs

    The [main] functions of [bin/] and [RunToyLangProgram] of
    [toy_lang/run_toy_lang_program.cc].  The command line after the flags were taken
    off it is a list of words, of which the first is the name of the program; what a
    flag is set to is an argument.  A file is its text ([fopen]: none if it cannot be
    opened), and whether [fclose] succeeds is an input.  A program that a failed check
    does not end returns 0. *)
From S2P Require Import Prelude Text Ids Uuids VersionMap Queues Values Events Serialization Sockets Connections PeerImpl.
From S2P Require Import ObjectTable PlaybackThread ToyLexer ToyParser FakeEngine ToyObjects ToyRun.
From stdpp Require Import base tactics list strings gmap sorting.
From Stdlib Require Import ZArith Lia.
#[local] Open Scope string_scope.
#[local] Open Scope Z_scope.

Definition files := string → option string.

(** [CHECK_EQ(argc, 2)], and the argument. *)
Definition only_argument (argv : list string) : option string :=
  match argv with [_; a] => Some a | _ => None end.

(** ** [toy_lang]: a program on the engine that does not share *)
Module ToyLang.
#[local] Existing Instance FM_ret.
#[local] Existing Instance FM_bind.
Definition RunToyLangProgram (fuel : nat) (fopen : files) (fclose : Z) (source_file_name : string) (linger : bool) :
    FM (LO := LocalObjectImpl) unit :=
  match fopen source_file_name with
  | None => fun _ => Failed FatalError
  | Some text => _ ← RunToyLangFile fuel text linger; fm_check (fclose =? 0)
  end.

(** The peer is new; its [Stop] does nothing. *)
Definition main (fuel : nat) (fopen : files) (fclose : Z) (argv : list string) : FakeEngine.outcome LocalObjectImpl unit :=
  match only_argument argv with
  | None => Failed FatalError
  | Some name => RunToyLangProgram fuel fopen fclose name false NewFakeMethodContext
  end.

(** What is on the standard output when the program returns. *)
Theorem main_prints fuel fopen fclose argv text :
  output_of (main fuel fopen fclose argv) = Some text ↔
  ∃ name file, argv !! 1%nat = Some name ∧ length argv = 2%nat ∧ fopen name = Some file ∧ fclose = 0 ∧
    output_of (RunToyLangFile fuel file false NewFakeMethodContext) = Some text.
Proof.
  assert (∀ o : FakeEngine.outcome LocalObjectImpl unit,
    output_of match o with Done _ s => fm_check (fclose =? 0) s | Failed why => Failed why | Dangling => Dangling end =
      Some text ↔ fclose = 0 ∧ output_of o = Some text) as Hclose.
  { intros [u st|why|]; simpl; unfold fm_check; [|naive_solver..]. destruct (Z.eqb_spec fclose 0); naive_solver. }
  unfold main, only_argument, RunToyLangProgram. split.
  - destruct argv as [|? [|name [|? ?]]]; try discriminate. destruct (fopen name) as [file|] eqn:Hf; [|discriminate].
    intros [-> Ht]%Hclose. exists name, file. exact (conj eq_refl (conj eq_refl (conj Hf (conj eq_refl Ht)))).
  - intros (name & file & Hn & Hl & Hf & -> & Ht). destruct argv as [|? [|? [|? ?]]]; try discriminate Hl. injection Hn as ->.
    rewrite Hf. apply Hclose. exact (conj eq_refl Ht).
Qed.

(** The second program of [toy_lang/testdata]. *)
Example toy_lang_hello :
  let hello name := if bool_decide (name = "hello.toy")
    then Some ("(print " ++ str1 Lexer.quote ++ "Hello world!" ++ str1 Lexer.quote ++ ")") else None in
  (output_of (main 10 hello 0 ["toy_lang"; "hello.toy"]), main 10 hello 0 ["toy_lang"], main 10 hello 0 ["toy_lang"; "x"]) =
  (Some (lines_of ["Hello world!"]), Failed FatalError, Failed FatalError).
Proof. vm_compute. reflexivity. Qed.
End ToyLang.

(** ** [floating_toy_lang]: a program on a peer of a network *)
Module FloatingToyLang.
#[local] Existing Instance W_ret.
#[local] Existing Instance W_bind.
Section network.
Context {Store : Type} (NewTransactionStore : CanonicalPeer → res Store).
(** [TransactionStore::RunProgram] of a program object, with the flag [linger]. *)
Context (StoreRunProgram : LocalObjectImpl → bool → Store → Connections.outcome Store Value).
Abbreviation peer := (PeerImpl.t (Store := Store)).

(** [RunToyLangFile] on a network peer.  The return value stays as it was constructed
    if the peer is not running. *)
Definition RunToyLangFile (file : string) (linger : bool) : W peer unit :=
  match parse_program file with
  | Some (Ok (expression, external_symbol_ids)) =>
      v ← PeerImpl.RunProgram (StoreRunProgram (ProgramObject external_symbol_ids expression) linger);
      Connections.lift (CHECK (bool_decide (data (default NewValue v) = EMPTY)))
  | _ => fun _ => Abort
  end.
Definition RunToyLangProgram (fopen : files) (fclose : Z) (source_file_name : string) (linger : bool) : W peer unit :=
  text ← Connections.lift (check_some (fopen source_file_name));
  _ ← RunToyLangFile text linger;
  Connections.lift (CHECK (fclose =? 0)).

(** [local_address] is what [GetLocalAddress] returns, [opened] says to which peers a
    connection can be opened. *)
Definition main (fopen : files) (fclose : Z) (peer_port : Z) (known_peers : string) (linger : bool)
    (local_address : res string) (opened : string → bool) (argv : list string) : Connections.outcome peer unit :=
  if negb ((0 <=? peer_port) && (peer_port <? 65536)) then Abort else
  let known_peer_ids := ParseCommaSeparatedList known_peers in
  match only_argument argv, local_address with
  | Some name, Ok address =>
      match PeerImpl.CreateNetworkPeer NewTransactionStore "toy_lang" address peer_port
              ((fun id => (id, opened id)) <$> known_peer_ids) with
      | Ret _ p =>
          (_ ← RunToyLangProgram fopen fclose name linger;
           _ ← PeerImpl.Stop;
           p ← Connections.gets (fun p => p);
           Connections.lift (PeerImpl.Destroy p)) p
      | Wait p => Wait p
      | Abort => Abort
      end
  | _, _ => Abort
  end.

(** The whole life of a peer that knows no other peer: started for its address, it
    runs the program object of the file, without lingering or with it, and when that
    returns nothing, the peer is stopped, and destroyed in a state in which it may
    be. *)
Theorem single_peer_runs fopen port linger address opened prog name file e ids store store' v :
  0 ≤ port < 65536 → PeerImpl.valid_id (MakePeerId address port) →
  NewTransactionStore {| peer_id := MakePeerId address port |} = Ok store →
  fopen name = Some file → parse_program file = Some (Ok (e, ids)) →
  StoreRunProgram (ProgramObject ids e) linger store = Ret v store' → data v = EMPTY →
  ∃ p, main fopen 0 port "" linger (Ok address) opened [prog; name] = Ret tt p ∧
    PeerImpl.transaction_store_ p = None ∧ PeerImpl.state_ p = PeerImpl.at_state STOPPED.
Proof.
  intros Hport Hid Hstore Hf Hp Hrun Hv. unfold main. rewrite (proj2 (Z.leb_le 0 port)), (proj2 (Z.ltb_lt port 65536)) by lia.
  destruct ConnectionManager.New as [c| |] eqn:Hc; [|done..].
  destruct (PeerImpl.start_Ret NewTransactionStore (fun _ => Abort) "toy_lang" address port [] store c _ ltac:(done) Hid
    (Forall_nil_2 _) Hstore Hc eq_refl) as (p & Hstart & Hs & Ht & Hms & Hl & Hn & Hu & _).
  cbn [andb negb only_argument]. change (ParseCommaSeparatedList "") with (@nil string). cbn [fmap list_fmap].
  unfold PeerImpl.CreateNetworkPeer, PeerImpl.New. rewrite Hc. change lifecycle with (Ok (PeerImpl.at_state NOT_STARTED)).
  cbn [mbind res_bind]. rewrite Hstart. unfold RunToyLangProgram, RunToyLangFile.
  cbv [mbind W_bind Connections.lift check_some Connections.gets]. rewrite Hf, Hp. unfold PeerImpl.RunProgram. rewrite Hs.
  change (StateVariable.WaitForNotState (Z.lor NOT_STARTED STARTING) (PeerImpl.at_state RUNNING)) with (Ok (Queues.Done RUNNING)).
  rewrite Ht, Hrun. change (RUNNING =? RUNNING) with true. cbn [negb default from_option id]. rewrite Hv, bool_decide_true by done.
  destruct (PeerImpl.stop_idle (PeerImpl.set_store (Some store') p)) as (p' & Hstop & Hs' & Ht'); [done..|exact Hu|].
  change (CHECK (0 =? 0)) with (Ok tt). change (CHECK true) with (Ok tt). cbn iota beta. rewrite Hstop.
  assert (PeerImpl.Destroy p' = Ok tt) as -> by (unfold PeerImpl.Destroy; rewrite Hs'; vm_compute; reflexivity).
  exists p'. exact (conj eq_refl (conj Ht' Hs')).
Qed.
End network.

(** A store in which every program returns nothing; a port that is not one; a file
    that is not there; a program that returns something. *)
Example floating_mains :
  let store (p : CanonicalPeer) : res string := Ok (peer_id p) in
  let run (v : Value) (_ : LocalObjectImpl) (_ : bool) (s : string) : Connections.outcome string Value := Ret v s in
  let one_file name := if bool_decide (name = "a.toy") then Some "(print 1)" else None in
  let returns (o : Connections.outcome (PeerImpl.t (Store := string)) unit) := match o with Ret _ _ => true | _ => false end in
  (returns (main store (run (set_empty 0)) one_file 0 1025 "" false (Ok "10.0.0.1") (fun _ => true) ["floating_toy_lang"; "a.toy"]),
   returns (main store (run (set_empty 0)) one_file 0 65536 "" false (Ok "10.0.0.1") (fun _ => true) ["floating_toy_lang"; "a.toy"]),
   returns (main store (run (set_empty 0)) one_file 0 1025 "" false (Ok "10.0.0.1") (fun _ => true) ["floating_toy_lang"; "b.toy"]),
   returns (main store (run NewValue) one_file 0 1025 "" false (Ok "10.0.0.1") (fun _ => true) ["floating_toy_lang"; "a.toy"])) =
  (true, false, false, false).
Proof. vm_compute. reflexivity. Qed.
End FloatingToyLang.

(** ** Tools *)
Definition line (s : string) : string := s ++ nl.

(** [generate_named_object_id] *)
Module GenerateNamedObjectId.
Section tool.
Context `{OsspUuid}.
Definition kObjectNamespaceUuidString : string := "ab2d0b40fe6211e2bf8b000c2949fc67".
Definition main (argv : list string) : res string :=
  name ← check_some (only_argument argv);
  object_namespace_uuid ← StringToUuid kObjectNamespaceUuidString;
  object_id ← GeneratePredictableUuid object_namespace_uuid name;
  Ok (line (UuidToString object_id)).

(** The tool prints the id of the object that a peer with the same uuid library makes
    for the name, whatever the peer has done before. *)
Theorem named_object_id_printed {C LiveHeap} (new_uuid : nat → Uuid) (uuid_of : Uuid → string → Uuid) prog name (s : ObjectTable.t C LiveHeap) :
  (∀ ns n, GeneratePredictableUuid ns n = Ok (uuid_of ns n)) → ObjectTable.wf s → name ≠ "" →
  ∃ r s' id, ObjectTable.CreateBoundObjectReference new_uuid uuid_of name s = Ok (r, s') ∧
    ObjectTable.shared_object s' r = Some id ∧ main [prog; name] = Ok (line (UuidToString id)).
Proof.
  intros Huuid Hwf Hname. destruct (ObjectTable.CreateBound_total new_uuid uuid_of name s Hwf Hname) as (r & s' & Hc & _ & _ & Hr).
  exists r, s', (ObjectTable.named_id uuid_of name). split_and!; [done|done|]. unfold main. cbn [only_argument check_some mbind res_bind].
  change (StringToUuid kObjectNamespaceUuidString) with ObjectTable.object_namespace_uuid. unfold ObjectTable.named_id.
  destruct ObjectTable.object_namespace_uuid as [ns| |] eqn:E; [|vm_compute in E; discriminate E..].
  cbn [mbind res_bind]. by rewrite Huuid.
Qed.
End tool.
End GenerateNamedObjectId.

(** [generate_transaction_ids]: [clocks] is what the clock reads, once for each id. *)
Module GenerateTransactionIds.
Fixpoint print_ids (count : nat) (clock : nat → timespec) (generator : TransactionIdGenerator) : list string :=
  match count with
  | O => []
  | S count =>
      let '(transaction_id, generator) := Generate (clock O) generator in
      line (TransactionIdToString transaction_id) :: print_ids count (fun i => clock (S i)) generator
  end.
Definition main (count : Z) (uuid : Uuid) (clock : nat → timespec) : list string :=
  print_ids (Z.to_nat count) clock (NewTransactionIdGenerator uuid).

Lemma print_ids_all count clock g :
  print_ids count clock g = line ∘ TransactionIdToString <$> (GenerateAll (clock <$> seq 0 count) g).1.
Proof.
  revert clock g. induction count as [|count IH]; intros clock g; [done|].
  cbn [print_ids seq fmap list_fmap GenerateAll]. destruct (Generate (clock 0%nat) g) as [t g'].
  rewrite IH, <- seq_shift, <- list_fmap_compose.
  change ((clock ∘ S) <$> seq 0 count) with ((fun i => clock (S i)) <$> seq 0 count).
  by destruct (GenerateAll _ g') as [ids g''].
Qed.

Lemma hex_pad_app_inj a a' rest rest' : is_uint64 a → is_uint64 a' →
  hex_pad 16 a ++ rest = hex_pad 16 a' ++ rest' → a = a' ∧ rest = rest'.
Proof.
  intros Ha Ha' E. assert (hex_pad 16 a = hex_pad 16 a') as Ep.
  { rewrite <- (substring_app_l (hex_pad 16 a) rest), <- (substring_app_l (hex_pad 16 a') rest'), E. by rewrite !hex_pad_length. }
  split.
  - pose proof (ParseHexUint64_pad a Ha) as P. rewrite Ep, ParseHexUint64_pad in P by done. by injection P.
  - rewrite Ep in E. by apply (inj (String.append (hex_pad 16 a'))).
Qed.
Lemma GenerateAll_words clocks g t : t ∈ (GenerateAll clocks g).1 →
  tid_b t = high_word (uuid_ g) ∧ tid_c t = low_word (uuid_ g).
Proof.
  revert g. induction clocks as [|ts clocks IH]; intros g Ht; [by apply elem_of_nil in Ht|].
  cbn [GenerateAll Generate] in Ht. destruct (GenerateAll clocks _) as [ids g''] eqn:E.
  apply elem_of_cons in Ht as [->|Ht]; [done|]. eapply (IH {| uuid_ := uuid_ g |}). by rewrite E.
Qed.

Lemma GenerateAll_length clocks g : length (GenerateAll clocks g).1 = length clocks.
Proof.
  revert g. induction clocks as [|ts clocks IH]; intros g; [done|]. cbn [GenerateAll Generate].
  match goal with |- context [GenerateAll clocks ?g1] => specialize (IH g1); destruct (GenerateAll clocks g1) end.
  simpl in *. by rewrite IH.
Qed.

(** As long as the clock and the number of ids stay below the limit of [uint64], the
    tool prints [count] different lines. *)
Theorem printed_ids_differ count uuid clock :
  0 ≤ count < kUint64Max → uuid_ok uuid → (∀ i, time_value_of (clock i) + count < kUint64Max) →
  length (main count uuid clock) = Z.to_nat count ∧ NoDup (main count uuid clock).
Proof.
  intros Hcount [Hh Hl] Hclock. unfold main. rewrite print_ids_all. set (cs := clock <$> seq 0 (Z.to_nat count)).
  assert (length cs = Z.to_nat count) as Hlen by (unfold cs; by rewrite length_fmap, length_seq).
  rewrite length_fmap, GenerateAll_length. split; [done|].
  pose proof (GenerateAll_words cs (NewTransactionIdGenerator uuid)) as Hw.
  destruct (GenerateAll cs (NewTransactionIdGenerator uuid)) as [ids g] eqn:E. simpl in *.
  destruct (generate_strictly_increasing uuid cs ids g) as [Hsort Hvalid]; [|by rewrite Hlen; lia|done|].
  { intros ts (i & -> & _)%list_elem_of_fmap. specialize (Hclock i). rewrite Hlen. lia. }
  apply NoDup_fmap_2_strong.
  - intros t t' Ht Ht' Et. unfold line, compose, TransactionIdToString in Et. rewrite !str_app_assoc in Et.
    rewrite Forall_forall in Hvalid. pose proof (Hvalid t Ht) as Hv. pose proof (Hvalid t' Ht') as Hv'.
    unfold IsValidTransactionId, kUint64Max in Hv, Hv'. apply hex_pad_app_inj in Et as [Ea _]; [|unfold is_uint64; lia..].
    destruct (Hw t Ht) as [Hb Hc], (Hw t' Ht') as [Hb' Hc'], t, t'. simpl in *. congruence.
  - clear -Hsort. induction Hsort as [|t ids _ IH Hall]; constructor; [|done]. intros Hin.
    rewrite Forall_forall in Hall. specialize (Hall t Hin). ord.
Qed.

(** A clock that stands still. *)
Example three_ids :
  main 3 {| high_word := 10; low_word := 11 |} (fun _ => {| tv_sec := 0; tv_nsec := 5 |}) =
  (fun a => line ("000000000000000" ++ a ++ "000000000000000a000000000000000b")) <$> ["5"; "6"; "7"].
Proof. vm_compute. reflexivity. Qed.
End GenerateTransactionIds.

(** [get_unused_port_for_testing]: the static variable of the function is -1 at the
    start. *)
Module GetUnusedPort.
Section tool.
Context {W : Type} `{System W}.
Definition main (fuel : nat) : Sockets.OS (option string) :=
  port ← Sockets.GetUnusedPortForTesting fuel (-1);
  mret (line ∘ printf_d <$> port).
End tool.
End GetUnusedPort.
